(* ===== verification/_CoqProject ===== *)
-Q . S2P
Prelude.v
Text.v
Crypto.v
Bincode.v
Identity.v
Event.v
EventStore.v
EventOrder.v
EventSync.v
Ratchet.v
RatchetSession.v
SenderKey.v
Dm.v
Channel.v
ChannelMessage.v
Expiry.v
RecordLog.v
RatchetStore.v
Names.v
DmRatchet.v
Announce.v
Transition.v
Framing.v
Presence.v
Transport.v
TransportDelivery.v
Archive.v
Scope.v
Origin.v
Roster.v
File.v
Message.v
Savename.v
Sticker.v
FileTransfer.v
FileDelivery.v
Election.v
