(* ===== verification/Prelude.v ===== *)
(** * Mesh-Talk core: a verification library

    Mesh-Talk is a serverless messenger for local networks.  This library models the
    protocol core of crates/mesh-talk-core/src (below: paths under that directory) as
    executable definitions and proves what the parts promise and how they work together.

    ** The program and how its parts interact

    A device (identity/device.rs) signs events (eventlog/event.rs) into an append-only log
    (eventlog/store.rs) that peers reconcile (eventlog/sync.rs) and read in one causal
    order (eventlog/order.rs).  Event payloads are sealed: direct messages by a double
    ratchet (ratchet/, node/dm_ratchet.rs) whose sessions live in an encrypted file
    (storage/record_log.rs, node/ratchet_sessions.rs), channel messages by sender keys
    (channel/), files by chunk keys announced in manifests (file/, node/files.rs).  Inside
    the seal a message carries a framed body and a deadline (node/message.rs, expiry.rs).
    Peers find each other by signed announcements (discovery/) and talk over authenticated
    Noise channels (transport/).  A profile can be exported to a sealed archive
    (recovery/archive.rs).

    ** Files

    Foundations.  Prelude: bytes, results, machine integers, total orders and sorted
    listings, list lemmas, the [len] and [mesh] databases, commuting steps.  Text: UTF-8 and
    [char].  Crypto: the cryptographic crates as a class with laws, and [ToyCrypto].
    Bincode: the serializer as classes per type, and [Fixint].

    Log.  Identity, Event, EventStore ([EventLog], one field per index of the source),
    EventOrder, EventSync ([SyncStore] is the trait, [EventLog] its instance).

    Messaging.  Ratchet and RatchetSession (two parties as a step relation), DmRatchet,
    SenderKey, Dm (sealed boxes, group keys), Channel (membership), ChannelMessage, Expiry,
    Message (bodies, envelopes, control frames).

    Storage.  RecordLog, RatchetStore, Names (node/name_directory.rs), Archive.

    Discovery.  Announce (accounts, announcements, queries), Transition
    (identity/account_transition.rs), Scope (discovery/scope.rs, discovery/visibility.rs),
    Origin (node/discovery_origin.rs), Roster, Election (postoffice/election.rs,
    util/safety_number.rs).

    Transport.  Framing, Presence (transport/auth.rs, presence_auth.rs), Transport
    (handshake, session, channel), TransportDelivery (both ends together).

    Files.  File (file/crypto.rs, file/manifest.rs), Savename, Sticker, FileTransfer
    (node/files.rs, node/files/chunks.rs), FileDelivery.

    ** How code becomes definitions

    A struct is a record, an enum an inductive type, a function a definition of the same
    name, prefixed where two files share one.  A method on [&mut self] takes the state and
    returns it with its result; [Result] is [result], so error paths are values.  [u8]
    arrays are byte lists whose length is part of [type_wf]; a [String] is its UTF-8 bytes
    ([string_wf]); unsigned integers are [N] with wrapping, saturating or checked operations
    as the source has them.  Hash maps and sets are [gmap] and [gset].  Randomness, clocks and
    the outcomes of I/O are arguments.  An asynchronous function of the transport is a tree of
    the reads, writes and questions it performs.  Locks and tasks appear as step relations.

    Third-party code is a class parameter: [Crypto], [Bincode] and its variants,
    [NoiseProtocol], [Base64], [Base64Std], [ImageCodec], [WireSizes].  The laws of these
    classes are documented behaviour (round trips, lengths, agreement), never secrecy or
    unforgeability; each is inhabited by a concrete instance on which the witnesses run.

    ** What is proved

    - Logs: every reachable log satisfies the index invariant; two logs with the same events
      answer alike; no author has two events at one position; each outcome of [append] is
      characterised; the order is a topological sort that refines a greedy specification.
    - Reconciliation: an exchange ends with both sides holding the union, bounded exchanges
      reach it in a bounded number of rounds, and a received batch cannot harm a log.
    - Ratchets: over a network that reorders and loses, with restarts in between, whatever is
      delivered opens to what was sent; the service above the ratchet refines this; channel
      messages open in any order; the durable receiver rows refine the in-memory operations.
    - Storage: after a stop at any point of a write the record log and the session store read
      back the state before or after it.  Archives read back what was written, and success of
      reading means that the archive is whole.
    - Channels: replicas converge under any order and repetition of updates; a departure is not
      undone by snapshots made before it.
    - Discovery: the roster holds only verified peers within its bounds; staging rolls back;
      relays renew nothing; replies answer queries; no send overlaps a setting that forbids it.
    - Transport: an opened channel names the peer that proved itself on it; a listener
      discloses nothing before admission; under every interleaving both ends complete and
      exchange their messages in order.
    - Files and messages: a staged file arrives byte for byte; only verified content is read or
      saved; save paths stay inside their directory; manifests, deadlines and bodies are read
      exactly as written; protected text fails closed.

    ** Bounds and fuel

    Loops that are not structural take fuel from the size of their input.  Every round of the
    stream, record, text, chunk and archive loops consumes a byte or ends, so the length (or
    one more) suffices; every round of the graph traversal takes a node; a search for a free
    file name passes each taken name once; a protected manifest nests one level.  Theorems
    about results state success for the fuel the definitions use, so running out is never
    what makes them true.  Integer limits of the source ([u32] counters,
    [u64] lengths, the caps on skipped keys, peers, frames and files) are kept; a theorem that
    needs a value to stay below one says so.

    ** Not modelled

    The SQLCipher stores and everything that is a query on them (eventlog/repository,
    storage/database.rs, storage/profile, the indexed modules of node/ and postoffice/): the
    meaning of the code there is the meaning of SQL.  The runtime (tasks, sockets, timers:
    node/runtime, node/serving.rs, node/session_pool.rs, discovery/service.rs,
    transport/net.rs, util/fanout.rs).  Key-store and login files, folder archives, the command
    line, the desktop application, the integrations and the frontend.  Several parts are pure
    but not translated: the account-authority rules of channels, account synchronisation
    frames, pairing, relay envelopes and certificates, profiles and trust cards, retry and
    route policies, snapshot records and recovery keys.  The manifest lists every part with
    its status.  Confidentiality is outside the model: no law or theorem speaks of what an
    attacker can learn from ciphertext. *)

From stdpp Require Export prelude gmap list sorting fin_maps strings pretty.
From Stdlib Require Export NArith Strings.Byte.

(** ** Bytes and byte strings *)

Abbreviation byte := Byte.byte.
Abbreviation bytes := (list Byte.byte).

#[global] Instance byte_eq_decision : EqDecision byte := Byte.byte_eq_dec.

#[global] Instance byte_countable : Countable byte.
Proof.
  refine {| encode b := N.succ_pos (Byte.to_N b);
            decode p := Byte.of_N (Pos.pred_N p) |}.
  by intros [].
Defined.

#[global] Instance byte_inhabited : Inhabited byte := populate Byte.x00.

Definition byte_of_N (x : N) : byte := default Byte.x00 (Byte.of_N x).

Lemma to_N_byte_of_N x : (x < 256)%N → Byte.to_N (byte_of_N x) = x.
Proof.
  intros Hx. unfold byte_of_N. destruct (Byte.of_N x) as [b|] eqn:E; simpl.
  - by apply Byte.to_of_N.
  - apply Byte.of_N_None_iff in E. lia.
Qed.

Lemma byte_of_N_to_N b : byte_of_N (Byte.to_N b) = b.
Proof. unfold byte_of_N. by rewrite Byte.of_to_N. Qed.

Lemma byte_to_N_bound b : (Byte.to_N b < 256)%N.
Proof. pose proof (Byte.to_N_bounded b). lia. Qed.

Lemma byte_to_N_inj a b : Byte.to_N a = Byte.to_N b → a = b.
Proof. intros H. by rewrite <-(byte_of_N_to_N a), H, byte_of_N_to_N. Qed.

(** A byte-string literal, [b"..."]. *)
Definition str (s : string) : bytes := String.list_byte_of_string s.
#[global] Arguments str s%_string_scope.

(** Decimal rendering of an integer, [{n}] in a format string. *)
Definition decimal (n : N) : bytes := str (pretty n).

(** ** Results

    [Result<T, E>]: the error path is a value.  [?] is the monadic bind. *)

Inductive result (E A : Type) :=
  | Ok (a : A)
  | Err (e : E).
Arguments Ok {E A} _.
Arguments Err {E A} _.

#[global] Instance result_ret E : MRet (result E) := λ A a, Ok a.
#[global] Instance result_bind E : MBind (result E) := λ A B f m,
  match m with Ok a => f a | Err e => Err e end.
#[global] Instance result_fmap E : FMap (result E) := λ A B f m,
  match m with Ok a => Ok (f a) | Err e => Err e end.

Lemma Ok_inj {E A} (a b : A) : (Ok a : result E A) = Ok b → a = b.
Proof. by intros [= ->]. Qed.

Definition ok_or {E A} (o : option A) (e : E) : result E A :=
  match o with Some a => Ok a | None => Err e end.

Definition map_err {E F A} (f : E → F) (r : result E A) : result F A :=
  match r with Ok a => Ok a | Err e => Err (f e) end.

Definition is_ok {E A} (r : result E A) : bool :=
  match r with Ok _ => true | Err _ => false end.

Lemma ok_or_Ok {E A} (o : option A) (e : E) a : ok_or o e = Ok a ↔ o = Some a.
Proof. destruct o; simpl; naive_solver. Qed.

(** ** Machine integers

    Unsigned integers are values of [N]; every operation that can leave the
    width says what the code does there: [checked_add] returns [None],
    [saturating_add] stays at the maximum, and the plain [+] of a release build
    wraps. *)

Definition u16_max : N := 65535.
Definition u32_max : N := 4294967295.
Definition u64_max : N := 18446744073709551615.
Definition usize_max : N := u64_max.

Definition checked_add (max a b : N) : option N :=
  if decide (a + b ≤ max)%N then Some (a + b)%N else None.
Definition saturating_add (max a b : N) : N := N.min (a + b) max.
Definition wrapping_add (max a b : N) : N := ((a + b) mod (max + 1))%N.

Lemma checked_add_Some max a b c :
  checked_add max a b = Some c ↔ c = (a + b)%N ∧ (c ≤ max)%N.
Proof. unfold checked_add. case_decide; naive_solver. Qed.

Lemma checked_add_None max a b :
  checked_add max a b = None ↔ (max < a + b)%N.
Proof. unfold checked_add. case_decide; split; intros; (congruence || lia). Qed.

Lemma wrapping_add_small max a b :
  (a + b ≤ max)%N → wrapping_add max a b = (a + b)%N.
Proof. intros. apply N.mod_small. lia. Qed.

Lemma wrapping_add_le max a b : (wrapping_add max a b ≤ max)%N.
Proof.
  unfold wrapping_add.
  pose proof (N.mod_upper_bound (a + b) (max + 1) ltac:(lia)). lia.
Qed.

(** The values that fit in 4 and 8 bytes. *)
Lemma u32_width x : (x ≤ u32_max ↔ x < 256 ^ N.of_nat 4)%N.
Proof. change (256 ^ N.of_nat 4)%N with (u32_max + 1)%N. lia. Qed.

Lemma u64_width x : (x ≤ u64_max ↔ x < 256 ^ N.of_nat 8)%N.
Proof. change (256 ^ N.of_nat 8)%N with (u64_max + 1)%N. lia. Qed.

(** ** Fixed-width byte encodings *)

Fixpoint le_bytes (n : nat) (x : N) : bytes :=
  match n with
  | O => []
  | S n => byte_of_N (x mod 256) :: le_bytes n (x / 256)
  end.

Fixpoint le_value (l : bytes) : N :=
  match l with
  | [] => 0
  | b :: l => Byte.to_N b + 256 * le_value l
  end.

Definition be_bytes (n : nat) (x : N) : bytes := reverse (le_bytes n x).
Definition be_value (l : bytes) : N := le_value (reverse l).

Lemma length_le_bytes n x : length (le_bytes n x) = n.
Proof. revert x; induction n; simpl; auto. Qed.

Lemma length_be_bytes n x : length (be_bytes n x) = n.
Proof. unfold be_bytes. by rewrite length_reverse, length_le_bytes. Qed.

Lemma le_value_le_bytes n x :
  (x < 256 ^ N.of_nat n)%N → le_value (le_bytes n x) = x.
Proof.
  revert x. induction n as [|n IH]; intros x Hx.
  - simpl in *. lia.
  - rewrite Nat2N.inj_succ, N.pow_succ_r' in Hx. cbn [le_bytes le_value].
    rewrite to_N_byte_of_N by (apply N.mod_upper_bound; lia).
    rewrite IH by (apply N.Div0.div_lt_upper_bound; lia).
    pose proof (N.div_mod x 256). lia.
Qed.

Lemma le_value_bound l : (le_value l < 256 ^ N.of_nat (length l))%N.
Proof.
  induction l as [|b l IH]; [simpl; lia|].
  cbn [le_value length]. rewrite Nat2N.inj_succ, N.pow_succ_r'.
  pose proof (byte_to_N_bound b). lia.
Qed.

Lemma le_bytes_le_value l : le_bytes (length l) (le_value l) = l.
Proof.
  induction l as [|b l IH]; [done|]. cbn [le_value length le_bytes].
  pose proof (byte_to_N_bound b) as Hb.
  replace ((Byte.to_N b + 256 * le_value l) mod 256)%N with (Byte.to_N b).
  2:{ rewrite (N.mul_comm 256), N.Div0.mod_add, N.mod_small; lia. }
  replace ((Byte.to_N b + 256 * le_value l) / 256)%N with (le_value l).
  2:{ rewrite (N.mul_comm 256), N.div_add, N.div_small by lia. lia. }
  by rewrite byte_of_N_to_N, IH.
Qed.

Lemma le_bytes_value n l : length l = n → le_bytes n (le_value l) = l.
Proof. intros <-. apply le_bytes_le_value. Qed.

Lemma be_value_be_bytes n x :
  (x < 256 ^ N.of_nat n)%N → be_value (be_bytes n x) = x.
Proof.
  intros. unfold be_value, be_bytes. rewrite reverse_involutive.
  by apply le_value_le_bytes.
Qed.

Lemma be_bytes_value n l : length l = n → be_bytes n (be_value l) = l.
Proof.
  intros Hl. unfold be_value, be_bytes.
  rewrite le_bytes_value by by rewrite length_reverse.
  apply reverse_involutive.
Qed.

Lemma be_value_bound n l : length l = n → (be_value l < 256 ^ N.of_nat n)%N.
Proof.
  intros <-. unfold be_value. rewrite <-(length_reverse l). apply le_value_bound.
Qed.

#[global] Arguments le_bytes : simpl never.
#[global] Arguments be_bytes : simpl never.
#[global] Arguments le_value : simpl never.
#[global] Arguments be_value : simpl never.

(** ** Total orders

    The code sorts and keys ordered sets by [Ord]: [u64], byte arrays and byte
    strings (lexicographic), and pairs.  One class carries the comparison, one
    its laws; sorting, de-duplication and ordered iteration are derived. *)

Class Compare (A : Type) := cmp : A → A → comparison.

Class CompareLaws (A : Type) `{Compare A} := {
  cmp_eq : ∀ x y : A, cmp x y = Eq ↔ x = y;
  cmp_opp : ∀ x y : A, cmp y x = CompOpp (cmp x y);
  cmp_lt_trans : ∀ x y z : A, cmp x y = Lt → cmp y z = Lt → cmp x z = Lt
}.

#[global] Instance compare_N : Compare N := N.compare.
#[global] Instance compare_N_laws : CompareLaws N.
Proof.
  split; unfold cmp, compare_N.
  - apply N.compare_eq_iff.
  - intros x y. apply N.compare_antisym.
  - intros x y z. rewrite !N.compare_lt_iff. lia.
Qed.

#[global] Instance compare_byte : Compare byte := λ a b,
  N.compare (Byte.to_N a) (Byte.to_N b).
#[global] Instance compare_byte_laws : CompareLaws byte.
Proof.
  split; unfold cmp, compare_byte.
  - intros x y. rewrite N.compare_eq_iff. split; [apply byte_to_N_inj|by intros ->].
  - intros x y. apply N.compare_antisym.
  - intros x y z. rewrite !N.compare_lt_iff. lia.
Qed.

Section compare_list.
Context `{CompareLaws A}.

Fixpoint list_cmp (x y : list A) : comparison :=
  match x, y with
  | [], [] => Eq
  | [], _ => Lt
  | _, [] => Gt
  | a :: x, b :: y =>
      match cmp a b with Eq => list_cmp x y | c => c end
  end.

#[global] Instance compare_list : Compare (list A) := list_cmp.

#[global] Instance compare_list_laws : CompareLaws (list A).
Proof.
  split; unfold cmp, compare_list.
  - induction x as [|a x IH]; intros [|b y]; simpl; try naive_solver.
    destruct (cmp a b) eqn:E.
    + apply cmp_eq in E as ->. rewrite IH. naive_solver.
    + split; [done|]. intros [= -> _]. by rewrite (proj2 (cmp_eq b b)) in E.
    + split; [done|]. intros [= -> _]. by rewrite (proj2 (cmp_eq b b)) in E.
  - induction x as [|a x IH]; intros [|b y]; simpl; try done.
    rewrite (cmp_opp a b). destruct (cmp a b); simpl; auto.
  - induction x as [|a x IH]; intros [|b y] [|c z]; simpl; try done.
    destruct (cmp a b) eqn:E1, (cmp b c) eqn:E2; try done;
      try apply cmp_eq in E1 as ->; try apply cmp_eq in E2 as ->;
      rewrite ?E1, ?E2, ?(proj2 (cmp_eq _ _) eq_refl); eauto.
    by rewrite (cmp_lt_trans _ _ _ E1 E2).
Qed.
End compare_list.

Section compare_pair.
Context `{CompareLaws A} `{CompareLaws B}.

#[global] Instance compare_pair : Compare (A * B) := λ x y,
  match cmp x.1 y.1 with Eq => cmp x.2 y.2 | c => c end.

#[global] Instance compare_pair_laws : CompareLaws (A * B).
Proof.
  split; unfold cmp at 1, compare_pair.
  - intros [a b] [c d]; simpl. destruct (cmp a c) eqn:E.
    + apply cmp_eq in E as ->. rewrite cmp_eq. naive_solver.
    + split; [done|]. intros [= -> _]. by rewrite (proj2 (cmp_eq c c)) in E.
    + split; [done|]. intros [= -> _]. by rewrite (proj2 (cmp_eq c c)) in E.
  - intros [a b] [c d]; unfold cmp at 3; simpl.
    rewrite (cmp_opp a c), (cmp_opp b d). by destruct (cmp a c).
  - intros [a b] [c d] [e f]; unfold cmp at 3 6; simpl.
    destruct (cmp a c) eqn:E1, (cmp c e) eqn:E2; try done;
      try apply cmp_eq in E1 as ->; try apply cmp_eq in E2 as ->;
      rewrite ?E1, ?E2, ?(proj2 (cmp_eq _ _) eq_refl); eauto using cmp_lt_trans.
    by rewrite (cmp_lt_trans _ _ _ E1 E2).
Qed.

Lemma cmp_pair (a c : A) (b d : B) :
  cmp (a, b) (c, d) = match cmp a c with Eq => cmp b d | o => o end.
Proof. done. Qed.
End compare_pair.

Definition cle `{Compare A} (x y : A) : Prop := cmp x y ≠ Gt.
Definition clt `{Compare A} (x y : A) : Prop := cmp x y = Lt.

#[global] Instance comparison_eq_dec : EqDecision comparison.
Proof. solve_decision. Defined.
#[global] Instance cle_dec `{Compare A} : RelDecision (cle (A:=A)) :=
  λ x y, decide (cmp x y ≠ Gt).
#[global] Instance clt_dec `{Compare A} : RelDecision (clt (A:=A)) :=
  λ x y, decide (cmp x y = Lt).

Section order.
Context `{CompareLaws A}.
Implicit Types x y z : A.

Lemma cmp_refl x : cmp x x = Eq.
Proof. by apply cmp_eq. Qed.

Lemma cle_lt_or_eq x y : cle x y ↔ clt x y ∨ x = y.
Proof.
  unfold cle, clt. destruct (cmp x y) eqn:E.
  - apply cmp_eq in E as ->. naive_solver.
  - naive_solver.
  - split; [done|]. intros [?| ->]; [done|]. by rewrite cmp_refl in E.
Qed.

#[global] Instance cle_total_order : TotalOrder (cle (A:=A)).
Proof.
  split; [split; [split|]|].
  - intros x. unfold cle. by rewrite cmp_refl.
  - intros x y z. rewrite !cle_lt_or_eq. unfold clt.
    intros [?| ->] [?| ->]; eauto using cmp_lt_trans.
  - intros x y. unfold cle. rewrite (cmp_opp x y).
    destruct (cmp x y) eqn:E; simpl; [|done..]. by intros; apply cmp_eq.
  - intros x y. unfold trichotomy, strict, cle. rewrite (cmp_opp x y).
    destruct (cmp x y) eqn:E; simpl; [|naive_solver..].
    right; left. by apply cmp_eq.
Qed.

#[global] Instance clt_strict_order : StrictOrder (clt (A:=A)).
Proof.
  split.
  - intros x. unfold clt, complement. by rewrite cmp_refl.
  - intros x y z. unfold clt. apply cmp_lt_trans.
Qed.

Lemma clt_not_cle x y : clt x y ↔ ¬ cle y x.
Proof.
  unfold clt, cle. rewrite (cmp_opp x y). destruct (cmp x y); simpl; naive_solver.
Qed.

Lemma clt_cle x y : clt x y → cle x y.
Proof. rewrite cle_lt_or_eq. auto. Qed.

Lemma cle_ne_clt x y : cle x y → x ≠ y → clt x y.
Proof. rewrite cle_lt_or_eq. naive_solver. Qed.

Lemma clt_irrefl x : ¬ clt x x.
Proof. apply (irreflexivity clt). Qed.

Lemma clt_total x y : clt x y ∨ x = y ∨ clt y x.
Proof.
  unfold clt. rewrite (cmp_opp x y). destruct (cmp x y) eqn:E; simpl; [|naive_solver..].
  right; left; by apply cmp_eq.
Qed.

(** [Vec::sort]; the order is total and antisymmetric, so stability is moot. *)
Definition sort (l : list A) : list A := merge_sort cle l.

(** [Vec::dedup]: drop consecutive repetitions. *)
Fixpoint dedup (l : list A) : list A :=
  match l with
  | [] => []
  | x :: l =>
      match dedup l with
      | y :: l' => match cmp x y with Eq => y :: l' | _ => x :: y :: l' end
      | [] => [x]
      end
  end.

Lemma sort_sorted l : StronglySorted cle (sort l).
Proof. apply (StronglySorted_merge_sort _). Qed.
Lemma sort_perm l : sort l ≡ₚ l.
Proof. apply merge_sort_Permutation. Qed.
Lemma elem_of_sort x l : x ∈ sort l ↔ x ∈ l.
Proof. by rewrite sort_perm. Qed.

Lemma sort_perm_eq l1 l2 : l1 ≡ₚ l2 → sort l1 = sort l2.
Proof.
  intros Hp. apply (StronglySorted_unique cle); [apply sort_sorted..|].
  by rewrite !sort_perm.
Qed.

Lemma sort_id l : StronglySorted cle l → sort l = l.
Proof.
  intros Hl. apply (StronglySorted_unique cle); [apply sort_sorted|done|].
  apply sort_perm.
Qed.

Lemma elem_of_dedup x l : x ∈ dedup l ↔ x ∈ l.
Proof.
  induction l as [|y l IH]; [done|]. cbn [dedup].
  rewrite elem_of_cons, <-IH. destruct (dedup l) as [|z l']; [set_solver|].
  destruct (cmp y z) eqn:E; [|set_solver..].
  apply cmp_eq in E as ->. set_solver.
Qed.

Lemma dedup_sorted l : StronglySorted cle l → StronglySorted clt (dedup l).
Proof.
  induction 1 as [|x l Hl IH Hx]; [constructor|]. cbn [dedup].
  assert (Forall (cle x) (dedup l)) as Hx'.
  { apply Forall_forall. intros y Hy. rewrite elem_of_dedup in Hy.
    rewrite Forall_forall in Hx. auto. }
  destruct (dedup l) as [|y l']; [by repeat constructor|].
  destruct (cmp x y) eqn:E; [done| |].
  - constructor; [done|]. apply Forall_cons; split; [done|].
    inversion IH as [|?? _ Hy]; subst. eapply Forall_impl; [done|].
    intros z. by apply (transitivity (R:=clt)).
  - apply Forall_cons in Hx' as [Hxy _]. by unfold cle in Hxy.
Qed.

#[global] Instance clt_antisymm : AntiSymm (=) (clt (A:=A)).
Proof. intros x y Hxy Hyx. by destruct (clt_irrefl x (transitivity Hxy Hyx)). Qed.

Lemma clt_sorted_NoDup (l : list A) : StronglySorted clt l → NoDup l.
Proof.
  induction 1 as [|x l Hl IH Hx]; constructor; [|done].
  intros Hin. rewrite Forall_forall in Hx. by eapply clt_irrefl, Hx.
Qed.

Lemma cle_sorted_clt (l : list A) :
  StronglySorted cle l → NoDup l → StronglySorted clt l.
Proof.
  induction 1 as [|x l Hl IH Hx]; intros Hnd; constructor;
    apply NoDup_cons in Hnd as [Hnin Hnd]; [auto|].
  rewrite Forall_forall in Hx |- *. intros y Hy.
  apply cle_ne_clt; [auto|]. by intros ->.
Qed.

Lemma clt_sorted_cle (l : list A) : StronglySorted clt l → StronglySorted cle l.
Proof.
  induction 1 as [|x l Hl IH Hx]; constructor; [done|].
  eapply Forall_impl; [done|]. apply clt_cle.
Qed.

Lemma clt_sorted_unique (l1 l2 : list A) :
  StronglySorted clt l1 → StronglySorted clt l2 →
  (∀ x, x ∈ l1 ↔ x ∈ l2) → l1 = l2.
Proof.
  intros H1 H2 Heq. apply (StronglySorted_unique clt); [done..|].
  apply NoDup_Permutation; eauto using clt_sorted_NoDup.
Qed.

Lemma clt_sorted_sort (l : list A) : NoDup l → StronglySorted clt (sort l).
Proof.
  intros Hnd. apply cle_sorted_clt; [apply sort_sorted|by rewrite sort_perm].
Qed.

Lemma dedup_id (l : list A) : StronglySorted clt l → dedup l = l.
Proof.
  intros Hl. apply clt_sorted_unique; [|done|by intros x; rewrite elem_of_dedup].
  by apply dedup_sorted, clt_sorted_cle.
Qed.

(** Sorting and de-duplicating yields the canonical listing of a set. *)
Definition canonical (l : list A) : list A := dedup (sort l).

Lemma canonical_sorted l : StronglySorted clt (canonical l).
Proof. apply dedup_sorted, sort_sorted. Qed.
Lemma elem_of_canonical x l : x ∈ canonical l ↔ x ∈ l.
Proof. unfold canonical. by rewrite elem_of_dedup, elem_of_sort. Qed.
Lemma canonical_ext l1 l2 :
  (∀ x, x ∈ l1 ↔ x ∈ l2) → canonical l1 = canonical l2.
Proof.
  intros Heq. apply clt_sorted_unique; [apply canonical_sorted..|].
  intros x. by rewrite !elem_of_canonical.
Qed.
Lemma canonical_id l : StronglySorted clt l → canonical l = l.
Proof.
  intros Hl. apply clt_sorted_unique; [apply canonical_sorted|done|].
  intros x. apply elem_of_canonical.
Qed.
End order.

(** Ordered iteration of a [BTreeSet] (and of a sorted [HashSet]). *)
Definition btree_iter `{Countable A, Compare A} (s : gset A) : list A :=
  sort (elements s).

Section btree.
Context `{Countable A, !Compare A, !CompareLaws A}.
Implicit Types s : gset A.

Lemma elem_of_btree_iter x s : x ∈ btree_iter s ↔ x ∈ s.
Proof. unfold btree_iter. by rewrite elem_of_sort, elem_of_elements. Qed.
Lemma btree_iter_sorted s : StronglySorted clt (btree_iter s).
Proof. apply clt_sorted_sort, NoDup_elements. Qed.
Lemma btree_iter_NoDup s : NoDup (btree_iter s).
Proof. apply clt_sorted_NoDup, btree_iter_sorted. Qed.
Lemma length_btree_iter s : length (btree_iter s) = size s.
Proof. unfold btree_iter. by rewrite sort_perm. Qed.

(** [BTreeSet::pop_first]. *)
Definition pop_first (s : gset A) : option (A * gset A) :=
  match btree_iter s with
  | [] => None
  | x :: _ => Some (x, s ∖ {[x]})
  end.

Lemma pop_first_None s : pop_first s = None ↔ s = ∅.
Proof.
  unfold pop_first. destruct (btree_iter s) as [|x l] eqn:E.
  - split; [|done]. intros _. apply set_eq. intros x.
    rewrite <-elem_of_btree_iter, E. set_solver.
  - split; [done|]. intros ->. assert (x ∈ (∅ : gset A)); [|set_solver].
    rewrite <-elem_of_btree_iter, E. set_solver.
Qed.

Lemma pop_first_Some s x s' :
  pop_first s = Some (x, s') →
  x ∈ s ∧ s' = s ∖ {[x]} ∧ ∀ y, y ∈ s → cle x y.
Proof.
  unfold pop_first. destruct (btree_iter s) as [|z l] eqn:E; [done|].
  intros [= -> <-]. split; [|split; [done|]].
  - rewrite <-elem_of_btree_iter, E. set_solver.
  - intros y Hy. rewrite <-elem_of_btree_iter, E in Hy.
    pose proof (btree_iter_sorted s) as Hs. rewrite E in Hs.
    inversion Hs as [|?? _ Hx]; subst. rewrite Forall_forall in Hx.
    apply elem_of_cons in Hy as [->|Hy]; [reflexivity|]. by apply clt_cle, Hx.
Qed.
End btree.

(** ** Lists *)

Section filter.
Context {A : Type}.
Implicit Types l : list A.

Lemma filter_nil_iff (P : A → Prop) `{∀ x, Decision (P x)} l :
  filter P l = [] ↔ ∀ x, x ∈ l → ¬ P x.
Proof.
  split.
  - intros Hnil x Hx HP. assert (x ∈ filter P l) as Hin by by apply list_elem_of_filter.
    rewrite Hnil in Hin. set_solver.
  - intros Hno. induction l as [|x l IH]; [done|].
    rewrite filter_cons, decide_False by set_solver. apply IH. set_solver.
Qed.

Lemma filter_ext_on (P Q : A → Prop) `{∀ x, Decision (P x), ∀ x, Decision (Q x)} l :
  (∀ x, x ∈ l → P x ↔ Q x) → filter P l = filter Q l.
Proof.
  intros HPQ. induction l as [|x l IH]; [done|]. rewrite !filter_cons, IH by set_solver.
  destruct (decide (P x)), (decide (Q x)); set_solver.
Qed.

Lemma filter_all (P : A → Prop) `{∀ x, Decision (P x)} l :
  (∀ x, x ∈ l → P x) → filter P l = l.
Proof.
  intros HP. induction l as [|x l IH]; [done|].
  rewrite filter_cons, decide_True, IH; set_solver.
Qed.
End filter.

Lemma omap_all {A B} (f : A → option B) (l : list A) :
  (∀ x, x ∈ l → is_Some (f x)) → Forall2 (λ x y, f x = Some y) l (omap f l).
Proof.
  induction l as [|x l IH]; intros Hall; [constructor|].
  cbn [omap list_omap]. destruct (Hall x ltac:(set_solver)) as [y Hy]. rewrite Hy.
  constructor; [done|]. apply IH. set_solver.
Qed.

(** A sorted list splits at any point of the order. *)
Lemma clt_sorted_split `{CompareLaws A} (a : A) (l : list A) :
  StronglySorted clt l →
  filter (λ x, ¬ clt a x) l ++ filter (λ x, clt a x) l = l.
Proof.
  induction 1 as [|x l Hl IH Hx]; [done|]. rewrite !filter_cons.
  destruct (decide (clt a x)) as [Hax|Hax].
  - rewrite decide_False by tauto. rewrite Forall_forall in Hx.
    assert (∀ y, y ∈ l → clt a y) as Hall by (intros y Hy; etrans; eauto).
    rewrite (proj2 (filter_nil_iff _ l)) by naive_solver. simpl. f_equal.
    by apply filter_all.
  - rewrite decide_True by done. simpl. by rewrite IH.
Qed.

Lemma NoDup_fmap_filter {A B} (f : A → B) (P : A → Prop) `{∀ x, Decision (P x)} (l : list A) :
  NoDup (f <$> l) → NoDup (f <$> filter P l).
Proof.
  induction l as [|x l IH]; [done|]. rewrite fmap_cons, NoDup_cons. intros [Hnin Hnd].
  rewrite filter_cons. case_decide; [|auto]. rewrite fmap_cons. apply NoDup_cons.
  split; [|auto]. intros (y & Hy & [_ Hin]%list_elem_of_filter)%list_elem_of_fmap.
  apply Hnin. rewrite Hy. by apply list_elem_of_fmap_2.
Qed.

Lemma length_filter_lt {A} (P Q : A → Prop) `{∀ x, Decision (P x), ∀ x, Decision (Q x)}
    (l : list A) x :
  (∀ y, Q y → P y) → x ∈ l → P x → ¬ Q x → length (filter Q l) < length (filter P l).
Proof.
  intros HQP. induction l as [|y l IH]; intros Hx HP HQ; [set_solver|].
  rewrite !filter_cons. assert (length (filter Q l) ≤ length (filter P l)) as Hle.
  { clear -HQP. induction l as [|z l IH]; [done|]. rewrite !filter_cons.
    repeat case_decide; simpl; try lia. naive_solver. }
  apply elem_of_cons in Hx as [->|Hx].
  - rewrite (decide_False (P:=Q y)), (decide_True (P:=P y)) by done. simpl. lia.
  - specialize (IH Hx HP HQ). repeat case_decide; simpl; try lia. naive_solver.
Qed.

(** ** Prefixes *)

(** [starts_with] and [strip_prefix] of slices. *)
Definition starts_with (p bs : bytes) : bool := bool_decide (take (length p) bs = p).
Definition strip_prefix (p bs : bytes) : option bytes :=
  if decide (take (length p) bs = p) then Some (drop (length p) bs) else None.

Lemma strip_prefix_app p bs : strip_prefix p (p ++ bs) = Some bs.
Proof. unfold strip_prefix. rewrite take_app_length, decide_True by done. by rewrite drop_app_length. Qed.

Lemma strip_prefix_Some p bs rest : strip_prefix p bs = Some rest ↔ bs = p ++ rest.
Proof.
  split; [|intros ->; apply strip_prefix_app]. unfold strip_prefix. case_decide as Hp; [|done].
  intros [= <-]. rewrite <-Hp at 1. by rewrite take_drop.
Qed.

Lemma strip_prefix_None p bs : strip_prefix p bs = None ↔ starts_with p bs = false.
Proof.
  unfold strip_prefix, starts_with. rewrite bool_decide_eq_false. case_decide; naive_solver.
Qed.

Lemma starts_with_app p bs : starts_with p (p ++ bs) = true.
Proof. apply bool_decide_eq_true, take_app_length. Qed.

Lemma starts_with_true p bs : starts_with p bs = true ↔ ∃ rest, bs = p ++ rest.
Proof.
  unfold starts_with. rewrite bool_decide_eq_true. split; [|intros [rest ->]; apply take_app_length].
  intros Hp. exists (drop (length p) bs). rewrite <-Hp at 1. by rewrite take_drop.
Qed.

(** [split_at_checked]. *)
Definition split_at_checked {A} (n : nat) (l : list A) : option (list A * list A) :=
  if decide (n ≤ length l) then Some (take n l, drop n l) else None.

Lemma split_at_checked_app {A} n (l k : list A) :
  length l = n → split_at_checked n (l ++ k) = Some (l, k).
Proof.
  intros <-. unfold split_at_checked. rewrite decide_True by (rewrite length_app; lia).
  by rewrite take_app_length, drop_app_length.
Qed.

Lemma split_at_checked_Some {A} n (l a b : list A) :
  split_at_checked n l = Some (a, b) → l = a ++ b ∧ length a = n.
Proof.
  unfold split_at_checked. case_decide; [|done]. intros [= <- <-].
  rewrite take_drop. split; [done|]. by apply length_take_le.
Qed.

(** ** Automation

    [len] computes the length of an assembled byte string or list; [mesh] holds the
    lemmas that keep the components' invariants and the lengths of their values. *)
Create Rewrite HintDb len.
#[export] Hint Rewrite @length_app @length_cons @length_nil @length_take @length_drop
  @length_fmap @length_reverse @repeat_length @length_le_bytes @length_be_bytes : len.

Ltac len := autorewrite with len in *; cbn [length] in *; lia.

Create HintDb mesh.
#[export] Hint Resolve length_le_bytes length_be_bytes : mesh.

(** Reduce the binds of [option] and [result] whose first step is known. *)
Ltac simpl_bind := cbn [mbind option_bind result_bind ok_or map_err negb andb orb].

(** A decidable fact about concrete values, by evaluation. *)
Ltac by_evaluation := apply (bool_decide_unpack _); vm_compute; exact I.

(** Case analysis on the first step of a bind in the goal; a failed step ends it. *)
Tactic Notation "bind_step" simple_intropattern(p) "eqn" ident(H) :=
  match goal with
  | |- context [mbind _ ?m] => destruct m as [p|] eqn:H; [|by (done || discriminate)]
  end; simpl_bind.

(** ** Interleavings

    Where the steps of a system commute, one run to a final state speaks for all: every
    run reaches the same state, in the same number of steps. *)

Section interleavings.
Context {A : Type} (R : relation A).
Hypothesis commute : ∀ x y1 y2, R x y1 → R x y2 → y1 = y2 ∨ ∃ z, R y1 z ∧ R y2 z.

Lemma all_runs_join n x f m y :
  nsteps R n x f → nf R f → nsteps R m x y → m ≤ n ∧ nsteps R (n - m) y f.
Proof.
  intros Hn Hf. revert x m y Hn. induction n as [|n IH]; intros x m y Hn Hm.
  - inversion Hn; subst. destruct Hm as [|m x1 x2 y Hs]; [by split; [|constructor]|].
    destruct Hf. by exists x2.
  - inversion Hn as [|? ? x1 ? H1 Hn1]; subst. destruct Hm as [x|m x y1 y Hs Hm]; [by split; [lia|]|].
    assert (nsteps R n y1 f) as Hy1.
    { destruct (commute x x1 y1 H1 Hs) as [<-|(z & Hz1 & Hz2)]; [done|].
      destruct (IH x1 1 z Hn1 ltac:(by apply nsteps_once)) as [Hle Hz].
      replace n with (S (n - 1)) by lia. by econstructor. }
    destruct (IH y1 m y Hy1 Hm) as [Hle Hy]. split; [lia|]. done.
Qed.
End interleavings.
