(* ===== verification/Text.v ===== *)
(** * Characters of a string

    The parts of Rust's [str] and [char] the sources use, on the UTF-8 bytes of a
    string. *)

From S2P Require Import Prelude.

Definition continuation (b : byte) : N := N.land (Byte.to_N b) 63.

(** [str::chars]: the code points of well-formed UTF-8. *)
Fixpoint chars (s : bytes) : list N :=
  match s with
  | [] => []
  | a :: s1 =>
      if decide (Byte.to_N a < 128)%N then Byte.to_N a :: chars s1
      else if decide (Byte.to_N a < 224)%N then
        match s1 with
        | b :: s2 => (N.land (Byte.to_N a) 31 * 64 + continuation b)%N :: chars s2
        | _ => []
        end
      else if decide (Byte.to_N a < 240)%N then
        match s1 with
        | b :: c :: s3 =>
            (N.land (Byte.to_N a) 15 * 4096 + continuation b * 64 + continuation c)%N :: chars s3
        | _ => []
        end
      else
        match s1 with
        | b :: c :: d :: s4 =>
            (N.land (Byte.to_N a) 7 * 262144 + continuation b * 4096 + continuation c * 64 +
             continuation d)%N :: chars s4
        | _ => []
        end
  end.

(** [char::is_control]. *)
Definition is_control (c : N) : bool := (c <? 32)%N || ((127 <=? c)%N && (c <? 160)%N).

(** [char::is_whitespace], the Unicode property White_Space. *)
Definition is_whitespace (c : N) : bool :=
  ((9 <=? c)%N && (c <=? 13)%N) || ((8192 <=? c)%N && (c <=? 8202)%N) ||
  bool_decide (c ∈ [32; 133; 160; 5760; 8232; 8233; 8239; 8287; 12288]%N).

(** [u8::to_ascii_lowercase]. *)
Definition to_ascii_lowercase (b : byte) : byte :=
  if decide (65 ≤ Byte.to_N b ≤ 90)%N then byte_of_N (Byte.to_N b + 32) else b.

(** [s.trim().is_empty()]. *)
Definition trim_is_empty (s : bytes) : bool := forallb is_whitespace (chars s).

(** ** UTF-8 *)

(** The code points a [char] can hold. *)
Definition scalar (c : N) : Prop := (c < 55296 ∨ (57344 ≤ c ∧ c < 1114112))%N.

#[global] Instance scalar_dec c : Decision (scalar c).
Proof. unfold scalar. apply _. Defined.

(** [char::encode_utf8]. *)
Definition encode_char (c : N) : bytes :=
  if decide (c < 128)%N then [byte_of_N c]
  else if decide (c < 2048)%N then [byte_of_N (192 + c / 64); byte_of_N (128 + c mod 64)]
  else if decide (c < 65536)%N then
    [byte_of_N (224 + c / 4096); byte_of_N (128 + c / 64 mod 64); byte_of_N (128 + c mod 64)]
  else
    [byte_of_N (240 + c / 262144); byte_of_N (128 + c / 4096 mod 64);
     byte_of_N (128 + c / 64 mod 64); byte_of_N (128 + c mod 64)].

(** The string of a sequence of characters. *)
Definition encode_str (cs : list N) : bytes := cs ≫= encode_char.

(** The bytes a [String] can hold. *)
Definition utf8 (s : bytes) : Prop := ∃ cs, Forall scalar cs ∧ s = encode_str cs.

Definition is_continuation (b : byte) : bool :=
  (128 <=? Byte.to_N b)%N && (Byte.to_N b <? 192)%N.

(** One step of [str::from_utf8]: the first character and what follows it.  Overlong
    forms, surrogates and code points beyond the last are refused. *)
Definition next_char (s : bytes) : option (N * bytes) :=
  match s with
  | [] => None
  | a :: s1 =>
      let x := Byte.to_N a in
      if decide (x < 128)%N then Some (x, s1)
      else if decide (192 ≤ x < 224)%N then
        match s1 with
        | b :: s2 =>
            let c := ((x - 192) * 64 + continuation b)%N in
            if is_continuation b && bool_decide (128 ≤ c)%N then Some (c, s2) else None
        | _ => None
        end
      else if decide (224 ≤ x < 240)%N then
        match s1 with
        | b :: d :: s3 =>
            let c := ((x - 224) * 4096 + continuation b * 64 + continuation d)%N in
            if is_continuation b && is_continuation d && bool_decide (2048 ≤ c)%N &&
               bool_decide (scalar c) then Some (c, s3) else None
        | _ => None
        end
      else if decide (240 ≤ x)%N then
        match s1 with
        | b :: d :: e :: s4 =>
            let c := ((x - 240) * 262144 + continuation b * 4096 + continuation d * 64 +
                      continuation e)%N in
            if is_continuation b && is_continuation d && is_continuation e &&
               bool_decide (65536 ≤ c)%N && bool_decide (scalar c) then Some (c, s4) else None
        | _ => None
        end
      else None
  end.

(** [str::from_utf8], with the characters of the string it accepts.  Every character
    takes at least one byte, so the length is fuel enough. *)
Fixpoint from_utf8_loop (fuel : nat) (s : bytes) : option (list N) :=
  match fuel, s with
  | _, [] => Some []
  | O, _ => None
  | S fuel, _ => '(c, s) ← next_char s; cs ← from_utf8_loop fuel s; Some (c :: cs)
  end.

Definition from_utf8 (s : bytes) : option (list N) := from_utf8_loop (length s) s.

Lemma land_mod c k : N.land c (2 ^ k - 1) = (c mod 2 ^ k)%N.
Proof. rewrite <-N.land_ones. f_equal. rewrite N.ones_equiv. lia. Qed.

Lemma continuation_mod b : continuation b = (Byte.to_N b mod 64)%N.
Proof. apply (land_mod _ 6). Qed.

(** Facts about quotients and remainders by the constants of the encoding. *)
Ltac divmod := Zify.zify; Z.to_euclidean_division_equations; lia.

Lemma encode_char_ne c : encode_char c ≠ [].
Proof. unfold encode_char. by repeat case_decide. Qed.

Lemma to_N_tail q : Byte.to_N (byte_of_N (128 + q mod 64)) = (128 + q mod 64)%N.
Proof. apply to_N_byte_of_N. divmod. Qed.

Lemma continuation_tail q : continuation (byte_of_N (128 + q mod 64)) = (q mod 64)%N.
Proof. rewrite continuation_mod, to_N_tail. divmod. Qed.

Lemma is_continuation_tail q : is_continuation (byte_of_N (128 + q mod 64)) = true.
Proof. unfold is_continuation. rewrite to_N_tail. rewrite andb_true_iff, N.leb_le, N.ltb_lt. divmod. Qed.

(** The first byte of an encoding tells its length. *)
Lemma next_char_encode c s : scalar c → next_char (encode_char c ++ s) = Some (c, s).
Proof.
  intros Hc. unfold encode_char. case_decide as H1; [|case_decide as H2; [|case_decide as H3]].
  - cbn [next_char app]. rewrite to_N_byte_of_N by lia. by rewrite decide_True.
  - cbn [next_char app]. rewrite to_N_byte_of_N by divmod.
    rewrite decide_False, decide_True by divmod.
    rewrite is_continuation_tail, continuation_tail.
    replace ((192 + c / 64 - 192) * 64 + c mod 64)%N with c by divmod.
    by rewrite bool_decide_eq_true_2 by lia.
  - cbn [next_char app]. rewrite to_N_byte_of_N by divmod.
    rewrite decide_False, decide_False, decide_True by divmod.
    rewrite !is_continuation_tail, !continuation_tail.
    replace ((224 + c / 4096 - 224) * 4096 + (c / 64) mod 64 * 64 + c mod 64)%N with c by divmod.
    by rewrite !bool_decide_eq_true_2 by (done || lia).
  - assert (c < 1114112)%N by (unfold scalar in Hc; lia).
    cbn [next_char app]. rewrite to_N_byte_of_N by divmod.
    rewrite decide_False, decide_False, decide_False, decide_True by divmod.
    rewrite !is_continuation_tail, !continuation_tail.
    replace ((240 + c / 262144 - 240) * 262144 + (c / 4096) mod 64 * 4096 +
      (c / 64) mod 64 * 64 + c mod 64)%N with c by divmod.
    by rewrite !bool_decide_eq_true_2 by (done || lia).
Qed.

Lemma continuation_byte b :
  is_continuation b = true → ∃ n, continuation b = n ∧ (n < 64)%N ∧ byte_of_N (128 + n) = b.
Proof.
  unfold is_continuation. rewrite andb_true_iff, N.leb_le, N.ltb_lt, continuation_mod.
  intros Hb. eexists; split; [done|]. split; [divmod|]. rewrite <-(byte_of_N_to_N b) at 2.
  f_equal. divmod.
Qed.

Lemma encode_two x n :
  (192 ≤ x < 224)%N → (n < 64)%N → (128 ≤ (x - 192) * 64 + n)%N →
  encode_char ((x - 192) * 64 + n) = [byte_of_N x; byte_of_N (128 + n)].
Proof.
  intros Hx Hn Hc. unfold encode_char. rewrite decide_False, decide_True by lia.
  repeat f_equal; divmod.
Qed.

Lemma encode_three x n m :
  (224 ≤ x < 240)%N → (n < 64)%N → (m < 64)%N → (2048 ≤ (x - 224) * 4096 + n * 64 + m)%N →
  encode_char ((x - 224) * 4096 + n * 64 + m) =
    [byte_of_N x; byte_of_N (128 + n); byte_of_N (128 + m)].
Proof.
  intros Hx Hn Hm Hc. unfold encode_char. rewrite decide_False, decide_False, decide_True by lia.
  repeat f_equal; divmod.
Qed.

Lemma encode_four x n m k :
  (240 ≤ x)%N → (n < 64)%N → (m < 64)%N → (k < 64)%N →
  (65536 ≤ (x - 240) * 262144 + n * 4096 + m * 64 + k)%N →
  encode_char ((x - 240) * 262144 + n * 4096 + m * 64 + k) =
    [byte_of_N x; byte_of_N (128 + n); byte_of_N (128 + m); byte_of_N (128 + k)].
Proof.
  intros Hx Hn Hm Hk Hc. unfold encode_char. rewrite !decide_False by lia.
  repeat f_equal; divmod.
Qed.

Lemma next_char_Some s c r : next_char s = Some (c, r) → scalar c ∧ s = encode_char c ++ r.
Proof.
  destruct s as [|a s]; [done|]. cbn [next_char]. case_decide as H1.
  { intros [= <- <-]. split; [unfold scalar; lia|]. unfold encode_char.
    by rewrite decide_True, byte_of_N_to_N. }
  case_decide as H2; [destruct s as [|b s]; [done|]|
    case_decide as H3; [destruct s as [|b [|d s]]; [done..|]|
      case_decide as H4; [destruct s as [|b [|d [|e s]]]; [done..|]|done]]];
    destruct (_ && _) eqn:Hb; try done; repeat rewrite andb_true_iff in Hb;
    rewrite ?bool_decide_eq_true in Hb; destruct_and?; intros [= <- <-];
    repeat match goal with
    | H : is_continuation ?b = true |- _ =>
        destruct (continuation_byte b H) as (? & Hn & ? & <-); rewrite Hn in *; clear H Hn
    end.
  - rewrite encode_two, byte_of_N_to_N by done. split; [unfold scalar; lia|done].
  - by rewrite encode_three, byte_of_N_to_N by done.
  - by rewrite encode_four, byte_of_N_to_N by done.
Qed.

(** [from_utf8] accepts exactly the encodings of characters. *)
Lemma from_utf8_loop_Some fuel s cs :
  from_utf8_loop fuel s = Some cs → Forall scalar cs ∧ s = encode_str cs.
Proof.
  revert s cs. induction fuel as [|fuel IH]; intros [|a s] cs; cbn [from_utf8_loop];
    [by intros [= <-]|done|by intros [= <-]|].
  destruct (next_char (a :: s)) as [[c r]|] eqn:Hn; [|done]. cbn [mbind option_bind].
  destruct (from_utf8_loop fuel r) as [cs'|] eqn:Hr; [|done]. intros [= <-].
  apply next_char_Some in Hn as [Hc ->]. apply IH in Hr as [Hcs ->]. split; [by constructor|done].
Qed.

Lemma length_encode_char c : 0 < length (encode_char c).
Proof. pose proof (encode_char_ne c). destruct (encode_char c); [done|simpl; lia]. Qed.

Lemma from_utf8_loop_encode fuel cs :
  Forall scalar cs → length (encode_str cs) ≤ fuel → from_utf8_loop fuel (encode_str cs) = Some cs.
Proof.
  intros Hcs. revert fuel. induction Hcs as [|c cs Hc Hcs IH]; intros fuel Hf; [by destruct fuel|].
  unfold encode_str in *. cbn [mbind list_bind] in *. rewrite length_app in Hf.
  pose proof (length_encode_char c). destruct fuel as [|fuel]; [lia|].
  destruct (encode_char c ++ _) as [|b l] eqn:Hl.
  - apply app_nil in Hl as [Hl _]. by apply encode_char_ne in Hl.
  - cbn [from_utf8_loop]. rewrite <-Hl, next_char_encode by done. cbn [mbind option_bind].
    by rewrite IH by lia.
Qed.

Lemma from_utf8_exact s cs : from_utf8 s = Some cs ↔ Forall scalar cs ∧ s = encode_str cs.
Proof.
  split; [apply from_utf8_loop_Some|]. intros [Hcs ->]. by apply from_utf8_loop_encode.
Qed.

#[global] Instance utf8_dec s : Decision (utf8 s).
Proof.
  refine (cast_if (decide (is_Some (from_utf8 s)))).
  - destruct i as [cs Hcs]. exists cs. by apply from_utf8_exact.
  - intros (cs & Hcs). apply n. exists cs. by apply from_utf8_exact.
Defined.

Lemma utf8_app s t : utf8 s → utf8 t → utf8 (s ++ t).
Proof.
  intros (cs & Hc & ->) (ds & Hd & ->). exists (cs ++ ds). split; [by apply Forall_app|].
  unfold encode_str. by rewrite bind_app.
Qed.

(** ASCII is UTF-8. *)
Lemma ascii_utf8 s : Forall (λ b, (Byte.to_N b < 128)%N) s → utf8 s.
Proof.
  intros Hs. exists (Byte.to_N <$> s). induction Hs as [|b s Hb Hs [IHc IHs]]; [done|]. split.
  - constructor; [left; lia|done].
  - unfold encode_str in *. cbn [fmap list_fmap mbind list_bind]. rewrite <-IHs. unfold encode_char.
    by rewrite decide_True, byte_of_N_to_N.
Qed.

Lemma encode_str_app cs ds : encode_str (cs ++ ds) = encode_str cs ++ encode_str ds.
Proof. apply bind_app. Qed.

(** [chars] on the encoding of characters gives them back. *)
Lemma chars_cons c s : scalar c → chars (encode_char c ++ s) = c :: chars s.
Proof.
  intros Hc. unfold encode_char. case_decide as H1; [|case_decide as H2; [|case_decide as H3]].
  - cbn [chars app]. rewrite to_N_byte_of_N by lia. by rewrite decide_True.
  - cbn [chars app]. rewrite to_N_byte_of_N by divmod. rewrite decide_False, decide_True by divmod.
    f_equal. rewrite continuation_tail, (land_mod _ 5). divmod.
  - cbn [chars app]. rewrite to_N_byte_of_N by divmod.
    rewrite decide_False, decide_False, decide_True by divmod.
    f_equal. rewrite !continuation_tail, (land_mod _ 4). divmod.
  - assert (c < 1114112)%N by (unfold scalar in Hc; lia).
    cbn [chars app]. rewrite to_N_byte_of_N by divmod. rewrite !decide_False by divmod.
    f_equal. rewrite !continuation_tail, (land_mod _ 3). divmod.
Qed.

Lemma chars_encode cs : Forall scalar cs → chars (encode_str cs) = cs.
Proof.
  induction 1 as [|c cs Hc Hcs IH]; [done|]. unfold encode_str in *. cbn [mbind list_bind].
  rewrite chars_cons by done. by f_equal.
Qed.
