(* ===== verification/Crypto.v ===== *)
(** * Cryptographic primitives used by the core

    The RustCrypto and dalek crates are not part of the repository, so their
    operations are parameters of the model ([Crypto]); what the code relies on
    is collected in [CryptoLaws] and is the documented behaviour of those
    crates: output lengths, correctness of signatures, Diffie-Hellman agreement
    and correctness of the AEAD.  No law speaks about secrecy or unforgeability.

    [ToyCrypto] is a concrete instance of the interface which satisfies every
    law; the witnesses of the development run on it. *)

From S2P Require Import Prelude Text.

Class Crypto := {
  (** [sha2::Sha256] over the concatenation of all [update]s. *)
  sha256 : bytes → bytes;
  (** [Hkdf::<Sha256>::new(salt, ikm)] followed by [expand(info, [u8; len])]. *)
  hkdf_sha256 : option bytes → bytes → bytes → nat → bytes;
  (** [SigningKey::verifying_key], [sign], [VerifyingKey::from_bytes] and
      [verify_strict] on raw bytes. *)
  ed25519_public : bytes → bytes;
  ed25519_sign : bytes → bytes → bytes;
  ed25519_key_valid : bytes → bool;
  ed25519_verify_strict : bytes → bytes → bytes → bool;
  (** [PublicKey::from(&StaticSecret)] and [diffie_hellman]. *)
  x25519_public : bytes → bytes;
  x25519 : bytes → bytes → bytes;
  (** [Aes256Gcm] with key, nonce, associated data and message. *)
  aes_gcm_encrypt : bytes → bytes → bytes → bytes → option bytes;
  aes_gcm_decrypt : bytes → bytes → bytes → bytes → option bytes;
  (** [hex::encode]. *)
  hex_encode : bytes → bytes
}.

(** Longest message one AES-GCM call accepts (2^36 bytes). *)
Definition aead_max : N := 68719476736.
Definition tag_size : nat := 16.

Class CryptoLaws `{Crypto} := {
  sha256_length m : length (sha256 m) = 32;
  hkdf_length salt ikm info len : length (hkdf_sha256 salt ikm info len) = len;
  ed25519_public_length sk : length sk = 32 → length (ed25519_public sk) = 32;
  ed25519_sign_length sk m : length (ed25519_sign sk m) = 64;
  ed25519_public_valid sk :
    length sk = 32 → ed25519_key_valid (ed25519_public sk) = true;
  ed25519_verify_sign sk m :
    length sk = 32 →
    ed25519_verify_strict (ed25519_public sk) m (ed25519_sign sk m) = true;
  x25519_public_length sk : length (x25519_public sk) = 32;
  x25519_length sk pk : length (x25519 sk pk) = 32;
  x25519_agree a b : x25519 a (x25519_public b) = x25519 b (x25519_public a);
  aes_gcm_encrypt_total key nonce aad m :
    length key = 32 → length nonce = 12 → (N.of_nat (length m) ≤ aead_max)%N →
    ∃ c, aes_gcm_encrypt key nonce aad m = Some c ∧ length c = length m + tag_size;
  aes_gcm_decrypt_encrypt key nonce aad m c :
    aes_gcm_encrypt key nonce aad m = Some c →
    aes_gcm_decrypt key nonce aad c = Some m;
  hex_encode_length m : length (hex_encode m) = 2 * length m;
  hex_encode_inj : Inj (=) (=) hex_encode;
  hex_encode_utf8 m : utf8 (hex_encode m)
}.

#[export] Hint Resolve sha256_length hkdf_length ed25519_public_length ed25519_sign_length
  ed25519_public_valid ed25519_verify_sign x25519_public_length x25519_length : mesh.

(** ** A concrete instance *)

Module ToyCrypto.
(** A 256-bit polynomial accumulator: deterministic and spread enough to tell
    the small inputs of the witnesses apart. *)
Definition mix (m : bytes) : N :=
  foldl (λ acc b, (acc * 257 + Byte.to_N b + 1) mod 2 ^ 256)%N 1%N m.

Definition digest (n : nat) (m : bytes) : bytes := le_bytes n (mix m).

Lemma length_digest n m : length (digest n m) = n.
Proof. apply length_le_bytes. Qed.

Definition sign (sk m : bytes) : bytes :=
  digest 32 (sk ++ m) ++ digest 32 (m ++ sk).

Definition tag (key nonce aad m : bytes) : bytes :=
  digest 16 (key ++ nonce ++ aad ++ m).

Definition seal (key nonce aad m : bytes) : option bytes :=
  if decide (N.of_nat (length m) ≤ aead_max)%N
  then Some (m ++ tag key nonce aad m) else None.

Definition open (key nonce aad c : bytes) : option bytes :=
  let m := take (length c - 16) c in
  if decide (16 ≤ length c ∧ drop (length c - 16) c = tag key nonce aad m)
  then Some m else None.

Definition nibble (n : N) : byte :=
  byte_of_N (if (n <? 10)%N then 48 + n else 87 + n)%N.

Definition hex (m : bytes) : bytes :=
  m ≫= λ b, [nibble (Byte.to_N b / 16); nibble (Byte.to_N b mod 16)]%N.

Lemma hex_cons b m :
  hex (b :: m) =
    nibble (Byte.to_N b / 16) :: nibble (Byte.to_N b mod 16) :: hex m.
Proof. done. Qed.

#[export] Instance toy_crypto : Crypto := {|
  sha256 := digest 32;
  hkdf_sha256 salt ikm info len :=
    digest len (default [] salt ++ ikm ++ info);
  ed25519_public sk := sk;
  ed25519_sign := sign;
  ed25519_key_valid pk := bool_decide (length pk = 32);
  ed25519_verify_strict pk m s := bool_decide (s = sign pk m);
  x25519_public sk := le_bytes 32 (le_value sk);
  x25519 a b := le_bytes 32 (le_value (le_bytes 32 (le_value a)) + le_value b);
  aes_gcm_encrypt := seal;
  aes_gcm_decrypt := open;
  hex_encode := hex
|}.

Lemma nibble_inj n m : (n < 16)%N → (m < 16)%N → nibble n = nibble m → n = m.
Proof.
  intros Hn Hm. unfold nibble. intros E. apply (f_equal Byte.to_N) in E.
  destruct (N.ltb_spec n 10), (N.ltb_spec m 10);
    rewrite !to_N_byte_of_N in E by lia; lia.
Qed.

Lemma nibble_ascii n : (n < 16)%N → (Byte.to_N (nibble n) < 128)%N.
Proof. intros Hn. unfold nibble. destruct (N.ltb_spec n 10); rewrite to_N_byte_of_N; lia. Qed.

Lemma byte_split b : (Byte.to_N b / 16 < 16)%N ∧ (Byte.to_N b mod 16 < 16)%N.
Proof.
  pose proof (byte_to_N_bound b). split; [|by apply N.mod_upper_bound].
  apply N.Div0.div_lt_upper_bound; lia.
Qed.

#[export] Instance toy_crypto_laws : CryptoLaws.
Proof.
  split; cbn [toy_crypto sha256 hkdf_sha256 ed25519_public ed25519_sign
    ed25519_key_valid ed25519_verify_strict x25519_public x25519
    aes_gcm_encrypt aes_gcm_decrypt hex_encode]; intros.
  - apply length_le_bytes.
  - apply length_le_bytes.
  - done.
  - unfold sign. by rewrite length_app, !length_digest.
  - by apply bool_decide_eq_true.
  - by apply bool_decide_eq_true.
  - apply length_le_bytes.
  - apply length_le_bytes.
  - f_equal. lia.
  - unfold seal. rewrite decide_True by done. eexists; split; [done|].
    unfold tag, tag_size. by rewrite length_app, length_digest.
  - unfold seal in *. case_decide; [|done]. simplify_eq. unfold open.
    rewrite length_app. unfold tag. rewrite !length_digest.
    replace (length m + 16 - 16) with (length m) by lia.
    rewrite take_app_length, drop_app_length, decide_True; [done|].
    split; [lia|done].
  - induction m as [|b m IH]; [done|]. rewrite hex_cons. simpl. rewrite IH. lia.
  - intros m. induction m as [|b m IH]; intros [|c m'] E; rewrite ?hex_cons in E;
      [done|discriminate..|].
    injection E as E1 E2 E3. f_equal; [|by apply IH].
    destruct (byte_split b), (byte_split c).
    apply nibble_inj in E1; [|done..]. apply nibble_inj in E2; [|done..].
    apply byte_to_N_inj.
    rewrite (N.div_mod (Byte.to_N b) 16), (N.div_mod (Byte.to_N c) 16) by done.
    by rewrite E1, E2.
  - apply ascii_utf8. induction m as [|b m IH]; [constructor|]. rewrite hex_cons.
    destruct (byte_split b). by repeat constructor; [apply nibble_ascii..|].
Qed.
End ToyCrypto.
