(* ===== verification/Bincode.v ===== *)
(** * The bincode serializer

    bincode is a third-party crate: [ser] and [de] are parameters of the model,
    one pair per type that crosses the wire or the disk.  The code always
    configures it with fixed-width integers and, on the reading side, with
    [reject_trailing_bytes]; the two laws below are its documented behaviour
    under that configuration.  [TypeWf] says which values of the model are values
    of the Rust type (array lengths, integer widths, text that is UTF-8).

    [Fixint] is a concrete instance built from combinators, used by the
    witnesses: little-endian fixed-width integers, [u64] length prefixes, [u8]
    option tags, [u32] enum tags. *)

From S2P Require Import Prelude Text.

(** The values a Rust type can hold. *)
Class TypeWf (A : Type) := type_wf : A → Prop.

(** The bytes of a [String] field. *)
Definition string_wf (s : bytes) : Prop := utf8 s ∧ (N.of_nat (length s) ≤ u64_max)%N.

#[global] Instance string_wf_dec s : Decision (string_wf s).
Proof. unfold string_wf. apply _. Defined.

Class Bincode (A : Type) := {
  ser : A → bytes;
  de : bytes → option A
}.

(** What is written reads back. *)
Class BincodeLaws (A : Type) `{TypeWf A, Bincode A} :=
  de_ser : ∀ x : A, type_wf x → de (ser x) = Some x.

(** What is read is well typed, and its only encoding is the bytes it came from
    (fixed-width integers, trailing bytes rejected). *)
Class BincodeStrict (A : Type) `{TypeWf A, Bincode A} :=
  de_strict : ∀ bs (x : A), de bs = Some x → type_wf x ∧ ser x = bs.

(** Reading a value off the front of a stream ([deserialize_from] with trailing bytes
    allowed): the value and the unread rest.  The format is self-delimiting. *)
Class BincodeFrom (A : Type) := de_from : bytes → option (A * bytes).

Class BincodeFromLaws (A : Type) `{TypeWf A, Bincode A, BincodeFrom A} := {
  de_from_ser : ∀ (x : A) r, type_wf x → de_from (ser x ++ r) = Some (x, r);
  de_from_strict : ∀ bs (x : A) r, de_from bs = Some (x, r) → type_wf x ∧ bs = ser x ++ r
}.

Lemma ser_prefix_inj `{BincodeFromLaws A} (x y : A) r s :
  type_wf x → type_wf y → ser x ++ r = ser y ++ s → x = y ∧ r = s.
Proof.
  intros Hx Hy He. pose proof (de_from_ser x r Hx) as Hr. rewrite He, de_from_ser in Hr by done.
  by simplify_eq.
Qed.

(** The text of the error bincode reports on a refused input. *)
Class BincodeText := de_error : bytes → bytes.

Module Fixint.
#[export] Instance fixint_text : BincodeText := λ _, str "io error".

(** An encoder with a reader that returns the unread rest. *)
Record codec (A : Type) := Codec {
  enc : A → bytes;
  dec : bytes → option (A * bytes);
  cwf : A → Prop
}.
Arguments Codec {A} _ _ _.
Arguments enc {A} _ _.
Arguments dec {A} _ _.
Arguments cwf {A} _ _.

Class CodecOk {A} (c : codec A) := {
  dec_enc : ∀ a r, cwf c a → dec c (enc c a ++ r) = Some (a, r);
  enc_dec : ∀ bs a r, dec c bs = Some (a, r) → bs = enc c a ++ r ∧ cwf c a
}.

(** [[u8; n]]. *)
Definition c_arr (n : nat) : codec bytes := {|
  enc l := l;
  dec (bs : bytes) := if decide (n ≤ length bs) then Some (take n bs, drop n bs) else None;
  cwf l := length l = n
|}.

(** An [n]-byte little-endian integer. *)
Definition c_uint (n : nat) : codec N := {|
  enc := le_bytes n;
  dec (bs : bytes) := '(l, r) ← dec (c_arr n) bs; Some (le_value l, r);
  cwf x := (x < 256 ^ N.of_nat n)%N
|}.

Definition c_pair {A B} (ca : codec A) (cb : codec B) : codec (A * B) := {|
  enc x := enc ca x.1 ++ enc cb x.2;
  dec (bs : bytes) := '(a, r) ← dec ca bs; '(b, r) ← dec cb r; Some ((a, b), r);
  cwf x := cwf ca x.1 ∧ cwf cb x.2
|}.

Definition c_option {A} (c : codec A) : codec (option A) := {|
  enc (x : option A) := match x with None => [Byte.x00] | Some a => Byte.x01 :: enc c a end;
  dec (bs : bytes) :=
    match bs with
    | Byte.x00 :: r => Some (None, r)
    | Byte.x01 :: r => '(a, r) ← dec c r; Some (Some a, r)
    | _ => None
    end;
  cwf (x : option A) := match x with None => True | Some a => cwf c a end
|}.

Definition c_bool : codec bool := {|
  enc (b : bool) := [if b then Byte.x01 else Byte.x00];
  dec (bs : bytes) :=
    match bs with
    | Byte.x00 :: r => Some (false, r)
    | Byte.x01 :: r => Some (true, r)
    | _ => None
    end;
  cwf _ := True
|}.

(** [count] elements in a row. *)
Fixpoint dec_many {A} (c : codec A) (count : nat) (bs : bytes) :
    option (list A * bytes) :=
  match count with
  | O => Some ([], bs)
  | S count =>
      '(a, r) ← dec c bs; '(l, r) ← dec_many c count r; Some (a :: l, r)
  end.

Definition enc_many {A} (c : codec A) (l : list A) : bytes := l ≫= enc c.

(** [Vec<T>]: [u64] count, then the elements. *)
Definition c_vec {A} (c : codec A) : codec (list A) := {|
  enc l := le_bytes 8 (N.of_nat (length l)) ++ enc_many c l;
  dec (bs : bytes) := '(n, r) ← dec (c_uint 8) bs; dec_many c (N.to_nat n) r;
  cwf l := (N.of_nat (length l) ≤ u64_max)%N ∧ Forall (cwf c) l
|}.

(** [Vec<u8>]: [u64] length, then the bytes. *)
Definition c_bytes : codec bytes := {|
  enc l := le_bytes 8 (N.of_nat (length l)) ++ l;
  dec (bs : bytes) := '(n, r) ← dec (c_uint 8) bs; dec (c_arr (N.to_nat n)) r;
  cwf l := (N.of_nat (length l) ≤ u64_max)%N
|}.

(** [String]: as [Vec<u8>], and only UTF-8 is read. *)
Definition c_string : codec bytes := {|
  enc := enc c_bytes;
  dec (bs : bytes) := '(s, r) ← dec c_bytes bs; if decide (utf8 s) then Some (s, r) else None;
  cwf := string_wf
|}.

(** A struct, through the tuple of its fields. *)
Definition c_iso {A B} (f : A → B) (g : B → A) (c : codec A) : codec B := {|
  enc b := enc c (g b);
  dec (bs : bytes) := '(a, r) ← dec c bs; Some (f a, r);
  cwf b := cwf c (g b)
|}.

#[export] Instance c_arr_ok n : CodecOk (c_arr n).
Proof.
  split; simpl.
  - intros a r <-. rewrite decide_True by (rewrite length_app; lia).
    by rewrite take_app_length, drop_app_length.
  - intros bs a r. case_decide; [|done]. intros [= <- <-].
    rewrite take_drop. split; [done|]. by rewrite length_take_le.
Qed.

#[export] Instance c_uint_ok n : CodecOk (c_uint n).
Proof.
  split; cbn [c_uint enc dec cwf].
  - intros a r Ha. rewrite (dec_enc (c:=c_arr n) (le_bytes n a))
      by apply length_le_bytes.
    simpl. by rewrite le_value_le_bytes.
  - intros bs a r. destruct (dec (c_arr n) bs) as [[l r']|] eqn:E; [|done].
    intros [= <- <-]. apply enc_dec in E as [-> Hl]. simpl in *.
    rewrite le_bytes_value by done. split; [done|].
    rewrite <-Hl. apply le_value_bound.
Qed.

#[export] Instance c_pair_ok {A B} (ca : codec A) (cb : codec B) :
  CodecOk ca → CodecOk cb → CodecOk (c_pair ca cb).
Proof.
  intros Ha Hb. split; cbn [c_pair enc dec cwf].
  - intros [a b] r [Wa Wb]; simpl in *.
    rewrite <-app_assoc, dec_enc by done. simpl. by rewrite dec_enc.
  - intros bs [a b] r. destruct (dec ca bs) as [[a' r1]|] eqn:E1; [|done]. simpl.
    destruct (dec cb r1) as [[b' r2]|] eqn:E2; [|done]. intros [= -> -> ->].
    apply enc_dec in E1 as [-> ?]. apply enc_dec in E2 as [-> ?]. simpl.
    by rewrite app_assoc.
Qed.

#[export] Instance c_option_ok {A} (c : codec A) :
  CodecOk c → CodecOk (c_option c).
Proof.
  intros Hc. split; cbn [c_option enc dec cwf].
  - intros [a|] r Hw; simpl; [|done]. by rewrite dec_enc.
  - intros [|b bs] a r; [done|]. destruct b; try done.
    + by intros [= <- <-].
    + destruct (dec c bs) as [[a' r']|] eqn:E; [|done]. intros [= <- <-].
      by apply enc_dec in E as [-> ?].
Qed.

#[export] Instance c_bool_ok : CodecOk c_bool.
Proof.
  split; cbn [c_bool enc dec cwf].
  - by intros [] r.
  - intros [|b bs] a r; [done|]. destruct b; try done; by intros [= <- <-].
Qed.

Lemma dec_many_enc {A} (c : codec A) `{!CodecOk c} l r :
  Forall (cwf c) l → dec_many c (length l) (enc_many c l ++ r) = Some (l, r).
Proof.
  induction 1 as [|a l Ha Hl IH]; [done|]. cbn [length dec_many enc_many mbind list_bind].
  rewrite <-app_assoc, dec_enc by done. cbn [mbind option_bind].
  unfold enc_many in IH. by rewrite IH.
Qed.

Lemma enc_dec_many {A} (c : codec A) `{!CodecOk c} n bs l r :
  dec_many c n bs = Some (l, r) →
  bs = enc_many c l ++ r ∧ length l = n ∧ Forall (cwf c) l.
Proof.
  revert bs l. induction n as [|n IH]; intros bs l; simpl.
  - intros [= <- <-]. by repeat constructor.
  - destruct (dec c bs) as [[a r1]|] eqn:E1; [|done]. simpl.
    destruct (dec_many c n r1) as [[l' r2]|] eqn:E2; [|done]. intros [= <- <-].
    apply enc_dec in E1 as [-> ?]. apply IH in E2 as (-> & <- & ?).
    split; [|by split; [|constructor]]. cbn. by rewrite <-app_assoc.
Qed.

Lemma dec_len_prefix n r :
  (n ≤ u64_max)%N → dec (c_uint 8) (le_bytes 8 n ++ r) = Some (n, r).
Proof. intros Hn. apply (dec_enc (c:=c_uint 8)). by apply u64_width. Qed.

#[export] Instance c_vec_ok {A} (c : codec A) : CodecOk c → CodecOk (c_vec c).
Proof.
  intros Hc. split; unfold c_vec; cbn [enc dec cwf].
  - intros l r [Hn Hl]. rewrite <-app_assoc.
    rewrite dec_len_prefix by done. simpl.
    rewrite Nat2N.id. by apply dec_many_enc.
  - intros bs l r. destruct (dec (c_uint 8) bs) as [[n r1]|] eqn:E1; [|done].
    cbn [mbind option_bind]. intros E2. apply enc_dec in E1 as [-> Hn].
    apply enc_dec_many in E2 as (-> & Hlen & Hl); [|done].
    cbn [c_uint enc cwf] in *. rewrite Hlen, N2Nat.id, app_assoc.
    split; [done|]. split; [by apply u64_width|done].
Qed.

#[export] Instance c_bytes_ok : CodecOk c_bytes.
Proof.
  split; unfold c_bytes; cbn [enc dec cwf].
  - intros l r Hn. rewrite <-app_assoc.
    rewrite dec_len_prefix by done. cbn [mbind option_bind].
    rewrite Nat2N.id. by apply (dec_enc (c:=c_arr _)).
  - intros bs l r. destruct (dec (c_uint 8) bs) as [[n r1]|] eqn:E1; [|done].
    cbn [mbind option_bind]. intros E2. apply enc_dec in E1 as [-> Hn].
    apply enc_dec in E2 as [-> Hlen]. cbn [c_uint c_arr enc cwf] in *.
    rewrite Hlen, N2Nat.id, app_assoc. split; [done|by apply u64_width].
Qed.

#[export] Instance c_string_ok : CodecOk c_string.
Proof.
  split; cbn [c_string enc dec cwf].
  - intros s r [Hu Hl]. rewrite (dec_enc (c:=c_bytes)) by done. cbn [mbind option_bind].
    by rewrite decide_True.
  - intros bs s r. destruct (dec c_bytes bs) as [[t r']|] eqn:E; [|done]. cbn [mbind option_bind].
    case_decide as Hu; [|done]. intros [= <- <-]. apply enc_dec in E as [-> Hl]. by repeat split.
Qed.

Lemma c_iso_ok {A B} (f : A → B) (g : B → A) (c : codec A) :
  (∀ b, f (g b) = b) → (∀ a, g (f a) = a) → CodecOk c → CodecOk (c_iso f g c).
Proof.
  intros Hfg Hgf Hc. split; cbn [c_iso enc dec cwf].
  - intros b r Hw. rewrite dec_enc by done. simpl. by rewrite Hfg.
  - intros bs b r. destruct (dec c bs) as [[a r']|] eqn:E; [|done].
    intros [= <- <-]. apply enc_dec in E as [-> ?]. by rewrite Hgf.
Qed.

(** An enum without payload: its [u32] index. *)
Definition c_enum {B} (f : N → option B) (g : B → N) : codec B := {|
  enc b := le_bytes 4 (g b);
  dec (bs : bytes) := '(n, r) ← dec (c_uint 4) bs; b ← f n; Some (b, r);
  cwf _ := True
|}.

Lemma c_enum_ok {B} (f : N → option B) (g : B → N) :
  (∀ b, f (g b) = Some b) → (∀ n b, f n = Some b → n = g b) →
  (∀ b, g b ≤ u32_max)%N → CodecOk (c_enum f g).
Proof.
  intros Hfg Hgf Hg. split; cbn [c_enum enc dec cwf].
  - intros b r _. rewrite (dec_enc (c:=c_uint 4) (g b)).
    + cbn [mbind option_bind]. by rewrite Hfg.
    + cbn [c_uint cwf]. change (256 ^ N.of_nat 4)%N with (u32_max + 1)%N.
      specialize (Hg b). lia.
  - intros bs b r. destruct (dec (c_uint 4) bs) as [[n r']|] eqn:E; [|done].
    cbn [mbind option_bind]. destruct (f n) as [b'|] eqn:En; [|done].
    intros [= <- <-]. apply enc_dec in E as [-> _]. by apply Hgf in En as ->.
Qed.

(** Whole-buffer use with [reject_trailing_bytes]. *)
Definition bincode_of {A} (c : codec A) : Bincode A := {|
  ser := enc c;
  de bs := match dec c bs with Some (a, []) => Some a | _ => None end
|}.

Lemma bincode_of_laws {A} `{TypeWf A} (c : codec A) :
  CodecOk c → (∀ a, type_wf a → cwf c a) →
  BincodeLaws A (H0:=bincode_of c).
Proof.
  intros Hc Hwf a Ha. simpl.
  rewrite <-(app_nil_r (enc c a)), dec_enc by auto. done.
Qed.

Lemma bincode_of_strict {A} `{TypeWf A} (c : codec A) :
  CodecOk c → (∀ a, cwf c a → type_wf a) →
  BincodeStrict A (H0:=bincode_of c).
Proof.
  intros Hc Hwf bs a. simpl. destruct (dec c bs) as [[a' [|]]|] eqn:E; [|done..].
  intros [= <-]. apply enc_dec in E as [-> ?]. rewrite app_nil_r. auto.
Qed.

Lemma bincode_from_laws {A} `{TypeWf A} (c : codec A) :
  CodecOk c → (∀ a, type_wf a ↔ cwf c a) →
  BincodeFromLaws A (H0:=bincode_of c) (H1:=dec c).
Proof.
  intros Hc Hwf. split.
  - intros a r Ha. by apply dec_enc, Hwf.
  - intros bs a r Hd. apply enc_dec in Hd as [-> ?]. split; [by apply Hwf|done].
Qed.
End Fixint.
