(* ===== verification/Identity.v ===== *)
(** * Device identities

    Models crates/mesh-talk-core/src/identity/device.rs: the signing and
    key-exchange keys of a device and the identifier derived from them.  Secret
    keys are their raw bytes; [generate] is [from_secret_bytes] applied to the
    bytes the operating system's generator returns. *)

From S2P Require Import Prelude Crypto Bincode.

(** A peer identifier is a Rust [String], modelled by its UTF-8 bytes. *)
Abbreviation UserId := bytes.

Record PublicIdentity := MkPublicIdentity {
  ed25519_pub : bytes;
  x25519_pub : bytes
}.

#[global] Instance PublicIdentity_eq_dec : EqDecision PublicIdentity.
Proof. solve_decision. Defined.

#[global] Instance PublicIdentity_countable : Countable PublicIdentity.
Proof.
  refine (inj_countable' (λ p, (ed25519_pub p, x25519_pub p))
    (λ p, MkPublicIdentity p.1 p.2) _).
  by intros [].
Defined.

#[global] Instance PublicIdentity_wf : TypeWf PublicIdentity := λ p,
  length (ed25519_pub p) = 32 ∧ length (x25519_pub p) = 32.

Record DeviceIdentity := MkDeviceIdentity {
  signing_key : bytes;
  dh_secret : bytes
}.

#[global] Instance DeviceIdentity_wf : TypeWf DeviceIdentity := λ d,
  length (signing_key d) = 32 ∧ length (dh_secret d) = 32.

Section identity.
Context `{Crypto}.

Definition user_id_from (ed25519_pub : bytes) : UserId :=
  hex_encode (take 16 (sha256 (str "mesh-talk-id-v1" ++ ed25519_pub))).

Definition user_id (p : PublicIdentity) : UserId := user_id_from (ed25519_pub p).

Definition from_secret_bytes (ed25519_secret x25519_secret : bytes) :
    DeviceIdentity :=
  {| signing_key := ed25519_secret; dh_secret := x25519_secret |}.

Definition secret_bytes (d : DeviceIdentity) : bytes * bytes :=
  (signing_key d, dh_secret d).

Definition public (d : DeviceIdentity) : PublicIdentity :=
  {| ed25519_pub := ed25519_public (signing_key d);
     x25519_pub := x25519_public (dh_secret d) |}.

Definition device_user_id (d : DeviceIdentity) : UserId := user_id (public d).

Definition sign (d : DeviceIdentity) (message : bytes) : bytes :=
  ed25519_sign (signing_key d) message.

Definition verify (ed25519_pub message signature : bytes) : bool :=
  if ed25519_key_valid ed25519_pub
  then ed25519_verify_strict ed25519_pub message signature
  else false.

Context `{!CryptoLaws}.

Lemma verify_sign d m :
  type_wf d → verify (ed25519_pub (public d)) m (sign d m) = true.
Proof.
  intros [Hk _]. unfold verify, sign, public; simpl.
  by rewrite ed25519_public_valid, ed25519_verify_sign.
Qed.

Lemma public_wf d : type_wf d → type_wf (public d).
Proof.
  intros [Hk _]. split; simpl; [by apply ed25519_public_length|].
  apply x25519_public_length.
Qed.

Lemma user_id_length p : length (user_id p) = 32.
Proof.
  unfold user_id, user_id_from.
  rewrite hex_encode_length, length_take, sha256_length. done.
Qed.

Lemma user_id_wf p : string_wf (user_id p).
Proof. split; [apply hex_encode_utf8|]. by rewrite user_id_length. Qed.
End identity.

#[export] Hint Resolve verify_sign public_wf user_id_length user_id_wf : mesh.
