(* ===== verification/Event.v ===== *)
(** * Events of the log

    Models crates/mesh-talk-core/src/eventlog/event.rs and the error type of
    eventlog/mod.rs: content-addressed, hash-linked, signed events. *)

From S2P Require Import Prelude Crypto Bincode Identity.

(** [EventId], [ConversationId] and [Author] wrap [[u8; 32]]. *)
Abbreviation EventId := bytes.
Abbreviation ConversationId := bytes.
Abbreviation Author := bytes.

Inductive EventKind :=
  | Message | Edit | Delete | React | ReadMarker | MembershipChange
  | KeyRotation | FileManifest | Profile | ChannelRename | ChannelDissolve
  | ChannelOwnerTransfer | ChannelLeave | ChannelAccept | ChannelReplica
  | ChannelHistoryPolicy | ChannelJoinHistory | ChannelAccountAuthority
  | ChannelDeviceInheritance | ChannelMetadata.

#[global] Instance EventKind_eq_dec : EqDecision EventKind.
Proof. solve_decision. Defined.

(** The frozen wire index of a kind (the enum's discriminant). *)
Definition kind_index (k : EventKind) : N :=
  match k with
  | Message => 0 | Edit => 1 | Delete => 2 | React => 3 | ReadMarker => 4
  | MembershipChange => 5 | KeyRotation => 6 | FileManifest => 7 | Profile => 8
  | ChannelRename => 9 | ChannelDissolve => 10 | ChannelOwnerTransfer => 11
  | ChannelLeave => 12 | ChannelAccept => 13 | ChannelReplica => 14
  | ChannelHistoryPolicy => 15 | ChannelJoinHistory => 16
  | ChannelAccountAuthority => 17 | ChannelDeviceInheritance => 18
  | ChannelMetadata => 19
  end.

Record Event := MkEvent {
  id : EventId;
  conversation_id : ConversationId;
  author : Author;
  seq : N;
  parents : list EventId;
  lamport : N;
  wall_clock : N;
  kind : EventKind;
  ciphertext : bytes;
  sig : bytes
}.

#[global] Instance Event_eq_dec : EqDecision Event.
Proof. solve_decision. Defined.

(** Everything that fixes an event's identity. *)
Record EventContent := MkContent {
  c_conversation_id : ConversationId;
  c_author : Author;
  c_seq : N;
  c_parents : list EventId;
  c_lamport : N;
  c_wall_clock : N;
  c_kind : EventKind;
  c_ciphertext : bytes
}.

#[global] Instance EventContent_wf : TypeWf EventContent := λ c,
  length (c_conversation_id c) = 32 ∧ length (c_author c) = 32 ∧
  (c_seq c ≤ u64_max)%N ∧ (c_lamport c ≤ u64_max)%N ∧
  (c_wall_clock c ≤ u64_max)%N ∧
  Forall (λ p, length p = 32) (c_parents c) ∧
  (N.of_nat (length (c_parents c)) ≤ u64_max)%N ∧
  (N.of_nat (length (c_ciphertext c)) ≤ u64_max)%N.

(** The content of an event: what [recompute_id] hashes. *)
Definition content (e : Event) : EventContent := {|
  c_conversation_id := conversation_id e;
  c_author := author e;
  c_seq := seq e;
  c_parents := parents e;
  c_lamport := lamport e;
  c_wall_clock := wall_clock e;
  c_kind := kind e;
  c_ciphertext := ciphertext e
|}.

Definition EVENT_DOMAIN : bytes := str "mesh-talk-event-v1".

Section event.
Context `{Crypto, Bincode EventContent}.

Definition hash_content (c : EventContent) : EventId :=
  sha256 (EVENT_DOMAIN ++ ser c).

Definition signing_input (i : EventId) : bytes := EVENT_DOMAIN ++ i.

(** [Event::new]. *)
Definition event_new (identity : DeviceIdentity) (conv : ConversationId)
    (sq : N) (ps : list EventId) (lam wall : N) (k : EventKind) (ct : bytes) :
    Event :=
  let ps := canonical ps in
  let a := ed25519_pub (public identity) in
  let i := hash_content {|
    c_conversation_id := conv; c_author := a; c_seq := sq; c_parents := ps;
    c_lamport := lam; c_wall_clock := wall; c_kind := k; c_ciphertext := ct |} in
  {| id := i; conversation_id := conv; author := a; seq := sq; parents := ps;
     lamport := lam; wall_clock := wall; kind := k; ciphertext := ct;
     sig := sign identity (signing_input i) |}.

Definition recompute_id (e : Event) : EventId := hash_content (content e).

Definition verify_integrity (e : Event) : bool :=
  bool_decide (id e = recompute_id e).

Definition verify_signature (e : Event) : bool :=
  if decide (length (sig e) = 64)
  then verify (author e) (signing_input (id e)) (sig e)
  else false.

Definition is_canonical (e : Event) : bool :=
  bool_decide (parents e = canonical (parents e)).

Definition event_valid (e : Event) : Prop :=
  is_canonical e = true ∧ verify_integrity e = true ∧ verify_signature e = true.

Lemma is_canonical_sorted e :
  is_canonical e = true ↔ StronglySorted clt (parents e).
Proof.
  unfold is_canonical. rewrite bool_decide_eq_true. split.
  - intros ->. apply canonical_sorted.
  - intros Hs. by rewrite canonical_id.
Qed.

Lemma is_canonical_NoDup e : is_canonical e = true → NoDup (parents e).
Proof. rewrite is_canonical_sorted. apply clt_sorted_NoDup. Qed.

Context `{!CryptoLaws, !BincodeLaws EventContent}.

Lemma hash_content_length c : length (hash_content c) = 32.
Proof. apply sha256_length. Qed.

Lemma ser_content_inj c1 c2 : type_wf c1 → type_wf c2 → ser c1 = ser c2 → c1 = c2.
Proof.
  intros ?? E. apply (f_equal de) in E. rewrite !de_ser in E by done. by simplify_eq.
Qed.

Lemma event_new_valid_aux d conv sq ps lam wall k ct :
  type_wf d → event_valid (event_new d conv sq ps lam wall k ct).
Proof.
  intros Hd. split; [|split].
  - apply is_canonical_sorted. apply canonical_sorted.
  - by apply bool_decide_eq_true.
  - unfold verify_signature, event_new; simpl.
    unfold sign at 1. rewrite decide_True by apply ed25519_sign_length.
    by apply verify_sign.
Qed.
End event.

(** ** A concrete encoding of the content *)

Module EventCodec.
Import Fixint.

Definition kind_of_index (n : N) : option EventKind :=
  [Message; Edit; Delete; React; ReadMarker; MembershipChange; KeyRotation;
   FileManifest; Profile; ChannelRename; ChannelDissolve; ChannelOwnerTransfer;
   ChannelLeave; ChannelAccept; ChannelReplica; ChannelHistoryPolicy;
   ChannelJoinHistory; ChannelAccountAuthority; ChannelDeviceInheritance;
   ChannelMetadata] !! N.to_nat n.

Definition kind_codec : codec EventKind := c_enum kind_of_index kind_index.

#[export] Instance kind_codec_ok : CodecOk kind_codec.
Proof.
  apply c_enum_ok.
  - by intros [].
  - intros n b Hn. rewrite <-(N2Nat.id n). unfold kind_of_index in Hn.
    generalize dependent (N.to_nat n). intros m Hm.
    do 20 (destruct m as [|m]; [by simplify_eq/=|]). by destruct m.
  - by intros [].
Qed.

Definition content_codec : codec EventContent :=
  c_iso
    (λ '(cv, (a, (s, (ps, (l, (w, (k, ct))))))), MkContent cv a s ps l w k ct)
    (λ c, (c_conversation_id c, (c_author c, (c_seq c, (c_parents c,
       (c_lamport c, (c_wall_clock c, (c_kind c, c_ciphertext c))))))))
    (c_pair (c_arr 32) (c_pair (c_arr 32) (c_pair (c_uint 8)
      (c_pair (c_vec (c_arr 32)) (c_pair (c_uint 8) (c_pair (c_uint 8)
        (c_pair kind_codec c_bytes))))))).

#[export] Instance content_codec_ok : CodecOk content_codec.
Proof.
  apply c_iso_ok; [by intros []|by intros (?&?&?&?&?&?&?&?)|apply _].
Qed.

#[export] Instance content_bincode : Bincode EventContent := bincode_of content_codec.

#[export] Instance content_bincode_laws : BincodeLaws EventContent.
Proof.
  apply bincode_of_laws; [apply _|].
  intros c (Hcv & Ha & Hs & Hl & Hw & Hps & Hn & Hct).
  cbn -[N.of_nat N.pow u64_max]. rewrite <-!u64_width. naive_solver.
Qed.

Definition event_codec : codec Event :=
  c_iso
    (λ '(i, (cv, (a, (s, (ps, (l, (w, (k, (ct, sg))))))))), MkEvent i cv a s ps l w k ct sg)
    (λ e, (id e, (conversation_id e, (author e, (seq e, (parents e,
       (lamport e, (wall_clock e, (kind e, (ciphertext e, sig e))))))))))
    (c_pair (c_arr 32) (c_pair (c_arr 32) (c_pair (c_arr 32) (c_pair (c_uint 8)
      (c_pair (c_vec (c_arr 32)) (c_pair (c_uint 8) (c_pair (c_uint 8)
        (c_pair kind_codec (c_pair c_bytes c_bytes))))))))).

#[export] Instance event_codec_ok : CodecOk event_codec.
Proof.
  apply c_iso_ok; [by intros []|by intros (?&?&?&?&?&?&?&?&?&?)|apply _].
Qed.

#[export] Instance event_bincode : Bincode Event := bincode_of event_codec.
End EventCodec.

(** ** Properties *)

Section properties.
Context `{Crypto, Bincode EventContent, !CryptoLaws, !BincodeLaws EventContent}.

(** Every event a device authors passes the checks a receiving log makes:
    its parents are canonical, its id is the hash of its content and its
    signature verifies under its author key. *)
Lemma event_new_valid d conv sq ps lam wall k ct :
  type_wf d →
  let e := event_new d conv sq ps lam wall k ct in
  is_canonical e = true ∧ verify_integrity e = true ∧ verify_signature e = true.
Proof. apply event_new_valid_aux. Qed.

(** The identity of an event depends on the set of its parents only: the
    order and the repetitions in which the author lists them do not matter. *)
Lemma event_new_parents_set d conv sq ps ps' lam wall k ct :
  (∀ p, p ∈ ps ↔ p ∈ ps') →
  event_new d conv sq ps lam wall k ct = event_new d conv sq ps' lam wall k ct.
Proof. intros Hps. unfold event_new. by rewrite (canonical_ext ps ps'). Qed.

(** Tamper evidence.  Two integral events with one id either agree on every
    hashed field, or exhibit an explicit collision of SHA-256. *)
Lemma event_id_binding e1 e2 :
  type_wf (content e1) → type_wf (content e2) →
  verify_integrity e1 = true → verify_integrity e2 = true → id e1 = id e2 →
  content e1 = content e2 ∨
  ∃ m1 m2 : bytes, m1 ≠ m2 ∧ sha256 m1 = sha256 m2.
Proof.
  unfold verify_integrity, recompute_id, hash_content. rewrite !bool_decide_eq_true.
  intros Hw1 Hw2 Hi1 Hi2 Hid. destruct (decide (ser (content e1) = ser (content e2))) as [E|E].
  - left. by apply ser_content_inj.
  - right. exists (EVENT_DOMAIN ++ ser (content e1)), (EVENT_DOMAIN ++ ser (content e2)).
    split; [by intros ?%(inj (app _))|congruence].
Qed.
End properties.

Module EventWitness.
Import ToyCrypto EventCodec.

Definition alice : DeviceIdentity :=
  from_secret_bytes (repeat Byte.x01 32) (repeat Byte.x02 32).
Definition room : ConversationId := repeat Byte.x0c 32.
Definition p1 : EventId := repeat Byte.x11 32.
Definition p2 : EventId := repeat Byte.x22 32.
Definition hello : Event := event_new alice room 0 [p2; p1; p2] 1 7 Message (str "hello").

Lemma alice_wf : type_wf alice.
Proof. by split. Qed.

Lemma hello_content_wf : type_wf (content hello).
Proof. repeat split; try (vm_compute; congruence); by repeat constructor. Qed.

(** The same event with its signature stripped. *)
Definition unsigned : Event :=
  MkEvent (id hello) room (author hello) 0 (parents hello) 1 7 Message (str "hello") [].

End EventWitness.
