(* ===== verification/EventStore.v ===== *)
(** * The in-memory event log

    Models crates/mesh-talk-core/src/eventlog/store.rs: validation, indexing and
    the queries of [EventLog].  The hash maps are [gmap]s, the hash sets and the
    B-tree sets [gset]s; a B-tree set is listed in key order by [btree_iter].
    The growth warning of [index_trusted] is logging and is left out. *)

From S2P Require Import Prelude Crypto Bincode Identity Event.

Inductive AppendOutcome := Appended | Duplicate.

#[global] Instance AppendOutcome_eq_dec : EqDecision AppendOutcome.
Proof. solve_decision. Defined.

(** eventlog/mod.rs; payloads of foreign error types are their rendering. *)
Inductive LogError :=
  | AdmissionRejected (reason : bytes)
  | CorruptId
  | BadSignature
  | NonCanonical
  | ClockExhausted
  | SequenceExhausted
  | StaleCursor
  | ConversationRetiring
  | RelayMailboxUnavailable
  | RelayCapacityUnavailable
  | RelayEventTooLarge
  | InvalidPageBudget
  | PageBudgetTooSmall (required : N)
  | RepositoryCounterExhausted
  | IncompatibleEventSchema
  | MissingParents (missing : list EventId)
  | AuthorEquivocation (author : Author) (seq : N)
  | Storage (e : bytes)
  | Database (e : bytes)
  | Serialization (m : bytes)
  | Io (e : bytes)
  | CorruptFile (m : bytes).

(** Validation and policy failures of one event do not abort a batch. *)
Definition is_peer_rejection (e : LogError) : bool :=
  match e with
  | AdmissionRejected _ | NonCanonical | CorruptId | BadSignature
  | MissingParents _ | AuthorEquivocation _ _ => true
  | _ => false
  end.

(** [Display for LogError]. *)
Definition log_error_to_string (e : LogError) : bytes :=
  match e with
  | AdmissionRejected reason => str "event admission rejected: " ++ reason
  | CorruptId => str "event id does not match its content"
  | BadSignature => str "event signature did not verify"
  | NonCanonical => str "event parents are not in canonical form"
  | ClockExhausted => str "event clock exhausted"
  | SequenceExhausted => str "event author sequence exhausted"
  | ConversationRetiring => str "conversation retirement is in progress"
  | RelayCapacityUnavailable =>
      str "local relay capacity unavailable; retry after maintenance"
  | RelayEventTooLarge => str "event exceeds the empty local relay capacity"
  | RelayMailboxUnavailable => str "relay mailbox is unavailable"
  | StaleCursor => str "stale event page cursor"
  | InvalidPageBudget => str "invalid event page budget"
  | PageBudgetTooSmall required =>
      str "event page requires " ++ decimal required ++ str " bytes"
  | RepositoryCounterExhausted => str "event repository counter exhausted"
  | IncompatibleEventSchema => str "incompatible event repository schema"
  | MissingParents p =>
      str "missing " ++ decimal (N.of_nat (length p)) ++ str " parent event(s)"
  | AuthorEquivocation _ s => str "author equivocation at seq " ++ decimal s
  | Storage e => str "storage error: " ++ e
  | Database e => str "database error: " ++ e
  | Serialization m => str "serialization error: " ++ m
  | Io e => str "io error: " ++ e
  | CorruptFile m => str "corrupt log file: " ++ m
  end.

(** Keys of the per-conversation order: [(lamport, id)]. *)
Abbreviation OrderKey := (N * EventId)%type.

Record EventLog := MkLog {
  events : gmap EventId Event;
  by_conversation : gmap ConversationId (gset OrderKey);
  messages_by_author : gmap (ConversationId * Author) (gset OrderKey);
  replica_v2 : gset ConversationId;
  history_v3 : gset ConversationId;
  account_v4 : gset ConversationId;
  metadata_v5 : gset ConversationId;
  heads_of : gmap ConversationId (gset EventId);
  version : gmap ConversationId (gmap Author N);
  max_lamport : gmap ConversationId N;
  author_seq : gmap (ConversationId * Author * N) EventId
}.

(** [EventLog::default()]. *)
Definition empty_log : EventLog :=
  MkLog ∅ ∅ ∅ ∅ ∅ ∅ ∅ ∅ ∅ ∅ ∅.

Section store.
Context `{Crypto, Bincode EventContent}.
Implicit Types (l : EventLog) (e : Event).

(** The parents that are absent, or belong to another conversation. *)
Definition missing_parents l e : list EventId :=
  filter (λ p, conversation_id <$> events l !! p ≠ Some (conversation_id e))
    (parents e).

Definition validate l e : result LogError bool :=
  if negb (is_canonical e) then Err NonCanonical else
  if negb (verify_integrity e) then Err CorruptId else
  if negb (verify_signature e) then Err BadSignature else
  match events l !! id e with
  | Some _ => Ok false
  | None =>
      match missing_parents l e with
      | _ :: _ => Err (MissingParents (missing_parents l e))
      | [] =>
          match author_seq l !! (conversation_id e, author e, seq e) with
          | Some existing =>
              if decide (existing = id e) then Ok true
              else Err (AuthorEquivocation (author e) (seq e))
          | None => Ok true
          end
      end
  end.

(** Heads: profile events stay out of the frontier. *)
Definition index_heads (heads : gmap ConversationId (gset EventId)) e :=
  if decide (kind e = Profile) then heads
  else
    let hs := default ∅ (heads !! conversation_id e) in
    <[conversation_id e := (hs ∖ list_to_set (parents e)) ∪ {[id e]}]> heads.

(** [entry(k).or_insert(0)], raised to [v]. *)
Definition raise_slot `{Countable K} (m : gmap K N) (k : K) (v : N) : gmap K N :=
  let slot := default 0%N (m !! k) in
  <[k := if decide (slot < v)%N then v else slot]> m.

(** [entry(k).or_default().insert(x)]. *)
Definition entry_insert `{Countable K, Countable A} (m : gmap K (gset A)) (k : K)
    (x : A) : gmap K (gset A) :=
  <[k := default ∅ (m !! k) ∪ {[x]}]> m.

Definition index_trusted l e : EventLog :=
  let conv := conversation_id e in
  let key := (lamport e, id e) in
  {| heads_of := index_heads (heads_of l) e;
     version := <[conv := raise_slot (default ∅ (version l !! conv))
                            (author e) (seq e)]> (version l);
     max_lamport := raise_slot (max_lamport l) conv (lamport e);
     author_seq := <[(conv, author e, seq e) := id e]> (author_seq l);
     by_conversation := entry_insert (by_conversation l) conv key;
     messages_by_author :=
       if decide (kind e = Message)
       then entry_insert (messages_by_author l) (conv, author e) key
       else messages_by_author l;
     replica_v2 :=
       if decide (kind e = ChannelReplica) then replica_v2 l ∪ {[conv]}
       else replica_v2 l;
     history_v3 :=
       if decide (kind e = ChannelHistoryPolicy ∨ kind e = ChannelJoinHistory)
       then history_v3 l ∪ {[conv]} else history_v3 l;
     account_v4 :=
       if decide (kind e = ChannelAccountAuthority ∨
                  kind e = ChannelDeviceInheritance)
       then account_v4 l ∪ {[conv]} else account_v4 l;
     metadata_v5 :=
       if decide (kind e = ChannelMetadata) then metadata_v5 l ∪ {[conv]}
       else metadata_v5 l;
     events := <[id e := e]> (events l) |}.

Definition append l e : EventLog * result LogError AppendOutcome :=
  match validate l e with
  | Err err => (l, Err err)
  | Ok false => (l, Ok Duplicate)
  | Ok true => (index_trusted l e, Ok Appended)
  end.

Definition has l (i : EventId) : bool := bool_decide (is_Some (events l !! i)).

Definition requires_channel_v2 l (c : ConversationId) : bool :=
  bool_decide (c ∈ replica_v2 l).
Definition requires_channel_v3 l (c : ConversationId) : bool :=
  bool_decide (c ∈ history_v3 l).
Definition requires_channel_v4 l (c : ConversationId) : bool :=
  bool_decide (c ∈ account_v4 l).
Definition requires_channel_v5 l (c : ConversationId) : bool :=
  bool_decide (c ∈ metadata_v5 l).

Definition all_event_ids l : list EventId := (map_to_list (events l)).*1.
Definition conversations l : list ConversationId :=
  (map_to_list (by_conversation l)).*1.
Definition get l (i : EventId) : option Event := events l !! i.

Definition authored_event l (c : ConversationId) (a : Author) (s : N) :
    option Event :=
  author_seq l !! (c, a, s) ≫= λ i, events l !! i.

(** [EventLog::events]. *)
Definition events_of l (c : ConversationId) : list Event :=
  match by_conversation l !! c with
  | Some ids => omap (λ k, events l !! k.2) (btree_iter ids)
  | None => []
  end.

Definition message_keys_after l (c : ConversationId) (a : Author)
    (cursor : option OrderKey) (limit : nat) : list OrderKey :=
  match messages_by_author l !! (c, a) with
  | None => []
  | Some keys =>
      let ks := btree_iter keys in
      let target := Nat.min limit (length ks) in
      match cursor with
      | Some after =>
          let result := take target (filter (λ k, clt after k) ks) in
          if decide (length result < target)
          then result ++ take (target - length result) ks
          else result
      | None => take target ks
      end
  end.

(** [EventLog::heads]. *)
Definition heads l (c : ConversationId) : list EventId :=
  btree_iter (default ∅ (heads_of l !! c)).

Definition version_vector l (c : ConversationId) : gmap Author N :=
  default ∅ (version l !! c).

Definition next_sequence l (c : ConversationId) (a : Author) :
    result LogError N :=
  ok_or (checked_add u64_max (default 0%N (version l !! c ≫= (.!! a))) 1)
    SequenceExhausted.

Definition prepare l (c : ConversationId) : result LogError (list EventId * N) :=
  let ps := heads l c in
  lam ← ok_or (checked_add u64_max (default 0%N (max_lamport l !! c)) 1)
          ClockExhausted;
  Ok (ps, lam).
End store.

(** ** Slots that hold the maximum of a set *)

Definition is_max (P : N → Prop) (n : N) : Prop := P n ∧ ∀ m, P m → (m ≤ n)%N.

Definition slot_max (o : option N) (P : N → Prop) : Prop :=
  match o with Some n => is_max P n | None => ∀ m, ¬ P m end.

Lemma slot_max_ext o P Q : (∀ n, P n ↔ Q n) → slot_max o P → slot_max o Q.
Proof. intros HPQ. destruct o; unfold slot_max, is_max; naive_solver. Qed.

Lemma raise_slot_max `{Countable K} (m : gmap K N) (P : K → N → Prop) k v k' :
  (∀ k, slot_max (m !! k) (P k)) →
  slot_max (raise_slot m k v !! k') (λ n, P k' n ∨ (k = k' ∧ n = v)).
Proof.
  intros Hm. unfold raise_slot. destruct (decide (k = k')) as [<-|Hne].
  - rewrite lookup_insert_eq. specialize (Hm k).
    destruct (m !! k) as [n|]; simpl in *.
    + destruct Hm as [Hn Hmax]. case_decide as Hlt; split; [naive_solver| |naive_solver|].
      * intros x [Hx|[_ ->]]; [apply Hmax in Hx|]; lia.
      * intros x [Hx|[_ ->]]; [auto|lia].
    + case_decide; (split; [naive_solver lia|]); intros x [Hx|[_ ->]]; naive_solver lia.
  - rewrite lookup_insert_ne by done. eapply slot_max_ext, Hm. naive_solver.
Qed.

Lemma entry_insert_spec `{Countable K, Countable A} (m : gmap K (gset A)) k x k' y :
  y ∈ default ∅ (entry_insert m k x !! k') ↔
  y ∈ default ∅ (m !! k') ∨ (k = k' ∧ y = x).
Proof.
  unfold entry_insert. destruct (decide (k = k')) as [<-|Hne].
  - rewrite lookup_insert_eq. simpl. set_solver.
  - rewrite lookup_insert_ne by done. set_solver.
Qed.

(** ** The log invariant *)

Section invariant.
Context `{Crypto, Bincode EventContent}.
Implicit Types (l : EventLog) (e : Event).

(** Some event of the log satisfies [Q]. *)
Definition some_event l (Q : EventId → Event → Prop) : Prop :=
  ∃ i e, events l !! i = Some e ∧ Q i e.

(** [i] is a non-profile event of [c] that no non-profile event refers to. *)
Definition is_head l (c : ConversationId) (i : EventId) : Prop :=
  (∃ e, events l !! i = Some e ∧ conversation_id e = c ∧ kind e ≠ Profile) ∧
  ¬ some_event l (λ _ e, i ∈ parents e ∧ kind e ≠ Profile).

Definition of_kinds l (c : ConversationId) (ks : list EventKind) : Prop :=
  some_event l (λ _ e, conversation_id e = c ∧ kind e ∈ ks).

Record log_inv l : Prop := {
  inv_valid i e : events l !! i = Some e → id e = i ∧ event_valid e;
  inv_closed i e p :
    events l !! i = Some e → p ∈ parents e →
    ∃ e', events l !! p = Some e' ∧ conversation_id e' = conversation_id e;
  inv_rank : ∃ rank : EventId → nat, ∀ i e p,
    events l !! i = Some e → p ∈ parents e → rank p < rank i;
  inv_conv c k :
    k ∈ default ∅ (by_conversation l !! c) ↔
    ∃ e, events l !! k.2 = Some e ∧ conversation_id e = c ∧ lamport e = k.1;
  inv_messages c a k :
    k ∈ default ∅ (messages_by_author l !! (c, a)) ↔
    ∃ e, events l !! k.2 = Some e ∧ conversation_id e = c ∧ author e = a ∧
      kind e = Message ∧ lamport e = k.1;
  inv_heads c i : i ∈ default ∅ (heads_of l !! c) ↔ is_head l c i;
  inv_version c a :
    slot_max (default ∅ (version l !! c) !! a) (λ n,
      some_event l (λ _ e, conversation_id e = c ∧ author e = a ∧ seq e = n));
  inv_lamport c :
    slot_max (max_lamport l !! c) (λ n,
      some_event l (λ _ e, conversation_id e = c ∧ lamport e = n));
  inv_author_seq c a s i :
    author_seq l !! (c, a, s) = Some i ↔
    ∃ e, events l !! i = Some e ∧ conversation_id e = c ∧ author e = a ∧ seq e = s;
  inv_v2 c : c ∈ replica_v2 l ↔ of_kinds l c [ChannelReplica];
  inv_v3 c : c ∈ history_v3 l ↔
    of_kinds l c [ChannelHistoryPolicy; ChannelJoinHistory];
  inv_v4 c : c ∈ account_v4 l ↔
    of_kinds l c [ChannelAccountAuthority; ChannelDeviceInheritance];
  inv_v5 c : c ∈ metadata_v5 l ↔ of_kinds l c [ChannelMetadata]
}.

Lemma empty_log_inv : log_inv empty_log.
Proof.
  split; unfold is_head, of_kinds, some_event, slot_max; cbn;
    try (setoid_rewrite lookup_empty); try set_solver.
  - by exists (λ _, 0).
  - intros c a. rewrite lookup_empty. simpl. rewrite lookup_empty. set_solver.
  - intros c. rewrite lookup_empty. set_solver.
Qed.

(** What a successful validation establishes. *)
Lemma validate_Ok_true l e :
  validate l e = Ok true →
  event_valid e ∧ events l !! id e = None ∧
  (∀ p, p ∈ parents e →
     ∃ e', events l !! p = Some e' ∧ conversation_id e' = conversation_id e) ∧
  (∀ i, author_seq l !! (conversation_id e, author e, seq e) = Some i → i = id e).
Proof.
  unfold validate, event_valid.
  destruct (is_canonical e), (verify_integrity e), (verify_signature e); simpl; try done.
  destruct (events l !! id e) eqn:Hid; [done|].
  destruct (missing_parents l e) as [|m ms] eqn:Hm; [|done].
  intros Hseq. split_and!; try done.
  - intros p Hp. assert (p ∉ missing_parents l e) as Hnin by (rewrite Hm; set_solver).
    unfold missing_parents in Hnin. rewrite list_elem_of_filter in Hnin.
    destruct (decide (conversation_id <$> events l !! p = Some (conversation_id e)))
      as [Heq|]; [|naive_solver].
    apply fmap_Some in Heq. naive_solver.
  - intros i Hi. rewrite Hi in Hseq. by case_decide.
Qed.

Lemma events_index_trusted l e :
  events (index_trusted l e) = <[id e := e]> (events l).
Proof. done. Qed.

(** Facts about the grown log, split into the new event and the old ones. *)
Lemma some_event_index l e Q :
  events l !! id e = None →
  some_event (index_trusted l e) Q ↔ Q (id e) e ∨ some_event l Q.
Proof.
  intros Hnew. unfold some_event. rewrite events_index_trusted. split.
  - intros (i & e' & Hi & HQ). destruct (decide (i = id e)) as [->|Hne].
    + rewrite lookup_insert_eq in Hi. simplify_eq. by left.
    + rewrite lookup_insert_ne in Hi by done. eauto.
  - intros [HQ|(i & e' & Hi & HQ)].
    + exists (id e), e. by rewrite lookup_insert_eq.
    + exists i, e'. rewrite lookup_insert_ne; [done|]. intros <-. congruence.
Qed.

Lemma lookup_index l e i e' :
  events l !! id e = None →
  events (index_trusted l e) !! i = Some e' ↔
  (i = id e ∧ e' = e) ∨ events l !! i = Some e'.
Proof.
  intros Hnew. rewrite events_index_trusted. destruct (decide (i = id e)) as [->|Hne].
  - rewrite lookup_insert_eq, Hnew. naive_solver.
  - rewrite lookup_insert_ne by done. naive_solver.
Qed.

(** One accepted event, with everything its indexing relies on. *)
Section index.
Context (l : EventLog) (e : Event).
Context (Hinv : log_inv l) (Hval : validate l e = Ok true).

Local Lemma index_new : events l !! id e = None.
Proof. by apply validate_Ok_true in Hval as (_ & ? & _). Qed.

Local Lemma index_parents p :
  p ∈ parents e →
  ∃ e', events l !! p = Some e' ∧ conversation_id e' = conversation_id e.
Proof. apply validate_Ok_true in Hval as (_ & _ & ? & _). auto. Qed.

Local Lemma index_not_self : id e ∉ parents e.
Proof.
  intros (e' & He' & _)%index_parents. pose proof index_new. congruence.
Qed.

(** Nothing refers to an event that is not there yet. *)
Local Lemma index_unreferenced i e' :
  events l !! i = Some e' → id e ∉ parents e'.
Proof.
  intros Hi Hin. destruct (inv_closed _ Hinv _ _ _ Hi Hin) as (e'' & He'' & _).
  pose proof index_new. congruence.
Qed.

Local Lemma index_rank :
  ∃ rank : EventId → nat, ∀ i e' p,
    events (index_trusted l e) !! i = Some e' → p ∈ parents e' → rank p < rank i.
Proof.
  destruct (inv_rank _ Hinv) as [rank Hrank].
  exists (λ i, if decide (i = id e) then S (max_list (rank <$> parents e))
               else rank i).
  intros i e' p Hi Hp. apply lookup_index in Hi; [|apply index_new].
  destruct Hi as [[-> ->]|Hi].
  - rewrite (decide_True _ _ (eq_refl (id e))).
    rewrite decide_False by (intros ->; by apply index_not_self).
    by apply Nat.lt_succ_r, max_list_elem_of_le, list_elem_of_fmap_2.
  - rewrite decide_False.
    2:{ intros ->. by eapply index_unreferenced. }
    rewrite decide_False; [eauto|]. intros ->. pose proof index_new. congruence.
Qed.

Local Lemma index_is_head c i :
  i ∈ default ∅ (heads_of (index_trusted l e) !! c) ↔
  is_head (index_trusted l e) c i.
Proof.
  pose proof index_new as Hnew. unfold is_head.
  rewrite (some_event_index l e) by done. setoid_rewrite lookup_index; [|done].
  cbn [index_trusted heads_of]. unfold index_heads. case_decide as Hk.
  - rewrite (inv_heads _ Hinv). unfold is_head. split.
    + intros [(e' & ? & ?) Hno]. split; [naive_solver|]. intros [[]|]; naive_solver.
    + intros [(e' & [[-> ->]|He'] & ?) Hno]; naive_solver.
  - destruct (decide (c = conversation_id e)) as [->|Hne].
    + rewrite lookup_insert_eq. simpl.
      rewrite elem_of_union, elem_of_difference, elem_of_singleton,
        elem_of_list_to_set, (inv_heads _ Hinv). unfold is_head. split.
      * intros [[[(e' & ? & ?) Hno] Hnin]| ->]; [split; naive_solver|].
        split; [naive_solver|]. intros [[? _]|(j & e' & Hj & Hin & _)].
        -- by apply index_not_self.
        -- by eapply index_unreferenced.
      * intros [(e' & [[-> ->]|He'] & Hc & Hk') Hno]; [by right|].
        left. split; [split; [naive_solver|]|]; naive_solver.
    + rewrite lookup_insert_ne by done. rewrite (inv_heads _ Hinv).
      unfold is_head. split.
      * intros [(e' & He' & Hc & Hk') Hno]. split; [naive_solver|].
        intros [[Hin _]|?]; [|naive_solver].
        apply index_parents in Hin as (e'' & ? & ?). congruence.
      * intros [(e' & [[-> ->]|He'] & ? & ?) Hno]; naive_solver.
Qed.

Local Lemma index_author_seq c a s i :
  author_seq (index_trusted l e) !! (c, a, s) = Some i ↔
  ∃ e', events (index_trusted l e) !! i = Some e' ∧ conversation_id e' = c ∧
    author e' = a ∧ seq e' = s.
Proof.
  pose proof index_new as Hnew.
  destruct (validate_Ok_true _ _ Hval) as (_ & _ & _ & Huniq).
  setoid_rewrite lookup_index; [|done]. cbn [index_trusted author_seq].
  destruct (decide ((conversation_id e, author e, seq e) = (c, a, s))) as [Heq|Hne].
  - rewrite Heq, lookup_insert_eq. simplify_eq. split; [naive_solver|].
    intros (e' & [[-> ->]|He'] & ? & ? & ?); [done|].
    assert (author_seq l !! (conversation_id e, author e, seq e) = Some i) as Hi
      by (apply (inv_author_seq _ Hinv); eauto).
    apply Huniq in Hi as ->. congruence.
  - rewrite lookup_insert_ne by done. rewrite (inv_author_seq _ Hinv).
    split; [naive_solver|]. intros (e' & [[-> ->]|He'] & ? & ? & ?); naive_solver.
Qed.

Local Lemma index_flag (old : gset ConversationId) (ks : list EventKind)
    (P : Prop) `{Decision P} c :
  (∀ c, c ∈ old ↔ of_kinds l c ks) → (P ↔ kind e ∈ ks) →
  c ∈ (if decide P then old ∪ {[conversation_id e]} else old) ↔
  of_kinds (index_trusted l e) c ks.
Proof.
  intros Hold HP. unfold of_kinds.
  rewrite some_event_index by apply index_new. fold (of_kinds l c ks).
  rewrite <-Hold, <-HP. case_decide; set_solver.
Qed.

Local Lemma index_version c a :
  slot_max (default ∅ (version (index_trusted l e) !! c) !! a) (λ n,
    some_event (index_trusted l e)
      (λ _ e, conversation_id e = c ∧ author e = a ∧ seq e = n)).
Proof.
  pose proof (inv_version _ Hinv) as Hv. cbn [index_trusted version].
  destruct (decide (conversation_id e = c)) as [<-|Hne].
  - rewrite lookup_insert_eq. simpl.
    eapply slot_max_ext; [|apply (raise_slot_max _ (λ a n, some_event l (λ _ e',
      conversation_id e' = conversation_id e ∧ author e' = a ∧ seq e' = n))), Hv].
    intros n. rewrite some_event_index by apply index_new. naive_solver.
  - rewrite lookup_insert_ne by done. eapply slot_max_ext; [|apply Hv].
    intros n. rewrite some_event_index by apply index_new. naive_solver.
Qed.

Lemma index_trusted_inv : log_inv (index_trusted l e).
Proof.
  pose proof index_new as Hnew. destruct (validate_Ok_true _ _ Hval) as (Hev & _).
  split.
  - intros i e' [[-> ->]|Hi]%lookup_index; [done| |done].
    by apply (inv_valid _ Hinv).
  - intros i e' p. setoid_rewrite lookup_index; [|done..].
    intros [[-> ->]|Hi] Hp.
    + apply index_parents in Hp. naive_solver.
    + destruct (inv_closed _ Hinv _ _ _ Hi Hp). naive_solver.
  - apply index_rank.
  - intros c k. setoid_rewrite lookup_index; [|done]. cbn [index_trusted by_conversation].
    rewrite entry_insert_spec, (inv_conv _ Hinv). destruct k as [n i]. naive_solver.
  - intros c a k. setoid_rewrite lookup_index; [|done].
    cbn [index_trusted messages_by_author]. destruct k as [n i]. case_decide.
    + rewrite entry_insert_spec, (inv_messages _ Hinv). naive_solver.
    + rewrite (inv_messages _ Hinv). naive_solver.
  - apply index_is_head.
  - apply index_version.
  - intros c. eapply slot_max_ext;
      [|apply (raise_slot_max _ (λ c n, some_event l (λ _ e,
        conversation_id e = c ∧ lamport e = n))), (inv_lamport _ Hinv)].
    intros n. rewrite some_event_index by done. naive_solver.
  - apply index_author_seq.
  - intros c. apply index_flag; [apply (inv_v2 _ Hinv)|set_solver].
  - intros c. apply index_flag; [apply (inv_v3 _ Hinv)|set_solver].
  - intros c. apply index_flag; [apply (inv_v4 _ Hinv)|set_solver].
  - intros c. apply index_flag; [apply (inv_v5 _ Hinv)|set_solver].
Qed.
End index.

Lemma append_inv l e : log_inv l → log_inv (append l e).1.
Proof.
  intros Hinv. unfold append. destruct (validate l e) as [[]|] eqn:Hval; simpl; [|done..].
  by apply index_trusted_inv.
Qed.

(** The log after any sequence of appends. *)
Definition append_all l (es : list Event) : EventLog :=
  foldl (λ l e, (append l e).1) l es.

Lemma append_all_inv l es : log_inv l → log_inv (append_all l es).
Proof.
  revert l. induction es as [|e es IH]; intros l Hl; [done|].
  by apply IH, append_inv.
Qed.

(** ** What an append answers *)

Lemma elem_of_missing_parents l e p :
  p ∈ missing_parents l e ↔ p ∈ parents e ∧
    ¬ ∃ e', events l !! p = Some e' ∧ conversation_id e' = conversation_id e.
Proof.
  unfold missing_parents. rewrite list_elem_of_filter, fmap_Some. naive_solver.
Qed.

Definition parents_known l e : Prop := ∀ p, p ∈ parents e →
  ∃ e', events l !! p = Some e' ∧ conversation_id e' = conversation_id e.

Definition same_slot e e' : Prop :=
  conversation_id e' = conversation_id e ∧ author e' = author e ∧ seq e' = seq e.

Lemma missing_parents_nil l e : missing_parents l e = [] ↔ parents_known l e.
Proof.
  split.
  - intros Hnil p Hp.
    destruct (decide (conversation_id <$> events l !! p = Some (conversation_id e)))
      as [Heq|Hne]; [apply fmap_Some in Heq; naive_solver|].
    assert (p ∈ missing_parents l e) as Hin by by apply list_elem_of_filter.
    rewrite Hnil in Hin. set_solver.
  - intros Hk. apply filter_nil_iff. intros p Hp Hne.
    destruct (Hk p Hp) as (e' & He' & Hc). rewrite He' in Hne. simpl in Hne. congruence.
Qed.

Lemma author_seq_free l e :
  log_inv l → events l !! id e = None →
  author_seq l !! (conversation_id e, author e, seq e) = None ↔
  ¬ some_event l (λ _ e', same_slot e e').
Proof.
  intros Hinv Hnew. destruct (author_seq l !! _) as [i|] eqn:Hs; split; try done.
  - intros Hno. exfalso. apply Hno. apply (inv_author_seq _ Hinv) in Hs.
    unfold some_event, same_slot. naive_solver.
  - intros _ (i & e' & He' & Hc & Ha & Hq).
    assert (author_seq l !! (conversation_id e, author e, seq e) = Some i); [|congruence].
    apply (inv_author_seq _ Hinv). exists e'. naive_solver.
Qed.

Lemma validate_cases l e :
  match validate l e with
  | Ok true => event_valid e ∧ events l !! id e = None ∧ parents_known l e ∧
      (author_seq l !! (conversation_id e, author e, seq e) = None ∨
       author_seq l !! (conversation_id e, author e, seq e) = Some (id e))
  | Ok false => event_valid e ∧ is_Some (events l !! id e)
  | Err NonCanonical => is_canonical e = false
  | Err CorruptId => is_canonical e = true ∧ verify_integrity e = false
  | Err BadSignature =>
      is_canonical e = true ∧ verify_integrity e = true ∧ verify_signature e = false
  | Err (MissingParents ps) =>
      event_valid e ∧ events l !! id e = None ∧ ps = missing_parents l e ∧ ps ≠ []
  | Err (AuthorEquivocation a s) =>
      event_valid e ∧ events l !! id e = None ∧ parents_known l e ∧
      a = author e ∧ s = seq e ∧
      ∃ i, i ≠ id e ∧ author_seq l !! (conversation_id e, author e, seq e) = Some i
  | Err _ => False
  end.
Proof.
  unfold validate, event_valid. destruct (is_canonical e); simpl; [|done].
  destruct (verify_integrity e); simpl; [|done].
  destruct (verify_signature e); simpl; [|done].
  destruct (events l !! id e) eqn:Hid; [naive_solver|].
  destruct (missing_parents l e) as [|m ms] eqn:Hm; [|naive_solver].
  apply missing_parents_nil in Hm.
  destruct (author_seq l !! _) as [i|] eqn:Hs; [|naive_solver].
  case_decide; naive_solver.
Qed.

(** ** The queries, read off the invariant *)

Definition order_key e : OrderKey := (lamport e, id e).

Lemma events_of_alt l c :
  events_of l c = omap (λ k, events l !! k.2) (btree_iter (default ∅ (by_conversation l !! c))).
Proof. unfold events_of. by destruct (by_conversation l !! c). Qed.

Lemma omap_order_keys (m : gmap EventId Event) (ks : list OrderKey) :
  (∀ k, k ∈ ks → ∃ e, m !! k.2 = Some e ∧ order_key e = k) →
  order_key <$> omap (λ k, m !! k.2) ks = ks.
Proof.
  induction ks as [|k ks IH]; intros Hk; [done|]. cbn [omap list_omap].
  destruct (Hk k ltac:(set_solver)) as (e & -> & Hek).
  rewrite fmap_cons, Hek. f_equal. apply IH. set_solver.
Qed.

Lemma events_of_keys l c :
  log_inv l → order_key <$> events_of l c = btree_iter (default ∅ (by_conversation l !! c)).
Proof.
  intros Hinv. rewrite events_of_alt. apply omap_order_keys.
  intros k Hk%elem_of_btree_iter. apply (inv_conv _ Hinv) in Hk as (e & He & _ & Hl).
  exists e. split; [done|]. destruct (inv_valid _ Hinv _ _ He) as [Hid _].
  destruct k. unfold order_key. naive_solver.
Qed.

Lemma elem_of_events_of l c e :
  log_inv l → e ∈ events_of l c ↔ events l !! id e = Some e ∧ conversation_id e = c.
Proof.
  intros Hinv. rewrite events_of_alt, list_elem_of_omap.
  setoid_rewrite elem_of_btree_iter. setoid_rewrite (inv_conv _ Hinv). split.
  - intros (k & (e' & He' & Hc & _) & He). rewrite He' in He. injection He as ->.
    destruct (inv_valid _ Hinv _ _ He') as [-> _]. done.
  - intros [He Hc]. exists (order_key e). split; [|done]. by exists e.
Qed.

Lemma events_of_sorted l c :
  log_inv l → StronglySorted clt (order_key <$> events_of l c).
Proof. intros Hinv. rewrite events_of_keys by done. apply btree_iter_sorted. Qed.

Lemma events_of_NoDup l c : log_inv l → NoDup (id <$> events_of l c).
Proof.
  intros Hinv. pose proof (events_of_sorted l c Hinv) as Hs.
  apply clt_sorted_NoDup, NoDup_fmap_1 in Hs. apply NoDup_fmap_2_strong; [|done].
  intros e1 e2 [He1 _]%elem_of_events_of [He2 _]%elem_of_events_of Hid; [|done..]. congruence.
Qed.

Lemma elem_of_heads l c i : log_inv l → i ∈ heads l c ↔ is_head l c i.
Proof. intros Hinv. unfold heads. rewrite elem_of_btree_iter. apply (inv_heads _ Hinv). Qed.

Lemma slot_max_unique o1 o2 P : slot_max o1 P → slot_max o2 P → o1 = o2.
Proof.
  destruct o1 as [n1|], o2 as [n2|]; simpl; unfold is_max; try naive_solver.
  intros [Hp1 Hm1] [Hp2 Hm2]. f_equal. apply N.le_antisymm; auto.
Qed.

Lemma slot_max_le o P n : slot_max o P → P n → (n ≤ default 0 o)%N.
Proof. destruct o; simpl; unfold is_max; naive_solver. Qed.

Lemma version_slot l c a : version l !! c ≫= (.!! a) = default ∅ (version l !! c) !! a.
Proof. by destruct (version l !! c). Qed.

Lemma next_sequence_fresh l c a s :
  log_inv l → next_sequence l c a = Ok s →
  (s ≤ u64_max)%N ∧ (0 < s)%N ∧
  ∀ i e, events l !! i = Some e → conversation_id e = c → author e = a → (seq e < s)%N.
Proof.
  intros Hinv. unfold next_sequence. rewrite ok_or_Ok, checked_add_Some, version_slot.
  intros [-> Hle]. split; [done|]. split; [lia|]. intros i e He Hc Ha.
  eapply N.le_lt_trans; [apply (slot_max_le _ _ (seq e) (inv_version _ Hinv c a))|lia].
  exists i, e. auto.
Qed.

Lemma prepare_fresh l c ps lam :
  log_inv l → prepare l c = Ok (ps, lam) →
  ps = heads l c ∧ (lam ≤ u64_max)%N ∧
  ∀ i e, events l !! i = Some e → conversation_id e = c → (lamport e < lam)%N.
Proof.
  intros Hinv. unfold prepare. destruct (checked_add _ _ _) as [n|] eqn:Hn; [|done].
  cbn. intros [= <- <-]. apply checked_add_Some in Hn as [-> Hle].
  split; [done|]. split; [done|]. intros i e He Hc.
  eapply N.le_lt_trans; [apply (slot_max_le _ _ (lamport e) (inv_lamport _ Hinv c))|lia].
  exists i, e. auto.
Qed.

Lemma events_of_unique l c (es : list Event) :
  log_inv l → StronglySorted clt (order_key <$> es) →
  (∀ e, e ∈ es ↔ events l !! id e = Some e ∧ conversation_id e = c) →
  es = events_of l c.
Proof.
  intros Hinv Hs Hes.
  assert (∀ es' : list Event, (∀ e, e ∈ es' → events l !! id e = Some e) →
    omap (λ k : OrderKey, events l !! k.2) (order_key <$> es') = es') as Hback.
  { intros es'. induction es' as [|e es' IH]; intros Hall; [done|].
    rewrite fmap_cons. cbn [omap list_omap order_key fst snd].
    rewrite Hall by set_solver. f_equal. apply IH. set_solver. }
  rewrite <-(Hback es), <-(Hback (events_of l c)).
  - f_equal. apply clt_sorted_unique; [done|by apply events_of_sorted|].
    intros k. rewrite !list_elem_of_fmap. setoid_rewrite Hes.
    by setoid_rewrite elem_of_events_of.
  - by intros e [? _]%elem_of_events_of.
  - by intros e [? _]%Hes.
Qed.

Lemma append_appended l e :
  event_valid e → events l !! id e = None → parents_known l e →
  author_seq l !! (conversation_id e, author e, seq e) = None →
  append l e = (index_trusted l e, Ok Appended).
Proof.
  intros Hv Hnew Hpar Hslot. unfold append.
  pose proof (validate_cases l e) as Hc. unfold event_valid in *.
  destruct (validate l e) as [[]|[]] eqn:E; try done; try naive_solver congruence.
  - destruct Hc as (_ & [? ?]); congruence.
  - destruct Hc as (_ & _ & -> & Hne). by apply missing_parents_nil in Hpar.
Qed.

Lemma events_of_snoc l e :
  log_inv l → validate l e = Ok true →
  (∀ e', e' ∈ events_of l (conversation_id e) → (lamport e' < lamport e)%N) →
  events_of (index_trusted l e) (conversation_id e) =
  events_of l (conversation_id e) ++ [e].
Proof.
  intros Hinv Hval Hlam. pose proof (index_trusted_inv l e Hinv Hval) as Hinv'.
  destruct (validate_Ok_true _ _ Hval) as (_ & Hnew & _).
  symmetry. apply events_of_unique; [done| |].
  - rewrite fmap_app. apply StronglySorted_app_2; [|by apply events_of_sorted|repeat constructor].
    intros k1 k2 (e1 & -> & He1)%list_elem_of_fmap Hk2.
    apply list_elem_of_singleton in Hk2 as ->. apply Hlam in He1.
    unfold clt, cmp, compare_pair, order_key. simpl.
    unfold cmp, compare_N. apply N.compare_lt_iff in He1. by rewrite He1.
  - intros e'. rewrite elem_of_app, list_elem_of_singleton, elem_of_events_of by done.
    rewrite lookup_index by done. split; [naive_solver|].
    intros [[[Hid ->]|?] Hc]; naive_solver.
Qed.

Lemma heads_after l e :
  kind e ≠ Profile → list_to_set (heads l (conversation_id e)) ⊆@{gset _} list_to_set (parents e) →
  heads (index_trusted l e) (conversation_id e) = [id e].
Proof.
  intros Hk Hsub. unfold heads in *. cbn [index_trusted heads_of]. unfold index_heads.
  rewrite decide_False, lookup_insert_eq by done. cbn [from_option].
  apply clt_sorted_unique; [apply btree_iter_sorted|repeat constructor|].
  intros i. rewrite elem_of_btree_iter. assert (∀ j, j ∈ default ∅ (heads_of l !! conversation_id e) →
    j ∈ parents e) as Hin.
  { intros j Hj. rewrite <-(elem_of_btree_iter j) in Hj. set_solver. }
  set_solver.
Qed.

(** The cyclic listing of an ordered set that starts just after [cursor]. *)
Definition rotation (cursor : option OrderKey) (keys : gset OrderKey) : list OrderKey :=
  match cursor with
  | None => btree_iter keys
  | Some a => filter (λ k, clt a k) (btree_iter keys) ++
              filter (λ k, ¬ clt a k) (btree_iter keys)
  end.

Lemma rotation_perm cursor keys : rotation cursor keys ≡ₚ btree_iter keys.
Proof.
  unfold rotation. destruct cursor as [a|]; [|done].
  rewrite Permutation_app_comm, clt_sorted_split; [done|apply btree_iter_sorted].
Qed.

Lemma message_keys_after_rotation l c a cursor limit :
  message_keys_after l c a cursor limit =
  take limit (rotation cursor (default ∅ (messages_by_author l !! (c, a)))).
Proof.
  unfold message_keys_after. destruct (messages_by_author l !! (c, a)) as [keys|]; cbn [from_option Datatypes.id].
  2:{ unfold rotation, btree_iter. rewrite elements_empty. by destruct cursor, limit. }
  unfold rotation. set (ks := btree_iter keys).
  assert (StronglySorted clt ks) as Hs by apply btree_iter_sorted.
  clearbody ks. destruct cursor as [k|].
  2:{ destruct (Nat.min_spec limit (length ks)) as [[? ->]|[? ->]]; [done|].
      by rewrite !take_ge. }
  pose proof (clt_sorted_split k ks Hs) as Hsplit.
  set (suf := filter (λ x, clt k x) ks) in *. set (pre := filter (λ x, ¬ clt k x) ks) in *.
  assert (length ks = length pre + length suf) as Hlen by by rewrite <-Hsplit, length_app.
  rewrite take_app, length_take. case_decide as Hlt.
  - rewrite (take_ge suf), (take_ge suf) by lia. f_equal. rewrite <-Hsplit, take_app, !length_app.
    replace (_ - length pre) with 0 by lia. rewrite take_0, app_nil_r.
    destruct (decide (limit - length suf ≤ length pre)) as [Hle|Hle].
    + f_equal. lia.
    + rewrite !take_ge by lia. done.
  - destruct (decide (limit ≤ length suf)) as [Hle|Hle].
    + replace (limit - length suf) with 0 by lia. rewrite take_0, app_nil_r. f_equal. lia.
    + assert (length pre = 0) as Hp by lia. apply length_zero_iff_nil in Hp.
      rewrite Hp, take_nil, app_nil_r, !take_ge by lia. done.
Qed.
End invariant.

#[export] Hint Resolve empty_log_inv index_trusted_inv append_inv append_all_inv : mesh.

(** ** Properties *)

Section properties.
Context `{Crypto, Bincode EventContent}.
Implicit Types (l : EventLog) (e : Event).

(** C22: Whatever events peers send and in whatever order, the log satisfies its
    invariant: every stored event is valid and stored under its own id, parents
    are present in the same conversation, the graph is acyclic, and every index
    (conversation order, message index, heads, version vector, Lamport maximum,
    author slots, protocol flags) is exactly what the stored events say. *)
Theorem log_reachable_inv (es : list Event) : log_inv (append_all empty_log es).
Proof. apply append_all_inv, empty_log_inv. Qed.

(** C28: When an append takes effect.  An event is stored exactly when it is valid,
    new, causally complete and no other event occupies its author slot; it is a
    duplicate exactly when it is valid and already present; and unless it was
    stored the log does not change. *)
Theorem append_outcome l e :
  log_inv l →
  ((append l e).2 = Ok Appended ↔
     event_valid e ∧ events l !! id e = None ∧ parents_known l e ∧
     ¬ some_event l (λ _ e', same_slot e e')) ∧
  ((append l e).2 = Ok Duplicate ↔ event_valid e ∧ is_Some (events l !! id e)) ∧
  ((append l e).2 = Ok Appended → events (append l e).1 = <[id e := e]> (events l)) ∧
  ((append l e).2 ≠ Ok Appended → (append l e).1 = l).
Proof.
  intros Hinv. unfold append. pose proof (validate_cases l e) as Hc.
  destruct (validate l e) as [[]|err] eqn:Hval; cbn [fst snd].
  - destruct Hc as (Hv & Hnew & Hp & Hs).
    assert (author_seq l !! (conversation_id e, author e, seq e) = None) as Hfree.
    { destruct Hs as [|Hs]; [done|]. apply (inv_author_seq _ Hinv) in Hs. naive_solver. }
    rewrite author_seq_free in Hfree by done. split_and!; try done.
    split; [done|]. intros [_ [? ?]]. congruence.
  - destruct Hc as (Hv & [e' He']). split_and!; try done. split; [done|].
    intros (_ & ? & _). congruence.
  - split_and!; try done; (split; [done|]).
    + intros (Hv & Hnew & Hp & Hs). apply author_seq_free in Hs; [|done..].
      pose proof (append_appended l e Hv Hnew Hp Hs) as Ha. unfold append in Ha.
      by rewrite Hval in Ha.
    + intros (Hv & [e' He']). unfold event_valid in *. destruct err; destruct_and?; try done; congruence.
Qed.

(** Why an append is refused: the error names the first check that failed, in
    the order canonical form, hash, signature, ancestry, author slot; missing
    parents are listed exactly; every refusal is a peer rejection, so one bad
    event never aborts a batch. *)
Lemma append_refusal l e err :
  log_inv l → (append l e).2 = Err err →
  is_peer_rejection err = true ∧
  match err with
  | NonCanonical => is_canonical e = false
  | CorruptId => is_canonical e = true ∧ verify_integrity e = false
  | BadSignature =>
      is_canonical e = true ∧ verify_integrity e = true ∧ verify_signature e = false
  | MissingParents ps => event_valid e ∧ ps ≠ [] ∧ ∀ p, p ∈ ps ↔ p ∈ parents e ∧
      ¬ ∃ e', events l !! p = Some e' ∧ conversation_id e' = conversation_id e
  | AuthorEquivocation a s => event_valid e ∧ parents_known l e ∧
      a = author e ∧ s = seq e ∧
      some_event l (λ i e', i ≠ id e ∧ same_slot e e')
  | _ => False
  end.
Proof.
  intros Hinv. unfold append. pose proof (validate_cases l e) as Hc.
  destruct (validate l e) as [[]|err'] eqn:Hval; cbn [snd]; [done..|].
  intros [= ->]. destruct err; cbn [is_peer_rejection]; try done; split; try done.
  - destruct Hc as (? & _ & -> & ?). split; [done|]. split; [done|].
    intros p. apply elem_of_missing_parents.
  - destruct Hc as (? & _ & ? & -> & -> & i & Hne & Hs). split_and!; try done.
    apply (inv_author_seq _ Hinv) in Hs as (e' & He' & ? & ? & ?).
    exists i, e'. split; [done|]. unfold same_slot. done.
Qed.


(** [events] lists exactly the stored events of the conversation, each once,
    strictly increasing in [(lamport, id)]. *)
Lemma events_of_exact l c :
  log_inv l →
  StronglySorted clt ((λ e, (lamport e, id e)) <$> events_of l c) ∧
  NoDup (id <$> events_of l c) ∧
  ∀ e, e ∈ events_of l c ↔ events l !! id e = Some e ∧ conversation_id e = c.
Proof.
  intros Hinv. split; [by apply events_of_sorted|].
  split; [by apply events_of_NoDup|]. intros e. by apply elem_of_events_of.
Qed.


(** C29: [heads] lists, sorted, the non-profile events of the conversation that no
    non-profile event refers to. *)
Theorem heads_frontier l c :
  log_inv l →
  StronglySorted clt (heads l c) ∧
  ∀ i, i ∈ heads l c ↔
    (∃ e, events l !! i = Some e ∧ conversation_id e = c ∧ kind e ≠ Profile) ∧
    ∀ j e, events l !! j = Some e → kind e ≠ Profile → i ∉ parents e.
Proof.
  intros Hinv. split; [apply btree_iter_sorted|]. intros i.
  rewrite elem_of_heads by done. unfold is_head, some_event. naive_solver.
Qed.

(** Paging through an author's messages: a page is a prefix of the cyclic
    listing that starts just after the cursor, so no page repeats a message and
    a page as long as the listing shows every message of the author once. *)
Lemma message_keys_after_cycle l c a cursor limit :
  log_inv l →
  let page := message_keys_after l c a cursor limit in
  let keys := default ∅ (messages_by_author l !! (c, a)) in
  page = take limit (rotation cursor keys) ∧ NoDup page ∧
  length page = Nat.min limit (size keys) ∧
  (size keys ≤ limit → ∀ k, k ∈ page ↔ ∃ e, events l !! k.2 = Some e ∧
     conversation_id e = c ∧ author e = a ∧ kind e = Message ∧ lamport e = k.1).
Proof.
  intros Hinv page keys. unfold page. rewrite message_keys_after_rotation. fold keys.
  assert (length (rotation cursor keys) = size keys) as Hlen
    by by rewrite rotation_perm, length_btree_iter.
  split; [done|]. split.
  { eapply sublist_NoDup; [|apply sublist_take]. rewrite rotation_perm.
    apply btree_iter_NoDup. }
  split; [rewrite length_take; lia|]. intros Hle k.
  rewrite take_ge by lia. rewrite rotation_perm, elem_of_btree_iter.
  apply (inv_messages _ Hinv).
Qed.
End properties.

Section authoring.
Context `{Crypto, Bincode EventContent, !CryptoLaws, !BincodeLaws EventContent}.

(** Authoring on the local log works: an event made from [next_sequence] and
    [prepare] (with an id not yet in use) is accepted, is listed last in its
    conversation, and unless it is a profile event becomes the single head. *)
Lemma author_local l d c k wall ct s ps lam :
  log_inv l → type_wf d →
  next_sequence l c (ed25519_pub (public d)) = Ok s → prepare l c = Ok (ps, lam) →
  let e := event_new d c s ps lam wall k ct in
  events l !! id e = None →
  (append l e).2 = Ok Appended ∧
  events_of (append l e).1 c = events_of l c ++ [e] ∧
  (k ≠ Profile → heads (append l e).1 c = [id e]).
Proof.
  intros Hinv Hd Hs Hp e Hnew.
  destruct (next_sequence_fresh _ _ _ _ Hinv Hs) as (_ & _ & Hseq).
  destruct (prepare_fresh _ _ _ _ Hinv Hp) as (-> & _ & Hlam).
  assert (event_valid e) as Hv by by apply event_new_valid_aux.
  assert (parents_known l e) as Hk.
  { intros p Hpp. unfold e, event_new in Hpp. cbn [parents] in Hpp.
    rewrite elem_of_canonical in Hpp. apply elem_of_heads in Hpp; [|done].
    destruct Hpp as [(e' & ? & ? & _) _]. eauto. }
  assert (author_seq l !! (conversation_id e, author e, seq e) = None) as Hfree.
  { apply author_seq_free; [done..|]. intros (i & e' & He' & Hc & Ha & Hq).
    specialize (Hseq _ _ He' Hc Ha). rewrite Hq in Hseq. cbn in Hseq. lia. }
  assert (validate l e = Ok true) as Hval.
  { pose proof (append_appended l e Hv Hnew Hk Hfree) as Ha. unfold append in Ha.
    by destruct (validate l e) as [[]|]. }
  rewrite (append_appended l e) by done. cbn [fst snd]. split; [done|]. split.
  - apply (events_of_snoc l e); [done..|].
    intros e' [He' Hc]%elem_of_events_of; [|done]. by eapply Hlam.
  - intros Hne. apply (heads_after l e); [done|]. intros i.
    rewrite !elem_of_list_to_set. unfold e, event_new. cbn [parents].
    by rewrite elem_of_canonical.
Qed.
End authoring.

(** Two devices of one conversation: a root, two concurrent replies. *)
Module StoreWitness.
Import ToyCrypto EventCodec EventWitness.

Definition bob : DeviceIdentity :=
  from_secret_bytes (repeat Byte.x03 32) (repeat Byte.x04 32).

Definition root : Event := event_new alice room 1 [] 1 10 Message (str "root").
Definition left_reply : Event :=
  event_new alice room 2 [id root] 2 20 Message (str "left").
Definition right_reply : Event :=
  event_new bob room 1 [id root] 2 21 React (str "right").

Definition log_a : EventLog := append_all empty_log [root; left_reply; right_reply].
Definition log_b : EventLog := append_all empty_log [root; right_reply; left_reply; root].

Lemma log_a_inv : log_inv log_a.
Proof. apply append_all_inv, empty_log_inv. Qed.
Lemma log_b_inv : log_inv log_b.
Proof. apply append_all_inv, empty_log_inv. Qed.

Lemma outcome_witness : (append empty_log root).2 = Ok Appended ∧
  events (append empty_log root).1 = {[id root := root]}.
Proof.
  assert ((append empty_log root).2 = Ok Appended) as Ha by (vm_compute; reflexivity).
  split; [exact Ha|].
  destruct (append_outcome empty_log root empty_log_inv) as (_ & _ & Hev & _).
  exact (Hev Ha).
Defined.



Lemma heads_frontier_witness :
  length (heads log_a room) = 2 ∧ StronglySorted clt (heads log_a room).
Proof.
  split; [vm_compute; reflexivity|].
  destruct (heads_frontier log_a room log_a_inv) as [Hs _]. exact Hs.
Defined.

End StoreWitness.
