(* ===== verification/EventOrder.v ===== *)
(** * Deterministic traversal of the event graph

    Models crates/mesh-talk-core/src/eventlog/order.rs: Kahn's algorithm with an
    ordered ready set.  The specification [greedy] takes, again and again, the
    least [(clock, id)] among the nodes all of whose present parents were taken;
    [ordered_ids] refines it, and the properties of the order follow from the
    specification alone. *)

From S2P Require Import Prelude Event EventStore.

(** ** The code *)

Section code.
Implicit Types (evs : list Event) (clocks : gmap EventId N).
Implicit Types (degrees : gmap EventId nat) (children : gmap EventId (list EventId)).

Definition clock_of (logical : bool) (e : Event) : N :=
  if logical then lamport e else wall_clock e.

Definition clock_map evs (archive : list (EventId * N)) (logical : bool) :
    gmap EventId N :=
  foldl (λ m e, <[id e := clock_of logical e]> m)
    (foldl (λ m a, <[a.1 := a.2]> m) ∅ archive) evs.

(** One edge of [event]: counted only if the parent is present. *)
Definition add_edge clocks (i : EventId) (st : gmap EventId nat * gmap EventId (list EventId))
    (parent : EventId) :=
  if decide (is_Some (clocks !! parent))
  then (alter S i st.1, <[parent := default [] (st.2 !! parent) ++ [i]]> st.2)
  else st.

Definition build_graph clocks evs :
    gmap EventId nat * gmap EventId (list EventId) :=
  foldl (λ st e, foldl (add_edge clocks (id e)) st (parents e))
    ((λ _, 0) <$> clocks, ∅) evs.

Definition key_of clocks (i : EventId) : OrderKey := (default 0%N (clocks !! i), i).

(** The inner loop: one finished parent, its children's degrees drop. *)
Fixpoint relax clocks (next : list EventId) degrees (ready : gset OrderKey) :
    gmap EventId nat * gset OrderKey :=
  match next with
  | [] => (degrees, ready)
  | child :: next =>
      let degree := pred (default 0 (degrees !! child)) in
      relax clocks next (<[child := degree]> degrees)
        (if decide (degree = 0) then ready ∪ {[key_of clocks child]} else ready)
  end.

Fixpoint drain clocks children (fuel : nat) degrees (ready : gset OrderKey) :
    list EventId :=
  match fuel with
  | O => []
  | S fuel =>
      match pop_first ready with
      | None => []
      | Some ((_, i), ready) =>
          let '(degrees, ready) :=
            relax clocks (default [] (children !! i)) degrees ready in
          i :: drain clocks children fuel degrees ready
      end
  end.

Definition initial_ready clocks degrees : gset OrderKey :=
  set_map (key_of clocks) (dom (filter (λ kv, kv.2 = 0) degrees)).

Definition ordered_ids evs (archive : list (EventId * N)) (logical : bool) :
    list EventId :=
  let clocks := clock_map evs archive logical in
  let '(degrees, children) := build_graph clocks evs in
  drain clocks children (size clocks) degrees (initial_ready clocks degrees).
End code.

(** ** The specification *)

Section spec.
(** Nodes, their parents, and their clocks. *)
Context (V : gset EventId) (par : EventId → gset EventId) (clk : EventId → N).

Definition available (taken : gset EventId) (v : EventId) : Prop :=
  v ∈ V ∧ ¬ v ∈ taken ∧ (par v ∩ V) ⊆ taken.

Inductive greedy (taken : gset EventId) : list EventId → Prop :=
  | greedy_stop : (∀ v, ¬ available taken v) → greedy taken []
  | greedy_take v out :
      available taken v →
      (∀ u, available taken u → cle (clk v, v) (clk u, u)) →
      greedy (taken ∪ {[v]}) out →
      greedy taken (v :: out).

Lemma greedy_unique taken out1 out2 :
  greedy taken out1 → greedy taken out2 → out1 = out2.
Proof.
  intros H1. revert out2.
  induction H1 as [taken Hno|taken v out Hv Hmin _ IH]; intros out2 H2.
  - destruct H2 as [|u]; [done|]. exfalso. by eapply Hno.
  - destruct H2 as [Hno|u out' Hu Hmin' Hrest]; [exfalso; by eapply Hno|].
    assert ((clk v, v) = (clk u, u)) as [= _ <-]
      by (apply (anti_symm cle); auto).
    f_equal. by apply IH.
Qed.

Lemma greedy_fresh taken out v : greedy taken out → v ∈ out → v ∈ V ∧ v ∉ taken.
Proof.
  induction 1 as [|taken u out (Hu & Hnt & _) _ _ IH]; [set_solver|].
  intros [->|Hv]%elem_of_cons; [done|]. set_solver.
Qed.

Lemma greedy_NoDup taken out : greedy taken out → NoDup out.
Proof.
  induction 1 as [|taken u out (Hu & Hnt & _) _ Hg IH]; constructor; [|done].
  intros Hin. eapply greedy_fresh in Hin; [|done]. set_solver.
Qed.

(** Every present parent comes before its child. *)
Lemma greedy_topological taken out v p l1 l2 :
  greedy taken out → out = l1 ++ v :: l2 → p ∈ par v ∩ V → p ∈ taken ∨ p ∈ l1.
Proof.
  intros Hg. revert l1. induction Hg as [taken|taken u out (Hu & _ & Hpar) _ _ IH];
    intros l1 Heq Hp; [by destruct l1|].
  destruct l1 as [|w l1]; simplify_eq/=; [set_solver|].
  destruct (IH l1 eq_refl Hp); set_solver.
Qed.

(** If the parent relation is well-founded nothing is left out. *)
Lemma greedy_complete (rank : EventId → nat) taken out v :
  (∀ v p, v ∈ V → p ∈ par v → p ∈ V → rank p < rank v) →
  greedy taken out → v ∈ V → v ∉ taken → v ∈ out.
Proof.
  intros Hrank Hg. revert v.
  induction Hg as [taken Hno|taken u out (Hu & Hnt & Hpar) _ _ IH]; intros v Hv Hnv.
  - exfalso. revert Hv Hnv.
    induction (Nat.lt_wf_0_projected rank v) as [v _ IHv]. intros Hv Hnv.
    apply (Hno v). split; [done|split; [done|]]. intros p Hp.
    destruct (decide (p ∈ taken)) as [|Hnp]; [done|]. exfalso.
    apply (IHv p); [apply Hrank; set_solver|set_solver|done].
  - destruct (decide (v = u)) as [->|Hne]; [set_solver|].
    apply elem_of_cons. right. apply IH; set_solver.
Qed.
End spec.

Lemma greedy_par_ext V par par' clk taken out :
  (∀ v, par v = par' v) → greedy V par clk taken out → greedy V par' clk taken out.
Proof.
  intros Hext.
  assert (∀ t v, available V par t v ↔ available V par' t v) as Hav.
  { intros t v. unfold available. by rewrite Hext. }
  induction 1 as [taken Hno|taken v out Hv Hmin _ IH].
  - apply greedy_stop. intros v. by rewrite <-Hav.
  - apply greedy_take; [by apply Hav| |done]. intros u Hu. by apply Hmin, Hav.
Qed.

(** ** Refinement *)

(** The parents recorded for node [v]. *)
Definition par_list (evs : list Event) (v : EventId) : list EventId :=
  evs ≫= λ e, if decide (id e = v) then parents e else [].
Definition par_of (evs : list Event) (v : EventId) : gset EventId :=
  list_to_set (par_list evs v).

(** The children of [p], once per edge. *)
Definition kids (evs : list Event) (p : EventId) : list EventId :=
  evs ≫= λ e, parents e ≫= λ q, if decide (q = p) then [id e] else [].

Section build.
Context (clocks : gmap EventId N).

Local Abbreviation present := (λ p, is_Some (clocks !! p)).

Lemma foldl_add_edge i ps deg ch :
  let st := foldl (add_edge clocks i) (deg, ch) ps in
  (∀ v, st.1 !! v =
     (λ n, if decide (v = i) then length (filter present ps) + n else n) <$> deg !! v) ∧
  (∀ p, default [] (st.2 !! p) = default [] (ch !! p) ++
     (if decide (present p) then ps ≫= λ q, if decide (q = p) then [i] else [] else [])).
Proof.
  revert deg ch. induction ps as [|q ps IH]; intros deg ch.
  - simpl. split.
    + intros v. destruct (deg !! v); simpl; [|done]. by case_decide.
    + intros p. case_decide; by rewrite app_nil_r.
  - cbn [foldl]. unfold add_edge at 2 4. rewrite filter_cons. case_decide as Hq; cbn [fst snd].
    + specialize (IH (alter S i deg) (<[q:=default [] (ch !! q) ++ [i]]> ch))
        as [IH1 IH2]. split.
      * intros v. rewrite IH1. destruct (decide (v = i)) as [->|Hne].
        -- rewrite lookup_alter_eq. destruct (deg !! i); simpl; [|done]. f_equal. lia.
        -- by rewrite lookup_alter_ne.
      * intros p. rewrite IH2. cbn [mbind list_bind].
        destruct (decide (q = p)) as [->|Hne].
        -- rewrite lookup_insert_eq. simpl. rewrite !decide_True by done.
           by rewrite <-app_assoc.
        -- by rewrite lookup_insert_ne.
    + specialize (IH deg ch) as [IH1 IH2]. split; [done|]. intros p. rewrite IH2.
      cbn [mbind list_bind]. case_decide as Hp; [|done].
      rewrite (decide_False (P:=q = p)) by congruence. done.
Qed.

Lemma foldl_edges evs deg ch :
  let st := foldl (λ st e, foldl (add_edge clocks (id e)) st (parents e)) (deg, ch) evs in
  (∀ v, st.1 !! v = (λ n, length (filter present (par_list evs v)) + n) <$> deg !! v) ∧
  (∀ p, default [] (st.2 !! p) = default [] (ch !! p) ++
     (if decide (present p) then kids evs p else [])).
Proof.
  revert deg ch. induction evs as [|e evs IH]; intros deg ch.
  - simpl. split; [intros v; by destruct (deg !! v)|].
    intros p. case_decide; by rewrite app_nil_r.
  - cbn [foldl]. destruct (foldl_add_edge (id e) (parents e) deg ch) as [E1 E2].
    destruct (foldl (add_edge clocks (id e)) (deg, ch) (parents e)) as [deg' ch'].
    cbn [fst snd] in E1, E2. specialize (IH deg' ch') as [IH1 IH2]. split.
    + intros v. rewrite IH1, E1. unfold par_list. cbn [mbind list_bind].
      rewrite filter_app, length_app.
      destruct (deg !! v) as [n|]; simpl; [|done]. f_equal.
      destruct (decide (v = id e)), (decide (id e = v)); try congruence; simpl; lia.
    + intros p. rewrite IH2, E2. unfold kids. cbn [mbind list_bind].
      rewrite <-app_assoc. by case_decide.
Qed.
End build.

Section refine.
Context (evs : list Event) (clocks : gmap EventId N).
Context (Hids : NoDup (id <$> evs)).
Context (Hpar : Forall (λ e, NoDup (parents e)) evs).
Context (Hpresent : ∀ e, e ∈ evs → is_Some (clocks !! id e)).

Let V : gset EventId := dom clocks.
Let clk (v : EventId) : N := default 0%N (clocks !! v).

Lemma par_list_NoDup v : NoDup (par_list evs v).
Proof.
  clear Hpresent. unfold par_list. induction evs as [|e es IH]; [constructor|].
  cbn [mbind list_bind]. apply Forall_cons in Hpar as [He Hes].
  rewrite fmap_cons in Hids. apply NoDup_cons in Hids as [Hnin Hnd].
  case_decide as Hv; [|by apply IH].
  assert ((es ≫= λ e0, if decide (id e0 = v) then parents e0 else []) = []) as ->.
  2:{ by rewrite app_nil_r. }
  subst v. clear -Hnin. induction es as [|e' es IH]; [done|]. cbn [mbind list_bind].
  rewrite decide_False by set_solver. apply IH. set_solver.
Qed.

Lemma elem_of_kids p v : v ∈ kids evs p ↔ p ∈ par_list evs v.
Proof.
  unfold kids, par_list. rewrite !list_elem_of_bind. split.
  - intros (e & (q & Hq & Hqe)%list_elem_of_bind & He). exists e.
    destruct (decide (q = p)) as [->|]; [|set_solver].
    apply list_elem_of_singleton in Hq as ->. by rewrite decide_True.
  - intros (e & Hp & He). exists e. split; [|done].
    destruct (decide (id e = v)) as [<-|]; [|set_solver].
    apply list_elem_of_bind. exists p. rewrite decide_True by done. set_solver.
Qed.

Lemma kids_NoDup p : NoDup (kids evs p).
Proof.
  clear Hpresent. unfold kids. induction evs as [|e es IH]; [constructor|].
  cbn [mbind list_bind]. apply Forall_cons in Hpar as [He Hes].
  rewrite fmap_cons in Hids. apply NoDup_cons in Hids as [Hnin Hnd].
  apply NoDup_app. split_and!; [|intros v Hv Hv'|by apply IH].
  - clear -He. induction (parents e) as [|q qs IH]; [constructor|].
    cbn [mbind list_bind]. apply NoDup_cons in He as [Hnin He].
    case_decide as Hq; [|by apply IH]. subst q.
    assert ((qs ≫= λ q, if decide (q = p) then [id e] else []) = []) as ->.
    2:{ rewrite app_nil_r. apply NoDup_singleton. }
    clear -Hnin. induction qs as [|q qs IH]; [done|]. cbn [mbind list_bind].
    rewrite decide_False by set_solver. apply IH. set_solver.
  - apply list_elem_of_bind in Hv as (q & Hq & _). case_decide; [|set_solver].
    apply list_elem_of_singleton in Hq as ->.
    apply Hnin. apply list_elem_of_bind in Hv' as (e' & He' & Hin).
    apply list_elem_of_bind in He' as (q' & Hq' & _). case_decide; [|set_solver].
    apply list_elem_of_singleton in Hq' as ->. by apply list_elem_of_fmap_2.
Qed.

Lemma relax_spec next deg ready :
  NoDup next →
  let st := relax clocks next deg ready in
  (∀ v, st.1 !! v =
     if decide (v ∈ next) then Some (pred (default 0 (deg !! v))) else deg !! v) ∧
  (∀ k, k ∈ st.2 ↔ k ∈ ready ∨
     ∃ v, v ∈ next ∧ pred (default 0 (deg !! v)) = 0 ∧ k = key_of clocks v).
Proof.
  revert deg ready. induction next as [|c next IH]; intros deg ready Hnd.
  - cbn [relax fst snd].
    split; [intros v; rewrite decide_False by set_solver; done|set_solver].
  - apply NoDup_cons in Hnd as [Hnin Hnd]. cbn [relax].
    set (d := pred (default 0 (deg !! c))).
    destruct (IH (<[c:=d]> deg)
      (if decide (d = 0) then ready ∪ {[key_of clocks c]} else ready) Hnd) as [IH1 IH2].
    split.
    + intros v. rewrite IH1. destruct (decide (v = c)) as [->|Hne].
      * rewrite decide_False, decide_True by set_solver. by rewrite lookup_insert_eq.
      * rewrite lookup_insert_ne by done.
        destruct (decide (v ∈ next)); [rewrite decide_True|rewrite decide_False];
          set_solver.
    + intros k. rewrite IH2. setoid_rewrite elem_of_cons.
      assert (k ∈ (if decide (d = 0) then ready ∪ {[key_of clocks c]} else ready) ↔
              k ∈ ready ∨ (d = 0 ∧ k = key_of clocks c)) as ->
        by (case_decide; set_solver).
      assert (∀ v, v ∈ next → <[c:=d]> deg !! v = deg !! v) as Hsame.
      { intros v Hv. apply lookup_insert_ne. by intros ->. }
      split.
      * intros [[?|[??]]|(v & Hv & Hd & ->)]; [by left|right; exists c; naive_solver|].
        rewrite Hsame in Hd by done. right. exists v. naive_solver.
      * intros [?|(v & [->|Hv] & Hd & ->)]; [naive_solver..|].
        right. exists v. rewrite Hsame by done. naive_solver.
Qed.

(** Parents of [v] that are present and not yet taken. *)
Definition pending (taken : gset EventId) (v : EventId) : list EventId :=
  filter (λ p, p ∈ V ∧ ¬ p ∈ taken) (par_list evs v).

Lemma pending_nil taken v : pending taken v = [] ↔ (par_of evs v ∩ V) ⊆ taken.
Proof.
  clear Hids Hpar Hpresent. unfold pending, par_of. split.
  - intros Hnil p [Hp HpV]%elem_of_intersection.
    destruct (decide (p ∈ taken)) as [|Hnt]; [done|]. exfalso.
    assert (p ∈ pending taken v) as Hin.
    { apply list_elem_of_filter. set_solver. }
    unfold pending in Hin. rewrite Hnil in Hin. set_solver.
  - intros Hsub. apply filter_nil_iff. intros p Hp [HpV Hnt].
    apply Hnt, Hsub. set_solver.
Qed.

Lemma pending_take taken i v :
  i ∈ V → i ∉ taken →
  length (pending (taken ∪ {[i]}) v) =
  if decide (v ∈ kids evs i) then pred (length (pending taken v))
  else length (pending taken v).
Proof.
  intros HiV Hnt. pose proof (par_list_NoDup v) as Hnd. unfold pending.
  destruct (decide (v ∈ kids evs i)) as [Hk|Hk]; rewrite elem_of_kids in Hk.
  - apply list_elem_of_split in Hk as (l1 & l2 & Heq). rewrite Heq in Hnd |- *.
    apply NoDup_app in Hnd as (Hnd1 & Hdisj & [Hni Hnd2]%NoDup_cons).
    assert (i ∉ l1) by set_solver.
    rewrite !filter_app, !filter_cons, !length_app.
    rewrite decide_False by set_solver. rewrite decide_True by done. simpl.
    rewrite <-plus_n_Sm. simpl.
    f_equal; f_equal; apply filter_ext_on; set_solver.
  - f_equal. apply filter_ext_on. set_solver.
Qed.

Record loop_inv (taken : gset EventId) (deg : gmap EventId nat)
    (ready : gset OrderKey) : Prop := {
  li_closed v : v ∈ taken → (par_of evs v ∩ V) ⊆ taken;
  li_deg v : v ∈ V → deg !! v = Some (length (pending taken v));
  li_ready k :
    k ∈ ready ↔ ∃ v, k = key_of clocks v ∧ available V (par_of evs) taken v
}.

Lemma loop_inv_step taken deg ready i :
  loop_inv taken deg ready →
  available V (par_of evs) taken i →
  let st := relax clocks (kids evs i) deg (ready ∖ {[key_of clocks i]}) in
  loop_inv (taken ∪ {[i]}) st.1 st.2.
Proof.
  intros [Hcl Hdeg Hready] (HiV & Hnt & Hpi).
  destruct (relax_spec (kids evs i) deg (ready ∖ {[key_of clocks i]}) (kids_NoDup i))
    as [R1 R2].
  assert (∀ v, v ∈ kids evs i → v ∈ V ∧ ¬ v ∈ taken ∧ v ≠ i) as Hkid.
  { intros v Hv. assert (v ∈ V) as HvV.
    { apply list_elem_of_bind in Hv as (e & (q & Hq & _)%list_elem_of_bind & He).
      case_decide; [|set_solver]. apply list_elem_of_singleton in Hq as ->.
      apply elem_of_dom, Hpresent, He. }
    rewrite elem_of_kids in Hv. split_and!; [done| |].
    - intros Htv. apply Hnt, (Hcl v Htv). unfold par_of. set_solver.
    - intros ->. apply Hnt, Hpi. unfold par_of. set_solver. }
  split.
  - intros v [Hv| ->%elem_of_singleton]%elem_of_union; [|set_solver].
    pose proof (Hcl v Hv). set_solver.
  - intros v HvV. rewrite R1, pending_take, (Hdeg v HvV) by done. by case_decide.
  - intros k. rewrite R2, elem_of_difference, elem_of_singleton, Hready. split.
    + intros [[(v & -> & HvV & Hnv & Hpv) Hne]|(v & Hv & Hd & ->)].
      * exists v. split; [done|]. split; [done|]. split; [|set_solver].
        assert (v ≠ i) by congruence. set_solver.
      * destruct (Hkid v Hv) as (HvV & Hnv & Hne). exists v. split; [done|].
        split; [done|]. split; [set_solver|]. apply pending_nil, length_zero_iff_nil.
        rewrite pending_take, decide_True by done. by rewrite (Hdeg v HvV) in Hd.
    + intros (v & -> & HvV & Hnv & Hpv). destruct (decide (v ∈ kids evs i)) as [Hk|Hk].
      * right. exists v. split; [done|]. split; [|done]. rewrite (Hdeg v HvV). simpl.
        apply pending_nil, length_zero_iff_nil in Hpv.
        by rewrite pending_take, decide_True in Hpv.
      * left. assert (v ≠ i) by set_solver. split; [|unfold key_of; congruence].
        exists v. split; [done|]. split; [done|]. split; [set_solver|].
        apply pending_nil, length_zero_iff_nil. apply pending_nil, length_zero_iff_nil in Hpv.
        by rewrite pending_take, decide_False in Hpv.
Qed.

Lemma drain_greedy ch fuel taken deg ready :
  (∀ i, i ∈ V → default [] (ch !! i) = kids evs i) →
  loop_inv taken deg ready → size (V ∖ taken) ≤ fuel →
  greedy V (par_of evs) clk taken (drain clocks ch fuel deg ready).
Proof.
  intros Hch. revert taken deg ready.
  induction fuel as [|fuel IH]; intros taken deg ready Hli Hfuel; cbn [drain].
  - constructor. intros v (HvV & Hnv & _).
    assert (v ∈ V ∖ taken) as Hin by set_solver.
    rewrite (size_empty_inv (V ∖ taken)) in Hin by lia. set_solver.
  - destruct (pop_first ready) as [[[c i] ready']|] eqn:Hpop.
    + apply pop_first_Some in Hpop as (Hin & -> & Hmin).
      pose proof (proj1 (li_ready _ _ _ Hli (c, i)) Hin) as (v & Hkey & Hav).
      assert (v = i) as -> by (unfold key_of in Hkey; congruence).
      destruct Hav as (HiV & Hnt & Hpi). rewrite Hch by done.
      destruct (relax clocks (kids evs i) deg (ready ∖ {[(c, i)]})) as [deg' ready'] eqn:Hr.
      constructor; [done| |].
      * intros u Hu. change (cle (key_of clocks i) (key_of clocks u)).
        rewrite <-Hkey. apply Hmin, (li_ready _ _ _ Hli). eauto.
      * apply IH.
        -- rewrite Hkey in Hr.
           pose proof (loop_inv_step taken deg ready i Hli ltac:(done)) as Hst.
           by rewrite Hr in Hst.
        -- assert (V ∖ (taken ∪ {[i]}) ⊂ V ∖ taken) as Hsub by set_solver.
           apply subset_size in Hsub. lia.
    + apply pop_first_None in Hpop as ->. constructor. intros v Hv.
      assert (key_of clocks v ∈ (∅ : gset OrderKey)); [|set_solver].
      apply (li_ready _ _ _ Hli). eauto.
Qed.
End refine.

(** ** The order of a list of events *)

Lemma foldl_insert_lookup_ne {A} (f : A → EventId) (g : A → N) (m : gmap EventId N) xs v :
  v ∉ f <$> xs → foldl (λ m x, <[f x := g x]> m) m xs !! v = m !! v.
Proof.
  revert m. induction xs as [|y xs IH]; intros m Hnin; [done|]. simpl.
  rewrite IH by set_solver. rewrite lookup_insert_ne; [done|set_solver].
Qed.

Lemma foldl_insert_lookup {A} (f : A → EventId) (g : A → N) (m : gmap EventId N) xs x :
  NoDup (f <$> xs) → x ∈ xs → foldl (λ m x, <[f x := g x]> m) m xs !! f x = Some (g x).
Proof.
  revert m. induction xs as [|y xs IH]; intros m Hnd Hx; [set_solver|].
  rewrite fmap_cons in Hnd. apply NoDup_cons in Hnd as [Hnin Hnd]. simpl.
  apply elem_of_cons in Hx as [->|Hx]; [|by apply IH].
  rewrite foldl_insert_lookup_ne by done. apply lookup_insert_eq.
Qed.

Lemma clock_map_event evs archive logical e :
  NoDup (id <$> evs) → e ∈ evs →
  clock_map evs archive logical !! id e = Some (clock_of logical e).
Proof. intros. by apply (foldl_insert_lookup id (clock_of logical)). Qed.

Lemma clock_map_archive evs archive logical v :
  v ∉ id <$> evs →
  clock_map evs archive logical !! v = clock_map [] archive logical !! v.
Proof. apply (foldl_insert_lookup_ne id (clock_of logical)). Qed.

Lemma clock_map_perm evs evs' archive logical :
  NoDup (id <$> evs) → evs ≡ₚ evs' →
  clock_map evs archive logical = clock_map evs' archive logical.
Proof.
  intros Hnd Hp. assert (NoDup (id <$> evs')) as Hnd' by by rewrite <-Hp.
  apply map_eq. intros v. destruct (decide (v ∈ id <$> evs)) as [Hv|Hv].
  - apply list_elem_of_fmap in Hv as (e & -> & He).
    rewrite (clock_map_event evs), (clock_map_event evs'); [done..| |done|done].
    by rewrite <-Hp.
  - rewrite (clock_map_archive evs), (clock_map_archive evs'); [done| |done].
    by rewrite <-Hp.
Qed.

Definition clock (clocks : gmap EventId N) (v : EventId) : N := default 0%N (clocks !! v).

Definition well_formed_events (evs : list Event) : Prop :=
  NoDup (id <$> evs) ∧ Forall (λ e, NoDup (parents e)) evs.

Lemma build_graph_spec clocks evs :
  let st := build_graph clocks evs in
  (∀ v, v ∈ dom clocks → st.1 !! v = Some (length (pending evs clocks ∅ v))) ∧
  (∀ v, is_Some (st.1 !! v) → v ∈ dom clocks) ∧
  (∀ p, p ∈ dom clocks → default [] (st.2 !! p) = kids evs p).
Proof.
  unfold build_graph. destruct (foldl_edges clocks evs ((λ _, 0) <$> clocks) ∅) as [E1 E2].
  split_and!.
  - intros v Hv. rewrite E1, lookup_fmap. apply elem_of_dom in Hv as [n Hn].
    rewrite Hn. simpl. f_equal. rewrite Nat.add_0_r. unfold pending. f_equal.
    apply filter_ext_on. intros p _. rewrite elem_of_dom. set_solver.
  - intros v. rewrite E1, lookup_fmap, elem_of_dom, !fmap_is_Some. done.
  - intros p Hp. rewrite E2, lookup_empty. simpl. rewrite decide_True; [done|].
    by apply elem_of_dom.
Qed.

Lemma ordered_ids_greedy evs archive logical :
  well_formed_events evs →
  let clocks := clock_map evs archive logical in
  greedy (dom clocks) (par_of evs) (clock clocks) ∅ (ordered_ids evs archive logical).
Proof.
  intros [Hids Hpar] clocks. unfold ordered_ids. fold clocks.
  destruct (build_graph_spec clocks evs) as (B1 & B2 & B3).
  destruct (build_graph clocks evs) as [deg ch]. cbn [fst snd] in *.
  apply (drain_greedy evs clocks); [done|done| |done| |].
  - intros e He. unfold clocks. rewrite clock_map_event; eauto.
  - split; [set_solver|done|]. intros k. unfold initial_ready.
    rewrite elem_of_map. setoid_rewrite elem_of_dom. split.
    + intros (v & -> & [d [Hd Hz]%map_lookup_filter_Some]). simpl in Hz. subst d.
      exists v. split; [done|]. assert (v ∈ dom clocks) as Hv by eauto.
      split; [done|]. split; [set_solver|]. rewrite B1 in Hd by done.
      apply pending_nil, length_zero_iff_nil. congruence.
    + intros (v & -> & Hv & _ & Hp). exists v. split; [done|]. exists 0.
      apply map_lookup_filter_Some. split; [|done]. rewrite B1 by done.
      apply pending_nil in Hp. by rewrite Hp.
  - rewrite difference_empty_L. by rewrite size_dom.
Qed.

Lemma clock_map_dom_event evs archive logical e :
  e ∈ evs → id e ∈ dom (clock_map evs archive logical).
Proof.
  unfold clock_map. generalize (foldl (λ m a, <[a.1 := a.2]> m) ∅ archive : gmap EventId N).
  induction evs as [|e' evs IH]; intros m He; [set_solver|]. simpl.
  apply elem_of_cons in He as [->|He]; [|by apply IH].
  clear IH. assert (id e' ∈ dom (<[id e':=clock_of logical e']> m)) as Hm by set_solver.
  revert Hm. generalize (<[id e':=clock_of logical e']> m).
  induction evs as [|e evs IH]; intros m' Hm'; [done|]. simpl. apply IH. set_solver.
Qed.

Lemma clock_map_dom evs logical :
  dom (clock_map evs [] logical) = list_to_set (id <$> evs).
Proof.
  apply set_eq. intros v. rewrite elem_of_list_to_set. split.
  - intros Hv. destruct (decide (v ∈ id <$> evs)) as [|Hn]; [done|].
    rewrite elem_of_dom, clock_map_archive in Hv by done. by destruct Hv.
  - intros (e & -> & He)%list_elem_of_fmap. by apply clock_map_dom_event.
Qed.

Lemma par_list_event evs e :
  NoDup (id <$> evs) → e ∈ evs → par_list evs (id e) = parents e.
Proof.
  induction evs as [|e' evs IH]; intros Hnd He; [set_solver|].
  rewrite fmap_cons in Hnd. apply NoDup_cons in Hnd as [Hnin Hnd].
  unfold par_list in *. cbn [mbind list_bind].
  apply elem_of_cons in He as [->|He].
  - rewrite decide_True by done. clear IH Hnd.
    assert ((evs ≫= λ e, if decide (id e = id e') then parents e else []) = []) as ->.
    2:{ by rewrite app_nil_r. }
    induction evs as [|e'' evs IH]; [done|]. cbn [mbind list_bind].
    rewrite decide_False by set_solver. apply IH. set_solver.
  - rewrite decide_False; [by apply IH|]. intros Heq. apply Hnin. rewrite Heq.
    by apply list_elem_of_fmap_2.
Qed.

Lemma par_of_elem evs v p : p ∈ par_of evs v ↔ ∃ e, e ∈ evs ∧ id e = v ∧ p ∈ parents e.
Proof.
  unfold par_of, par_list. rewrite elem_of_list_to_set, list_elem_of_bind. split.
  - intros (e & Hp & He). case_decide; [|set_solver]. eauto.
  - intros (e & He & <- & Hp). exists e. by rewrite decide_True.
Qed.

(** ** Properties *)

(** Parent edges that stay inside the nodes never form a cycle. *)
Definition acyclic (evs : list Event) (clocks : gmap EventId N) : Prop :=
  ∃ rank : EventId → nat, ∀ e p,
    e ∈ evs → p ∈ parents e → p ∈ dom clocks → rank p < rank (id e).

(** C24: The traversal computes exactly the greedy specification: for events with
    distinct ids and repetition-free parent lists, a list is the output of
    [ordered_ids] if and only if it takes, at every step, the least
    [(clock, id)] among the nodes whose present parents were all taken, until no
    node is available. *)
Theorem ordered_ids_refines_greedy evs archive logical out :
  well_formed_events evs →
  let clocks := clock_map evs archive logical in
  out = ordered_ids evs archive logical ↔
  greedy (dom clocks) (par_of evs) (clock clocks) ∅ out.
Proof.
  intros Hwf clocks. split.
  - intros ->. by apply ordered_ids_greedy.
  - intros Hg. by eapply greedy_unique, ordered_ids_greedy.
Qed.

(** C25: On an acyclic event graph the traversal loses nothing and invents
    nothing: it lists every node (events and archive rows) exactly once, and
    every present parent stands before its child. *)
Theorem ordered_ids_topological evs archive logical :
  well_formed_events evs → acyclic evs (clock_map evs archive logical) →
  let out := ordered_ids evs archive logical in
  NoDup out ∧
  (∀ v, v ∈ out ↔ v ∈ dom (clock_map evs archive logical)) ∧
  (∀ e p l1 l2, e ∈ evs → out = l1 ++ id e :: l2 → p ∈ parents e →
     p ∈ dom (clock_map evs archive logical) → p ∈ l1).
Proof.
  intros Hwf [rank Hrank] out.
  pose proof (ordered_ids_greedy evs archive logical Hwf) as Hg. fold out in Hg.
  split_and!.
  - by eapply greedy_NoDup.
  - intros v. split; [intros Hv; by eapply greedy_fresh in Hv as [? _]|].
    intros Hv. eapply (greedy_complete _ _ _ rank); [|done|done|set_solver].
    intros u p Hu (e & He & <- & Hp)%par_of_elem HpV. eauto.
  - intros e p l1 l2 He Hout Hp HpV.
    assert (p ∈ par_of evs (id e) ∩ dom (clock_map evs archive logical)) as Hin.
    { apply elem_of_intersection. split; [|done]. apply par_of_elem. eauto. }
    by destruct (greedy_topological _ _ _ _ _ _ _ _ _ Hg Hout Hin) as [?%not_elem_of_empty|].
Qed.

(** The order is a function of the set of events: two devices that enumerate
    the same events in different orders render the same sequence. *)
Lemma ordered_ids_deterministic evs evs' archive logical :
  well_formed_events evs → evs ≡ₚ evs' →
  ordered_ids evs archive logical = ordered_ids evs' archive logical.
Proof.
  intros [Hids Hpar] Hp.
  assert (well_formed_events evs') as Hwf' by (split; by rewrite <-Hp).
  eapply greedy_unique; [by apply ordered_ids_greedy|].
  rewrite (clock_map_perm evs evs') by done.
  eapply greedy_par_ext; [|by apply ordered_ids_greedy].
  intros v. apply set_eq. intros p. rewrite !par_of_elem. by setoid_rewrite Hp.
Qed.

(** A diamond: a root, two concurrent replies whose Lamport claims disagree with
    their ancestry, and their merge. *)
Module OrderWitness.
Definition ev (i : byte) (ps : list byte) (lam : N) : Event := {|
  id := [i]; conversation_id := [Byte.x0a]; author := [Byte.x0b]; seq := 0;
  parents := (λ p, [p]) <$> ps; lamport := lam; wall_clock := 0;
  kind := Message; ciphertext := []; sig := [] |}.
Definition diamond : list Event :=
  [ev Byte.x04 [Byte.x02; Byte.x03] 1; ev Byte.x03 [Byte.x01] 2;
   ev Byte.x02 [Byte.x01] 2; ev Byte.x01 [] 9]%N.
Definition archive : list (EventId * N) := [([Byte.x05], 7%N)].

Lemma diamond_wf : well_formed_events diamond.
Proof.
  split; [by_evaluation|].
  repeat constructor; by_evaluation.
Qed.

Lemma diamond_acyclic : acyclic diamond (clock_map diamond archive true).
Proof.
  exists (λ v, N.to_nat (le_value v)). intros e p He Hp _.
  apply elem_of_cons in He as [->|He]; [|apply elem_of_cons in He as [->|He];
    [|apply elem_of_cons in He as [->|He]; [|apply list_elem_of_singleton in He as ->]]];
  repeat (apply elem_of_cons in Hp as [->|Hp]; [vm_compute; lia|]);
  by apply elem_of_nil in Hp.
Qed.

Lemma refines_witness :
  [[Byte.x05]; [Byte.x01]; [Byte.x02]; [Byte.x03]; [Byte.x04]] =
    ordered_ids diamond archive true ∧
  greedy (dom (clock_map diamond archive true)) (par_of diamond)
    (clock (clock_map diamond archive true)) ∅
    [[Byte.x05]; [Byte.x01]; [Byte.x02]; [Byte.x03]; [Byte.x04]].
Proof.
  assert ([[Byte.x05]; [Byte.x01]; [Byte.x02]; [Byte.x03]; [Byte.x04]] =
    ordered_ids diamond archive true) as Hout by (vm_compute; reflexivity).
  split; [exact Hout|].
  apply (ordered_ids_refines_greedy diamond archive true _ diamond_wf), Hout.
Defined.

Lemma topological_witness :
  NoDup (ordered_ids diamond archive true) ∧
  length (ordered_ids diamond archive true) = 5.
Proof.
  split; [|vm_compute; reflexivity].
  apply (ordered_ids_topological diamond archive true diamond_wf diamond_acyclic).
Defined.

End OrderWitness.
