(* ===== verification/EventSync.v ===== *)
(** * Reconciliation of event logs

    Models crates/mesh-talk-core/src/eventlog/sync.rs and the received-batch gate
    and page budgets of eventlog/sync/network.rs.  [SyncStore] is the trait the
    exchange is generic over; [SyncStoreLaws] is what a store promises to the
    exchange, and [EventLog] keeps that promise.  Sizes are [usize] values in [N];
    frame counts and report counters are [nat]. *)

From S2P Require Import Prelude Crypto Bincode Identity Event EventStore EventOrder.

Definition SYNC_MARGIN : N := 256.
Definition MAX_REJECTED_DETAIL : nat := 64.

Record SyncRequest := MkSyncRequest {
  req_conversation : ConversationId;
  req_have : list EventId
}.

Record SyncResponse := MkSyncResponse {
  resp_conversation : ConversationId;
  resp_events : list Event;
  resp_have : list EventId
}.

Record SyncFollowup := MkSyncFollowup {
  fu_conversation : ConversationId;
  fu_events : list Event
}.

Record ApplyReport := MkReport {
  applied : nat;
  duplicates : nat;
  rejected : list (EventId * bytes)
}.

Definition report_default : ApplyReport := MkReport 0 0 [].

(** ** Greedy frames *)

Section frames.
Context {T : Type} (size : T → N).

(** The closure of [take_while], its captured variables as arguments. *)
Fixpoint frame_prefix_loop (budget : N) (max_frames : nat) (used : N) (frames : nat)
    (frame_has_event : bool) (events : list T) : list T :=
  match events with
  | [] => []
  | event :: rest =>
      if decide (max_frames = 0) then [] else
      let bytes := size event in
      if frame_has_event && bool_decide (budget < saturating_add usize_max used bytes)%N
      then
        let frames := S frames in
        if decide (frames = max_frames) then []
        else event :: frame_prefix_loop budget max_frames
                        (saturating_add usize_max 0 bytes) frames true rest
      else event :: frame_prefix_loop budget max_frames
                      (saturating_add usize_max used bytes) frames true rest
  end.

Definition frame_prefix (events : list T) (budget : N) (max_frames : nat) : list T :=
  frame_prefix_loop budget max_frames 0 0 false events.
End frames.

Section sync.
Context `{Crypto, Bincode EventContent, Bincode Event}.

(** The length of the fixed-width encoding of the event. *)
Definition encoded_event_size (e : Event) : N := N.of_nat (length (ser e)).

Definition cap_event_frames (events : list Event) (budget : N) (max_frames : nat) :
    list Event := frame_prefix encoded_event_size events budget max_frames.

Definition bounded_events (events : list Event) (event_budget : N) (max_frames : nat) :
    list Event := frame_prefix encoded_event_size events event_budget max_frames.

Definition fingerprint (ids : list EventId) : bytes :=
  let ids := sort ids in
  sha256 (le_bytes 8 (N.of_nat (length ids)) ++ mjoin ids).

(** Taking the events out of the index in the computed order; [None] is the panic
    of [expect]. *)
Fixpoint take_ordered (by_id : gmap EventId Event) (order : list EventId) :
    option (list Event) :=
  match order with
  | [] => Some []
  | i :: order =>
      e ← by_id !! i; es ← take_ordered (delete i by_id) order; Some (e :: es)
  end.

Definition causal_events (events : list Event) : option (list Event) :=
  let order := ordered_ids events [] true in
  take_ordered (foldl (λ m e, <[id e := e]> m) ∅ events) order.

(** ** The store interface *)

Class SyncStore (S : Type) := {
  event_ids : S → ConversationId → result LogError (list EventId);
  events_excluding : S → ConversationId → gset EventId → result LogError (list Event);
  events_excluding_bounded :
    S → ConversationId → gset EventId → N → nat → result LogError (list Event);
  ingest : S → Event → S * result LogError AppendOutcome
}.

(** The provided methods of the trait, by scanning. *)
Section defaults.
Context `{SyncStore St}.
Implicit Types (s : St) (c : ConversationId).

Definition scan_kinds s c (ks : list EventKind) : result LogError bool :=
  es ← events_excluding s c ∅; Ok (existsb (λ e, bool_decide (kind e ∈ ks)) es).

Definition default_requires_channel_v2 s c := scan_kinds s c [ChannelReplica].
Definition default_requires_channel_v3 s c :=
  scan_kinds s c [ChannelHistoryPolicy; ChannelJoinHistory].
Definition default_requires_channel_v4 s c :=
  scan_kinds s c [ChannelAccountAuthority; ChannelDeviceInheritance].
Definition default_requires_channel_v5 s c := scan_kinds s c [ChannelMetadata].

Definition fingerprint_and_len s c : result LogError (bytes * nat) :=
  ids ← event_ids s c; Ok (fingerprint ids, length ids).

Definition default_events_excluding_bounded s c (have : gset EventId)
    (event_budget : N) (max_frames : nat) : result LogError (list Event) :=
  es ← events_excluding s c have; Ok (cap_event_frames es event_budget max_frames).
End defaults.

(** [impl SyncStore for EventLog]. *)
#[global] Instance EventLog_SyncStore : SyncStore EventLog := {|
  event_ids l c := Ok (id <$> events_of l c);
  events_excluding l c have :=
    Ok (filter (λ e, id e ∉ have) (default [] (causal_events (events_of l c))));
  events_excluding_bounded l c have event_budget max_frames :=
    Ok (bounded_events
          (filter (λ e, id e ∉ have) (default [] (causal_events (events_of l c))))
          event_budget max_frames);
  ingest := append
|}.

(** ** Applying a received batch *)

Section exchange.
Context `{SyncStore St}.
Implicit Types s : St.

Definition note_rejected (report : ApplyReport) (i : EventId) (e : LogError) :
    ApplyReport :=
  if decide (length (rejected report) < MAX_REJECTED_DETAIL)
  then MkReport (applied report) (duplicates report)
         (rejected report ++ [(i, log_error_to_string e)])
  else report.

Fixpoint apply_loop s (events : list Event) (report : ApplyReport) :
    St * result LogError ApplyReport :=
  match events with
  | [] => (s, Ok report)
  | e :: rest =>
      match ingest s e with
      | (s, Ok Appended) =>
          apply_loop s rest
            (MkReport (S (applied report)) (duplicates report) (rejected report))
      | (s, Ok Duplicate) =>
          apply_loop s rest
            (MkReport (applied report) (S (duplicates report)) (rejected report))
      | (s, Err err) =>
          if is_peer_rejection err
          then apply_loop s rest (note_rejected report (id e) err)
          else (s, Err err)
      end
  end.

Definition apply_received_events s (events : list Event) :
    St * result LogError ApplyReport := apply_loop s events report_default.

Definition ingest_all s (events : list Event) : St * result LogError ApplyReport :=
  apply_received_events s events.

(** ** The three messages *)

Definition build_request s (c : ConversationId) : result LogError SyncRequest :=
  have ← event_ids s c; Ok (MkSyncRequest c have).

Definition handle_request_bounded s (request : SyncRequest) (frame_budget : N) :
    result LogError SyncResponse :=
  let requester_have : gset EventId := list_to_set (req_have request) in
  responder_have ← event_ids s (req_conversation request);
  let event_budget := (frame_budget - SYNC_MARGIN)%N in
  evs ← events_excluding_bounded s (req_conversation request) requester_have event_budget 1;
  Ok (MkSyncResponse (req_conversation request) evs responder_have).

Definition handle_request s (request : SyncRequest) : result LogError SyncResponse :=
  handle_request_bounded s request usize_max.

(** The loop of [followup_frames]: frames pushed, open frame, its size. *)
Fixpoint followup_loop (c : ConversationId) (budget : N) (max_frames : nat)
    (frames : list SyncFollowup) (events : list Event) (used : N)
    (all_missing : list Event) : list SyncFollowup :=
  match all_missing with
  | [] =>
      if decide (events ≠ [] ∧ length frames < max_frames)
      then frames ++ [MkSyncFollowup c events] else frames
  | e :: rest =>
      let size := encoded_event_size e in
      if decide (events ≠ [] ∧ budget < saturating_add usize_max used size)%N then
        let frames := frames ++ [MkSyncFollowup c events] in
        if decide (length frames = max_frames) then frames
        else followup_loop c budget max_frames frames [e]
               (saturating_add usize_max 0 size) rest
      else followup_loop c budget max_frames frames (events ++ [e])
             (saturating_add usize_max used size) rest
  end.

Definition followup_frames (c : ConversationId) (all_missing : list Event)
    (budget : N) (max_frames : nat) : list SyncFollowup :=
  followup_loop c budget max_frames [] [] 0 all_missing.

Definition handle_response_bounded_burst s (response : SyncResponse) (frame_budget : N)
    (max_frames : nat) : St * result LogError (ApplyReport * list SyncFollowup) :=
  match ingest_all s (resp_events response) with
  | (s, Err e) => (s, Err e)
  | (s, Ok report) =>
      let remote_have : gset EventId := list_to_set (resp_have response) in
      let budget := (frame_budget - SYNC_MARGIN)%N in
      match events_excluding_bounded s (resp_conversation response) remote_have
              budget max_frames with
      | Err e => (s, Err e)
      | Ok all_missing =>
          (s, Ok (report,
             followup_frames (resp_conversation response) all_missing budget max_frames))
      end
  end.

Definition handle_response_bounded s (response : SyncResponse) (frame_budget : N) :
    St * result LogError (ApplyReport * SyncFollowup) :=
  match handle_response_bounded_burst s response frame_budget 1 with
  | (s, Err e) => (s, Err e)
  | (s, Ok (report, frames)) =>
      (s, Ok (report, default (MkSyncFollowup (resp_conversation response) []) (last frames)))
  end.

Definition handle_response s (response : SyncResponse) :
    St * result LogError (ApplyReport * SyncFollowup) :=
  handle_response_bounded s response usize_max.

Definition handle_followup s (followup : SyncFollowup) : St * result LogError ApplyReport :=
  ingest_all s (fu_events followup).
End exchange.

Definition reconcile `{SyncStore A, SyncStore B} (a : A) (b : B) (c : ConversationId) :
    A * B * result LogError (ApplyReport * ApplyReport) :=
  match build_request a c with
  | Err e => (a, b, Err e)
  | Ok request =>
      match handle_request b request with
      | Err e => (a, b, Err e)
      | Ok response =>
          match handle_response a response with
          | (a, Err e) => (a, b, Err e)
          | (a, Ok (report_a, followup)) =>
              match handle_followup b followup with
              | (b, Err e) => (a, b, Err e)
              | (b, Ok report_b) => (a, b, Ok (report_a, report_b))
              end
          end
      end
  end.
End sync.

(** ** Page budgets of the network seam *)

Definition i64_max : N := 9223372036854775807.

Definition scan_limit (examined : N) : result LogError N :=
  if decide (examined = 0%N) then Err InvalidPageBudget
  else if decide (examined ≤ i64_max)%N
  then ok_or (checked_add i64_max examined 1) InvalidPageBudget
  else Err InvalidPageBudget.

Record PreparationBudget := MkPreparationBudget {
  prep_rows : N; prep_edges : N; prep_bytes : N }.

Definition preparation_default : PreparationBudget :=
  MkPreparationBudget 64 512 (8 * 1024 * 1024).

Definition preparation_validate (b : PreparationBudget) : result LogError () :=
  _ ← scan_limit (prep_rows b);
  _ ← scan_limit (prep_edges b);
  if decide (prep_bytes b = 0%N) then Err InvalidPageBudget else Ok ().

(** [row_bytes] is a positive constant at every call site, so the division of the
    source cannot panic. *)
Definition rows_for_bytes (b : PreparationBudget) (row_bytes : N) : result LogError N :=
  let rows := (prep_bytes b / row_bytes)%N in
  if decide (rows = 0%N) then Err (PageBudgetTooSmall row_bytes) else Ok rows.

Definition rows_for (b : PreparationBudget) (row_bytes : N) : result LogError N :=
  rows ← rows_for_bytes b row_bytes; Ok (N.min (prep_rows b) rows).

Record IdPageBudget := MkIdPageBudget { page_ids : N; page_examined : N }.

Definition id_page_validate (b : IdPageBudget) : result LogError () :=
  if decide (page_ids b = 0 ∨ 1500 < page_ids b ∨ page_examined b = 0 ∨
             page_examined b < page_ids b)%N
  then Err InvalidPageBudget
  else _ ← scan_limit (page_examined b); Ok ().

Record ExportPageBudget := MkExportPageBudget {
  exp_examined : N; exp_events : N; exp_encoded_bytes : N; exp_allocated_bytes : N }.

Definition export_page_validate (b : ExportPageBudget) : result LogError () :=
  if decide (exp_events b = 0 ∨ exp_encoded_bytes b = 0 ∨ exp_allocated_bytes b = 0)%N
  then Err InvalidPageBudget
  else _ ← scan_limit (exp_examined b); Ok ().

(** ** Frames *)

(** The bytes of a batch, without saturation. *)
Definition total_size {T} (size : T → N) (l : list T) : N :=
  foldr (λ x n, size x + n)%N 0%N l.

Lemma total_size_app {T} (size : T → N) l1 l2 :
  total_size size (l1 ++ l2) = (total_size size l1 + total_size size l2)%N.
Proof. induction l1 as [|x l1 IH]; [done|]. simpl. rewrite IH. lia. Qed.

Lemma saturating_add_le max a b n :
  (saturating_add max a b ≤ n)%N → (n < max)%N → (a + b ≤ n)%N.
Proof. unfold saturating_add. lia. Qed.

Lemma saturating_add_small max a b : (a + b ≤ max)%N → saturating_add max a b = (a + b)%N.
Proof. unfold saturating_add. lia. Qed.

Section frame_facts.
Context {T : Type} (size : T → N).

Lemma frame_prefix_loop_prefix budget m used k has es :
  frame_prefix_loop size budget m used k has es `prefix_of` es.
Proof.
  revert used k has. induction es as [|e es IH]; intros used k has; [done|].
  cbn [frame_prefix_loop]. destruct (decide (m = 0)); [apply prefix_nil|].
  destruct (has && _); [|apply prefix_cons, IH].
  destruct (decide (S k = m)); [apply prefix_nil|apply prefix_cons, IH].
Qed.

Lemma frame_prefix_prefix budget m es : frame_prefix size es budget m `prefix_of` es.
Proof. apply frame_prefix_loop_prefix. Qed.

(** Progress: the first event always goes out. *)
Lemma frame_prefix_head budget m e es :
  0 < m → ∃ rest, frame_prefix size (e :: es) budget m = e :: rest.
Proof.
  intros Hm. unfold frame_prefix. cbn [frame_prefix_loop andb].
  rewrite decide_False by lia. eauto.
Qed.

(** Nothing is cut when the whole batch fits. *)
Lemma frame_prefix_loop_all budget m used k has es :
  0 < m → (used + total_size size es ≤ budget)%N → (budget ≤ usize_max)%N →
  frame_prefix_loop size budget m used k has es = es.
Proof.
  intros Hm. revert used k has. induction es as [|e es IH]; intros used k has Hsum Hb; [done|].
  cbn [frame_prefix_loop total_size foldr] in *. rewrite decide_False by lia.
  fold (total_size size es) in Hsum.
  rewrite (saturating_add_small _ used) by lia. rewrite bool_decide_false by lia.
  rewrite andb_false_r. f_equal. apply IH; lia.
Qed.

Lemma frame_prefix_all budget m es :
  0 < m → (total_size size es ≤ budget)%N → (budget ≤ usize_max)%N →
  frame_prefix size es budget m = es.
Proof. intros. apply frame_prefix_loop_all; [done|lia|done]. Qed.
End frame_facts.

Section followup_facts.
Context `{Bincode Event}.

Abbreviation esize := encoded_event_size.

(** A frame of the burst: not empty, and within the budget unless it carries a
    single oversized event. *)
Definition frame_ok (c : ConversationId) (budget : N) (f : SyncFollowup) : Prop :=
  fu_conversation f = c ∧ fu_events f ≠ [] ∧
  (length (fu_events f) = 1 ∨ (total_size esize (fu_events f) ≤ budget)%N).

(** The open frame and the size recorded for it. *)
Definition open_ok (budget : N) (events : list Event) (used : N) : Prop :=
  (events = [] ∧ used = 0%N) ∨ length events = 1 ∧ used = N.min (total_size esize events) usize_max ∨
  used = total_size esize events ∧ (used ≤ budget)%N.

Lemma open_ok_frame c budget events used :
  open_ok budget events used → events ≠ [] → frame_ok c budget (MkSyncFollowup c events).
Proof. unfold frame_ok; cbn. intros [[-> _]|[[Hl _]|[-> ?]]] Hne; naive_solver. Qed.

Lemma open_ok_single budget e :
  open_ok budget [e] (saturating_add usize_max 0 (esize e)).
Proof. right; left. unfold saturating_add. cbn [total_size foldr length]. split; [done|]. f_equal. lia. Qed.

Lemma open_ok_grow budget events used e :
  (budget < usize_max)%N → open_ok budget events used →
  ¬ (events ≠ [] ∧ budget < saturating_add usize_max used (esize e))%N →
  open_ok budget (events ++ [e]) (saturating_add usize_max used (esize e)).
Proof.
  intros Hb Hopen Hno. destruct (decide (events = [])) as [->|Hne].
  { assert (used = 0%N) as -> by (destruct Hopen as [[_ ->]|[[? _]|[-> _]]]; done).
    apply open_ok_single. }
  assert (saturating_add usize_max used (esize e) ≤ budget)%N as Hle.
  { destruct (N.le_gt_cases (saturating_add usize_max used (esize e)) budget) as [|Hgt]; [done|].
    exfalso. by apply Hno. }
  assert (used + esize e ≤ budget)%N as Hsum by by eapply saturating_add_le.
  right; right. rewrite total_size_app. cbn [total_size foldr].
  rewrite saturating_add_small in Hle |- * by lia. split; [|done].
  destruct Hopen as [[? _]|[[_ ->]|[-> _]]]; [done| |]; lia.
Qed.

(** The packing loop, on the prefix the bounded export selected, keeps every
    event, in order, in well-formed frames. *)
Lemma followup_loop_spec c budget m es frames events used :
  (budget < usize_max)%N → length frames < m → open_ok budget events used →
  Forall (frame_ok c budget) frames →
  let sel := frame_prefix_loop esize budget m used (length frames)
               (bool_decide (events ≠ [])) es in
  let out := followup_loop c budget m frames events used sel in
  mjoin (fu_events <$> out) = mjoin (fu_events <$> frames) ++ events ++ sel ∧
  Forall (frame_ok c budget) out ∧ length out ≤ m.
Proof.
  intros Hb. revert frames events used.
  assert (∀ frames events used, length frames < m → open_ok budget events used →
    Forall (frame_ok c budget) frames →
    let out := followup_loop c budget m frames events used [] in
    mjoin (fu_events <$> out) = mjoin (fu_events <$> frames) ++ events ++ [] ∧
    Forall (frame_ok c budget) out ∧ length out ≤ m) as Hnil.
  { intros frames events used Hm Hopen Hfr. cbn [followup_loop].
    destruct (decide (events ≠ [] ∧ _)) as [[Hne _]|Hno].
    - rewrite fmap_app, join_app, length_app. simpl. rewrite !app_nil_r. split_and!; [done| |lia].
      apply Forall_app. split; [done|]. constructor; [|done]. by eapply open_ok_frame.
    - assert (events = []) as -> by (destruct events; [done|]; exfalso; apply Hno; split; [done|lia]).
      rewrite !app_nil_r. split_and!; [done|done|lia]. }
  induction es as [|e es IH]; intros frames events used Hm Hopen Hfr; [by apply Hnil|].
  cbn [frame_prefix_loop]. rewrite decide_False by lia.
  destruct (decide (events ≠ [] ∧ budget < saturating_add usize_max used (esize e))%N)
    as [[Hne Hgt]|Hno].
  - rewrite !bool_decide_true by done. cbn [andb].
    destruct (decide (S (length frames) = m)) as [Heq|Hneq]; [by apply Hnil|].
    cbn [followup_loop]. rewrite decide_True by done.
    rewrite decide_False by (rewrite length_app; simpl; lia).
    specialize (IH (frames ++ [MkSyncFollowup c events]) [e]
      (saturating_add usize_max 0 (esize e))).
    rewrite length_app, Nat.add_1_r in IH. rewrite bool_decide_true in IH by done.
    destruct IH as (Hj & Hok & Hlen); [lia|apply open_ok_single| |].
    { apply Forall_app. split; [done|]. constructor; [|done]. by eapply open_ok_frame. }
    split_and!; [|done|done]. rewrite Hj, fmap_app, join_app. simpl.
    by rewrite app_nil_r, <-app_assoc.
  - replace (bool_decide (events ≠ []) && _) with false.
    2:{ symmetry. apply andb_false_iff. destruct (decide (events = [])) as [->|Hne].
        - left. apply bool_decide_false. naive_solver.
        - right. apply bool_decide_false. by intros Hgt; apply Hno. }
    cbn [followup_loop]. rewrite decide_False by done.
    specialize (IH frames (events ++ [e]) (saturating_add usize_max used (esize e)) Hm).
    rewrite bool_decide_true in IH by by destruct events.
    destruct IH as (Hj & Hok & Hlen); [by apply open_ok_grow|done|].
    split_and!; [|done|done]. by rewrite Hj, <-app_assoc.
Qed.
End followup_facts.

(** ** Causal lists *)

(** Every event's parents are known or stand before it. *)
Fixpoint causal (known : gset EventId) (es : list Event) : Prop :=
  match es with
  | [] => True
  | e :: es => (∀ p, p ∈ parents e → p ∈ known) ∧ causal (known ∪ {[id e]}) es
  end.

Lemma causal_mono known known' es : known ⊆ known' → causal known es → causal known' es.
Proof.
  revert known known'. induction es as [|e es IH]; intros known known' Hsub; [done|].
  intros [Hp Hc]. split; [set_solver|]. eapply IH, Hc. set_solver.
Qed.

Lemma causal_filter known have es :
  causal known es → causal (known ∪ have) (filter (λ e, id e ∉ have) es).
Proof.
  revert known. induction es as [|e es IH]; intros known; [done|].
  intros [Hp Hc]. apply IH in Hc. rewrite filter_cons. case_decide as Hn.
  - split; [set_solver|]. eapply causal_mono, Hc. set_solver.
  - eapply causal_mono, Hc.
    assert (id e ∈ have) by (destruct (decide (id e ∈ have)); naive_solver). set_solver.
Qed.

Lemma causal_prefix known es es' : es' `prefix_of` es → causal known es → causal known es'.
Proof.
  intros [k ->]. revert known. induction es' as [|e es' IH]; intros known; [done|].
  intros [Hp Hc]. split; [done|]. by apply IH.
Qed.

Lemma causal_splits pre es :
  (∀ l1 e l2 p, es = l1 ++ e :: l2 → p ∈ parents e → p ∈ id <$> (pre ++ l1)) →
  causal (list_to_set (id <$> pre)) es.
Proof.
  revert pre. induction es as [|e es IH]; intros pre Hsp; [done|]. split.
  - intros p Hp. specialize (Hsp [] e es p eq_refl Hp). rewrite app_nil_r in Hsp. set_solver.
  - assert (list_to_set (id <$> pre) ∪ {[id e]} =
      list_to_set (id <$> (pre ++ [e])) :> gset EventId) as -> by set_solver.
    apply IH. intros l1 e' l2 p -> Hp. rewrite <-app_assoc.
    apply (Hsp (e :: l1) e' l2 p eq_refl Hp).
Qed.

Lemma take_ordered_spec (m : gmap EventId Event) order :
  NoDup order → (∀ i, i ∈ order → ∃ e, m !! i = Some e ∧ id e = i) →
  ∃ es, take_ordered m order = Some es ∧ id <$> es = order ∧
    ∀ e, e ∈ es → m !! id e = Some e.
Proof.
  revert m. induction order as [|i order IH]; intros m Hnd Hm.
  - exists []. split_and!; [done|done|set_solver].
  - apply NoDup_cons in Hnd as [Hnin Hnd]. destruct (Hm i ltac:(set_solver)) as (e & He & Hid).
    destruct (IH (delete i m) Hnd) as (es & Hes & Hids & Hin).
    { intros j Hj. rewrite lookup_delete_ne by (intros ->; done). apply Hm. set_solver. }
    exists (e :: es). cbn [take_ordered]. rewrite He. cbn [mbind option_bind].
    rewrite Hes. cbn [mbind option_bind].
    split_and!; [done|by rewrite fmap_cons, Hid, Hids|].
    intros e' [->|He']%elem_of_cons; [by rewrite Hid|].
    apply Hin in He'. by apply lookup_delete_Some in He' as [_ ?].
Qed.

Lemma index_events_lookup (es : list Event) e :
  NoDup (id <$> es) → e ∈ es →
  foldl (λ m e, <[id e := e]> m) (∅ : gmap EventId Event) es !! id e = Some e.
Proof.
  generalize (∅ : gmap EventId Event). induction es as [|x es IH]; intros m Hnd He; [set_solver|].
  rewrite fmap_cons in Hnd. apply NoDup_cons in Hnd as [Hnin Hnd]. cbn [foldl].
  apply elem_of_cons in He as [->|He]; [|by apply IH].
  clear IH Hnd. assert (<[id x:=x]> m !! id x = Some x) as Hm by apply lookup_insert_eq.
  revert Hm. generalize (<[id x:=x]> m).
  induction es as [|y es IH]; intros m' Hm'; [done|]. cbn [foldl].
  apply IH; [set_solver|]. rewrite lookup_insert_ne; [done|set_solver].
Qed.

(** On a well-formed acyclic graph closed under parents the traversal does not
    panic, and lists the same events parents first. *)
Lemma causal_events_spec (es : list Event) (rank : EventId → nat) :
  well_formed_events es →
  (∀ e p, e ∈ es → p ∈ parents e → p ∈ id <$> es) →
  (∀ e p, e ∈ es → p ∈ parents e → rank p < rank (id e)) →
  ∃ out, causal_events es = Some out ∧ out ≡ₚ es ∧ causal ∅ out.
Proof.
  intros Hwf Hcl Hrank.
  pose proof (ordered_ids_greedy es [] true Hwf) as Hg. cbv zeta in Hg.
  rewrite clock_map_dom in Hg. pose proof (greedy_NoDup _ _ _ _ _ Hg) as Hnd.
  assert (∀ i, i ∈ ordered_ids es [] true ↔ i ∈ id <$> es) as Hin.
  { intros i. split.
    - intros Hi. apply (greedy_fresh _ _ _ _ _ _ Hg) in Hi as [Hi _]. set_solver.
    - intros Hi. eapply (greedy_complete _ _ _ rank); [|exact Hg|set_solver|set_solver].
      intros v p Hv (e & He & <- & Hp)%par_of_elem _. eauto. }
  destruct Hwf as [Hids Hpar].
  destruct (take_ordered_spec (foldl (λ m e, <[id e := e]> m) ∅ es)
    (ordered_ids es [] true) Hnd) as (out & Hout & Hoids & Hlook).
  { intros i [e [-> He]]%Hin%list_elem_of_fmap. exists e. by rewrite index_events_lookup. }
  assert (∀ e, e ∈ out → e ∈ es) as Hsub.
  { intros e He. assert (id e ∈ id <$> es) as (e' & Heq & He')%list_elem_of_fmap.
    { apply Hin. rewrite <-Hoids. by apply list_elem_of_fmap_2. }
    pose proof (Hlook e He) as Hl. rewrite Heq, index_events_lookup in Hl by done. congruence. }
  exists out. split; [done|]. split.
  - apply NoDup_Permutation; [|by eapply NoDup_fmap_1|].
    { eapply (NoDup_fmap_1 id). by rewrite Hoids. }
    intros e. split; [apply Hsub|]. intros He.
    assert (id e ∈ id <$> out) as (e' & Heq & He')%list_elem_of_fmap.
    { rewrite Hoids. apply Hin. by apply list_elem_of_fmap_2. }
    pose proof (Hlook e' He') as Hl. rewrite <-Heq, index_events_lookup in Hl by done. congruence.
  - apply (causal_splits [] out). intros l1 e l2 p Hsp Hp. simpl.
    assert (e ∈ es) as He by (apply Hsub; rewrite Hsp; set_solver).
    destruct (greedy_topological _ _ _ _ _ (id e) p (id <$> l1) (id <$> l2) Hg) as [|]; [| |set_solver|done].
    + by rewrite <-Hoids, Hsp, fmap_app.
    + apply elem_of_intersection. split; [apply par_of_elem; eauto|].
      apply elem_of_list_to_set. eauto.
Qed.

(** ** What a store promises to the exchange *)

Section laws.
Context `{Crypto, Bincode EventContent, Bincode Event}.

Definition in_conv (m : gmap EventId Event) (c : ConversationId) (i : EventId) : Prop :=
  ∃ e, m !! i = Some e ∧ conversation_id e = c.

(** [e] can be stored: valid, new, parents present, author slot free. *)
Definition acceptable (m : gmap EventId Event) (e : Event) : Prop :=
  event_valid e ∧ m !! id e = None ∧
  (∀ p, p ∈ parents e → in_conv m (conversation_id e) p) ∧
  ∀ i e', m !! i = Some e' → ¬ same_slot e e'.

Class SyncStoreLaws (St : Type) `{!SyncStore St} := {
  sync_inv : St → Prop;
  stored : St → gmap EventId Event;
  stored_valid s i e : sync_inv s → stored s !! i = Some e → id e = i ∧ event_valid e;
  stored_closed s i e p :
    sync_inv s → stored s !! i = Some e → p ∈ parents e →
    in_conv (stored s) (conversation_id e) p;
  stored_slots s i1 i2 e1 e2 :
    sync_inv s → stored s !! i1 = Some e1 → stored s !! i2 = Some e2 →
    same_slot e1 e2 → i1 = i2;
  event_ids_ok s c :
    sync_inv s → ∃ ids, event_ids s c = Ok ids ∧ NoDup ids ∧
      ∀ i, i ∈ ids ↔ in_conv (stored s) c i;
  events_excluding_ok s c have :
    sync_inv s → ∃ es, events_excluding s c have = Ok es ∧
      NoDup (id <$> es) ∧ causal have es ∧
      ∀ e, e ∈ es ↔ stored s !! id e = Some e ∧ conversation_id e = c ∧ id e ∉ have;
  events_excluding_bounded_ok s c have budget m es :
    sync_inv s → events_excluding s c have = Ok es →
    events_excluding_bounded s c have budget m =
      Ok (frame_prefix encoded_event_size es budget m);
  ingest_inv s e : sync_inv s → sync_inv (ingest s e).1;
  ingest_mono s e : sync_inv s → stored s ⊆ stored (ingest s e).1;
  ingest_accepts s e :
    sync_inv s → acceptable (stored s) e →
    (ingest s e).2 = Ok Appended ∧ stored (ingest s e).1 = <[id e := e]> (stored s)
}.

Lemma log_causal_events l c :
  log_inv l → ∃ out, causal_events (events_of l c) = Some out ∧
    out ≡ₚ events_of l c ∧ causal ∅ out.
Proof.
  intros Hinv. destruct (inv_rank _ Hinv) as [rank Hrank].
  apply (causal_events_spec _ rank).
  - split; [by apply events_of_NoDup|]. apply Forall_forall.
    intros e [He _]%elem_of_events_of; [|done]. apply is_canonical_NoDup.
    by destruct (inv_valid _ Hinv _ _ He) as [_ [? _]].
  - intros e p [He Hc]%elem_of_events_of Hp; [|done].
    destruct (inv_closed _ Hinv _ _ _ He Hp) as (e' & He' & Hc').
    destruct (inv_valid _ Hinv _ _ He') as [Hid _].
    apply list_elem_of_fmap. exists e'. split; [done|].
    apply elem_of_events_of; [done|]. rewrite Hid. split; [done|congruence].
  - intros e p [He _]%elem_of_events_of Hp; [|done]. by eapply Hrank.
Qed.

#[global] Instance EventLog_SyncStoreLaws : SyncStoreLaws EventLog.
Proof.
  refine {| sync_inv := log_inv; stored := events |}.
  - intros l i e Hinv He. by apply (inv_valid _ Hinv).
  - intros l i e p Hinv He Hp. by apply (inv_closed _ Hinv i e p).
  - intros l i1 i2 e1 e2 Hinv He1 He2 (Hc & Ha & Hs).
    assert (author_seq l !! (conversation_id e1, author e1, seq e1) = Some i1) as Hi1
      by (apply (inv_author_seq _ Hinv); eauto).
    assert (author_seq l !! (conversation_id e1, author e1, seq e1) = Some i2) as Hi2
      by (apply (inv_author_seq _ Hinv); eauto).
    congruence.
  - intros l c Hinv. exists (id <$> events_of l c).
    split; [done|]. split; [by apply events_of_NoDup|]. intros i.
    rewrite list_elem_of_fmap. setoid_rewrite elem_of_events_of; [|done].
    unfold in_conv. split; [naive_solver|]. intros (e & He & Hc).
    destruct (inv_valid _ Hinv _ _ He) as [<- _]. eauto.
  - intros l c have Hinv. destruct (log_causal_events l c Hinv) as (out & Hout & Hp & Hc).
    cbn [events_excluding EventLog_SyncStore]. rewrite Hout. cbn [from_option].
    eexists. split; [done|]. split_and!.
    + apply NoDup_fmap_filter. unfold Datatypes.id. rewrite Hp. by apply events_of_NoDup.
    + eapply causal_mono; [|by apply causal_filter]. set_solver.
    + intros e. rewrite list_elem_of_filter. unfold Datatypes.id. rewrite Hp, elem_of_events_of by done. tauto.
  - intros l c have budget m es Hinv. cbn [events_excluding events_excluding_bounded EventLog_SyncStore].
    by intros [= <-].
  - intros l e. apply append_inv.
  - intros l e Hinv. cbn [ingest EventLog_SyncStore]. unfold append.
    destruct (validate l e) as [[]|] eqn:Hval; cbn [fst]; [|done..].
    rewrite events_index_trusted. apply insert_subseteq.
    by apply validate_Ok_true in Hval as (_ & ? & _).
  - intros l e Hinv (Hv & Hnew & Hp & Hs). cbn [ingest EventLog_SyncStore].
    rewrite append_appended; [done..|]. apply author_seq_free; [done..|].
    intros (i & e' & He' & Hsl). by eapply Hs.
Defined.
End laws.

(** ** Accepting a batch *)

Definition absorb (m : gmap EventId Event) (es : list Event) : gmap EventId Event :=
  foldl (λ m e, <[id e := e]> m) m es.

Lemma absorb_lookup m es i e :
  NoDup (id <$> es) → (∀ e, e ∈ es → m !! id e = None) →
  absorb m es !! i = Some e ↔ m !! i = Some e ∨ (e ∈ es ∧ id e = i).
Proof.
  revert m. induction es as [|x es IH]; intros m Hnd Hnew; [cbn; set_solver|].
  rewrite fmap_cons in Hnd. apply NoDup_cons in Hnd as [Hnin Hnd].
  cbn [absorb foldl]. fold (absorb (<[id x := x]> m) es). rewrite IH.
  - rewrite lookup_insert_Some, elem_of_cons. specialize (Hnew x ltac:(set_solver)).
    split; [naive_solver|]. intros [Hi|[[->|?] <-]]; [|naive_solver..].
    left. right. split; [|done]. intros <-. congruence.
  - done.
  - intros y Hy. rewrite lookup_insert_ne; [apply Hnew; set_solver|].
    intros Heq. apply Hnin. rewrite Heq. by apply list_elem_of_fmap_2.
Qed.

Lemma total_size_submseteq {T} (size : T → N) l k :
  l ⊆+ k → (total_size size l ≤ total_size size k)%N.
Proof.
  assert (∀ x l, total_size size (x :: l) = (size x + total_size size l)%N) as Hc by done.
  induction 1; rewrite ?Hc in *; lia.
Qed.

Section batch.
Context `{Crypto, Bincode EventContent, Bincode Event}.

(** A batch of one conversation that a store holding [m] can take event by event. *)
Record batch_ok (m : gmap EventId Event) (c : ConversationId) (es : list Event) : Prop := {
  bo_causal : ∃ known, causal known es ∧ ∀ p, p ∈ known → in_conv m c p;
  bo_valid e : e ∈ es → event_valid e ∧ conversation_id e = c;
  bo_ids : NoDup (id <$> es);
  bo_new e : e ∈ es → m !! id e = None;
  bo_slots e i e' : e ∈ es → m !! i = Some e' → ¬ same_slot e e';
  bo_pair e e' : e ∈ es → e' ∈ es → same_slot e e' → e = e'
}.

Lemma batch_ok_cons m c e es :
  batch_ok m c (e :: es) → acceptable m e ∧ batch_ok (<[id e := e]> m) c es.
Proof.
  intros [(known & [Hp Hc] & Hk) Hv Hids Hnew Hs Hpair].
  rewrite fmap_cons in Hids. apply NoDup_cons in Hids as [Hnin Hids].
  destruct (Hv e ltac:(set_solver)) as [Hve Hce]. pose proof (Hnew e ltac:(set_solver)) as Hne.
  split.
  - split; [done|]. split; [done|]. split; [rewrite Hce; auto|].
    intros i e' He'. apply Hs with i; [set_solver|done].
  - split.
    + exists (known ∪ {[id e]}). split; [done|].
      intros p [Hpk| ->%elem_of_singleton]%elem_of_union.
      * destruct (Hk p Hpk) as (e' & He' & Hc'). exists e'. split; [|done].
        rewrite lookup_insert_ne; [done|]. congruence.
      * exists e. by rewrite lookup_insert_eq.
    + intros e' He'. apply Hv. set_solver.
    + done.
    + intros e' He'. rewrite lookup_insert_ne; [apply Hnew; set_solver|].
      intros Heq. apply Hnin. rewrite Heq. by apply list_elem_of_fmap_2.
    + intros e1 i e2 He1 [[<- <-]|[_ Hi]]%lookup_insert_Some.
      * intros Hsl. apply Hnin. rewrite <-(Hpair e1 e); [by apply list_elem_of_fmap_2|set_solver..|done].
      * apply Hs with i; [set_solver|done].
    + intros e1 e2 He1 He2. apply Hpair; set_solver.
Qed.

Context `{!SyncStore St, !SyncStoreLaws St}.
Implicit Types s : St.

Lemma apply_loop_accepts s c es rep :
  sync_inv s → batch_ok (stored s) c es →
  ∃ s', apply_loop s es rep =
      (s', Ok (MkReport (applied rep + length es) (duplicates rep) (rejected rep))) ∧
    sync_inv s' ∧ stored s' = absorb (stored s) es.
Proof.
  revert s rep. induction es as [|e es IH]; intros s rep Hinv Hb.
  - exists s. cbn [apply_loop length absorb foldl]. rewrite Nat.add_0_r. by destruct rep.
  - apply batch_ok_cons in Hb as [Hacc Hb]. destruct (ingest_accepts s e Hinv Hacc) as [Ha Hst].
    pose proof (ingest_inv s e Hinv) as Hinv'. cbn [apply_loop].
    destruct (ingest s e) as [s1 r]. cbn [fst snd] in *. subst r. rewrite <-Hst in Hb.
    destruct (IH s1 (MkReport (S (applied rep)) (duplicates rep) (rejected rep)) Hinv' Hb)
      as (s' & -> & ? & Hs'). exists s'. cbn [applied duplicates rejected length].
    rewrite Nat.add_succ_r. split_and!; [done|done|]. by rewrite Hs', Hst.
Qed.

Lemma apply_loop_inv s es rep : sync_inv s →
  sync_inv (apply_loop s es rep).1 ∧ stored s ⊆ stored (apply_loop s es rep).1.
Proof.
  revert s rep. induction es as [|e es IH]; intros s rep Hinv; [done|]. cbn [apply_loop].
  pose proof (ingest_inv s e Hinv) as Hinv'. pose proof (ingest_mono s e Hinv) as Hm.
  destruct (ingest s e) as [s1 [[]|err]]; cbn [fst] in *.
  - destruct (IH s1 (MkReport (S (applied rep)) (duplicates rep) (rejected rep)) Hinv').
    split; [done|by etrans].
  - destruct (IH s1 (MkReport (applied rep) (S (duplicates rep)) (rejected rep)) Hinv').
    split; [done|by etrans].
  - destruct (is_peer_rejection err); [|done].
    destruct (IH s1 (note_rejected rep (id e) err) Hinv'). split; [done|by etrans].
Qed.
End batch.

(** ** One exchange *)

(** No id stands for two events and no author slot is taken twice, between the
    events of [m1] and the events of conversation [c] in [m2]. *)
Definition compatible (m1 m2 : gmap EventId Event) (c : ConversationId) : Prop :=
  (∀ i e1 e2, m1 !! i = Some e1 → m2 !! i = Some e2 → conversation_id e2 = c → e1 = e2) ∧
  (∀ i1 i2 e1 e2, m1 !! i1 = Some e1 → m2 !! i2 = Some e2 → conversation_id e2 = c →
     same_slot e2 e1 → e1 = e2).

#[global] Instance same_slot_dec e e' : Decision (same_slot e e').
Proof. unfold same_slot. apply _. Defined.

#[global] Instance compatible_dec m1 m2 c : Decision (compatible m1 m2 c).
Proof.
  refine (cast_if (decide (map_Forall (λ i1 e1, map_Forall (λ i2 e2,
    conversation_id e2 = c → (i1 = i2 → e1 = e2) ∧ (same_slot e2 e1 → e1 = e2)) m2) m1))).
  - split.
    + intros i e1 e2 He1 He2 Hc. by destruct (m _ _ He1 _ _ He2 Hc) as [-> _].
    + intros i1 i2 e1 e2 He1 He2 Hc Hs. by destruct (m _ _ He1 _ _ He2 Hc) as [_ ->].
  - intros [Hcoll Hslot]. apply n. intros i1 e1 He1 i2 e2 He2 Hc. split; [|by eapply Hslot].
    intros ->. by eapply Hcoll.
Defined.

(** The conversation fits one unbounded frame. *)
Definition fits `{Bincode Event} (m : gmap EventId Event) (c : ConversationId) : Prop :=
  (total_size encoded_event_size (filter (λ e, conversation_id e = c) (map_to_list m).*2)
     ≤ usize_max - SYNC_MARGIN)%N.

Section exchange_facts.
Context `{Crypto, Bincode EventContent, Bincode Event}.
Context `{!SyncStore A, !SyncStoreLaws A, !SyncStore B, !SyncStoreLaws B}.
Implicit Types (a : A) (b : B) (c : ConversationId).

Lemma fits_batch b c es :
  sync_inv b → fits (stored b) c → NoDup (id <$> es) →
  (∀ e, e ∈ es → stored b !! id e = Some e ∧ conversation_id e = c) →
  (total_size encoded_event_size es ≤ usize_max - SYNC_MARGIN)%N.
Proof.
  intros Hinv Hfit Hnd Hes. etrans; [|exact Hfit]. apply total_size_submseteq.
  apply NoDup_submseteq; [by eapply NoDup_fmap_1|]. intros e [He Hc]%Hes.
  apply list_elem_of_filter. split; [done|]. apply list_elem_of_fmap.
  exists (id e, e). split; [done|]. by apply elem_of_map_to_list.
Qed.

(** Events of [b] that [a] lacks, parents first, can be taken by [a]. *)
Lemma exported_batch_ok a b c (have : gset EventId) es :
  sync_inv a → sync_inv b → compatible (stored a) (stored b) c →
  (∀ i, i ∈ have ↔ in_conv (stored a) c i) →
  NoDup (id <$> es) → causal have es →
  (∀ e, e ∈ es → stored b !! id e = Some e ∧ conversation_id e = c ∧ id e ∉ have) →
  batch_ok (stored a) c es.
Proof.
  intros Ia Ib [Hcoll Hslot] Hhave Hnd Hcausal Hes.
  assert (∀ e, e ∈ es → stored a !! id e = None) as Hnew.
  { intros e He. destruct (Hes e He) as (Hb & Hc & Hnin).
    destruct (stored a !! id e) as [e'|] eqn:He'; [|done]. exfalso. apply Hnin, Hhave.
    exists e'. split; [done|]. by rewrite (Hcoll _ _ _ He' Hb Hc). }
  split; try done.
  - exists have. split; [done|]. intros p. apply Hhave.
  - intros e He. destruct (Hes e He) as (Hb & Hc & _). split; [|done].
    by apply (stored_valid b (id e) e).
  - intros e i e' He He' Hsl. destruct (Hes e He) as (Hb & Hc & _).
    rewrite (Hslot _ _ _ _ He' Hb Hc Hsl) in He'.
    destruct (stored_valid a _ _ Ia He') as [Hi _]. rewrite <-Hi, Hnew in He' by done. done.
  - intros e e' He He' Hsl. destruct (Hes e He) as (Hb & _), (Hes e' He') as (Hb' & _).
    pose proof (stored_slots b _ _ _ _ Ib Hb Hb' Hsl) as Heq. congruence.
Qed.

(** Answering a request: the response carries a prefix of the missing events. *)
Lemma request_response a b c budget :
  sync_inv a → sync_inv b → compatible (stored a) (stored b) c →
  ∃ req resp missing,
    build_request a c = Ok req ∧ handle_request_bounded b req budget = Ok resp ∧
    resp_conversation resp = c ∧
    (∀ i, i ∈ resp_have resp ↔ in_conv (stored b) c i) ∧
    resp_events resp = frame_prefix encoded_event_size missing (budget - SYNC_MARGIN) 1 ∧
    batch_ok (stored a) c (resp_events resp) ∧ NoDup (id <$> missing) ∧
    ∀ e, e ∈ missing ↔ stored b !! id e = Some e ∧ conversation_id e = c ∧
      ¬ in_conv (stored a) c (id e).
Proof.
  intros Ia Ib Hcomp. destruct (event_ids_ok a c Ia) as (ids & Hids & _ & Hin).
  destruct (event_ids_ok b c Ib) as (idsb & Hidsb & _ & Hinb).
  destruct (events_excluding_ok b c (list_to_set ids) Ib) as (es & Hex & Hnd & Hc & Hes).
  pose proof (events_excluding_bounded_ok b c _ (budget - SYNC_MARGIN) 1 es Ib Hex) as Hbd.
  exists (MkSyncRequest c ids), (MkSyncResponse c
    (frame_prefix encoded_event_size es (budget - SYNC_MARGIN) 1) idsb), es.
  unfold build_request. rewrite Hids. unfold handle_request_bounded. cbn [req_conversation req_have mbind result_bind].
  rewrite Hidsb. cbn [mbind result_bind]. rewrite Hbd. cbn [mbind result_bind].
  cbn [resp_conversation resp_have resp_events].
  pose proof (frame_prefix_prefix encoded_event_size (budget - SYNC_MARGIN) 1 es) as Hpre.
  split_and!; try done.
  - apply (exported_batch_ok a b c (list_to_set ids)); try done.
    + intros i. rewrite elem_of_list_to_set. apply Hin.
    + destruct Hpre as [k Hk]. rewrite Hk, fmap_app in Hnd. by apply NoDup_app in Hnd as [? _].
    + by eapply causal_prefix.
    + intros e He. apply Hes. destruct Hpre as [k Hk]. rewrite Hk. set_solver.
  - intros e. rewrite Hes, elem_of_list_to_set, Hin. done.
Qed.

(** Taking a response in: everything sent is applied. *)
Lemma response_applied a (resp : SyncResponse) c budget m :
  sync_inv a → batch_ok (stored a) c (resp_events resp) →
  ∃ a' rep frames missing,
    handle_response_bounded_burst a resp budget m = (a', Ok (rep, frames)) ∧
    rep = MkReport (length (resp_events resp)) 0 [] ∧ sync_inv a' ∧
    stored a' = absorb (stored a) (resp_events resp) ∧
    frames = followup_frames (resp_conversation resp)
      (frame_prefix encoded_event_size missing (budget - SYNC_MARGIN) m)
      (budget - SYNC_MARGIN) m ∧
    NoDup (id <$> missing) ∧ causal (list_to_set (resp_have resp)) missing ∧
    ∀ e, e ∈ missing ↔ stored a' !! id e = Some e ∧
      conversation_id e = resp_conversation resp ∧ id e ∉ resp_have resp.
Proof.
  intros Ia Hb. destruct (apply_loop_accepts a c _ report_default Ia Hb) as (a' & Ha & Ia' & Hst).
  destruct (events_excluding_ok a' (resp_conversation resp) (list_to_set (resp_have resp)) Ia')
    as (es & Hex & Hnd & Hc & Hes).
  pose proof (events_excluding_bounded_ok a' _ _ (budget - SYNC_MARGIN) m es Ia' Hex) as Hbd.
  eexists a', _, _, es. unfold handle_response_bounded_burst, ingest_all, apply_received_events.
  rewrite Ha, Hbd. split_and!; try done. intros e. by rewrite Hes, elem_of_list_to_set.
Qed.

(** With one frame the packed follow-up is the selected prefix itself. *)
Lemma single_followup c (es : list Event) budget :
  (budget < usize_max)%N →
  let sel := frame_prefix encoded_event_size es budget 1 in
  fu_events (default (MkSyncFollowup c []) (last (followup_frames c sel budget 1))) = sel.
Proof.
  intros Hb sel. destruct (followup_loop_spec c budget 1 es [] [] 0 Hb) as (Hj & _ & Hl);
    [simpl; lia|by left|constructor|].
  cbn [length fmap list_fmap mjoin list_join app] in Hj. rewrite bool_decide_false in Hj, Hl by naive_solver.
  cbn [length] in Hl. change (frame_prefix_loop encoded_event_size budget 1 0 0 false es) with sel in Hj, Hl.
  fold (followup_frames c sel budget 1) in Hj, Hl.
  destruct (followup_frames c sel budget 1) as [|f [|]]; simpl in *; [done| |lia].
  by rewrite app_nil_r in Hj.
Qed.

Lemma handle_response_applied a (resp : SyncResponse) c budget :
  sync_inv a → batch_ok (stored a) c (resp_events resp) → (budget ≤ usize_max)%N →
  ∃ a' fu missing,
    handle_response_bounded a resp budget =
      (a', Ok (MkReport (length (resp_events resp)) 0 [], fu)) ∧ sync_inv a' ∧
    stored a' = absorb (stored a) (resp_events resp) ∧
    fu_events fu = frame_prefix encoded_event_size missing (budget - SYNC_MARGIN) 1 ∧
    NoDup (id <$> missing) ∧ causal (list_to_set (resp_have resp)) missing ∧
    ∀ e, e ∈ missing ↔ stored a' !! id e = Some e ∧
      conversation_id e = resp_conversation resp ∧ id e ∉ resp_have resp.
Proof.
  intros Ia Hb Hle.
  destruct (response_applied a resp c budget 1 Ia Hb)
    as (a' & rep & fr & missing & Hr & -> & Ia' & Hst & -> & Hrest).
  unfold handle_response_bounded. rewrite Hr. eexists a', _, missing.
  split; [done|]. split; [done|]. split; [done|]. split; [|done].
  apply single_followup. assert (SYNC_MARGIN = 256%N) by done. assert (0 < usize_max)%N by done. lia.
Qed.
Lemma absorbed_lookup a b c es i e :
  batch_ok (stored a) c es →
  (∀ e, e ∈ es ↔ stored b !! id e = Some e ∧ conversation_id e = c ∧
     ¬ in_conv (stored a) c (id e)) →
  compatible (stored a) (stored b) c → sync_inv b →
  absorb (stored a) es !! i = Some e ↔
  stored a !! i = Some e ∨ (stored b !! i = Some e ∧ conversation_id e = c).
Proof.
  intros Hb Hes [Hcoll _] Ib. rewrite absorb_lookup by (destruct Hb; auto). rewrite Hes.
  split; [naive_solver|]. intros [?|[Hi Hc]]; [by left|].
  destruct (stored a !! i) as [e'|] eqn:He'.
  - left. by rewrite (Hcoll _ _ _ He' Hi Hc).
  - right. destruct (stored_valid b _ _ Ib Hi) as [<- _].
    split_and!; try done. intros (e' & ? & _). congruence.
Qed.

Lemma compatible_absorb a b c sent :
  sync_inv b → compatible (stored a) (stored b) c → batch_ok (stored a) c sent →
  (∀ e, e ∈ sent → stored b !! id e = Some e) →
  compatible (absorb (stored a) sent) (stored b) c.
Proof.
  intros Ib [Hcoll Hslot] Hb Hsent. destruct Hb as [_ _ Hids Hnew _ _]. split.
  - intros i e1 e2 [Hi1|[Hin <-]]%absorb_lookup Hi2 Hc; [eauto| |done..].
    apply Hsent in Hin. congruence.
  - intros i1 i2 e1 e2 [Hi1|[Hin <-]]%absorb_lookup Hi2 Hc Hs; [eauto| |done..].
    apply Hsent in Hin. pose proof (stored_slots b _ _ _ _ Ib Hi2 Hin Hs) as ->. congruence.
Qed.
End exchange_facts.

(** ** Properties *)

Section convergence.
Context `{Crypto, Bincode EventContent, Bincode Event}.
Context `{!SyncStore A, !SyncStoreLaws A, !SyncStore B, !SyncStoreLaws B}.
Implicit Types (a : A) (b : B) (c : ConversationId).

Lemma reconcile_spec a b c :
  sync_inv a → sync_inv b →
  compatible (stored a) (stored b) c → compatible (stored b) (stored a) c →
  fits (stored a) c → fits (stored b) c →
  ∃ a' b' na nb,
    reconcile a b c = (a', b', Ok (MkReport na 0 [], MkReport nb 0 [])) ∧
    sync_inv a' ∧ sync_inv b' ∧
    (∀ i e, stored a' !! i = Some e ↔
       stored a !! i = Some e ∨ (stored b !! i = Some e ∧ conversation_id e = c)) ∧
    (∀ i e, stored b' !! i = Some e ↔
       stored b !! i = Some e ∨ (stored a !! i = Some e ∧ conversation_id e = c)).
Proof.
  intros Ia Ib Cab Cba Fa Fb.
  destruct (request_response a b c usize_max Ia Ib Cab)
    as (req & resp & missing & Hreq & Hresp & Hcv & Hhave & Hev & Hbatch & Hnd & Hmiss).
  rewrite frame_prefix_all in Hev; [|lia| |lia].
  2:{ eapply (fits_batch b c); [done..|]. intros e He. apply Hmiss in He. tauto. }
  destruct (handle_response_applied a resp c usize_max Ia Hbatch ltac:(done))
    as (a' & fu & back & Hra & Ia' & Sta & Hfu & Hndb & Hcb & Hback).
  assert (∀ i e, stored a' !! i = Some e ↔
    stored a !! i = Some e ∨ (stored b !! i = Some e ∧ conversation_id e = c)) as Ha'.
  { intros i e. rewrite Sta. apply absorbed_lookup; [done| |done|done]. by rewrite Hev. }
  assert (∀ e, e ∈ back ↔ stored a !! id e = Some e ∧ conversation_id e = c ∧
    ¬ in_conv (stored b) c (id e)) as Hback'.
  { intros e. rewrite Hback, Ha', Hcv, Hhave. unfold in_conv. naive_solver. }
  rewrite frame_prefix_all in Hfu; [|lia| |lia].
  2:{ eapply (fits_batch a c); [done..|]. intros e He. apply Hback' in He. tauto. }
  assert (batch_ok (stored b) c (fu_events fu)) as Hbb.
  { rewrite Hfu. apply (exported_batch_ok b a c (list_to_set (resp_have resp))); try done.
    - intros i. by rewrite elem_of_list_to_set.
    - intros e He. rewrite elem_of_list_to_set, Hhave. by apply Hback'. }
  destruct (apply_loop_accepts b c _ report_default Ib Hbb) as (b' & Hb' & Ib' & Stb).
  exists a', b', (length (resp_events resp)), (length (fu_events fu)).
  unfold reconcile. rewrite Hreq. unfold handle_request. rewrite Hresp.
  unfold handle_response. rewrite Hra. unfold handle_followup, ingest_all, apply_received_events.
  rewrite Hb'. split_and!; try done.
  intros i e. rewrite Stb. apply (absorbed_lookup); [done| |done|done].
  by rewrite Hfu.
Qed.

(** C2: One in-process reconciliation brings two stores to the same conversation:
    for any two stores that keep the interface's promises, hold compatible events
    and whose conversation fits a frame, it succeeds, rejects nothing, and each
    side ends with its own events plus all events of the other side in that
    conversation. *)
Theorem reconcile_converges a b c :
  sync_inv a → sync_inv b →
  compatible (stored a) (stored b) c → compatible (stored b) (stored a) c →
  fits (stored a) c → fits (stored b) c →
  ∃ a' b' na nb,
    reconcile a b c = (a', b', Ok (MkReport na 0 [], MkReport nb 0 [])) ∧
    sync_inv a' ∧ sync_inv b' ∧
    (∀ i e, stored a' !! i = Some e ↔
       stored a !! i = Some e ∨ (stored b !! i = Some e ∧ conversation_id e = c)) ∧
    (∀ i e, stored b' !! i = Some e ↔
       stored b !! i = Some e ∨ (stored a !! i = Some e ∧ conversation_id e = c)).
Proof. apply reconcile_spec. Qed.

(** One bounded pull, as the network session performs it round by round. *)
Definition pull_round (b : B) (c : ConversationId) (budget : N) (a : A) : A :=
  match build_request a c with
  | Ok req =>
      match handle_request_bounded b req budget with
      | Ok resp => (handle_response_bounded a resp budget).1
      | Err _ => a
      end
  | Err _ => a
  end.

Lemma pull_round_spec a b c budget :
  sync_inv a → sync_inv b → compatible (stored a) (stored b) c → (budget ≤ usize_max)%N →
  ∃ sent missing, sync_inv (pull_round b c budget a) ∧
    stored (pull_round b c budget a) = absorb (stored a) sent ∧
    sent `prefix_of` missing ∧ (missing ≠ [] → sent ≠ []) ∧
    batch_ok (stored a) c sent ∧
    ∀ e, e ∈ missing ↔ stored b !! id e = Some e ∧ conversation_id e = c ∧
      ¬ in_conv (stored a) c (id e).
Proof.
  intros Ia Ib Cab Hle.
  destruct (request_response a b c budget Ia Ib Cab)
    as (req & resp & missing & Hreq & Hresp & _ & _ & Hev & Hbatch & _ & Hmiss).
  destruct (handle_response_applied a resp c budget Ia Hbatch Hle)
    as (a' & fu & back & Hra & Ia' & Sta & _).
  exists (resp_events resp), missing. unfold pull_round. rewrite Hreq, Hresp, Hra. cbn [fst].
  split_and!; try done.
  - rewrite Hev. apply frame_prefix_prefix.
  - intros Hne. rewrite Hev. destruct missing as [|e es]; [done|].
    by destruct (frame_prefix_head encoded_event_size (budget - SYNC_MARGIN) 1 e es) as [? ->]; [lia|].
Qed.

Lemma pull_rounds_complete n a b c budget ids :
  sync_inv a → sync_inv b → compatible (stored a) (stored b) c → (budget ≤ usize_max)%N →
  (∀ i, i ∈ ids ↔ in_conv (stored b) c i) →
  length (filter (λ i, stored a !! i = None) ids) ≤ n →
  let a' := Nat.iter n (pull_round b c budget) a in
  sync_inv a' ∧ stored a ⊆ stored a' ∧
  ∀ i e, stored b !! i = Some e → conversation_id e = c → stored a' !! i = Some e.
Proof.
  intros Ia Ib Cab Hle Hids. revert a Ia Cab.
  assert (∀ a, compatible (stored a) (stored b) c →
    (∀ i, i ∈ ids → stored a !! i ≠ None) →
    ∀ i e, stored b !! i = Some e → conversation_id e = c → stored a !! i = Some e) as Hdone.
  { intros a [Hcoll _] Hall i e Hi Hc. destruct (stored a !! i) as [e'|] eqn:He'.
    - by rewrite (Hcoll _ _ _ He' Hi Hc).
    - exfalso. apply (Hall i); [|done]. apply Hids. by exists e. }
  induction n as [|n IH]; intros a Ia Cab Hn.
  - split; [done|]. split; [done|]. apply Hdone; [done|]. intros i Hi Hno.
    assert (i ∈ filter (λ i, stored a !! i = None) ids) as Hin by by apply list_elem_of_filter.
    destruct (filter _ ids); simpl in Hn; [set_solver|lia].
  - rewrite Nat.iter_succ_r.
    destruct (pull_round_spec a b c budget Ia Ib Cab Hle)
      as (sent & missing & Ia1 & St & [k Hk] & Hprog & Hbatch & Hmiss).
    assert (∀ e, e ∈ sent → stored b !! id e = Some e ∧ conversation_id e = c) as Hsent.
    { intros e He. assert (e ∈ missing) as Hm by (rewrite Hk; set_solver).
      apply Hmiss in Hm. tauto. }
    assert (stored a ⊆ stored (pull_round b c budget a)) as Hsub.
    { rewrite St. apply map_subseteq_spec. intros i e Hi. apply absorb_lookup; [by destruct Hbatch..|auto]. }
    destruct (IH (pull_round b c budget a)) as (Hinv & Hsub' & Hall); [done| | |].
    { rewrite St. apply compatible_absorb; try done. intros e He. by apply Hsent. }
    2:{ split; [done|]. split; [by etrans|done]. }
    destruct missing as [|e0 miss].
    + (* nothing was missing *)
      assert (filter (λ i, stored (pull_round b c budget a) !! i = None) ids = []) as ->; [|simpl; lia].
      apply filter_nil_iff. intros i (e & Hi & Hc)%Hids Hno.
      apply (lookup_weaken_None _ _ _ Hno) in Hsub.
      destruct (stored_valid b _ _ Ib Hi) as [Hid _].
      assert (e ∈ []) as Hin; [|set_solver]. apply Hmiss. rewrite Hid.
      split_and!; try done. intros (e' & ? & _). congruence.
    + destruct sent as [|e1 sent]; [by destruct Hprog|].
      destruct (Hsent e1 ltac:(set_solver)) as [Hs1 Hc1].
      assert (length (filter (λ i, stored (pull_round b c budget a) !! i = None) ids) <
        length (filter (λ i, stored a !! i = None) ids)); [|lia].
      apply (length_filter_lt _ _ _ (id e1)).
      * intros i Hi. by eapply lookup_weaken_None.
      * apply Hids. by exists e1.
      * apply (bo_new _ _ _ Hbatch). set_solver.
      * rewrite St. intros Hno. assert (absorb (stored a) (e1 :: sent) !! id e1 = Some e1); [|congruence].
        apply absorb_lookup; [by destruct Hbatch..|]. set_solver.
Qed.

End convergence.

Section gate.
Context `{Crypto, Bincode EventContent, Bincode Event}.

Lemma apply_loop_log l es rep :
  log_inv l →
  ∃ l' rep', apply_loop l es rep = (l', Ok rep') ∧ log_inv l' ∧ events l ⊆ events l' ∧
    (∀ i e, events l' !! i = Some e → events l !! i = Some e ∨ (e ∈ es ∧ event_valid e)) ∧
    applied rep' = applied rep + (size (events l') - size (events l)) ∧
    (length (rejected rep) ≤ MAX_REJECTED_DETAIL → length (rejected rep') ≤ MAX_REJECTED_DETAIL) ∧
    applied rep' + duplicates rep' + length (rejected rep') ≤
      applied rep + duplicates rep + length (rejected rep) + length es.
Proof.
  revert l rep. induction es as [|e es IH]; intros l rep Hinv.
  { exists l, rep. cbn [apply_loop length]. split_and!; try done; [auto|lia..]. }
  cbn [apply_loop ingest EventLog_SyncStore]. pose proof (append_inv l e Hinv) as Hinv'.
  pose proof (ingest_mono l e Hinv) as Hmono. cbn [ingest EventLog_SyncStore stored EventLog_SyncStoreLaws] in Hmono.
  unfold append in *. pose proof (validate_cases l e) as Hc.
  destruct (validate l e) as [[]|err] eqn:Hval; cbn [fst] in *.
  - destruct Hc as (Hv & Hnew & _).
    destruct (IH (index_trusted l e) (MkReport (S (applied rep)) (duplicates rep) (rejected rep)) Hinv')
      as (l' & rep' & Hl & Hi' & Hsub & Hev & Happ & Hrej & Hcnt).
    exists l', rep'. cbn [applied duplicates rejected length] in *. rewrite events_index_trusted in *.
    assert (size (<[id e:=e]> (events l)) = S (size (events l))) as Hsz by by apply map_size_insert_None.
    apply map_subseteq_size in Hsub as Hle. rewrite Hsz in *.
    split_and!; try done; [by etrans| |lia|lia].
    intros i e' [[[<- <-]|[_ ?]]%lookup_insert_Some|[? ?]]%Hev; [right|by left|right]; set_solver.
  - destruct (IH l (MkReport (applied rep) (S (duplicates rep)) (rejected rep)) Hinv)
      as (l' & rep' & Hl & Hi' & Hsub & Hev & Happ & Hrej & Hcnt).
    exists l', rep'. cbn [applied duplicates rejected length] in *. split_and!; try done; [|lia].
    intros i e' [?|[? ?]]%Hev; [by left|right]; set_solver.
  - assert (is_peer_rejection err = true) as -> by by destruct err.
    destruct (IH l (note_rejected rep (id e) err) Hinv)
      as (l' & rep' & Hl & Hi' & Hsub & Hev & Happ & Hrej & Hcnt).
    exists l', rep'. unfold note_rejected in *. split_and!; try done.
    + intros i e' [?|[? ?]]%Hev; [by left|right]; set_solver.
    + rewrite Happ. by case_decide.
    + intros Hr. apply Hrej. case_decide; [|done]. cbn [rejected]. rewrite length_app. simpl. lia.
    + case_decide; cbn [applied duplicates rejected length] in *; rewrite ?length_app in *; simpl in *; lia.
Qed.

(** C26: A hostile batch cannot hurt the log: whatever events arrive, applying them
    never aborts, keeps the invariant and every stored event, adds only valid
    events of the batch, counts exactly the added ones, and keeps at most 64
    rejection details. *)
Theorem apply_received_safe l es :
  log_inv l →
  ∃ l' rep, apply_received_events l es = (l', Ok rep) ∧ log_inv l' ∧
    events l ⊆ events l' ∧
    (∀ i e, events l' !! i = Some e → events l !! i = Some e ∨ (e ∈ es ∧ event_valid e)) ∧
    applied rep = size (events l') - size (events l) ∧
    length (rejected rep) ≤ MAX_REJECTED_DETAIL ∧
    applied rep + duplicates rep + length (rejected rep) ≤ length es.
Proof.
  intros Hinv.
  destruct (apply_loop_log l es report_default Hinv) as (l' & rep & Hl & ? & ? & ? & ? & Hr & ?).
  exists l', rep. split_and!; try done. apply Hr. simpl. lia.
Qed.

(** The indexed protocol flags of the log are the scan of the visible events
    that the trait's provided methods perform. *)
Lemma requires_channel_scan l c :
  log_inv l →
  default_requires_channel_v2 l c = Ok (requires_channel_v2 l c) ∧
  default_requires_channel_v3 l c = Ok (requires_channel_v3 l c) ∧
  default_requires_channel_v4 l c = Ok (requires_channel_v4 l c) ∧
  default_requires_channel_v5 l c = Ok (requires_channel_v5 l c).
Proof.
  intros Hinv.
  assert (∀ ks (s : gset ConversationId), (c ∈ s ↔ of_kinds l c ks) →
    scan_kinds l c ks = Ok (bool_decide (c ∈ s))) as Hscan.
  { intros ks s Hs. unfold scan_kinds.
    assert (sync_inv l) as Hl by exact Hinv.
    destruct (events_excluding_ok l c ∅ Hl) as (es & -> & _ & _ & Hes).
    cbn [mbind result_bind]. f_equal. apply eq_bool_prop_intro.
    rewrite bool_decide_spec, Hs, Is_true_true, existsb_exists.
    unfold of_kinds, some_event. split.
    - intros (e & He & Hk). apply bool_decide_eq_true in Hk. apply list_elem_of_In, Hes in He.
      naive_solver.
    - intros (i & e & Hi & Hc & Hk). exists e. split; [|by apply bool_decide_eq_true].
      apply list_elem_of_In, Hes. destruct (stored_valid l _ _ Hl Hi) as [Hid _].
      rewrite Hid. split; [exact Hi|set_solver]. }
  split_and!; apply Hscan; apply Hinv.
Qed.
End gate.

Section wire.
Context `{Crypto, Bincode EventContent, Bincode Event}.

Lemma mjoin_fixed_inj n (l1 l2 : list bytes) :
  0 < n → Forall (λ x, length x = n) l1 → Forall (λ x, length x = n) l2 →
  mjoin l1 = mjoin l2 → l1 = l2.
Proof.
  intros Hn F1. revert l2. induction F1 as [|x l1 Hx F1 IH]; intros l2 F2 Heq.
  - destruct F2 as [|y l2 Hy]; [done|]. apply (f_equal length) in Heq. simpl in Heq.
    rewrite length_app in Heq. lia.
  - destruct F2 as [|y l2 Hy F2].
    { apply (f_equal length) in Heq. simpl in Heq. rewrite length_app in Heq. lia. }
    apply app_inj_1 in Heq as [-> Heq]; [|congruence]. f_equal. by apply IH.
Qed.

(** The fingerprint of an id set does not depend on the order in which the
    store lists it; and two sets of 32-byte ids with one fingerprint are equal, or
    exhibit a SHA-256 collision. *)
Lemma fingerprint_set (ids1 ids2 : list EventId) :
  NoDup ids1 → NoDup ids2 →
  Forall (λ i, length i = 32) ids1 → Forall (λ i, length i = 32) ids2 →
  (ids1 ≡ₚ ids2 → fingerprint ids1 = fingerprint ids2) ∧
  (fingerprint ids1 = fingerprint ids2 →
     ids1 ≡ₚ ids2 ∨ ∃ m1 m2 : bytes, m1 ≠ m2 ∧ sha256 m1 = sha256 m2).
Proof.
  intros Hn1 Hn2 Hf1 Hf2. unfold fingerprint. split.
  - intros Hp. by rewrite (sort_perm_eq ids1 ids2).
  - intros Heq. destruct (decide (mjoin (sort ids1) = mjoin (sort ids2))) as [E|E].
    + left. rewrite <-(sort_perm ids1), <-(sort_perm ids2).
      apply (mjoin_fixed_inj 32) in E as ->; [done|lia|..]; by rewrite sort_perm.
    + right. do 2 eexists. split; [|exact Heq]. intros [_ ?]%app_inj_1; [done|].
      by rewrite !length_le_bytes.
Qed.

(** The burst of follow-up frames sends exactly the bounded selection of the
    missing events, in order, in at most [max_frames] frames, each within the
    budget unless it holds a single oversized event; and the selection is a
    prefix that is empty only if nothing is missing. *)
Lemma followup_burst c budget max_frames missing :
  (budget < usize_max)%N → 0 < max_frames →
  let sel := frame_prefix encoded_event_size missing budget max_frames in
  let frames := followup_frames c sel budget max_frames in
  mjoin (fu_events <$> frames) = sel ∧ length frames ≤ max_frames ∧
  sel `prefix_of` missing ∧ (missing ≠ [] → sel ≠ []) ∧
  ∀ f, f ∈ frames → fu_conversation f = c ∧ fu_events f ≠ [] ∧
    (length (fu_events f) = 1 ∨ (total_size encoded_event_size (fu_events f) ≤ budget)%N).
Proof.
  intros Hb Hm sel frames.
  destruct (followup_loop_spec c budget max_frames missing [] [] 0 Hb) as (Hj & Hok & Hl);
    [simpl; lia|by left|constructor|].
  rewrite bool_decide_false in Hj, Hok, Hl by naive_solver.
  split_and!; [exact Hj|exact Hl|apply frame_prefix_prefix| |].
  - intros Hne. destruct missing as [|e es]; [done|]. unfold sel.
    by destruct (frame_prefix_head encoded_event_size budget max_frames e es Hm) as [? ->].
  - intros f Hf. cbn [length] in Hok. rewrite Forall_forall in Hok. by apply Hok.
Qed.


(** Page budgets: a scan limit is accepted exactly for 1 up to [i64::MAX - 1]
    rows and then asks for one row more, without overflow; an id page accepts
    exactly 1 to 1500 ids within its scan; rows are never promised beyond the
    byte budget. *)
Lemma page_budget_bounds :
  (∀ examined n, scan_limit examined = Ok n ↔
     (0 < examined ∧ examined < i64_max ∧ n = examined + 1)%N) ∧
  (∀ b, id_page_validate b = Ok () ↔
     (0 < page_ids b ∧ page_ids b ≤ 1500 ∧ page_ids b ≤ page_examined b ∧
      page_examined b < i64_max)%N) ∧
  (∀ b row n, (0 < row)%N → rows_for b row = Ok n →
     (n ≤ prep_rows b ∧ n * row ≤ prep_bytes b)%N).
Proof.
  assert (∀ examined n, scan_limit examined = Ok n ↔
    (0 < examined ∧ examined < i64_max ∧ n = examined + 1)%N) as Hscan.
  { intros x n. unfold scan_limit. repeat case_decide; try (split; [done|lia]).
    rewrite ok_or_Ok, checked_add_Some. lia. }
  split; [done|]. split.
  - intros b. unfold id_page_validate. case_decide; [split; [done|lia]|].
    destruct (scan_limit (page_examined b)) as [n|] eqn:E; cbn [mbind result_bind].
    + apply Hscan in E. split; [lia|done].
    + split; [done|]. intros (? & ? & ? & ?).
      assert (scan_limit (page_examined b) = Ok (page_examined b + 1)%N); [|congruence].
      apply Hscan. lia.
  - intros b row n Hrow. unfold rows_for, rows_for_bytes. case_decide; [done|].
    cbn [mbind result_bind]. intros [= <-]. split; [lia|].
    pose proof (N.Div0.mul_div_le (prep_bytes b) row). nia.
Qed.
End wire.

(** Two replicas that diverged after a common root. *)
Module SyncWitness.
Import ToyCrypto EventCodec EventWitness StoreWitness.

Definition left_log : EventLog := append_all empty_log [root; left_reply].
Definition right_log : EventLog := append_all empty_log [root; right_reply].

Lemma left_inv : log_inv left_log.
Proof. apply append_all_inv, empty_log_inv. Qed.
Lemma right_inv : log_inv right_log.
Proof. apply append_all_inv, empty_log_inv. Qed.
Lemma left_right : compatible (events left_log) (events right_log) room.
Proof. by_evaluation. Qed.
Lemma right_left : compatible (events right_log) (events left_log) room.
Proof. by_evaluation. Qed.
Lemma left_fits : fits (events left_log) room.
Proof. unfold fits. vm_compute. discriminate. Qed.
Lemma right_fits : fits (events right_log) room.
Proof. unfold fits. vm_compute. discriminate. Qed.

Lemma reconcile_witness : ∃ a' b' na nb,
  reconcile left_log right_log room = (a', b', Ok (MkReport na 0 [], MkReport nb 0 [])).
Proof.
  destruct (reconcile_converges (A:=EventLog) (B:=EventLog) left_log right_log room)
    as (a' & b' & na & nb & Hr & _);
    [exact left_inv|exact right_inv|exact left_right|exact right_left
    |exact left_fits|exact right_fits|].
  exists a', b', na, nb. exact Hr.
Defined.


Lemma received_safe_witness : ∃ l' rep,
  apply_received_events left_log [hello; right_reply; root] = (l', Ok rep) ∧
  length (rejected rep) ≤ 64.
Proof.
  destruct (apply_received_safe left_log [hello; right_reply; root] left_inv)
    as (l' & rep & Hl & _ & _ & _ & _ & Hr & _).
  exists l', rep. split; [exact Hl|exact Hr].
Defined.

End SyncWitness.
