(* ===== verification/Ratchet.v ===== *)
(** * The Double Ratchet

    Models crates/mesh-talk-core/src/ratchet/kdf.rs and ratchet/state.rs.  The
    random ratchet key a step may generate is the argument [fresh].  The counters
    are [u32] values in [N]; [ns += 1] and [nr += 1] wrap, as in a release build.
    Zeroizing has no observable effect and is left out. *)

From S2P Require Import Prelude Crypto Bincode.

(** ** Key schedule *)

Section kdf.
Context `{Crypto}.

Definition kdf_rk (rk dh_out : bytes) : bytes * bytes :=
  let okm := hkdf_sha256 (Some rk) dh_out (str "MeshTalk-Ratchet-RK") 64 in
  (take 32 okm, drop 32 okm).

Definition kdf_ck (ck : bytes) : bytes * bytes :=
  let okm := hkdf_sha256 (Some ck) [] (str "MeshTalk-Ratchet-CK") 64 in
  (take 32 okm, drop 32 okm).

Definition message_keys (mk : bytes) : bytes * bytes :=
  let okm := hkdf_sha256 (Some mk) [] (str "MeshTalk-Ratchet-MSG") 44 in
  (take 32 okm, drop 32 okm).
End kdf.
#[global] Arguments kdf_rk : simpl never.
#[global] Arguments kdf_ck : simpl never.
#[global] Arguments message_keys : simpl never.

(** ** State *)

Definition MAX_SKIP : N := 1000.
Definition MAX_SKIPPED_TOTAL : nat := 2000.

Inductive RatchetError := Decrypt | TooManySkipped | NotInitializedForSend | Malformed.

#[global] Instance RatchetError_eq_dec : EqDecision RatchetError.
Proof. solve_decision. Defined.

Record Header := MkHeader {
  ratchet_pub : bytes;
  h_pn : N;
  h_n : N
}.

#[global] Instance Header_eq_dec : EqDecision Header.
Proof. solve_decision. Defined.

#[global] Instance Header_wf : TypeWf Header := λ h,
  length (ratchet_pub h) = 32 ∧ (h_pn h ≤ u32_max)%N ∧ (h_n h ≤ u32_max)%N.

Abbreviation SkippedKey := (bytes * N)%type.

Record RatchetState := MkRatchet {
  dhs_secret : bytes;
  dhs_public : bytes;
  dhr : option bytes;
  rk : bytes;
  cks : option bytes;
  ckr : option bytes;
  ns : N;
  nr : N;
  pn : N;
  skipped : gmap SkippedKey bytes;
  skipped_order : list SkippedKey
}.

#[global] Instance RatchetState_eq_dec : EqDecision RatchetState.
Proof. solve_decision. Defined.

(** Updates of the receiving half and of the buffer. *)
Definition set_skipped (st : RatchetState) (sk : gmap SkippedKey bytes)
    (order : list SkippedKey) : RatchetState :=
  MkRatchet (dhs_secret st) (dhs_public st) (dhr st) (rk st) (cks st) (ckr st)
    (ns st) (nr st) (pn st) sk order.
Definition set_receiving (st : RatchetState) (ck : option bytes) (n : N) : RatchetState :=
  MkRatchet (dhs_secret st) (dhs_public st) (dhr st) (rk st) (cks st) ck
    (ns st) n (pn st) (skipped st) (skipped_order st).
Definition set_sending (st : RatchetState) (ck : option bytes) (n : N) : RatchetState :=
  MkRatchet (dhs_secret st) (dhs_public st) (dhr st) (rk st) ck (ckr st)
    n (nr st) (pn st) (skipped st) (skipped_order st).

Section state.
Context `{Crypto, Bincode Header}.

Definition dh (secret public : bytes) : bytes := x25519 secret public.

Definition header_encode (h : Header) : bytes := ser h.
Definition header_decode (bs : bytes) : option Header := de bs.

Definition aead_encrypt (mk plaintext aad : bytes) : result RatchetError bytes :=
  let '(key, nonce) := message_keys mk in
  ok_or (aes_gcm_encrypt key nonce aad plaintext) Decrypt.

Definition aead_decrypt (mk ciphertext aad : bytes) : result RatchetError bytes :=
  let '(key, nonce) := message_keys mk in
  ok_or (aes_gcm_decrypt key nonce aad ciphertext) Decrypt.

Definition init_alice (fresh shared_secret bob_ratchet_pub : bytes) : RatchetState :=
  let '(rk, cks) := kdf_rk shared_secret (dh fresh bob_ratchet_pub) in
  {| dhs_secret := fresh; dhs_public := x25519_public fresh;
     dhr := Some bob_ratchet_pub; rk := rk; cks := Some cks; ckr := None;
     ns := 0; nr := 0; pn := 0; skipped := ∅; skipped_order := [] |}.

Definition init_bob (shared_secret bob_ratchet_secret : bytes) : RatchetState :=
  {| dhs_secret := bob_ratchet_secret; dhs_public := x25519_public bob_ratchet_secret;
     dhr := None; rk := shared_secret; cks := None; ckr := None;
     ns := 0; nr := 0; pn := 0; skipped := ∅; skipped_order := [] |}.

Definition has_receiving_chain (st : RatchetState) : bool := bool_decide (is_Some (ckr st)).

Definition ratchet_public (st : RatchetState) : bytes := dhs_public st.

Definition ratchet_encrypt (st : RatchetState) (plaintext : bytes) :
    RatchetState * result RatchetError (Header * bytes) :=
  match cks st with
  | None => (st, Err NotInitializedForSend)
  | Some ck =>
      let '(cks2, mk) := kdf_ck ck in
      let header := MkHeader (dhs_public st) (pn st) (ns st) in
      let st := set_sending st (Some cks2) (wrapping_add u32_max (ns st) 1) in
      match aead_encrypt mk plaintext (header_encode header) with
      | Err e => (st, Err e)
      | Ok ct => (st, Ok (header, ct))
      end
  end.

(** The eviction loop: oldest first, while the buffer exceeds its cap. *)
Fixpoint evict (order : list SkippedKey) (sk : gmap SkippedKey bytes) :
    list SkippedKey * gmap SkippedKey bytes :=
  match order with
  | [] => ([], sk)
  | old :: rest =>
      if decide (MAX_SKIPPED_TOTAL < size sk) then evict rest (delete old sk)
      else (order, sk)
  end.

(** [count] rounds of the skipping loop on the chain key [ck]. *)
Fixpoint skip_loop (count : nat) (d ck : bytes) (st : RatchetState) :
    bytes * RatchetState :=
  match count with
  | O => (ck, st)
  | S count =>
      let '(ck2, mk) := kdf_ck ck in
      let '(order, sk) :=
        evict (skipped_order st ++ [(d, nr st)]) (<[(d, nr st) := mk]> (skipped st)) in
      skip_loop count d ck2
        (set_receiving (set_skipped st sk order) (ckr st) (nr st + 1))
  end.

(** The [expect] on [dhr] cannot fire: [ckr] is set only together with [dhr]
    ([ratchet_inv] below); the unreachable case answers [Malformed]. *)
Definition skip_message_keys (st : RatchetState) (until : N) :
    RatchetState * result RatchetError () :=
  match ckr st with
  | None => (st, Ok ())
  | Some ck =>
      if decide (until < nr st)%N then (st, Ok ())
      else if decide (MAX_SKIP < until - nr st)%N then (st, Err TooManySkipped)
      else
        match dhr st with
        | None => (st, Err Malformed)
        | Some d =>
            let '(ck, st) := skip_loop (N.to_nat (until - nr st)) d ck st in
            (set_receiving st (Some ck) (nr st), Ok ())
        end
  end.

Definition dh_ratchet (fresh : bytes) (st : RatchetState) (header_pub : bytes) :
    RatchetState :=
  let '(rk2, ckr) := kdf_rk (rk st) (dh (dhs_secret st) header_pub) in
  let '(rk3, cks) := kdf_rk rk2 (dh fresh header_pub) in
  {| dhs_secret := fresh; dhs_public := x25519_public fresh;
     dhr := Some header_pub; rk := rk3; cks := Some cks; ckr := Some ckr;
     ns := 0; nr := 0; pn := ns st;
     skipped := skipped st; skipped_order := skipped_order st |}.

(** Steps 3 and 4: skip to the message in the current chain, derive its key. *)
Definition decrypt_in_chain (st : RatchetState) (header : Header) (ciphertext : bytes) :
    RatchetState * result RatchetError bytes :=
  match skip_message_keys st (h_n header) with
  | (st, Err e) => (st, Err e)
  | (st, Ok _) =>
      match ckr st with
      | None => (st, Err Malformed)
      | Some ck =>
          let '(ckr2, mk) := kdf_ck ck in
          (set_receiving st (Some ckr2) (wrapping_add u32_max (nr st) 1),
           aead_decrypt mk ciphertext (header_encode header))
      end
  end.

Definition ratchet_decrypt (fresh : bytes) (st : RatchetState) (header : Header)
    (ciphertext : bytes) : RatchetState * result RatchetError bytes :=
  let key := (ratchet_pub header, h_n header) in
  match skipped st !! key with
  | Some mk =>
      (set_skipped st (delete key (skipped st)) (filter (λ k, k ≠ key) (skipped_order st)),
       aead_decrypt mk ciphertext (header_encode header))
  | None =>
      if decide (dhr st = Some (ratchet_pub header))
      then decrypt_in_chain st header ciphertext
      else
        match skip_message_keys st (h_pn header) with
        | (st, Err e) => (st, Err e)
        | (st, Ok _) =>
            decrypt_in_chain (dh_ratchet fresh st (ratchet_pub header)) header ciphertext
        end
  end.
End state.

(** ** At rest *)

Record RatchetWire := MkWire {
  w_dhs_secret : bytes;
  w_dhr : option bytes;
  w_rk : bytes;
  w_cks : option bytes;
  w_ckr : option bytes;
  w_ns : N;
  w_nr : N;
  w_pn : N;
  w_skipped : list (bytes * N * bytes)
}.

Definition opt_len (n : nat) (o : option bytes) : Prop :=
  match o with Some b => length b = n | None => True end.

#[global] Instance RatchetWire_wf : TypeWf RatchetWire := λ w,
  length (w_dhs_secret w) = 32 ∧ opt_len 32 (w_dhr w) ∧ length (w_rk w) = 32 ∧
  opt_len 32 (w_cks w) ∧ opt_len 32 (w_ckr w) ∧
  (w_ns w ≤ u32_max)%N ∧ (w_nr w ≤ u32_max)%N ∧ (w_pn w ≤ u32_max)%N ∧
  (N.of_nat (length (w_skipped w)) ≤ u64_max)%N ∧
  Forall (λ '(p, n, mk), length p = 32 ∧ (n ≤ u32_max)%N ∧ length mk = 32) (w_skipped w).

Section wire.
Context `{Crypto, Bincode RatchetWire}.

Definition ratchet_wire (st : RatchetState) : RatchetWire := {|
  w_dhs_secret := dhs_secret st;
  w_dhr := dhr st;
  w_rk := rk st;
  w_cks := cks st;
  w_ckr := ckr st;
  w_ns := ns st;
  w_nr := nr st;
  w_pn := pn st;
  w_skipped := omap (λ key, (λ mk, (key.1, key.2, mk)) <$> skipped st !! key)
                 (skipped_order st)
|}.

Definition ratchet_serialize (st : RatchetState) : bytes := ser (ratchet_wire st).

Definition ratchet_unwire (w : RatchetWire) : RatchetState := {|
  dhs_secret := w_dhs_secret w;
  dhs_public := x25519_public (w_dhs_secret w);
  dhr := w_dhr w;
  rk := w_rk w;
  cks := w_cks w;
  ckr := w_ckr w;
  ns := w_ns w;
  nr := w_nr w;
  pn := w_pn w;
  skipped := foldl (λ m e, <[e.1 := e.2]> m) ∅ (w_skipped w);
  skipped_order := (w_skipped w).*1
|}.

Definition ratchet_deserialize (bs : bytes) : option RatchetState :=
  ratchet_unwire <$> de bs.
End wire.

(** ** Chains *)

Section chain.
Context `{Crypto}.

(** The chain key after [n] steps, and the message key of step [n]. *)
Fixpoint chain (ck : bytes) (n : nat) : bytes :=
  match n with O => ck | S n => chain (kdf_ck ck).1 n end.

Definition mk_at (ck : bytes) (n : N) : bytes := (kdf_ck (chain ck (N.to_nat n))).2.

Lemma chain_add ck n m : chain ck (n + m) = chain (chain ck n) m.
Proof. revert ck. induction n as [|n IH]; intros ck; [done|]. apply IH. Qed.

Lemma chain_S ck n : chain ck (S n) = (kdf_ck (chain ck n)).1.
Proof. rewrite <-Nat.add_1_r, chain_add. done. Qed.

Lemma mk_at_chain ck n m : mk_at (chain ck (N.to_nat n)) m = mk_at ck (n + m).
Proof. unfold mk_at. by rewrite N2Nat.inj_add, chain_add. Qed.
End chain.

(** ** The buffer of skipped keys *)

Lemma evict_noop order sk : size sk ≤ MAX_SKIPPED_TOTAL → evict order sk = (order, sk).
Proof. destruct order; [done|]. cbn [evict]. by case_decide; [lia|]. Qed.

Lemma evict_spec order sk order' sk' :
  evict order sk = (order', sk') → (∀ k, k ∈ dom sk → k ∈ order) →
  (∀ k, k ∈ dom sk' → k ∈ order') ∧ size sk' ≤ MAX_SKIPPED_TOTAL ∧ sk' ⊆ sk ∧
  order' `suffix_of` order.
Proof.
  revert sk. induction order as [|old rest IH]; intros sk; cbn [evict].
  - intros [= <- <-] Hdom. split_and!; try done.
    assert (sk = ∅) as -> by (apply dom_empty_inv_L, set_eq; set_solver).
    rewrite map_size_empty. lia.
  - case_decide as Hs.
    + intros He Hdom. apply IH in He as (? & ? & ? & ?); [|set_solver].
      split_and!; try done; [|by apply suffix_cons_r].
      etrans; [done|]. apply delete_subseteq.
    + intros [= <- <-] Hdom. split_and!; [done|lia|done|done].
Qed.

Section buffer.
Context `{Crypto, Bincode Header}.

Lemma size_insert_le {V} (m : gmap SkippedKey V) k v : size (<[k := v]> m) ≤ S (size m).
Proof.
  rewrite map_size_insert. destruct (m !! k); simpl; lia.
Qed.

(** The loop, as long as the buffer has room: the keys of the chain are stored one
    by one under consecutive numbers, and nothing else moves. *)
Lemma skip_loop_room count d ck st :
  size (skipped st) + count ≤ MAX_SKIPPED_TOTAL →
  let r := skip_loop count d ck st in
  r.1 = chain ck count ∧
  r.2 = set_receiving (set_skipped st (skipped r.2)
          (skipped_order st ++ ((λ k, (d, nr st + N.of_nat k)%N) <$> seq 0 count)))
          (ckr st) (nr st + N.of_nat count) ∧
  size (skipped r.2) ≤ size (skipped st) + count ∧
  ∀ p k, skipped r.2 !! (p, k) =
    if decide (p = d ∧ nr st ≤ k ∧ k < nr st + N.of_nat count)%N
    then Some (mk_at ck (k - nr st)) else skipped st !! (p, k).
Proof.
  revert ck st. induction count as [|count IH]; intros ck st Hsz; cbn [skip_loop].
  - cbn [fst snd chain]. split_and!; [done| |lia|].
    + destruct st; cbn. rewrite app_nil_r, N.add_0_r. done.
    + intros p k. rewrite decide_False by lia. done.
  - destruct (kdf_ck ck) as [ck2 mk] eqn:Hk.
    pose proof (size_insert_le (skipped st) (d, nr st) mk) as Hins.
    rewrite evict_noop by lia.
    destruct (IH ck2 (set_receiving (set_skipped st (<[(d, nr st):=mk]> (skipped st))
      (skipped_order st ++ [(d, nr st)])) (ckr st) (nr st + 1))) as (E1 & E2 & E3 & E4).
    { cbn [skipped set_receiving set_skipped]. lia. }
    set (r := skip_loop _ _ _ _) in *. cbn [skipped set_receiving set_skipped nr skipped_order ckr] in *.
    split_and!.
    + rewrite E1. cbn [chain]. by rewrite Hk.
    + rewrite E2. cbn. unfold set_receiving, set_skipped; cbn. f_equal; [lia|].
      rewrite <-app_assoc. f_equal. rewrite <-fmap_S_seq, <-list_fmap_compose. cbn.
      f_equal; [f_equal; lia|]. apply list_fmap_ext. intros i x _. cbn. f_equal. lia.
    + lia.
    + intros p k. rewrite E4. destruct (decide (p = d ∧ k = nr st)) as [[-> ->]|Hne].
      * rewrite decide_False by lia. rewrite lookup_insert_eq, decide_True by (split; [done|lia]).
        rewrite N.sub_diag. unfold mk_at. change (N.to_nat 0) with 0. cbn [chain]. by rewrite Hk.
      * rewrite lookup_insert_ne by naive_solver.
        destruct (decide (p = d ∧ nr st ≤ k ∧ k < nr st + N.of_nat (S count))%N) as [[-> Hk2]|Hno].
        -- assert (nr st ≠ k) by naive_solver. rewrite decide_True by (split; [done|lia]). f_equal.
           unfold mk_at. replace (N.to_nat (k - nr st)) with (S (N.to_nat (k - (nr st + 1)))) by lia.
           cbn [chain]. by rewrite Hk.
        -- rewrite decide_False; [done|]. intros [-> ?]. apply Hno. split; [done|lia].
Qed.

(** [st'] differs from [st] in the receiving chain and the buffer only. *)
Record same_sender (st st' : RatchetState) : Prop := {
  ss_secret : dhs_secret st' = dhs_secret st;
  ss_public : dhs_public st' = dhs_public st;
  ss_dhr : dhr st' = dhr st;
  ss_rk : rk st' = rk st;
  ss_cks : cks st' = cks st;
  ss_ns : ns st' = ns st;
  ss_pn : pn st' = pn st
}.

(** The buffer after storing the keys [from, until) of the chain [ck] of [d]. *)
Definition stored_keys (sk sk' : gmap SkippedKey bytes) (d ck : bytes) (from until : N) : Prop :=
  ∀ p k, sk' !! (p, k) =
    if decide (p = d ∧ from ≤ k ∧ k < until)%N then Some (mk_at ck (k - from))
    else sk !! (p, k).

Lemma skip_message_keys_room st until ck d :
  ckr st = Some ck → dhr st = Some d → (until - nr st ≤ MAX_SKIP)%N →
  size (skipped st) + N.to_nat (until - nr st) ≤ MAX_SKIPPED_TOTAL →
  ∃ st', skip_message_keys st until = (st', Ok ()) ∧ same_sender st st' ∧
    nr st' = N.max (nr st) until ∧ ckr st' = Some (chain ck (N.to_nat (until - nr st))) ∧
    size (skipped st') ≤ size (skipped st) + N.to_nat (until - nr st) ∧
    stored_keys (skipped st) (skipped st') d ck (nr st) until.
Proof.
  intros Hck Hd Hmax Hroom. unfold skip_message_keys. rewrite Hck.
  destruct (decide (until < nr st)%N) as [Hlt|Hge].
  { exists st. replace (until - nr st)%N with 0%N by lia. split_and!; try done; [lia..|].
    intros p k. rewrite decide_False; [done|]. lia. }
  rewrite decide_False by lia. rewrite Hd.
  destruct (skip_loop_room (N.to_nat (until - nr st)) d ck st) as (E1 & E2 & E3 & E4); [lia|].
  destruct (skip_loop _ d ck st) as [ck' st']. cbn [fst snd] in *. subst ck'.
  eexists. split; [done|]. rewrite N2Nat.id in *.
  replace (nr st + (until - nr st))%N with until in * by lia.
  cbn [set_receiving nr ckr skipped]. split_and!; try done.
  - rewrite E2. done.
  - rewrite E2. cbn. lia.
Qed.

(** [p] was sealed under the message key [mk]. *)
Definition sealed (mk : bytes) (h : Header) (plain ct : bytes) : Prop :=
  aead_encrypt mk plain (header_encode h) = Ok ct.

Lemma aead_decrypt_sealed `{!CryptoLaws} mk h plain ct :
  sealed mk h plain ct → aead_decrypt mk ct (header_encode h) = Ok plain.
Proof.
  unfold sealed, aead_encrypt, aead_decrypt. destruct (message_keys mk) as [key nonce].
  rewrite !ok_or_Ok. apply aes_gcm_decrypt_encrypt.
Qed.

Lemma decrypt_in_chain_room `{!CryptoLaws} st h plain ct ck d :
  ckr st = Some ck → dhr st = Some d → (nr st ≤ h_n h)%N → (h_n h - nr st ≤ MAX_SKIP)%N →
  size (skipped st) + N.to_nat (h_n h - nr st) ≤ MAX_SKIPPED_TOTAL →
  (h_n h < u32_max)%N → sealed (mk_at ck (h_n h - nr st)) h plain ct →
  ∃ st', decrypt_in_chain st h ct = (st', Ok plain) ∧ same_sender st st' ∧
    nr st' = (h_n h + 1)%N ∧ ckr st' = Some (chain ck (N.to_nat (h_n h + 1 - nr st))) ∧
    stored_keys (skipped st) (skipped st') d ck (nr st) (h_n h).
Proof.
  intros Hck Hd Hle Hmax Hroom Hmx Hs.
  destruct (skip_message_keys_room st (h_n h) ck d Hck Hd Hmax Hroom)
    as (st1 & Hskip & Hss & Hnr & Hck1 & _ & Hst).
  unfold decrypt_in_chain. rewrite Hskip, Hck1.
  destruct (kdf_ck (chain ck (N.to_nat (h_n h - nr st)))) as [ck2 mk] eqn:Hk.
  exists (set_receiving st1 (Some ck2) (wrapping_add u32_max (nr st1) 1)).
  assert (mk = mk_at ck (h_n h - nr st)) as -> by (unfold mk_at; by rewrite Hk).
  rewrite (aead_decrypt_sealed _ _ _ _ Hs). cbn [set_receiving nr ckr skipped].
  split_and!; try done.
  - by destruct Hss.
  - rewrite Hnr, wrapping_add_small by lia. lia.
  - f_equal. replace (N.to_nat (h_n h + 1 - nr st)) with (S (N.to_nat (h_n h - nr st))) by lia.
    by rewrite chain_S, Hk.
Qed.
End buffer.

(** ** Invariants of the state *)

(** What holds after any sequence of operations, on any input. *)
Record ratchet_inv `{Crypto} (st : RatchetState) : Prop := {
  ri_keypair : dhs_public st = x25519_public (dhs_secret st);
  ri_chain : is_Some (ckr st) → is_Some (dhr st);
  ri_order k : k ∈ dom (skipped st) → k ∈ skipped_order st;
  ri_size : size (skipped st) ≤ MAX_SKIPPED_TOTAL;
  ri_ns : (ns st ≤ u32_max)%N;
  ri_nr : (nr st ≤ u32_max)%N;
  ri_pn : (pn st ≤ u32_max)%N
}.

(** The queue lists the buffered keys, each once. *)
Record in_sync (st : RatchetState) : Prop := {
  sy_nodup : NoDup (skipped_order st);
  sy_dom k : k ∈ skipped_order st ↔ k ∈ dom (skipped st);
  sy_past d k : dhr st = Some d → (d, k) ∈ skipped_order st → (k < nr st)%N
}.

Lemma evict_sync order sk :
  NoDup order → (∀ k, k ∈ order ↔ k ∈ dom sk) →
  NoDup (evict order sk).1 ∧ (∀ k, k ∈ (evict order sk).1 ↔ k ∈ dom (evict order sk).2) ∧
  (∀ k, k ∈ (evict order sk).1 → k ∈ order).
Proof.
  revert sk. induction order as [|old rest IH]; intros sk Hnd Hdom; cbn [evict]; [done|].
  case_decide; [|done]. apply NoDup_cons in Hnd as [Hnin Hnd].
  destruct (IH (delete old sk) Hnd) as (? & ? & ?).
  { intros k. rewrite dom_delete, elem_of_difference, <-Hdom, elem_of_cons, elem_of_singleton.
    split; [|naive_solver]. intros Hk. split; [by right|]. by intros ->. }
  split_and!; try done. intros k Hk. apply elem_of_cons. auto.
Qed.

Section state_inv.
Context `{Crypto, Bincode Header}.
Implicit Types st : RatchetState.

Lemma skip_loop_inv count d ck st :
  (∀ k, k ∈ dom (skipped st) → k ∈ skipped_order st) →
  size (skipped st) ≤ MAX_SKIPPED_TOTAL →
  let st' := (skip_loop count d ck st).2 in
  same_sender st st' ∧ nr st' = (nr st + N.of_nat count)%N ∧
  (∀ k, k ∈ dom (skipped st') → k ∈ skipped_order st') ∧
  size (skipped st') ≤ MAX_SKIPPED_TOTAL.
Proof.
  revert ck st. induction count as [|count IH]; intros ck st Hdom Hsz; cbn [skip_loop].
  { cbn [snd]. rewrite N.add_0_r. by split_and!. }
  destruct (kdf_ck ck) as [ck2 mk]. destruct (evict _ _) as [order sk] eqn:He.
  apply evict_spec in He as (Hdom' & Hsz' & _).
  2:{ intros k. rewrite dom_insert. set_solver. }
  destruct (IH ck2 (set_receiving (set_skipped st sk order) (ckr st) (nr st + 1)) Hdom' Hsz')
    as (Hss & Hnr & ? & ?).
  split_and!; try done; [by destruct Hss|]. rewrite Hnr. cbn [set_receiving nr]. lia.
Qed.

Lemma skip_loop_sync count d ck st :
  dhr st = Some d → in_sync st → in_sync (skip_loop count d ck st).2.
Proof.
  intros Hd. revert ck st Hd. induction count as [|count IH]; intros ck st Hd Hsy; cbn [skip_loop]; [done|].
  destruct (kdf_ck ck) as [ck2 mk]. destruct Hsy as [Hnd Hdom Hpast].
  pose proof (evict_sync (skipped_order st ++ [(d, nr st)]) (<[(d, nr st):=mk]> (skipped st)))
    as Hev. destruct (evict _ _) as [order sk]. cbn [fst snd] in Hev.
  destruct Hev as (Hnd' & Hdom' & Hsub).
  { apply NoDup_app. split_and!; [done| |apply NoDup_singleton].
    intros k Hk ->%list_elem_of_singleton. apply (Hpast _ _ Hd) in Hk. lia. }
  { intros k. rewrite dom_insert, elem_of_app, list_elem_of_singleton, elem_of_union,
      elem_of_singleton, Hdom. tauto. }
  apply IH; [done|]. split; cbn [set_receiving set_skipped skipped skipped_order dhr nr]; try done.
  intros d' k Hd' Hk. apply Hsub in Hk. rewrite elem_of_app, list_elem_of_singleton in Hk.
  destruct Hk as [Hk|[= -> ->]]; [|lia]. apply (Hpast _ _ Hd') in Hk. lia.
Qed.

Lemma skip_message_keys_inv st until :
  ratchet_inv st → (until ≤ u32_max)%N →
  let r := skip_message_keys st until in
  ratchet_inv r.1 ∧ same_sender st r.1 ∧ (is_Some (ckr st) → is_Some (ckr r.1)).
Proof.
  intros Hinv Hu. unfold skip_message_keys.
  assert (same_sender st st) as Hrefl by by split.
  destruct (ckr st) as [ck|] eqn:Hck; [|done].
  case_decide; [by eauto|]. case_decide; [by eauto|].
  destruct (dhr st) as [d|] eqn:Hd; [|by eauto].
  pose proof (skip_loop_inv (N.to_nat (until - nr st)) d ck st (ri_order _ Hinv) (ri_size _ Hinv)) as Hl.
  destruct (skip_loop _ d ck st) as [ck' st']. cbn [snd fst] in *.
  destruct Hl as ([Es Ep Ed Er Ec En Epn] & Hnr' & Hord' & Hsz'), Hinv.
  split_and!; [|by split|eauto].
  split; cbn [set_receiving dhs_secret dhs_public ckr dhr skipped skipped_order ns nr pn];
    rewrite ?Es, ?Ep, ?Ed, ?En, ?Epn, ?Hd; try done. lia.
Qed.

Lemma skip_message_keys_sync st until : in_sync st → in_sync (skip_message_keys st until).1.
Proof.
  intros Hsy. unfold skip_message_keys. destruct (ckr st) as [ck|]; [|done].
  repeat (case_decide; [done|]). destruct (dhr st) as [d|] eqn:Hd; [|done].
  pose proof (skip_loop_sync (N.to_nat (until - nr st)) d ck st Hd Hsy) as Hs.
  destruct (skip_loop _ d ck st) as [ck' st']. cbn [snd fst] in *. by destruct Hs.
Qed.

Lemma decrypt_in_chain_inv st h ct :
  ratchet_inv st → (h_n h ≤ u32_max)%N → ratchet_inv (decrypt_in_chain st h ct).1.
Proof.
  intros Hinv Hn. unfold decrypt_in_chain.
  destruct (skip_message_keys_inv st (h_n h) Hinv Hn) as (Hinv' & _ & _).
  destruct (skip_message_keys st (h_n h)) as [st1 [[]|e]]; cbn [fst] in *; [|done].
  destruct (ckr st1) as [ck|] eqn:Hck; [|done]. destruct (kdf_ck ck) as [ck2 mk]. cbn [fst].
  destruct Hinv'. split; cbn [set_receiving dhs_secret dhs_public ckr dhr skipped skipped_order ns nr pn];
    try done; [eauto|apply wrapping_add_le].
Qed.

Lemma dh_ratchet_inv fresh st pub : ratchet_inv st → ratchet_inv (dh_ratchet fresh st pub).
Proof.
  intros []. unfold dh_ratchet. destruct (kdf_rk (rk st) _) as [rk2 ck].
  destruct (kdf_rk rk2 _) as [rk3 ck']. split; cbn; try done; lia.
Qed.

Lemma ratchet_decrypt_inv fresh st h ct :
  ratchet_inv st → (h_n h ≤ u32_max)%N → (h_pn h ≤ u32_max)%N →
  ratchet_inv (ratchet_decrypt fresh st h ct).1.
Proof.
  intros Hinv Hn Hpn. unfold ratchet_decrypt.
  destruct (skipped st !! _) as [mk|] eqn:Hk; cbn [fst].
  - destruct Hinv. split; cbn [set_skipped dhs_secret dhs_public ckr dhr skipped skipped_order ns nr pn]; try done.
    + intros k. rewrite dom_delete, elem_of_difference, elem_of_singleton, list_elem_of_filter. naive_solver.
    + rewrite map_size_delete. destruct (skipped st !! _); simpl; lia.
  - case_decide; [by apply decrypt_in_chain_inv|].
    destruct (skip_message_keys_inv st (h_pn h) Hinv Hpn) as (Hinv' & _).
    destruct (skip_message_keys st (h_pn h)) as [st1 [[]|e]]; cbn [fst] in *; [|done].
    apply decrypt_in_chain_inv; [by apply dh_ratchet_inv|done].
Qed.

Lemma ratchet_encrypt_inv st pt : ratchet_inv st → ratchet_inv (ratchet_encrypt st pt).1.
Proof.
  intros Hinv. unfold ratchet_encrypt. destruct (cks st) as [ck|]; [|done].
  destruct (kdf_ck ck) as [ck2 mk].
  assert (ratchet_inv (set_sending st (Some ck2) (wrapping_add u32_max (ns st) 1))).
  { destruct Hinv. split; cbn; try done. apply wrapping_add_le. }
  by destruct (aead_encrypt _ _ _).
Qed.

Lemma decrypt_in_chain_sync st h ct :
  in_sync st → (nr st < u32_max)%N → (h_n h < u32_max)%N →
  in_sync (decrypt_in_chain st h ct).1.
Proof.
  intros Hsy Hnr Hn. unfold decrypt_in_chain.
  pose proof (skip_message_keys_sync st (h_n h) Hsy) as Hsy'.
  assert (nr (skip_message_keys st (h_n h)).1 < u32_max)%N as Hnr'.
  { unfold skip_message_keys. destruct (ckr st) as [ck|]; [|done].
    repeat (case_decide; [done|]). destruct (dhr st) as [d|]; [|done].
    assert (∀ count ck st, nr (skip_loop count d ck st).2 = (nr st + N.of_nat count)%N) as Hl.
    { clear. intros count. induction count as [|count IH]; intros ck st; cbn [skip_loop]; [cbn; lia|].
      destruct (kdf_ck ck), (evict _ _). rewrite IH. cbn. lia. }
    specialize (Hl (N.to_nat (h_n h - nr st)) ck st).
    destruct (skip_loop _ d ck st) as [ck' st']. cbn in *. lia. }
  destruct (skip_message_keys st (h_n h)) as [st1 [[]|e]]; cbn [fst] in *; [|done].
  destruct (ckr st1) as [ck|]; [|done]. destruct (kdf_ck ck) as [ck2 mk]. cbn [fst].
  destruct Hsy' as [? ? Hpast]. split; cbn [set_receiving skipped skipped_order dhr nr]; try done.
  intros d k Hd Hk. rewrite wrapping_add_small by lia. specialize (Hpast d k Hd Hk). lia.
Qed.

Lemma skip_message_keys_past st until d k :
  in_sync st → dhr st ≠ Some d → (d, k) ∉ skipped_order st →
  (d, k) ∉ skipped_order (skip_message_keys st until).1.
Proof.
  intros Hsy Hd Hk. unfold skip_message_keys. destruct (ckr st) as [ck|]; [|done].
  repeat (case_decide; [done|]). destruct (dhr st) as [d'|] eqn:Hd'; [|done].
  assert (∀ count ck st, in_sync st → dhr st = Some d' → (d, k) ∉ skipped_order st →
    (d, k) ∉ skipped_order (skip_loop count d' ck st).2) as Hl.
  { clear -Hd. intros count. induction count as [|count IH]; intros ck st Hsy Hd' Hk; cbn [skip_loop]; [done|].
    pose proof (skip_loop_sync 1 d' ck st Hd' Hsy) as Hsy1. cbn [skip_loop] in Hsy1.
    destruct (kdf_ck ck) as [ck2 mk]. destruct (evict _ _) as [order sk] eqn:He.
    apply IH; [done|done|]. cbn [set_receiving set_skipped skipped_order].
    pose proof (evict_sync (skipped_order st ++ [(d', nr st)]) (<[(d', nr st):=mk]> (skipped st))) as Hev.
    rewrite He in Hev. cbn [fst snd] in Hev. destruct Hev as (_ & _ & Hsub).
    - apply NoDup_app. split_and!; [apply Hsy| |apply NoDup_singleton].
      intros x Hx ->%list_elem_of_singleton. apply (sy_past _ Hsy _ _ Hd') in Hx. lia.
    - intros x. rewrite dom_insert, elem_of_app, list_elem_of_singleton, elem_of_union,
        elem_of_singleton, (sy_dom _ Hsy). tauto.
    - intros Hin%Hsub. rewrite elem_of_app, list_elem_of_singleton in Hin. naive_solver. }
  specialize (Hl (N.to_nat (until - nr st)) ck st Hsy Hd' Hk).
  by destruct (skip_loop _ d' ck st) as [ck' st'].
Qed.
End state_inv.

(** ** Reload *)

Section reload.
Context `{Crypto, Bincode Header, Bincode RatchetWire}.
Implicit Types st : RatchetState.

Lemma insert_all_dom (l : list (SkippedKey * bytes)) (m : gmap SkippedKey bytes) :
  dom (foldl (λ m e, <[e.1 := e.2]> m) m l) = dom m ∪ list_to_set l.*1.
Proof.
  revert m. induction l as [|e l IH]; intros m; cbn [foldl fmap list_fmap]; [set_solver|].
  rewrite IH, dom_insert_L. cbn [list_to_set]. set_solver.
Qed.

Lemma insert_all_lookup (l : list (SkippedKey * bytes)) (m : gmap SkippedKey bytes) k v :
  NoDup l.*1 → (k, v) ∈ l → foldl (λ m e, <[e.1 := e.2]> m) m l !! k = Some v.
Proof.
  revert m. induction l as [|e l IH]; intros m Hnd Hin; [set_solver|].
  rewrite fmap_cons in Hnd. apply NoDup_cons in Hnd as [Hnin Hnd]. cbn [foldl].
  apply elem_of_cons in Hin as [<-|Hin]; [|by apply IH]. clear IH Hnd. cbn [fst snd] in *.
  assert (<[k := v]> m !! k = Some v) as Hm by apply lookup_insert_eq.
  revert Hm. generalize (<[k := v]> m). induction l as [|e l IH]; intros m' Hm'; [done|].
  cbn [foldl]. apply IH; [set_solver|]. rewrite lookup_insert_ne; [done|set_solver].
Qed.

Lemma elem_of_wire_skipped st k v :
  (k, v) ∈ w_skipped (ratchet_wire st) ↔ k ∈ skipped_order st ∧ skipped st !! k = Some v.
Proof.
  cbn [ratchet_wire w_skipped]. rewrite list_elem_of_omap. split.
  - intros (k' & Hin & Hv). destruct (skipped st !! k') eqn:E; [|done].
    destruct k' as [p n]. cbn in Hv. naive_solver.
  - intros [Hin Hv]. exists k. rewrite Hv. by destruct k.
Qed.

Lemma wire_order st :
  (∀ k, k ∈ skipped_order st → is_Some (skipped st !! k)) →
  (w_skipped (ratchet_wire st)).*1 = skipped_order st.
Proof.
  cbn [ratchet_wire w_skipped].
  induction (skipped_order st) as [|[p n] l IH]; intros Hall; [done|].
  cbn [omap list_omap]. destruct (Hall (p, n) ltac:(set_solver)) as [v Hv]. rewrite Hv.
  cbn [fmap option_fmap option_map list_fmap fst snd]. f_equal. apply IH. set_solver.
Qed.

(** Restoring from a state's own entries gives each listed key the value it had. *)
Lemma restored_lookup st k :
  skipped (ratchet_unwire (ratchet_wire st)) !! k =
  if decide (k ∈ skipped_order st) then skipped st !! k else None.
Proof.
  assert (∀ (l : list (SkippedKey * bytes)) (m : gmap SkippedKey bytes),
    (∀ e, e ∈ l → skipped st !! e.1 = Some e.2) →
    foldl (λ m e, <[e.1 := e.2]> m) m l !! k =
    if decide (k ∈ l.*1) then skipped st !! k else m !! k) as Hgen.
  { induction l as [|e l IH]; intros m Hl; [done|]. cbn [foldl]. rewrite IH by set_solver.
    rewrite fmap_cons. destruct (decide (k = e.1)) as [->|Hne].
    - rewrite lookup_insert_eq, (decide_True (P := e.1 ∈ e.1 :: l.*1)) by set_solver.
      rewrite (Hl e) by set_solver. by case_decide.
    - rewrite lookup_insert_ne by done. apply decide_ext. set_solver. }
  cbn [ratchet_unwire skipped]. rewrite Hgen.
  - destruct (skipped st !! k) as [v|] eqn:Hv; [|by repeat case_decide].
    apply decide_ext. split.
    + intros ([k' v'] & -> & [? _]%elem_of_wire_skipped)%list_elem_of_fmap. done.
    + intros Hk. apply list_elem_of_fmap. exists (k, v). split; [done|]. by apply elem_of_wire_skipped.
  - intros [k' v] Hin. by apply elem_of_wire_skipped in Hin as [_ ?].
Qed.

Lemma restored_skipped st :
  (∀ k, k ∈ dom (skipped st) → k ∈ skipped_order st) →
  skipped (ratchet_unwire (ratchet_wire st)) = skipped st.
Proof.
  intros Hord. apply map_eq. intros k. rewrite restored_lookup. case_decide as Hk; [done|].
  symmetry. apply not_elem_of_dom. eauto.
Qed.

(** Serializing what was restored gives the same bytes again. *)
Lemma wire_restored st : ratchet_wire (ratchet_unwire (ratchet_wire st)) = ratchet_wire st.
Proof.
  assert (∀ w, w_skipped w = w_skipped (ratchet_wire st) →
    MkWire (dhs_secret st) (dhr st) (rk st) (cks st) (ckr st) (ns st) (nr st) (pn st) (w_skipped w) =
    ratchet_wire st) as Hrest by (by intros w ->).
  apply (Hrest (ratchet_wire (ratchet_unwire (ratchet_wire st)))).
  unfold ratchet_wire at 1. cbn [w_skipped].
  change (skipped_order (ratchet_unwire (ratchet_wire st))) with ((w_skipped (ratchet_wire st)).*1).
  assert (∀ e, e ∈ w_skipped (ratchet_wire st) →
    skipped (ratchet_unwire (ratchet_wire st)) !! e.1 = Some e.2) as Hall.
  { intros [k v] [Hk Hv]%elem_of_wire_skipped. by rewrite restored_lookup, decide_True. }
  revert Hall. generalize (w_skipped (ratchet_wire st)) as l.
  induction l as [|[[d n] v] l IH]; intros Hl; [done|]. cbn [fmap list_fmap omap list_omap].
  rewrite (Hl (d, n, v)) by set_solver. cbn. f_equal. apply IH. set_solver.
Qed.

Lemma ratchet_unwire_idem w :
  ratchet_unwire (ratchet_wire (ratchet_unwire w)) = ratchet_unwire w.
Proof.
  set (st := ratchet_unwire w).
  assert (∀ k, k ∈ dom (skipped st) ↔ k ∈ skipped_order st) as Hdom.
  { intros k. unfold st. cbn [ratchet_unwire skipped skipped_order].
    rewrite insert_all_dom, elem_of_union, elem_of_list_to_set. set_solver. }
  pose proof (restored_skipped st (λ k, proj1 (Hdom k))) as Hsk.
  assert ((w_skipped (ratchet_wire st)).*1 = skipped_order st) as Hord
    by (apply wire_order; intros k Hk; by apply elem_of_dom, Hdom).
  unfold ratchet_unwire at 1. unfold ratchet_unwire at 1 in Hsk. cbn [skipped] in Hsk.
  by rewrite Hsk, Hord.
Qed.

Lemma ratchet_unwire_inv st :
  ratchet_inv st → ratchet_inv (ratchet_unwire (ratchet_wire st)).
Proof.
  intros []. split; cbn [ratchet_unwire dhs_secret dhs_public ckr dhr skipped skipped_order ns nr pn]; try done.
  - intros k. rewrite insert_all_dom, elem_of_union, elem_of_list_to_set. set_solver.
  - etrans; [|exact ri_size0]. rewrite <-!size_dom, insert_all_dom.
    apply subseteq_size. intros k. rewrite elem_of_union, elem_of_list_to_set.
    intros [?|([k' v] & -> & [_ Hv]%elem_of_wire_skipped)%list_elem_of_fmap]; [set_solver|].
    apply elem_of_dom. eauto.
Qed.

Lemma ratchet_unwire_sync st :
  ratchet_inv st → in_sync st → ratchet_unwire (ratchet_wire st) = st.
Proof.
  intros [Hkp _ _ _ _ _ _] [Hnd Hdom _].
  assert ((w_skipped (ratchet_wire st)).*1 = skipped_order st) as Hord
    by (apply wire_order; intros k Hk; by apply elem_of_dom, Hdom).
  assert (skipped (ratchet_unwire (ratchet_wire st)) = skipped st) as Hsk.
  { apply map_eq. intros k. cbn [ratchet_unwire skipped]. destruct (skipped st !! k) as [v|] eqn:Hk.
    - apply insert_all_lookup; [by rewrite Hord|]. apply elem_of_wire_skipped. split; [|done].
      apply Hdom, elem_of_dom. eauto.
    - apply not_elem_of_dom. rewrite insert_all_dom, elem_of_union, elem_of_list_to_set, Hord, Hdom.
      rewrite (elem_of_dom (skipped st)), Hk. intros [?|[? ?]]; [set_solver|done]. }
  unfold ratchet_unwire in *. cbn [skipped] in Hsk. rewrite Hsk, Hord. destruct st; cbn in *. by subst.
Qed.
End reload.

Lemma fresh_inv `{Crypto} st :
  dhs_public st = x25519_public (dhs_secret st) → ckr st = None → skipped st = ∅ →
  ns st = 0%N → nr st = 0%N → pn st = 0%N → ratchet_inv st.
Proof.
  intros Hkp Hck Hsk Hns Hnr Hpn. split; rewrite ?Hck, ?Hsk, ?Hns, ?Hnr, ?Hpn; try done; try set_solver.
  rewrite map_size_empty. lia.
Qed.

(** ** Properties *)

Section properties.
Context `{Crypto, Bincode Header, Bincode RatchetWire}.

(** Sessions as the program can produce them: from either initialisation, by any
    encryption, by decrypting any header and ciphertext with any outcome, and by a
    save and reload. *)
Inductive ratchet_reach : RatchetState → Prop :=
  | reach_alice fresh ss pub : ratchet_reach (init_alice fresh ss pub)
  | reach_bob ss secret : ratchet_reach (init_bob ss secret)
  | reach_encrypt st pt : ratchet_reach st → ratchet_reach (ratchet_encrypt st pt).1
  | reach_decrypt fresh st h ct :
      ratchet_reach st → type_wf h → ratchet_reach (ratchet_decrypt fresh st h ct).1
  | reach_reload st :
      ratchet_reach st → ratchet_reach (ratchet_unwire (ratchet_wire st)).

(** C40: Memory safety of a session against any peer: however headers are chosen, at
    most 2000 skipped keys are buffered, each of them is queued for eviction, the
    receiving chain always knows its peer key (so the [expect] never panics), the
    key pair is consistent, and the counters stay in range. *)
Theorem ratchet_reach_inv st : ratchet_reach st → ratchet_inv st.
Proof.
  induction 1 as [fresh ss pub|ss secret|st pt _ IH|fresh st h ct _ IH (_ & Hpn & Hn)|st _ IH].
  - unfold init_alice. destruct (kdf_rk ss (dh fresh pub)). by apply fresh_inv.
  - by apply fresh_inv.
  - by apply ratchet_encrypt_inv.
  - by apply ratchet_decrypt_inv.
  - by apply ratchet_unwire_inv.
Qed.

(** As long as the peer never returns to a ratchet key under which keys are
    still buffered, the eviction queue and the buffer stay in step: the queue
    lists exactly the buffered keys, each once. *)
Lemma skipped_in_sync fresh st h ct :
  in_sync st → (nr st < u32_max)%N → (h_n h < u32_max)%N →
  (dhr st = Some (ratchet_pub h) ∨ ∀ k, (ratchet_pub h, k) ∉ skipped_order st) →
  let st' := (ratchet_decrypt fresh st h ct).1 in
  in_sync st' ∧ length (skipped_order st') = size (skipped st').
Proof.
  intros Hsy Hnr Hn Hnew st'.
  assert (∀ st, in_sync st → length (skipped_order st) = size (skipped st)) as Hlen.
  { intros s [Hnd Hdom _]. rewrite <-size_dom, <-(size_list_to_set (C:=gset SkippedKey)) by done.
    f_equal. apply set_eq. intros k. by rewrite elem_of_list_to_set. }
  assert (in_sync st') as Hsy'; [|by auto]. subst st'. unfold ratchet_decrypt.
  destruct (skipped st !! _) as [mk|]; cbn [fst].
  - destruct Hsy as [Hnd Hdom Hpast]. split; cbn [set_skipped skipped skipped_order dhr nr].
    + by apply NoDup_filter.
    + intros k. rewrite list_elem_of_filter, dom_delete, elem_of_difference, elem_of_singleton, Hdom. tauto.
    + intros d k Hd [_ Hk]%list_elem_of_filter. eauto.
  - case_decide as Hd; [by apply decrypt_in_chain_sync|]. destruct Hnew as [?|Hnew]; [done|].
    pose proof (skip_message_keys_sync st (h_pn h) Hsy) as Hsy1.
    pose proof (λ k, skip_message_keys_past st (h_pn h) (ratchet_pub h) k Hsy Hd (Hnew k)) as Hpast.
    destruct (skip_message_keys st (h_pn h)) as [st1 [[]|e]]; cbn [fst] in *; [|done].
    assert (in_sync (dh_ratchet fresh st1 (ratchet_pub h)) ∧
      nr (dh_ratchet fresh st1 (ratchet_pub h)) = 0%N) as [Hsy2 Hnr2].
    { unfold dh_ratchet. destruct (kdf_rk (rk st1) _) as [rk2 ck], (kdf_rk rk2 _) as [rk3 ck'].
      split; [|done]. destruct Hsy1. split; cbn; try done. intros d k [= <-] Hk. by apply Hpast in Hk. }
    apply decrypt_in_chain_sync; [done|by rewrite Hnr2|done].
Qed.

(** Saving and reloading a session gives the session back, including the order
    in which buffered keys will be evicted. *)
Lemma ratchet_roundtrip `{!BincodeLaws RatchetWire} st :
  ratchet_inv st → in_sync st → type_wf (ratchet_wire st) →
  ratchet_deserialize (ratchet_serialize st) = Some st.
Proof.
  intros Hinv Hsy Hwf. unfold ratchet_deserialize, ratchet_serialize.
  rewrite de_ser by done. cbn. by rewrite ratchet_unwire_sync.
Qed.

(** A header that would skip more than 1000 keys of the current chain is
    refused before any key is derived: the error is [TooManySkipped] and the
    session does not change. *)
Lemma too_many_skipped fresh st h ct ck :
  skipped st !! (ratchet_pub h, h_n h) = None → dhr st = Some (ratchet_pub h) →
  ckr st = Some ck → (nr st + MAX_SKIP < h_n h)%N →
  ratchet_decrypt fresh st h ct = (st, Err TooManySkipped).
Proof.
  intros Hsk Hd Hck Hfar. unfold ratchet_decrypt. rewrite Hsk, decide_True by done.
  unfold decrypt_in_chain, skip_message_keys. rewrite Hck.
  rewrite decide_False by lia. by rewrite decide_True by lia.
Qed.
End properties.

(** ** Concrete encodings and runs *)

Module RatchetCodec.
Import Fixint.

Definition header_codec : codec Header :=
  c_iso (λ '(p, (k, n)), MkHeader p k n) (λ h, (ratchet_pub h, (h_pn h, h_n h)))
    (c_pair (c_arr 32) (c_pair (c_uint 4) (c_uint 4))).

#[export] Instance header_codec_ok : CodecOk header_codec.
Proof. apply c_iso_ok; [by intros []|by intros (?&?&?)|apply _]. Qed.

#[export] Instance header_bincode : Bincode Header := bincode_of header_codec.

Definition wire_codec : codec RatchetWire :=
  c_iso
    (λ '(s, (d, (r, (cs, (cr, (a, (b, (c, sk)))))))), MkWire s d r cs cr a b c sk)
    (λ w, (w_dhs_secret w, (w_dhr w, (w_rk w, (w_cks w, (w_ckr w,
       (w_ns w, (w_nr w, (w_pn w, w_skipped w)))))))))
    (c_pair (c_arr 32) (c_pair (c_option (c_arr 32)) (c_pair (c_arr 32)
      (c_pair (c_option (c_arr 32)) (c_pair (c_option (c_arr 32))
        (c_pair (c_uint 4) (c_pair (c_uint 4) (c_pair (c_uint 4)
          (c_vec (c_pair (c_pair (c_arr 32) (c_uint 4)) (c_arr 32))))))))))).

#[export] Instance wire_codec_ok : CodecOk wire_codec.
Proof. apply c_iso_ok; [by intros []|by intros (?&?&?&?&?&?&?&?&?)|apply _]. Qed.

#[export] Instance wire_bincode : Bincode RatchetWire := bincode_of wire_codec.

#[export] Instance wire_bincode_laws : BincodeLaws RatchetWire.
Proof.
  apply bincode_of_laws; [apply _|].
  intros w (? & ? & ? & ? & ? & ? & ? & ? & Hn & Hf).
  assert (∀ x, (x ≤ u32_max)%N → (x < 256 ^ N.of_nat 4)%N) as H32
    by (intros x Hx; change (256 ^ N.of_nat 4)%N with (u32_max + 1)%N; lia).
  cbn -[N.of_nat N.pow u64_max u32_max]. split_and!; auto; try (by destruct (w_dhr w));
    try (by destruct (w_cks w)); try (by destruct (w_ckr w)).
  eapply Forall_impl; [exact Hf|]. intros [[p n] mk] (? & ? & ?). cbn. auto.
Qed.
End RatchetCodec.

Module RatchetWitness.
Import ToyCrypto RatchetCodec.

Definition key (b : byte) : bytes := b :: repeat Byte.x00 31.
Definition shared : bytes := key Byte.x07.
Definition alice0 : RatchetState :=
  init_alice (key Byte.x01) shared (x25519_public (key Byte.x02)).
Definition bob0 : RatchetState := init_bob shared (key Byte.x02).

(** Encrypt [count] messages and keep the last. *)
Fixpoint send_many (count : nat) (st : RatchetState) :
    option (RatchetState * (Header * bytes)) :=
  match ratchet_encrypt st (str "m") with
  | (st, Ok m) => match count with O => Some (st, m) | S count => send_many count st end
  | _ => None
  end.

Definition recv (fresh : bytes) (st : RatchetState) (m : Header * bytes) : option RatchetState :=
  match ratchet_decrypt fresh st m.1 m.2 with (st, Ok _) => Some st | _ => None end.

(** The peer of [bob0] uses its first ratchet key again two turns later; every
    message is authentic and decrypts. *)
Definition reuse_run : option RatchetState :=
  '(a, m) ← send_many 2 alice0;
  b ← recv (key Byte.x03) bob0 m;
  '(b, m) ← send_many 0 b;
  a ← recv (key Byte.x04) a m;
  '(a, m) ← send_many 0 a;
  b ← recv (key Byte.x05) b m;
  '(b, m) ← send_many 0 b;
  a ← recv (key Byte.x01) a m;
  '(a, m) ← send_many 2 a;
  recv (key Byte.x06) b m.

Lemma alice0_inv : ratchet_inv alice0.
Proof. by apply fresh_inv. Qed.

(** A session with two buffered keys. *)
Definition bob1 : RatchetState :=
  default bob0 ('(a, m) ← send_many 2 alice0; recv (key Byte.x03) bob0 m).

Lemma bob1_inv : ratchet_inv bob1.
Proof.
  split; try (by_evaluation);
    try (vm_compute; discriminate).
Qed.

(** A peer that returns to an earlier ratchet key breaks the step between queue
    and buffer: after four authentic turns the queue holds four entries for two
    buffered keys.  The source says the two lengths stay equal; the queue is
    not bounded by the cap on the buffer. *)
Lemma skipped_order_desync :
  (λ st, (length (skipped_order st), size (skipped st))) <$> reuse_run = Some (4, 2).
Proof. vm_compute. reflexivity. Qed.

Lemma reach_inv_witness : ratchet_inv (ratchet_encrypt alice0 (str "hi")).1.
Proof. apply (ratchet_reach_inv _). apply reach_encrypt, reach_alice. Defined.

Lemma bob1_sync : in_sync bob1.
Proof.
  split.
  - by_evaluation.
  - intros k. rewrite <-(elem_of_list_to_set (C:=gset SkippedKey)).
    assert (list_to_set (skipped_order bob1) = dom (skipped bob1) :> gset SkippedKey) as ->; [|done].
    by_evaluation.
  - intros d k _ Hk.
    assert (Forall (λ dk, dk.2 < nr bob1)%N (skipped_order bob1)) as Hall
      by (by_evaluation).
    rewrite Forall_forall in Hall. apply (Hall (d, k) Hk).
Qed.
End RatchetWitness.
