(* ===== verification/RatchetSession.v ===== *)
(** * Two parties over an unreliable network

    A step relation composed of the operations of ratchet/state.rs: either party
    encrypts, any packet in flight is delivered in any order or lost, and a party's
    state is at any time replaced by the one read back from its serialized form.  The
    invariant says that one party is ahead by exactly one Diffie-Hellman step and
    that the other can read, or will be able to read, every packet in flight. *)

From S2P Require Import Prelude Crypto Bincode Ratchet.

Record packet := MkPacket {
  p_header : Header;
  p_ct : bytes;
  p_plain : bytes
}.

#[global] Instance packet_eq_dec : EqDecision packet.
Proof. solve_decision. Defined.

Definition p_pub (p : packet) : bytes := ratchet_pub (p_header p).
Definition p_n (p : packet) : N := h_n (p_header p).
Definition p_key (p : packet) : SkippedKey := (p_pub p, p_n p).

(** [party true] is the initiator; [flight b] holds the packets [b] has sent;
    [used] the ratchet public keys that have occurred. *)
Record world := MkWorld {
  party : bool → RatchetState;
  flight : bool → list packet;
  used : gset bytes
}.

Definition upd {A} (f : bool → A) (b : bool) (v : A) : bool → A :=
  λ x, if decide (x = b) then v else f x.

(** The header asks for no more skipped keys than the receiver allows and can
    buffer without evicting. *)
Definition within_limits (R : RatchetState) (h : Header) : Prop :=
  if decide (dhr R = Some (ratchet_pub h)) then
    (h_n h - nr R ≤ MAX_SKIP)%N ∧
    size (skipped R) + N.to_nat (h_n h - nr R) ≤ MAX_SKIPPED_TOTAL
  else
    (h_pn h - nr R ≤ MAX_SKIP)%N ∧ (h_n h ≤ MAX_SKIP)%N ∧
    size (skipped R) + N.to_nat (h_pn h - nr R) + N.to_nat (h_n h) ≤ MAX_SKIPPED_TOTAL.

Section session.
Context `{Crypto, Bincode Header}.

Inductive step (w : world) : world → Prop :=
  | step_send s pt st' h ct :
      (ns (party w s) < u32_max)%N →
      ratchet_encrypt (party w s) pt = (st', Ok (h, ct)) →
      step w (MkWorld (upd (party w) s st')
        (upd (flight w) s (MkPacket h ct pt :: flight w s)) (used w))
  | step_deliver s p l1 l2 fresh st' r :
      flight w (negb s) = l1 ++ p :: l2 →
      within_limits (party w s) (p_header p) → x25519_public fresh ∉ used w →
      ratchet_decrypt fresh (party w s) (p_header p) (p_ct p) = (st', r) →
      step w (MkWorld (upd (party w) s st') (upd (flight w) (negb s) (l1 ++ l2))
        ({[x25519_public fresh]} ∪ used w))
  | step_lose s p l1 l2 :
      flight w s = l1 ++ p :: l2 →
      step w (MkWorld (party w) (upd (flight w) s (l1 ++ l2)) (used w))
  | step_restore s :
      step w (MkWorld (upd (party w) s (ratchet_unwire (ratchet_wire (party w s))))
        (flight w) (used w)).

(** Both parties share [ss]; the responder's ratchet key [b] is known to the
    initiator, whose own key [a] is random. *)
Definition start (ss a b : bytes) : world := {|
  party s := if s then init_alice a ss (x25519_public b) else init_bob ss b;
  flight _ := [];
  used := {[x25519_public a; x25519_public b]}
|}.

Definition p_sealed (mk : bytes) (p : packet) : Prop :=
  sealed mk (p_header p) (p_plain p) (p_ct p).

(** The receiver holds the key of [p], or reaches it on its current chain. *)
Definition readable (R : RatchetState) (p : packet) : Prop :=
  match skipped R !! p_key p with
  | Some mk => p_sealed mk p
  | None => dhr R = Some (p_pub p) ∧ ∃ ck, ckr R = Some ck ∧ (nr R ≤ p_n p)%N ∧
      p_sealed (mk_at ck (p_n p - nr R)) p
  end.

Record state_ok (R : RatchetState) (seen : gset bytes) : Prop := {
  so_keypair : dhs_public R = x25519_public (dhs_secret R);
  so_public : dhs_public R ∈ seen;
  so_dhr d : dhr R = Some d → d ∈ seen;
  so_skipped d k : is_Some (skipped R !! (d, k)) → d ∈ seen;
  so_chain : is_Some (ckr R) → is_Some (dhr R);
  so_future d k : dhr R = Some d → (nr R ≤ k)%N → skipped R !! (d, k) = None
}.

Record flight_ok (S : RatchetState) (fl : list packet) (seen : gset bytes) : Prop := {
  fo_keys : NoDup (p_key <$> fl);
  fo_seen p : p ∈ fl → p_pub p ∈ seen;
  fo_bound p : p ∈ fl → (p_n p < u32_max)%N;
  fo_sent p : p ∈ fl → p_pub p = dhs_public S → (p_n p < ns S)%N
}.

(** The receiver has not seen the sender's current ratchet key yet. *)
Definition ahead (S R : RatchetState) (fl : list packet) : Prop :=
  dhr R ≠ Some (dhs_public S) ∧
  (∀ k, skipped R !! (dhs_public S, k) = None) ∧
  ∃ root, kdf_rk (rk R) (dh (dhs_secret R) (dhs_public S)) = (rk S, root) ∧
    cks S = Some (chain root (N.to_nat (ns S))) ∧
    ∀ p, p ∈ fl →
      (p_pub p = dhs_public S ∧ h_pn (p_header p) = pn S ∧ p_sealed (mk_at root (p_n p)) p) ∨
      (p_pub p ≠ dhs_public S ∧ readable R p ∧ (dhr R = Some (p_pub p) → (p_n p < pn S)%N)).

(** The receiver follows the sender's current chain (if there is one). *)
Definition caught (S R : RatchetState) (fl : list packet) : Prop :=
  (∀ p, p ∈ fl → readable R p) ∧
  ((cks S = None ∧ fl = []) ∨
   (dhr R = Some (dhs_public S) ∧ ∃ ck, ckr R = Some ck ∧ (nr R ≤ ns S)%N ∧
      cks S = Some (chain ck (N.to_nat (ns S - nr R))))).

Definition session_inv (w : world) : Prop :=
  (∀ s, state_ok (party w s) (used w)) ∧
  (∀ s, flight_ok (party w s) (flight w s) (used w)) ∧
  ∃ s, ahead (party w s) (party w (negb s)) (flight w s) ∧
    caught (party w (negb s)) (party w s) (flight w (negb s)).
End session.

Section receive.
Context `{Crypto, Bincode Header, !CryptoLaws}.
Implicit Types (R S : RatchetState) (p q : packet).

(** Skipping, with or without a receiving chain. *)
Definition skipped_until R (until : N) (sk' : gmap SkippedKey bytes) : Prop :=
  ∀ d k, sk' !! (d, k) =
    match ckr R with
    | Some ck => if decide (dhr R = Some d ∧ nr R ≤ k ∧ k < until)%N
                 then Some (mk_at ck (k - nr R)) else skipped R !! (d, k)
    | None => skipped R !! (d, k)
    end.

Lemma skip_any R until :
  (is_Some (ckr R) → is_Some (dhr R)) → (until - nr R ≤ MAX_SKIP)%N →
  size (skipped R) + N.to_nat (until - nr R) ≤ MAX_SKIPPED_TOTAL →
  ∃ R', skip_message_keys R until = (R', Ok ()) ∧ same_sender R R' ∧
    size (skipped R') ≤ size (skipped R) + N.to_nat (until - nr R) ∧
    skipped_until R until (skipped R').
Proof.
  intros Hch Hmax Hroom. unfold skipped_until. destruct (ckr R) as [ck|] eqn:Hck.
  - destruct Hch as [d Hd]; [done|].
    destruct (skip_message_keys_room R until ck d Hck Hd Hmax Hroom)
      as (R' & Hs & Hss & _ & _ & Hsz & Hst).
    exists R'. split_and!; try done. intros d' k. rewrite Hst, Hd.
    repeat case_decide; naive_solver.
  - exists R. unfold skip_message_keys. rewrite Hck. split_and!; try done. lia.
Qed.

(** The chain of [R'] continues the chain of [R]. *)
Definition continues R R' : Prop :=
  ∀ ck, ckr R = Some ck →
    (nr R ≤ nr R')%N ∧ ckr R' = Some (chain ck (N.to_nat (nr R' - nr R))).

(** Advancing the chain past [p] keeps every other packet readable. *)
Lemma readable_advance R R' p q ck :
  ckr R = Some ck → dhr R = Some (p_pub p) → (nr R ≤ p_n p)%N →
  (∀ k, (nr R ≤ k)%N → skipped R !! (p_pub p, k) = None) →
  dhr R' = dhr R → nr R' = (p_n p + 1)%N →
  ckr R' = Some (chain ck (N.to_nat (p_n p + 1 - nr R))) →
  stored_keys (skipped R) (skipped R') (p_pub p) ck (nr R) (p_n p) →
  readable R q → p_key q ≠ p_key p → readable R' q.
Proof.
  intros Hck Hd Hle Hfut Hd' Hnr Hck' Hst Hq Hne. unfold readable, p_key in *.
  rewrite Hst. case_decide as Hin.
  - destruct Hin as (Hpq & Hin1 & Hin2). rewrite Hpq, Hfut in Hq by done.
    destruct Hq as (_ & ck' & Hck1 & _ & Hs). by simplify_eq.
  - destruct (skipped R !! (p_pub q, p_n q)); [done|].
    destruct Hq as (Hdq & ck' & Hck1 & Hleq & Hs). rewrite Hd', Hck', Hnr.
    assert (p_pub q = p_pub p) as Hpq by congruence. rewrite Hck in Hck1. injection Hck1 as <-.
    assert (p_n q ≠ p_n p) by congruence.
    assert (p_n p + 1 ≤ p_n q)%N by (destruct (N.lt_trichotomy (p_n q) (p_n p)) as [|[|]]; naive_solver lia).
    split; [done|]. eexists. split; [done|]. split; [done|]. rewrite mk_at_chain.
    by replace (p_n p + 1 - nr R + (p_n q - (p_n p + 1)))%N with (p_n q - nr R)%N by lia.
Qed.

Lemma receive_readable fresh seen R p :
  state_ok R seen → readable R p → within_limits R (p_header p) → (p_n p < u32_max)%N →
  ∃ R', ratchet_decrypt fresh R (p_header p) (p_ct p) = (R', Ok (p_plain p)) ∧
    same_sender R R' ∧ state_ok R' seen ∧ continues R R' ∧
    (nr R' = nr R ∨ (dhr R = Some (p_pub p) ∧ nr R' = (p_n p + 1)%N)) ∧
    (∀ q, readable R q → p_key q ≠ p_key p → readable R' q) ∧
    (∀ d k, dhr R ≠ Some d → skipped R !! (d, k) = None → skipped R' !! (d, k) = None).
Proof.
  intros Hok Hread Hlim Hmx. unfold ratchet_decrypt. fold (p_pub p) (p_n p) (p_key p).
  unfold readable in Hread. destruct (skipped R !! p_key p) as [mk|] eqn:Hsk.
  - eexists. rewrite (aead_decrypt_sealed _ _ _ _ Hread). split; [done|].
    split; [done|]. cbn [set_skipped nr ckr skipped].
    assert (∀ k, delete (p_key p) (skipped R) !! k = None ∨
      delete (p_key p) (skipped R) !! k = skipped R !! k) as Hdel.
    { intros k. destruct (decide (k = p_key p)) as [->|]; [left; apply lookup_delete_eq|].
      right. by apply lookup_delete_ne. }
    split_and!.
    + destruct Hok. split; cbn; try done.
      * intros d k [v Hv]. destruct (Hdel (d, k)) as [E|E]; rewrite E in Hv; eauto; done.
      * intros d k Hd Hk. destruct (Hdel (d, k)) as [->| ->]; eauto.
    + intros ck Hck. rewrite N.sub_diag. split; [cbn; lia|done].
    + by left.
    + intros q Hq Hne. unfold readable in *. cbn [set_skipped skipped dhr ckr nr].
      by rewrite lookup_delete_ne by congruence.
    + intros d k _ Hn. destruct (Hdel (d, k)) as [->| ->]; done.
  - destruct Hread as (Hd & ck & Hck & Hle & Hs).
    rewrite decide_True by done. unfold within_limits in Hlim.
    fold (p_pub p) (p_n p) in Hlim. rewrite decide_True in Hlim by done. destruct Hlim as [Hl1 Hl2].
    destruct (decrypt_in_chain_room R (p_header p) (p_plain p) (p_ct p) ck (p_pub p)
      Hck Hd Hle Hl1 Hl2 Hmx Hs) as (R' & -> & Hss & Hnr & Hck' & Hst).
    fold (p_n p) in Hnr, Hck', Hst. exists R'. split; [done|]. split; [done|].
    split_and!.
    + destruct Hok, Hss. split; rewrite ?ss_public, ?ss_secret, ?ss_dhr; try done.
      * intros d k. rewrite Hst. case_decide as Hin; [|by apply so_skipped0].
        intros _. apply so_dhr0. rewrite Hd. f_equal. symmetry. apply Hin.
      * intros d k Hd' Hk. rewrite Hst, decide_False by lia. apply so_future0; [done|lia].
    + intros ck0 Hck0. rewrite Hck in Hck0. injection Hck0 as <-. rewrite Hnr. split; [lia|done].
    + by right.
    + intros q Hq Hne. eapply (readable_advance R R' p q); try done.
      * intros k. by apply (so_future _ _ Hok).
      * by destruct Hss.
    + intros d k Hnd Hn. rewrite Hst, decide_False; [done|]. intros [-> _]. done.
Qed.

(** First contact with the sender's new ratchet key. *)
Lemma receive_new fresh seen S R fl p :
  state_ok R seen → ahead S R fl → p ∈ fl → p_pub p = dhs_public S →
  NoDup (p_key <$> fl) → within_limits R (p_header p) → (p_n p < u32_max)%N →
  (p_n p < ns S)%N → dhs_public S = x25519_public (dhs_secret S) →
  ∃ R', ratchet_decrypt fresh R (p_header p) (p_ct p) = (R', Ok (p_plain p)) ∧
    dhs_secret R' = fresh ∧ dhs_public R' = x25519_public fresh ∧
    dhr R' = Some (dhs_public S) ∧ ns R' = 0%N ∧ pn R' = ns R ∧
    nr R' = (p_n p + 1)%N ∧
    (∃ root', kdf_rk (rk S) (dh (dhs_secret S) (dhs_public R')) = (rk R', root') ∧
       cks R' = Some root') ∧
    (∃ ck, ckr R' = Some ck ∧ cks S = Some (chain ck (N.to_nat (ns S - nr R')))) ∧
    (∀ q, q ∈ fl → p_key q ≠ p_key p → readable R' q) ∧
    (∀ k, (nr R' ≤ k)%N → skipped R' !! (dhs_public S, k) = None) ∧
    (∀ d k, is_Some (skipped R' !! (d, k)) →
       d = dhs_public S ∨ dhr R = Some d ∨ is_Some (skipped R !! (d, k))).
Proof.
  intros Hok (Hnd & Hnone & root & Hkdf & Hcks & Hfl) Hp Hpub Hkeys Hlim Hmx Hns Hkp.
  destruct (Hfl p Hp) as [(_ & Hpn & Hs)|[? _]]; [|done].
  unfold ratchet_decrypt. fold (p_pub p) (p_n p). rewrite Hpub, Hnone.
  rewrite decide_False by done. unfold within_limits in Hlim. fold (p_pub p) in Hlim.
  rewrite Hpub, decide_False in Hlim by done. destruct Hlim as (Hl1 & Hl2 & Hl3). rewrite Hpn in *.
  destruct (skip_any R (pn S) (so_chain _ _ Hok) Hl1) as (R1 & -> & Hss & Hsz & Hsk1); [lia|].
  set (R2 := dh_ratchet fresh R1 (dhs_public S)).
  assert (ckr R2 = Some root ∧ dhr R2 = Some (dhs_public S) ∧ nr R2 = 0%N ∧ skipped R2 = skipped R1 ∧
    dhs_secret R2 = fresh ∧ dhs_public R2 = x25519_public fresh ∧ ns R2 = 0%N ∧ pn R2 = ns R ∧
    ∃ root', kdf_rk (rk S) (dh fresh (dhs_public S)) = (rk R2, root') ∧ cks R2 = Some root')
    as (E1 & E2 & E3 & E4 & E5 & E6 & E7 & E8 & root' & E9 & E10).
  { unfold R2, dh_ratchet. destruct Hss as [-> _ _ -> _ -> _]. rewrite Hkdf.
    destruct (kdf_rk (rk S) (dh fresh (dhs_public S))) as [rk3 cks3]. cbn. split_and!; eauto. }
  clearbody R2.
  destruct (decrypt_in_chain_room R2 (p_header p) (p_plain p) (p_ct p) root (dhs_public S))
    as (R3 & -> & Hss3 & Hnr3 & Hck3 & Hst3); try done; fold (p_n p) in *; rewrite ?E3, ?E4, ?N.sub_0_r in *; try lia; try done.
  destruct Hss3. exists R3. split; [done|].
  rewrite ss_secret, ss_public, ss_dhr, ss_ns, ss_pn, ss_rk, ss_cks, Hnr3.
  split_and!; try done.
  - exists root'. split; [|done]. rewrite <-E9, E6, Hkp. f_equal. apply x25519_agree.
  - eexists. split; [done|]. rewrite <-chain_add, Hcks. do 2 f_equal. lia.
  - intros q Hq Hne.
    destruct (Hfl q Hq) as [(Hpq & _ & Hsq)|(Hpq & Hread & Hbound)].
    + assert (skipped R1 !! (dhs_public S, p_n q) = None) as Hno.
      { rewrite Hsk1. destruct (ckr R); [rewrite decide_False by naive_solver|]; apply Hnone. }
      unfold readable, p_key in *. rewrite Hpq in *. rewrite Hst3, N.sub_0_r in *.
      case_decide as Hin; [done|]. rewrite Hno, ss_dhr, Hck3, Hnr3.
      assert (p_n q ≠ p_n p) by congruence.
      assert (p_n p + 1 ≤ p_n q)%N by (destruct (N.lt_trichotomy (p_n q) (p_n p)) as [|[|]]; naive_solver lia).
      split; [done|]. eexists. split; [done|]. split; [done|]. rewrite mk_at_chain.
      by replace (p_n p + 1 + (p_n q - (p_n p + 1)))%N with (p_n q) by lia.
    + unfold readable, p_key in *. rewrite Hst3, decide_False by naive_solver. rewrite Hsk1.
      destruct (skipped R !! (p_pub q, p_n q)) as [mk|] eqn:Hm.
      * destruct (ckr R); [|done]. rewrite decide_False; [done|]. intros (Hd & Hle & _).
        rewrite (so_future _ _ Hok _ _ Hd Hle) in Hm. done.
      * destruct Hread as (Hd & ck & -> & Hle & Hsq). rewrite decide_True by auto. done.
  - intros k Hk. rewrite Hst3, decide_False by lia. rewrite Hsk1.
    destruct (ckr R); [rewrite decide_False by naive_solver|]; apply Hnone.
  - intros d k. rewrite Hst3. case_decide as Hin; [naive_solver|]. rewrite Hsk1.
    destruct (ckr R); [case_decide|]; naive_solver.
Qed.
End receive.

Lemma upd_eq {A} (f : bool → A) b v : upd f b v b = v.
Proof. unfold upd. by rewrite decide_True. Qed.
Lemma upd_negb {A} (f : bool → A) b v : upd f b v (negb b) = f (negb b).
Proof. unfold upd. rewrite decide_False; [done|]. by destruct b. Qed.
Lemma upd_negb' {A} (f : bool → A) b v : upd f (negb b) v b = f b.
Proof. unfold upd. rewrite decide_False; [done|]. by destruct b. Qed.
Lemma bool_side (s b : bool) : b = s ∨ b = negb s.
Proof. destruct s, b; auto. Qed.

Lemma other_key l1 p l2 q :
  NoDup (p_key <$> (l1 ++ p :: l2)) → q ∈ l1 ++ l2 → p_key q ≠ p_key p.
Proof.
  rewrite fmap_app, fmap_cons. intros (_ & Hd & [Hn _]%NoDup_cons)%NoDup_app Hq Heq.
  apply elem_of_app in Hq as [Hq|Hq].
  - apply (Hd (p_key q)); [by apply list_elem_of_fmap_2|]. rewrite Heq. set_solver.
  - apply Hn. rewrite <-Heq. by apply list_elem_of_fmap_2.
Qed.

Section preservation.
Context `{Crypto, Bincode Header, !CryptoLaws}.
Implicit Types (R S : RatchetState) (p q : packet) (fl : list packet).

(** *** Fewer packets *)

Lemma flight_ok_lose S l1 p l2 seen :
  flight_ok S (l1 ++ p :: l2) seen → flight_ok S (l1 ++ l2) seen.
Proof.
  intros [Hk Hs Hb Hn]. split.
  - eapply sublist_NoDup; [exact Hk|]. rewrite !fmap_app, fmap_cons.
    by apply sublist_app, sublist_cons.
  - intros q Hq. apply Hs. set_solver.
  - intros q Hq. apply Hb. set_solver.
  - intros q Hq. apply Hn. set_solver.
Qed.

Lemma ahead_sub S R fl fl' : (∀ q, q ∈ fl' → q ∈ fl) → ahead S R fl → ahead S R fl'.
Proof.
  intros Hsub (Hd & Hn & root & Hk & Hc & Hfl). split; [done|]. split; [done|].
  exists root. split_and!; auto.
Qed.

Lemma caught_sub S R fl fl' : (∀ q, q ∈ fl' → q ∈ fl) → caught S R fl → caught S R fl'.
Proof.
  intros Hsub [Hr [[Hc ->]|Hc]]; (split; [by auto|]).
  - left. split; [done|]. destruct fl'; [done|]. set_solver.
  - by right.
Qed.

Lemma flight_ok_seen S fl seen seen' : seen ⊆ seen' → flight_ok S fl seen → flight_ok S fl seen'.
Proof. intros Hsub [Hk Hs Hb Hn]. split; auto. Qed.

Lemma state_ok_seen R seen seen' : seen ⊆ seen' → state_ok R seen → state_ok R seen'.
Proof. intros Hsub []. split; eauto. Qed.

(** *** Sending *)

Lemma encrypt_spec S pt S' h ct :
  ratchet_encrypt S pt = (S', Ok (h, ct)) → (ns S < u32_max)%N →
  ∃ ck, cks S = Some ck ∧ S' = set_sending S (Some (kdf_ck ck).1) (ns S + 1) ∧
    h = MkHeader (dhs_public S) (pn S) (ns S) ∧ sealed (kdf_ck ck).2 h pt ct.
Proof.
  unfold ratchet_encrypt. destruct (cks S) as [ck|]; [|done]. intros He Hn.
  destruct (kdf_ck ck) as [ck2 mk] eqn:Hk. destruct (aead_encrypt _ _ _) as [c|] eqn:Ha; [|done].
  injection He as <- <- <-. exists ck. rewrite Hk, wrapping_add_small by lia. done.
Qed.

Lemma flight_ok_send S fl seen ck h ct pt :
  flight_ok S fl seen → dhs_public S ∈ seen → (ns S < u32_max)%N →
  h = MkHeader (dhs_public S) (pn S) (ns S) →
  flight_ok (set_sending S ck (ns S + 1)) (MkPacket h ct pt :: fl) seen.
Proof.
  intros [Hk Hs Hb Hn] Hseen Hmx ->. split.
  - rewrite fmap_cons. apply NoDup_cons. split; [|done].
    intros (q & Hq & Hin)%list_elem_of_fmap. unfold p_key in Hq. simplify_eq/=.
    specialize (Hn q Hin). unfold p_pub, p_n in *. cbn in *. specialize (Hn ltac:(congruence)). lia.
  - intros q [->|Hq]%elem_of_cons; [done|auto].
  - intros q [->|Hq]%elem_of_cons; [done|auto].
  - intros q [->|Hq]%elem_of_cons; cbn; [lia|]. intros Hpub. specialize (Hn q Hq Hpub). lia.
Qed.

Lemma ahead_send S R fl ck h ct pt :
  ahead S R fl → cks S = Some ck → h = MkHeader (dhs_public S) (pn S) (ns S) →
  sealed (kdf_ck ck).2 h pt ct →
  ahead (set_sending S (Some (kdf_ck ck).1) (ns S + 1)) R (MkPacket h ct pt :: fl).
Proof.
  intros (Hd & Hn & root & Hk & Hc & Hfl) Hck -> Hs. split; [done|]. split; [done|].
  exists root. rewrite Hck in Hc. injection Hc as ->. split; [done|]. split.
  - cbn [set_sending cks ns]. rewrite N.add_1_r, N2Nat.inj_succ, chain_S. done.
  - intros q [->|Hq]%elem_of_cons; [by left|]. by apply Hfl.
Qed.

Lemma caught_send S R fl seen ck h ct pt :
  state_ok R seen → caught S R fl → cks S = Some ck →
  h = MkHeader (dhs_public S) (pn S) (ns S) → sealed (kdf_ck ck).2 h pt ct →
  caught (set_sending S (Some (kdf_ck ck).1) (ns S + 1)) R (MkPacket h ct pt :: fl).
Proof.
  intros Hok [Hr [[Hc _]|(Hd & ck0 & Hck0 & Hle & Hc)]] Hck -> Hs; [congruence|].
  rewrite Hck in Hc. injection Hc as ->. split.
  - intros q [->|Hq]%elem_of_cons; [|by auto]. unfold readable, p_key, p_pub, p_n. cbn.
    rewrite (so_future _ _ Hok _ _ Hd Hle). split; [done|]. exists ck0. done.
  - right. split; [done|]. exists ck0. cbn [set_sending cks ns]. split; [done|]. split; [lia|].
    rewrite <-chain_S. do 2 f_equal. lia.
Qed.

(** *** The direction that a step does not touch *)

Lemma readable_set_sending R ck n q : readable (set_sending R ck n) q ↔ readable R q.
Proof. done. Qed.

Lemma state_ok_set_sending R seen ck n : state_ok R seen → state_ok (set_sending R ck n) seen.
Proof. intros []. by split. Qed.

Lemma ahead_same_sender S R R' fl :
  same_sender R R' → ahead R S fl → ahead R' S fl.
Proof.
  intros [Es Ep Ed Er Ec En Epn] (Hd & Hn & root & Hk & Hc & Hfl).
  unfold ahead. rewrite Ep, Er, Ec, En, Epn. eauto 10.
Qed.

Lemma caught_same_sender S R R' fl :
  same_sender R R' → caught R S fl → caught R' S fl.
Proof. intros [Es Ep Ed Er Ec En Epn] Hc. unfold caught. by rewrite Ep, Ec, En. Qed.

Lemma flight_ok_same_sender R R' fl seen :
  same_sender R R' → flight_ok R fl seen → flight_ok R' fl seen.
Proof. intros [Es Ep Ed Er Ec En Epn] []. split; rewrite ?Ep, ?En; auto. Qed.

(** *** Receiving *)

Lemma ahead_receive S R R' l1 p l2 :
  ahead S R (l1 ++ p :: l2) → same_sender R R' →
  (∀ q, readable R q → p_key q ≠ p_key p → readable R' q) →
  (∀ d k, dhr R ≠ Some d → skipped R !! (d, k) = None → skipped R' !! (d, k) = None) →
  NoDup (p_key <$> (l1 ++ p :: l2)) → ahead S R' (l1 ++ l2).
Proof.
  intros (Hd & Hn & root & Hk & Hc & Hfl) [Es Ep Ed Er Ec En Epn] Hread Hnone Hkeys.
  unfold ahead. rewrite Es, Ed, Er. split; [done|]. split; [auto|].
  exists root. split_and!; try done. intros q Hq.
  destruct (Hfl q ltac:(set_solver)) as [?|(Hpq & Hr & Hb)]; [by left|right].
  split_and!; try done. apply Hread; [done|]. by eapply other_key.
Qed.

Lemma caught_receive S R R' l1 p l2 seen :
  caught S R (l1 ++ p :: l2) → flight_ok S (l1 ++ p :: l2) seen → same_sender R R' →
  continues R R' → (nr R' = nr R ∨ (dhr R = Some (p_pub p) ∧ nr R' = (p_n p + 1)%N)) →
  (∀ q, readable R q → p_key q ≠ p_key p → readable R' q) → caught S R' (l1 ++ l2).
Proof.
  intros [Hr Hc] [Hkeys _ _ Hsent] [Es Ep Ed Er Ec En Epn] Hcont Hnr Hread. split.
  - intros q Hq. apply Hread; [apply Hr; set_solver|]. by eapply other_key.
  - destruct Hc as [[_ Hnil]|(Hd & ck & Hck & Hle & Hcs)]; [by destruct l1|].
    right. rewrite Ed. split; [done|]. destruct (Hcont ck Hck) as [Hle' Hck'].
    eexists. split; [done|]. assert (nr R' ≤ ns S)%N as Hb.
    { destruct Hnr as [->|[Hd' ->]]; [done|]. specialize (Hsent p ltac:(set_solver)).
      assert (p_pub p = dhs_public S) by congruence. specialize (Hsent ltac:(done)). lia. }
    split; [done|]. rewrite <-chain_add, Hcs. do 2 f_equal. lia.
Qed.

(** A party that adopts the peer's new key is ahead in its turn. *)
Lemma ahead_turn S R R' fl seen :
  caught R S fl → flight_ok R fl seen → state_ok S seen → dhs_public R' ∉ seen →
  (∃ root', kdf_rk (rk S) (dh (dhs_secret S) (dhs_public R')) = (rk R', root') ∧
     cks R' = Some root') →
  ns R' = 0%N → pn R' = ns R → ahead R' S fl.
Proof.
  intros [Hr Hc] [_ Hseen _ Hsent] Hok Hfresh (root' & Hk & Hcks) Hns Hpn.
  assert (∀ d, dhr S = Some d → d ≠ dhs_public R') as Hnd.
  { intros d Hd ->. by apply Hfresh, (so_dhr _ _ Hok). }
  split; [intros Hd; by eapply Hnd|]. split.
  { intros k. destruct (skipped S !! (dhs_public R', k)) eqn:E; [|done].
    exfalso. eapply Hfresh, (so_skipped _ _ Hok). eauto. }
  exists root'. split; [done|]. rewrite Hns. split; [done|]. intros q Hq. right.
  split; [intros E; apply Hfresh; rewrite <-E; auto|]. split; [auto|].
  intros Hd. rewrite Hpn. destruct Hc as [[_ ->]|(Hd' & _)]; [set_solver|].
  apply Hsent; [done|congruence].
Qed.
End preservation.

Section invariant.
Context `{Crypto, Bincode Header, !CryptoLaws}.

Lemma session_inv_start ss a b :
  x25519_public a ≠ x25519_public b → session_inv (start ss a b).
Proof.
  intros Hne. split; [|split].
  - intros []; cbn; unfold init_alice;
      [destruct (kdf_rk ss (dh a (x25519_public b))) as [rk0 root]|]; split; cbn;
      try set_solver; try (intros ? ? [? ?]); try (intros [? ?]); done.
  - intros []; split; cbn; try apply NoDup_nil_2; set_solver.
  - exists true. cbn. unfold init_alice.
    destruct (kdf_rk ss (dh a (x25519_public b))) as [rk0 root] eqn:Hk. split.
    + split; [done|]. split; [done|]. exists root. cbn. split; [|split; [done|set_solver]].
      rewrite <-Hk. f_equal. apply x25519_agree.
    + split; [set_solver|]. left. done.
Qed.

(** [session_inv], said of the two ends of one packet's journey. *)
Lemma session_inv_world w s R F seen :
  state_ok R seen → state_ok (party w (negb s)) seen →
  flight_ok R (flight w s) seen → flight_ok (party w (negb s)) F seen →
  (ahead R (party w (negb s)) (flight w s) ∧ caught (party w (negb s)) R F ∨
   ahead (party w (negb s)) R F ∧ caught R (party w (negb s)) (flight w s)) →
  session_inv (MkWorld (upd (party w) s R) (upd (flight w) (negb s) F) seen).
Proof.
  intros HR HS HfR HfS Hturn. split; [|split]; cbn [party flight used].
  - intros b. destruct (bool_side s b) as [-> | ->]; by rewrite ?upd_eq, ?upd_negb.
  - intros b. destruct (bool_side s b) as [-> | ->];
      by rewrite ?upd_negb, ?upd_negb', ?upd_eq, ?upd_negb'.
  - destruct Hturn as [[??]|[??]]; [exists s|exists (negb s); rewrite negb_involutive];
      by rewrite ?upd_eq, ?upd_negb, ?upd_negb', ?upd_eq.
Qed.

Lemma deliver_spec w s p l1 l2 fresh :
  session_inv w → flight w (negb s) = l1 ++ p :: l2 →
  within_limits (party w s) (p_header p) → x25519_public fresh ∉ used w →
  ∃ R', ratchet_decrypt fresh (party w s) (p_header p) (p_ct p) = (R', Ok (p_plain p)) ∧
    session_inv (MkWorld (upd (party w) s R') (upd (flight w) (negb s) (l1 ++ l2))
      ({[x25519_public fresh]} ∪ used w)).
Proof.
  intros (Hst & Hfl & a & Hah & Hca) Hp Hlim Hfresh.
  assert (used w ⊆ {[x25519_public fresh]} ∪ used w) as Hsub by set_solver.
  pose proof (Hfl (negb s)) as Hf. rewrite Hp in Hf.
  pose proof (fo_bound _ _ _ Hf p ltac:(set_solver)) as Hmx.
  assert (readable (party w s) p →
    (ahead (party w s) (party w (negb s)) (flight w s) ∧
       caught (party w (negb s)) (party w s) (l1 ++ p :: l2) ∨
     ahead (party w (negb s)) (party w s) (l1 ++ p :: l2) ∧
       caught (party w s) (party w (negb s)) (flight w s)) →
    ∃ R', ratchet_decrypt fresh (party w s) (p_header p) (p_ct p) = (R', Ok (p_plain p)) ∧
    session_inv (MkWorld (upd (party w) s R') (upd (flight w) (negb s) (l1 ++ l2))
      ({[x25519_public fresh]} ∪ used w))) as Hold.
  { intros Hread Hturn.
    destruct (receive_readable fresh _ _ p (Hst s) Hread Hlim Hmx)
      as (R' & -> & Hss & Hok & Hcont & Hnr & Hr & Hn).
    exists R'. split; [done|]. apply session_inv_world.
    - by eapply state_ok_seen.
    - by eapply state_ok_seen.
    - eapply flight_ok_seen, flight_ok_same_sender; eauto.
    - eapply flight_ok_seen, flight_ok_lose; eauto.
    - destruct Hturn as [[Ha Hc]|[Ha Hc]]; [left|right].
      + split; [by eapply ahead_same_sender|]. by eapply caught_receive.
      + split; [|by eapply caught_same_sender]. eapply ahead_receive; try done. apply Hf. }
  destruct (bool_side s a) as [-> | ->].
  { rewrite Hp in Hca. apply Hold; [|by left]. apply (proj1 Hca). set_solver. }
  rewrite negb_involutive in *. rewrite Hp in Hah.
  destruct Hah as (Hd & Hno & root & Hk & Hc & Hpk) eqn:Eah. clear Eah.
  destruct (Hpk p ltac:(set_solver)) as [(Hpub & _)|(_ & Hread & _)]; [|apply Hold; [done|right]; by split].
  destruct (receive_new fresh (used w) (party w (negb s)) (party w s) (l1 ++ p :: l2) p)
    as (R' & -> & E1 & E2 & E3 & E4 & E5 & E6 & E7 & (ck & E8 & E9) & E10 & E11 & E12);
    try done; [set_solver|apply Hf|apply (fo_sent _ _ _ Hf); [set_solver|done]|apply Hst|].
  exists R'. split; [done|].
  assert (p_n p < ns (party w (negb s)))%N as Hlt by (apply (fo_sent _ _ _ Hf); [set_solver|done]).
  apply session_inv_world.
  - split; rewrite ?E1, ?E2, ?E3.
    + done.
    + apply elem_of_union_l, elem_of_singleton_2. done.
    + intros d [= <-]. apply Hsub, Hst.
    + intros d k Hk'. apply Hsub. destruct (E12 d k Hk') as [->|[Hd'|Hs']];
        [apply Hst|by apply (so_dhr _ _ (Hst s))|by apply (so_skipped _ _ (Hst s) d k)].
    + intros _. eauto.
    + intros d k [= <-]. apply E11.
  - by eapply state_ok_seen.
  - pose proof (Hfl s) as [F1 F2 F3 F4]. split; auto. intros q Hq Hq'. exfalso. apply Hfresh.
    rewrite <-E2, <-Hq'. auto.
  - eapply flight_ok_seen, flight_ok_lose; eauto.
  - left. split.
    + eapply ahead_turn; eauto. by rewrite E2.
    + split; [intros q Hq; apply E10; [set_solver|eapply other_key; [apply Hf|done]]|].
      right. rewrite E3. split; [done|]. exists ck. split; [done|]. split; [lia|done].
Qed.

(** Only the queue of a restored state may differ. *)
Lemma restored_eq R :
  ratchet_inv R → ∃ order, ratchet_unwire (ratchet_wire R) = set_skipped R (skipped R) order.
Proof.
  intros Hri. exists (w_skipped (ratchet_wire R)).*1.
  pose proof (restored_skipped R (ri_order R Hri)) as Hsk. destruct Hri as [Hkp _ _ _ _ _ _].
  unfold ratchet_unwire, set_skipped in *. cbn [skipped] in Hsk. rewrite Hsk, Hkp. done.
Qed.

Lemma session_inv_restore w s :
  session_inv w → ratchet_inv (party w s) →
  session_inv (MkWorld (upd (party w) s (ratchet_unwire (ratchet_wire (party w s))))
    (flight w) (used w)).
Proof.
  intros (Hst & Hfl & a & Hah & Hca) Hri. destruct (restored_eq _ Hri) as [order ->].
  split; [|split]; cbn [party flight used].
  - intros b. destruct (bool_side s b) as [-> | ->]; rewrite ?upd_eq, ?upd_negb; [|done].
    by destruct (Hst s).
  - intros b. destruct (bool_side s b) as [-> | ->]; rewrite ?upd_eq, ?upd_negb; [|done].
    by destruct (Hfl s).
  - exists a. destruct (bool_side s a) as [-> | ->];
      rewrite ?negb_involutive, ?upd_eq, ?upd_negb, ?upd_eq in *; done.
Qed.

(** [session_inv], with what the states satisfy on their own. *)
Definition world_inv (w : world) : Prop :=
  session_inv w ∧ (∀ s, ratchet_inv (party w s)) ∧
  ∀ s p, p ∈ flight w s → (h_pn (p_header p) ≤ u32_max)%N.

Lemma session_inv_step w w' : world_inv w → step w w' → session_inv w'.
Proof.
  intros [Hinv [Hri _]] Hstep. pose proof Hinv as (Hst & Hfl & a & Hah & Hca).
  destruct Hstep as [s pt S' h ct Hmx He|s p l1 l2 fresh R' r Hp Hlim Hfresh Hd|s p l1 l2 Hp|s].
  - destruct (encrypt_spec _ _ _ _ _ He Hmx) as (ck & Hck & -> & Hh & Hs).
    split; [|split]; cbn [party flight used].
    + intros b. destruct (bool_side s b) as [-> | ->]; rewrite ?upd_eq, ?upd_negb;
        [by apply state_ok_set_sending|done].
    + intros b. destruct (bool_side s b) as [-> | ->]; rewrite ?upd_eq, ?upd_negb; [|done].
      apply flight_ok_send; try done. apply Hst.
    + exists a. destruct (bool_side s a) as [-> | ->];
        rewrite ?negb_involutive, ?upd_eq, ?upd_negb, ?upd_eq in *.
      * split; [by apply ahead_send|]. exact Hca.
      * split; [exact Hah|]. by eapply caught_send.
  - destruct (deliver_spec w s p l1 l2 fresh Hinv Hp Hlim Hfresh) as (R1 & Hd' & Hinv').
    rewrite Hd in Hd'. injection Hd' as -> _. exact Hinv'.
  - split; [done|]. split; cbn [party flight used].
    + intros b. destruct (bool_side s b) as [-> | ->]; rewrite ?upd_eq, ?upd_negb; [|done].
      eapply flight_ok_lose. rewrite <-Hp. done.
    + exists a. destruct (bool_side s a) as [-> | ->];
        rewrite ?negb_involutive, ?upd_eq, ?upd_negb, ?upd_eq in *; rewrite Hp in *.
      * split; [|done]. eapply ahead_sub, Hah. set_solver.
      * split; [done|]. eapply caught_sub, Hca. set_solver.
  - by apply session_inv_restore.
Qed.

Lemma world_inv_step w w' : world_inv w → step w w' → world_inv w'.
Proof.
  intros Hw Hstep. split; [by eapply session_inv_step|]. destruct Hw as [(_ & Hfl & _) [Hri Hpn]].
  destruct Hstep as [s pt S' h ct Hmx He|s p l1 l2 fresh R' r Hp Hlim Hfresh Hd|s p l1 l2 Hp|s];
    cbn [party flight]; split; try done.
  - intros b. destruct (bool_side s b) as [-> | ->]; rewrite ?upd_eq, ?upd_negb; [|done].
    pose proof (ratchet_encrypt_inv (party w s) pt (Hri s)) as Hi. by rewrite He in Hi.
  - intros b. destruct (bool_side s b) as [-> | ->]; rewrite ?upd_eq, ?upd_negb; [|apply Hpn].
    intros q [->|Hq]%elem_of_cons; [|by eapply Hpn].
    destruct (encrypt_spec _ _ _ _ _ He Hmx) as (ck & _ & _ & -> & _). cbn. apply Hri.
  - intros b. destruct (bool_side s b) as [-> | ->]; rewrite ?upd_eq, ?upd_negb; [|done].
    assert (p ∈ flight w (negb s)) as Hin by (rewrite Hp; set_solver).
    pose proof (ratchet_decrypt_inv fresh (party w s) (p_header p) (p_ct p) (Hri s)) as Hi.
    rewrite Hd in Hi. apply Hi; [|by eapply Hpn].
    pose proof (fo_bound _ _ _ (Hfl (negb s)) p Hin) as Hn. unfold p_n in Hn. lia.
  - intros b q. destruct (bool_side (negb s) b) as [-> | ->]; rewrite ?upd_eq, ?upd_negb; [|apply Hpn].
    intros Hq. apply (Hpn (negb s)). rewrite Hp. set_solver.
  - intros b q. destruct (bool_side s b) as [-> | ->]; rewrite ?upd_eq, ?upd_negb; [|apply Hpn].
    intros Hq. apply (Hpn s). rewrite Hp. set_solver.
  - intros b. destruct (bool_side s b) as [-> | ->]; rewrite ?upd_eq, ?upd_negb; [|done].
    by apply ratchet_unwire_inv.
Qed.

Lemma world_inv_start ss a b : x25519_public a ≠ x25519_public b → world_inv (start ss a b).
Proof.
  intros Hne. split; [by apply session_inv_start|]. split; [|by intros s p ?%elem_of_nil].
  intros []; cbn; unfold init_alice;
    [destruct (kdf_rk ss (dh a (x25519_public b))) as [rk0 root]|]; by apply fresh_inv.
Qed.

Lemma world_inv_reachable ss a b w :
  x25519_public a ≠ x25519_public b → rtc step (start ss a b) w → world_inv w.
Proof.
  intros Hne. apply rtc_ind_r; [by apply world_inv_start|].
  intros y z _ Hstep Hy. by eapply world_inv_step.
Qed.

Lemma session_inv_reachable ss a b w :
  x25519_public a ≠ x25519_public b → rtc step (start ss a b) w → session_inv w.
Proof. intros Hne Hr. by apply (world_inv_reachable ss a b). Qed.


(** Either party of a reachable session can send once it has a sending chain:
    encryption of a message AES-GCM accepts succeeds, numbers it with the chain's
    counter and moves nothing but the sending chain; and of the two parties one
    always has a sending chain. *)
Lemma session_can_send ss a b w :
  x25519_public a ≠ x25519_public b → rtc step (start ss a b) w →
  (∃ s, is_Some (cks (party w s))) ∧
  ∀ s ck pt, cks (party w s) = Some ck → (N.of_nat (length pt) ≤ aead_max)%N →
    ∃ ct, ratchet_encrypt (party w s) pt =
      (set_sending (party w s) (Some (kdf_ck ck).1) (wrapping_add u32_max (ns (party w s)) 1),
       Ok (MkHeader (dhs_public (party w s)) (pn (party w s)) (ns (party w s)), ct)).
Proof.
  intros Hne Hreach. split.
  - destruct (session_inv_reachable ss a b w Hne Hreach) as (_ & _ & s & (_ & _ & root & _ & Hc & _) & _).
    exists s. rewrite Hc. eauto.
  - intros s ck pt Hck Hlen. unfold ratchet_encrypt. rewrite Hck.
    destruct (kdf_ck ck) as [ck2 mk]. unfold aead_encrypt. destruct (message_keys mk) as [key nonce] eqn:Hmk.
    destruct (aes_gcm_encrypt_total key nonce
      (header_encode (MkHeader (dhs_public (party w s)) (pn (party w s)) (ns (party w s)))) pt)
      as (ct & -> & _); [..|done|].
    + injection Hmk as <- _. rewrite length_take, hkdf_length. done.
    + injection Hmk as _ <-. rewrite length_drop, hkdf_length. done.
    + by exists ct.
Qed.
End invariant.

(** Alice sends twice; the second packet arrives first. *)
Module SessionWitness.
Import ToyCrypto RatchetCodec RatchetWitness.

Definition w0 : world := start shared (key Byte.x01) (key Byte.x02).
Definition sent (w : world) (s : bool) (pt : bytes) : world :=
  match ratchet_encrypt (party w s) pt with
  | (st', Ok (h, ct)) => MkWorld (upd (party w) s st')
      (upd (flight w) s (MkPacket h ct pt :: flight w s)) (used w)
  | _ => w
  end.
Definition w2 : world := sent (sent w0 true (str "one")) true (str "two").
Definition second : packet :=
  default (MkPacket (MkHeader [] 0 0) [] []) (head (flight w2 true)).

Lemma keys_differ : x25519_public (key Byte.x01) ≠ x25519_public (key Byte.x02).
Proof. vm_compute. discriminate. Qed.

Lemma sent_step w s pt :
  (ns (party w s) < u32_max)%N → is_ok (ratchet_encrypt (party w s) pt).2 = true →
  step w (sent w s pt).
Proof.
  intros Hn Hok. unfold sent.
  destruct (ratchet_encrypt (party w s) pt) as [st' [[h ct]|]] eqn:He; [|done].
  by eapply step_send.
Qed.

Lemma w2_reachable : rtc step w0 w2.
Proof.
  apply (rtc_l _ _ (sent w0 true (str "one"))); [|apply rtc_once];
    apply sent_step; vm_compute; reflexivity.
Qed.


End SessionWitness.
