(* ===== verification/SenderKey.v ===== *)
(** * Sender keys of channels

    Models crates/mesh-talk-core/src/channel/sender_key.rs and
    channel/sender_key/checkpoint.rs: one symmetric chain per sender, the
    receiver's bounded buffer of skipped keys, and the device-local checkpoint of a
    receiver.  [SenderKey::generate] is [sender_key_new] applied to the bytes of
    the operating system's generator. *)

From S2P Require Import Prelude Crypto Bincode Ratchet.

Definition SK_MAX_SKIP : N := 1000.
Definition SK_MAX_SKIPPED_TOTAL : nat := 2000.

Inductive SenderKeyError :=
  | SkEncrypt
  | SkDecrypt
  | SkTooManySkipped
  | SkMalformed (m : bytes).

Definition exhausted : SenderKeyError := SkMalformed (str "sender chain exhausted").
Definition consumed : SenderKeyError := SkMalformed (str "message key already consumed").

Record SenderKey := MkSenderKey { sk_chain_key : bytes; sk_n : N }.

Record SenderKeyDistribution := MkDistribution { skd_chain_key : bytes; skd_n : N }.

Record SenderChain := MkSenderChain {
  sc_chain_key : bytes;
  sc_n : N;
  sc_skipped : gmap N bytes;
  sc_order : list N
}.

#[global] Instance SenderKey_wf : TypeWf SenderKey := λ k,
  length (sk_chain_key k) = 32 ∧ (sk_n k ≤ u32_max)%N.
#[global] Instance SenderKeyDistribution_wf : TypeWf SenderKeyDistribution := λ d,
  length (skd_chain_key d) = 32 ∧ (skd_n d ≤ u32_max)%N.

Section sender.
Context `{Crypto, Bincode SenderKey, Bincode SenderKeyDistribution}.

Definition sender_key_new (chain_key : bytes) : SenderKey := MkSenderKey chain_key 0.

Definition distribution (k : SenderKey) : SenderKeyDistribution :=
  MkDistribution (sk_chain_key k) (sk_n k).

Definition try_ratchet (k : SenderKey) : SenderKey * result SenderKeyError (N * bytes) :=
  match checked_add u32_max (sk_n k) 1 with
  | None => (k, Err exhausted)
  | Some next_n =>
      let '(next, mk) := kdf_ck (sk_chain_key k) in
      (MkSenderKey next next_n, Ok (sk_n k, mk))
  end.

(** [SenderKeyWire] mirrors the fields of [SenderKey]. *)
Definition sender_key_serialize (k : SenderKey) : bytes := ser k.
Definition sender_key_deserialize (bs : bytes) : option SenderKey := de bs.

Definition skd_encode (d : SenderKeyDistribution) : bytes := ser d.
Definition skd_decode (bs : bytes) : option SenderKeyDistribution := de bs.

Definition seal_message (mk plaintext aad : bytes) : result SenderKeyError bytes :=
  let '(key, nonce) := message_keys mk in
  ok_or (aes_gcm_encrypt key nonce aad plaintext) SkEncrypt.

Definition open_message (mk ciphertext aad : bytes) : result SenderKeyError bytes :=
  let '(key, nonce) := message_keys mk in
  ok_or (aes_gcm_decrypt key nonce aad ciphertext) SkDecrypt.

(** ** The receiver *)

Definition from_distribution (d : SenderKeyDistribution) : SenderChain :=
  MkSenderChain (skd_chain_key d) (skd_n d) ∅ [].

Definition refresh_distribution (c : SenderChain) (d : SenderKeyDistribution) : SenderChain :=
  if decide (SK_MAX_SKIP < skd_n d - sc_n c)%N
  then MkSenderChain (skd_chain_key d) (skd_n d) (sc_skipped c) (sc_order c)
  else c.

Definition current_distribution (c : SenderChain) : SenderKeyDistribution :=
  MkDistribution (sc_chain_key c) (sc_n c).

Fixpoint sk_evict (order : list N) (sk : gmap N bytes) : list N * gmap N bytes :=
  match order with
  | [] => ([], sk)
  | old :: rest =>
      if decide (SK_MAX_SKIPPED_TOTAL < size sk) then sk_evict rest (delete old sk)
      else (order, sk)
  end.

(** [count] rounds of the forward loop. *)
Fixpoint advance (count : nat) (c : SenderChain) : SenderChain :=
  match count with
  | O => c
  | S count =>
      let '(next, mk) := kdf_ck (sc_chain_key c) in
      let '(order, sk) :=
        sk_evict (sc_order c ++ [sc_n c]) (<[sc_n c := mk]> (sc_skipped c)) in
      advance count (MkSenderChain next (sc_n c + 1) sk order)
  end.

Definition message_key (c : SenderChain) (target : N) :
    SenderChain * result SenderKeyError bytes :=
  match sc_skipped c !! target with
  | Some mk =>
      (MkSenderChain (sc_chain_key c) (sc_n c) (delete target (sc_skipped c))
         (filter (λ k, k ≠ target) (sc_order c)), Ok mk)
  | None =>
      if decide (target < sc_n c)%N then (c, Err consumed)
      else
        match checked_add u32_max target 1 with
        | None => (c, Err exhausted)
        | Some next_n =>
            if decide (SK_MAX_SKIP < target - sc_n c)%N then (c, Err SkTooManySkipped)
            else
              let c := advance (N.to_nat (target - sc_n c)) c in
              let '(next, mk) := kdf_ck (sc_chain_key c) in
              (MkSenderChain next next_n (sc_skipped c) (sc_order c), Ok mk)
        end
  end.

(** ** The local checkpoint *)

Definition MAGIC : bytes := str "MTRX" ++ [Byte.x01].
Definition HEADER : nat := 5 + 32 + 4 + 4.
Definition ENTRY : nat := 4 + 32.
Definition MAX_BYTES : nat := HEADER + SK_MAX_SKIPPED_TOTAL * ENTRY.

Definition invalid : SenderKeyError :=
  SkMalformed (str "invalid local receiver checkpoint").

(** The validation loop, with the set of positions already seen. *)
Fixpoint order_valid (c : SenderChain) (seen : gset N) (order : list N) : bool :=
  match order with
  | [] => true
  | position :: order =>
      if decide (sc_n c ≤ position ∨ sc_skipped c !! position = None ∨ position ∈ seen)%N
      then false
      else order_valid c ({[position]} ∪ seen) order
  end.

Definition encode_entry (c : SenderChain) (position : N) : bytes :=
  be_bytes 4 position ++ default [] (sc_skipped c !! position).

Definition encode_checkpoint (c : SenderChain) : result SenderKeyError bytes :=
  if decide (SK_MAX_SKIPPED_TOTAL < size (sc_skipped c) ∨
             length (sc_order c) ≠ size (sc_skipped c))
  then Err invalid
  else if order_valid c ∅ (sc_order c)
  then Ok (MAGIC ++ sc_chain_key c ++ be_bytes 4 (sc_n c) ++
           be_bytes 4 (N.of_nat (length (sc_order c))) ++
           (sc_order c ≫= encode_entry c))
  else Err invalid.

(** [bytes[a..b]]. *)
Definition slice (a b : nat) (bs : bytes) : bytes := take (b - a) (drop a bs).

(** The loop over the 36-byte chunks of the rest. *)
Fixpoint decode_entries (count : nat) (bs : bytes) (c : SenderChain) :
    result SenderKeyError SenderChain :=
  match count with
  | O => Ok c
  | S count =>
      let entry := take ENTRY bs in
      let position := be_value (slice 0 4 entry) in
      if decide (sc_n c ≤ position ∨ is_Some (sc_skipped c !! position))%N
      then Err invalid
      else decode_entries count (drop ENTRY bs)
             (MkSenderChain (sc_chain_key c) (sc_n c)
                (<[position := drop 4 entry]> (sc_skipped c)) (sc_order c ++ [position]))
  end.

Definition decode_checkpoint (bs : bytes) : result SenderKeyError SenderChain :=
  if decide (length bs < HEADER ∨ MAX_BYTES < length bs ∨ take 5 bs ≠ MAGIC)
  then Err invalid
  else
    let n := be_value (slice 37 41 bs) in
    let count := N.to_nat (be_value (slice 41 45 bs)) in
    if decide (SK_MAX_SKIPPED_TOTAL < count ∨ length bs ≠ HEADER + count * ENTRY)
    then Err invalid
    else decode_entries (length (drop HEADER bs) / ENTRY) (drop HEADER bs)
           (MkSenderChain (slice 5 37 bs) n ∅ []).

(** ** Opening on a private fork *)

Record PreparedReceiverOpen := MkPreparedOpen {
  po_next : SenderChain;
  po_plaintext : bytes
}.

Definition prepare_open (c : SenderChain) (target : N) (ciphertext aad : bytes) :
    result SenderKeyError PreparedReceiverOpen :=
  bs ← encode_checkpoint c;
  next ← decode_checkpoint bs;
  match message_key next target with
  | (_, Err e) => Err e
  | (next, Ok key) =>
      plaintext ← open_message key ciphertext aad;
      Ok (MkPreparedOpen next plaintext)
  end.

Definition into_checkpoint (p : PreparedReceiverOpen) :
    result SenderKeyError (bytes * bytes * N) :=
  bs ← encode_checkpoint (po_next p); Ok (bs, po_plaintext p, sc_n (po_next p)).

(** [install]: the new chain and the plaintext it hands out. *)
Definition install (p : PreparedReceiverOpen) (c : SenderChain) : SenderChain * bytes :=
  (po_next p, po_plaintext p).
End sender.

Lemma sk_cap : N.of_nat SK_MAX_SKIPPED_TOTAL = 2000%N.
Proof. vm_compute. reflexivity. Qed.

(** ** The invariant of a receiver *)

Record chain_inv (c : SenderChain) : Prop := {
  ci_nodup : NoDup (sc_order c);
  ci_dom k : k ∈ sc_order c ↔ k ∈ dom (sc_skipped c);
  ci_size : size (sc_skipped c) ≤ SK_MAX_SKIPPED_TOTAL;
  ci_past k : k ∈ sc_order c → (k < sc_n c)%N;
  ci_n : (sc_n c ≤ u32_max)%N;
  ci_key : length (sc_chain_key c) = 32;
  ci_keys k mk : sc_skipped c !! k = Some mk → length mk = 32
}.

Lemma sk_evict_spec order sk :
  NoDup order → (∀ k, k ∈ order ↔ k ∈ dom sk) →
  let r := sk_evict order sk in
  NoDup r.1 ∧ (∀ k, k ∈ r.1 ↔ k ∈ dom r.2) ∧ size r.2 ≤ SK_MAX_SKIPPED_TOTAL ∧
  r.2 ⊆ sk ∧ (∀ k, k ∈ r.1 → k ∈ order).
Proof.
  revert sk. induction order as [|old rest IH]; intros sk Hnd Hdom; cbn [sk_evict].
  - cbn [fst snd]. split_and!; try done.
    assert (sk = ∅) as -> by (apply dom_empty_inv_L, set_eq; set_solver).
    rewrite map_size_empty. lia.
  - case_decide as Hs; [|cbn [fst snd]; split_and!; try done; lia].
    apply NoDup_cons in Hnd as [Hnin Hnd]. destruct (IH (delete old sk) Hnd) as (?&?&?&?&?).
    { intros k. rewrite dom_delete, elem_of_difference, <-Hdom, elem_of_cons, elem_of_singleton.
      split; [|naive_solver]. intros Hk. split; [by right|]. by intros ->. }
    split_and!; try done; [|set_solver]. etrans; [done|]. apply delete_subseteq.
Qed.

Lemma sk_evict_noop order sk :
  size sk ≤ SK_MAX_SKIPPED_TOTAL → sk_evict order sk = (order, sk).
Proof. destruct order; [done|]. cbn [sk_evict]. by case_decide; [lia|]. Qed.

Section facts.
Context `{Crypto, !CryptoLaws}.
Implicit Types c : SenderChain.

Lemma kdf_ck_length ck : length (kdf_ck ck).1 = 32 ∧ length (kdf_ck ck).2 = 32.
Proof.
  unfold kdf_ck. cbn [fst snd]. rewrite length_take, length_drop, hkdf_length. done.
Qed.

Lemma message_keys_length mk :
  length (message_keys mk).1 = 32 ∧ length (message_keys mk).2 = 12.
Proof.
  unfold message_keys. cbn [fst snd]. rewrite length_take, length_drop, hkdf_length. done.
Qed.

(** One round of the forward loop. *)
Definition push c : SenderChain :=
  let r := sk_evict (sc_order c ++ [sc_n c])
             (<[sc_n c := (kdf_ck (sc_chain_key c)).2]> (sc_skipped c)) in
  MkSenderChain (kdf_ck (sc_chain_key c)).1 (sc_n c + 1) r.2 r.1.

Lemma advance_push count c : advance count c = Nat.iter count push c.
Proof.
  revert c. induction count as [|count IH]; intros c; [done|].
  rewrite Nat.iter_succ_r. cbn [advance]. unfold push at 2.
  destruct (kdf_ck (sc_chain_key c)) as [next mk]. cbn [fst snd].
  destruct (sk_evict _ _) as [order sk]. apply IH.
Qed.

Lemma push_inv c : chain_inv c → (sc_n c < u32_max)%N → chain_inv (push c).
Proof.
  intros [Hnd Hdom Hsz Hpast Hn Hk Hks] Hlt. unfold push.
  destruct (kdf_ck_length (sc_chain_key c)) as [L1 L2].
  destruct (sk_evict_spec (sc_order c ++ [sc_n c])
    (<[sc_n c := (kdf_ck (sc_chain_key c)).2]> (sc_skipped c))) as (E1 & E2 & E3 & E4 & E5).
  { apply NoDup_app. split_and!; [done| |apply NoDup_singleton].
    intros k Hin ->%list_elem_of_singleton. apply Hpast in Hin. lia. }
  { intros k. rewrite dom_insert, elem_of_app, list_elem_of_singleton, elem_of_union,
      elem_of_singleton, Hdom. tauto. }
  destruct (sk_evict _ _) as [order sk]. cbn [fst snd] in *.
  split; cbn [sc_order sc_skipped sc_n sc_chain_key]; try done.
  - intros k Hin%E5. rewrite elem_of_app, list_elem_of_singleton in Hin.
    destruct Hin as [Hin| ->]; [apply Hpast in Hin|]; lia.
  - lia.
  - intros k mk Hmk. eapply lookup_weaken in Hmk; [|exact E4].
    apply lookup_insert_Some in Hmk as [[_ <-]|[_ ?]]; eauto.
Qed.

Lemma advance_inv count c :
  chain_inv c → (sc_n c + N.of_nat count ≤ u32_max)%N →
  chain_inv (advance count c) ∧ sc_n (advance count c) = (sc_n c + N.of_nat count)%N.
Proof.
  rewrite advance_push. revert c. induction count as [|count IH]; intros c Hinv Hle.
  - cbn. split; [done|lia].
  - rewrite Nat.iter_succ_r. destruct (IH (push c)) as [? ->]; [apply push_inv; [done|lia]| |].
    + cbn [push sc_n]. lia.
    + split; [done|]. cbn [push sc_n]. lia.
Qed.

Lemma message_key_inv c target :
  chain_inv c → chain_inv (message_key c target).1.
Proof.
  intros Hinv. unfold message_key. destruct (sc_skipped c !! target) as [mk|] eqn:Hk.
  - destruct Hinv as [Hnd Hdom Hsz Hpast Hn Hkey Hks].
    split; cbn [fst sc_order sc_skipped sc_n sc_chain_key]; try done.
    + by apply NoDup_filter.
    + intros k. rewrite list_elem_of_filter, dom_delete, elem_of_difference, elem_of_singleton, Hdom. tauto.
    + rewrite map_size_delete. destruct (sc_skipped c !! target); simpl; lia.
    + intros k [_ ?]%list_elem_of_filter. auto.
    + intros k mk' [_ ?]%lookup_delete_Some. eauto.
  - case_decide as Hlt; [done|]. destruct (checked_add _ _ _) as [nn|] eqn:Hc; [|done].
    apply checked_add_Some in Hc as [-> Hc]. case_decide; [done|].
    destruct (advance_inv (N.to_nat (target - sc_n c)) c Hinv) as [Ha Hn]; [lia|].
    destruct (kdf_ck_length (sc_chain_key (advance (N.to_nat (target - sc_n c)) c))) as [L _].
    destruct (kdf_ck _) as [next mk]. cbn [fst]. destruct Ha.
    split; cbn [fst sc_order sc_skipped sc_n sc_chain_key]; try done.
    intros k Hin. specialize (ci_past0 k Hin). lia.
Qed.

(** ** Following one sender's chain *)

(** The receiver state [c] belongs to the chain that starts with key [root] at
    position [base]. *)
Record follows (root : bytes) (base : N) c : Prop := {
  fw_base : (base ≤ sc_n c)%N;
  fw_key : sc_chain_key c = chain root (N.to_nat (sc_n c - base));
  fw_skipped k mk :
    sc_skipped c !! k = Some mk → (base ≤ k)%N ∧ mk = mk_at root (k - base)
}.

Lemma follows_mk root base c :
  follows root base c → (kdf_ck (sc_chain_key c)).2 = mk_at root (sc_n c - base).
Proof. intros [_ -> _]. done. Qed.

Lemma follows_next root base c :
  follows root base c →
  (kdf_ck (sc_chain_key c)).1 = chain root (N.to_nat (sc_n c + 1 - base)).
Proof.
  intros [Hb -> _]. rewrite <-chain_S. f_equal. lia.
Qed.

Lemma sk_evict_sub order sk : (sk_evict order sk).2 ⊆ sk.
Proof.
  revert sk. induction order as [|old rest IH]; intros sk; cbn [sk_evict]; [done|].
  case_decide; [|done]. etrans; [apply IH|apply delete_subseteq].
Qed.

Lemma push_follows root base c : follows root base c → follows root base (push c).
Proof.
  intros Hf. split; cbn [push sc_n sc_chain_key sc_skipped].
  - destruct Hf. lia.
  - by apply follows_next.
  - intros k mk Hk. eapply lookup_weaken in Hk; [|apply sk_evict_sub].
    apply lookup_insert_Some in Hk as [[<- <-]|[_ Hk]]; [|by apply (fw_skipped _ _ _ Hf)].
    split; [apply Hf|by apply follows_mk].
Qed.

Lemma advance_follows root base count c :
  follows root base c → follows root base (advance count c) ∧
    sc_n (advance count c) = (sc_n c + N.of_nat count)%N.
Proof.
  rewrite advance_push. revert c. induction count as [|count IH]; intros c Hf.
  - cbn. split; [done|lia].
  - rewrite Nat.iter_succ_r. destruct (IH (push c) (push_follows _ _ _ Hf)) as [? ->].
    split; [done|]. cbn [push sc_n]. lia.
Qed.

Lemma message_key_follows root base c target :
  follows root base c →
  follows root base (message_key c target).1 ∧
  ∀ mk, (message_key c target).2 = Ok mk → (base ≤ target)%N ∧ mk = mk_at root (target - base).
Proof.
  intros Hf. unfold message_key. destruct (sc_skipped c !! target) as [mk|] eqn:Hk; cbn [fst snd].
  - split; [|intros ? [= <-]; by apply (fw_skipped _ _ _ Hf)].
    destruct Hf as [? ? Hs]. split; cbn [sc_n sc_chain_key sc_skipped]; try done.
    intros k mk' [_ ?]%lookup_delete_Some. by apply Hs.
  - case_decide as Hlt; [done|]. destruct (checked_add _ _ _) as [nn|] eqn:Hc; [|done].
    apply checked_add_Some in Hc as [-> Hc]. case_decide; [done|].
    destruct (advance_follows root base (N.to_nat (target - sc_n c)) c Hf) as [Ha Hn].
    replace (sc_n c + N.of_nat (N.to_nat (target - sc_n c)))%N with target in Hn by lia.
    pose proof (follows_mk _ _ _ Ha) as Hmk. pose proof (follows_next _ _ _ Ha) as Hnx.
    rewrite Hn in Hmk, Hnx. destruct (kdf_ck _) as [next mk]. cbn [fst snd] in *.
    destruct Ha as [Hb _ Hs]. rewrite Hn in Hb. split; [|intros ? [= <-]; done].
    split; cbn [sc_n sc_chain_key sc_skipped]; try done. lia.
Qed.

(** With room in the buffer nothing is evicted. *)
Lemma advance_room count c :
  size (sc_skipped c) + count ≤ SK_MAX_SKIPPED_TOTAL →
  size (sc_skipped (advance count c)) ≤ size (sc_skipped c) + count ∧
  ∀ k, (is_Some (sc_skipped c !! k) ∨ (sc_n c ≤ k ∧ k < sc_n c + N.of_nat count)%N) →
    is_Some (sc_skipped (advance count c) !! k).
Proof.
  rewrite advance_push. revert c. induction count as [|count IH]; intros c Hsz.
  - cbn. split; [lia|]. intros k [?|?]; [done|lia].
  - rewrite Nat.iter_succ_r.
    assert (sc_skipped (push c) = <[sc_n c := (kdf_ck (sc_chain_key c)).2]> (sc_skipped c)) as Hp.
    { cbn [push sc_skipped]. rewrite sk_evict_noop; [done|].
      rewrite map_size_insert. destruct (sc_skipped c !! sc_n c); simpl; lia. }
    assert (size (sc_skipped (push c)) ≤ S (size (sc_skipped c))) as Hsz'.
    { rewrite Hp, map_size_insert. destruct (sc_skipped c !! sc_n c); simpl; lia. }
    destruct (IH (push c)) as [E1 E2]; [lia|]. split; [lia|]. intros k Hk. apply E2.
    rewrite Hp. destruct (decide (k = sc_n c)) as [->|Hne].
    + left. rewrite lookup_insert_eq. eauto.
    + rewrite lookup_insert_ne by done. cbn [push sc_n]. destruct Hk as [?|?]; [by left|right; lia].
Qed.

(** Requesting the keys of a list of positions, one after the other. *)
Fixpoint message_keys_seq c (ks : list N) : list (result SenderKeyError bytes) :=
  match ks with
  | [] => []
  | k :: ks => (message_key c k).2 :: message_keys_seq (message_key c k).1 ks
  end.

(** Every position from [base] on that was not handed out is buffered or ahead. *)
Record window (base : N) c (todo : list N) : Prop := {
  wd_size : size (sc_skipped c) ≤ N.to_nat (sc_n c - base);
  wd_base : (base ≤ sc_n c)%N;
  wd_end : (sc_n c ≤ base + SK_MAX_SKIP + 1)%N;
  wd_todo k : k ∈ todo → is_Some (sc_skipped c !! k) ∨ (sc_n c ≤ k)%N;
  wd_bound k : k ∈ todo → (k ≤ base + SK_MAX_SKIP ∧ k < u32_max)%N
}.

Lemma window_step base c k todo :
  NoDup (k :: todo) → window base c (k :: todo) →
  is_ok (message_key c k).2 = true ∧ window base (message_key c k).1 todo.
Proof.
  intros [Hnin _]%NoDup_cons [Hsz Hb He Htodo Hbd].
  pose proof sk_cap as Hcap.
  destruct (Hbd k ltac:(set_solver)) as [Hk1 Hk2]. unfold message_key, SK_MAX_SKIP in *.
  destruct (sc_skipped c !! k) as [mk|] eqn:Hk; cbn [fst snd].
  - split; [done|]. split; cbn [sc_n sc_skipped]; try done.
    + rewrite map_size_delete. destruct (sc_skipped c !! k); simpl; lia.
    + intros k' Hk'. rewrite lookup_delete_ne by set_solver. apply Htodo. set_solver.
    + intros k' Hk'. apply Hbd. set_solver.
  - destruct (Htodo k ltac:(set_solver)) as [[? ?]|Hge]; [congruence|].
    rewrite decide_False by lia.
    destruct (checked_add u32_max k 1) as [nn|] eqn:Hc; [|apply checked_add_None in Hc; lia].
    apply checked_add_Some in Hc as [-> _]. rewrite decide_False by lia.
    destruct (advance_room (N.to_nat (k - sc_n c)) c) as [E1 E2]; [lia|].
    set (c' := advance _ c) in *. destruct (kdf_ck (sc_chain_key c')) as [next mk].
    split; [done|]. split; cbn [fst sc_n sc_skipped]; [unfold SK_MAX_SKIP; lia..| |].
    + intros k' Hk'. destruct (Htodo k' ltac:(set_solver)) as [Hs|Hs]; [left; apply E2; by left|].
      destruct (decide (k' < k)%N); [left; apply E2; right; lia|].
      right. assert (k' ≠ k) by set_solver. lia.
    + intros k' Hk'. apply Hbd. set_solver.
Qed.
End facts.

(** ** The checkpoint codec *)

Lemma order_valid_spec c seen order :
  order_valid c seen order = true ↔
  NoDup order ∧ ∀ k, k ∈ order → (k < sc_n c)%N ∧ is_Some (sc_skipped c !! k) ∧ k ∉ seen.
Proof.
  revert seen. induction order as [|k order IH]; intros seen; cbn [order_valid].
  - split; [|done]. intros _. split; [constructor|set_solver].
  - case_decide as Hbad.
    + split; [done|]. intros [_ Hall]. destruct (Hall k ltac:(set_solver)) as (? & [? ?] & ?).
      exfalso. destruct Hbad as [?|[?|?]]; [lia|congruence|done].
    + rewrite IH, NoDup_cons. setoid_rewrite elem_of_cons. split.
      * intros [Hnd Hall]. split; [split; [|done]|].
        -- intros Hk. destruct (Hall k Hk) as (_ & _ & Hns). set_solver.
        -- intros k' [->|Hk']; [|set_solver].
           split_and!; [lia| |naive_solver]. destruct (sc_skipped c !! k) eqn:E; [eauto|naive_solver].
      * intros [[Hnin Hnd] Hall]. split; [done|]. intros k' Hk'.
        destruct (Hall k' ltac:(auto)) as (? & ? & ?). split_and!; try done. set_solver.
Qed.

Lemma chain_inv_length c : chain_inv c → length (sc_order c) = size (sc_skipped c).
Proof.
  intros [Hnd Hdom _ _ _ _ _]. rewrite <-size_dom, <-(size_list_to_set (C:=gset N)) by done.
  f_equal. apply set_eq. intros k. by rewrite elem_of_list_to_set.
Qed.

(** The bytes of a checkpoint. *)
Definition image (c : SenderChain) : bytes :=
  MAGIC ++ sc_chain_key c ++ be_bytes 4 (sc_n c) ++
  be_bytes 4 (N.of_nat (length (sc_order c))) ++ (sc_order c ≫= encode_entry c).

Lemma encode_checkpoint_image c : chain_inv c → encode_checkpoint c = Ok (image c).
Proof.
  intros Hinv. unfold encode_checkpoint. pose proof (chain_inv_length c Hinv) as Hl.
  rewrite decide_False by (destruct Hinv; lia).
  rewrite (proj2 (order_valid_spec c ∅ (sc_order c))); [done|].
  split; [apply Hinv|]. intros k Hk. split_and!; [by apply Hinv| |set_solver].
  by apply elem_of_dom, (ci_dom _ Hinv).
Qed.

Lemma encode_entry_length c k mk :
  sc_skipped c !! k = Some mk → length mk = 32 → length (encode_entry c k) = ENTRY.
Proof. intros Hk Hl. unfold encode_entry. rewrite Hk, length_app, length_be_bytes. simpl. by rewrite Hl. Qed.

Lemma entries_length c ks :
  (∀ k, k ∈ ks → ∃ mk, sc_skipped c !! k = Some mk ∧ length mk = 32) →
  length (ks ≫= encode_entry c) = length ks * ENTRY.
Proof.
  induction ks as [|k ks IH]; intros Hall; [done|]. rewrite bind_cons. cbn [length].
  destruct (Hall k ltac:(set_solver)) as (mk & Hk & Hl).
  rewrite length_app, (encode_entry_length _ _ _ Hk Hl), IH by set_solver. lia.
Qed.

Lemma decode_entries_image c acc ks :
  sc_n acc = sc_n c → (sc_n c ≤ u32_max)%N → NoDup ks →
  (∀ k, k ∈ ks → (k < sc_n c)%N ∧ ∃ mk, sc_skipped c !! k = Some mk ∧ length mk = 32) →
  (∀ k, k ∈ ks → sc_skipped acc !! k = None) →
  decode_entries (length ks) (ks ≫= encode_entry c) acc =
  Ok (MkSenderChain (sc_chain_key acc) (sc_n acc)
    (foldl (λ m k, <[k := default [] (sc_skipped c !! k)]> m) (sc_skipped acc) ks)
    (sc_order acc ++ ks)).
Proof.
  intros Hn Hmx. revert acc Hn. induction ks as [|k ks IH]; intros acc Hn Hnd Hall Hnew.
  - cbn. rewrite app_nil_r. by destruct acc.
  - apply NoDup_cons in Hnd as [Hnin Hnd].
    destruct (Hall k ltac:(set_solver)) as (Hlt & mk & Hk & Hl).
    pose proof (encode_entry_length _ _ _ Hk Hl) as Hel.
    rewrite bind_cons. cbn [length decode_entries].
    rewrite (take_app_length' (encode_entry c k)), (drop_app_length' (encode_entry c k)) by done.
    assert (slice 0 4 (encode_entry c k) = be_bytes 4 k) as ->.
    { unfold slice, encode_entry. rewrite drop_0. apply take_app_length'. by rewrite length_be_bytes. }
    assert (drop 4 (encode_entry c k) = default [] (sc_skipped c !! k)) as ->.
    { unfold encode_entry. apply drop_app_length'. by rewrite length_be_bytes. }
    rewrite be_value_be_bytes.
    2:{ change (256 ^ N.of_nat 4)%N with (u32_max + 1)%N. lia. }
    rewrite decide_False.
    2:{ rewrite Hnew by set_solver. intros [?|[? ?]]; [lia|done]. }
    rewrite IH; [|done|done|set_solver|].
    + cbn [sc_chain_key sc_n sc_skipped sc_order foldl]. by rewrite <-app_assoc.
    + intros k' Hk'. cbn [sc_skipped]. rewrite lookup_insert_ne; [set_solver|]. by intros ->.
Qed.

Lemma rebuild_map (m : gmap N bytes) ks :
  NoDup ks → (∀ k, k ∈ ks ↔ k ∈ dom m) →
  foldl (λ m' k, <[k := default [] (m !! k)]> m') ∅ ks = m.
Proof.
  intros Hnd Hdom.
  assert (∀ (acc : gmap N bytes) k, foldl (λ m' k, <[k := default [] (m !! k)]> m') acc ks !! k =
    if decide (k ∈ ks) then Some (default [] (m !! k)) else acc !! k) as Hl.
  { clear. induction ks as [|x ks IH]; intros acc k; cbn [foldl].
    - by rewrite decide_False by set_solver.
    - rewrite IH. destruct (decide (k ∈ ks)); [by rewrite decide_True by set_solver|].
      destruct (decide (k = x)) as [->|]; [rewrite lookup_insert_eq, decide_True by set_solver; done|].
      rewrite lookup_insert_ne by done. by rewrite decide_False by set_solver. }
  apply map_eq. intros k. rewrite Hl. case_decide as Hk.
  - apply Hdom, elem_of_dom in Hk as [v ->]. done.
  - rewrite Hdom in Hk. apply not_elem_of_dom in Hk. by rewrite Hk, lookup_empty.
Qed.

(** The fixed header of a checkpoint and where its fields lie. *)
Lemma header_slices (a k nb cb rest : bytes) :
  length a = 5 → length k = 32 → length nb = 4 → length cb = 4 →
  let bs := a ++ k ++ nb ++ cb ++ rest in
  take 5 bs = a ∧ slice 5 37 bs = k ∧ slice 37 41 bs = nb ∧ slice 41 45 bs = cb ∧
  drop HEADER bs = rest ∧ length bs = HEADER + length rest.
Proof.
  intros Ha Hk Hn Hc bs. unfold slice, HEADER. subst bs. split_and!.
  - by apply take_app_length'.
  - rewrite drop_app_length' by done. by apply take_app_length'.
  - rewrite (app_assoc a), drop_app_length' by (rewrite length_app; lia). by apply take_app_length'.
  - rewrite (app_assoc a), (app_assoc (a ++ k)), drop_app_length' by (rewrite !length_app; lia).
    by apply take_app_length'.
  - rewrite (app_assoc a), (app_assoc (a ++ k)), (app_assoc ((a ++ k) ++ nb)).
    apply drop_app_length'. rewrite !length_app. lia.
  - rewrite !length_app. lia.
Qed.

Lemma header_split (bs : bytes) :
  HEADER ≤ length bs →
  bs = take 5 bs ++ slice 5 37 bs ++ slice 37 41 bs ++ slice 41 45 bs ++ drop HEADER bs.
Proof.
  intros _. unfold slice, HEADER. simpl.
  rewrite <-(take_drop 5 bs) at 1. f_equal. rewrite <-(take_drop 32 (drop 5 bs)) at 1. f_equal.
  rewrite drop_drop. simpl. rewrite <-(take_drop 4 (drop 37 bs)) at 1. f_equal.
  rewrite drop_drop. simpl. rewrite <-(take_drop 4 (drop 41 bs)) at 1. f_equal.
  by rewrite drop_drop.
Qed.

Lemma slice_length a b (bs : bytes) : b ≤ length bs → length (slice a b bs) = b - a.
Proof. intros. unfold slice. rewrite length_take, length_drop. lia. Qed.

Lemma decode_image c : chain_inv c → decode_checkpoint (image c) = Ok c.
Proof.
  intros Hinv. pose proof (chain_inv_length c Hinv) as Hl. pose proof sk_cap as Hcap.
  assert (∀ k, k ∈ sc_order c → ∃ mk, sc_skipped c !! k = Some mk ∧ length mk = 32) as Hent.
  { intros k [mk Hk]%(ci_dom _ Hinv)%elem_of_dom. exists mk. split; [done|]. by eapply ci_keys. }
  pose proof (entries_length c (sc_order c) Hent) as Hel.
  destruct (header_slices MAGIC (sc_chain_key c) (be_bytes 4 (sc_n c))
    (be_bytes 4 (N.of_nat (length (sc_order c)))) (sc_order c ≫= encode_entry c))
    as (E1 & E2 & E3 & E4 & E5 & E6); [done|apply Hinv|apply length_be_bytes..|].
  fold (image c) in *. rewrite Hel in E6. destruct Hinv as [Hnd Hdom Hsz Hpast Hn Hkey Hks].
  unfold decode_checkpoint. rewrite E1, E2, E3, E4, E5, E6.
  rewrite decide_False by (unfold MAX_BYTES, ENTRY; intros [?|[?|?]]; [lia|nia|done]).
  rewrite !be_value_be_bytes by (apply u32_width; unfold u32_max in *; lia).
  rewrite Nat2N.id. rewrite decide_False by (intros [?|?]; lia).
  rewrite Hel, Nat.div_mul by done.
  rewrite decode_entries_image; [|done|done|done| |done].
  - cbn [sc_chain_key sc_n sc_skipped sc_order app]. rewrite rebuild_map by done. by destruct c.
  - intros k Hk. split; [by apply Hpast|by apply Hent].
Qed.

Lemma decode_entries_sound count bs acc c' :
  decode_entries count bs acc = Ok c' → length bs = count * ENTRY →
  NoDup (sc_order acc) → (∀ k, k ∈ sc_order acc ↔ k ∈ dom (sc_skipped acc)) →
  (∀ k, k ∈ sc_order acc → (k < sc_n acc)%N) →
  (∀ k mk, sc_skipped acc !! k = Some mk → length mk = 32) →
  sc_chain_key c' = sc_chain_key acc ∧ sc_n c' = sc_n acc ∧ NoDup (sc_order c') ∧
  (∀ k, k ∈ sc_order c' ↔ k ∈ dom (sc_skipped c')) ∧
  (∀ k, k ∈ sc_order c' → (k < sc_n c')%N) ∧
  (∀ k mk, sc_skipped c' !! k = Some mk → length mk = 32) ∧
  sc_skipped acc ⊆ sc_skipped c' ∧
  ∃ new, sc_order c' = sc_order acc ++ new ∧ length new = count ∧ bs = new ≫= encode_entry c'.
Proof.
  revert bs acc. induction count as [|count IH]; intros bs acc; cbn [decode_entries].
  - intros [= <-] Hl **. split_and!; try done. exists []. rewrite app_nil_r.
    split_and!; try done. by apply nil_length_inv.
  - set (entry := take ENTRY bs). set (p := be_value (slice 0 4 entry)).
    case_decide as Hbad; [done|]. intros Hd Hl Hnd Hdom Hpast Hks.
    assert (length entry = ENTRY) as Hel by (unfold entry; rewrite length_take; lia).
    assert (sc_skipped acc !! p = None) as Hnone.
    { destruct (sc_skipped acc !! p) eqn:E; [|done]. exfalso. apply Hbad. right. eauto. }
    assert (length (drop 4 entry) = 32) as Hl32 by (rewrite length_drop, Hel; done).
    destruct (IH _ _ Hd) as (? & ? & ? & ? & ? & ? & Hsub & new & Hnew & Hcnt & Hbs);
      cbn [sc_order sc_skipped sc_n sc_chain_key] in *.
    + rewrite length_drop. lia.
    + apply NoDup_app. split_and!; [done| |apply NoDup_singleton].
      intros k Hk ->%list_elem_of_singleton. apply Hdom, elem_of_dom in Hk as [? ?]. congruence.
    + intros k. rewrite elem_of_app, list_elem_of_singleton, dom_insert, elem_of_union,
        elem_of_singleton, Hdom. tauto.
    + intros k. rewrite elem_of_app, list_elem_of_singleton. intros [?| ->]; [auto|lia].
    + intros k mk [[_ <-]|[_ ?]]%lookup_insert_Some; eauto.
    + split_and!; try done; [etrans; [by apply insert_subseteq|exact Hsub]|].
      exists (p :: new). rewrite Hnew, <-app_assoc. split; [done|]. split; [simpl; lia|].
      rewrite bind_cons, <-Hbs. rewrite <-(take_drop ENTRY bs) at 1. f_equal.
      unfold encode_entry. rewrite (lookup_weaken _ _ _ _ (lookup_insert_eq _ _ _) Hsub).
      cbn [from_option]. unfold p. rewrite be_bytes_value by (rewrite slice_length; [done|rewrite Hel; unfold ENTRY; lia]).
      unfold slice. rewrite drop_0. symmetry. apply take_drop.
Qed.

Lemma decode_checkpoint_sound bs c :
  decode_checkpoint bs = Ok c → chain_inv c ∧ bs = image c.
Proof.
  unfold decode_checkpoint. case_decide as Hb; [done|]. case_decide as Hc; [done|].
  assert (HEADER ≤ length bs) as Hh by lia. assert (take 5 bs = MAGIC) as Hm.
  { destruct (decide (take 5 bs = MAGIC)); [done|]. exfalso. naive_solver. }
  set (count := N.to_nat (be_value (slice 41 45 bs))) in *.
  assert (length bs = HEADER + count * ENTRY) as Hlen by lia.
  assert (length (drop HEADER bs) = count * ENTRY) as Hld by (rewrite length_drop; lia).
  rewrite Hld, Nat.div_mul by done. intros Hd.
  apply decode_entries_sound in Hd as (Hk & Hn & Hnd & Hdom & Hpast & Hks & _ & new & Hnew & Hcnt & Hbs);
    cbn [sc_order sc_skipped sc_n sc_chain_key] in *; try done; [|constructor|set_solver..].
  assert (∀ a, a + 4 ≤ 45 → length (slice a (a + 4) bs) = 4) as Hs4.
  { intros a Ha. rewrite slice_length; [lia|unfold HEADER in Hh; lia]. }
  pose proof (be_value_bound 4 _ (Hs4 37 ltac:(lia))) as Hb1.
  change (256 ^ N.of_nat 4)%N with (u32_max + 1)%N in Hb1. cbn [Nat.add] in Hb1.
  assert (chain_inv c) as Hinv.
  { split; try done.
    - rewrite <-size_dom, <-(list_to_set_elements_L (dom (sc_skipped c))), size_list_to_set by apply NoDup_elements.
      transitivity (length (sc_order c)); [|rewrite Hnew; simpl; lia].
      apply submseteq_length, NoDup_submseteq; [apply NoDup_elements|].
      intros k. rewrite elem_of_elements. apply Hdom.
    - rewrite Hn. lia.
    - rewrite Hk. apply slice_length. unfold HEADER in Hh. lia. }
  split; [done|]. rewrite (header_split bs Hh). unfold image. rewrite Hm, Hk, Hn. f_equal. f_equal.
  rewrite be_bytes_value by apply (Hs4 37 ltac:(lia)). f_equal.
  rewrite Hnew. cbn [app]. rewrite Hcnt. unfold count.
  rewrite N2Nat.id, be_bytes_value by apply (Hs4 41 ltac:(lia)). f_equal. done.
Qed.

(** ** Properties *)

Section properties.
Context `{Crypto, !CryptoLaws}.

(** The receiver's checkpoint is exact in both directions: every valid receiver
    state encodes, and decodes to itself with the same eviction order; and
    whatever bytes decode are the encoding of the valid state they decode to. *)
Lemma checkpoint_bijection :
  (∀ c, chain_inv c → ∃ bs, encode_checkpoint c = Ok bs ∧ decode_checkpoint bs = Ok c) ∧
  (∀ bs c, decode_checkpoint bs = Ok c → chain_inv c ∧ encode_checkpoint c = Ok bs).
Proof.
  split.
  - intros c Hinv. exists (image c). split; [by apply encode_checkpoint_image|by apply decode_image].
  - intros bs c [Hinv ->]%decode_checkpoint_sound. split; [done|by apply encode_checkpoint_image].
Qed.

(** A receiver stays valid whatever it is asked: bootstrapping, jumping to an
    authenticated snapshot and requesting the key of any position, with any
    outcome, keep at most 2000 buffered keys, the queue in step with the buffer
    and all buffered positions below the chain position. *)
Lemma receiver_inv :
  (∀ d, type_wf d → chain_inv (from_distribution d)) ∧
  (∀ c d, chain_inv c → type_wf d → chain_inv (refresh_distribution c d)) ∧
  (∀ c target, chain_inv c → chain_inv (message_key c target).1).
Proof.
  split_and!.
  - intros d [Hl Hn]. split; cbn; try done; try set_solver; [constructor|].
    rewrite map_size_empty. lia.
  - intros c d Hinv [Hl Hn]. unfold refresh_distribution. case_decide as Hfar; [|done].
    destruct Hinv. split; cbn; try done. intros k Hk. specialize (ci_past0 k Hk). lia.
  - intros c target. apply message_key_inv.
Qed.

(** A receiver hands out exactly the keys of the sender's chain: a key it
    returns for a position is the one the sender derived there, requesting keys
    and jumping to a later snapshot of the chain stay on the chain. *)
Lemma receiver_follows root base c target skd :
  follows root base c →
  follows root base (message_key c target).1 ∧
  (∀ mk, (message_key c target).2 = Ok mk →
     (base ≤ target)%N ∧ mk = mk_at root (target - base)) ∧
  ((base ≤ skd_n skd)%N → skd_chain_key skd = chain root (N.to_nat (skd_n skd - base)) →
     follows root base (refresh_distribution c skd)).
Proof.
  intros Hf. destruct (message_key_follows root base c target Hf) as [H1 H2].
  split; [done|]. split; [done|]. intros Hb Hk. unfold refresh_distribution.
  case_decide; [|done]. split; cbn; [done|done|apply Hf].
Qed.

(** A message key is handed out once: right after a successful request the
    position is refused as consumed, and no refusal changes the receiver. *)
Lemma message_key_once c target :
  chain_inv c →
  (∀ mk, (message_key c target).2 = Ok mk →
     message_key (message_key c target).1 target = ((message_key c target).1, Err consumed)) ∧
  (∀ e, (message_key c target).2 = Err e → (message_key c target).1 = c).
Proof.
  intros Hinv. split.
  - intros mk Hok.
    assert (sc_skipped (message_key c target).1 !! target = None ∧
      (target < sc_n (message_key c target).1)%N) as [Hs Hn].
    { revert Hok. unfold message_key. destruct (sc_skipped c !! target) as [mk'|] eqn:Hk; cbn [fst snd].
      - intros _. cbn [sc_skipped sc_n]. split; [apply lookup_delete_eq|].
        apply (ci_past _ Hinv), (ci_dom _ Hinv), elem_of_dom. eauto.
      - case_decide as Hlt; [done|]. destruct (checked_add _ _ _) as [nn|] eqn:Hc; [|done].
        apply checked_add_Some in Hc as [-> Hc]. case_decide; [done|]. intros _.
        destruct (advance_inv (N.to_nat (target - sc_n c)) c Hinv) as [Ha Hna]; [lia|].
        destruct (kdf_ck _) as [next mk']. cbn [fst sc_skipped sc_n]. split; [|lia].
        apply not_elem_of_dom. rewrite <-(ci_dom _ Ha). intros Hin%(ci_past _ Ha). lia. }
    unfold message_key at 1. rewrite Hs, decide_True by done. done.
  - intros e. unfold message_key. destruct (sc_skipped c !! target); [done|].
    case_decide; [done|]. destruct (checked_add _ _ _); [|done]. case_decide; [done|].
    by destruct (kdf_ck _).
Qed.

(** Out-of-order delivery: a receiver bootstrapped at some position yields, for
    the next 1001 positions requested in any order and each once, exactly the
    message keys the sender derives there. *)
Lemma any_order_keys root n ks :
  NoDup ks → (∀ k, k ∈ ks → n ≤ k ∧ k ≤ n + SK_MAX_SKIP ∧ k < u32_max)%N →
  message_keys_seq (from_distribution (MkDistribution root n)) ks =
  (λ k, Ok (mk_at root (k - n))) <$> ks.
Proof.
  intros Hnd Hks.
  assert (∀ c, follows root n c → window n c ks →
    message_keys_seq c ks = (λ k, Ok (mk_at root (k - n))) <$> ks) as Hgen.
  { clear Hks. induction ks as [|k ks IH]; intros c Hf Hw; [done|]. cbn [message_keys_seq fmap list_fmap].
    destruct (window_step n c k ks Hnd Hw) as [Hok Hw'].
    destruct (message_key_follows root n c k Hf) as [Hf' Hmk].
    destruct ((message_key c k).2) as [mk|]; [|done]. destruct (Hmk mk eq_refl) as [_ ->].
    f_equal. apply NoDup_cons in Hnd as [_ Hnd]. by apply IH. }
  apply Hgen.
  - split; cbn; [lia| |done]. by rewrite N.sub_diag.
  - split; cbn [from_distribution sc_skipped sc_n skd_n]; [rewrite map_size_empty|..]; try lia.
    + intros k Hk. right. apply Hks in Hk. lia.
    + intros k Hk. apply Hks in Hk. lia.
Qed.

(** Opening on the private fork is opening directly: going through the encoded
    checkpoint changes nothing, and the receiver passed in is never touched. *)
Lemma prepare_open_fork c target ct aad :
  chain_inv c →
  prepare_open c target ct aad =
  match message_key c target with
  | (_, Err e) => Err e
  | (c', Ok mk) => pt ← open_message mk ct aad; Ok (MkPreparedOpen c' pt)
  end.
Proof.
  intros Hinv. unfold prepare_open. rewrite encode_checkpoint_image by done.
  cbn [mbind result_bind]. by rewrite decode_image.
Qed.

(** The sending chain never wraps: it numbers messages consecutively, derives
    the key of each position, and at position [u32::MAX] refuses and stays put. *)
Lemma try_ratchet_steps k :
  type_wf k →
  ((sk_n k < u32_max)%N →
     try_ratchet k = (MkSenderKey (chain (sk_chain_key k) 1) (sk_n k + 1),
                      Ok (sk_n k, mk_at (sk_chain_key k) 0))) ∧
  (sk_n k = u32_max → try_ratchet k = (k, Err exhausted)) ∧
  type_wf (try_ratchet k).1.
Proof.
  intros [Hl Hn]. unfold try_ratchet. destruct (kdf_ck_length (sk_chain_key k)) as [L _].
  unfold mk_at. change (N.to_nat 0) with 0. cbn [chain]. split_and!.
  - intros Hlt. destruct (checked_add u32_max (sk_n k) 1) as [m|] eqn:Hc.
    + apply checked_add_Some in Hc as [-> _]. by destruct (kdf_ck _).
    + apply checked_add_None in Hc. lia.
  - intros ->. done.
  - destruct (checked_add u32_max (sk_n k) 1) as [m|] eqn:Hc; [|done].
    apply checked_add_Some in Hc as [-> Hm]. by destruct (kdf_ck _).
Qed.
End properties.

Module SenderKeyWitness.
Import ToyCrypto.

Definition root : bytes := repeat Byte.x05 32.
Definition recv0 : SenderChain := from_distribution (MkDistribution root 3).

Lemma recv0_inv : chain_inv recv0.
Proof.
  split; cbn; try done; try set_solver; [constructor|]. rewrite map_size_empty. lia.
Qed.
Lemma recv0_follows : follows root 3 recv0.
Proof. split; cbn; [lia|done|done]. Qed.

End SenderKeyWitness.
