(* ===== verification/Dm.v ===== *)
(** * Sealed boxes: direct messages and group keys

    Models crates/mesh-talk-core/src/dm.rs (the X3DH-style sealed envelope) and
    channel/crypto.rs (a group key sealed to each member, and messages under that
    key).  The ephemeral secret of a seal and the nonce of a channel message are
    the arguments [ephemeral] and [nonce]. *)

From S2P Require Import Prelude Crypto Bincode Identity.

Definition DM_DOMAIN : bytes := str "mesh-talk-dm-v1".
Definition KEY_LEN : nat := 32.
Definition NONCE_LEN : nat := 12.

Record SealedEnvelope := MkEnvelope {
  ephemeral_pub : bytes;
  ciphertext : bytes
}.

#[global] Instance SealedEnvelope_wf : TypeWf SealedEnvelope := λ e,
  length (ephemeral_pub e) = 32 ∧ (N.of_nat (length (ciphertext e)) ≤ u64_max)%N.

Inductive DmError :=
  | DmEncrypt
  | DmDecrypt
  | DmSerialization (m : bytes).

Definition dm_error_to_string (e : DmError) : bytes :=
  match e with
  | DmEncrypt => str "dm encryption failed"
  | DmDecrypt => str "dm decryption failed"
  | DmSerialization m => str "dm serialization error: " ++ m
  end.

Section dm.
Context `{Crypto, Bincode SealedEnvelope, BincodeText}.

Definition derive_key_nonce (dh1 dh2 sender_x25519_pub recipient_x25519_pub
    ephemeral_pub : bytes) : bytes * bytes :=
  let ikm := dh1 ++ dh2 in
  let info := DM_DOMAIN ++ sender_x25519_pub ++ recipient_x25519_pub ++ ephemeral_pub in
  let okm := hkdf_sha256 None ikm info (KEY_LEN + NONCE_LEN) in
  (take KEY_LEN okm, drop KEY_LEN okm).

(** [dm::seal]. *)
Definition dm_seal (ephemeral : bytes) (sender : DeviceIdentity)
    (recipient_x25519_pub plaintext : bytes) : result DmError bytes :=
  let sender_static := (secret_bytes sender).2 in
  let sender_x_pub := x25519_pub (public sender) in
  let ephemeral_pub := x25519_public ephemeral in
  let dh1 := x25519 sender_static recipient_x25519_pub in
  let dh2 := x25519 ephemeral recipient_x25519_pub in
  let '(key, nonce) :=
    derive_key_nonce dh1 dh2 sender_x_pub recipient_x25519_pub ephemeral_pub in
  ct ← ok_or (aes_gcm_encrypt key nonce [] plaintext) DmEncrypt;
  Ok (ser (MkEnvelope ephemeral_pub ct)).

(** [dm::open]. *)
Definition dm_open (recipient : DeviceIdentity) (sender_x25519_pub envelope_bytes : bytes) :
    result DmError bytes :=
  envelope ← ok_or (de envelope_bytes) (DmSerialization (de_error envelope_bytes));
  let recipient_static := (secret_bytes recipient).2 in
  let recipient_x_pub := x25519_pub (public recipient) in
  let dh1 := x25519 recipient_static sender_x25519_pub in
  let dh2 := x25519 recipient_static (ephemeral_pub envelope) in
  let '(key, nonce) :=
    derive_key_nonce dh1 dh2 sender_x25519_pub recipient_x_pub (ephemeral_pub envelope) in
  ok_or (aes_gcm_decrypt key nonce [] (ciphertext envelope)) DmDecrypt.
End dm.

(** ** Group keys *)

Definition KEY_SIZE : nat := 32.
Definition NONCE_SIZE : nat := 12.
Definition TAG_SIZE : nat := 16.

Inductive GroupKey := MkGroupKey (raw : bytes).

Definition group_key_from_bytes (raw : bytes) : GroupKey := MkGroupKey raw.
Definition as_bytes (k : GroupKey) : bytes := let 'MkGroupKey raw := k in raw.

#[global] Instance GroupKey_wf : TypeWf GroupKey := λ k, length (as_bytes k) = KEY_SIZE.

Inductive ChannelError :=
  | ChSeal (e : DmError)
  | ChEncrypt
  | ChDecrypt
  | ChMalformed (m : bytes).

Definition channel_error_to_string (e : ChannelError) : bytes :=
  match e with
  | ChSeal e => str "channel key seal error: " ++ dm_error_to_string e
  | ChEncrypt => str "channel message encrypt error"
  | ChDecrypt => str "channel message decrypt error"
  | ChMalformed m => str "malformed channel envelope: " ++ m
  end.

Section group_key.
Context `{Crypto, Bincode SealedEnvelope, BincodeText}.

Definition seal_group_key (ephemeral : bytes) (sender : DeviceIdentity)
    (recipient_x25519_pub : bytes) (key : GroupKey) : result ChannelError bytes :=
  map_err ChSeal (dm_seal ephemeral sender recipient_x25519_pub (as_bytes key)).

Definition open_group_key (recipient : DeviceIdentity) (sender_x25519_pub envelope : bytes) :
    result ChannelError GroupKey :=
  raw ← map_err ChSeal (dm_open recipient sender_x25519_pub envelope);
  if decide (length raw = KEY_SIZE) then Ok (MkGroupKey raw)
  else Err (ChMalformed (str "group key is not 32 bytes")).

Definition seal_channel_message (nonce : bytes) (key : GroupKey) (plaintext : bytes) :
    result ChannelError bytes :=
  ct ← ok_or (aes_gcm_encrypt (as_bytes key) nonce [] plaintext) ChEncrypt;
  Ok (nonce ++ ct).

Definition open_channel_message (key : GroupKey) (envelope : bytes) :
    result ChannelError bytes :=
  if decide (length envelope < NONCE_SIZE + TAG_SIZE)
  then Err (ChMalformed (str "channel envelope too short (need nonce + tag)"))
  else ok_or (aes_gcm_decrypt (as_bytes key) (take NONCE_SIZE envelope) []
                (drop NONCE_SIZE envelope)) ChDecrypt.

Context `{!CryptoLaws, !BincodeLaws SealedEnvelope}.

(** Both sides derive the same key and nonce. *)
Lemma derive_agree ephemeral sender recipient :
  derive_key_nonce
    (x25519 (dh_secret recipient) (x25519_pub (public sender)))
    (x25519 (dh_secret recipient) (x25519_public ephemeral))
    (x25519_pub (public sender)) (x25519_pub (public recipient)) (x25519_public ephemeral) =
  derive_key_nonce
    (x25519 (dh_secret sender) (x25519_pub (public recipient)))
    (x25519 ephemeral (x25519_pub (public recipient)))
    (x25519_pub (public sender)) (x25519_pub (public recipient)) (x25519_public ephemeral).
Proof.
  cbn [public x25519_pub].
  by rewrite (x25519_agree (dh_secret recipient)), (x25519_agree (dh_secret recipient)).
Qed.

Lemma derive_lengths d1 d2 s r e :
  length (derive_key_nonce d1 d2 s r e).1 = 32 ∧ length (derive_key_nonce d1 d2 s r e).2 = 12.
Proof.
  unfold derive_key_nonce. cbn [fst snd]. rewrite length_take, length_drop, hkdf_length. done.
Qed.

Lemma seal_open ephemeral sender recipient plaintext :
  (N.of_nat (length plaintext) ≤ aead_max)%N →
  ∃ envelope,
    dm_seal ephemeral sender (x25519_pub (public recipient)) plaintext = Ok envelope ∧
    dm_open recipient (x25519_pub (public sender)) envelope = Ok plaintext.
Proof.
  intros Hlen. unfold dm_seal, dm_open. cbn [secret_bytes snd].
  pose proof (derive_agree ephemeral sender recipient) as Hd.
  pose proof (derive_lengths (x25519 (dh_secret sender) (x25519_pub (public recipient)))
    (x25519 ephemeral (x25519_pub (public recipient))) (x25519_pub (public sender))
    (x25519_pub (public recipient)) (x25519_public ephemeral)) as [Hk Hn].
  destruct (derive_key_nonce (x25519 (dh_secret sender) _) _ _ _ _) as [key nonce].
  cbn [fst snd] in *.
  destruct (aes_gcm_encrypt_total key nonce [] plaintext Hk Hn Hlen) as (ct & Hct & Hl).
  rewrite Hct. cbn [ok_or mbind result_bind]. eexists; split; [reflexivity|].
  rewrite de_ser.
  - cbn [ok_or mbind result_bind ephemeral_pub ciphertext]. rewrite Hd.
    by rewrite (aes_gcm_decrypt_encrypt _ _ _ _ _ Hct).
  - split; cbn [ephemeral_pub ciphertext]; [apply x25519_public_length|].
    rewrite Hl. unfold aead_max, tag_size, u64_max in *. lia.
Qed.

(** What one device seals to another's key the other opens, for every message
    AES-GCM accepts and every ephemeral secret; in particular a group key sealed
    for a member reaches that member, and a message under a group key reads back. *)
Lemma sealed_box_roundtrip ephemeral nonce sender recipient plaintext key :
  (N.of_nat (length plaintext) ≤ aead_max)%N → type_wf key → length nonce = NONCE_SIZE →
  (∃ envelope,
     dm_seal ephemeral sender (x25519_pub (public recipient)) plaintext = Ok envelope ∧
     dm_open recipient (x25519_pub (public sender)) envelope = Ok plaintext) ∧
  (∃ envelope,
     seal_group_key ephemeral sender (x25519_pub (public recipient)) key = Ok envelope ∧
     open_group_key recipient (x25519_pub (public sender)) envelope = Ok key) ∧
  (∃ envelope,
     seal_channel_message nonce key plaintext = Ok envelope ∧
     length envelope = NONCE_SIZE + length plaintext + TAG_SIZE ∧
     open_channel_message key envelope = Ok plaintext).
Proof.
  intros Hlen Hkey Hnonce. split; [by apply seal_open|]. split.
  - destruct (seal_open ephemeral sender recipient (as_bytes key)) as (envelope & Hs & Ho).
    { rewrite Hkey. unfold aead_max, KEY_SIZE. lia. }
    exists envelope. unfold seal_group_key, open_group_key. rewrite Hs, Ho.
    cbn [map_err mbind result_bind]. rewrite decide_True by done. by destruct key.
  - unfold seal_channel_message, open_channel_message.
    destruct (aes_gcm_encrypt_total (as_bytes key) nonce [] plaintext) as (ct & Hct & Hl); [done..|].
    rewrite Hct. cbn [ok_or mbind result_bind]. eexists; split; [reflexivity|].
    rewrite decide_False; rewrite length_app, Hl, Hnonce; unfold tag_size, TAG_SIZE; [|lia].
    split; [lia|]. rewrite take_app_length', drop_app_length' by done.
    by rewrite (aes_gcm_decrypt_encrypt _ _ _ _ _ Hct).
Qed.
End group_key.

Module DmCodec.
Import Fixint.
Definition envelope_codec : codec SealedEnvelope :=
  c_iso (λ p, MkEnvelope p.1 p.2) (λ e, (ephemeral_pub e, ciphertext e))
    (c_pair (c_arr 32) c_bytes).

#[export] Instance envelope_codec_ok : CodecOk envelope_codec.
Proof. apply c_iso_ok; [by intros []|by intros []|apply _]. Qed.

#[export] Instance envelope_bincode : Bincode SealedEnvelope := bincode_of envelope_codec.
#[export] Instance envelope_laws : BincodeLaws SealedEnvelope.
Proof. apply bincode_of_laws; [apply _|]. by intros e [? ?]. Qed.
End DmCodec.

Module DmWitness.
Import ToyCrypto Fixint DmCodec.

Definition alice : DeviceIdentity := from_secret_bytes (repeat Byte.x01 32) (repeat Byte.x02 32).
Definition bob : DeviceIdentity := from_secret_bytes (repeat Byte.x03 32) (repeat Byte.x04 32).
Definition group : GroupKey := MkGroupKey (repeat Byte.x07 32).

End DmWitness.
