(* ===== verification/Channel.v ===== *)
(** * Channel membership

    Models crates/mesh-talk-core/src/channel/model.rs up to the message layer: the
    membership snapshot [ChannelMeta], a member's view [ChannelState] and every
    operation that changes its membership, roles, name or invitation state.
    Hash maps and sets are [gmap] and [gset]; [&mut self] methods return the new
    state.  The message layer is in [ChannelMessage]. *)

From S2P Require Import Prelude Crypto Bincode Identity Event Ratchet SenderKey Dm.

Record ChannelMeta := MkMeta {
  m_name : bytes;
  m_members : list PublicIdentity;
  m_epoch : N;
  m_owner : UserId
}.

#[global] Instance ChannelMeta_eq_dec : EqDecision ChannelMeta.
Proof. solve_decision. Defined.

#[global] Instance ChannelMeta_wf : TypeWf ChannelMeta := λ m,
  string_wf (m_name m) ∧
  (N.of_nat (length (m_members m)) ≤ u64_max)%N ∧ Forall type_wf (m_members m) ∧
  (m_epoch m ≤ u64_max)%N ∧ string_wf (m_owner m).

#[global] Instance members_wf : TypeWf (list PublicIdentity) := λ l,
  (N.of_nat (length l) ≤ u64_max)%N ∧ Forall type_wf l.

Definition INVITATION_GENESIS : bytes := str "MTCH2".

(** [sort_unstable_by_key]; no result below depends on the order of equal keys. *)
Definition sort_by_key {A} `{Compare K} (key : A → K) (l : list A) : list A :=
  merge_sort (λ a b, cle (key a) (key b)) l.

(** [Vec::dedup] on a type with decidable equality. *)
Fixpoint dedup_eq `{EqDecision A} (l : list A) : list A :=
  match l with
  | [] => []
  | x :: l =>
      match dedup_eq l with
      | y :: l' => if decide (x = y) then y :: l' else x :: y :: l'
      | [] => [x]
      end
  end.

Record ChannelState := MkChannel {
  ch_id : ConversationId;
  ch_name : bytes;
  ch_name_version : N * EventId;
  ch_members : list PublicIdentity;
  ch_epoch : N;
  ch_owner : UserId;
  ch_account_owner : option bytes;
  ch_account_members : gmap UserId bytes;
  ch_dissolved : bool;
  ch_genesis_owner : UserId;
  ch_pending_invite : bool;
  ch_accepted_event_id : option EventId;
  ch_accepted_members : gset UserId;
  ch_my_user_id : option UserId;
  ch_my_sender : gmap N SenderKey;
  ch_sender_chains : gmap (UserId * N) SenderChain
}.

(** Field assignments. *)
Definition set_name (s : ChannelState) (name : bytes) (version : N * EventId) : ChannelState :=
  MkChannel (ch_id s) name version (ch_members s) (ch_epoch s) (ch_owner s)
    (ch_account_owner s) (ch_account_members s) (ch_dissolved s) (ch_genesis_owner s)
    (ch_pending_invite s) (ch_accepted_event_id s) (ch_accepted_members s) (ch_my_user_id s)
    (ch_my_sender s) (ch_sender_chains s).
Definition set_membership (s : ChannelState) (members : list PublicIdentity) (epoch : N) :
    ChannelState :=
  MkChannel (ch_id s) (ch_name s) (ch_name_version s) members epoch (ch_owner s)
    (ch_account_owner s) (ch_account_members s) (ch_dissolved s) (ch_genesis_owner s)
    (ch_pending_invite s) (ch_accepted_event_id s) (ch_accepted_members s) (ch_my_user_id s)
    (ch_my_sender s) (ch_sender_chains s).
Definition set_owner (s : ChannelState) (owner : UserId) : ChannelState :=
  MkChannel (ch_id s) (ch_name s) (ch_name_version s) (ch_members s) (ch_epoch s) owner
    (ch_account_owner s) (ch_account_members s) (ch_dissolved s) (ch_genesis_owner s)
    (ch_pending_invite s) (ch_accepted_event_id s) (ch_accepted_members s) (ch_my_user_id s)
    (ch_my_sender s) (ch_sender_chains s).
Definition set_accounts (s : ChannelState) (owner : option bytes) (members : gmap UserId bytes) :
    ChannelState :=
  MkChannel (ch_id s) (ch_name s) (ch_name_version s) (ch_members s) (ch_epoch s) (ch_owner s)
    owner members (ch_dissolved s) (ch_genesis_owner s)
    (ch_pending_invite s) (ch_accepted_event_id s) (ch_accepted_members s) (ch_my_user_id s)
    (ch_my_sender s) (ch_sender_chains s).
Definition set_dissolved (s : ChannelState) (d : bool) : ChannelState :=
  MkChannel (ch_id s) (ch_name s) (ch_name_version s) (ch_members s) (ch_epoch s) (ch_owner s)
    (ch_account_owner s) (ch_account_members s) d (ch_genesis_owner s)
    (ch_pending_invite s) (ch_accepted_event_id s) (ch_accepted_members s) (ch_my_user_id s)
    (ch_my_sender s) (ch_sender_chains s).
Definition set_genesis_owner (s : ChannelState) (owner : UserId) : ChannelState :=
  MkChannel (ch_id s) (ch_name s) (ch_name_version s) (ch_members s) (ch_epoch s) (ch_owner s)
    (ch_account_owner s) (ch_account_members s) (ch_dissolved s) owner
    (ch_pending_invite s) (ch_accepted_event_id s) (ch_accepted_members s) (ch_my_user_id s)
    (ch_my_sender s) (ch_sender_chains s).
Definition set_invite (s : ChannelState) (pending : bool) (event : option EventId) : ChannelState :=
  MkChannel (ch_id s) (ch_name s) (ch_name_version s) (ch_members s) (ch_epoch s) (ch_owner s)
    (ch_account_owner s) (ch_account_members s) (ch_dissolved s) (ch_genesis_owner s)
    pending event (ch_accepted_members s) (ch_my_user_id s)
    (ch_my_sender s) (ch_sender_chains s).
Definition set_accepted (s : ChannelState) (accepted : gset UserId) : ChannelState :=
  MkChannel (ch_id s) (ch_name s) (ch_name_version s) (ch_members s) (ch_epoch s) (ch_owner s)
    (ch_account_owner s) (ch_account_members s) (ch_dissolved s) (ch_genesis_owner s)
    (ch_pending_invite s) (ch_accepted_event_id s) accepted (ch_my_user_id s)
    (ch_my_sender s) (ch_sender_chains s).
Definition set_my_user_id (s : ChannelState) (me : UserId) : ChannelState :=
  MkChannel (ch_id s) (ch_name s) (ch_name_version s) (ch_members s) (ch_epoch s) (ch_owner s)
    (ch_account_owner s) (ch_account_members s) (ch_dissolved s) (ch_genesis_owner s)
    (ch_pending_invite s) (ch_accepted_event_id s) (ch_accepted_members s) (Some me)
    (ch_my_sender s) (ch_sender_chains s).
Definition set_keys (s : ChannelState) (mine : gmap N SenderKey)
    (chains : gmap (UserId * N) SenderChain) : ChannelState :=
  MkChannel (ch_id s) (ch_name s) (ch_name_version s) (ch_members s) (ch_epoch s) (ch_owner s)
    (ch_account_owner s) (ch_account_members s) (ch_dissolved s) (ch_genesis_owner s)
    (ch_pending_invite s) (ch_accepted_event_id s) (ch_accepted_members s) (ch_my_user_id s)
    mine chains.

Section channel.
Context `{Crypto, Bincode ChannelMeta, Bincode (list PublicIdentity)}.

Definition meta_encode (m : ChannelMeta) : bytes := ser m.
Definition meta_encode_invitation (m : ChannelMeta) : bytes := INVITATION_GENESIS ++ meta_encode m.
Definition is_invitation (bs : bytes) : bool :=
  starts_with INVITATION_GENESIS bs.
Definition meta_decode (bs : bytes) : option ChannelMeta :=
  de (default bs (strip_prefix INVITATION_GENESIS bs)).
Definition meta_is_member (m : ChannelMeta) (uid : UserId) : bool :=
  existsb (λ p, bool_decide (user_id p = uid)) (m_members m).

Definition encode_members (members : list PublicIdentity) : bytes := ser members.

Definition new_channel_id (random : bytes) : ConversationId := random.

Definition from_meta (id : ConversationId) (meta : ChannelMeta) : ChannelState :=
  {| ch_id := id; ch_name := m_name meta; ch_name_version := (0%N, repeat Byte.x00 32);
     ch_members := m_members meta; ch_epoch := m_epoch meta; ch_owner := m_owner meta;
     ch_account_owner := None; ch_account_members := ∅; ch_dissolved := false;
     ch_genesis_owner := m_owner meta; ch_pending_invite := false;
     ch_accepted_event_id := None;
     ch_accepted_members := list_to_set (user_id <$> m_members meta);
     ch_my_user_id := None; ch_my_sender := ∅; ch_sender_chains := ∅ |}.

Definition apply_meta_with_departure (s : ChannelState) (meta : ChannelMeta)
    (concurrent_leave : bool) : ChannelState :=
  if ch_dissolved s then s
  else if decide (m_owner meta ≠ ch_owner s) then s
  else
    let take :=
      match cmp (m_epoch meta) (ch_epoch s) with
      | Gt => true
      | Eq => concurrent_leave ||
          bool_decide (clt (encode_members (ch_members s)) (encode_members (m_members meta)))
      | Lt => false
      end in
    if take then set_membership s (m_members meta) (m_epoch meta) else s.

Definition apply_meta (s : ChannelState) (meta : ChannelMeta) : ChannelState :=
  apply_meta_with_departure s meta false.
Definition apply_meta_after_concurrent_leave (s : ChannelState) (meta : ChannelMeta) :
    ChannelState :=
  apply_meta_with_departure s meta true.

Definition apply_rename (s : ChannelState) (name : bytes) (lamport : N) (id : EventId) :
    ChannelState :=
  if ch_dissolved s then s
  else if decide (clt (ch_name_version s) (lamport, id)) then set_name s name (lamport, id)
  else s.

Definition is_member (s : ChannelState) (uid : UserId) : bool :=
  existsb (λ p, bool_decide (user_id p = uid)) (ch_members s).
Definition is_accepted_member (s : ChannelState) (uid : UserId) : bool :=
  is_member s uid && bool_decide (uid ∈ ch_accepted_members s).

Definition owner_account_id (s : ChannelState) : option bytes := ch_account_owner s.
Definition member_account_id (s : ChannelState) (uid : UserId) : option bytes :=
  ch_account_members s !! uid.

Definition can_admin (s : ChannelState) (uid : UserId) : bool :=
  if ch_dissolved s then false
  else
    match ch_account_owner s with
    | Some owner =>
        is_accepted_member s uid && bool_decide (ch_account_members s !! uid = Some owner)
    | None => bool_decide (ch_owner s = uid)
    end.

(** The re-computation of [pending_invite] that ends the projection installers. *)
Definition refresh_pending (s : ChannelState) : ChannelState :=
  match ch_my_user_id s with
  | Some me => set_invite s (is_member s me && negb (is_accepted_member s me))
                 (ch_accepted_event_id s)
  | None => s
  end.

Definition install_account_projection (s : ChannelState) (owner : bytes)
    (participants : list (PublicIdentity * bytes)) (epoch : N) : ChannelState :=
  let account_members :=
    foldl (λ m p, <[user_id p.1 := p.2]> m) (∅ : gmap UserId bytes) participants in
  let s := set_accounts s (Some owner) account_members in
  let s := set_accepted s (dom account_members) in
  let members := dedup_eq (sort_by_key user_id (fst <$> participants)) in
  refresh_pending (set_membership s members epoch).

(** The loop of [install_account_invites]. *)
Definition add_invite (s : ChannelState) (p : PublicIdentity * bytes) : ChannelState :=
  let uid := user_id p.1 in
  let s := if is_member s uid then s
           else set_membership s (ch_members s ++ [p.1]) (ch_epoch s) in
  match ch_account_members s !! uid with
  | Some _ => s
  | None => set_accounts s (ch_account_owner s) (<[uid := p.2]> (ch_account_members s))
  end.

Definition install_account_invites (s : ChannelState)
    (participants : list (PublicIdentity * bytes)) : ChannelState :=
  let s := foldl add_invite s participants in
  refresh_pending (set_membership s (sort_by_key user_id (ch_members s)) (ch_epoch s)).

Definition install_membership_projection (s projected : ChannelState) : ChannelState :=
  let s := set_name s (ch_name projected) (ch_name_version projected) in
  let s := set_membership s (ch_members projected) (ch_epoch projected) in
  let s := set_owner s (ch_owner projected) in
  let s := set_accounts s (ch_account_owner projected) (ch_account_members projected) in
  let s := set_dissolved s (ch_dissolved projected) in
  refresh_pending (set_accepted s (ch_accepted_members projected)).

Definition install_indexed_membership_projection (s projected : ChannelState) : ChannelState :=
  install_membership_projection
    (set_invite s (ch_pending_invite s) (ch_accepted_event_id projected)) projected.

Definition dissolve (s : ChannelState) : ChannelState := set_dissolved s true.

Definition mark_invited (s : ChannelState) (uid : UserId) : ChannelState :=
  let s := set_accepted s (ch_accepted_members s ∖ {[uid]}) in
  if decide (ch_my_user_id s = Some uid) then set_invite s true None else s.

Definition accept_invite (s : ChannelState) (uid : UserId) (event_id : EventId) : ChannelState :=
  if is_member s uid then
    let s := set_accepted s ({[uid]} ∪ ch_accepted_members s) in
    if decide (ch_my_user_id s = Some uid ∧ ch_pending_invite s = true)
    then set_invite s false (Some event_id) else s
  else s.

Definition auto_accept_legacy_member (s : ChannelState) (uid : UserId) : ChannelState :=
  if is_member s uid then
    let s := set_accepted s ({[uid]} ∪ ch_accepted_members s) in
    if decide (ch_my_user_id s = Some uid) then set_invite s false None else s
  else s.

Definition transfer_owner (s : ChannelState) (next : UserId) : ChannelState * bool :=
  if negb (is_member s next) || negb (bool_decide (next ∈ ch_accepted_members s))
  then (s, false) else (set_owner s next, true).

Definition leave_member (s : ChannelState) (uid : UserId) : ChannelState * bool :=
  if bool_decide (uid = ch_owner s) || negb (is_member s uid) then (s, false)
  else
    let members := filter (λ m, user_id m ≠ uid) (ch_members s) in
    (set_accepted (set_membership s members (saturating_add u64_max (ch_epoch s) 1))
       (ch_accepted_members s ∖ {[uid]}), true).

Definition recipient_members (s : ChannelState) : list PublicIdentity :=
  filter (λ m, ch_account_owner s = None ∨ is_accepted_member s (user_id m) = true)
    (ch_members s).

Definition set_identity (s : ChannelState) (me : UserId) : ChannelState :=
  set_my_user_id
    (set_invite s (is_member s me && negb (is_accepted_member s me)) (ch_accepted_event_id s)) me.
End channel.

(** ** Last-writer-wins registers *)

Section lww.
Context {A : Type} `{CompareLaws K} (key : A → K).
Implicit Types a b : A.

Definition lww a b : A := if decide (clt (key a) (key b)) then b else a.

(** The register holds its first value or a greater one, and is maximal. *)
Lemma foldl_lww a l :
  let r := foldl lww a l in
  (r = a ∨ r ∈ l ∧ clt (key a) (key r)) ∧ ∀ x, x ∈ l → cle (key x) (key r).
Proof.
  revert a. induction l as [|b l IH]; intros a; cbn [foldl]; [split; [by left|set_solver]|].
  destruct (IH (lww a b)) as [Hr Hmax]. set (r := foldl lww (lww a b) l) in *. clearbody r.
  assert (cle (key (lww a b)) (key r)) as Hle.
  { destruct Hr as [->|[_ Hlt]]; [done|by apply clt_cle]. }
  revert Hr Hle. unfold lww. case_decide as Hab; intros Hr Hle.
  - split.
    + right. destruct Hr as [->|[? ?]]; [by split; [left|]|].
      split; [by right|]. by etrans.
    + intros x [->|Hx]%elem_of_cons; auto.
  - split.
    + destruct Hr as [->|[? ?]]; [by left|]. right. split; [by right|done].
    + intros x [->|Hx]%elem_of_cons; auto. etrans; [|done].
      destruct (clt_total (key a) (key b)) as [?|[->|?]]; [done..|by apply clt_cle].
Qed.

(** Hence its final value depends only on the set of writes. *)
Lemma foldl_lww_ext a l1 l2 :
  (∀ x, x ∈ l1 ↔ x ∈ l2) →
  (∀ x y, x ∈ l1 → y ∈ l1 → key x = key y → x = y) →
  foldl lww a l1 = foldl lww a l2.
Proof.
  intros Heq Hinj. destruct (foldl_lww a l1) as [H1 M1], (foldl_lww a l2) as [H2 M2].
  set (r1 := foldl lww a l1) in *. set (r2 := foldl lww a l2) in *. clearbody r1 r2.
  destruct H1 as [->|[I1 L1]], H2 as [->|[I2 L2]]; [done|..].
  - apply Heq in I2. apply M1 in I2. by apply clt_not_cle in L2.
  - apply Heq in I1. apply M2 in I1. by apply clt_not_cle in L1.
  - apply Hinj; [done|by apply Heq|]. apply (anti_symm cle); [apply M2; by apply Heq|].
    apply M1. by apply Heq.
Qed.
End lww.

(** ** Updates by membership snapshots and renames *)

Inductive update :=
  | UMeta (meta : ChannelMeta)
  | URename (name : bytes) (lamport : N) (id : EventId).

Section updates.
Context `{Crypto, Bincode ChannelMeta, Bincode (list PublicIdentity)}.

Definition apply_update (s : ChannelState) (u : update) : ChannelState :=
  match u with
  | UMeta meta => apply_meta s meta
  | URename name lamport id => apply_rename s name lamport id
  end.

(** The two registers an update may write. *)
Definition membership_of (owner : UserId) (u : update) : option (list PublicIdentity * N) :=
  match u with
  | UMeta meta => if decide (m_owner meta = owner) then Some (m_members meta, m_epoch meta) else None
  | URename _ _ _ => None
  end.
Definition name_of (u : update) : option (bytes * (N * EventId)) :=
  match u with
  | URename name lamport id => Some (name, (lamport, id))
  | UMeta _ => None
  end.

Definition membership_key (p : list PublicIdentity * N) : N * bytes := (p.2, encode_members p.1).

Definition with_registers (s : ChannelState) (m : list PublicIdentity * N)
    (n : bytes * (N * EventId)) : ChannelState :=
  set_name (set_membership s m.1 m.2) n.1 n.2.

Lemma apply_meta_lww s meta :
  ch_dissolved s = false → m_owner meta = ch_owner s →
  apply_meta s meta =
  let r := lww membership_key (ch_members s, ch_epoch s) (m_members meta, m_epoch meta) in
  set_membership s r.1 r.2.
Proof.
  intros Hd Ho. unfold apply_meta, apply_meta_with_departure, lww, membership_key.
  rewrite Hd, decide_False by tauto. cbn [fst snd orb].
  assert (set_membership s (ch_members s) (ch_epoch s) = s) as Hid by by destruct s.
  assert (match cmp (m_epoch meta) (ch_epoch s) with
          | Gt => true
          | Eq => bool_decide (clt (encode_members (ch_members s)) (encode_members (m_members meta)))
          | Lt => false
          end =
          bool_decide (clt (ch_epoch s, encode_members (ch_members s))
                           (m_epoch meta, encode_members (m_members meta)))) as ->.
  { rewrite (cmp_opp (ch_epoch s)).
    pose proof (cmp_pair (ch_epoch s) (m_epoch meta) (encode_members (ch_members s))
      (encode_members (m_members meta))) as Hp.
    destruct (cmp (ch_epoch s) (m_epoch meta)); cbn [CompOpp];
      [apply bool_decide_ext|symmetry; apply bool_decide_eq_true|symmetry; apply bool_decide_eq_false];
      unfold clt; by rewrite Hp. }
  by case_bool_decide; case_decide.
Qed.

Lemma foldl_updates s l :
  ch_dissolved s = false →
  foldl apply_update s l =
  with_registers s
    (foldl (lww membership_key) (ch_members s, ch_epoch s) (omap (membership_of (ch_owner s)) l))
    (foldl (lww snd) (ch_name s, ch_name_version s) (omap name_of l)).
Proof.
  revert s. induction l as [|u l IH]; intros s Hd; [by destruct s|]. cbn [foldl].
  destruct u as [meta|name lamport i]; cbn [apply_update omap list_omap membership_of name_of].
  - destruct (decide (m_owner meta = ch_owner s)) as [Ho|Ho].
    + rewrite apply_meta_lww by done. rewrite IH by done. cbn [foldl]. unfold with_registers.
      by destruct (lww membership_key _ _).
    + unfold apply_meta, apply_meta_with_departure. rewrite Hd, decide_True by done. by apply IH.
  - cbn [foldl]. unfold apply_rename. rewrite Hd. unfold lww at 3. cbn [snd].
    case_decide; rewrite IH by done; reflexivity.
Qed.

Context `{!BincodeLaws (list PublicIdentity)}.

Lemma encode_members_inj l1 l2 :
  type_wf l1 → type_wf l2 → encode_members l1 = encode_members l2 → l1 = l2.
Proof.
  intros W1 W2 He. apply (f_equal de) in He. unfold encode_members in He.
  rewrite !de_ser in He by done. congruence.
Qed.

(** Snapshots are well typed and a rename event has one name. *)
Record updates_ok (l : list update) : Prop := {
  uo_meta meta : UMeta meta ∈ l → type_wf meta;
  uo_name n1 n2 lamport i : URename n1 lamport i ∈ l → URename n2 lamport i ∈ l → n1 = n2
}.

(** C10: Channel state converges: two members that apply the same set of
    membership snapshots and renames, in any order and with any repetition, end
    in the same state — members, epoch, name and everything else — although
    concurrent snapshots may carry the same epoch. *)
Theorem updates_converge s l1 l2 :
  updates_ok l1 → (∀ u, u ∈ l1 ↔ u ∈ l2) →
  foldl apply_update s l1 = foldl apply_update s l2.
Proof.
  intros [Hwf Hname] Heq. destruct (ch_dissolved s) eqn:Hd.
  { assert (∀ l, foldl apply_update s l = s) as Hs; [|by rewrite !Hs].
    clear -Hd. induction l as [|[] l IH]; [done|..]; cbn [foldl apply_update];
      unfold apply_meta, apply_meta_with_departure, apply_rename; by rewrite Hd. }
  rewrite !foldl_updates by done. f_equal; apply foldl_lww_ext.
  - intros x. rewrite !list_elem_of_omap. naive_solver.
  - intros x y (u & Hu & Ex)%list_elem_of_omap (v & Hv & Ey)%list_elem_of_omap Hk.
    destruct u as [mu|], v as [mv|]; try done. simpl in Ex, Ey. case_decide; [|done].
    case_decide; [|done]. injection Ex as <-. injection Ey as <-.
    injection Hk as -> Hm. f_equal. destruct (Hwf mu Hu) as (_ & ? & ? & _).
    destruct (Hwf mv Hv) as (_ & ? & ? & _). by apply encode_members_inj.
  - intros x. rewrite !list_elem_of_omap. naive_solver.
  - intros x y (u & Hu & Ex)%list_elem_of_omap (v & Hv & Ey)%list_elem_of_omap Hk.
    destruct u as [|nu lu iu], v as [|nv lv iv]; try done. injection Ex as <-. injection Ey as <-.
    injection Hk as -> ->. f_equal. eauto.
Qed.
End updates.

(** ** Histories of one member's view *)

(** Every operation of a channel's membership state, with its arguments. *)
Inductive channel_op :=
  | OpMeta (meta : ChannelMeta)
  | OpMetaAfterLeave (meta : ChannelMeta)
  | OpRename (name : bytes) (lamport : N) (id : EventId)
  | OpDissolve
  | OpInvited (uid : UserId)
  | OpAccept (uid : UserId) (event_id : EventId)
  | OpAutoAccept (uid : UserId)
  | OpTransfer (next : UserId)
  | OpLeave (uid : UserId)
  | OpIdentity (me : UserId)
  | OpAccounts (owner : bytes) (participants : list (PublicIdentity * bytes)) (epoch : N)
  | OpInvites (participants : list (PublicIdentity * bytes))
  | OpProject (projected : ChannelState)
  | OpProjectIndexed (projected : ChannelState).

(** The operations that follow from signed events, as opposed to the
    installation of a projection. *)
Definition event_op (o : channel_op) : bool :=
  match o with
  | OpAccounts _ _ _ | OpInvites _ | OpProject _ | OpProjectIndexed _ => false
  | _ => true
  end.

Section histories.
Context `{Crypto, Bincode (list PublicIdentity)}.
Implicit Types s : ChannelState.

Definition apply_op s (o : channel_op) : ChannelState :=
  match o with
  | OpMeta meta => apply_meta s meta
  | OpMetaAfterLeave meta => apply_meta_after_concurrent_leave s meta
  | OpRename name lamport i => apply_rename s name lamport i
  | OpDissolve => dissolve s
  | OpInvited uid => mark_invited s uid
  | OpAccept uid event_id => accept_invite s uid event_id
  | OpAutoAccept uid => auto_accept_legacy_member s uid
  | OpTransfer next => (transfer_owner s next).1
  | OpLeave uid => (leave_member s uid).1
  | OpIdentity me => set_identity s me
  | OpAccounts owner participants epoch => install_account_projection s owner participants epoch
  | OpInvites participants => install_account_invites s participants
  | OpProject projected => install_membership_projection s projected
  | OpProjectIndexed projected => install_indexed_membership_projection s projected
  end.

Inductive channel_reach (id : ConversationId) (meta : ChannelMeta) : ChannelState → Prop :=
  | cr_from_meta : channel_reach id meta (from_meta id meta)
  | cr_op s o : channel_reach id meta s → channel_reach id meta (apply_op s o).

(** An unanswered invitation of this node is not an acceptance. *)
Definition pending_ok s : Prop :=
  ∀ me, ch_my_user_id s = Some me → ch_pending_invite s = true → me ∉ ch_accepted_members s.

Lemma is_member_spec s uid : is_member s uid = true ↔ ∃ p, p ∈ ch_members s ∧ user_id p = uid.
Proof.
  unfold is_member. rewrite existsb_exists. setoid_rewrite list_elem_of_In.
  by setoid_rewrite bool_decide_eq_true.
Qed.

Lemma is_accepted_spec s uid :
  is_accepted_member s uid = true ↔ is_member s uid = true ∧ uid ∈ ch_accepted_members s.
Proof. unfold is_accepted_member. by rewrite andb_true_iff, bool_decide_eq_true. Qed.

Lemma invited_not_accepted s uid :
  is_member s uid && negb (is_accepted_member s uid) = true → uid ∉ ch_accepted_members s.
Proof.
  intros [Hm Ha]%andb_true_iff Hin. apply negb_true_iff, not_true_iff_false in Ha.
  by apply Ha, is_accepted_spec.
Qed.

Lemma refresh_pending_ok s : pending_ok (refresh_pending s).
Proof.
  intros me. unfold refresh_pending. destruct (ch_my_user_id s) as [me'|] eqn:E; [|congruence].
  cbn. intros [= <-]%(eq_trans (eq_sym E)). apply invited_not_accepted.
Qed.

Lemma apply_meta_cases s meta b :
  apply_meta_with_departure s meta b = s ∨
  apply_meta_with_departure s meta b = set_membership s (m_members meta) (m_epoch meta) ∧
  (ch_epoch s ≤ m_epoch meta)%N ∧ ch_dissolved s = false ∧ m_owner meta = ch_owner s.
Proof.
  unfold apply_meta_with_departure. destruct (ch_dissolved s) eqn:Hd; [by left|].
  case_decide as Ho; [by left|].
  unfold cmp, compare_N. destruct (N.compare_spec (m_epoch meta) (ch_epoch s)) as [He|He|He].
  - destruct (_ || _); [right|by left]. split_and!; try done. lia.
  - by left.
  - right. split_and!; try done. lia.
Qed.

Lemma apply_op_pending s o : pending_ok s → pending_ok (apply_op s o).
Proof.
  intros Hok. destruct o; cbn [apply_op]; try apply refresh_pending_ok.
  - destruct (apply_meta_cases s meta false) as [Heq|[Heq _]]; unfold apply_meta; by rewrite Heq.
  - destruct (apply_meta_cases s meta true) as [Heq|[Heq _]];
      unfold apply_meta_after_concurrent_leave; by rewrite Heq.
  - unfold apply_rename. destruct (ch_dissolved s); [done|]. by case_decide.
  - done.
  - unfold mark_invited. cbn [ch_my_user_id set_accepted]. case_decide as Hme; intros me; cbn.
    + rewrite Hme. intros [= <-] _. set_solver.
    + intros Hs Hp. specialize (Hok me Hs Hp). set_solver.
  - unfold accept_invite. destruct (is_member s uid); [|done].
    cbn [ch_my_user_id ch_pending_invite set_accepted]. case_decide as Hme; intros me; cbn; [done|].
    intros Hs Hp. specialize (Hok me Hs Hp). assert (me ≠ uid) by naive_solver. set_solver.
  - unfold auto_accept_legacy_member. destruct (is_member s uid); [|done].
    cbn [ch_my_user_id set_accepted]. case_decide as Hme; intros me; cbn; [done|].
    intros Hs Hp. specialize (Hok me Hs Hp). assert (me ≠ uid) by naive_solver. set_solver.
  - unfold transfer_owner. by destruct (_ || _).
  - unfold leave_member. destruct (_ || _); [done|]. intros me; cbn. intros Hs Hp.
    specialize (Hok me Hs Hp). set_solver.
  - intros me'; cbn. intros [= <-]. apply invited_not_accepted.
Qed.

Lemma apply_op_monotone s o :
  event_op o = true →
  (ch_epoch s ≤ u64_max → ch_epoch s ≤ ch_epoch (apply_op s o))%N ∧
  cle (ch_name_version s) (ch_name_version (apply_op s o)) ∧
  (ch_dissolved s = true →
     ch_dissolved (apply_op s o) = true ∧ ch_name (apply_op s o) = ch_name s) ∧
  ch_genesis_owner (apply_op s o) = ch_genesis_owner s ∧ ch_id (apply_op s o) = ch_id s.
Proof.
  intros He. destruct o; try done; cbn [apply_op].
  - destruct (apply_meta_cases s meta false) as [Heq|(Heq & Hle & _)]; unfold apply_meta; by rewrite Heq.
  - destruct (apply_meta_cases s meta true) as [Heq|(Heq & Hle & _)];
      unfold apply_meta_after_concurrent_leave; by rewrite Heq.
  - unfold apply_rename. destruct (ch_dissolved s) eqn:Hd; [done|]. case_decide; [|done].
    split_and!; try done. by apply clt_cle.
  - unfold mark_invited. by case_decide.
  - unfold accept_invite. destruct (is_member s uid); [|done]. by case_decide.
  - unfold auto_accept_legacy_member. destruct (is_member s uid); [|done]. by case_decide.
  - unfold transfer_owner. by destruct (_ || _).
  - unfold leave_member. destruct (_ || _); [done|]. split_and!; try done.
    cbn. unfold saturating_add, u64_max. lia.
Qed.


End histories.

(** ** Account projections *)

Section by_key.
Context {A : Type} `{CompareLaws K} (key : A → K).

#[local] Instance by_key_total : Total (λ a b, cle (key a) (key b)).
Proof. intros a b. apply (total cle). Qed.
#[local] Instance by_key_trans : Transitive (λ a b, cle (key a) (key b)).
Proof. intros a b c. apply transitivity. Qed.

Lemma sort_by_key_sorted l : StronglySorted (λ a b, cle (key a) (key b)) (sort_by_key key l).
Proof. apply (StronglySorted_merge_sort _). Qed.
Lemma sort_by_key_perm l : sort_by_key key l ≡ₚ l.
Proof. apply merge_sort_Permutation. Qed.

(** With distinct keys the result does not depend on the order of the input. *)
Lemma sort_by_key_ext l1 l2 :
  l1 ≡ₚ l2 → NoDup (key <$> l1) → sort_by_key key l1 = sort_by_key key l2.
Proof.
  intros Hp Hnd. apply (StronglySorted_unique_strong (λ a b, cle (key a) (key b)));
    [|apply sort_by_key_sorted..|by rewrite !sort_by_key_perm].
  intros x y Hx Hy Hxy Hyx. rewrite sort_by_key_perm in Hx. rewrite sort_by_key_perm, <-Hp in Hy.
  assert (key x = key y) as Hk by by apply (anti_symm cle).
  apply list_elem_of_lookup in Hx as [i Hi], Hy as [j Hj].
  assert (i = j) as ->; [|congruence].
  apply (NoDup_lookup (key <$> l1) i j (key x)); [done|..]; rewrite list_lookup_fmap.
  - by rewrite Hi.
  - by rewrite Hj, Hk.
Qed.
End by_key.

Lemma elem_of_dedup_eq `{EqDecision A} (x : A) l : x ∈ dedup_eq l ↔ x ∈ l.
Proof.
  induction l as [|y l IH]; [done|]. cbn [dedup_eq]. rewrite elem_of_cons, <-IH.
  destruct (dedup_eq l) as [|z l']; [set_solver|]. case_decide; set_solver.
Qed.

Lemma dedup_eq_sorted `{EqDecision A} (R : relation A) l :
  StronglySorted R l → StronglySorted R (dedup_eq l).
Proof.
  induction 1 as [|x l Hl IH Hx]; [constructor|]. cbn [dedup_eq].
  assert (Forall (R x) (dedup_eq l)) as Hx'.
  { apply Forall_forall. intros y Hy. rewrite elem_of_dedup_eq in Hy.
    by apply (proj1 (Forall_forall _ _) Hx). }
  destruct (dedup_eq l) as [|y l'] eqn:E; [by repeat constructor|]. case_decide; [done|].
  by constructor.
Qed.

Section accounts.
Context `{Crypto}.
Implicit Types ps : list (PublicIdentity * bytes).

Definition uids ps : list UserId := (λ p, user_id p.1) <$> ps.
Definition account_map ps (m : gmap UserId bytes) : gmap UserId bytes :=
  foldl (λ m p, <[user_id p.1 := p.2]> m) m ps.

Lemma account_map_dom ps m uid : uid ∈ dom (account_map ps m) ↔ uid ∈ uids ps ∨ uid ∈ dom m.
Proof.
  revert m. induction ps as [|p ps IH]; intros m; [set_solver|].
  cbn [account_map foldl]. fold (account_map ps (<[user_id p.1:=p.2]> m)). rewrite IH. set_solver.
Qed.

Lemma account_map_lookup ps m uid a :
  NoDup (uids ps) →
  account_map ps m !! uid = Some a ↔
  (∃ p, (p, a) ∈ ps ∧ user_id p = uid) ∨ (uid ∉ uids ps) ∧ m !! uid = Some a.
Proof.
  revert m. induction ps as [|[p b] ps IH]; intros m Hnd; [set_solver|].
  cbn [account_map foldl fst snd uids fmap list_fmap]. fold (uids ps) (account_map ps (<[user_id p:=b]> m)).
  apply NoDup_cons in Hnd as [Hnin Hnd]. rewrite IH by done. cbn [fst] in Hnin.
  rewrite lookup_insert_Some. setoid_rewrite elem_of_cons. split.
  - intros [(q & ? & ?)|(Hn & [[<- <-]|[? ?]])]; [left; eauto|left; eauto|right].
    split; [|done]. naive_solver.
  - intros [(q & [Hq|Hq] & Hu)|[Hn Hm]]; [simplify_eq; right; by split; [|left]|left; eauto|].
    right. split; [tauto|]. right. split; [|done]. intros Hu. apply Hn. by left.
Qed.

(** Refreshing the invitation flag touches nothing else. *)
Lemma refresh_pending_set s :
  ∃ b, refresh_pending s = set_invite s b (ch_accepted_event_id s) ∧
    (ch_my_user_id s ≠ None → (∀ uid, is_accepted_member s uid = is_member s uid) → b = false).
Proof.
  unfold refresh_pending. destruct (ch_my_user_id s) as [me|].
  - eexists; split; [done|]. intros _ ->. by destruct (is_member s me).
  - exists (ch_pending_invite s). by destruct s.
Qed.

Lemma account_projection_perm s owner ps ps' epoch :
  NoDup (uids ps) → ps ≡ₚ ps' →
  install_account_projection s owner ps' epoch = install_account_projection s owner ps epoch.
Proof.
  intros Hnd Hp. unfold install_account_projection. fold (account_map ps' ∅) (account_map ps ∅).
  assert (account_map ps' ∅ = account_map ps ∅) as ->.
  { apply map_eq. intros uid. apply option_eq. intros a.
    assert (uids ps ≡ₚ uids ps') as Hu by by apply fmap_Permutation.
    rewrite !account_map_lookup by (rewrite <-?Hu; done). rewrite Hu. by setoid_rewrite Hp. }
  do 3 f_equal. symmetry. apply sort_by_key_ext; [by rewrite Hp|].
  by rewrite <-list_fmap_compose.
Qed.

(** The projection accepts exactly its members. *)
Lemma account_projection_facts s0 owner ps epoch :
  let s := install_account_projection s0 owner ps epoch in
  ch_account_owner s = Some owner ∧ ch_dissolved s = ch_dissolved s0 ∧
  ch_account_members s = account_map ps ∅ ∧
  ch_accepted_members s = dom (account_map ps ∅) ∧
  ch_members s = dedup_eq (sort_by_key user_id ps.*1) ∧
  (∀ uid, is_member s uid = true ↔ uid ∈ dom (account_map ps ∅)) ∧
  (∀ uid, is_accepted_member s uid = is_member s uid) ∧
  (ch_my_user_id s0 ≠ None → ch_pending_invite s = false).
Proof.
  intros s. set (s1 := set_membership (set_accepted (set_accounts s0 (Some owner)
    (account_map ps ∅)) (dom (account_map ps ∅))) (dedup_eq (sort_by_key user_id ps.*1)) epoch).
  assert (∀ uid, is_member s1 uid = true ↔ uid ∈ dom (account_map ps ∅)) as Hdom.
  { intros uid. rewrite is_member_spec, account_map_dom. cbn.
    setoid_rewrite elem_of_dedup_eq. setoid_rewrite sort_by_key_perm.
    unfold uids. rewrite dom_empty. setoid_rewrite list_elem_of_fmap. clear. set_solver. }
  assert (∀ uid, is_accepted_member s1 uid = is_member s1 uid) as Hacc.
  { intros uid. apply eq_true_iff_eq. rewrite is_accepted_spec, Hdom. cbn. tauto. }
  destruct (refresh_pending_set s1) as (b & Hs & Hb). change (refresh_pending s1) with s in Hs. rewrite Hs.
  split_and!; try done. intros Hme. cbn. auto.
Qed.

(** Installing an account projection makes exactly the listed devices members,
    all of them accepted and all of them recipients; the list is ordered by user
    id, and the administrators are exactly the devices of the owning account. *)
Lemma account_projection_spec s0 owner ps epoch :
  NoDup (uids ps) →
  let s := install_account_projection s0 owner ps epoch in
  (∀ p, p ∈ ch_members s ↔ p ∈ ps.*1) ∧
  (∀ uid, is_accepted_member s uid = is_member s uid) ∧
  recipient_members s = ch_members s ∧
  StronglySorted (λ a b, cle (user_id a) (user_id b)) (ch_members s) ∧
  (∀ uid, can_admin s uid = true ↔
     ch_dissolved s0 = false ∧ ∃ p, (p, owner) ∈ ps ∧ user_id p = uid) ∧
  (ch_my_user_id s0 ≠ None → ch_pending_invite s = false) ∧
  (∀ ps', ps ≡ₚ ps' → install_account_projection s0 owner ps' epoch = s).
Proof.
  intros Hnd s.
  destruct (account_projection_facts s0 owner ps epoch) as (Ho & Hd & Hac & Has & Hm & Hdom & Hacc & Hp).
  fold s in Ho, Hd, Hac, Has, Hm, Hdom, Hacc, Hp. split_and!; try done.
  - intros p. by rewrite Hm, elem_of_dedup_eq, sort_by_key_perm.
  - apply filter_all. intros p Hin. right. rewrite Hacc. apply is_member_spec. eauto.
  - rewrite Hm. apply dedup_eq_sorted, sort_by_key_sorted.
  - intros uid. unfold can_admin. rewrite Hd, Ho, Hac, Hacc.
    destruct (ch_dissolved s0); [by split; [|intros []]|].
    rewrite andb_true_iff, bool_decide_eq_true, Hdom, account_map_dom, account_map_lookup by done.
    split; [intros [_ [Hp'|[_ []%lookup_empty_Some]]]; done|]. intros [_ (p & Hin & Hu)].
    split; left; [|by eauto]. apply list_elem_of_fmap. by exists (p, owner).
  - intros ps' Hperm. by apply account_projection_perm.
Qed.

Record invited s t (done : list UserId) : Prop := {
  iv_accepted : ch_accepted_members t = ch_accepted_members s;
  iv_owner : ch_account_owner t = ch_account_owner s;
  iv_dissolved : ch_dissolved t = ch_dissolved s;
  iv_accounts uid : uid ∈ dom (ch_account_members s) →
    ch_account_members t !! uid = ch_account_members s !! uid;
  iv_members p : p ∈ ch_members t → p ∈ ch_members s ∨ is_member s (user_id p) = false;
  iv_kept p : p ∈ ch_members s → p ∈ ch_members t;
  iv_is_member uid : is_member t uid = true ↔ is_member s uid = true ∨ uid ∈ done
}.

Lemma is_member_snoc s p e uid :
  is_member (set_membership s (ch_members s ++ [p]) e) uid = true ↔
  is_member s uid = true ∨ uid = user_id p.
Proof. rewrite !is_member_spec. cbn. set_solver. Qed.

Lemma add_invite_spec s t ids p :
  invited s t ids → invited s (add_invite t p) (ids ++ [user_id p.1]).
Proof.
  intros [Ha Ho Hd Hac Hm Hk Hi].
  set (t1 := if is_member t (user_id p.1) then t
             else set_membership t (ch_members t ++ [p.1]) (ch_epoch t)).
  assert (invited s t1 (ids ++ [user_id p.1])) as Ht1.
  { subst t1. destruct (is_member t (user_id p.1)) eqn:E; split; try done.
    - intros uid. rewrite Hi, elem_of_app, list_elem_of_singleton.
      split; [tauto|]. intros [?|[?| ->]]; [tauto..|]. by apply Hi.
    - intros q. cbn. rewrite elem_of_app, list_elem_of_singleton. intros [?| ->]; [auto|].
      right. apply not_true_iff_false. intros Hs. apply not_true_iff_false in E. apply E, Hi. auto.
    - intros q Hq. cbn. set_solver.
    - intros uid. rewrite is_member_snoc, Hi, elem_of_app, list_elem_of_singleton. tauto. }
  unfold add_invite. fold t1. destruct (ch_account_members t1 !! user_id p.1) eqn:E; [done|].
  destruct Ht1 as [Ha1 Ho1 Hd1 Hac1 Hm1 Hk1 Hi1]. split; try done.
  intros uid Hu. cbn. rewrite lookup_insert_ne; [auto|]. intros <-.
  apply elem_of_dom in Hu as [a Hu]. rewrite <-Hac1 in Hu by by apply elem_of_dom. congruence.
Qed.

Lemma add_invites_spec s inv : invited s (foldl add_invite s inv) (uids inv).
Proof.
  induction inv as [|p inv IH] using rev_ind; [by split; try done; [naive_solver|set_solver]|].
  rewrite foldl_snoc. unfold uids. rewrite fmap_app. by apply add_invite_spec.
Qed.

(** Inviting devices into an account channel grants nothing: each invited
    device becomes a visible member, but who is accepted, who receives content
    and who administers the channel stay exactly as the projection set them. *)
Lemma invites_grant_nothing s0 owner ps epoch inv :
  let s := install_account_projection s0 owner ps epoch in
  let s' := install_account_invites s inv in
  (∀ uid, is_member s' uid = true ↔ is_member s uid = true ∨ uid ∈ uids inv) ∧
  (∀ uid, is_accepted_member s' uid = is_accepted_member s uid) ∧
  (∀ uid, can_admin s' uid = can_admin s uid) ∧
  (∀ p, p ∈ recipient_members s' ↔ p ∈ recipient_members s).
Proof.
  intros s s'. destruct (refresh_pending_set (set_membership (foldl add_invite s inv)
    (sort_by_key user_id (ch_members (foldl add_invite s inv)))
    (ch_epoch (foldl add_invite s inv)))) as (b & Hs' & _).
  fold s' in Hs'. change (refresh_pending _) with s' in Hs'.
  destruct (add_invites_spec s inv) as [Ha Ho Hd Hac Hm Hk Hi].
  set (t := foldl add_invite s inv) in *. clearbody t.
  assert (∀ uid, is_member s' uid = is_member t uid) as Hmem.
  { intros uid. apply eq_true_iff_eq. rewrite !is_member_spec, Hs'. cbn.
    by setoid_rewrite sort_by_key_perm. }
  destruct (account_projection_facts s0 owner ps epoch) as (Ho0 & _ & Hac0 & Has0 & _ & Hdom & Hacc & _).
  fold s in Ho0, Hac0, Has0, Hdom, Hacc.
  assert (∀ uid, is_accepted_member s' uid = is_accepted_member s uid) as Hac'.
  { intros uid. apply eq_true_iff_eq. rewrite !is_accepted_spec, Hmem, Hi, Hdom, Hs'.
    cbn. rewrite Ha, Has0. tauto. }
  split_and!; try done.
  - intros uid. by rewrite Hmem, Hi.
  - intros uid. unfold can_admin. rewrite Hac', Hs'. cbn. rewrite Hd, Ho, Ho0.
    destruct (ch_dissolved s); [done|]. rewrite Hacc. destruct (is_member s uid) eqn:E; [|done].
    rewrite Hac; [done|]. rewrite Hac0. by apply Hdom.
  - intros p. unfold recipient_members. rewrite !list_elem_of_filter, Hac', Hs'. cbn.
    rewrite sort_by_key_perm, Ho, Ho0, Hacc. split; intros [Hor Hin]; (split; [done|]).
    + destruct Hor as [?|Hs]; [done|]. destruct (Hm p Hin); [done|congruence].
    + auto.
Qed.
End accounts.

Module ChannelCodec.
Import Fixint.
Definition identity_codec : codec PublicIdentity :=
  c_iso (λ p, MkPublicIdentity p.1 p.2) (λ p, (ed25519_pub p, x25519_pub p))
    (c_pair (c_arr 32) (c_arr 32)).

#[export] Instance identity_codec_ok : CodecOk identity_codec.
Proof. apply c_iso_ok; [by intros []|by intros []|apply _]. Qed.

#[export] Instance members_bincode : Bincode (list PublicIdentity) :=
  bincode_of (c_vec identity_codec).
#[export] Instance members_laws : BincodeLaws (list PublicIdentity).
Proof. apply bincode_of_laws; [apply _|]. by intros l [? ?]. Qed.

Definition meta_codec : codec ChannelMeta :=
  c_iso (λ '(n, ms, e, o), MkMeta n ms e o)
    (λ m, (m_name m, m_members m, m_epoch m, m_owner m))
    (c_pair (c_pair (c_pair c_string (c_vec identity_codec)) (c_uint 8)) c_string).

#[export] Instance meta_codec_ok : CodecOk meta_codec.
Proof. apply c_iso_ok; [by intros []|by intros [[[]]]|apply _]. Qed.

#[export] Instance meta_bincode : Bincode ChannelMeta := bincode_of meta_codec.
#[export] Instance meta_laws : BincodeLaws ChannelMeta.
Proof.
  apply bincode_of_laws; [apply _|]. intros m (? & ? & ? & ? & ?).
  split; [split; [split; [done|by split]|]|done]. by apply u64_width.
Qed.
End ChannelCodec.

Module ChannelWitness.
Import ToyCrypto Fixint DmCodec ChannelCodec DmWitness.

Definition carol : DeviceIdentity := from_secret_bytes (repeat Byte.x05 32) (repeat Byte.x06 32).
Definition id_a : UserId := user_id (public alice).
Definition id_b : UserId := user_id (public bob).
Definition id_c : UserId := user_id (public carol).

Definition genesis : ChannelMeta := MkMeta (str "team") [public alice; public bob] 1 id_a.
(** Two concurrent snapshots of epoch 2 and a stale one. *)
Definition meta_x : ChannelMeta := MkMeta (str "team") [public alice; public carol] 2 id_a.
Definition meta_y : ChannelMeta :=
  MkMeta (str "team") [public alice; public bob; public carol] 2 id_a.
Definition rename1 : update := URename (str "crew") 5 (repeat Byte.x01 32).
Definition chan0 : ChannelState := from_meta (repeat Byte.x09 32) genesis.

Lemma identity_wf d : length (signing_key d) = 32 → type_wf (public d).
Proof. intros Hl. split; [exact Hl|]. apply x25519_public_length. Qed.

Lemma updates_converge_witness :
  foldl apply_update chan0 [UMeta meta_x; UMeta meta_y; rename1] =
  foldl apply_update chan0 [rename1; UMeta meta_y; rename1; UMeta meta_x].
Proof.
  apply (updates_converge chan0).
  - split.
    + intros meta Hin. assert (meta = meta_x ∨ meta = meta_y) as [->| ->] by set_solver;
        (split; [by_evaluation|]; split_and!; [by_evaluation| |by_evaluation..]);
        repeat (constructor; [by apply identity_wf|]); constructor.
    + intros n1 n2 lamport i H1 H2.
      assert (n1 = str "crew") by (unfold rename1 in H1; set_solver).
      assert (n2 = str "crew") by (unfold rename1 in H2; set_solver). congruence.
  - intros u. set_solver.
Defined.



Definition participants : list (PublicIdentity * bytes) :=
  [(public bob, str "acct-b"); (public alice, str "acct-a")].

End ChannelWitness.
