(* ===== verification/ChannelMessage.v ===== *)
(** * Channel messages

    Models the message layer of crates/mesh-talk-core/src/channel/model.rs — the
    per-message header, sending and preparing under this node's sender key, opening
    under a followed chain — and channel/model/checkpoint.rs, the same operations
    on durable receiver rows, with the record of a channel's current state.
    [SenderKey::generate] is [sender_key_new fresh]. *)

From S2P Require Import Prelude Crypto Bincode Identity Event Ratchet SenderKey Dm Channel.

Record MsgHeader := MkMsgHeader {
  mh_epoch : N;
  mh_sender : UserId;
  mh_n : N
}.

#[global] Instance MsgHeader_wf : TypeWf MsgHeader := λ h,
  (mh_epoch h ≤ u64_max)%N ∧ string_wf (mh_sender h) ∧
  (mh_n h ≤ u32_max)%N.

Definition PreparedSenderMessage : Type :=
  bytes * option SenderKeyDistribution * list (N * bytes).

Record CurrentState := MkCurrent {
  cs_version : N;
  cs_id : ConversationId;
  cs_name : bytes;
  cs_name_version : N * EventId;
  cs_members : list PublicIdentity;
  cs_epoch : N;
  cs_owner : UserId;
  cs_account_owner : option bytes;
  cs_account_members : gmap UserId bytes;
  cs_dissolved : bool;
  cs_genesis_owner : UserId;
  cs_pending_invite : bool;
  cs_accepted_event_id : option EventId;
  cs_accepted_members : gset UserId;
  cs_my_user_id : option UserId
}.

#[global] Instance CurrentState_wf : TypeWf CurrentState := λ c,
  let txt := string_wf in
  (cs_version c ≤ 255)%N ∧ length (cs_id c) = 32 ∧ txt (cs_name c) ∧
  ((cs_name_version c).1 ≤ u64_max)%N ∧ length (cs_name_version c).2 = 32 ∧
  type_wf (cs_members c) ∧ (cs_epoch c ≤ u64_max)%N ∧ txt (cs_owner c) ∧
  (∀ a, cs_account_owner c = Some a → txt a) ∧
  (N.of_nat (size (cs_account_members c)) ≤ u64_max)%N ∧
  (∀ k a, cs_account_members c !! k = Some a → txt k ∧ txt a) ∧
  txt (cs_genesis_owner c) ∧ (∀ e, cs_accepted_event_id c = Some e → length e = 32) ∧
  (N.of_nat (size (cs_accepted_members c)) ≤ u64_max)%N ∧
  (∀ k, k ∈ cs_accepted_members c → txt k) ∧ (∀ u, cs_my_user_id c = Some u → txt u).

Inductive CheckpointMessageError :=
  | CmRejected
  | CmGap (after_position : N)
  | CmMalformed (m : bytes).

Record PreparedChannelMessage := MkPreparedChannel {
  pc_next_position : N;
  pc_epoch : N;
  pc_author : UserId;
  pc_checkpoint : bytes;
  pc_plaintext : bytes
}.

Section messages.
Context `{Crypto, BincodeText, Bincode SenderKey, Bincode MsgHeader, Bincode CurrentState}.
Implicit Types s : ChannelState.

Definition msg_encode (h : MsgHeader) : bytes := ser h.
Definition msg_decode (bs : bytes) : option MsgHeader := de bs.

(** [entry(epoch).or_insert_with(SenderKey::generate)]. *)
Definition sender_entry (fresh : bytes) s : SenderKey :=
  default (sender_key_new fresh) (ch_my_sender s !! ch_epoch s).
Definition put_sender s (k : SenderKey) : ChannelState :=
  set_keys s (<[ch_epoch s := k]> (ch_my_sender s)) (ch_sender_chains s).

Definition my_sender_distribution (fresh : bytes) s : ChannelState * SenderKeyDistribution :=
  let k := sender_entry fresh s in (put_sender s k, distribution k).

Definition has_my_sender s (epoch : N) : bool := bool_decide (is_Some (ch_my_sender s !! epoch)).

Definition export_my_senders s : list (N * bytes) :=
  (λ p, (p.1, sender_key_serialize p.2)) <$> map_to_list (ch_my_sender s).

Definition import_my_sender s (epoch : N) (k : SenderKey) : ChannelState :=
  set_keys s (<[epoch := k]> (ch_my_sender s)) (ch_sender_chains s).

Definition record_sender_chain s (author : UserId) (epoch : N) (skd : SenderKeyDistribution) :
    ChannelState :=
  match ch_sender_chains s !! (author, epoch) with
  | Some _ => s
  | None => set_keys s (ch_my_sender s)
              (<[(author, epoch) := from_distribution skd]> (ch_sender_chains s))
  end.

(** [u16 header length ‖ header ‖ ciphertext]; the length is cut to 16 bits. *)
Definition frame (hdr ct : bytes) : bytes :=
  be_bytes 2 (N.of_nat (length hdr)) ++ hdr ++ ct.

Definition seal_sender_message (fresh : bytes) s (plaintext : bytes) :
    ChannelState * result ChannelError bytes :=
  match ch_my_user_id s with
  | None => (s, Err (ChMalformed (str "no identity")))
  | Some me =>
      if negb (is_member s me) || ch_pending_invite s
      then (s, Err (ChMalformed (str "not a channel member")))
      else
        match try_ratchet (sender_entry fresh s) with
        | (sk, Err _) => (put_sender s sk, Err (ChMalformed (str "sender chain exhausted")))
        | (sk, Ok (n, mk)) =>
            let hdr := msg_encode (MkMsgHeader (ch_epoch s) me n) in
            match seal_message mk plaintext hdr with
            | Err _ => (put_sender s sk, Err ChEncrypt)
            | Ok ct => (put_sender s sk, Ok (frame hdr ct))
            end
        end
  end.

Definition prepare_sender_message (fresh : bytes) s (plaintext : bytes) :
    result ChannelError PreparedSenderMessage :=
  me ← ok_or (ch_my_user_id s) (ChMalformed (str "no identity"));
  key ← match ch_my_sender s !! ch_epoch s with
        | Some key => ok_or (sender_key_deserialize (sender_key_serialize key))
                        (ChMalformed (str "invalid sender snapshot"))
        | None => Ok (sender_key_new fresh)
        end;
  let dist := if has_my_sender s (ch_epoch s) then None else Some (distribution key) in
  match try_ratchet key with
  | (_, Err _) => Err (ChMalformed (str "sender chain exhausted"))
  | (key, Ok (n, mk)) =>
      let hdr := msg_encode (MkMsgHeader (ch_epoch s) me n) in
      ct ← map_err (λ _, ChEncrypt) (seal_message mk plaintext hdr);
      let senders := filter (λ p, p.1 ≠ ch_epoch s) (export_my_senders s) in
      Ok (frame hdr ct, dist, senders ++ [(ch_epoch s, sender_key_serialize key)])
  end.

Definition open_sender_message s (expected_sender : UserId) (wire : bytes) :
    ChannelState * option bytes :=
  if decide (length wire < 2) then (s, None)
  else
    let hlen := N.to_nat (be_value (take 2 wire)) in
    if decide (length wire < 2 + hlen) then (s, None)
    else
      let hdr_bytes := slice 2 (2 + hlen) wire in
      let ct := drop (2 + hlen) wire in
      match msg_decode hdr_bytes with
      | None => (s, None)
      | Some hdr =>
          if decide (mh_sender hdr ≠ expected_sender) then (s, None)
          else
            match ch_sender_chains s !! (mh_sender hdr, mh_epoch hdr) with
            | None => (s, None)
            | Some c =>
                match prepare_open c (mh_n hdr) ct hdr_bytes with
                | Err _ => (s, None)
                | Ok prepared =>
                    let '(c', plaintext) := install prepared c in
                    (set_keys s (ch_my_sender s)
                       (<[(mh_sender hdr, mh_epoch hdr) := c']> (ch_sender_chains s)),
                     Some plaintext)
                end
            end
      end.

(** ** Durable rows *)

Definition current_of s : CurrentState :=
  {| cs_version := 1; cs_id := ch_id s; cs_name := ch_name s;
     cs_name_version := ch_name_version s; cs_members := ch_members s;
     cs_epoch := ch_epoch s; cs_owner := ch_owner s; cs_account_owner := ch_account_owner s;
     cs_account_members := ch_account_members s; cs_dissolved := ch_dissolved s;
     cs_genesis_owner := ch_genesis_owner s; cs_pending_invite := ch_pending_invite s;
     cs_accepted_event_id := ch_accepted_event_id s;
     cs_accepted_members := ch_accepted_members s; cs_my_user_id := ch_my_user_id s |}.

Definition encode_current s : result ChannelError bytes := Ok (ser (current_of s)).

(** [members.iter().any(|member| !seen.insert(member.user_id()))]. *)
Fixpoint repeats (seen : gset UserId) (members : list PublicIdentity) : bool :=
  match members with
  | [] => false
  | m :: members =>
      if decide (user_id m ∈ seen) then true else repeats ({[user_id m]} ∪ seen) members
  end.

Definition decode_current (bs : bytes) : result ChannelError ChannelState :=
  current ← ok_or (de bs) (ChMalformed (de_error bs));
  if negb (bool_decide (cs_version current = 1%N)) || repeats ∅ (cs_members current)
  then Err (ChMalformed (str "invalid current channel checkpoint"))
  else Ok {| ch_id := cs_id current; ch_name := cs_name current;
         ch_name_version := cs_name_version current; ch_members := cs_members current;
         ch_epoch := cs_epoch current; ch_owner := cs_owner current;
         ch_account_owner := cs_account_owner current;
         ch_account_members := cs_account_members current;
         ch_dissolved := cs_dissolved current; ch_genesis_owner := cs_genesis_owner current;
         ch_pending_invite := cs_pending_invite current;
         ch_accepted_event_id := cs_accepted_event_id current;
         ch_accepted_members := cs_accepted_members current;
         ch_my_user_id := cs_my_user_id current; ch_my_sender := ∅; ch_sender_chains := ∅ |}.

Definition bad_row : bytes := str "invalid local receiver checkpoint".

Definition checkpoint_distribution (bs : bytes) : result ChannelError SenderKeyDistribution :=
  map_err (λ _, ChMalformed bad_row) (current_distribution <$> decode_checkpoint bs).

Definition message_parts (wire : bytes) : option (MsgHeader * nat) :=
  if decide (length wire < 2) then None
  else
    let len := N.to_nat (be_value (take 2 wire)) in
    if decide (length wire < 2 + len) then None
    else hdr ← msg_decode (slice 2 (2 + len) wire); Some (hdr, len).

Definition sender_message_epoch (expected_sender : UserId) (wire : bytes) : option N :=
  '(hdr, _) ← message_parts wire;
  if decide (mh_sender hdr = expected_sender) then Some (mh_epoch hdr) else None.

Definition prepare_checkpoint_message (expected_sender : UserId) (checkpoint wire : bytes) :
    result CheckpointMessageError PreparedChannelMessage :=
  '(hdr, len) ← ok_or (message_parts wire) CmRejected;
  if decide (mh_sender hdr ≠ expected_sender) then Err CmRejected
  else
    c ← map_err (λ _, CmMalformed bad_row) (decode_checkpoint checkpoint);
    prepared ← map_err (λ e, match e with
                             | SkTooManySkipped => CmGap (mh_n hdr - SK_MAX_SKIP)
                             | _ => CmRejected
                             end)
                 (prepare_open c (mh_n hdr) (drop (2 + len) wire) (slice 2 (2 + len) wire));
    '(cp, pt, next) ← map_err (λ _, CmMalformed bad_row) (into_checkpoint prepared);
    Ok (MkPreparedChannel next (mh_epoch hdr) (mh_sender hdr) cp pt).

Definition refreshed_receiver_checkpoint (checkpoint : bytes) (d : SenderKeyDistribution) :
    result ChannelError bytes :=
  c ← map_err (λ _, ChMalformed bad_row) (decode_checkpoint checkpoint);
  map_err (λ _, ChMalformed bad_row) (encode_checkpoint (refresh_distribution c d)).

Definition use_indexed_receivers s : ChannelState :=
  set_keys s (filter (λ p, p.1 = ch_epoch s) (ch_my_sender s)) ∅.

Definition initial_receiver_checkpoint (d : SenderKeyDistribution) : result ChannelError bytes :=
  map_err (λ _, ChMalformed bad_row) (encode_checkpoint (from_distribution d)).
End messages.

(** ** Framing *)

Section framing.
Context `{Crypto, Bincode SenderKey, Bincode MsgHeader, !BincodeLaws MsgHeader}.
Implicit Types s : ChannelState.

Lemma frame_parts h ct :
  type_wf h → (N.of_nat (length (msg_encode h)) ≤ u16_max)%N →
  let len := length (msg_encode h) in
  message_parts (frame (msg_encode h) ct) = Some (h, len) ∧
  slice 2 (2 + len) (frame (msg_encode h) ct) = msg_encode h ∧
  drop (2 + len) (frame (msg_encode h) ct) = ct.
Proof.
  intros Hwf Hlen len. set (w := frame (msg_encode h) ct).
  assert (length (be_bytes 2 (N.of_nat len)) = 2) as H2 by apply length_be_bytes.
  assert (N.to_nat (be_value (take 2 w)) = len) as Hl.
  { unfold w, frame. rewrite take_app_length' by done. rewrite be_value_be_bytes; [lia|].
    change (256 ^ N.of_nat 2)%N with (u16_max + 1)%N. lia. }
  assert (length w = 2 + len + length ct) as Hw.
  { unfold w, frame. rewrite !length_app, length_be_bytes. fold len. lia. }
  assert (slice 2 (2 + len) w = msg_encode h) as Hs.
  { unfold slice, w, frame. rewrite drop_app_length' by done. apply take_app_length'. lia. }
  split_and!; [|done|].
  - unfold message_parts. rewrite Hl, Hs, Hw, !decide_False by lia.
    unfold msg_decode, msg_encode. by rewrite de_ser.
  - unfold w, frame. rewrite app_assoc. apply drop_app_length'. rewrite length_app, length_be_bytes. fold len. lia.
Qed.

(** Opening, by the parts of the wire. *)
Lemma open_by_parts s expected wire :
  open_sender_message s expected wire =
  match message_parts wire with
  | None => (s, None)
  | Some (hdr, len) =>
      if decide (mh_sender hdr = expected) then
        match ch_sender_chains s !! (expected, mh_epoch hdr) with
        | None => (s, None)
        | Some c =>
            match prepare_open c (mh_n hdr) (drop (2 + len) wire) (slice 2 (2 + len) wire) with
            | Err _ => (s, None)
            | Ok p => (set_keys s (ch_my_sender s)
                (<[(expected, mh_epoch hdr) := po_next p]> (ch_sender_chains s)),
                Some (po_plaintext p))
            end
        end
      else (s, None)
  end.
Proof.
  unfold open_sender_message, message_parts. case_decide; [done|]. case_decide; [done|].
  destruct (msg_decode _) as [hdr|]; [|done]. cbn [mbind option_bind].
  destruct (decide (mh_sender hdr = expected)) as [->|Hne]; [|by rewrite decide_True].
  rewrite decide_False by tauto. done.
Qed.
End framing.

(** ** Opening: binding to the author, single use, no effect on failure *)

(** Every followed chain is a valid receiver. *)
Definition chains_ok (s : ChannelState) : Prop :=
  ∀ k c, ch_sender_chains s !! k = Some c → chain_inv c.

Section opening.
Context `{Crypto, !CryptoLaws, Bincode SenderKey, Bincode MsgHeader}.
Implicit Types s : ChannelState.

Lemma open_Some s expected wire s' pt :
  chains_ok s → open_sender_message s expected wire = (s', Some pt) →
  ∃ hdr len c c' mk,
    message_parts wire = Some (hdr, len) ∧ mh_sender hdr = expected ∧
    ch_sender_chains s !! (expected, mh_epoch hdr) = Some c ∧
    message_key c (mh_n hdr) = (c', Ok mk) ∧
    open_message mk (drop (2 + len) wire) (slice 2 (2 + len) wire) = Ok pt ∧
    s' = set_keys s (ch_my_sender s) (<[(expected, mh_epoch hdr) := c']> (ch_sender_chains s)).
Proof.
  intros Hok. rewrite open_by_parts. destruct (message_parts wire) as [[hdr len]|]; [|done].
  case_decide as Hs; [|done].
  destruct (ch_sender_chains s !! (expected, mh_epoch hdr)) as [c|] eqn:Hc; [|done].
  rewrite prepare_open_fork by by eapply Hok.
  destruct (message_key c (mh_n hdr)) as [c' [mk|e]] eqn:Hk; [|done].
  destruct (open_message _ _ _) as [pt'|] eqn:Ho; [|done]. cbn. intros [= <- <-].
  by exists hdr, len, c, c', mk.
Qed.

(** C30: A channel message opens only on the chain of the authenticated author:
    the header must name that author and a chain of theirs at the header's epoch
    must be known.  A successful open changes that chain alone, keeps all chains
    valid and cannot be repeated; a failed one changes nothing. *)
Theorem open_sender_message_safe s expected wire :
  chains_ok s →
  let s' := (open_sender_message s expected wire).1 in
  chains_ok s' ∧
  ((open_sender_message s expected wire).2 = None → s' = s) ∧
  (∀ pt, (open_sender_message s expected wire).2 = Some pt →
     ∃ hdr len, message_parts wire = Some (hdr, len) ∧ mh_sender hdr = expected ∧
       is_Some (ch_sender_chains s !! (expected, mh_epoch hdr)) ∧
       (∀ k, k ≠ (expected, mh_epoch hdr) →
          ch_sender_chains s' !! k = ch_sender_chains s !! k) ∧
       ch_my_sender s' = ch_my_sender s ∧ current_of s' = current_of s ∧
       open_sender_message s' expected wire = (s', None)).
Proof.
  intros Hok s'. subst s'. destruct (open_sender_message s expected wire) as [s' [pt|]] eqn:Ho;
    cbn [fst snd].
  - destruct (open_Some s expected wire s' pt Hok Ho)
      as (hdr & len & c & c' & mk & Hp & Hs & Hc & Hk & Hopen & ->).
    assert (chain_inv c) as Hinv by by eapply Hok.
    assert (chain_inv c') as Hinv'.
    { replace c' with (message_key c (mh_n hdr)).1 by by rewrite Hk. by apply message_key_inv. }
    split; [|split; [done|]].
    { intros k c1. cbn. rewrite lookup_insert_Some. intros [[_ <-]|[_ ?]]; [done|by eapply Hok]. }
    intros pt' _. exists hdr, len. split_and!; try done.
    + intros k Hne. cbn. by rewrite lookup_insert_ne.
    + rewrite open_by_parts, Hp, decide_True by done. cbn [set_keys ch_sender_chains].
      rewrite lookup_insert_eq, prepare_open_fork by done.
      destruct (message_key_once c (mh_n hdr) Hinv) as [Honce _]. rewrite Hk in Honce.
      specialize (Honce mk eq_refl). cbn [fst] in Honce. by rewrite Honce.
  - assert (s' = s) as ->; [|by split_and!].
    revert Ho. rewrite open_by_parts. destruct (message_parts wire) as [[hdr len]|]; [|by intros [= ->]].
    case_decide; [|by intros [= ->]]. destruct (ch_sender_chains s !! _); [|by intros [= ->]].
    destruct (prepare_open _ _ _ _); by intros [= ->].
Qed.
End opening.

(** ** Delivery *)

Section delivery.
Context `{Crypto, !CryptoLaws, Bincode SenderKey, Bincode MsgHeader, !BincodeLaws MsgHeader}.
Implicit Types s : ChannelState.

(** Sending and opening a list of messages, one after the other. *)
Fixpoint seal_all (fresh : bytes) s (pts : list bytes) :
    ChannelState * list (result ChannelError bytes) :=
  match pts with
  | [] => (s, [])
  | pt :: pts =>
      let '(s, r) := seal_sender_message fresh s pt in
      let '(s, rs) := seal_all fresh s pts in (s, r :: rs)
  end.

Fixpoint open_all s (expected : UserId) (wires : list bytes) : list (option bytes) :=
  match wires with
  | [] => []
  | w :: wires =>
      let '(s, r) := open_sender_message s expected w in r :: open_all s expected wires
  end.

(** This node may send as [me]. *)
Definition can_send s (me : UserId) : Prop :=
  ch_my_user_id s = Some me ∧ is_member s me = true ∧ ch_pending_invite s = false.

(** [w] carries [pt] as message [n] of the chain that starts at [base] with [root]. *)
Definition carries (me : UserId) (epoch : N) (root : bytes) (base n : N) (pt w : bytes) : Prop :=
  let hdr := MkMsgHeader epoch me n in
  ∃ ct, w = frame (msg_encode hdr) ct ∧
    open_message (mk_at root (n - base)) ct (msg_encode hdr) = Ok pt.

Lemma seal_open_message mk pt aad :
  (N.of_nat (length pt) ≤ aead_max)%N →
  ∃ ct, seal_message mk pt aad = Ok ct ∧ open_message mk ct aad = Ok pt.
Proof.
  intros Hlen. unfold seal_message, open_message. destruct (message_keys_length mk) as [Lk Ln].
  destruct (message_keys mk) as [key nonce]. cbn [fst snd] in *.
  destruct (aes_gcm_encrypt_total key nonce aad pt Lk Ln Hlen) as (ct & Hct & _).
  exists ct. rewrite Hct. by rewrite (aes_gcm_decrypt_encrypt _ _ _ _ _ Hct).
Qed.

(** One send. *)
Lemma seal_step fresh s me pt :
  can_send s me → type_wf (sender_entry fresh s) → (sk_n (sender_entry fresh s) < u32_max)%N →
  (N.of_nat (length pt) ≤ aead_max)%N →
  let sk := sender_entry fresh s in
  let sk' := MkSenderKey (chain (sk_chain_key sk) 1) (sk_n sk + 1) in
  ∃ w, seal_sender_message fresh s pt = (put_sender s sk', Ok w) ∧
    carries me (ch_epoch s) (sk_chain_key sk) (sk_n sk) (sk_n sk) pt w.
Proof.
  intros (Hme & Hm & Hp) Hwf Hn Hlen sk sk'. unfold seal_sender_message.
  fold sk. rewrite Hme, Hm, Hp. cbn [negb orb]. destruct (try_ratchet_steps sk Hwf) as [Ht _].
  rewrite (Ht Hn). set (hdr := msg_encode (MkMsgHeader (ch_epoch s) me (sk_n sk))).
  destruct (seal_open_message (mk_at (sk_chain_key sk) 0) pt hdr Hlen) as (ct & Hs & Ho).
  rewrite Hs. eexists. split; [done|]. exists ct. split; [done|].
  by replace (sk_n sk - sk_n sk)%N with 0%N by lia.
Qed.

Lemma put_sender_entry fresh s sk : sender_entry fresh (put_sender s sk) = sk.
Proof. unfold sender_entry. cbn. by rewrite lookup_insert_eq. Qed.

Lemma carries_shift me epoch root base n pt w :
  (base < n)%N → carries me epoch (chain root 1) (base + 1) n pt w → carries me epoch root base n pt w.
Proof.
  intros Hlt (ct & -> & Ho). exists ct. split; [done|].
  change (chain root 1) with (chain root (N.to_nat 1)) in Ho. rewrite mk_at_chain in Ho.
  by replace (n - base)%N with (1 + (n - (base + 1)))%N by lia.
Qed.

(** A run of sends yields one wire per message, at consecutive positions. *)
Lemma seal_all_spec fresh s me pts :
  can_send s me → type_wf (sender_entry fresh s) →
  (sk_n (sender_entry fresh s) + N.of_nat (length pts) ≤ u32_max)%N →
  (∀ pt, pt ∈ pts → (N.of_nat (length pt) ≤ aead_max)%N) →
  let sk := sender_entry fresh s in
  ∃ wires, (seal_all fresh s pts).2 = Ok <$> wires ∧ length wires = length pts ∧
    ∀ i pt w, pts !! i = Some pt → wires !! i = Some w →
      carries me (ch_epoch s) (sk_chain_key sk) (sk_n sk) (sk_n sk + N.of_nat i) pt w.
Proof.
  revert s. induction pts as [|pt pts IH]; intros s Hc Hwf Hn Hlen sk; [by exists []|].
  cbn [length] in Hn. cbn [seal_all].
  destruct (seal_step fresh s me pt Hc Hwf) as (w & -> & Hw); [lia|apply Hlen; set_solver|].
  set (s1 := put_sender s _).
  assert (sender_entry fresh s1 = MkSenderKey (chain (sk_chain_key sk) 1) (sk_n sk + 1)) as He
    by apply put_sender_entry.
  destruct (IH s1) as (wires & Hws & Hl & Hall).
  { done. }
  { rewrite He. destruct (try_ratchet_steps sk Hwf) as (Ht & _ & Hwf').
    rewrite Ht in Hwf'; [done|]. subst sk. lia. }
  { rewrite He. cbn [sk_n]. subst sk. lia. }
  { intros p Hp. apply Hlen. set_solver. }
  destruct (seal_all fresh s1 pts) as [s2 rs]. cbn [snd] in *.
  exists (w :: wires). rewrite Hws. split_and!; [done|by cbn; rewrite Hl|].
  intros [|i] pt' w' Hpt Hw'; cbn in Hpt, Hw'.
  - simplify_eq. by rewrite N.add_0_r.
  - specialize (Hall i pt' w' Hpt Hw'). rewrite He in Hall. cbn [sk_chain_key sk_n] in Hall.
    apply carries_shift; [lia|].
    by replace (sk_n sk + N.of_nat (S i))%N with (sk_n sk + 1 + N.of_nat i)%N by lia.
Qed.

(** Opening a wire of a followed chain hands out its plaintext. *)
Lemma open_carried s me epoch root base n pt w c :
  (mh_epoch (MkMsgHeader epoch me n) ≤ u64_max)%N → (n ≤ u32_max)%N →
  string_wf me →
  (N.of_nat (length (msg_encode (MkMsgHeader epoch me n))) ≤ u16_max)%N →
  ch_sender_chains s !! (me, epoch) = Some c → chain_inv c → follows root base c →
  is_ok (message_key c n).2 = true → carries me epoch root base n pt w →
  open_sender_message s me w =
  (set_keys s (ch_my_sender s) (<[(me, epoch) := (message_key c n).1]> (ch_sender_chains s)), Some pt).
Proof.
  intros He Hn Hme Hlen Hc Hinv Hf Hok (ct & -> & Ho).
  destruct (frame_parts (MkMsgHeader epoch me n) ct) as (Hp & Hs & Hd); [by split_and!|done|].
  rewrite open_by_parts, Hp. cbn [mh_sender mh_epoch mh_n]. rewrite decide_True, Hc by done.
  rewrite prepare_open_fork, Hs, Hd by done. destruct (message_key_follows root base c n Hf) as [_ Hmk].
  destruct (message_key c n) as [c' [mk|e]]; [|done]. cbn [fst snd] in *.
  destruct (Hmk mk eq_refl) as [_ ->]. by rewrite Ho.
Qed.

(** C6: Channel messages are delivered whatever the network does to their order:
    a member whose epoch key was distributed sends up to 1001 messages, and a
    receiver that recorded the distribution opens any subset of them, in any
    order, each to exactly the plaintext that was sent at that position. *)
Theorem channel_delivery fresh s me pts r ks :
  can_send s me → type_wf (sender_entry fresh s) →
  (sk_n (sender_entry fresh s) + N.of_nat (length pts) ≤ u32_max)%N →
  (N.of_nat (length pts) ≤ SK_MAX_SKIP + 1)%N →
  (∀ pt, pt ∈ pts → (N.of_nat (length pt) ≤ aead_max)%N) →
  (ch_epoch s ≤ u64_max)%N → string_wf me →
  (∀ n, (n ≤ u32_max)%N →
     (N.of_nat (length (msg_encode (MkMsgHeader (ch_epoch s) me n))) ≤ u16_max)%N) →
  ch_sender_chains r !! (me, ch_epoch s) = None →
  NoDup ks → (∀ k, k ∈ ks → k < length pts) →
  ∃ wires, (seal_all fresh s pts).2 = Ok <$> wires ∧ length wires = length pts ∧
    open_all (record_sender_chain r me (ch_epoch s) (distribution (sender_entry fresh s)))
      me (omap (wires !!.) ks) = omap (λ k, Some <$> pts !! k) ks.
Proof.
  intros Hc Hwf Hn Hsk Hlen He Hme Hh Hnone Hnd Hks.
  set (sk := sender_entry fresh s) in *. set (root := sk_chain_key sk). set (base := sk_n sk).
  destruct (seal_all_spec fresh s me pts Hc Hwf Hn Hlen) as (wires & Hw & Hlw & Hall).
  exists wires. split; [done|]. split; [done|]. unfold record_sender_chain. rewrite Hnone.
  set (r0 := set_keys _ _ _). set (c0 := from_distribution (distribution sk)).
  assert (ch_sender_chains r0 !! (me, ch_epoch s) = Some c0) as Hr0 by apply lookup_insert_eq.
  assert (chain_inv c0) as Hi0 by by apply (proj1 receiver_inv).
  assert (follows root base c0) as Hf0.
  { split; cbn; [done|by rewrite N.sub_diag|done]. }
  assert (window base c0 ((λ k, base + N.of_nat k)%N <$> ks)) as Hw0.
  { split; cbn; rewrite ?map_size_empty; try lia.
    - intros n (k & -> & _)%list_elem_of_fmap. right. subst base. lia.
    - intros n (k & -> & Hk%Hks)%list_elem_of_fmap. subst base. lia. }
  clearbody r0 c0. clear Hw. revert r0 c0 Hr0 Hi0 Hf0 Hw0.
  induction ks as [|k ks IH]; intros r0 c0 Hr0 Hi0 Hf0 Hw0; [done|].
  assert (k < length pts) as Hk by (apply Hks; set_solver).
  destruct (lookup_lt_is_Some_2 pts k Hk) as [pt Hpt].
  destruct (lookup_lt_is_Some_2 wires k ltac:(lia)) as [w Hwk].
  cbn [omap list_omap]. rewrite Hpt, Hwk. cbn [fmap option_fmap option_map open_all].
  destruct (window_step base c0 (base + N.of_nat k) ((λ k, base + N.of_nat k)%N <$> ks))
    as [Hok Hw1]; [|done|].
  { change (NoDup ((λ k, base + N.of_nat k)%N <$> k :: ks)). apply NoDup_fmap_2; [|done].
    intros x y ?. lia. }
  rewrite (open_carried r0 me (ch_epoch s) root base (base + N.of_nat k) pt w c0);
    [|done|subst base; lia|done|apply Hh; subst base; lia|done..|by apply Hall].
  f_equal. apply NoDup_cons in Hnd as [_ Hnd].
  apply (IH Hnd) with (c0 := (message_key c0 (base + N.of_nat k)).1); [|..].
  - intros k' Hk'. apply Hks. set_solver.
  - apply lookup_insert_eq.
  - by apply message_key_inv.
  - by apply message_key_follows.
  - done.
Qed.
End delivery.

(** ** Durable rows refine the live chains *)

Section rows.
Context `{Crypto, !CryptoLaws, Bincode SenderKey, Bincode MsgHeader}.
Implicit Types s : ChannelState.

Lemma message_key_gap c target :
  (message_key c target).2 = Err SkTooManySkipped ↔
  sc_skipped c !! target = None ∧ (target < u32_max ∧ SK_MAX_SKIP < target - sc_n c)%N.
Proof.
  unfold message_key. destruct (sc_skipped c !! target) as [mk|]; [naive_solver|].
  case_decide as Hlt; [split; [done|]; unfold SK_MAX_SKIP; lia|].
  destruct (checked_add u32_max target 1) as [nn|] eqn:Hc.
  - apply checked_add_Some in Hc as [-> Hc]. case_decide as Hg.
    + split; [intros _; split_and!; [done|lia|done]|done].
    + destruct (kdf_ck _) as [nx mk]. split; [done|]. tauto.
  - apply checked_add_None in Hc. split; [done|]. lia.
Qed.

(** C31: Opening a message against its durable row agrees with opening it on the
    live chain: the same plaintext, the row of the chain that results, and the
    same refusals.  Preparation of a valid row never reports it as malformed, and
    a reported gap names the least chain position from which the message could be
    reached. *)
Theorem checkpoint_refines_open s expected wire epoch c row :
  chains_ok s → sender_message_epoch expected wire = Some epoch →
  ch_sender_chains s !! (expected, epoch) = Some c → encode_checkpoint c = Ok row →
  match prepare_checkpoint_message expected row wire with
  | Ok p =>
      pc_author p = expected ∧ pc_epoch p = epoch ∧
      ∃ c', open_sender_message s expected wire =
              (set_keys s (ch_my_sender s) (<[(expected, epoch) := c']> (ch_sender_chains s)),
               Some (pc_plaintext p)) ∧
        encode_checkpoint c' = Ok (pc_checkpoint p) ∧ pc_next_position p = sc_n c'
  | Err e =>
      open_sender_message s expected wire = (s, None) ∧ (∀ m, e ≠ CmMalformed m) ∧
      (∀ a, e = CmGap a → ∃ hdr len, message_parts wire = Some (hdr, len) ∧
         ∀ pos, (a ≤ pos ↔ mh_n hdr - pos ≤ SK_MAX_SKIP)%N)
  end.
Proof.
  intros Hok Hepoch Hc Hrow. assert (chain_inv c) as Hinv by by eapply Hok.
  assert (decode_checkpoint row = Ok c) as Hdec.
  { rewrite encode_checkpoint_image in Hrow by done. injection Hrow as <-. by apply decode_image. }
  unfold sender_message_epoch in Hepoch. unfold prepare_checkpoint_message.
  rewrite open_by_parts. destruct (message_parts wire) as [[hdr len]|]; [|done].
  cbn [mbind option_bind result_bind ok_or] in *. case_decide as Hs; [|done]. injection Hepoch as <-.
  rewrite decide_False by tauto. rewrite Hdec, Hc. cbn [map_err mbind result_bind].
  rewrite prepare_open_fork by done.
  pose proof (message_key_inv c (mh_n hdr) Hinv) as Hinv'.
  pose proof (message_key_gap c (mh_n hdr)) as Hgap.
  destruct (message_key c (mh_n hdr)) as [c' [mk|e]]; cbn [fst snd] in *.
  - unfold open_message. destruct (message_keys mk) as [key nonce].
    destruct (aes_gcm_decrypt _ _ _ _) as [pt|]; cbn [ok_or map_err mbind result_bind].
    + unfold into_checkpoint. cbn [po_next]. rewrite encode_checkpoint_image by done. cbn.
      split_and!; [done..|]. exists c'. by rewrite encode_checkpoint_image.
    + by split_and!.
  - cbn [map_err mbind result_bind]. split_and!; [done|by destruct e|].
    intros a. destruct e; try done. intros [= <-]. exists hdr, len. split; [done|].
    destruct Hgap as [Hgap _]. destruct (Hgap eq_refl) as (_ & _ & Hgt).
    intros pos. unfold SK_MAX_SKIP in *. lia.
Qed.
End rows.

(** ** Preparing a send *)

Section preparing.
Context `{Crypto, !CryptoLaws, Bincode SenderKey, Bincode MsgHeader, !BincodeLaws SenderKey}.
Implicit Types s : ChannelState.

(** Installing a journalled list of sender snapshots, as at open. *)
Definition import_snapshot s (p : N * bytes) : ChannelState :=
  match sender_key_deserialize p.2 with
  | Some k => import_my_sender s p.1 k
  | None => s
  end.
Definition import_snapshots s (l : list (N * bytes)) : ChannelState := foldl import_snapshot s l.

Lemma snapshot_insert_lookup (m : gmap N SenderKey) (l : list (N * SenderKey)) k a :
  NoDup l.*1 →
  foldl (λ m p, <[p.1 := p.2]> m) m l !! k = Some a ↔
  (k, a) ∈ l ∨ (k ∉ l.*1) ∧ m !! k = Some a.
Proof.
  revert m. induction l as [|[k' b] l IH]; intros m Hnd; [set_solver|]. cbn [foldl fst snd].
  rewrite fmap_cons in *. apply NoDup_cons in Hnd as [Hnin Hnd]. rewrite IH, lookup_insert_Some by done.
  cbn [fst] in *. rewrite !elem_of_cons. destruct (decide (k = k')) as [->|Hne]; [|naive_solver].
  assert ((k', a) ∉ l) by (intros Hin; apply Hnin, list_elem_of_fmap; by exists (k', a)). naive_solver.
Qed.

Lemma import_snapshots_fmap s l :
  (∀ p, p ∈ l → type_wf p.2) →
  import_snapshots s ((λ p, (p.1, sender_key_serialize p.2)) <$> l) =
  set_keys s (foldl (λ m p, <[p.1 := p.2]> m) (ch_my_sender s) l) (ch_sender_chains s).
Proof.
  unfold import_snapshots. revert s. induction l as [|p l IH]; intros s Hwf; [by destruct s|].
  cbn [fmap list_fmap foldl]. unfold import_snapshot at 2, sender_key_deserialize, sender_key_serialize.
  cbn [fst snd]. rewrite de_ser by (apply Hwf; set_solver).
  rewrite IH; [done|]. intros q Hq. apply Hwf. set_solver.
Qed.

Lemma filter_fst_fmap {A B} (f : A → B) (e : N) (l : list (N * A)) :
  filter (λ p, p.1 ≠ e) ((λ p, (p.1, f p.2)) <$> l) =
  (λ p, (p.1, f p.2)) <$> filter (λ p, p.1 ≠ e) l.
Proof.
  induction l as [|p l IH]; [done|]. rewrite fmap_cons, !filter_cons. cbn [fst].
  rewrite IH. by case_decide.
Qed.

(** Preparing a send without touching the live chain is equivalent to sending:
    it yields the same wire (or the same error), it returns the key distribution
    exactly when the epoch had no key yet, and installing the snapshots it returns
    into a state without sender keys gives the state after the send. *)
Lemma prepare_equals_seal fresh s me pt :
  can_send s me → (∀ e k, ch_my_sender s !! e = Some k → type_wf k) → length fresh = 32 →
  match prepare_sender_message fresh s pt with
  | Ok (payload, dist, senders) =>
      seal_sender_message fresh s pt =
        (import_snapshots (set_keys s ∅ (ch_sender_chains s)) senders, Ok payload) ∧
      dist = (if has_my_sender s (ch_epoch s) then None
              else Some (distribution (sender_entry fresh s)))
  | Err e => (seal_sender_message fresh s pt).2 = Err e
  end.
Proof.
  intros (Hme & Hm & Hp) Hwf Hfr. unfold prepare_sender_message, seal_sender_message.
  rewrite Hme, Hm, Hp. cbn [ok_or mbind result_bind negb orb].
  assert (type_wf (sender_entry fresh s)) as Hwfe.
  { unfold sender_entry. destruct (ch_my_sender s !! ch_epoch s) eqn:E; [by eapply Hwf|].
    split; [done|]. cbn. unfold u32_max. lia. }
  assert (match ch_my_sender s !! ch_epoch s with
          | Some key => ok_or (sender_key_deserialize (sender_key_serialize key))
                          (ChMalformed (str "invalid sender snapshot"))
          | None => Ok (sender_key_new fresh)
          end = Ok (sender_entry fresh s)) as ->.
  { unfold sender_entry in *. destruct (ch_my_sender s !! ch_epoch s); [|done].
    unfold sender_key_deserialize, sender_key_serialize. cbn [default] in *. by rewrite de_ser. }
  cbn [mbind result_bind]. destruct (try_ratchet_steps _ Hwfe) as (_ & _ & Hwf').
  destruct (try_ratchet (sender_entry fresh s)) as [sk [[n mk]|e]]; [|done]. cbn [fst] in Hwf'.
  destruct (seal_message _ _ _) as [ct|e]; [|done]. cbn [map_err mbind result_bind].
  split; [|done]. f_equal. unfold export_my_senders. rewrite filter_fst_fmap.
  set (l := filter _ (map_to_list _)). unfold import_snapshots. rewrite foldl_app.
  fold (import_snapshots (set_keys s ∅ (ch_sender_chains s))
    ((λ p, (p.1, sender_key_serialize p.2)) <$> l)).
  assert (NoDup l.*1) as Hnd.
  { unfold l. apply NoDup_fmap_filter, NoDup_fst_map_to_list. }
  assert (∀ k a, (k, a) ∈ l ↔ k ≠ ch_epoch s ∧ ch_my_sender s !! k = Some a) as Hl.
  { intros k a. unfold l. by rewrite list_elem_of_filter, elem_of_map_to_list. }
  rewrite import_snapshots_fmap.
  2:{ intros [k a] [_ Hka]%Hl. by eapply Hwf. }
  cbn [foldl import_snapshot fst snd]. unfold import_snapshot, sender_key_deserialize, sender_key_serialize.
  cbn [fst snd]. rewrite de_ser by done. unfold put_sender, import_my_sender. cbn. f_equal.
  apply map_eq. intros k. destruct (decide (k = ch_epoch s)) as [->|Hne]; [by rewrite !lookup_insert_eq|].
  rewrite !lookup_insert_ne by done. apply option_eq. intros a. rewrite snapshot_insert_lookup, Hl by done.
  rewrite lookup_empty. naive_solver.
Qed.
End preparing.

(** ** The record of the current state *)

Section current.
Context `{Crypto, BincodeText, Bincode CurrentState, !BincodeLaws CurrentState}.
Implicit Types s : ChannelState.

Lemma repeats_spec seen members :
  repeats seen members = false ↔
  NoDup (user_id <$> members) ∧ ∀ m, m ∈ members → user_id m ∉ seen.
Proof.
  revert seen. induction members as [|m members IH]; intros seen; cbn [repeats].
  - split; [|done]. intros _. split; [constructor|set_solver].
  - rewrite fmap_cons, NoDup_cons, list_elem_of_fmap. setoid_rewrite elem_of_cons.
    case_decide as Hin; [split; [done|]; intros [_ Hall]; by destruct (Hall m (or_introl eq_refl))|].
    rewrite IH. split.
    + intros [Hnd Hall]. split_and!; [|done|].
      * intros (q & Hq & Hm). specialize (Hall q Hm). set_solver.
      * intros q [->|Hq]; [done|]. specialize (Hall q Hq). set_solver.
    + intros [[Hnin Hnd] Hall]. split; [done|]. intros q Hq.
      specialize (Hall q (or_intror Hq)). assert (user_id q ≠ user_id m) by naive_solver. set_solver.
Qed.

(** The record of a channel's current state reads back as written — the whole
    view of the channel without its keys — when no two members share a user id;
    and whatever is read has distinct members and starts without keys. *)
Lemma current_roundtrip s :
  type_wf (current_of s) → NoDup (user_id <$> ch_members s) →
  (∃ bs, encode_current s = Ok bs ∧ decode_current bs = Ok (set_keys s ∅ ∅)) ∧
  (∀ bs s', decode_current bs = Ok s' →
     NoDup (user_id <$> ch_members s') ∧ ch_my_sender s' = ∅ ∧ ch_sender_chains s' = ∅ ∧
     cs_version (current_of s') = 1%N ∧ de bs = Some (current_of s')).
Proof.
  intros Hwf Hnd. split.
  - eexists. split; [done|]. unfold decode_current. rewrite de_ser by done. cbn [ok_or mbind result_bind].
    rewrite (proj2 (repeats_spec ∅ _)); [done|]. split; [done|]. set_solver.
  - intros bs s'. unfold decode_current. destruct (de bs) as [c|]; [|done].
    cbn [ok_or mbind result_bind].
    case_bool_decide as Hv; [|done]. destruct (repeats ∅ (cs_members c)) eqn:Hr; [done|].
    cbn [negb orb]. intros [= <-]. apply repeats_spec in Hr as [Hr _]. split_and!; try done.
    destruct c. cbn in Hv. by subst.
Qed.
End current.

Module MessageCodec.
Import Fixint ChannelCodec.
Definition header_codec : codec MsgHeader :=
  c_iso (λ '(e, u, n), MkMsgHeader e u n) (λ h, (mh_epoch h, mh_sender h, mh_n h))
    (c_pair (c_pair (c_uint 8) c_string) (c_uint 4)).
#[export] Instance msg_header_codec_ok : CodecOk header_codec.
Proof. apply c_iso_ok; [by intros []|by intros [[]]|apply _]. Qed.
#[export] Instance msg_header_bincode : Bincode MsgHeader := bincode_of header_codec.

Lemma u32_codec_width x : (x ≤ u32_max)%N → (x < 256 ^ N.of_nat 4)%N.
Proof. change (256 ^ N.of_nat 4)%N with (u32_max + 1)%N. lia. Qed.

#[export] Instance msg_header_laws : BincodeLaws MsgHeader.
Proof.
  apply bincode_of_laws; [apply _|]. intros h (? & ? & ?).
  split; [split; [by apply u64_width|done]|by apply u32_codec_width].
Qed.

Definition key_codec : codec SenderKey :=
  c_iso (λ p, MkSenderKey p.1 p.2) (λ k, (sk_chain_key k, sk_n k)) (c_pair (c_arr 32) (c_uint 4)).
#[export] Instance key_codec_ok : CodecOk key_codec.
Proof. apply c_iso_ok; [by intros []|by intros []|apply _]. Qed.
#[export] Instance key_bincode : Bincode SenderKey := bincode_of key_codec.
#[export] Instance key_laws : BincodeLaws SenderKey.
Proof.
  apply bincode_of_laws; [apply _|]. intros k [? ?]. split; [done|by apply u32_codec_width].
Qed.

(** The record as nested pairs; hash maps and sets are listed in some order. *)
Definition current_fields : Type :=
  (N * bytes * bytes * (N * bytes) * list PublicIdentity) *
  (N * bytes * option bytes * list (bytes * bytes) * bool) *
  (bytes * bool * option bytes * list bytes * option bytes).

Definition current_codec : codec current_fields :=
  c_pair (c_pair
    (c_pair (c_pair (c_pair (c_pair (c_uint 1) (c_arr 32)) c_string) (c_pair (c_uint 8) (c_arr 32)))
       (c_vec identity_codec))
    (c_pair (c_pair (c_pair (c_pair (c_uint 8) c_string) (c_option c_string))
       (c_vec (c_pair c_string c_string))) c_bool))
    (c_pair (c_pair (c_pair (c_pair c_string c_bool) (c_option (c_arr 32))) (c_vec c_string))
       (c_option c_string)).

Definition fields_of (c : CurrentState) : current_fields :=
  ((cs_version c, cs_id c, cs_name c, cs_name_version c, cs_members c),
   (cs_epoch c, cs_owner c, cs_account_owner c, map_to_list (cs_account_members c), cs_dissolved c),
   (cs_genesis_owner c, cs_pending_invite c, cs_accepted_event_id c,
    elements (cs_accepted_members c), cs_my_user_id c)).

Definition of_fields (f : current_fields) : CurrentState :=
  let '((v, i, n, nv, ms), (e, o, ao, am, d), (g, p, ae, acc, me)) := f in
  MkCurrent v i n nv ms e o ao (list_to_map am) d g p ae (list_to_set acc) me.

#[export] Instance current_bincode : Bincode CurrentState := {|
  ser c := enc current_codec (fields_of c);
  de bs := match dec current_codec bs with Some (f, []) => Some (of_fields f) | _ => None end
|}.

Lemma of_fields_of c : of_fields (fields_of c) = c.
Proof.
  destruct c. unfold of_fields, fields_of. cbn.
  rewrite list_to_map_to_list. f_equal. apply list_to_set_elements_L.
Qed.

#[export] Instance current_laws : BincodeLaws CurrentState.
Proof.
  intros c (? & ? & ? & ? & ? & [? ?] & ? & ? & Hao & Hsz & Ham & ? & Hae & Hsz' & Hacc & Hme).
  cbn [de ser current_bincode].
  rewrite <-(app_nil_r (enc _ _)), dec_enc; [by rewrite of_fields_of|].
  unfold current_codec, fields_of. cbn [c_pair cwf fst snd].
  assert (∀ o : option bytes, (∀ a, o = Some a → string_wf a) →
    cwf (c_option c_string) o) as Hopt by (intros [a|] Ho; [by apply Ho|done]).
  split_and!; try done; try (by apply u64_width); try (by apply Hopt).
  - cbn. lia.
  - split; [by rewrite length_map_to_list|]. apply Forall_forall. intros [k a] Hin.
    apply elem_of_map_to_list in Hin. by apply (Ham k a).
  - destruct (cs_accepted_event_id c); [by apply Hae|done].
  - split; [done|]. apply Forall_forall. intros k Hk%elem_of_elements. by apply Hacc.
Qed.
End MessageCodec.

Module MessageWitness.
Import ToyCrypto Fixint DmCodec ChannelCodec DmWitness ChannelWitness MessageCodec.

Definition fresh32 : bytes := repeat Byte.x0b 32.
Definition chan_a : ChannelState := set_identity chan0 id_a.
Definition chan_b : ChannelState := set_identity chan0 id_b.
Definition texts : list bytes := [str "one"; str "two"; str "three"].
Definition skd0 : SenderKeyDistribution := distribution (sender_entry fresh32 chan_a).
Definition bob_follows : ChannelState := record_sender_chain chan_b id_a 1 skd0.
Definition wire0 : bytes :=
  match (seal_sender_message fresh32 chan_a (str "one")).2 with Ok w => w | Err _ => [] end.

Lemma alice_can_send : can_send chan_a id_a.
Proof. split; [|split]; vm_compute; reflexivity. Qed.

Lemma id_a_length : length id_a = 32.
Proof. apply user_id_length. Qed.

Lemma header_length e n : length (msg_encode (MkMsgHeader e id_a n)) = 52.
Proof.
  unfold msg_encode. cbn [ser msg_header_bincode bincode_of enc header_codec c_iso c_pair c_uint
    c_string c_bytes mh_epoch mh_sender mh_n fst snd].
  by rewrite !length_app, !length_le_bytes, id_a_length.
Qed.

Lemma bob_chains_ok : chains_ok bob_follows.
Proof.
  intros k c Hk. unfold bob_follows, record_sender_chain in Hk.
  change (ch_sender_chains chan_b) with (∅ : gmap (UserId * N) SenderChain) in Hk.
  rewrite lookup_empty in Hk. cbn [ch_sender_chains set_keys] in Hk. apply lookup_insert_Some in Hk as [[_ <-]|[_ Hk]]; [|done].
  apply (proj1 receiver_inv). split; [reflexivity|]. vm_compute. discriminate.
Qed.

Lemma open_safe_witness :
  chains_ok (open_sender_message bob_follows id_a wire0).1.
Proof.
  destruct (open_sender_message_safe bob_follows id_a wire0) as [Hok _].
  - exact bob_chains_ok.
  - exact Hok.
Defined.

Lemma delivery_any_order_witness :
  ∃ wires, (seal_all fresh32 chan_a texts).2 = Ok <$> wires ∧ length wires = length texts ∧
    open_all (record_sender_chain chan_b id_a (ch_epoch chan_a)
                (distribution (sender_entry fresh32 chan_a)))
      id_a (omap (wires !!.) [2; 0]) = omap (λ k, Some <$> texts !! k) [2; 0].
Proof.
  apply (channel_delivery fresh32 chan_a id_a texts chan_b [2; 0]).
  - exact alice_can_send.
  - split; [reflexivity|vm_compute; discriminate].
  - vm_compute. discriminate.
  - vm_compute. discriminate.
  - intros pt Hin. assert (length pt ≤ 5) as Hl; [|unfold aead_max; lia].
    unfold texts in Hin. repeat (apply elem_of_cons in Hin as [->|Hin]; [cbn; lia|]). set_solver.
  - vm_compute. discriminate.
  - by_evaluation.
  - intros n _. rewrite header_length. vm_compute. discriminate.
  - reflexivity.
  - repeat constructor; set_solver.
  - intros k Hk. cbn. assert (k = 2 ∨ k = 0) by set_solver. lia.
Defined.

Lemma row_witness :
  ∃ c row, encode_checkpoint c = Ok row ∧
    match prepare_checkpoint_message id_a row wire0 with
    | Ok p => pc_author p = id_a
    | Err _ => False
    end.
Proof.
  set (c := from_distribution skd0).
  assert (ch_sender_chains bob_follows !! (id_a, 1%N) = Some c) as Hc by (vm_compute; reflexivity).
  assert (chain_inv c) as Hinv by exact (bob_chains_ok _ _ Hc).
  exists c, (image c). split; [by apply encode_checkpoint_image|].
  pose proof (checkpoint_refines_open bob_follows id_a wire0 1 c (image c) bob_chains_ok) as Href.
  destruct (prepare_checkpoint_message id_a (image c) wire0) as [p|e] eqn:E.
  - destruct Href as [Ha _]; [vm_compute; reflexivity|exact Hc|by apply encode_checkpoint_image|].
    exact Ha.
  - exfalso. revert E. vm_compute. discriminate.
Defined.

Definition chan_solo : ChannelState :=
  from_meta (repeat Byte.x09 32) (MkMeta (str "solo") [public alice] 1 (str "owner")).

End MessageWitness.
