(* ===== verification/Expiry.v ===== *)
(** * Deadline framing

    Models crates/mesh-talk-core/src/expiry.rs: the frame that carries a message's
    deadline inside its authenticated plaintext, and the zero sentinel that keeps
    protected content away from decoders that split only once. *)

From S2P Require Import Prelude.

Definition EXP_MAGIC : bytes := str "MTEX1".
Definition SENTINEL : bytes := EXP_MAGIC ++ repeat Byte.x00 8.
Definition PROTECTED : bytes := str "MTPR1".

Definition wrap (body : bytes) (expires_at_ms : option N) : bytes :=
  match expires_at_ms with
  | None => body
  | Some deadline =>
      match strip_prefix SENTINEL body with
      | Some protected => SENTINEL ++ EXP_MAGIC ++ le_bytes 8 deadline ++ protected
      | None => EXP_MAGIC ++ le_bytes 8 deadline ++ body
      end
  end.

Definition split (wire : bytes) : option (option N * bytes) :=
  match strip_prefix EXP_MAGIC wire with
  | None => Some (None, wire)
  | Some rest =>
      '(time, body) ← split_at_checked 8 rest;
      let deadline := le_value time in
      if decide (deadline = 0%N) then
        '(deadline, content) ←
          match strip_prefix EXP_MAGIC body with
          | Some rest =>
              '(time, content) ← split_at_checked 8 rest;
              let deadline := le_value time in
              if decide (deadline = 0%N) then None else Some (Some deadline, content)
          | None => Some (None, body)
          end;
        if starts_with PROTECTED content then Some (deadline, content) else None
      else if decide (body = []) then None
      else if starts_with EXP_MAGIC body then None
      else Some (Some deadline, body)
  end.

Definition deadline (wire : bytes) : option N :=
  '(d, _) ← split wire; d.

(** A deadline the frame can carry. *)
Definition deadline_ok (d : option N) : Prop :=
  match d with Some t => (0 < t ∧ t ≤ u64_max)%N | None => True end.

Lemma u64_bytes t : (t ≤ u64_max)%N → le_value (le_bytes 8 t) = t.
Proof.
  intros Ht. apply le_value_le_bytes. change (256 ^ N.of_nat 8)%N with (u64_max + 1)%N. lia.
Qed.

Lemma deadline_bytes time :
  length time = 8 → le_value time ≠ 0%N →
  deadline_ok (Some (le_value time)) ∧ le_bytes 8 (le_value time) = time.
Proof.
  intros Hl Hz. split; [|by apply le_bytes_value]. pose proof (le_value_bound time) as Hb.
  rewrite Hl in Hb. change (256 ^ N.of_nat 8)%N with (u64_max + 1)%N in Hb. cbn. lia.
Qed.

(** A time whose value is zero is the eight zero bytes. *)
Lemma zero_time time : length time = 8 → le_value time = 0%N → time = repeat Byte.x00 8.
Proof. intros Hl Hz. by rewrite <-(le_bytes_value 8 time Hl), Hz. Qed.

(** A body that needs no protection and is not itself a frame. *)
Definition plain_body (d : option N) (body : bytes) : Prop :=
  starts_with EXP_MAGIC body = false ∧ (d ≠ None → body ≠ []).

Lemma plain_no_sentinel body :
  starts_with EXP_MAGIC body = false → strip_prefix SENTINEL body = None.
Proof.
  intros Hb. destruct (strip_prefix SENTINEL body) as [r|] eqn:E; [|done].
  apply strip_prefix_Some in E as ->. unfold SENTINEL in Hb. rewrite <-app_assoc in Hb.
  by rewrite starts_with_app in Hb.
Qed.

Lemma split_plain d body :
  deadline_ok d → plain_body d body → split (wrap body d) = Some (d, body).
Proof.
  intros Hd [Hb Hne]. unfold wrap. destruct d as [t|].
  - rewrite plain_no_sentinel by done. unfold split. rewrite strip_prefix_app.
    rewrite split_at_checked_app by apply length_le_bytes. cbn [mbind option_bind].
    destruct Hd as [Hz Hm]. rewrite u64_bytes, decide_False by (done || lia).
    rewrite decide_False by (by apply Hne). by rewrite Hb.
  - unfold split. by rewrite (proj2 (strip_prefix_None _ _) Hb).
Qed.

Lemma protected_not_magic content :
  starts_with PROTECTED content = true → starts_with EXP_MAGIC content = false.
Proof.
  intros [rest ->]%starts_with_true. apply bool_decide_eq_false. by vm_compute.
Qed.

Lemma split_protected d content :
  deadline_ok d → starts_with PROTECTED content = true →
  split (wrap (SENTINEL ++ content) d) = Some (d, content).
Proof.
  intros Hd Hp. assert (strip_prefix EXP_MAGIC content = None) as Hm
    by by apply strip_prefix_None, protected_not_magic.
  unfold wrap. destruct d as [t|].
  - rewrite strip_prefix_app. unfold split, SENTINEL. rewrite <-app_assoc, strip_prefix_app.
    rewrite split_at_checked_app by done. cbn [mbind option_bind].
    rewrite decide_True by done. rewrite strip_prefix_app, split_at_checked_app by apply length_le_bytes.
    cbn [mbind option_bind]. destruct Hd as [Hz Hmx].
    rewrite u64_bytes, decide_False by (done || lia). cbn [mbind option_bind]. by rewrite Hp.
  - unfold split, SENTINEL. rewrite <-app_assoc, strip_prefix_app.
    rewrite split_at_checked_app by done. cbn [mbind option_bind]. rewrite decide_True by done.
    rewrite Hm. cbn [mbind option_bind]. by rewrite Hp.
Qed.

(** C34: Deadline frames are unambiguous: splitting accepts exactly the wires that
    wrapping produces — a plain body with or without a deadline, or protected
    content behind the sentinel with or without one — and hands back the deadline
    and the content that were wrapped; every other wire, a truncated or nested or
    zero deadline among them, is refused. *)
Theorem split_exactly_wrap wire d content :
  split wire = Some (d, content) ↔
  deadline_ok d ∧
  ((plain_body d content ∧ wire = wrap content d) ∨
   (starts_with PROTECTED content = true ∧ wire = wrap (SENTINEL ++ content) d)).
Proof.
  split; [|intros [Hd [[Hp ->]|[Hp ->]]]; [by apply split_plain|by apply split_protected]].
  unfold split. destruct (strip_prefix EXP_MAGIC wire) as [rest|] eqn:Hw.
  2:{ intros [= <- <-]. split; [done|]. left. apply strip_prefix_None in Hw. by split. }
  apply strip_prefix_Some in Hw as ->.
  destruct (split_at_checked 8 rest) as [[time body]|] eqn:Hs; [|done]. cbn [mbind option_bind].
  apply split_at_checked_Some in Hs as [-> Hl]. case_decide as Hz.
  - rewrite (zero_time time Hl Hz). destruct (strip_prefix EXP_MAGIC body) as [rest|] eqn:Hb.
    + apply strip_prefix_Some in Hb as ->.
      destruct (split_at_checked 8 rest) as [[t2 c]|] eqn:Hs; [|done]. cbn [mbind option_bind].
      apply split_at_checked_Some in Hs as [-> Hl2]. case_decide as Hz2; [done|].
      cbn [mbind option_bind]. destruct (starts_with PROTECTED c) eqn:Hp; [|done]. intros [= <- <-].
      destruct (deadline_bytes t2 Hl2 Hz2) as [Hd Hb2]. split; [done|]. right. split; [done|].
      cbn [wrap]. rewrite strip_prefix_app, Hb2. unfold SENTINEL. by rewrite <-!app_assoc.
    + cbn [mbind option_bind]. destruct (starts_with PROTECTED body) eqn:Hp; [|done]. intros [= <- <-].
      split; [done|]. right. split; [done|]. cbn [wrap]. unfold SENTINEL. by rewrite <-app_assoc.
  - case_decide as Hne; [done|]. destruct (starts_with EXP_MAGIC body) eqn:Hb; [done|]. intros [= <- <-].
    destruct (deadline_bytes time Hl Hz) as [Hd Hb2]. split; [done|]. left. split; [done|].
    cbn [wrap]. by rewrite plain_no_sentinel, Hb2.
Qed.
