(* ===== verification/RecordLog.v ===== *)
(** * The encrypted record log

    Models crates/mesh-talk-core/src/storage/record_log.rs and the parts of
    storage/encryption.rs and storage/errors.rs it uses: an append-only file of
    length-prefixed AES-256-GCM records behind a magic and a salt.

    The file is its bytes.  Every operation that touches the file system takes the
    outcome of that interaction as an argument: how far a write got, whether a sync
    or a truncation succeeded, whether a replacement reached its rename.  A
    replacement is written to a second file and becomes visible by an atomic
    rename, so the second file is not part of the state. *)

From S2P Require Import Prelude Crypto Bincode Identity Event EventStore.

Definition SALT_SIZE : nat := 16.
Definition ENC_NONCE_SIZE : nat := 12.
Definition ENC_KEY_SIZE : nat := 32.
Definition PBKDF2_ROUNDS : N := 600000.

(** PBKDF2 and the texts of foreign errors. *)
Class StorageCrypto := {
  pbkdf2_hmac_sha256 : bytes → bytes → N → nat → bytes;
  aead_error : bytes;
  path_debug : bytes → bytes
}.

Class StorageCryptoLaws `{StorageCrypto} :=
  pbkdf2_length pw salt rounds len : length (pbkdf2_hmac_sha256 pw salt rounds len) = len.

Inductive StorageError :=
  | StIo (e : bytes)
  | StEncryption (m : bytes)
  | StSerialization (m : bytes)
  | StDecryption (m : bytes)
  | StDeserialization (m : bytes)
  | StInvalidPath (p : bytes)
  | StFileNotFound (p : bytes)
  | StDirectoryCreationFailed (p : bytes)
  | StInvalidPassword
  | StKeyDerivationFailed
  | StNonceGenerationFailed.

(** The open log: everything but the file itself. *)
Record RecordLog := MkRecordLog {
  rl_key : bytes;
  rl_salt : bytes;
  rl_magic : bytes;
  rl_poisoned : bool;
  rl_boundary : nat
}.

Definition poison (l : RecordLog) (poisoned : bool) (boundary : nat) : RecordLog :=
  MkRecordLog (rl_key l) (rl_salt l) (rl_magic l) poisoned boundary.

(** What the file system did during an append. *)
Record append_io := MkAppendIo {
  ai_metadata : option bytes;      (** error of reading the length *)
  ai_write : option (nat * bytes); (** a failed write: bytes that reached the file, error *)
  ai_sync : option bytes;          (** error of sync or flush *)
  ai_set_len : option bytes;       (** error of the truncation *)
  ai_repair_sync : option bytes    (** error of syncing the truncation *)
}.

(** What the file system did during a replacement: either a step failed before the
    rename (and before any record failed to encode), or no step failed. *)
Inductive replace_io := ReplaceFailed (e : bytes) | Replaced.

Definition reopen_error : LogError := CorruptFile (str "record log requires reopen").

Section record_log.
Context `{Crypto, StorageCrypto, Bincode R, BincodeText}.

Definition storage_error_to_string (e : StorageError) : bytes :=
  match e with
  | StIo err => str "IO error: " ++ err
  | StEncryption msg => str "Encryption error: " ++ msg
  | StSerialization msg => str "Serialization error: " ++ msg
  | StDecryption msg => str "Decryption error: " ++ msg
  | StDeserialization msg => str "Deserialization error: " ++ msg
  | StInvalidPath path => str "Invalid path: " ++ path_debug path
  | StFileNotFound path => str "File not found: " ++ path_debug path
  | StDirectoryCreationFailed path => str "Failed to create directory: " ++ path_debug path
  | StInvalidPassword => str "Invalid password"
  | StKeyDerivationFailed => str "Key derivation failed"
  | StNonceGenerationFailed => str "Nonce generation failed"
  end.

Definition from_password (password salt : bytes) : bytes :=
  pbkdf2_hmac_sha256 password salt PBKDF2_ROUNDS ENC_KEY_SIZE.

Definition encrypt_data (data key nonce : bytes) : result StorageError (bytes * bytes) :=
  ct ← ok_or (aes_gcm_encrypt key nonce [] data) (StEncryption aead_error); Ok (ct, nonce).

Definition decrypt_data (ciphertext nonce key : bytes) : result StorageError bytes :=
  ok_or (aes_gcm_decrypt key nonce [] ciphertext) (StDecryption aead_error).

Definition encode_record (l : RecordLog) (nonce : bytes) (record : R) : result LogError bytes :=
  '(ct, nonce) ← map_err (λ e, Storage (storage_error_to_string e))
                   (encrypt_data (ser record) (rl_key l) nonce);
  let len := N.of_nat (ENC_NONCE_SIZE + length ct) in
  if decide (len ≤ u32_max)%N then Ok (be_bytes 4 len ++ nonce ++ ct)
  else Err (Serialization (str "record exceeds u32 length")).

(** The records of a batch, each with the nonce drawn for it. *)
Fixpoint encode_records (l : RecordLog) (records : list (bytes * R)) : result LogError bytes :=
  match records with
  | [] => Ok []
  | (nonce, r) :: records =>
      frame ← encode_record l nonce r;
      rest ← encode_records l records; Ok (frame ++ rest)
  end.

(** One round consumes at least four bytes, so the length of the body is fuel
    enough ([parse_fuel]).  The visitor's state survives its own error. *)
Fixpoint parse_records {St} (fuel : nat) (body key : bytes)
    (visit : St → R → St * result LogError ()) (st : St) : St * result LogError nat :=
  match fuel with
  | O => (st, Ok 0)
  | S fuel =>
      if decide (length body < 4) then (st, Ok 0)
      else
        let len := N.to_nat (be_value (take 4 body)) in
        if decide (length body - 4 < len) then (st, Ok 0)
        else if decide (len < ENC_NONCE_SIZE)
        then (st, Err (CorruptFile (str "record shorter than nonce")))
        else
          let record := take len (drop 4 body) in
          match decrypt_data (drop ENC_NONCE_SIZE record) (take ENC_NONCE_SIZE record) key with
          | Err _ => (st, Err (CorruptFile (str "record failed to decrypt")))
          | Ok plaintext =>
              match de plaintext with
              | None => (st, Err (CorruptFile (str "record decode: " ++ de_error plaintext)))
              | Some value =>
                  match visit st value with
                  | (st, Err e) => (st, Err e)
                  | (st, Ok _) =>
                      match parse_records fuel (drop (4 + len) body) key visit st with
                      | (st, Err e) => (st, Err e)
                      | (st, Ok valid) => (st, Ok (4 + len + valid))
                      end
                  end
              end
          end
  end.

Definition load {St} (file password magic : bytes) (repair : option bytes)
    (visit : St → R → St * result LogError ()) (st : St) :
    St * bytes * result LogError RecordLog :=
  if decide (length file < 6) then (st, file, Err (CorruptFile (str "missing magic")))
  else if decide (take 6 file ≠ magic) then (st, file, Err (CorruptFile (str "bad magic")))
  else if decide (length file < 6 + SALT_SIZE)
  then (st, file, Err (CorruptFile (str "missing salt")))
  else
    let salt := take SALT_SIZE (drop 6 file) in
    let key := from_password password salt in
    let body := drop (6 + SALT_SIZE) file in
    match parse_records (length body) body key visit st with
    | (st, Err e) => (st, file, Err e)
    | (st, Ok valid) =>
        let log := MkRecordLog key salt magic false 0 in
        if decide (valid = length body) then (st, file, Ok log)
        else
          match repair with
          | Some e => (st, file, Err (Io e))
          | None => (st, take (6 + SALT_SIZE + valid) file, Ok log)
          end
    end.

(** [create]: a failed creation leaves a prefix of the header. *)
Definition open_with_visitor {St} (file : option bytes) (salt password magic : bytes)
    (create : option (nat * bytes)) (repair : option bytes)
    (visit : St → R → St * result LogError ()) (st : St) :
    St * option bytes * result LogError RecordLog :=
  match file with
  | None =>
      match create with
      | Some (n, e) => (st, Some (take n (magic ++ salt)), Err (Io e))
      | None => (st, Some (magic ++ salt),
                 Ok (MkRecordLog (from_password password salt) salt magic false 0))
      end
  | Some file =>
      let '(st, file, r) := load file password magic repair visit st in (st, Some file, r)
  end.

(** The visitor of [open] collects the records. *)
Definition collect (records : list R) (record : R) : list R * result LogError () :=
  (records ++ [record], Ok ()).

Definition open (file : option bytes) (salt password magic : bytes)
    (create : option (nat * bytes)) (repair : option bytes) :
    option bytes * result LogError (RecordLog * list R) :=
  match open_with_visitor file salt password magic create repair collect [] with
  | (_, file, Err e) => (file, Err e)
  | (records, file, Ok log) => (file, Ok (log, records))
  end.

Definition append_with (l : RecordLog) (file nonce : bytes) (record : R) (io : append_io) :
    RecordLog * bytes * result LogError () :=
  if rl_poisoned l then (l, file, Err reopen_error)
  else
    match encode_record l nonce record with
    | Err e => (l, file, Err e)
    | Ok buf =>
        match ai_metadata io with
        | Some e => (l, file, Err (Io e))
        | None =>
            let boundary := length file in
            let '(file, result) :=
              match ai_write io with
              | Some (n, e) => (file ++ take n buf, Some e)
              | None => (file ++ buf, ai_sync io)
              end in
            match result with
            | None => (l, file, Ok ())
            | Some e =>
                match ai_set_len io with
                | Some _ => (poison l true boundary, file, Err (Io e))
                | None =>
                    let l := match ai_repair_sync io with
                             | Some _ => poison l true boundary
                             | None => l
                             end in
                    (l, take boundary file, Err (Io e))
                end
            end
        end
    end.

(** [append] and [append_durable] differ in the sync whose outcome [io] holds. *)
Definition append_durable := append_with.

Definition recover_failed_append (l : RecordLog) (file : bytes) (set_len sync : option bytes) :
    RecordLog * bytes * result LogError () :=
  if rl_poisoned l then
    match set_len with
    | Some e => (l, file, Err (Io e))
    | None =>
        match sync with
        | Some e => (l, take (rl_boundary l) file, Err (Io e))
        | None => (poison l false (rl_boundary l), take (rl_boundary l) file, Ok ())
        end
    end
  else (l, file, Ok ()).

Definition sync (l : RecordLog) (io : option bytes) : result LogError () :=
  if rl_poisoned l then Err reopen_error
  else match io with Some e => Err (Io e) | None => Ok () end.

Definition rewrite (l : RecordLog) (file : bytes) (records : list (bytes * R)) (io : replace_io) :
    RecordLog * bytes * result LogError () :=
  if rl_poisoned l then (l, file, Err reopen_error)
  else
    match io with
    | ReplaceFailed e => (l, file, Err (Io e))
    | Replaced =>
        match encode_records l records with
        | Err e => (l, file, Err e)
        | Ok frames => (l, rl_magic l ++ rl_salt l ++ frames, Ok ())
        end
    end.

Definition append_batch_atomic (l : RecordLog) (file : bytes) (records : list (bytes * R))
    (io : replace_io) : RecordLog * bytes * result LogError () :=
  if rl_poisoned l then (l, file, Err reopen_error)
  else if decide (records = []) then (l, file, Ok ())
  else
    match io with
    | ReplaceFailed e => (l, file, Err (Io e))
    | Replaced =>
        match encode_records l records with
        | Err e => (l, file, Err e)
        | Ok frames => (l, file ++ frames, Ok ())
        end
    end.
End record_log.

(** ** Frames *)

Section frames.
Context `{Crypto, !CryptoLaws, StorageCrypto, !StorageCryptoLaws}.
Context `{TypeWf R, Bincode R, !BincodeLaws R, BincodeText}.
Implicit Types (l : RecordLog) (r : R) (rs : list R).

Definition frame_of (key : bytes) r (f : bytes) : Prop :=
  type_wf r ∧ ∃ nonce ct, length nonce = ENC_NONCE_SIZE ∧
    aes_gcm_encrypt key nonce [] (ser r) = Some ct ∧
    (N.of_nat (ENC_NONCE_SIZE + length ct) ≤ u32_max)%N ∧
    f = be_bytes 4 (N.of_nat (ENC_NONCE_SIZE + length ct)) ++ nonce ++ ct.

(** [body] is the frames of [rs], in order. *)
Inductive body_of (key : bytes) : list R → bytes → Prop :=
  | body_nil : body_of key [] []
  | body_cons r f rs body :
      frame_of key r f → body_of key rs body → body_of key (r :: rs) (f ++ body).

Lemma body_of_app key rs1 b1 rs2 b2 :
  body_of key rs1 b1 → body_of key rs2 b2 → body_of key (rs1 ++ rs2) (b1 ++ b2).
Proof.
  intros Hb1 Hb2. induction Hb1; [done|]. cbn. rewrite <-app_assoc. by constructor.
Qed.

Lemma body_of_snoc key rs b r f :
  body_of key rs b → frame_of key r f → body_of key (rs ++ [r]) (b ++ f).
Proof.
  intros Hb Hf. eapply body_of_app; [done|]. rewrite <-(app_nil_r f). apply body_cons; [done|constructor].
Qed.

Lemma encode_record_frame l nonce r f :
  type_wf r → length nonce = ENC_NONCE_SIZE → encode_record l nonce r = Ok f →
  frame_of (rl_key l) r f.
Proof.
  intros Hr Hn. unfold encode_record, encrypt_data.
  destruct (aes_gcm_encrypt (rl_key l) nonce [] (ser r)) as [ct|] eqn:Hct; [|done].
  cbn [ok_or mbind result_bind map_err]. case_decide; [|done]. intros [= <-].
  split; [done|]. by exists nonce, ct.
Qed.

Lemma encode_records_body l nrs f :
  (∀ p, p ∈ nrs → length p.1 = ENC_NONCE_SIZE ∧ type_wf p.2) →
  encode_records l nrs = Ok f → body_of (rl_key l) nrs.*2 f.
Proof.
  revert f. induction nrs as [|[nonce r] nrs IH]; intros f Hwf; cbn [encode_records].
  - intros [= <-]. constructor.
  - destruct (encode_record l nonce r) as [f1|] eqn:Hf1; [|done]. cbn [mbind result_bind].
    destruct (encode_records l nrs) as [f2|] eqn:Hf2; [|done]. intros [= <-].
    destruct (Hwf (nonce, r)) as [? ?]; [set_solver|]. constructor.
    + by eapply encode_record_frame.
    + apply IH; [|done]. intros q Hq. apply Hwf. set_solver.
Qed.

Lemma frame_shape key r f :
  frame_of key r f →
  ∃ n, N.to_nat (be_value (take 4 f)) = n ∧ length f = 4 + n ∧ ENC_NONCE_SIZE ≤ n ∧
    decrypt_data (drop ENC_NONCE_SIZE (drop 4 f)) (take ENC_NONCE_SIZE (drop 4 f)) key = Ok (ser r) ∧
    de (ser r) = Some r.
Proof.
  intros (Hr & nonce & ct & Hn & Hct & Hlen & ->). exists (ENC_NONCE_SIZE + length ct).
  assert (length (be_bytes 4 (N.of_nat (ENC_NONCE_SIZE + length ct))) = 4) as Hb4
    by apply length_be_bytes.
  split_and!.
  - rewrite take_app_length' by done. rewrite be_value_be_bytes; [lia|].
    change (256 ^ N.of_nat 4)%N with (u32_max + 1)%N. lia.
  - rewrite !length_app, Hb4, Hn. lia.
  - lia.
  - rewrite (drop_app_length' _ _ 4) by done.
    rewrite drop_app_length', take_app_length' by done. unfold decrypt_data.
    by rewrite (aes_gcm_decrypt_encrypt _ _ _ _ _ Hct).
  - by apply de_ser.
Qed.

(** One frame in front of anything. *)
Lemma parse_frame {St} key r f rest (visit : St → R → St * result LogError ()) st fuel :
  frame_of key r f →
  parse_records (S fuel) (f ++ rest) key visit st =
  match visit st r with
  | (st, Err e) => (st, Err e)
  | (st, Ok _) =>
      match parse_records fuel rest key visit st with
      | (st, Err e) => (st, Err e)
      | (st, Ok valid) => (st, Ok (length f + valid))
      end
  end.
Proof.
  intros Hf. destruct (frame_shape key r f Hf) as (n & Hn & Hl & Hge & Hdec & Hde).
  cbn [parse_records]. rewrite decide_False by (rewrite length_app; lia).
  rewrite take_app_le by lia. rewrite Hn, !decide_False by (rewrite ?length_app; lia).
  rewrite (drop_app_le _ _ 4) by lia.
  rewrite (take_app_length' (drop 4 f) rest) by (rewrite length_drop; lia).
  rewrite Hdec, Hde. destruct (visit st r) as [st' [[]|e]]; [|done].
  rewrite (drop_app_length' f rest) by lia. by rewrite <-Hl.
Qed.

(** A torn frame ends the log. *)
Lemma parse_torn {St} key r f k (visit : St → R → St * result LogError ()) st fuel :
  frame_of key r f → k < length f → parse_records fuel (take k f) key visit st = (st, Ok 0).
Proof.
  intros Hf Hk. destruct (frame_shape key r f Hf) as (n & Hn & Hl & _).
  destruct fuel as [|fuel]; [done|]. cbn [parse_records].
  assert (length (take k f) = k) as Hlk by (rewrite length_take; lia).
  rewrite Hlk. case_decide; [done|]. rewrite take_take, Nat.min_l by lia.
  by rewrite Hn, decide_True by lia.
Qed.

(** More fuel than bytes changes nothing: the loop has ended. *)
Lemma parse_fuel {St} body key (visit : St → R → St * result LogError ()) st fuel :
  length body ≤ fuel →
  parse_records fuel body key visit st = parse_records (length body) body key visit st.
Proof.
  assert (∀ n body st fuel, length body ≤ n → n ≤ fuel →
    parse_records fuel body key visit st = parse_records n body key visit st) as Hgen; [|eauto].
  clear. induction n as [|n IH]; intros body st fuel Hn Hf.
  - destruct fuel; [done|]. cbn [parse_records]. by rewrite decide_True by lia.
  - destruct fuel as [|fuel]; [lia|]. cbn [parse_records]. case_decide; [done|].
    case_decide; [done|]. case_decide; [done|]. destruct (decrypt_data _ _ _); [|done].
    destruct (de _); [|done]. destruct (visit st _) as [st' [[]|]]; [|done].
    rewrite (IH (drop _ body) st' fuel); [done|rewrite length_drop; lia|lia].
Qed.

Lemma frame_pos key r f : frame_of key r f → 0 < length f.
Proof. intros (n & _ & -> & _)%frame_shape. lia. Qed.

Lemma body_length key rs body : body_of key rs body → length rs ≤ length body.
Proof.
  induction 1 as [|r f rs body Hf Hb IH]; [done|]. apply frame_pos in Hf.
  cbn. rewrite length_app. lia.
Qed.

Lemma body_wf key rs body : body_of key rs body → ∀ r, r ∈ rs → type_wf r.
Proof. induction 1 as [|r f rs body [Hr _] _ IH]; set_solver. Qed.

(** All the frames of a body, followed by a tail that holds no frame. *)
Lemma parse_body key rs body tail acc fuel :
  body_of key rs body → length rs < fuel →
  (∀ fuel (acc : list R), parse_records fuel tail key collect acc = (acc, Ok 0)) →
  parse_records fuel (body ++ tail) key collect acc = (acc ++ rs, Ok (length body)).
Proof.
  intros Hb. revert acc fuel. induction Hb as [|r f rs body Hf Hb IH]; intros acc fuel Hfuel Ht.
  - cbn. by rewrite Ht, app_nil_r.
  - destruct fuel as [|fuel]; [cbn in Hfuel; lia|]. rewrite <-app_assoc, (parse_frame key r) by done.
    unfold collect at 1. rewrite IH by (done || (cbn in Hfuel; lia)).
    by rewrite <-app_assoc, length_app.
Qed.
End frames.

(** ** Histories, crashes and recovery *)

Inductive log_op (R : Type) :=
  | LAppend (nonce : bytes) (r : R) (io : append_io)
  | LRecover (set_len sync : option bytes)
  | LRewrite (records : list (bytes * R)) (io : replace_io)
  | LBatch (records : list (bytes * R)) (io : replace_io).
Arguments LAppend {R} _ _ _.
Arguments LRecover {R} _ _.
Arguments LRewrite {R} _ _.
Arguments LBatch {R} _ _.

Section histories.
Context `{Crypto, !CryptoLaws, StorageCrypto, !StorageCryptoLaws}.
Context `{TypeWf R, Bincode R, !BincodeLaws R, BincodeText}.
Context (password : bytes).
Implicit Types (l : RecordLog) (r : R) (rs : list R) (file body : bytes).

Definition run_op l file (o : log_op R) : RecordLog * bytes * result LogError () :=
  match o with
  | LAppend nonce r io => append_with l file nonce r io
  | LRecover set_len sync => recover_failed_append l file set_len sync
  | LRewrite records io => rewrite l file records io
  | LBatch records io => append_batch_atomic l file records io
  end.

(** Nonces have their size and records are values of their type. *)
Definition op_ok (o : log_op R) : Prop :=
  match o with
  | LAppend nonce r _ => length nonce = ENC_NONCE_SIZE ∧ type_wf r
  | LRecover _ _ => True
  | LRewrite records _ | LBatch records _ =>
      ∀ p, p ∈ records → length p.1 = ENC_NONCE_SIZE ∧ type_wf p.2
  end.

(** What the log holds once the operation has succeeded. *)
Definition applied rs (o : log_op R) : list R :=
  match o with
  | LAppend _ r _ => rs ++ [r]
  | LRecover _ _ => rs
  | LRewrite records _ => records.*2
  | LBatch records _ => rs ++ records.*2
  end.

(** The open log holds the acknowledged records [rs]; after an append that failed
    and could not be rolled back it is closed to writers and the file may also
    hold part of, or all of, the frame of the record [u] that was refused. *)
Record holds l file rs (u : option R) : Prop := {
  ho_magic : length (rl_magic l) = 6;
  ho_salt : length (rl_salt l) = SALT_SIZE;
  ho_key : rl_key l = from_password password (rl_salt l);
  ho_poisoned : rl_poisoned l = bool_decide (is_Some u);
  ho_body : ∃ body tail, body_of (rl_key l) rs body ∧
    file = (rl_magic l ++ rl_salt l ++ body) ++ tail ∧
    match u with
    | None => tail = []
    | Some r => rl_boundary l = length (rl_magic l ++ rl_salt l ++ body) ∧
        ∃ f k, frame_of (rl_key l) r f ∧ tail = take k f
    end
}.

(** Contents the file may have if the machine stops during an operation. *)
Inductive crash_image l file : log_op R → bytes → Prop :=
  | ci_before o : crash_image l file o file
  | ci_append nonce r io f k :
      rl_poisoned l = false → encode_record l nonce r = Ok f →
      crash_image l file (LAppend nonce r io) (file ++ take k f)
  | ci_recover set_len sy :
      rl_poisoned l = true → crash_image l file (LRecover set_len sy) (take (rl_boundary l) file)
  | ci_rewrite records io f :
      rl_poisoned l = false → encode_records l records = Ok f →
      crash_image l file (LRewrite records io) (rl_magic l ++ rl_salt l ++ f)
  | ci_batch records io f :
      rl_poisoned l = false → encode_records l records = Ok f →
      crash_image l file (LBatch records io) (file ++ f).

Lemma holds_clean l file rs :
  holds l file rs None → ∃ body, body_of (rl_key l) rs body ∧ file = rl_magic l ++ rl_salt l ++ body.
Proof. intros [_ _ _ _ (body & tail & Hb & -> & ->)]. exists body. by rewrite app_nil_r. Qed.

Lemma clean_holds l file rs body :
  length (rl_magic l) = 6 → length (rl_salt l) = SALT_SIZE →
  rl_key l = from_password password (rl_salt l) → rl_poisoned l = false →
  body_of (rl_key l) rs body → file = rl_magic l ++ rl_salt l ++ body → holds l file rs None.
Proof. intros. split; try done. exists body, []. by rewrite app_nil_r. Qed.

(** Reading a log back, with or without a torn frame at its end. *)
Lemma load_holds l rs body tail :
  length (rl_magic l) = 6 → length (rl_salt l) = SALT_SIZE →
  rl_key l = from_password password (rl_salt l) → body_of (rl_key l) rs body →
  (∀ fuel (acc : list R), parse_records fuel tail (rl_key l) collect acc = (acc, Ok 0)) →
  let l' := MkRecordLog (rl_key l) (rl_salt l) (rl_magic l) false 0 in
  load ((rl_magic l ++ rl_salt l ++ body) ++ tail) password (rl_magic l) None collect [] =
  (rs, rl_magic l ++ rl_salt l ++ body, Ok l').
Proof.
  intros Hm Hs Hk Hb Ht l'. set (file := (rl_magic l ++ rl_salt l ++ body) ++ tail).
  assert (file = rl_magic l ++ rl_salt l ++ body ++ tail) as Hf by (unfold file; by rewrite <-!app_assoc).
  assert (length file = 22 + length body + length tail) as Hl.
  { rewrite Hf, !length_app, Hm, Hs. unfold SALT_SIZE. lia. }
  assert (take 6 file = rl_magic l) as Ht6 by (rewrite Hf; by apply take_app_length').
  assert (drop 6 file = rl_salt l ++ body ++ tail) as Hd6 by (rewrite Hf; by apply drop_app_length').
  assert (drop (6 + SALT_SIZE) file = body ++ tail) as Hd.
  { rewrite Hf, app_assoc. apply drop_app_length'. by rewrite length_app, Hm, Hs. }
  unfold load. rewrite Ht6, Hd6, Hd, Hl. rewrite decide_False by lia. rewrite decide_False by tauto.
  rewrite decide_False by (unfold SALT_SIZE; lia). rewrite take_app_length', <-Hk by done.
  rewrite <-(parse_fuel (body ++ tail) (rl_key l) collect [] (S (length (body ++ tail)))) by lia.
  rewrite (parse_body _ rs) by (done || (pose proof (body_length _ _ _ Hb); rewrite length_app; lia)).
  cbn [app]. case_decide as Heq.
  - rewrite length_app in Heq. assert (tail = []) as -> by (apply length_zero_iff_nil; lia).
    rewrite app_nil_r in Hf. by rewrite Hf.
  - do 2 f_equal. unfold file. apply take_app_length'. rewrite !length_app, Hm, Hs.
    unfold SALT_SIZE. lia.
Qed.

(** Reading back a file whose last frame may be cut anywhere. *)
(** A clean log reads back as it is. *)
Lemma holds_load l file rs :
  holds l file rs None →
  load file password (rl_magic l) None collect [] =
  (rs, file, Ok (MkRecordLog (rl_key l) (rl_salt l) (rl_magic l) false 0)).
Proof.
  intros Hh. pose proof Hh as [Hm Hs Hk _ _]. destruct (holds_clean _ _ _ Hh) as (body & Hb & ->).
  pose proof (load_holds l rs body [] Hm Hs Hk Hb) as Hl. rewrite app_nil_r in Hl. apply Hl. by intros [|].
Qed.

Lemma append_with_magic l file nonce r io :
  rl_magic (append_with l file nonce r io).1.1 = rl_magic l.
Proof. unfold append_with. repeat case_match; by simplify_eq. Qed.

Lemma load_cut l rs body r f k :
  length (rl_magic l) = 6 → length (rl_salt l) = SALT_SIZE →
  rl_key l = from_password password (rl_salt l) →
  body_of (rl_key l) rs body → frame_of (rl_key l) r f →
  let l' := MkRecordLog (rl_key l) (rl_salt l) (rl_magic l) false 0 in
  ∃ rs' body', body_of (rl_key l) rs' body' ∧ (rs' = rs ∨ rs' = rs ++ [r]) ∧
    load ((rl_magic l ++ rl_salt l ++ body) ++ take k f) password (rl_magic l) None collect [] =
    (rs', rl_magic l ++ rl_salt l ++ body', Ok l').
Proof.
  intros Hm Hs Hk Hb Hf l'. destruct (decide (k < length f)) as [Hlt|Hge].
  - exists rs, body. split_and!; [done|by left|]. apply load_holds; try done.
    intros fuel acc. by eapply parse_torn.
  - exists (rs ++ [r]), (body ++ f). assert (body_of (rl_key l) (rs ++ [r]) (body ++ f)) as Hb'
      by by apply body_of_snoc. split_and!; [done|by right|].
    rewrite take_ge by lia.
    pose proof (load_holds l (rs ++ [r]) (body ++ f) [] Hm Hs Hk Hb') as Hl.
    rewrite app_nil_r, !app_assoc in Hl. rewrite !app_assoc. apply Hl.
    by intros [|fuel] acc.
Qed.

Lemma append_with_holds l file rs u nonce r io :
  holds l file rs u → length nonce = ENC_NONCE_SIZE → type_wf r →
  let '(l', file', res) := append_with l file nonce r io in
  (is_ok res = true → u = None ∧ holds l' file' (rs ++ [r]) None) ∧
  (is_ok res = false → holds l' file' rs u ∨ u = None ∧ holds l' file' rs (Some r)).
Proof.
  intros Hh Hn Hr. pose proof Hh as [Hm Hs Hk Hp (body & tail & Hb & Hfile & Hu)].
  unfold append_with. rewrite Hp. destruct u as [u|]; [cbn; by split; [|left]|].
  rewrite bool_decide_false by by intros []. subst tail. rewrite app_nil_r in Hfile.
  destruct (encode_record l nonce r) as [f|e] eqn:He; [|cbn; by split; [|left]].
  apply encode_record_frame in He; [|done..].
  destruct (ai_metadata io); [cbn; by split; [|left]|].
  assert (∀ k, holds (poison l true (length file)) (file ++ take k f) rs (Some r)) as Hpois.
  { intros k. split; try done. exists body, (take k f). split; [done|].
    split; [by rewrite Hfile|]. split; [cbn; by rewrite Hfile|]. by exists f, k. }
  assert (∀ k e,
    let '(l', file', res) :=
      match ai_set_len io with
      | Some _ => (poison l true (length file), file ++ take k f, Err (Io e) : result LogError ())
      | None => (match ai_repair_sync io with Some _ => poison l true (length file) | None => l end,
                 take (length file) (file ++ take k f), Err (Io e))
      end in
    (is_ok res = true → @None R = None ∧ holds l' file' (rs ++ [r]) None) ∧
    (is_ok res = false → holds l' file' rs None ∨ @None R = None ∧ holds l' file' rs (Some r))) as Hfail.
  { intros k e. destruct (ai_set_len io); [by split; [|right]|]. rewrite take_app_length.
    destruct (ai_repair_sync io); (split; [done|]); intros _; [right|by left].
    split; [done|]. specialize (Hpois 0). by rewrite take_0, app_nil_r in Hpois. }
  destruct (ai_write io) as [[k e]|]; [|destruct (ai_sync io) as [e|]].
  - apply (Hfail k e).
  - specialize (Hfail (length f) e). by rewrite take_ge in Hfail by lia.
  - split; [|done]. intros _. split; [done|]. apply (clean_holds l _ _ (body ++ f)); try done.
    + by apply body_of_snoc.
    + by rewrite Hfile, <-!app_assoc.
Qed.

Lemma recover_holds l file rs u sl sy :
  holds l file rs u →
  let '(l', file', res) := recover_failed_append l file sl sy in
  (is_ok res = true → holds l' file' rs None) ∧ (is_ok res = false → holds l' file' rs u).
Proof.
  intros Hh. pose proof Hh as [Hm Hs Hk Hp (body & tail & Hb & Hfile & Hu)].
  unfold recover_failed_append. rewrite Hp. destruct u as [r|]; [|cbn; by split].
  rewrite bool_decide_true by done. destruct Hu as (Hbd & f & k & Hf & ->).
  destruct sl; [by split|]. rewrite Hbd, Hfile, take_app_length.
  destruct sy; (split; [|done]) || (split; [done|]); intros _.
  - split; try done. exists body, []. split; [done|]. split; [by rewrite app_nil_r|]. split; [done|].
    by exists f, 0.
  - by apply (clean_holds _ _ _ body).
Qed.

Lemma replace_holds l file rs u records frames rs' :
  holds l file rs u → rl_poisoned l = false →
  (∀ p, p ∈ records → length p.1 = ENC_NONCE_SIZE ∧ type_wf p.2) →
  encode_records l records = Ok frames →
  (rs' = records.*2 → holds l (rl_magic l ++ rl_salt l ++ frames) rs' None) ∧
  (rs' = rs ++ records.*2 → holds l (file ++ frames) rs' None).
Proof.
  intros Hh Hnp Hwf He. assert (u = None) as ->.
  { pose proof (ho_poisoned _ _ _ _ Hh) as Hp. rewrite Hnp in Hp. by destruct u. }
  destruct (holds_clean _ _ _ Hh) as (body & Hb & Hfile).
  pose proof (encode_records_body _ _ _ Hwf He) as Hbr. destruct Hh as [Hm Hs Hk Hp _].
  split; intros ->.
  - by apply (clean_holds l _ _ frames).
  - apply (clean_holds l _ _ (body ++ frames)); try done; [by apply body_of_app|].
    by rewrite Hfile, <-!app_assoc.
Qed.

Definition after rs (o : log_op R) (res : result LogError ()) : list R :=
  if is_ok res then applied rs o else rs.

(** Any operation keeps the log in shape, with exactly the acknowledged records. *)
Lemma run_op_holds l file rs u o :
  holds l file rs u → op_ok o →
  let '(l', file', res) := run_op l file o in ∃ u', holds l' file' (after rs o res) u'.
Proof.
  intros Hh Hok. destruct o as [nonce r io|sl sy|records io|records io]; cbn [run_op op_ok] in *.
  - destruct Hok as [Hn Hr]. pose proof (append_with_holds l file rs u nonce r io Hh Hn Hr) as Ha.
    destruct (append_with _ _ _ _ _) as [[l' file'] [[]|e]]; cbn in *; naive_solver.
  - pose proof (recover_holds l file rs u sl sy Hh) as Ha.
    destruct (recover_failed_append _ _ _ _) as [[l' file'] [[]|e]]; cbn in *; naive_solver.
  - unfold rewrite. destruct (rl_poisoned l) eqn:Hp; [by exists u|]. destruct io; [by exists u|].
    destruct (encode_records l records) as [frames|] eqn:He; [|by exists u].
    exists None. by apply (replace_holds l file rs u records frames records.*2).
  - unfold append_batch_atomic. destruct (rl_poisoned l) eqn:Hp; [by exists u|].
    case_decide as Hnil; [exists u; subst; cbn; by rewrite app_nil_r|]. destruct io; [by exists u|].
    destruct (encode_records l records) as [frames|] eqn:He; [|by exists u].
    exists None. by apply (replace_holds l file rs u records frames (rs ++ records.*2)).
Qed.

(** Logs that are created, used under any file-system behaviour, stopped at any
    point and opened again. *)
Inductive log_reach (magic : bytes) : RecordLog → bytes → list R → Prop :=
  | lr_create salt :
      length salt = SALT_SIZE →
      log_reach magic (MkRecordLog (from_password password salt) salt magic false 0)
        (magic ++ salt) []
  | lr_op l file rs o :
      log_reach magic l file rs → op_ok o →
      log_reach magic (run_op l file o).1.1 (run_op l file o).1.2 (after rs o (run_op l file o).2)
  | lr_crash l file rs o image rs' file' l' :
      log_reach magic l file rs → op_ok o → crash_image l file o image →
      load image password magic None collect [] = (rs', file', Ok l') →
      log_reach magic l' file' rs'.

(** A log that was stopped during an operation opens again, with the records it
    held before or after the operation (or with the refused record of an append
    that could not be rolled back). *)
Lemma crash_recovers l file rs u o image :
  holds l file rs u → op_ok o → crash_image l file o image →
  ∃ rs' file' l',
    load image password (rl_magic l) None collect [] = (rs', file', Ok l') ∧
    rl_magic l' = rl_magic l ∧ holds l' file' rs' None ∧
    (rs' = rs ∨ rs' = applied rs o ∨ ∃ r, u = Some r ∧ rs' = rs ++ [r]).
Proof.
  intros Hh Hok Hc. pose proof Hh as [Hm Hs Hk Hp (body & tail & Hb & Hfile & Hu)].
  assert (∀ fuel (acc : list R), parse_records fuel [] (rl_key l) collect acc = (acc, Ok 0)) as Hnil
    by by intros [|fuel] acc.
  assert (∀ rs1 b1, body_of (rl_key l) rs1 b1 →
    holds (MkRecordLog (rl_key l) (rl_salt l) (rl_magic l) false 0) (rl_magic l ++ rl_salt l ++ b1) rs1 None)
    as Hclean by (intros rs1 b1 Hb1; by apply (clean_holds _ _ _ b1)).
  assert (∀ rs1 b1, body_of (rl_key l) rs1 b1 → (rs1 = rs ∨ rs1 = applied rs o) →
    image = rl_magic l ++ rl_salt l ++ b1 → ∃ rs' file' l',
    load image password (rl_magic l) None collect [] = (rs', file', Ok l') ∧
    rl_magic l' = rl_magic l ∧ holds l' file' rs' None ∧
    (rs' = rs ∨ rs' = applied rs o ∨ ∃ r, u = Some r ∧ rs' = rs ++ [r])) as Hwhole.
  { intros rs1 b1 Hb1 Hor ->. pose proof (load_holds l rs1 b1 [] Hm Hs Hk Hb1 Hnil) as Hl.
    rewrite app_nil_r in Hl. do 3 eexists. split; [exact Hl|]. split_and!; [done|by apply Hclean|tauto]. }
  destruct Hc as [o|nonce r io f k Hnp He|sl sy Hpo|records io f Hnp He|records io f Hnp He].
  - destruct u as [r|]; [|subst; eapply Hwhole; [done|by left|by rewrite app_nil_r]].
    destruct Hu as (Hbd & f & k & Hf & ->). rewrite Hfile.
    destruct (load_cut l rs body r f k Hm Hs Hk Hb Hf) as (rs' & b' & Hb' & Hor & Hl).
    do 3 eexists. split; [exact Hl|]. split_and!; [done|by apply Hclean|naive_solver].
  - assert (u = None) as -> by (rewrite Hnp in Hp; by destruct u). subst tail.
    destruct Hok as [Hn Hr]. apply encode_record_frame in He; [|done..].
    destruct (load_cut l rs body r f k Hm Hs Hk Hb He) as (rs' & b' & Hb' & Hor & Hl).
    rewrite Hfile, app_nil_r. do 3 eexists. split; [exact Hl|].
    split_and!; [done|by apply Hclean|]. destruct Hor as [->| ->]; tauto.
  - destruct u as [r|]; [|by rewrite Hpo in Hp]. destruct Hu as [Hbd _].
    apply (Hwhole rs body); [done|by left|]. by rewrite Hbd, Hfile, take_app_length.
  - destruct (replace_holds l file rs u records f records.*2 Hh Hnp Hok He) as [Hr _].
    destruct (holds_clean _ _ _ (Hr eq_refl)) as (b1 & Hb1 & Himg).
    by apply (Hwhole records.*2 b1); [|right|].
  - destruct (replace_holds l file rs u records f (rs ++ records.*2) Hh Hnp Hok He) as [_ Hr].
    destruct (holds_clean _ _ _ (Hr eq_refl)) as (b1 & Hb1 & Himg).
    by apply (Hwhole (rs ++ records.*2) b1); [|right|].
Qed.

Lemma reach_holds magic l file rs :
  length magic = 6 → log_reach magic l file rs → rl_magic l = magic ∧ ∃ u, holds l file rs u.
Proof.
  intros Hm. induction 1 as [salt Hs|l file rs o Hr [Hmg [u Hu]] Hok
    |l file rs o image rs' file' l' Hr [Hmg [u Hu]] Hok Hc Hl].
  - split; [done|]. exists None. apply (clean_holds _ _ _ []); try done; [constructor|].
    cbn. by rewrite app_nil_r.
  - pose proof (run_op_holds l file rs u o Hu Hok) as Ho.
    assert (rl_magic (run_op l file o).1.1 = rl_magic l) as Hsame.
    { clear. destruct o; cbn [run_op]; unfold append_with, recover_failed_append, rewrite,
        append_batch_atomic; repeat case_match; try done; simplify_eq; done. }
    destruct (run_op l file o) as [[l' file'] res]. cbn in *. by rewrite Hsame.
  - destruct (crash_recovers l file rs u o image Hu Hok Hc) as (rs1 & file1 & l1 & Hl1 & Hm1 & Hh1 & _).
    rewrite Hmg, Hl in Hl1. simplify_eq. split; [congruence|]. by exists None.
Qed.

End histories.

Module RecordLogWitness.
Import ToyCrypto Fixint.

#[export] Instance toy_storage : StorageCrypto := {|
  pbkdf2_hmac_sha256 pw salt rounds len := digest len (pw ++ salt);
  aead_error := str "aead::Error";
  path_debug p := p
|}.
#[export] Instance toy_storage_laws : StorageCryptoLaws.
Proof. intros pw salt rounds len. apply length_le_bytes. Qed.

#[export] Instance text_wf : TypeWf bytes := λ l, (N.of_nat (length l) ≤ u64_max)%N.
#[export] Instance text_bincode : Bincode bytes := bincode_of c_bytes.
#[export] Instance text_laws : BincodeLaws bytes.
Proof. apply bincode_of_laws; [apply _|]. done. Qed.

Definition salt0 : bytes := repeat Byte.x07 16.
Definition nonce0 : bytes := repeat Byte.x01 12.
Definition log0 : RecordLog :=
  MkRecordLog (from_password (str "pw") salt0) salt0 (str "MTTEST") false 0.
Definition all_good : append_io := MkAppendIo None None None None None.
Definition frame1 : bytes :=
  match encode_record log0 nonce0 (str "one") with Ok f => f | Err _ => [] end.

End RecordLogWitness.
