(* ===== verification/RatchetStore.v ===== *)
(** * The store of ratchet sessions

    Models crates/mesh-talk-core/src/node/ratchet_sessions.rs: one serialized
    ratchet per peer, kept in an encrypted record log to which every new state is
    appended and which is rewritten to one record per peer when it has grown.  The
    outcome of each file operation and the nonces it draws are arguments. *)

From S2P Require Import Prelude Crypto Bincode Event EventStore Ratchet RecordLog.

Definition SESSIONS_MAGIC : bytes := str "MTRTCH".

Record SessionRecord := MkSessionRecord {
  sr_peer : bytes;
  sr_state : bytes
}.

#[global] Instance SessionRecord_eq_dec : EqDecision SessionRecord.
Proof. solve_decision. Defined.

#[global] Instance SessionRecord_wf : TypeWf SessionRecord := λ r,
  string_wf (sr_peer r) ∧ (N.of_nat (length (sr_state r)) ≤ u64_max)%N.

Record RatchetSessions := MkSessions {
  se_file : RecordLog;
  latest : gmap bytes bytes;
  on_disk : nat;
  compaction_warned : bool
}.

(** A compaction: the nonce drawn for each peer's record, and how the replacement
    of the file went. *)
Record compact_io := MkCompactIo {
  ci_nonce : bytes → bytes;
  ci_replace : replace_io
}.

Record put_io := MkPutIo {
  pi_before : compact_io;
  pi_nonce : bytes;
  pi_append : append_io;
  pi_after : compact_io
}.

(** Records on disk above which a store of [n] peers is compacted. *)
Definition compact_limit (n : nat) : nat := n * 4 + 16.

Definition replay (records : list SessionRecord) : gmap bytes bytes :=
  foldl (λ m r, <[sr_peer r := sr_state r]> m) ∅ records.

Section store.
Context `{Crypto, StorageCrypto, Bincode SessionRecord, Bincode RatchetWire, BincodeText}.

Definition sessions_open (file : option bytes) (salt password : bytes)
    (create : option (nat * bytes)) (repair : option bytes) :
    option bytes * result LogError RatchetSessions :=
  let '(file, r) := open file salt password SESSIONS_MAGIC create repair in
  (file, '(log, records) ← r; Ok (MkSessions log (replay records) (length records) false)).

Definition sessions_get (s : RatchetSessions) (peer : bytes) : option RatchetState :=
  state ← latest s !! peer; ratchet_deserialize state.

Definition compacted (s : RatchetSessions) (nonce : bytes → bytes) :
    list (bytes * SessionRecord) :=
  (λ '(peer, state), (nonce peer, MkSessionRecord peer state)) <$> map_to_list (latest s).

Definition maybe_compact (s : RatchetSessions) (disk : bytes) (io : compact_io) :
    RatchetSessions * bytes * result LogError () :=
  if decide (on_disk s ≤ compact_limit (size (latest s))) then (s, disk, Ok ())
  else
    let records := compacted s (ci_nonce io) in
    match rewrite (se_file s) disk records (ci_replace io) with
    | (file, disk, Err e) =>
        (MkSessions file (latest s) (on_disk s) (compaction_warned s), disk, Err e)
    | (file, disk, Ok _) => (MkSessions file (latest s) (length records) false, disk, Ok ())
    end.

(** The compaction in front of an append, when the file is twice over its limit. *)
Definition compact_first (s : RatchetSessions) (disk : bytes) (io : compact_io) :
    RatchetSessions * bytes * result LogError () :=
  if decide (compact_limit (size (latest s)) * 2 ≤ on_disk s) then maybe_compact s disk io
  else (s, disk, Ok ()).

Definition put_with (s : RatchetSessions) (disk : bytes) (peer : bytes) (state : RatchetState)
    (io : put_io) : RatchetSessions * bytes * result LogError () :=
  match compact_first s disk (pi_before io) with
  | (s, disk, Err e) => (s, disk, Err e)
  | (s, disk, Ok _) =>
      let record := MkSessionRecord peer (ratchet_serialize state) in
      match append_durable (se_file s) disk (pi_nonce io) record (pi_append io) with
      | (file, disk, Err e) =>
          (MkSessions file (latest s) (on_disk s) (compaction_warned s), disk, Err e)
      | (file, disk, Ok _) =>
          let s := MkSessions file (<[peer := sr_state record]> (latest s))
                     (on_disk s + 1) (compaction_warned s) in
          match maybe_compact s disk (pi_after io) with
          | (s, disk, Ok _) => (s, disk, Ok ())
          | (s, disk, Err _) =>
              (MkSessions (se_file s) (latest s) (on_disk s) true, disk, Ok ())
          end
      end
  end.

Definition put_durable := put_with.
Definition put := put_durable.

Definition sessions_sync (s : RatchetSessions) (io : option bytes) : result LogError () :=
  sync (se_file s) io.

Definition sessions_has (s : RatchetSessions) (peer : bytes) : bool :=
  bool_decide (is_Some (sessions_get s peer)).
End store.

(** ** Replay *)

Lemma replay_snoc rs r : replay (rs ++ [r]) = <[sr_peer r := sr_state r]> (replay rs).
Proof. unfold replay. by rewrite foldl_app. Qed.

Lemma replay_elem rs peer state :
  replay rs !! peer = Some state → MkSessionRecord peer state ∈ rs.
Proof.
  induction rs as [|[p v] rs IH] using rev_ind; [done|]. rewrite replay_snoc. cbn.
  intros [[-> ->]|[_ Hl]]%lookup_insert_Some; [set_solver|]. set_solver.
Qed.

Lemma replay_map_to_list (m : gmap bytes bytes) :
  replay ((λ '(peer, state), MkSessionRecord peer state) <$> map_to_list m) = m.
Proof.
  assert (∀ l, replay ((λ '(peer, state), MkSessionRecord peer state) <$> l) =
    list_to_map (reverse l)) as Hrev.
  { induction l as [|[p v] l IH] using rev_ind; [done|].
    rewrite fmap_app, reverse_snoc. cbn [fmap list_fmap]. by rewrite replay_snoc, IH. }
  rewrite Hrev. trans (list_to_map (M := gmap bytes bytes) (map_to_list m));
    [|apply list_to_map_to_list]. apply list_to_map_proper.
  - rewrite fmap_reverse, reverse_Permutation. apply NoDup_fst_map_to_list.
  - by rewrite reverse_Permutation.
Qed.

Lemma compacted_replay s nonce : replay (compacted s nonce).*2 = latest s.
Proof.
  trans (replay ((λ '(peer, state), MkSessionRecord peer state) <$> map_to_list (latest s)));
    [|apply replay_map_to_list]. f_equal. unfold compacted.
  rewrite <-list_fmap_compose. apply list_fmap_ext. by intros ? [].
Qed.

Lemma compacted_length s nonce : length (compacted s nonce) = size (latest s).
Proof. unfold compacted. rewrite length_fmap. apply length_map_to_list. Qed.

(** The file is at most twice over the limit of its number of peers. *)
Definition bounded (rs : list SessionRecord) : Prop :=
  length rs ≤ compact_limit (size (replay rs)) * 2.

Lemma bounded_snoc rs r :
  length rs < compact_limit (size (replay rs)) * 2 → bounded (rs ++ [r]).
Proof.
  unfold bounded. rewrite length_app, replay_snoc. cbn [length].
  assert (size (replay rs) ≤ size (<[sr_peer r := sr_state r]> (replay rs))) as Hsz.
  { rewrite <-!size_dom. apply subseteq_size. rewrite dom_insert. set_solver. }
  unfold compact_limit. lia.
Qed.

Lemma bounded_compacted s nonce : bounded (compacted s nonce).*2.
Proof.
  unfold bounded. rewrite length_fmap, compacted_length, compacted_replay. unfold compact_limit. lia.
Qed.

(** ** Histories *)

Section histories.
Context `{Crypto, !CryptoLaws, StorageCrypto, !StorageCryptoLaws}.
Context `{Bincode SessionRecord, !BincodeLaws SessionRecord, Bincode RatchetWire, BincodeText}.
Context (password : bytes).
Implicit Types (s : RatchetSessions) (disk peer : bytes) (rs : list SessionRecord).

Definition compact_ok (io : compact_io) : Prop := ∀ peer, length (ci_nonce io peer) = ENC_NONCE_SIZE.

(** Nonces have their size; the peer's id and the state fit a vector. *)
Definition put_ok peer (st : RatchetState) (io : put_io) : Prop :=
  compact_ok (pi_before io) ∧ length (pi_nonce io) = ENC_NONCE_SIZE ∧ compact_ok (pi_after io) ∧
  type_wf (MkSessionRecord peer (ratchet_serialize st)).

(** The index is the replay of the records the file holds. *)
Record indexes s disk rs (u : option SessionRecord) : Prop := {
  ix_holds : holds password (se_file s) disk rs u;
  ix_magic : rl_magic (se_file s) = SESSIONS_MAGIC;
  ix_latest : latest s = replay rs;
  ix_count : on_disk s = length rs;
  ix_bound : bounded rs;
  ix_refused r : u = Some r → bounded (rs ++ [r])
}.

Definition store_inv s disk : Prop := ∃ rs u, indexes s disk rs u.

Lemma compacted_ok s disk rs u io :
  indexes s disk rs u → compact_ok io →
  op_ok (LRewrite (compacted s (ci_nonce io)) (ci_replace io)).
Proof.
  intros [[_ _ _ _ (body & tail & Hb & _)] _ Hl _ _ _] Hio [nonce r].
  intros ([peer state] & [= -> ->] & Hin)%list_elem_of_fmap. split; [apply Hio|].
  apply (body_wf _ _ _ Hb), replay_elem. rewrite <-Hl. by apply elem_of_map_to_list.
Qed.

Lemma maybe_compact_inv s disk rs u io :
  indexes s disk rs u → compact_ok io →
  let '(s', disk', res) := maybe_compact s disk io in
  latest s' = latest s ∧
  (is_ok res = true → (∃ rs', indexes s' disk' rs' u) ∧ on_disk s' ≤ compact_limit (size (latest s'))) ∧
  (is_ok res = false → indexes s' disk' rs u).
Proof.
  intros Hix Hio. unfold maybe_compact. case_decide as Hle; [naive_solver|].
  pose proof (compacted_ok s disk rs u io Hix Hio) as Hok. destruct Hix as [Hh Hm Hl Hc Hb Hr].
  unfold rewrite. destruct (rl_poisoned (se_file s)) eqn:Hp; [cbn; by split_and!|].
  destruct (ci_replace io); [cbn; by split_and!|].
  destruct (encode_records _ _) as [frames|] eqn:He; [|cbn; by split_and!]. cbn.
  assert (u = None) as -> by (pose proof (ho_poisoned _ _ _ _ _ Hh) as Hu; rewrite Hp in Hu; by destruct u).
  destruct (replace_holds password _ _ _ _ _ _ (compacted s (ci_nonce io)).*2 Hh Hp Hok He) as [Hh' _].
  split; [done|]. split; [|done]. intros _. split.
  - exists (compacted s (ci_nonce io)).*2. split; cbn; try done; [by apply Hh'|..].
    + by rewrite compacted_replay.
    + by rewrite length_fmap.
    + apply bounded_compacted.
  - rewrite compacted_length. unfold compact_limit. lia.
Qed.

Lemma compact_first_inv s disk rs u io :
  indexes s disk rs u → compact_ok io →
  let '(s', disk', res) := compact_first s disk io in
  latest s' = latest s ∧ (∃ rs', indexes s' disk' rs' u) ∧
  (is_ok res = true → on_disk s' < compact_limit (size (latest s')) * 2).
Proof.
  intros Hix Hio. unfold compact_first. case_decide as Hge.
  - pose proof (maybe_compact_inv s disk rs u io Hix Hio) as Hm.
    destruct (maybe_compact s disk io) as [[s' disk'] [[]|e]]; cbn in Hm.
    + destruct Hm as (Hl & Hm & _). destruct Hm as [Hrs Hle]; [done|]. split_and!; try done.
      intros _. unfold compact_limit in *. lia.
    + destruct Hm as (Hl & _ & Hm). split_and!; try done. exists rs. by apply Hm.
  - split_and!; eauto. intros _. cbn. lia.
Qed.

Lemma append_indexes s disk rs u peer st nonce io :
  indexes s disk rs u → on_disk s < compact_limit (size (latest s)) * 2 →
  length nonce = ENC_NONCE_SIZE → type_wf (MkSessionRecord peer (ratchet_serialize st)) →
  let r := MkSessionRecord peer (ratchet_serialize st) in
  let '(file, disk', res) := append_durable (se_file s) disk nonce r io in
  if is_ok res
  then indexes (MkSessions file (<[peer := ratchet_serialize st]> (latest s)) (on_disk s + 1)
                 (compaction_warned s)) disk' (rs ++ [r]) None
  else ∃ u', indexes (MkSessions file (latest s) (on_disk s) (compaction_warned s)) disk' rs u'.
Proof.
  intros [Hh Hm Hl Hc Hb Hr] Hlt Hn Hwf r. rewrite Hl, Hc in Hlt.
  pose proof (append_with_holds password _ _ _ _ nonce r io Hh Hn Hwf) as Ha.
  assert (rl_magic (append_with (se_file s) disk nonce r io).1.1 = SESSIONS_MAGIC) as Hmg
    by (by rewrite append_with_magic).
  unfold append_durable. destruct (append_with _ _ _ _ _) as [[file disk'] [[]|e]]; cbn in *.
  - destruct Ha as [[-> Ha] _]; [done|]. split; cbn; try done.
    + rewrite replay_snoc. by rewrite Hl.
    + by rewrite Hc, length_app.
    + by apply bounded_snoc.
  - destruct Ha as [_ Ha]. destruct Ha as [Ha|[-> Ha]]; [done|by exists u|].
    exists (Some r). split; cbn; try done. intros r' [= <-]. by apply bounded_snoc.
Qed.

Lemma put_with_inv s disk peer st io :
  store_inv s disk → put_ok peer st io →
  store_inv (put_with s disk peer st io).1.1 (put_with s disk peer st io).1.2.
Proof.
  intros (rs & u & Hix) (Hb & Hn & Ha & Hwf). unfold put_with.
  pose proof (compact_first_inv s disk rs u _ Hix Hb) as Hcf.
  destruct (compact_first _ _ _) as [[s1 disk1] [[]|e]]; destruct Hcf as (Hl1 & [rs1 Hix1] & Hlt1);
    [|by exists rs1, u].
  pose proof (append_indexes s1 disk1 rs1 u peer st _ (pi_append io) Hix1 (Hlt1 eq_refl) Hn Hwf) as Hap.
  cbv zeta in Hap. cbn [sr_state].
  destruct (append_durable _ _ _ _ _) as [[file disk2] [[]|e]]; cbn [is_ok] in Hap;
    [|destruct Hap as [u' Hap]; by exists rs1, u'].
  pose proof (maybe_compact_inv _ _ _ _ _ Hap Ha) as Hmc.
  destruct (maybe_compact _ _ _) as [[s3 disk3] [[]|e]]; cbn in Hmc; destruct Hmc as (Hl & Hm1 & Hm2).
  - destruct Hm1 as [[rs3 Hm1] _]; [done|]. by exists rs3, None.
  - destruct Hm2 as [Hh Hm Hl3 Hc Hbd Hr]; [done|]. by exists (rs1 ++ [MkSessionRecord peer (ratchet_serialize st)]), None.
Qed.

(** Opening a file left behind by an operation on the log. *)
Lemma reopen_indexes s disk rs u o image salt :
  indexes s disk rs u → op_ok o → crash_image (se_file s) disk o image → bounded (applied rs o) →
  ∃ rs' disk' s', sessions_open (Some image) salt password None None = (Some disk', Ok s') ∧
    indexes s' disk' rs' None ∧
    (rs' = rs ∨ rs' = applied rs o ∨ ∃ r, u = Some r ∧ rs' = rs ++ [r]).
Proof.
  intros [Hh Hm Hl Hc Hb Hr] Hok Hcr Hba.
  destruct (crash_recovers password _ _ _ _ _ _ Hh Hok Hcr) as (rs' & disk' & l' & Hld & Hm' & Hh' & Hor).
  rewrite Hm in Hld. exists rs', disk', (MkSessions l' (replay rs') (length rs') false).
  unfold sessions_open, open, open_with_visitor. rewrite Hld. split; [done|]. split; [|done].
  split; cbn [se_file latest on_disk]; try done; [congruence|]. destruct Hor as [->|[->|(r & -> & ->)]]; eauto.
Qed.

(** What the file may be if the machine stops during a put. *)
Inductive put_image s disk peer (st : RatchetState) (io : put_io) : bytes → Prop :=
  | pim_idle : put_image s disk peer st io disk
  | pim_before image :
      compact_limit (size (latest s)) * 2 ≤ on_disk s →
      crash_image (se_file s) disk
        (LRewrite (compacted s (ci_nonce (pi_before io))) (ci_replace (pi_before io))) image →
      put_image s disk peer st io image
  | pim_append s1 disk1 image :
      compact_first s disk (pi_before io) = (s1, disk1, Ok ()) →
      crash_image (se_file s1) disk1
        (LAppend (pi_nonce io) (MkSessionRecord peer (ratchet_serialize st)) (pi_append io)) image →
      put_image s disk peer st io image
  | pim_after s1 disk1 file disk2 image :
      compact_first s disk (pi_before io) = (s1, disk1, Ok ()) →
      append_durable (se_file s1) disk1 (pi_nonce io)
        (MkSessionRecord peer (ratchet_serialize st)) (pi_append io) = (file, disk2, Ok ()) →
      let s2 := MkSessions file (<[peer := ratchet_serialize st]> (latest s1)) (on_disk s1 + 1)
                  (compaction_warned s1) in
      crash_image file disk2
        (LRewrite (compacted s2 (ci_nonce (pi_after io))) (ci_replace (pi_after io))) image →
      put_image s disk peer st io image.

(** What an interrupted put may leave in the index. *)
Definition put_effect s peer (st : RatchetState) (m : gmap bytes bytes) : Prop :=
  m = latest s ∨ m = <[peer := ratchet_serialize st]> (latest s) ∨
  rl_poisoned (se_file s) = true ∧ ∃ r, m = <[sr_peer r := sr_state r]> (latest s).

Lemma indexes_effect s s1 disk1 rs1 u peer st rs' o :
  indexes s1 disk1 rs1 u → latest s1 = latest s → rl_poisoned (se_file s) = bool_decide (is_Some u) →
  (replay (applied rs1 o) = latest s ∨ replay (applied rs1 o) = <[peer := ratchet_serialize st]> (latest s)) →
  (rs' = rs1 ∨ rs' = applied rs1 o ∨ ∃ r, u = Some r ∧ rs' = rs1 ++ [r]) →
  put_effect s peer st (replay rs').
Proof.
  intros Hix Hl Hp Ho Hor. rewrite (ix_latest _ _ _ _ Hix) in Hl. unfold put_effect.
  destruct Hor as [->|[->|(r & -> & ->)]]; [tauto..|]. right; right.
  rewrite Hp, bool_decide_true by done. split; [done|]. exists r. by rewrite replay_snoc, Hl.
Qed.

Lemma put_crash s disk peer st io image salt :
  store_inv s disk → put_ok peer st io → put_image s disk peer st io image →
  ∃ disk' s', sessions_open (Some image) salt password None None = (Some disk', Ok s') ∧
    store_inv s' disk' ∧ put_effect s peer st (latest s').
Proof.
  intros (rs & u & Hix) (Hb & Hn & Ha & Hwf) Himg.
  pose proof (ho_poisoned _ _ _ _ _ (ix_holds _ _ _ _ Hix)) as Hp.
  assert (∀ s1 disk1 rs1 o, indexes s1 disk1 rs1 u → latest s1 = latest s → op_ok o →
    crash_image (se_file s1) disk1 o image → bounded (applied rs1 o) →
    (replay (applied rs1 o) = latest s ∨ replay (applied rs1 o) = <[peer := ratchet_serialize st]> (latest s)) →
    ∃ disk' s', sessions_open (Some image) salt password None None = (Some disk', Ok s') ∧
      store_inv s' disk' ∧ put_effect s peer st (latest s')) as Hgen.
  { intros s1 disk1 rs1 o Hix1 Hl1 Hok Hcr Hbd Hrep.
    destruct (reopen_indexes s1 disk1 rs1 u o image salt Hix1 Hok Hcr Hbd) as (rs' & disk' & s' & Hop & Hix' & Hor).
    exists disk', s'. split; [done|]. split; [by exists rs', None|].
    rewrite (ix_latest _ _ _ _ Hix'). by apply (indexes_effect s s1 disk1 rs1 u peer st rs' o). }
  destruct Himg as [|image Hge Hcr|s1 disk1 image Hcf Hcr|s1 disk1 file disk2 image Hcf Hap s2 Hcr].
  - apply (Hgen s disk rs (LRecover None None)); try done; [constructor|apply Hix|].
    left. symmetry. apply Hix.
  - apply (Hgen s disk rs _ Hix eq_refl (compacted_ok _ _ _ _ _ Hix Hb) Hcr); [apply bounded_compacted|].
    left. apply compacted_replay.
  - pose proof (compact_first_inv s disk rs u _ Hix Hb) as Hi. rewrite Hcf in Hi.
    destruct Hi as (Hl1 & [rs1 Hix1] & Hlt).
    refine (Hgen s1 disk1 rs1 _ Hix1 Hl1 _ Hcr _ _); [done|..].
    + cbn [applied]. apply bounded_snoc. destruct Hix1 as [_ _ <- <- _ _]. by apply Hlt.
    + right. cbn [applied]. rewrite replay_snoc. cbn. by rewrite <-(ix_latest _ _ _ _ Hix1), Hl1.
  - pose proof (compact_first_inv s disk rs u _ Hix Hb) as Hi. rewrite Hcf in Hi.
    destruct Hi as (Hl1 & [rs1 Hix1] & Hlt).
    pose proof (append_indexes s1 disk1 rs1 u peer st _ (pi_append io) Hix1 (Hlt eq_refl) Hn Hwf) as Hi.
    cbv zeta in Hi. rewrite Hap in Hi. cbn [is_ok] in Hi. fold s2 in Hi.
    destruct (reopen_indexes s2 disk2 _ None _ image salt Hi (compacted_ok _ _ _ _ _ Hi Ha) Hcr
      (bounded_compacted _ _)) as (rs' & disk' & s' & Hop & Hix' & Hor).
    exists disk', s'. split; [done|]. split; [by exists rs', None|]. right; left.
    rewrite (ix_latest _ _ _ _ Hix'), <-Hl1. cbn [applied] in Hor.
    destruct Hor as [->|[->|(r & ? & _)]]; [|by rewrite compacted_replay|done].
    by rewrite <-(ix_latest _ _ _ _ Hi).
Qed.

(** Stores that are created, written, and opened again after a stop at any point. *)
Inductive sessions_reach : RatchetSessions → bytes → Prop :=
  | sre_create salt s disk :
      length salt = SALT_SIZE → sessions_open None salt password None None = (Some disk, Ok s) →
      sessions_reach s disk
  | sre_put s disk peer st io :
      sessions_reach s disk → put_ok peer st io →
      sessions_reach (put_with s disk peer st io).1.1 (put_with s disk peer st io).1.2
  | sre_crash s disk peer st io image salt s' disk' :
      sessions_reach s disk → put_ok peer st io → put_image s disk peer st io image →
      sessions_open (Some image) salt password None None = (Some disk', Ok s') →
      sessions_reach s' disk'.

Lemma sessions_reach_inv s disk : sessions_reach s disk → store_inv s disk.
Proof.
  induction 1 as [salt s disk Hs Ho|s disk peer st io _ IH Hok
    |s disk peer st io image salt s' disk' _ IH Hok Himg Ho].
  - unfold sessions_open, open, open_with_visitor in Ho. injection Ho as <- <-.
    exists [], None. split; cbn [se_file latest on_disk rl_magic]; try done.
    + apply (clean_holds password _ _ _ []); try done; [apply body_nil|]. cbn. by rewrite app_nil_r.
    + unfold bounded. cbn [length]. lia.
  - by apply put_with_inv.
  - destruct (put_crash s disk peer st io image salt IH Hok Himg) as (disk1 & s1 & Ho1 & Hi & _).
    rewrite Ho in Ho1. by injection Ho1 as -> ->.
Qed.

End histories.

(** ** What the direct-message service relies on *)

Class SessionStore (S IO : Type) := {
  store_get : S → bytes → option RatchetState;
  store_put : S → IO → bytes → RatchetState → S * result LogError ();
  store_sync : S → IO → result LogError ()
}.

Class SessionStoreLaws (S IO : Type) `{SessionStore S IO, Crypto, Bincode RatchetWire} := {
  put_get s io peer st s' :
    store_put s io peer st = (s', Ok ()) →
    store_get s' peer = ratchet_deserialize (ratchet_serialize st);
  put_get_ne s io peer st s' r other :
    store_put s io peer st = (s', r) → other ≠ peer → store_get s' other = store_get s other;
  put_err_get s io peer st s' e :
    store_put s io peer st = (s', Err e) → store_get s' peer = store_get s peer;
  get_restored s peer st : store_get s peer = Some st → ∃ w, st = ratchet_unwire w
}.

Section interface.
Context `{Crypto, StorageCrypto, Bincode SessionRecord, Bincode RatchetWire, BincodeText}.

(** The open store with its file; the outcomes of a put and of a sync. *)
#[global] Instance sessions_store : SessionStore (RatchetSessions * bytes) (put_io * option bytes) := {|
  store_get s peer := sessions_get s.1 peer;
  store_put s io peer st := put_durable s.1 s.2 peer st io.1;
  store_sync s io := sessions_sync s.1 io.2
|}.

Lemma maybe_compact_latest s disk io : latest (maybe_compact s disk io).1.1 = latest s.
Proof. unfold maybe_compact. repeat case_match; done. Qed.

Lemma put_with_latest s disk peer st io s' disk' r :
  put_with s disk peer st io = (s', disk', r) →
  latest s' = if is_ok r then <[peer := ratchet_serialize st]> (latest s) else latest s.
Proof.
  unfold put_with, compact_first. intros Hput.
  pose proof (maybe_compact_latest s disk (pi_before io)) as Hl1.
  assert (latest (if decide (compact_limit (size (latest s)) * 2 ≤ on_disk s)
    then maybe_compact s disk (pi_before io) else (s, disk, Ok ())).1.1 = latest s) as Hl by by case_decide.
  clear Hl1. destruct (if decide _ then _ else _) as [[s1 disk1] [[]|e]]; cbn in Hl;
    [|injection Hput as <- _ <-; done].
  destruct (append_durable _ _ _ _ _) as [[file disk2] [[]|e]]; [|injection Hput as <- _ <-; done].
  cbn [sr_state] in Hput. match type of Hput with context [maybe_compact ?a ?b ?c] =>
    pose proof (maybe_compact_latest a b c) as Hl2 end.
  destruct (maybe_compact _ _ _) as [[s3 disk3] [[]|e]]; cbn in Hl2;
    injection Hput as <- _ <-; cbn; by rewrite Hl2, Hl.
Qed.

#[global] Instance sessions_store_laws : SessionStoreLaws (RatchetSessions * bytes) (put_io * option bytes).
Proof.
  split; cbn; unfold put_durable, sessions_get.
  - intros s io peer st [s' disk'] Hp%put_with_latest. cbn in *. by rewrite Hp, lookup_insert_eq.
  - intros s io peer st [s' disk'] r other Hp%put_with_latest Hne. cbn in *. rewrite Hp.
    destruct (is_ok r); [by rewrite lookup_insert_ne|done].
  - intros s io peer st [s' disk'] e Hp%put_with_latest. cbn in *. by rewrite Hp.
  - intros s peer st Hg. destruct (latest s.1 !! peer) as [bs|]; [|done].
    unfold ratchet_deserialize in Hg. cbn in Hg. destruct (de bs) as [w|]; [|done].
    injection Hg as <-. by exists w.
Qed.
End interface.

Module StoreWitness.
Import ToyCrypto Fixint RatchetCodec RatchetWitness RecordLogWitness.

Definition record_codec : codec SessionRecord :=
  c_iso (λ '(p, s), MkSessionRecord p s) (λ r, (sr_peer r, sr_state r)) (c_pair c_string c_bytes).
#[export] Instance record_codec_ok : CodecOk record_codec.
Proof. apply c_iso_ok; [by intros []|by intros [? ?]|apply _]. Qed.
#[export] Instance record_bincode : Bincode SessionRecord := bincode_of record_codec.
#[export] Instance record_laws : BincodeLaws SessionRecord.
Proof. apply bincode_of_laws; [apply _|]. intros [p s] [? ?]. done. Qed.

Definition compact0 : compact_io := MkCompactIo (λ _, nonce0) Replaced.
Definition put0 : put_io := MkPutIo compact0 nonce0 all_good compact0.
Definition store0 : RatchetSessions :=
  match (sessions_open None salt0 (str "pw") None None).2 with
  | Ok s => s
  | Err _ => MkSessions log0 ∅ 0 false
  end.
Definition disk0 : bytes := SESSIONS_MAGIC ++ salt0.
Definition frame_bob : bytes :=
  match encode_record (se_file store0) nonce0 (MkSessionRecord (str "bob") (ratchet_serialize alice0)) with
  | Ok f => f | Err _ => []
  end.

End StoreWitness.
