(* ===== verification/Names.v ===== *)
(** * The directory of announced names

    Models crates/mesh-talk-core/src/node/name_directory.rs: the last display name every
    peer announced, in an encrypted record log that grows only on a rename.  The nonce and
    the file operations of each append are arguments; the storage handle the directory
    keeps open is not read by it. *)

From S2P Require Import Prelude Crypto Bincode Event EventStore RecordLog.

Definition NAMES_MAGIC : bytes := str "MTNAME".
Definition MAX_STORED_NAME : nat := 256.

Record NameEntry := MkNameEntry { ne_user_id : bytes; ne_name : bytes }.

#[global] Instance NameEntry_wf : TypeWf NameEntry := λ e,
  string_wf (ne_user_id e) ∧ string_wf (ne_name e).

Record NameDirectory := MkNames {
  nd_file : RecordLog;
  by_user : gmap bytes bytes;
  last_changed : gmap bytes N;
  next_change : N
}.

(** One append: the nonce drawn and what the file system did. *)
Record name_io := MkNameIo { ni_nonce : bytes; ni_append : append_io }.

Definition account_key (account : bytes) : bytes := str "account:" ++ account.

Section directory.
Context `{Crypto, StorageCrypto, Bincode NameEntry, BincodeText}.

(** The loop of [open] over the stored records, from index [i] on. *)
Fixpoint collapse (entries : list NameEntry) (i : N) (names : gmap bytes bytes)
    (changed : gmap bytes N) : gmap bytes bytes * gmap bytes N :=
  match entries with
  | [] => (names, changed)
  | e :: entries =>
      collapse entries (i + 1) (<[ne_user_id e := ne_name e]> names) (<[ne_user_id e := i]> changed)
  end.

Definition names_open (file : option bytes) (salt password : bytes)
    (create : option (nat * bytes)) (repair : option bytes) :
    option bytes * result LogError NameDirectory :=
  let '(file, r) := open file salt password NAMES_MAGIC create repair in
  (file, '(log, entries) ← r;
         let '(names, changed) := collapse entries 0 ∅ ∅ in
         Ok (MkNames log names changed (N.of_nat (length entries)))).

Definition record_name (d : NameDirectory) (disk : bytes) (io : name_io) (user_id name : bytes) :
    NameDirectory * bytes * result LogError bool :=
  if decide (name = [] ∨ MAX_STORED_NAME < length name) then (d, disk, Ok false)
  else if decide (by_user d !! user_id = Some name) then (d, disk, Ok false)
  else
    match append_with (nd_file d) disk (ni_nonce io) (MkNameEntry user_id name) (ni_append io) with
    | (file, disk, Err e) =>
        (MkNames file (by_user d) (last_changed d) (next_change d), disk, Err e)
    | (file, disk, Ok _) =>
        (MkNames file (<[user_id := name]> (by_user d)) (<[user_id := next_change d]> (last_changed d))
           (saturating_add u64_max (next_change d) 1), disk, Ok true)
    end.

Definition name_for_user (d : NameDirectory) (user_id : bytes) : option bytes := by_user d !! user_id.

Definition name_for_account (d : NameDirectory) (account_id : bytes) : option bytes :=
  name_for_user d (account_key account_id).

Definition record_peer_name (d : NameDirectory) (disk : bytes) (io_account io_user : name_io)
    (user_id : bytes) (account_id : option bytes) (name : bytes) :
    NameDirectory * bytes * result LogError () :=
  let changed := bool_decide (name_for_user d user_id ≠ Some name) in
  let '(d, disk, r) :=
    match account_id with
    | Some account => if changed then record_name d disk io_account (account_key account) name
                      else (d, disk, Ok false)
    | None => (d, disk, Ok false)
    end in
  match r with
  | Err e => (d, disk, Err e)
  | Ok _ => let '(d, disk, r) := record_name d disk io_user user_id name in (d, disk, _ ← r; Ok ())
  end.

(** [max_by_key] keeps the last of the greatest. *)
Definition latest_name_for_users (d : NameDirectory) (users : list bytes) : option bytes :=
  let step (best : option (bytes * N)) user :=
    match last_changed d !! user, best with
    | None, _ => best
    | Some revision, Some (_, top) =>
        if decide (top ≤ revision)%N then Some (user, revision) else best
    | Some revision, None => Some (user, revision)
    end in
  '(user, _) ← foldl step None users; name_for_user d user.
End directory.

(** ** Restarts *)

Section restarts.
Context `{Crypto, !CryptoLaws, StorageCrypto, !StorageCryptoLaws}.
Context `{Bincode NameEntry, !BincodeLaws NameEntry, BincodeText}.
Context (password : bytes).
Implicit Types (d : NameDirectory) (disk : bytes) (rs : list NameEntry).

Lemma collapse_snoc rs e i names changed :
  collapse (rs ++ [e]) i names changed =
  let '(n, c) := collapse rs i names changed in
  (<[ne_user_id e := ne_name e]> n, <[ne_user_id e := (i + N.of_nat (length rs))%N]> c).
Proof.
  revert i names changed. induction rs as [|r rs IH]; intros i names changed; cbn [app collapse length].
  - by rewrite N.add_0_r.
  - rewrite IH. destruct (collapse rs _ _ _) as [n c]. do 2 f_equal. lia.
Qed.

(** The directory is what its file replays to. *)
Record replays d disk rs (u : option NameEntry) : Prop := {
  rp_holds : holds password (nd_file d) disk rs u;
  rp_magic : rl_magic (nd_file d) = NAMES_MAGIC;
  rp_index : (N.of_nat (length rs) ≤ u64_max)%N →
    collapse rs 0 ∅ ∅ = (by_user d, last_changed d) ∧ next_change d = N.of_nat (length rs)
}.

Definition io_ok (io : name_io) (user_id name : bytes) : Prop :=
  length (ni_nonce io) = ENC_NONCE_SIZE ∧ string_wf user_id ∧ string_wf name.

Lemma record_name_replays d disk rs u io user_id name :
  replays d disk rs u → io_ok io user_id name →
  let '(d', disk', _) := record_name d disk io user_id name in ∃ rs' u', replays d' disk' rs' u'.
Proof.
  intros Hd (Hn & Hu & Hw). unfold record_name. case_decide as Hlen; [by eauto|]. case_decide; [by eauto|].
  apply Decidable.not_or in Hlen as [_ Hlen]. destruct Hd as [Hh Hm Hi].
  set (e := MkNameEntry user_id name).
  assert (type_wf e) as Hwf by done.
  pose proof (append_with_holds password _ _ _ _ (ni_nonce io) e (ni_append io) Hh Hn Hwf) as Ha.
  assert (rl_magic (append_with (nd_file d) disk (ni_nonce io) e (ni_append io)).1.1 = NAMES_MAGIC) as Hmg
    by (by rewrite append_with_magic).
  destruct (append_with _ _ _ _ _) as [[file disk'] [[]|er]]; cbn [is_ok fst] in *.
  - destruct Ha as [[-> Ha] _]; [done|]. exists (rs ++ [e]), None. split; cbn [nd_file]; [done|done|].
    rewrite length_app, collapse_snoc. intros Hle. cbn [length] in Hle.
    destruct Hi as [-> Hnx]; [lia|]. cbn [by_user last_changed next_change ne_user_id ne_name e].
    rewrite N.add_0_l, Hnx. split; [done|]. unfold saturating_add. cbn [length]. lia.
  - destruct Ha as [_ Ha]. destruct Ha as [Ha|[-> Ha]]; [done|by exists rs, u|by exists rs, (Some e)].
Qed.

(** Directories a run of the program can have: opened, then any peers recorded, each file
    operation succeeding or failing. *)
Inductive names_reach : NameDirectory → bytes → Prop :=
  | nr_new salt disk d :
      length salt = SALT_SIZE → names_open None salt password None None = (Some disk, Ok d) →
      names_reach d disk
  | nr_record d disk io_a io_u user account name :
      names_reach d disk → io_ok io_u user name →
      (∀ a, account = Some a → io_ok io_a (account_key a) name) →
      names_reach (record_peer_name d disk io_a io_u user account name).1.1
        (record_peer_name d disk io_a io_u user account name).1.2.

Lemma names_reach_replays d disk : names_reach d disk → ∃ rs u, replays d disk rs u.
Proof.
  induction 1 as [salt disk d Hs Ho|d disk io_a io_u user account name _ (rs & u & IH) Hu Ha].
  - exists [], None. unfold names_open, open, open_with_visitor in Ho. cbn in Ho. injection Ho as <- <-.
    split; cbn; [|done|done]. apply (clean_holds _ _ _ _ []); try done; [constructor|].
    cbn. by rewrite app_nil_r.
  - unfold record_peer_name. destruct account as [a|]; [destruct (bool_decide _)|].
    1: pose proof (record_name_replays d disk rs u io_a (account_key a) name IH (Ha a eq_refl)) as Hr1;
       destruct (record_name d disk io_a (account_key a) name) as [[d1 disk1] [b|e]];
       destruct Hr1 as (rs1 & u1 & Hr1); [|cbn; by eauto];
       pose proof (record_name_replays d1 disk1 rs1 u1 io_u user name Hr1 Hu) as Hr2;
       by destruct (record_name d1 disk1 io_u user name) as [[d2 disk2] r].
    all: pose proof (record_name_replays d disk rs u io_u user name IH Hu) as Hr2;
       by destruct (record_name d disk io_u user name) as [[d2 disk2] r].
Qed.

(** Names survive a restart.  Whatever was recorded before, with failed file
    operations in between, opening the file again gives the same directory: every name,
    every account's name and the order of the renames. *)
Lemma names_survive_restart d disk salt :
  names_reach d disk → rl_poisoned (nd_file d) = false → (N.of_nat (length disk) ≤ u64_max)%N →
  ∃ d', names_open (Some disk) salt password None None = (Some disk, Ok d') ∧
    by_user d' = by_user d ∧ last_changed d' = last_changed d ∧ next_change d' = next_change d ∧
    ∀ users, latest_name_for_users d' users = latest_name_for_users d users.
Proof.
  intros (rs & u & [Hh Hm Hi])%names_reach_replays Hp Hlen.
  assert (u = None) as -> by (rewrite (ho_poisoned _ _ _ _ _ Hh) in Hp; destruct u; [|done];
    by rewrite bool_decide_true in Hp).
  pose proof (holds_load password _ _ _ Hh) as Hl. rewrite Hm in Hl.
  destruct (holds_clean _ _ _ _ Hh) as (body & Hb & Hfile). apply body_length in Hb.
  destruct Hi as [Hc Hn]; [rewrite Hfile, !length_app in Hlen; lia|].
  unfold names_open, open, open_with_visitor. rewrite Hl. simpl_bind. rewrite Hc, <-Hn.
  eexists. by split_and!.
Qed.

Lemma record_name_Ok d disk io user_id name d' disk' b :
  record_name d disk io user_id name = (d', disk', Ok b) → name ≠ [] → length name ≤ MAX_STORED_NAME →
  by_user d' = <[user_id := name]> (by_user d).
Proof.
  unfold record_name. intros Hr Hne Hle. rewrite decide_False in Hr by (intros [?|?]; [done|lia]).
  case_decide as Hcur; [injection Hr as <- _ _; by rewrite insert_id|].
  destruct (append_with _ _ _ _ _) as [[file disk1] [[]|e]]; [by injection Hr as <- _ _|done].
Qed.

(** A peer's announced name is stored for the device; the account takes it only when it
    is a rename of this device, so an old device repeating its name cannot overwrite a
    rename seen on another. *)
Lemma record_peer_name_Ok d disk io_a io_u user account name d' disk' :
  record_peer_name d disk io_a io_u user account name = (d', disk', Ok ()) →
  name ≠ [] → length name ≤ MAX_STORED_NAME → (∀ a, account = Some a → user ≠ account_key a) →
  name_for_user d' user = Some name ∧
  ∀ a, account = Some a → name_for_account d' a =
    if decide (name_for_user d user = Some name) then name_for_account d a else Some name.
Proof.
  intros Hr Hne Hle Hk. unfold record_peer_name in Hr. unfold name_for_account, name_for_user in *.
  assert (∀ x, by_user d' = <[user := name]> x →
    by_user d' !! user = Some name ∧ ∀ a, account = Some a → by_user d' !! account_key a = x !! account_key a) as Hfin.
  { intros x ->. rewrite lookup_insert_eq. split; [done|]. intros a Ha. apply lookup_insert_ne. auto. }
  destruct account as [a|]; [|]; cycle 1.
  { destruct (record_name _ _ _ user name) as [[d2 disk2] [b|]] eqn:H2'; [|done]. injection Hr as <- _.
    apply record_name_Ok in H2'; [|done..]. by destruct (Hfin _ H2'). }
  case_decide as Hcur.
  - rewrite bool_decide_eq_false_2 in Hr by (intros Hx; by apply Hx).
    destruct (record_name _ _ _ user name) as [[d2 disk2] [b|]] eqn:H2'; [|done]. injection Hr as <- _.
    apply record_name_Ok in H2'; [|done..]. by destruct (Hfin _ H2').
  - rewrite bool_decide_eq_true_2 in Hr by done.
    destruct (record_name d _ _ (account_key a) name) as [[d1 disk1] [b1|]] eqn:H1'; [|done].
    destruct (record_name _ _ _ user name) as [[d2 disk2] [b|]] eqn:H2'; [|done]. injection Hr as <- _.
    apply record_name_Ok in H1', H2'; [|done..]. destruct (Hfin _ H2') as [Hu Ha]. split; [done|].
    intros a' [= <-]. rewrite Ha by done. by rewrite H1', lookup_insert_eq.
Qed.
End restarts.
