(* ===== verification/DmRatchet.v ===== *)
(** * The direct-message ratchet service

    Models crates/mesh-talk-core/src/node/dm_ratchet.rs: sessions that are set up on
    first use from the identity keys, encryption and decryption through the stored
    session, the two-phase prepare/commit used by transaction journals, and the
    tie-break of simultaneous first messages.  The service is written against the
    [SessionStore] interface; random ratchet keys are arguments. *)

From S2P Require Import Prelude Crypto Bincode Identity Event EventStore Ratchet.
From S2P Require Import RatchetSession RecordLog RatchetStore.

Record PreparedRatchet := MkPrepared {
  pr_peer : bytes;
  pr_state : bytes;
  pr_previous : option bytes
}.

Definition serialization_error (msg : string) : LogError := Serialization (str msg).

Section service.
Context `{Crypto, Bincode Header, Bincode RatchetWire, SessionStore Sto IO}.
Implicit Types (s : Sto) (io : IO) (me : DeviceIdentity) (peer : PublicIdentity).

Definition shared_root me peer : bytes :=
  let my_secret := (secret_bytes me).2 in
  let dh := x25519 my_secret (x25519_pub peer) in
  hkdf_sha256 None dh (str "MeshTalk-DM-Root") 32.

Definition frame (header : Header) (ct : bytes) : bytes :=
  let h := header_encode header in
  be_bytes 2 (N.of_nat (length h)) ++ h ++ ct.

Definition unframe (wire : bytes) : option (Header * bytes) :=
  if decide (length wire < 2) then None
  else
    let hlen := N.to_nat (be_value (take 2 wire)) in
    if decide (length wire < 2 + hlen) then None
    else
      header ← header_decode (take hlen (drop 2 wire));
      Some (header, drop (2 + hlen) wire).

Definition prepared s (peer : bytes) (state : RatchetState) : PreparedRatchet := {|
  pr_peer := peer;
  pr_state := ratchet_serialize state;
  pr_previous := ratchet_serialize <$> store_get s peer
|}.

Definition prepare_encrypt s (fresh : bytes) me peer (plaintext : bytes) :
    result LogError (bytes * PreparedRatchet) :=
  let peer_id := user_id peer in
  let state := match store_get s peer_id with
               | Some st => st
               | None => init_alice fresh (shared_root me peer) (x25519_pub peer)
               end in
  let '(state, r) := ratchet_encrypt state plaintext in
  '(header, ct) ← map_err (λ _, serialization_error "ratchet encrypt") r;
  Ok (frame header ct, prepared s peer_id state).

(** [fresh] and [fresh'] are the ratchet keys the first and the second attempt draw. *)
Definition prepare_decrypt s (fresh fresh' : bytes) me peer (wire : bytes) :
    result LogError (bytes * PreparedRatchet) :=
  '(header, ct) ← ok_or (unframe wire) (serialization_error "bad wire");
  let peer_id := user_id peer in
  let my_secret := (secret_bytes me).2 in
  let state := match store_get s peer_id with
               | Some st => st
               | None => init_bob (shared_root me peer) my_secret
               end in
  let established_receiving_chain := has_receiving_chain state in
  match ratchet_decrypt fresh state header ct with
  | (state, Ok pt) => Ok (pt, prepared s peer_id state)
  | (_, Err _) =>
      if negb established_receiving_chain && bool_decide (clt peer_id (user_id (public me))) then
        let '(state, r) :=
          ratchet_decrypt fresh' (init_bob (shared_root me peer) my_secret) header ct in
        pt ← map_err (λ _, serialization_error "ratchet decrypt") r;
        Ok (pt, prepared s peer_id state)
      else Err (serialization_error "ratchet decrypt")
  end.

Definition commit_prepared s io (p : PreparedRatchet) : Sto * result LogError () :=
  match ratchet_deserialize (pr_state p) with
  | None => (s, Err (serialization_error "invalid prepared ratchet"))
  | Some state =>
      let current := ratchet_serialize <$> store_get s (pr_peer p) in
      if decide (current = Some (pr_state p)) then (s, store_sync s io)
      else if decide (current ≠ pr_previous p)
      then (s, Err (serialization_error "stale prepared ratchet"))
      else store_put s io (pr_peer p) state
  end.

Definition dm_encrypt s io (fresh : bytes) me peer (plaintext : bytes) : Sto * result LogError bytes :=
  match prepare_encrypt s fresh me peer plaintext with
  | Err e => (s, Err e)
  | Ok (wire, p) =>
      match commit_prepared s io p with
      | (s, Err e) => (s, Err e)
      | (s, Ok _) => (s, Ok wire)
      end
  end.

Definition dm_decrypt s io (fresh fresh' : bytes) me peer (wire : bytes) : Sto * result LogError bytes :=
  match prepare_decrypt s fresh fresh' me peer wire with
  | Err e => (s, Err e)
  | Ok (plain, p) =>
      match commit_prepared s io p with
      | (s, Err e) => (s, Err e)
      | (s, Ok _) => (s, Ok plain)
      end
  end.

Definition has_session s peer : bool := bool_decide (is_Some (store_get s (user_id peer))).
End service.

(** ** Framing *)

Section framing.
Context `{Bincode Header, !BincodeLaws Header}.
(** A serialized header is far shorter than 64 KiB. *)
Context (header_size : ∀ h, type_wf h → (N.of_nat (length (header_encode h)) ≤ u16_max)%N).

Lemma unframe_frame h ct : type_wf h → unframe (frame h ct) = Some (h, ct).
Proof.
  intros Hwf. pose proof (header_size h Hwf) as Hsz. unfold unframe, frame.
  assert (length (be_bytes 2 (N.of_nat (length (header_encode h)))) = 2) as Hb by apply length_be_bytes.
  set (w := _ ++ _ ++ ct). assert (length w = 2 + length (header_encode h) + length ct) as Hw
    by (unfold w; rewrite !length_app, Hb; lia).
  rewrite decide_False by lia.
  assert (N.to_nat (be_value (take 2 w)) = length (header_encode h)) as ->.
  { unfold w. rewrite take_app_length', be_value_be_bytes by done || (cbn; unfold u16_max in Hsz; lia). lia. }
  rewrite decide_False by lia. unfold w.
  rewrite (drop_app_length' _ _ 2), take_app_length by done.
  change (header_decode (header_encode h)) with (de (A := Header) (ser h)).
  rewrite de_ser by done. cbn [mbind option_bind]. do 2 f_equal.
  rewrite app_assoc. apply drop_app_length'. by rewrite length_app, Hb.
Qed.
End framing.

(** ** Prepare and commit *)

Section commit.
Context `{Crypto, Bincode Header, Bincode RatchetWire, !BincodeLaws RatchetWire}.
Context `{SessionStore Sto IO, !SessionStoreLaws Sto IO}.
Implicit Types (s : Sto) (io : IO) (st : RatchetState) (peer : bytes).

Definition restored st : RatchetState := ratchet_unwire (ratchet_wire st).

Lemma deserialize_serialize st :
  type_wf (ratchet_wire st) → ratchet_deserialize (ratchet_serialize st) = Some (restored st).
Proof. intros Hwf. unfold ratchet_deserialize, ratchet_serialize. by rewrite de_ser. Qed.

Lemma serialize_restored st : ratchet_serialize (restored st) = ratchet_serialize st.
Proof. unfold ratchet_serialize, restored. by rewrite wire_restored. Qed.

(** Equal bytes of typed states are equal restored states. *)
Lemma serialize_inj st st' :
  type_wf (ratchet_wire st) → type_wf (ratchet_wire st') →
  ratchet_serialize st = ratchet_serialize st' → restored st = restored st'.
Proof.
  intros Hwf Hwf' He. pose proof (deserialize_serialize st Hwf) as Hd.
  rewrite He, deserialize_serialize in Hd by done. congruence.
Qed.

Lemma commit_spec s io peer st :
  (∀ cur, store_get s peer = Some cur → type_wf (ratchet_wire cur)) → type_wf (ratchet_wire st) →
  let '(s', r) := commit_prepared s io (prepared s peer st) in
  match r with
  | Ok _ => store_get s' peer = Some (restored st)
  | Err e => store_get s' peer = store_get s peer ∧
      (store_sync s io = Err e ∨ (store_put s io peer (restored st)).2 = Err e)
  end.
Proof.
  intros Hcur Hwf. unfold commit_prepared. cbn [prepared pr_state pr_peer pr_previous].
  rewrite deserialize_serialize by done. case_decide as Hsame.
  - destruct (store_get s peer) as [cur|] eqn:Hg; [|done]. injection Hsame as Hsame.
    destruct (store_sync s io) as [[]|e] eqn:Hs; [|by split; [|left]]. f_equal.
    rewrite <-(serialize_inj cur st) by eauto. destruct (get_restored s peer cur Hg) as [w ->].
    symmetry. apply ratchet_unwire_idem.
  - rewrite decide_False by tauto.
    destruct (store_put s io peer (restored st)) as [s' [[]|e]] eqn:Hp.
    + by rewrite (put_get _ _ _ _ _ Hp), serialize_restored, deserialize_serialize.
    + rewrite (put_err_get _ _ _ _ _ _ Hp). by split; [|right].
Qed.

Lemma commit_other s io p other :
  other ≠ pr_peer p → store_get (commit_prepared s io p).1 other = store_get s other.
Proof.
  intros Hne. unfold commit_prepared. destruct (ratchet_deserialize _) as [st|]; [|done].
  repeat (case_decide; [done|]). destruct (store_put s io (pr_peer p) st) as [s' r] eqn:Hp.
  by apply (put_get_ne _ _ _ _ _ _ _ Hp).
Qed.

Lemma commit_err_get s io p s' e peer :
  commit_prepared s io p = (s', Err e) → store_get s' peer = store_get s peer.
Proof.
  intros Hc. destruct (decide (peer = pr_peer p)) as [->|Hne];
    [|by rewrite <-(commit_other s io p peer Hne), Hc].
  unfold commit_prepared in Hc. destruct (ratchet_deserialize _) as [st|]; [|by injection Hc as <-].
  case_decide; [by injection Hc as <- _|]. case_decide; [by injection Hc as <- _|].
  by eapply put_err_get.
Qed.

(** Encryption through the store. *)
Lemma dm_encrypt_spec s io fresh me (peer : PublicIdentity) pt s' r :
  let st0 := default (init_alice fresh (shared_root me peer) (x25519_pub peer))
               (store_get s (user_id peer)) in
  (∀ cur, store_get s (user_id peer) = Some cur → type_wf (ratchet_wire cur)) →
  type_wf (ratchet_wire (ratchet_encrypt st0 pt).1) →
  dm_encrypt s io fresh me peer pt = (s', r) →
  match r with
  | Ok wire => ∃ st' h ct, ratchet_encrypt st0 pt = (st', Ok (h, ct)) ∧ wire = frame h ct ∧
      store_get s' (user_id peer) = Some (restored st')
  | Err _ => store_get s' (user_id peer) = store_get s (user_id peer)
  end.
Proof.
  intros st0 Hcur Hwf. unfold dm_encrypt, prepare_encrypt.
  change (match store_get s (user_id peer) with Some st => st | None => _ end) with st0.
  destruct (ratchet_encrypt st0 pt) as [st' [[h ct]|e]]; cbn; [|by intros [= <- <-]].
  pose proof (commit_spec s io (user_id peer) st' Hcur Hwf) as Hc.
  destruct (commit_prepared s io _) as [s1 [[]|e]] eqn:Hcm; intros [= <- <-]; [|by apply Hc].
  by exists st', h, ct.
Qed.

Lemma dm_decrypt_err_get s io f f' me (peer : PublicIdentity) wire s' e :
  dm_decrypt s io f f' me peer wire = (s', Err e) →
  store_get s' (user_id peer) = store_get s (user_id peer).
Proof.
  unfold dm_decrypt. destruct (prepare_decrypt _ _ _ _ _ _) as [[plain p]|e']; [|by intros [= <- _]].
  destruct (commit_prepared s io p) as [s1 [[]|e1]] eqn:Hc; [done|]. intros [= <- _].
  by eapply commit_err_get.
Qed.

(** Committing a prepared ratchet step is a compare-and-swap that a journal may
    replay.  After a successful commit the stored session serializes to the
    prepared bytes; committing the same step again writes nothing and only asks for
    a sync; and a different step prepared from the same predecessor is refused and
    changes nothing, so two messages prepared from one state, which would use the
    same message key, are never both committed. *)
Lemma commit_prepared_cas s io io' p s' st :
  type_wf (ratchet_wire st) → pr_state p = ratchet_serialize st →
  commit_prepared s io p = (s', Ok ()) →
  ratchet_serialize <$> store_get s' (pr_peer p) = Some (pr_state p) ∧
  commit_prepared s' io' p = (s', store_sync s' io') ∧
  ∀ q, pr_peer q = pr_peer p → pr_previous q = pr_previous p → pr_state q ≠ pr_state p →
    pr_previous p ≠ Some (pr_state p) → is_Some (ratchet_deserialize (pr_state q)) →
    commit_prepared s' io' q = (s', Err (serialization_error "stale prepared ratchet")).
Proof.
  intros Hwf Hst Hc. assert (ratchet_serialize <$> store_get s' (pr_peer p) = Some (pr_state p)) as Hg.
  { unfold commit_prepared in Hc. rewrite Hst, deserialize_serialize in Hc by done.
    case_decide as Hsame; [injection Hc as <- _; by rewrite Hsame, Hst|]. case_decide; [done|].
    rewrite (put_get _ _ _ _ _ Hc), serialize_restored, deserialize_serialize by done. cbn.
    by rewrite serialize_restored, Hst. }
  split; [done|]. split.
  - unfold commit_prepared. rewrite Hg, Hst, deserialize_serialize, decide_True by done. done.
  - intros q Hpeer Hprev Hne Hnew [stq Hq]. unfold commit_prepared.
    rewrite Hq, Hpeer, Hg. rewrite decide_False by congruence. by rewrite decide_True by congruence.
Qed.
End commit.

(** ** Two devices

    [true] is the device whose first message starts the session, [false] the other.
    The second device may also write before it has heard from the first
    ([ds_early]); the tie-break then keeps the first device's session if its id is
    the smaller one. *)

Record dm_world (Sto : Type) := MkDm {
  dw_store : bool → Sto;
  dw_mail : bool → list (bytes * bytes);  (** wires in flight with their plaintexts *)
  dw_used : gset bytes
}.
Arguments MkDm {Sto} _ _ _.
Arguments dw_store {Sto} _ _.
Arguments dw_mail {Sto} _ _.
Arguments dw_used {Sto} _.

Section devices.
Context `{Crypto, !CryptoLaws, Bincode Header, !BincodeLaws Header}.
Context `{Bincode RatchetWire, !BincodeLaws RatchetWire}.
Context `{SessionStore Sto IO, !SessionStoreLaws Sto IO}.
Context (header_size : ∀ h, type_wf h → (N.of_nat (length (header_encode h)) ≤ u16_max)%N).
Context (alice bob : DeviceIdentity).
Implicit Types (d : dm_world Sto) (w : world) (io : IO) (st : RatchetState).

Definition who (s : bool) : DeviceIdentity := if s then alice else bob.
Definition peer_of (s : bool) : PublicIdentity := public (who (negb s)).
Definition pid (s : bool) : bytes := user_id (peer_of s).
Definition root : bytes := shared_root alice (public bob).
Definition bob_start : RatchetState := init_bob root (dh_secret bob).

Definition stored d (s : bool) : option RatchetState := store_get (dw_store d s) (pid s).

(** The session a message to [s] is decrypted with, and the key it then draws. *)
Definition session d (s : bool) : RatchetState :=
  match stored d s with
  | Some st => if s || has_receiving_chain st then st else bob_start
  | None => bob_start
  end.
Definition draw d (s : bool) (f f' : bytes) : bytes :=
  match stored d s with
  | Some st => if s || has_receiving_chain st then f else f'
  | None => f
  end.

(** The header is within the receiver's limits, the key drawn is new, and a session
    the second device started itself does not open the message. *)
Definition deliverable d (s : bool) (f f' : bytes) (h : Header) (ct : bytes) : Prop :=
  within_limits (session d s) h ∧ (x25519_public (draw d s f f') ∉ dw_used d) ∧
  ∀ st, s = false → stored d s = Some st → has_receiving_chain st = false →
    is_ok (ratchet_decrypt f st h ct).2 = false.

Inductive dm_step d : dm_world Sto → Prop :=
  | ds_send s io fresh pt st sto' wire :
      stored d s = Some st → s || has_receiving_chain st = true → (ns st < u32_max)%N →
      type_wf (ratchet_wire (ratchet_encrypt st pt).1) →
      dm_encrypt (dw_store d s) io fresh (who s) (peer_of s) pt = (sto', Ok wire) →
      dm_step d (MkDm (upd (dw_store d) s sto')
        (upd (dw_mail d) s ((wire, pt) :: dw_mail d s)) (dw_used d))
  | ds_early io fresh pt sto' r :
      clt (user_id (public alice)) (user_id (public bob)) →
      (∀ st, stored d false = Some st → has_receiving_chain st = false) →
      type_wf (ratchet_wire (ratchet_encrypt (default (init_alice fresh root
        (x25519_pub (public alice))) (stored d false)) pt).1) →
      dm_encrypt (dw_store d false) io fresh bob (public alice) pt = (sto', r) →
      dm_step d (MkDm (upd (dw_store d) false sto') (dw_mail d) (dw_used d))
  | ds_deliver s io f f' wire plain l1 l2 h ct sto' r :
      dw_mail d (negb s) = l1 ++ (wire, plain) :: l2 → unframe wire = Some (h, ct) →
      deliverable d s f f' h ct →
      type_wf (ratchet_wire (ratchet_decrypt (draw d s f f') (session d s) h ct).1) →
      dm_decrypt (dw_store d s) io f f' (who s) (peer_of s) wire = (sto', Ok r) →
      dm_step d (MkDm (upd (dw_store d) s sto') (upd (dw_mail d) (negb s) (l1 ++ l2))
        ({[x25519_public (draw d s f f')]} ∪ dw_used d))
  | ds_refused s io f f' wire sto' e :
      dm_decrypt (dw_store d s) io f f' (who s) (peer_of s) wire = (sto', Err e) →
      dm_step d (MkDm (upd (dw_store d) s sto') (dw_mail d) (dw_used d))
  | ds_lose s x l1 l2 :
      dw_mail d s = l1 ++ x :: l2 →
      dm_step d (MkDm (dw_store d) (upd (dw_mail d) s (l1 ++ l2)) (dw_used d))
  | ds_reopen s sto' :
      store_get sto' (pid s) = stored d s →
      dm_step d (MkDm (upd (dw_store d) s sto') (dw_mail d) (dw_used d)).

(** From the first message of [true], whose session drew the key [a]. *)
Inductive dm_reach (a : bytes) : dm_world Sto → Prop :=
  | dr_first (store : bool → Sto) io pt sto' wire :
      (∀ s, store_get (store s) (pid s) = None) →
      x25519_public a ≠ x25519_public (dh_secret bob) →
      type_wf (ratchet_wire (ratchet_encrypt (init_alice a root (x25519_pub (public bob))) pt).1) →
      dm_encrypt (store true) io a alice (public bob) pt = (sto', Ok wire) →
      dm_reach a (MkDm (upd store true sto') (upd (λ _, []) true [(wire, pt)])
        {[x25519_public a; x25519_public (dh_secret bob)]})
  | dr_step d d' : dm_reach a d → dm_step d d' → dm_reach a d'.

Definition sent_as (p : packet) : bytes * bytes := (frame (p_header p) (p_ct p), p_plain p).

(** The services run the two-party session of the protocol. *)
Record simulates (a : bytes) d w : Prop := {
  sm_keys : x25519_public a ≠ x25519_public (dh_secret bob);
  sm_reach : rtc step (start root a (dh_secret bob)) w;
  sm_alice : stored d true = Some (party w true);
  sm_bob : session d false = party w false;
  sm_race st : stored d false = Some st → has_receiving_chain st = false →
    clt (user_id (public alice)) (user_id (public bob));
  sm_typed s st : stored d s = Some st → type_wf (ratchet_wire st);
  sm_mail s : dw_mail d s = sent_as <$> flight w s;
  sm_headers s p : p ∈ flight w s → type_wf (p_header p);
  sm_used : dw_used d = used w
}.

Lemma root_agrees : shared_root bob (public alice) = root.
Proof. unfold shared_root, root, shared_root. cbn [public x25519_pub secret_bytes snd]. by rewrite x25519_agree. Qed.

Lemma sim_session a d w s : simulates a d w → session d s = party w s.
Proof.
  intros Hs. destruct s; [|apply Hs]. unfold session. by rewrite (sm_alice _ _ _ Hs).
Qed.

Lemma sim_stored a d w s st :
  simulates a d w → stored d s = Some st → s || has_receiving_chain st = true → st = party w s.
Proof. intros Hs Hst Hb. rewrite <-(sim_session a d w s Hs). unfold session. by rewrite Hst, Hb. Qed.

Lemma encrypt_keeps_chain st pt : ckr (ratchet_encrypt st pt).1 = ckr st.
Proof.
  unfold ratchet_encrypt. destruct (cks st) as [ck|]; [|done]. destruct (kdf_ck ck).
  by destruct (aead_encrypt _ _ _).
Qed.

Lemma decrypt_gets_chain f st h ct st' pt :
  skipped st = ∅ ∨ is_Some (ckr st) → ratchet_decrypt f st h ct = (st', Ok pt) → is_Some (ckr st').
Proof.
  assert (∀ st h ct st' pt, decrypt_in_chain st h ct = (st', Ok pt) → is_Some (ckr st')) as Hin.
  { clear. intros st h ct st' pt. unfold decrypt_in_chain.
    destruct (skip_message_keys st (h_n h)) as [st1 [[]|]]; [|done].
    destruct (ckr st1) as [ck|]; [|done]. destruct (kdf_ck ck). intros [= <- _]. done. }
  intros Hor. unfold ratchet_decrypt. destruct (skipped st !! _) as [mk|] eqn:Hk.
  - intros [= <- _]. destruct Hor as [Hor|?]; [|done]. by rewrite Hor, lookup_empty in Hk.
  - case_decide; [by apply Hin|]. destruct (skip_message_keys st (h_pn h)) as [st1 [[]|]]; [|done].
    by apply Hin.
Qed.

(** A header made by a session is a value of its type. *)
Lemma sent_header_wf a d w s pt st' h ct :
  simulates a d w → ratchet_encrypt (party w s) pt = (st', Ok (h, ct)) →
  (ns (party w s) < u32_max)%N → type_wf h.
Proof.
  intros Hs He Hn. destruct (encrypt_spec _ _ _ _ _ He Hn) as (ck & _ & _ & -> & _).
  destruct (world_inv_reachable _ _ _ _ (sm_keys _ _ _ Hs) (sm_reach _ _ _ Hs)) as (_ & Hri & _).
  destruct (Hri s) as [Hkp _ _ _ _ _ Hpn]. split; cbn; [|split; [done|lia]].
  rewrite Hkp. apply x25519_public_length.
Qed.

(** One device replaces its session by [restored st']; the other is as before. *)
Lemma simulates_put a d w w' s sto' st' mail used' :
  simulates a d w →
  store_get sto' (pid s) = Some (restored st') → type_wf (ratchet_wire st') →
  s || has_receiving_chain st' = true →
  party w' s = st' → party w' (negb s) = party w (negb s) →
  rtc step (start root a (dh_secret bob)) w' →
  (∀ b, mail b = sent_as <$> flight w' b) → (∀ b p, p ∈ flight w' b → type_wf (p_header p)) →
  used' = used w' →
  simulates a (MkDm (upd (dw_store d) s sto') mail used')
    (MkWorld (upd (party w') s (restored st')) (flight w') (used w')).
Proof.
  intros Hs Hget Hwf Hb Hp Hpn Hreach Hmail Hhd Hused.
  assert (∀ b, stored (MkDm (upd (dw_store d) s sto') mail used') b =
    if decide (b = s) then Some (restored st') else stored d b) as Hst.
  { intros b. unfold stored. cbn [dw_store]. unfold upd. by case_decide; subst. }
  pose proof Hs as [Hk Hr Ha Hbo Hra Ht _ _ _]. split; cbn [party flight used dw_mail dw_used]; try done.
  - eapply rtc_r; [exact Hreach|]. pose proof (step_restore w' s) as Hstep. by rewrite Hp in Hstep.
  - rewrite Hst. destruct s; [done|]. rewrite decide_False by done.
    unfold upd. rewrite decide_False by done. cbn in Hpn. by rewrite Hpn.
  - unfold session. rewrite Hst. destruct s; cbn [orb] in *.
    + unfold upd. rewrite !decide_False by done. cbn [negb] in Hpn. rewrite Hpn. exact Hbo.
    + unfold upd. rewrite !decide_True by done.
      change (has_receiving_chain (restored st')) with (has_receiving_chain st'). by rewrite Hb.
  - intros st. rewrite Hst. case_decide as Hd; [|by eauto]. intros [= <-] Hno. subst s.
    cbn [orb] in Hb. change (has_receiving_chain (restored st')) with (has_receiving_chain st') in Hno. congruence.
  - intros b st. rewrite Hst. case_decide; [|by eauto]. intros [= <-]. unfold restored.
    by rewrite wire_restored.
Qed.

Lemma simulates_ext a d d' w :
  simulates a d w → (∀ b, stored d' b = stored d b) → dw_mail d' = dw_mail d →
  dw_used d' = dw_used d → simulates a d' w.
Proof.
  intros [] Hst Hm Hu. split; rewrite ?Hm, ?Hu; try done.
  - by rewrite Hst.
  - unfold session in *. by rewrite Hst.
  - intros st. rewrite Hst. eauto.
  - intros b st. rewrite Hst. eauto.
Qed.

Lemma stored_upd d s sto' mail used' b :
  stored (MkDm (upd (dw_store d) s sto') mail used') b =
  if decide (b = s) then store_get sto' (pid s) else stored d b.
Proof. unfold stored. cbn [dw_store]. unfold upd. by case_decide; subst. Qed.

Lemma simulates_same_store a d w s sto' :
  simulates a d w → store_get sto' (pid s) = stored d s →
  simulates a (MkDm (upd (dw_store d) s sto') (dw_mail d) (dw_used d)) w.
Proof.
  intros Hs Hget. apply (simulates_ext a d); try done. intros b. rewrite stored_upd.
  by case_decide; subst.
Qed.

Lemma prepare_decrypt_view a d w s f f' wire h ct st' plain :
  simulates a d w → unframe wire = Some (h, ct) → deliverable d s f f' h ct →
  ratchet_decrypt (draw d s f f') (session d s) h ct = (st', Ok plain) →
  prepare_decrypt (dw_store d s) f f' (who s) (peer_of s) wire =
    Ok (plain, prepared (dw_store d s) (pid s) st').
Proof.
  intros Hs Hun (_ & _ & Hforeign) Hd. unfold prepare_decrypt. rewrite Hun. cbn [ok_or mbind result_bind].
  fold (pid s). unfold session, draw in Hd. fold (stored d s). destruct (stored d s) as [st|] eqn:Hst.
  - destruct (s || has_receiving_chain st) eqn:Hb; [by rewrite Hd|].
    apply orb_false_iff in Hb as [-> Hb]. specialize (Hforeign st eq_refl eq_refl Hb).
    destruct (ratchet_decrypt f st h ct) as [st1 [?|e]]; [done|]. rewrite Hb.
    rewrite bool_decide_true by apply (sm_race _ _ _ Hs st Hst Hb). cbn [negb andb].
    change (init_bob _ _) with (init_bob (shared_root bob (public alice)) (dh_secret bob)).
    rewrite root_agrees. fold bob_start. by rewrite Hd.
  - destruct s; [by rewrite (sm_alice _ _ _ Hs) in Hst|].
    change (init_bob _ _) with (init_bob (shared_root bob (public alice)) (dh_secret bob)).
    rewrite root_agrees. fold bob_start. by rewrite Hd.
Qed.

(** A wire in flight is the frame of a packet of the session. *)
Lemma mail_packet a d w s l1 l2 wire plain :
  simulates a d w → dw_mail d s = l1 ++ (wire, plain) :: l2 →
  ∃ k1 p k2, flight w s = k1 ++ p :: k2 ∧ l1 = sent_as <$> k1 ∧ l2 = sent_as <$> k2 ∧
    plain = p_plain p ∧ unframe wire = Some (p_header p, p_ct p).
Proof.
  intros Hs Hm. rewrite (sm_mail _ _ _ Hs) in Hm.
  apply fmap_app_inv in Hm as (k1 & k2 & -> & Hm & Hfl).
  symmetry in Hm. apply fmap_cons_inv in Hm as (p & k3 & Hp & -> & ->). injection Hp as -> ->.
  exists k1, p, k3. split_and!; try done. apply unframe_frame; [done|].
  apply (sm_headers _ _ _ Hs s). rewrite Hfl. set_solver.
Qed.

(** The ratchet decrypts a deliverable wire, and the session goes on. *)
Lemma deliver_wire a d w s f f' wire plain l1 l2 h ct :
  simulates a d w → dw_mail d (negb s) = l1 ++ (wire, plain) :: l2 →
  unframe wire = Some (h, ct) → deliverable d s f f' h ct →
  ∃ st' k1 k2, ratchet_decrypt (draw d s f f') (session d s) h ct = (st', Ok plain) ∧
    l1 ++ l2 = sent_as <$> (k1 ++ k2) ∧
    (∀ p, p ∈ k1 ++ k2 → p ∈ flight w (negb s)) ∧
    s || has_receiving_chain st' = true ∧
    rtc step (start root a (dh_secret bob))
      (MkWorld (upd (party w) s st') (upd (flight w) (negb s) (k1 ++ k2))
        ({[x25519_public (draw d s f f')]} ∪ used w)).
Proof.
  intros Hs Hm Hun (Hlim & Hfresh & _).
  destruct (mail_packet a d w (negb s) _ _ _ _ Hs Hm) as (k1 & p & k2 & Hfl & -> & -> & -> & Hun').
  rewrite Hun in Hun'. injection Hun' as -> ->.
  pose proof (world_inv_reachable _ _ _ _ (sm_keys _ _ _ Hs) (sm_reach _ _ _ Hs)) as (Hinv & _).
  rewrite (sim_session a d w s Hs) in *. rewrite (sm_used _ _ _ Hs) in Hfresh.
  destruct (deliver_spec w s p k1 k2 (draw d s f f') Hinv Hfl Hlim Hfresh) as (R' & Hd & _).
  exists R', k1, k2. split; [done|]. split; [by rewrite fmap_app|]. split; [rewrite Hfl; set_solver|].
  split; [|eapply rtc_r; [apply Hs|by eapply step_deliver]]. destruct s; [done|].
  apply bool_decide_true. eapply decrypt_gets_chain, Hd.
  rewrite <-(sm_bob _ _ _ Hs). unfold session. destruct (stored d false) as [st|]; [|by left].
  destruct (false || has_receiving_chain st) eqn:Hb; [right|by left].
  by apply bool_decide_eq_true in Hb.
Qed.

Lemma simulates_send a d w s io fresh pt st sto' wire :
  simulates a d w → stored d s = Some st → s || has_receiving_chain st = true →
  (ns st < u32_max)%N → type_wf (ratchet_wire (ratchet_encrypt st pt).1) →
  dm_encrypt (dw_store d s) io fresh (who s) (peer_of s) pt = (sto', Ok wire) →
  ∃ w', simulates a (MkDm (upd (dw_store d) s sto')
    (upd (dw_mail d) s ((wire, pt) :: dw_mail d s)) (dw_used d)) w'.
Proof.
  intros Hs Hst Hb Hn Hwf He. pose proof (sim_stored a d w s st Hs Hst Hb) as ->.
  apply dm_encrypt_spec in He as (st' & h & ct & He & -> & Hget).
  2: { intros cur. apply (sm_typed _ _ _ Hs s). }
  2: { fold (pid s) (stored d s). by rewrite Hst. }
  fold (pid s) (stored d s) in He, Hget. rewrite Hst in He. cbn in He.
  rewrite He in Hwf. cbn [fst] in Hwf.
  eexists. eapply (simulates_put a d w (MkWorld (upd (party w) s st')
    (upd (flight w) s (MkPacket h ct pt :: flight w s)) (used w)));
    [done|exact Hget|done|..]; cbn [party flight used].
  - pose proof (encrypt_keeps_chain (party w s) pt) as Hk. rewrite He in Hk. cbn in Hk.
    unfold has_receiving_chain in *. by rewrite Hk.
  - apply upd_eq.
  - apply upd_negb.
  - eapply rtc_r; [apply Hs|]. by eapply step_send.
  - intros b. rewrite (sm_mail _ _ _ Hs). unfold upd. case_decide; [done|apply Hs].
  - intros b p. unfold upd. case_decide; [|apply Hs]. intros [->|Hp]%elem_of_cons.
    + by eapply (sent_header_wf a d w s).
    + by eapply Hs.
  - apply Hs.
Qed.

Lemma simulates_early a d w io fresh pt sto' r :
  simulates a d w → clt (user_id (public alice)) (user_id (public bob)) →
  (∀ st, stored d false = Some st → has_receiving_chain st = false) →
  type_wf (ratchet_wire (ratchet_encrypt (default (init_alice fresh root
    (x25519_pub (public alice))) (stored d false)) pt).1) →
  dm_encrypt (dw_store d false) io fresh bob (public alice) pt = (sto', r) →
  simulates a (MkDm (upd (dw_store d) false sto') (dw_mail d) (dw_used d)) w.
Proof.
  intros Hs Hlt Hno Hwf He. rewrite <-root_agrees in Hwf.
  apply dm_encrypt_spec in He; [|intros cur; apply (sm_typed _ _ _ Hs false)|done].
  destruct r as [wire|e]; [|by apply simulates_same_store].
  destruct He as (st' & h & ct & He & _ & Hget). fold (pid false) in Hget.
  change (store_get _ _) with (stored d false) in He. rewrite He in Hwf. cbn [fst] in Hwf.
  assert (has_receiving_chain (restored st') = false) as Hno'.
  { pose proof (encrypt_keeps_chain (default (init_alice fresh (shared_root bob (public alice))
      (x25519_pub (public alice))) (stored d false)) pt) as Hk. rewrite He in Hk. cbn [fst] in Hk.
    change (has_receiving_chain (restored st')) with (has_receiving_chain st').
    unfold has_receiving_chain in *. rewrite Hk. destruct (stored d false) as [st|]; [by apply Hno|].
    cbn [default]. unfold init_alice. by destruct (kdf_rk _ _). }
  assert (∀ b, stored (MkDm (upd (dw_store d) false sto') (dw_mail d) (dw_used d)) b =
    if decide (b = false) then Some (restored st') else stored d b) as Hst
    by (intros b; rewrite stored_upd; by case_decide).
  destruct Hs. split; try done; rewrite ?Hst; try done.
  - unfold session in *. rewrite Hst. cbn [orb] in *. rewrite decide_True, Hno' by done.
    rewrite <-sm_bob0. destruct (stored d false) as [st|]; [|done]. by rewrite Hno.
  - intros b st. rewrite Hst. case_decide; [|by eauto]. intros [= <-]. unfold restored.
    by rewrite wire_restored.
Qed.

Lemma simulates_deliver a d w s io f f' wire plain l1 l2 h ct sto' r :
  simulates a d w → dw_mail d (negb s) = l1 ++ (wire, plain) :: l2 →
  unframe wire = Some (h, ct) → deliverable d s f f' h ct →
  type_wf (ratchet_wire (ratchet_decrypt (draw d s f f') (session d s) h ct).1) →
  dm_decrypt (dw_store d s) io f f' (who s) (peer_of s) wire = (sto', Ok r) →
  ∃ w', simulates a (MkDm (upd (dw_store d) s sto') (upd (dw_mail d) (negb s) (l1 ++ l2))
    ({[x25519_public (draw d s f f')]} ∪ dw_used d)) w'.
Proof.
  intros Hs Hm Hun Hdel Hwf Hd.
  destruct (deliver_wire a d w s f f' wire plain l1 l2 h ct Hs Hm Hun Hdel)
    as (st' & k1 & k2 & Hr & Hl & Hsub & Hb & Hreach).
  rewrite Hr in Hwf. cbn [fst] in Hwf. unfold dm_decrypt in Hd.
  rewrite (prepare_decrypt_view a d w s f f' wire h ct st' plain Hs Hun Hdel Hr) in Hd.
  pose proof (commit_spec (dw_store d s) io (pid s) st' (sm_typed _ _ _ Hs s) Hwf) as Hc.
  destruct (commit_prepared _ _ _) as [sto1 [[]|e]]; [|done]. injection Hd as -> _.
  eexists. apply (simulates_put a d w (MkWorld (upd (party w) s st')
    (upd (flight w) (negb s) (k1 ++ k2)) ({[x25519_public (draw d s f f')]} ∪ used w)) s sto' st');
    try done; cbn [party flight used].
  - apply upd_eq.
  - apply upd_negb.
  - intros b. rewrite Hl. unfold upd. case_decide; [done|apply Hs].
  - intros b p. unfold upd. case_decide; [|apply Hs]. intros Hp. by eapply Hs, Hsub.
  - by rewrite (sm_used _ _ _ Hs).
Qed.

Lemma dm_step_simulates a d d' w : simulates a d w → dm_step d d' → ∃ w', simulates a d' w'.
Proof.
  intros Hs Hstep. destruct Hstep as [s io fresh pt st sto' wire Hst Hb Hn Hwf He
    |io fresh pt sto' r Hlt Hno Hwf He|s io f f' wire plain l1 l2 h ct sto' r Hm Hun Hdel Hwf Hd
    |s io f f' wire sto' e Hd|s [wire plain] l1 l2 Hm|s sto' Hget].
  - by eapply simulates_send.
  - exists w. by eapply simulates_early.
  - by eapply simulates_deliver.
  - exists w. apply simulates_same_store; [done|]. by apply dm_decrypt_err_get in Hd.
  - destruct (mail_packet a d w s _ _ _ _ Hs Hm) as (k1 & p & k2 & Hfl & -> & -> & _ & _).
    exists (MkWorld (party w) (upd (flight w) s (k1 ++ k2)) (used w)). pose proof Hs as [].
    split; cbn [party flight used dw_mail dw_used]; try done.
    + eapply rtc_r; [done|]. by eapply step_lose.
    + intros b. unfold upd. case_decide; [by rewrite fmap_app|apply Hs].
    + intros b q. unfold upd. case_decide; [|apply Hs]. intros Hq. apply (sm_headers0 s).
      rewrite Hfl. set_solver.
  - exists w. by apply simulates_same_store.
Qed.

Lemma dm_first_simulates a (store : bool → Sto) io pt sto' wire :
  (∀ s, store_get (store s) (pid s) = None) → x25519_public a ≠ x25519_public (dh_secret bob) →
  type_wf (ratchet_wire (ratchet_encrypt (init_alice a root (x25519_pub (public bob))) pt).1) →
  dm_encrypt (store true) io a alice (public bob) pt = (sto', Ok wire) →
  ∃ w, simulates a (MkDm (upd store true sto') (upd (λ _, []) true [(wire, pt)])
    {[x25519_public a; x25519_public (dh_secret bob)]}) w.
Proof.
  intros Hnone Hne Hwf He. set (w0 := start root a (dh_secret bob)).
  assert (store_get (store true) (user_id (public bob)) = None) as Hn by apply (Hnone true).
  apply dm_encrypt_spec in He as (st' & h & ct & He & -> & Hget); [|by rewrite Hn|by rewrite Hn].
  rewrite Hn in He. cbn in He. change (init_alice a _ _) with (party w0 true) in He, Hwf.
  rewrite He in Hwf. cbn [fst] in Hwf.
  assert (ns (party w0 true) = 0%N ∧ pn (party w0 true) = 0%N ∧
    dhs_public (party w0 true) = x25519_public a) as (Hns & Hpn & Hpub).
  { unfold w0. cbn [start party]. unfold init_alice. by destruct (kdf_rk _ _). }
  assert (ns (party w0 true) < u32_max)%N as Hlt by (rewrite Hns; done).
  destruct (encrypt_spec _ _ _ _ _ He Hlt) as (ck & _ & _ & Hh & _).
  exists (MkWorld (upd (upd (party w0) true st') true (restored st'))
    (upd (flight w0) true [MkPacket h ct pt]) (used w0)).
  assert (∀ b, stored (MkDm (upd store true sto') (upd (λ _, []) true [(frame h ct, pt)])
    {[x25519_public a; x25519_public (dh_secret bob)]}) b = if b then Some (restored st') else None) as Hst
    by (intros []; [exact Hget|apply (Hnone false)]).
  split; try done.
  - eapply rtc_l; [by eapply (step_send w0 true)|]. apply rtc_once.
    refine (step_restore (MkWorld (upd (party w0) true st') _ _) true).
  - unfold session. by rewrite Hst.
  - intros st. by rewrite Hst.
  - intros [] st; rewrite Hst; [|done]. intros [= <-]. unfold restored. by rewrite wire_restored.
  - by intros [].
  - intros b p. cbn [flight]. unfold upd. case_decide; [|by intros ?%elem_of_nil].
    intros ->%list_elem_of_singleton. cbn [p_header]. rewrite Hh, Hns, Hpn, Hpub.
    split; [apply x25519_public_length|done].
Qed.

Lemma dm_simulated a d : dm_reach a d → ∃ w, simulates a d w.
Proof.
  induction 1 as [store io pt sto' wire Hnone Hne Hwf He|d d' _ [w Hw] Hstep].
  - by eapply dm_first_simulates.
  - by eapply dm_step_simulates.
Qed.

End devices.

Module DmRatchetWitness.
Import ToyCrypto Fixint RatchetCodec RatchetWitness RecordLogWitness StoreWitness.

#[export] Instance header_laws : BincodeLaws Header.
Proof.
  apply bincode_of_laws; [apply _|]. intros h (? & ? & ?).
  assert (∀ x, (x ≤ u32_max)%N → (x < 256 ^ N.of_nat 4)%N) as H32
    by (intros x Hx; change (256 ^ N.of_nat 4)%N with (u32_max + 1)%N; lia).
  cbn -[N.of_nat N.pow u32_max]. auto.
Qed.

Lemma header_short h : type_wf h → (N.of_nat (length (header_encode h)) ≤ u16_max)%N.
Proof.
  intros (Hp & _).
  change (header_encode h) with (ratchet_pub h ++ le_bytes 4 (h_pn h) ++ le_bytes 4 (h_n h)).
  rewrite !length_app, Hp, !length_le_bytes. done.
Qed.

Definition dev_a : DeviceIdentity := MkDeviceIdentity (key Byte.x0a) (key Byte.x0b).
Definition dev_b : DeviceIdentity := MkDeviceIdentity (key Byte.x0c) (key Byte.x0d).
Definition io0 : put_io * option bytes := (put0, None).
Definition stores (_ : bool) : RatchetSessions * bytes := (store0, disk0).

Definition first_run : (RatchetSessions * bytes) * result LogError bytes :=
  dm_encrypt (stores true) io0 (key Byte.x01) dev_a (public dev_b) (str "hi").
Definition wire1 : bytes := match first_run.2 with Ok wire => wire | Err _ => [] end.
Definition d1 : dm_world (RatchetSessions * bytes) :=
  MkDm (upd stores true first_run.1) (upd (λ _, []) true [(wire1, str "hi")])
    {[x25519_public (key Byte.x01); x25519_public (dh_secret dev_b)]}.

Definition opened1 : Header * bytes := default (MkHeader [] 0 0, []) (unframe wire1).

Lemma typed_by_computation st l :
  w_skipped (ratchet_wire st) = l → l = [] →
  length (dhs_secret st) = 32 → opt_len 32 (dhr st) → length (rk st) = 32 →
  opt_len 32 (cks st) → opt_len 32 (ckr st) → (ns st ≤ u32_max)%N → (nr st ≤ u32_max)%N →
  (pn st ≤ u32_max)%N → type_wf (ratchet_wire st).
Proof.
  intros Hl -> ? ? ? ? ? ? ? ?. unfold type_wf, RatchetWire_wf. rewrite Hl.
  split_and!; done.
Qed.

Ltac typed := eapply typed_by_computation; [vm_compute; reflexivity|reflexivity|..];
  vm_compute; first [reflexivity | discriminate].


Definition prepared0 : PreparedRatchet := prepared (stores true) (str "bob") alice0.

End DmRatchetWitness.
