(* ===== verification/Announce.v ===== *)
(** * Accounts, signed announcements and routed queries

    Models crates/mesh-talk-core/src/identity/account.rs (accounts and the
    certificates that bind devices to them), discovery/announce.rs (the signed
    announcement and its datagram) and discovery/query.rs (the nonce-bound
    first-contact query).  Instants and durations are nanoseconds. *)

From S2P Require Import Prelude Crypto Bincode Identity.

(** ** Accounts *)

Definition MAX_ACCOUNT_CREATED_AT_MS : N := 253402300799999.
Definition CERT_DOMAIN : bytes := str "mesh-talk-device-cert-v1".

Record AccountPublic := MkAccountPublic { ap_ed25519_pub : bytes }.

Record Account := MkAccount {
  ac_signing_key : bytes;
  ac_created_at_ms : option N
}.

Record DeviceCertificate := MkCert {
  account_ed25519_pub : bytes;
  device_ed25519_pub : bytes;
  dc_signature : bytes
}.

#[global] Instance DeviceCertificate_eq_dec : EqDecision DeviceCertificate.
Proof. solve_decision. Defined.

#[global] Instance DeviceCertificate_wf : TypeWf DeviceCertificate := λ c,
  length (account_ed25519_pub c) = 32 ∧ length (device_ed25519_pub c) = 32 ∧
  length (dc_signature c) = 64.

Section account.
Context `{Crypto, Bincode DeviceCertificate}.

Definition cert_message (account_pub device_pub : bytes) : bytes :=
  CERT_DOMAIN ++ account_pub ++ device_pub.

Definition account_id_of (p : AccountPublic) : bytes :=
  hex_encode (take 16 (sha256 (str "mesh-talk-account-v1" ++ ap_ed25519_pub p))).

(** [generate] on the bytes of the system generator and the clock in milliseconds. *)
Definition account_generate (secret : bytes) (now_ms : option N) : Account :=
  MkAccount secret
    (now_ms ≫= λ time, if decide (1 ≤ time ∧ time ≤ MAX_ACCOUNT_CREATED_AT_MS)%N
                       then Some time else None).

Definition account_from_secret_bytes (secret : bytes) : Account := MkAccount secret None.

Definition account_with_created_at (secret : bytes) (created_at_ms : option N) : option Account :=
  match created_at_ms with
  | Some time =>
      if decide (time = 0 ∨ MAX_ACCOUNT_CREATED_AT_MS < time)%N then None
      else Some (MkAccount secret created_at_ms)
  | None => Some (MkAccount secret created_at_ms)
  end.

Definition account_public (a : Account) : AccountPublic :=
  MkAccountPublic (ed25519_public (ac_signing_key a)).

Definition account_id (a : Account) : bytes := account_id_of (account_public a).

Definition account_sign (a : Account) (message : bytes) : bytes :=
  ed25519_sign (ac_signing_key a) message.

Definition certify (a : Account) (device_pub : bytes) : DeviceCertificate :=
  let account_pub := ap_ed25519_pub (account_public a) in
  let msg := cert_message account_pub device_pub in
  MkCert account_pub device_pub (ed25519_sign (ac_signing_key a) msg).

Definition cert_verify (c : DeviceCertificate) : bool :=
  let msg := cert_message (account_ed25519_pub c) (device_ed25519_pub c) in
  verify (account_ed25519_pub c) msg (dc_signature c).

Definition cert_account_id (c : DeviceCertificate) : bytes :=
  account_id_of (MkAccountPublic (account_ed25519_pub c)).

Definition cert_encode (c : DeviceCertificate) : bytes := ser c.
Definition cert_decode (bs : bytes) : option DeviceCertificate := de bs.
End account.

(** ** Announcements *)

Definition ANNOUNCE_DOMAIN : bytes := str "mesh-talk-announce-v1".
Definition ANNOUNCE_MAGIC : bytes := str "MTAN".
Definition CURRENT_VERSION : byte := Byte.x02.
Definition MIN_SUPPORTED_VERSION : byte := Byte.x02.
Definition MAX_NAME_BYTES : nat := 1024.

Record Announce := MkAnnounce {
  an_user_id : UserId;
  an_ed25519_pub : bytes;
  an_x25519_pub : bytes;
  an_name : bytes;
  an_tcp_port : N;
  an_post_office : bool;
  an_account_cert : option DeviceCertificate;
  an_sig : bytes
}.

#[global] Instance Announce_eq_dec : EqDecision Announce.
Proof. solve_decision. Defined.

#[global] Instance Announce_wf : TypeWf Announce := λ a,
  string_wf (an_user_id a) ∧ length (an_ed25519_pub a) = 32 ∧
  length (an_x25519_pub a) = 32 ∧ string_wf (an_name a) ∧
  (an_tcp_port a ≤ u16_max)%N ∧
  match an_account_cert a with Some c => type_wf c | None => True end ∧
  (N.of_nat (length (an_sig a)) ≤ u64_max)%N.

Section announce.
Context `{Crypto, Bincode Announce}.

(** The [len() as u32] prefix keeps the low 32 bits. *)
Definition announce_signing_input (user_id ed_pub x_pub name : bytes) (tcp_port : N)
    (post_office : bool) (account_pub : option bytes) : bytes :=
  ANNOUNCE_DOMAIN ++ be_bytes 4 (N.of_nat (length user_id)) ++ user_id ++ ed_pub ++ x_pub ++
  be_bytes 4 (N.of_nat (length name)) ++ name ++ be_bytes 2 tcp_port ++
  [if post_office then Byte.x01 else Byte.x00] ++
  match account_pub with
  | Some pk => be_bytes 4 (N.of_nat (length pk)) ++ pk
  | None => be_bytes 4 0
  end.

Definition new_with_role (identity : DeviceIdentity) (name : bytes) (tcp_port : N)
    (post_office : bool) (account : option Account) : Announce :=
  let public := public identity in
  let user_id := user_id public in
  let account_cert := (λ a, certify a (ed25519_pub public)) <$> account in
  let account_pub := account_ed25519_pub <$> account_cert in
  let sig := sign identity (announce_signing_input user_id (ed25519_pub public)
               (x25519_pub public) name tcp_port post_office account_pub) in
  MkAnnounce user_id (ed25519_pub public) (x25519_pub public) name tcp_port post_office
    account_cert sig.

Definition announce_new identity name tcp_port := new_with_role identity name tcp_port false None.
Definition announce_new_post_office identity name tcp_port :=
  new_with_role identity name tcp_port true None.
Definition announce_new_with_account identity account name tcp_port :=
  new_with_role identity name tcp_port false (Some account).
Definition announce_new_post_office_with_account identity account name tcp_port :=
  new_with_role identity name tcp_port true (Some account).

(** The bytes an announcement's signature covers. *)
Definition announce_signed (a : Announce) : bytes :=
  announce_signing_input (an_user_id a) (an_ed25519_pub a) (an_x25519_pub a) (an_name a)
    (an_tcp_port a) (an_post_office a) (account_ed25519_pub <$> an_account_cert a).

Definition announce_verify (a : Announce) : bool :=
  if decide (an_user_id a ≠ user_id_from (an_ed25519_pub a)) then false
  else if match an_account_cert a with
          | Some cert =>
              bool_decide (device_ed25519_pub cert ≠ an_ed25519_pub a) || negb (cert_verify cert)
          | None => false
          end then false
  else if decide (length (an_sig a) ≠ 64) then false
  else verify (an_ed25519_pub a) (announce_signed a) (an_sig a).

Definition valid_presence (a : Announce) : bool :=
  bool_decide (an_tcp_port a ≠ 0%N) && bool_decide (length (an_name a) ≤ MAX_NAME_BYTES) &&
  announce_verify a.

Definition announce_public (a : Announce) : PublicIdentity :=
  MkPublicIdentity (an_ed25519_pub a) (an_x25519_pub a).

Definition announce_account_id (a : Announce) : option bytes :=
  cert_account_id <$> an_account_cert a.

Definition encode_v2 (a : Announce) : bytes := ser a.
Definition decode_v2 (body : bytes) : option Announce := de body.

Definition announce_encode (a : Announce) : bytes :=
  ANNOUNCE_MAGIC ++ [CURRENT_VERSION] ++ encode_v2 a.

Definition announce_decode (data : bytes) : option Announce :=
  if decide (length data < 5 ∨ take 4 data ≠ ANNOUNCE_MAGIC) then None
  else
    version ← data !! 4;
    if decide ((Byte.to_N MIN_SUPPORTED_VERSION ≤ Byte.to_N version)%N ∧
               (Byte.to_N version ≤ Byte.to_N CURRENT_VERSION)%N) then
      if decide (version = Byte.x02) then decode_v2 (drop 5 data) else None
    else None.
End announce.

(** ** Routed queries *)

Definition QUERY_MAGIC : bytes := str "MTDQ".
Definition REPLY_MAGIC : bytes := str "MTDR".
Definition QUERY_VERSION : byte := Byte.x01.
Definition QUERY_SIZE : nat := 64.
Definition REPLY_HEADER : nat := 23.
Definition SIGNATURE_SIZE : nat := 64.
Definition MAX_ANNOUNCE : nat := 1600.
Definition SIGNING_DOMAIN : bytes := str "mesh-talk-discovery-response-v1".
Definition SECOND : N := 1000000000.
Definition QUERY_LIFETIME : N := (5 * SECOND)%N.
Definition MAX_PENDING : nat := 256.

Inductive IpAddr := V4 (octets : bytes) | V6 (octets : bytes).

#[global] Instance IpAddr_eq_dec : EqDecision IpAddr.
Proof. solve_decision. Defined.

#[global] Instance IpAddr_countable : Countable IpAddr.
Proof.
  refine (inj_countable' (λ a, match a with V4 o => inl o | V6 o => inr o end)
    (λ s, match s with inl o => V4 o | inr o => V6 o end) _).
  by intros [].
Defined.

Record QueryTracker := MkTracker { pending : gmap (IpAddr * bytes) N }.

Section query.
Context `{Crypto, Bincode Announce}.
Implicit Types (nonce : bytes) (now : N).

Definition encode_query nonce : bytes :=
  QUERY_MAGIC ++ [QUERY_VERSION] ++ nonce ++ replicate (QUERY_SIZE - 21) Byte.x00.

Definition decode_query (bs : bytes) : option bytes :=
  if decide (length bs ≠ QUERY_SIZE ∨ take 4 bs ≠ QUERY_MAGIC ∨ bs !! 4 ≠ Some QUERY_VERSION ∨
             Exists (λ b, b ≠ Byte.x00) (drop 21 bs)) then None
  else Some (take 16 (drop 5 bs)).

Definition query_signing_input nonce (announce : bytes) : bytes :=
  SIGNING_DOMAIN ++ nonce ++ announce.

Definition encode_response_signed nonce (announce : Announce) (public : PublicIdentity)
    (sign : bytes → bytes) : option bytes :=
  if negb (valid_presence announce) || bool_decide (announce_public announce ≠ public) then None
  else
    let body := announce_encode announce in
    if decide (MAX_ANNOUNCE < length body) then None
    else Some (REPLY_MAGIC ++ [QUERY_VERSION] ++ nonce ++ be_bytes 2 (N.of_nat (length body)) ++
               body ++ sign (query_signing_input nonce body)).

Definition encode_response nonce (announce : Announce) (identity : DeviceIdentity) : option bytes :=
  encode_response_signed nonce announce (public identity) (sign identity).

Definition decode_response (bs expected_nonce : bytes) : option Announce :=
  if decide (length bs < REPLY_HEADER + SIGNATURE_SIZE ∨
             REPLY_HEADER + MAX_ANNOUNCE + SIGNATURE_SIZE < length bs ∨
             take 4 bs ≠ REPLY_MAGIC ∨ bs !! 4 ≠ Some QUERY_VERSION ∨
             take 16 (drop 5 bs) ≠ expected_nonce) then None
  else
    let len := N.to_nat (be_value (take 2 (drop 21 bs))) in
    if decide (MAX_ANNOUNCE < len ∨ length bs ≠ REPLY_HEADER + len + SIGNATURE_SIZE) then None
    else
      let body := take len (drop REPLY_HEADER bs) in
      announce ← announce_decode body;
      if valid_presence announce then
        let signature := drop (REPLY_HEADER + len) bs in
        if verify (an_ed25519_pub announce) (query_signing_input expected_nonce body) signature
        then Some announce else None
      else None.

Definition record (t : QueryTracker) (ip : IpAddr) nonce now : QueryTracker * bool :=
  let p := filter (λ e, (now - e.2 ≤ QUERY_LIFETIME)%N) (pending t) in
  if decide (p !! (ip, nonce) = None ∧ MAX_PENDING ≤ size p) then (MkTracker p, false)
  else (MkTracker (<[(ip, nonce) := now]> p), true).

Definition accept_with_latency (t : QueryTracker) (ip : IpAddr) (bs : bytes) now :
    QueryTracker * option (Announce * N) :=
  if decide (length bs < 21) then (t, None)
  else
    let nonce := take 16 (drop 5 bs) in
    match pending t !! (ip, nonce) with
    | None => (t, None)
    | Some sent =>
        if decide (QUERY_LIFETIME < now - sent)%N
        then (MkTracker (delete (ip, nonce) (pending t)), None)
        else
          match decode_response bs nonce with
          | None => (t, None)
          | Some announce =>
              (MkTracker (delete (ip, nonce) (pending t)), Some (announce, (now - sent)%N))
          end
    end.

Definition accept (t : QueryTracker) (ip : IpAddr) (bs : bytes) now : QueryTracker * option Announce :=
  let '(t, r) := accept_with_latency t ip bs now in (t, fst <$> r).
End query.

(** ** Signatures *)

Section signatures.
Context `{Crypto, !CryptoLaws, Bincode Announce}.

Lemma certify_verifies (a : Account) device_pub :
  length (ac_signing_key a) = 32 → cert_verify (certify a device_pub) = true.
Proof.
  intros Hk. unfold cert_verify, certify. cbn.
  apply (verify_sign (MkDeviceIdentity (ac_signing_key a) (replicate 32 Byte.x00))). by split.
Qed.

Lemma new_with_role_verifies identity name port office account :
  type_wf identity → (∀ a, account = Some a → length (ac_signing_key a) = 32) →
  announce_verify (new_with_role identity name port office account) = true.
Proof.
  intros Hwf Hac. unfold announce_verify.
  rewrite decide_False by (cbn; tauto).
  assert (match an_account_cert (new_with_role identity name port office account) with
    | Some cert => bool_decide (device_ed25519_pub cert ≠
        an_ed25519_pub (new_with_role identity name port office account)) || negb (cert_verify cert)
    | None => false end = false) as ->.
  { destruct account as [a|]; [|done]. cbn. rewrite certify_verifies by auto.
    by rewrite bool_decide_false by tauto. }
  rewrite decide_False by (intros Hs; apply Hs, ed25519_sign_length).
  by apply verify_sign.
Qed.

(** A length-prefixed field in front of two tails. *)
Lemma prefixed_inj (x y u v : bytes) :
  (N.of_nat (length x) ≤ u32_max)%N → (N.of_nat (length y) ≤ u32_max)%N →
  be_bytes 4 (N.of_nat (length x)) ++ x ++ u = be_bytes 4 (N.of_nat (length y)) ++ y ++ v →
  x = y ∧ u = v.
Proof.
  intros Hx Hy He. apply app_inj_1 in He as [Hl He]; [|by rewrite !length_be_bytes].
  apply (f_equal be_value) in Hl. rewrite !be_value_be_bytes in Hl
    by (change (256 ^ N.of_nat 4)%N with (u32_max + 1)%N; lia).
  apply app_inj_1 in He; [done|lia].
Qed.

Lemma account_suffix_inj (p q : option bytes) :
  (∀ k, p = Some k → length k = 32) → (∀ k, q = Some k → length k = 32) →
  match p with Some pk => be_bytes 4 (N.of_nat (length pk)) ++ pk | None => be_bytes 4 0 end =
  match q with Some pk => be_bytes 4 (N.of_nat (length pk)) ++ pk | None => be_bytes 4 0 end →
  p = q.
Proof.
  intros Hp Hq. destruct p as [k|], q as [k'|]; [| | |done].
  - rewrite (Hp k), (Hq k') by done. intros He%app_inj_1; [|done]. by destruct He as [_ ->].
  - intros He. apply (f_equal length) in He. rewrite length_app, !length_be_bytes, (Hp k) in He by done. lia.
  - intros He. apply (f_equal length) in He. rewrite length_app, !length_be_bytes, (Hq k') in He by done. lia.
Qed.

(** An announcement's signature covers everything it claims: two acceptable
    announcements with the same signed bytes agree on the identity, both keys, the
    name, the port, the post-office role and the account key, so no field can be
    moved across a boundary and no certificate swapped under a given signature. *)
Lemma announce_signature_binds a b :
  type_wf a → type_wf b → valid_presence a = true → valid_presence b = true →
  announce_signed a = announce_signed b →
  an_user_id a = an_user_id b ∧ announce_public a = announce_public b ∧ an_name a = an_name b ∧
  an_tcp_port a = an_tcp_port b ∧ an_post_office a = an_post_office b ∧
  account_ed25519_pub <$> an_account_cert a = account_ed25519_pub <$> an_account_cert b.
Proof.
  assert (∀ x, type_wf x → valid_presence x = true →
    (N.of_nat (length (an_user_id x)) ≤ u32_max)%N ∧ (N.of_nat (length (an_name x)) ≤ u32_max)%N) as Hlen.
  { intros x Hwf Hv. unfold valid_presence in Hv. apply andb_true_iff in Hv as [Hv Hver].
    apply andb_true_iff in Hv as [_ Hn%bool_decide_eq_true]. unfold announce_verify in Hver.
    case_decide as Hid; [done|]. rewrite Hid. unfold user_id_from.
    rewrite hex_encode_length, length_take, sha256_length. unfold MAX_NAME_BYTES, u32_max in *.
    split; lia. }
  intros Hwa Hwb Hva Hvb. destruct (Hlen a Hwa Hva) as [Hua Hna], (Hlen b Hwb Hvb) as [Hub Hnb].
  destruct Hwa as (_ & Hea & Hxa & _ & Hpa & Hca & _), Hwb as (_ & Heb & Hxb & _ & Hpb & Hcb & _).
  unfold announce_signed, announce_signing_input. intros He. apply app_inv_head in He.
  apply prefixed_inj in He as [Hu He]; [|done..].
  apply app_inj_1 in He as [He1 He]; [|congruence]. apply app_inj_1 in He as [He2 He]; [|congruence].
  apply prefixed_inj in He as [Hn He]; [|done..].
  apply app_inj_1 in He as [Hp He]; [|by rewrite !length_be_bytes].
  apply (f_equal be_value) in Hp. rewrite !be_value_be_bytes in Hp
    by (change (256 ^ N.of_nat 2)%N with (u16_max + 1)%N; lia).
  apply app_inj_1 in He as [Hpo He]; [|done]. apply account_suffix_inj in He.
  2: { intros k. destruct (an_account_cert a); [|done]. intros [= <-]. apply Hca. }
  2: { intros k. destruct (an_account_cert b); [|done]. intros [= <-]. apply Hcb. }
  split_and!; try done; [unfold announce_public; congruence|].
  by destruct (an_post_office a), (an_post_office b).
Qed.
End signatures.

(** ** Datagrams and responses *)

Section datagrams.
Context `{Crypto, !CryptoLaws, Bincode Announce, !BincodeLaws Announce, !BincodeStrict Announce}.

Lemma announce_decode_encode a : type_wf a → announce_decode (announce_encode a) = Some a.
Proof.
  intros Hwf. unfold announce_decode, announce_encode.
  rewrite decide_False by (cbn; intros [?|?]; [lia|done]). cbn. by apply de_ser.
Qed.

Lemma announce_decode_exact data a :
  announce_decode data = Some a → type_wf a ∧ data = announce_encode a.
Proof.
  unfold announce_decode. case_decide as Hc; [done|]. destruct (data !! 4) as [v|] eqn:Hv; [|done].
  cbn [mbind option_bind]. case_decide; [|done]. case_decide as Hv2; [|done]. subst v.
  intros [Hwf Hser]%de_strict. split; [done|]. unfold announce_encode, encode_v2. rewrite Hser.
  apply Decidable.not_or in Hc as [Hlen Hm]; apply dec_stable in Hm. rewrite <-Hm.
  rewrite <-(take_drop 4 data) at 1. f_equal. by apply drop_S.
Qed.

(** The response that carries [a] under [nonce] with the signature [sg]. *)
Definition response (nonce : bytes) (a : Announce) (sg : bytes) : bytes :=
  REPLY_MAGIC ++ [QUERY_VERSION] ++ nonce ++
  be_bytes 2 (N.of_nat (length (announce_encode a))) ++ announce_encode a ++ sg.

Lemma response_parts nonce a sg :
  length nonce = 16 → length (announce_encode a) ≤ MAX_ANNOUNCE → length sg = SIGNATURE_SIZE →
  let bs := response nonce a sg in
  length bs = REPLY_HEADER + length (announce_encode a) + SIGNATURE_SIZE ∧
  take 4 bs = REPLY_MAGIC ∧ bs !! 4 = Some QUERY_VERSION ∧ take 16 (drop 5 bs) = nonce ∧
  N.to_nat (be_value (take 2 (drop 21 bs))) = length (announce_encode a) ∧
  drop REPLY_HEADER bs = announce_encode a ++ sg.
Proof.
  intros Hn Ha Hs bs. set (b := announce_encode a) in *.
  set (l := be_bytes 2 (N.of_nat (length b))). assert (length l = 2) as Hl by apply length_be_bytes.
  assert (drop 5 bs = nonce ++ l ++ b ++ sg) as H5 by done.
  assert (drop 21 bs = l ++ b ++ sg) as H21.
  { change 21 with (5 + 16). rewrite <-drop_drop, H5. by apply drop_app_length'. }
  split_and!; try done.
  - unfold bs, response. rewrite !length_app. fold b l. rewrite Hn, Hl, Hs. cbn. lia.
  - rewrite H5. by apply take_app_length'.
  - rewrite H21, take_app_length' by done. unfold l. rewrite be_value_be_bytes; [lia|].
    unfold MAX_ANNOUNCE in Ha. change (256 ^ N.of_nat 2)%N with 65536%N. lia.
  - change REPLY_HEADER with (21 + 2). rewrite <-drop_drop, H21. by apply drop_app_length'.
Qed.

(** A query is answered exactly by the responses that carry an acceptable
    announcement, name this query's nonce and are signed over both by the announced
    device: the decoder accepts those bytes, returns that announcement, and accepts
    nothing else — no other framing, length, version, nonce or trailing byte. *)
Lemma decode_response_exact bs nonce a :
  length nonce = 16 →
  decode_response bs nonce = Some a ↔
  ∃ sg, bs = response nonce a sg ∧ type_wf a ∧ valid_presence a = true ∧
    length (announce_encode a) ≤ MAX_ANNOUNCE ∧ length sg = SIGNATURE_SIZE ∧
    verify (an_ed25519_pub a) (query_signing_input nonce (announce_encode a)) sg = true.
Proof.
  intros Hn. split.
  - unfold decode_response. case_decide as Hc; [done|].
    apply Decidable.not_or in Hc as [Hlo Hc]. apply Decidable.not_or in Hc as [_ Hc].
    apply Decidable.not_or in Hc as [Hm Hc]. apply Decidable.not_or in Hc as [Hv Hc].
    apply dec_stable in Hm, Hv, Hc. set (len := N.to_nat _). case_decide as Hlen; [done|].
    apply Decidable.not_or in Hlen as [Hmax Hlen]. apply dec_stable in Hlen.
    destruct (announce_decode _) as [a'|] eqn:Hd; [|done]. cbn [mbind option_bind].
    destruct (valid_presence a') eqn:Hval; [|done]. destruct (verify _ _ _) eqn:Hver; [|done].
    intros [= ->]. apply announce_decode_exact in Hd as [Hwf Hbody]. rewrite Hbody in Hver.
    assert (length (announce_encode a) = len) as Hbl.
    { rewrite <-Hbody, length_take, length_drop. unfold REPLY_HEADER, SIGNATURE_SIZE in *. lia. }
    exists (drop (REPLY_HEADER + len) bs). split; [|split_and!; try done; [lia|]].
    + unfold response. rewrite <-Hbody at 2. rewrite Hbl.
      assert (be_bytes 2 (N.of_nat len) = take 2 (drop 21 bs)) as ->.
      { unfold len. rewrite N2Nat.id. apply be_bytes_value. rewrite length_take, length_drop.
        unfold REPLY_HEADER, SIGNATURE_SIZE in *. lia. }
      rewrite <-Hm, <-Hc, <-(drop_drop bs len REPLY_HEADER).
      rewrite (take_drop len (drop REPLY_HEADER bs)).
      change REPLY_HEADER with (21 + 2). rewrite <-(drop_drop bs 2 21), (take_drop 2).
      change 21 with (5 + 16). rewrite <-(drop_drop bs 16 5), (take_drop 16).
      cbn [app]. rewrite <-(drop_S _ _ _ Hv). by rewrite (take_drop 4).
    + rewrite length_drop. lia.
  - intros (sg & -> & Hwf & Hval & Hmax & Hsg & Hver).
    destruct (response_parts nonce a sg Hn Hmax Hsg) as (Hl & H4 & Hv & Hno & Hlen & Hd).
    unfold decode_response. rewrite Hl, H4, Hv, Hno, Hlen, Hd.
    rewrite decide_False by (unfold REPLY_HEADER, SIGNATURE_SIZE; intros [?|[?|[?|[?|?]]]]; lia || done).
    rewrite decide_False by (intros [?|?]; lia).
    rewrite take_app_length, announce_decode_encode by done. cbn [mbind option_bind]. rewrite Hval.
    rewrite <-drop_drop, Hd, drop_app_length, Hver. done.
Qed.

Lemma new_with_role_wf identity name port office account :
  type_wf identity → string_wf name → (port ≤ u16_max)%N →
  (∀ a, account = Some a → length (ac_signing_key a) = 32) →
  type_wf (new_with_role identity name port office account).
Proof.
  intros Hwf Hw Hp Hac. pose proof (public_wf identity Hwf) as [Hed Hx].
  unfold new_with_role. set (p := public identity) in *.
  split; [|split; [done|split; [done|split; [|split; [done|split]]]]];
    cbn [an_user_id an_name an_account_cert an_sig].
  - apply user_id_wf.
  - done.
  - destruct account as [a|]; [|done]. cbn [fmap option_fmap option_map].
    split; [|split]; cbn [certify account_ed25519_pub device_ed25519_pub dc_signature].
    + by apply ed25519_public_length, Hac.
    + done.
    + apply ed25519_sign_length.
  - unfold sign. rewrite ed25519_sign_length. done.
Qed.

(** What a device announces is what its peers learn.  The datagram of a new
    announcement, in any role and with or without an account, decodes to it; it
    verifies, names the device's keys and the account that certified it; and the
    device's answer to a query, whenever the announcement fits one, is accepted for
    that query's nonce. *)
Lemma announcement_published identity name port office account nonce :
  type_wf identity → string_wf name → length name ≤ MAX_NAME_BYTES → (0 < port ≤ u16_max)%N →
  (∀ a, account = Some a → length (ac_signing_key a) = 32) → length nonce = 16 →
  let a := new_with_role identity name port office account in
  announce_decode (announce_encode a) = Some a ∧ valid_presence a = true ∧
  announce_public a = public identity ∧ announce_account_id a = account_id <$> account ∧
  (length (announce_encode a) ≤ MAX_ANNOUNCE →
   ∃ bs, encode_response nonce a identity = Some bs ∧ decode_response bs nonce = Some a).
Proof.
  intros Hid Hw Hname [Hp0 Hp] Hac Hnonce a.
  pose proof (new_with_role_wf identity name port office account Hid Hw Hp Hac) as Hwf. fold a in Hwf.
  assert (valid_presence a = true) as Hval.
  { unfold valid_presence. rewrite bool_decide_true by (cbn; lia). rewrite bool_decide_true by done.
    by apply new_with_role_verifies. }
  split; [by apply announce_decode_encode|]. split; [done|]. split; [done|].
  split; [by destruct account|]. intros Hlen. unfold encode_response, encode_response_signed.
  rewrite Hval, bool_decide_false by (cbn; tauto). cbn [negb orb].
  rewrite decide_False by lia. eexists. split; [done|]. apply decode_response_exact; [done|].
  eexists. split; [done|]. split; [done|]. split; [done|]. split; [done|].
  split; [apply ed25519_sign_length|]. by apply verify_sign.
Qed.
End datagrams.

(** ** Solicited replies *)

Inductive tracker_event :=
  | Recorded (ip : IpAddr) (nonce : bytes) (at_time : N)
  | Accepted (ip : IpAddr) (nonce : bytes) (at_time : N).

Section tracker.
Context `{Crypto, Bincode Announce}.
Implicit Types (t : QueryTracker) (tr : list tracker_event).

(** A tracker with what it recorded and accepted, most recent first. *)
Inductive tracker_run : QueryTracker → list tracker_event → Prop :=
  | tr_start : tracker_run (MkTracker ∅) []
  | tr_record t tr ip nonce now :
      tracker_run t tr →
      tracker_run (record t ip nonce now).1
        (if (record t ip nonce now).2 then Recorded ip nonce now :: tr else tr)
  | tr_accept t tr ip bs now :
      tracker_run t tr →
      tracker_run (accept_with_latency t ip bs now).1
        match (accept_with_latency t ip bs now).2 with
        | Some _ => Accepted ip (take 16 (drop 5 bs)) now :: tr
        | None => tr
        end.

(** The query was recorded at [sent] and not accepted since. *)
Definition open_query tr ip nonce (sent : N) : Prop :=
  ∃ tr1 tr2, tr = tr1 ++ Recorded ip nonce sent :: tr2 ∧ ∀ now, Accepted ip nonce now ∉ tr1.

Lemma open_query_cons tr ip nonce sent e :
  open_query tr ip nonce sent → (∀ now, e ≠ Accepted ip nonce now) →
  open_query (e :: tr) ip nonce sent.
Proof.
  intros (tr1 & tr2 & -> & Hno) He. exists (e :: tr1), tr2. split; [done|].
  intros now [Heq|Hin]%elem_of_cons; [by eapply He|by eapply Hno].
Qed.

Lemma tracker_run_inv t tr :
  tracker_run t tr →
  size (pending t) ≤ MAX_PENDING ∧
  ∀ ip nonce sent, pending t !! (ip, nonce) = Some sent → open_query tr ip nonce sent.
Proof.
  induction 1 as [|t tr ip nonce now _ [Hsz IH]|t tr ip bs now _ [Hsz IH]].
  - cbn. split; [rewrite map_size_empty; unfold MAX_PENDING; lia|]. intros ip nonce sent. by rewrite lookup_empty.
  - unfold record. set (p := filter _ _).
    assert (size p ≤ MAX_PENDING) as Hp.
    { etrans; [|exact Hsz]. rewrite <-!size_dom. apply subseteq_size, subseteq_dom, map_filter_subseteq. }
    case_decide as Hc; cbn [fst snd pending].
    + split; [done|]. intros ip' nonce' sent Hs. apply IH. by eapply map_lookup_filter_Some in Hs as [? _].
    + split.
      * destruct (p !! (ip, nonce)) as [old|] eqn:Hold.
        -- rewrite map_size_insert, Hold. done.
        -- rewrite map_size_insert_None by done. unfold MAX_PENDING in *.
           destruct (decide (256 ≤ size p)); [exfalso; apply Hc; by split|]. lia.
      * intros ip' nonce' sent. destruct (decide ((ip', nonce') = (ip, nonce))) as [[= -> ->]|Hne].
        -- rewrite lookup_insert_eq. intros [= ->]. exists [], tr. split; [done|]. intros ? []%elem_of_nil.
        -- rewrite lookup_insert_ne by done. intros [Hs _]%map_lookup_filter_Some.
           apply open_query_cons; [by apply IH|done].
  - unfold accept_with_latency. case_decide; [by split|]. set (nonce := take 16 (drop 5 bs)).
    destruct (pending t !! (ip, nonce)) as [sent|] eqn:Hs; [|by split].
    assert (size (delete (ip, nonce) (pending t)) ≤ MAX_PENDING) as Hd
      by (rewrite map_size_delete, Hs; lia).
    case_decide; [|destruct (decode_response bs nonce); [|by split]]; cbn [fst snd pending].
    + split; [done|]. intros ip' nonce' sent' [_ ?]%lookup_delete_Some. by apply IH.
    + split; [done|]. intros ip' nonce' sent' [Hne ?]%lookup_delete_Some.
      apply open_query_cons; [by apply IH|]. intros now' [= -> ->]. done.
Qed.

(** C37: No reply is accepted unsolicited, late or twice.  Whatever was asked and
    received before, an accepted reply answers a query that was recorded for the
    same address and nonce, at most five seconds ago, with no reply to it accepted
    since; and the tracker never holds more than 256 open queries. *)
Theorem replies_solicited t tr ip bs now t' a latency :
  tracker_run t tr → accept_with_latency t ip bs now = (t', Some (a, latency)) →
  ∃ nonce sent, nonce = take 16 (drop 5 bs) ∧ open_query tr ip nonce sent ∧
    decode_response bs nonce = Some a ∧ latency = (now - sent)%N ∧ (latency ≤ QUERY_LIFETIME)%N ∧
    pending t' !! (ip, nonce) = None ∧ size (pending t) ≤ MAX_PENDING.
Proof.
  intros Hrun Hacc. destruct (tracker_run_inv t tr Hrun) as [Hsz Hopen].
  unfold accept_with_latency in Hacc. case_decide; [done|].
  destruct (pending t !! _) as [sent|] eqn:Hs; [|done]. case_decide; [done|].
  destruct (decode_response bs _) as [a'|] eqn:Hd; [|done]. injection Hacc as <- <- <-.
  exists (take 16 (drop 5 bs)), sent. split_and!; try done; [by apply Hopen|lia|]. apply lookup_delete_eq.
Qed.
End tracker.

Module AnnounceWitness.
Import ToyCrypto Fixint.

Definition cert_codec : codec DeviceCertificate :=
  c_iso (λ '(a, (d, s)), MkCert a d s)
    (λ c, (account_ed25519_pub c, (device_ed25519_pub c, dc_signature c)))
    (c_pair (c_arr 32) (c_pair (c_arr 32) (c_arr 64))).
#[export] Instance cert_codec_ok : CodecOk cert_codec.
Proof. apply c_iso_ok; [by intros []|by intros (?&?&?)|apply _]. Qed.

Definition announce_codec : codec Announce :=
  c_iso
    (λ '(u, (e, (x, (n, (p, (o, (c, s))))))), MkAnnounce u e x n p o c s)
    (λ a, (an_user_id a, (an_ed25519_pub a, (an_x25519_pub a, (an_name a,
       (an_tcp_port a, (an_post_office a, (an_account_cert a, an_sig a))))))))
    (c_pair c_string (c_pair (c_arr 32) (c_pair (c_arr 32) (c_pair c_string
      (c_pair (c_uint 2) (c_pair c_bool (c_pair (c_option cert_codec) c_bytes))))))).
#[export] Instance announce_codec_ok : CodecOk announce_codec.
Proof. apply c_iso_ok; [by intros []|by intros (?&?&?&?&?&?&?&?)|apply _]. Qed.
#[export] Instance announce_bincode : Bincode Announce := bincode_of announce_codec.

Lemma announce_cwf a : type_wf a ↔ cwf announce_codec a.
Proof.
  assert (∀ x, (x ≤ u16_max)%N ↔ (x < 256 ^ N.of_nat 2)%N) as H16
    by (intros x; change (256 ^ N.of_nat 2)%N with (u16_max + 1)%N; lia).
  destruct a as [u e x n p o [[ca cd cs]|] s]; unfold type_wf, Announce_wf;
    cbn -[N.of_nat N.pow u64_max u16_max]; rewrite H16; unfold type_wf, DeviceCertificate_wf; cbn; tauto.
Qed.
#[export] Instance announce_laws : BincodeLaws Announce.
Proof. apply bincode_of_laws; [apply _|]. intros a. apply announce_cwf. Qed.
#[export] Instance announce_strict : BincodeStrict Announce.
Proof. apply bincode_of_strict; [apply _|]. intros a. apply announce_cwf. Qed.

Definition key (b : byte) : bytes := b :: repeat Byte.x00 31.
Definition dev : DeviceIdentity := MkDeviceIdentity (key Byte.x01) (key Byte.x02).
Definition acc : Account := MkAccount (key Byte.x03) None.
Definition nonce1 : bytes := repeat Byte.x05 16.
Definition ann : Announce := new_with_role dev (str "desk") 7000 false (Some acc).
Definition ip1 : IpAddr := V4 [Byte.x0a; Byte.x00; Byte.x00; Byte.x01].
Definition reply : bytes := default [] (encode_response nonce1 ann dev).

Definition asked : QueryTracker := (record (MkTracker ∅) ip1 nonce1 100).1.

Lemma solicited_witness : ∃ nonce sent, open_query [Recorded ip1 nonce1 100] ip1 nonce sent.
Proof.
  destruct (replies_solicited asked [Recorded ip1 nonce1 100] ip1 reply 300
    (accept_with_latency asked ip1 reply 300).1 ann 200) as (nonce & sent & _ & Ho & _).
  - replace [Recorded ip1 nonce1 100] with
      (if (record (MkTracker ∅) ip1 nonce1 100).2 then Recorded ip1 nonce1 100 :: [] else [])
      by (vm_compute; reflexivity).
    apply tr_record, tr_start.
  - vm_compute. reflexivity.
  - exists nonce, sent. exact Ho.
Defined.
End AnnounceWitness.
