(* ===== verification/Transition.v ===== *)
(** * Account changes of one device

    Models crates/mesh-talk-core/src/identity/account_transition.rs: a device that
    moves from one account to another carries a transition that both account roots and
    the device itself have signed.  The nonce is an argument of [transition_create]. *)

From S2P Require Import Prelude Crypto Bincode Identity Announce.

Record AccountBindingTransition := MkTransition {
  tr_public : PublicIdentity;
  previous_certificate : DeviceCertificate;
  current_certificate : DeviceCertificate;
  previous_transition : option bytes;
  tr_nonce : bytes;
  old_signature : bytes;
  new_signature : bytes;
  device_signature : bytes
}.

#[global] Instance AccountBindingTransition_eq_dec : EqDecision AccountBindingTransition.
Proof. solve_decision. Defined.

#[global] Instance AccountBindingTransition_wf : TypeWf AccountBindingTransition := λ t,
  type_wf (tr_public t) ∧ type_wf (previous_certificate t) ∧ type_wf (current_certificate t) ∧
  match previous_transition t with Some p => length p = 32 | None => True end ∧
  length (tr_nonce t) = 32 ∧ (N.of_nat (length (old_signature t)) ≤ u64_max)%N ∧
  (N.of_nat (length (new_signature t)) ≤ u64_max)%N ∧
  (N.of_nat (length (device_signature t)) ≤ u64_max)%N.

Section transition.
Context `{Crypto, Bincode DeviceCertificate}.
Implicit Types t : AccountBindingTransition.

(** [role.len() as u8] of the three roles and of [id]. *)
Definition transition_message t (role : bytes) : bytes :=
  str "mesh-talk-account-binding-transition-v1" ++ [Byte.x01] ++
  [byte_of_N (N.of_nat (length role) mod 256)] ++ role ++
  ed25519_pub (tr_public t) ++ x25519_pub (tr_public t) ++
  cert_encode (previous_certificate t) ++ cert_encode (current_certificate t) ++
  [match previous_transition t with Some _ => Byte.x01 | None => Byte.x00 end] ++
  default (repeat Byte.x00 32) (previous_transition t) ++ tr_nonce t.

Definition with_signatures t (old new device : bytes) : AccountBindingTransition :=
  MkTransition (tr_public t) (previous_certificate t) (current_certificate t)
    (previous_transition t) (tr_nonce t) old new device.

Definition transition_create (nonce : bytes) (old new : Account) (device : DeviceIdentity)
    (previous : option bytes) : AccountBindingTransition :=
  let device_pub := ed25519_pub (public device) in
  let t := MkTransition (public device) (certify old device_pub) (certify new device_pub)
             previous nonce [] [] [] in
  let t := with_signatures t (account_sign old (transition_message t (str "old-root"))) [] [] in
  let t := with_signatures t (old_signature t)
             (account_sign new (transition_message t (str "new-root"))) [] in
  with_signatures t (old_signature t) (new_signature t)
    (sign device (transition_message t (str "device"))).

Definition role_signed t (public role signature : bytes) : bool :=
  bool_decide (length signature = 64) && verify public (transition_message t role) signature.

Definition transition_verify t : bool :=
  let old := previous_certificate t in
  let new := current_certificate t in
  if bool_decide (account_ed25519_pub old = account_ed25519_pub new) ||
     bool_decide (device_ed25519_pub old ≠ ed25519_pub (tr_public t)) ||
     bool_decide (device_ed25519_pub new ≠ ed25519_pub (tr_public t)) ||
     negb (cert_verify old) || negb (cert_verify new) then false
  else
    role_signed t (account_ed25519_pub old) (str "old-root") (old_signature t) &&
    role_signed t (account_ed25519_pub new) (str "new-root") (new_signature t) &&
    role_signed t (ed25519_pub (tr_public t)) (str "device") (device_signature t).

Definition length_prefixed (s : bytes) : bytes := be_bytes 8 (N.of_nat (length s)) ++ s.

Definition transition_id t : bytes :=
  sha256 (str "mesh-talk-account-binding-transition-id-v1" ++ transition_message t (str "id") ++
          length_prefixed (old_signature t) ++ length_prefixed (new_signature t) ++
          length_prefixed (device_signature t)).

Definition previous_account_id t : bytes := cert_account_id (previous_certificate t).
Definition current_account_id t : bytes := cert_account_id (current_certificate t).

Context `{!CryptoLaws}.

(** A change between two distinct accounts that both roots and the device authorize
    verifies, and names the two accounts. *)
Lemma transition_create_verifies nonce old new device previous :
  type_wf device → length (ac_signing_key old) = 32 → length (ac_signing_key new) = 32 →
  ed25519_public (ac_signing_key old) ≠ ed25519_public (ac_signing_key new) →
  let t := transition_create nonce old new device previous in
  transition_verify t = true ∧ previous_account_id t = account_id old ∧
  current_account_id t = account_id new ∧ tr_public t = public device ∧
  previous_transition t = previous.
Proof.
  intros Hd Ho Hn Hne. cbn zeta. split; [|done]. unfold transition_verify.
  cbn [transition_create with_signatures previous_certificate current_certificate tr_public
       old_signature new_signature device_signature].
  rewrite (bool_decide_eq_false_2 _ Hne), !bool_decide_eq_false_2 by (intros Hx; by apply Hx).
  rewrite !certify_verifies by done.
  cbn [orb negb]. rewrite !andb_true_iff. unfold role_signed.
  split_and!; (apply andb_true_iff; split;
    [apply bool_decide_eq_true_2; unfold account_sign, sign; auto with mesh|]).
  - apply (verify_sign (MkDeviceIdentity (ac_signing_key old) (repeat Byte.x00 32))); by split.
  - apply (verify_sign (MkDeviceIdentity (ac_signing_key new) (repeat Byte.x00 32))); by split.
  - by apply (verify_sign device).
Qed.

(** What a signature covers: the bytes signed determine the role of the signer, the
    device's keys, both certificates, the transition before this one and the nonce, so
    a signature made for one of them is none for another. *)
Lemma transition_message_binds `{BincodeFrom DeviceCertificate, !BincodeFromLaws DeviceCertificate}
    t1 t2 role1 role2 :
  type_wf t1 → type_wf t2 → length role1 < 256 → length role2 < 256 →
  transition_message t1 role1 = transition_message t2 role2 →
  role1 = role2 ∧ tr_public t1 = tr_public t2 ∧
  previous_certificate t1 = previous_certificate t2 ∧
  current_certificate t1 = current_certificate t2 ∧
  previous_transition t1 = previous_transition t2 ∧ tr_nonce t1 = tr_nonce t2.
Proof.
  intros ([He1 Hx1] & Hp1 & Hc1 & Hq1 & Hn1 & _) ([He2 Hx2] & Hp2 & Hc2 & Hq2 & Hn2 & _) Hr1 Hr2.
  unfold transition_message, cert_encode. intros [_ Hm]%app_inj_1; [|done].
  cbn [app] in Hm. injection Hm as Hlen Hm.
  apply (f_equal Byte.to_N) in Hlen. rewrite !N.mod_small, !to_N_byte_of_N in Hlen by lia.
  apply app_inj_1 in Hm as [-> Hm]; [|lia]. split; [done|].
  apply app_inj_1 in Hm as [Hed Hm]; [|by rewrite He1, He2].
  apply app_inj_1 in Hm as [Hxk Hm]; [|by rewrite Hx1, Hx2].
  apply ser_prefix_inj in Hm as [Hold Hm]; [|done..]. apply ser_prefix_inj in Hm as [Hnew Hm]; [|done..].
  split_and!; [by destruct (tr_public t1), (tr_public t2); cbn in *; subst|done..| |];
    destruct (previous_transition t1) as [q1|], (previous_transition t2) as [q2|]; cbn [default] in Hm;
    try (by injection Hm); injection Hm as Hm; apply app_inj_1 in Hm as [Hq Hm];
    first [done|by f_equal|by rewrite Hq1, Hq2].
Qed.
End transition.
