(* ===== verification/Framing.v ===== *)
(** * Frames on a byte stream

    Models crates/mesh-talk-core/src/transport/mod.rs (limits and errors) and the two
    framing functions of transport/channel.rs.  A stream delivers its bytes in
    fragments of any size, then ends: closed by the peer, or with an error. *)

From S2P Require Import Prelude.

Definition MAX_FRAME : N := 65535.
Definition MAX_PLAINTEXT : N := MAX_FRAME - 16.

(** The kinds of [std::io::Error] the code tells apart. *)
Inductive ErrorKind :=
  | UnexpectedEof | ConnectionReset | ConnectionAborted | BrokenPipe | NotConnected
  | InvalidData | OtherKind.

#[global] Instance ErrorKind_eq_dec : EqDecision ErrorKind.
Proof. solve_decision. Defined.

Record IoError := MkIoError { io_kind : ErrorKind; io_message : bytes }.

Inductive TransportError :=
  | Noise (m : bytes)
  | TransportIo (e : IoError)
  | FrameTooLarge (n : N)
  | PlaintextTooLarge (n : N)
  | MissingRemoteStatic
  | IdentityMismatch
  | UnexpectedPeer
  | AdmissionDenied
  | Serialization (m : bytes).

Definition transport_error_to_string (e : TransportError) : bytes :=
  match e with
  | Noise m => str "noise error: " ++ m
  | TransportIo e => str "io error: " ++ io_message e
  | FrameTooLarge n => str "frame too large: " ++ decimal n ++ str " bytes"
  | PlaintextTooLarge n => str "plaintext too large: " ++ decimal n ++ str " bytes"
  | MissingRemoteStatic => str "handshake produced no remote static key"
  | IdentityMismatch => str "peer identity authentication failed"
  | UnexpectedPeer => str "authenticated peer was not the expected one"
  | AdmissionDenied => str "peer admission denied"
  | Serialization m => str "serialization error: " ++ m
  end.

(** ** The stream *)

Record Incoming := MkIncoming { fragments : list bytes; ending : option IoError }.

(** [AsyncRead::read]: what is there, up to [max] bytes; nothing at the end. *)
Definition stream_read (s : Incoming) (max : nat) : Incoming * result IoError bytes :=
  match fragments s with
  | [] => (s, match ending s with Some e => Err e | None => Ok [] end)
  | f :: fs =>
      if decide (length f ≤ max) then (MkIncoming fs (ending s), Ok f)
      else (MkIncoming (drop max f :: fs) (ending s), Ok (take max f))
  end.

Definition early_eof : IoError := MkIoError UnexpectedEof (str "early eof").

(** [AsyncReadExt::read_exact]: every read returns a byte or ends the loop, so [want]
    rounds suffice. *)
Fixpoint read_exact_loop (fuel : nat) (s : Incoming) (want : nat) (got : bytes) :
    Incoming * result IoError bytes :=
  match fuel with
  | O => (s, Ok got)
  | S fuel =>
      if decide (want = 0) then (s, Ok got) else
      match stream_read s want with
      | (s, Err e) => (s, Err e)
      | (s, Ok []) => (s, Err early_eof)
      | (s, Ok bs) => read_exact_loop fuel s (want - length bs) (got ++ bs)
      end
  end.

Definition read_exact (s : Incoming) (n : nat) : Incoming * result IoError bytes :=
  read_exact_loop n s n [].

(** ** transport/channel.rs: frames *)

(** [len() as u32] keeps the low 32 bits. *)
Definition write_frame (blob : bytes) : bytes := be_bytes 4 (N.of_nat (length blob)) ++ blob.

Definition incomplete_frame (e : IoError) : IoError :=
  match io_kind e with
  | UnexpectedEof | ConnectionReset | ConnectionAborted | BrokenPipe | NotConnected =>
      MkIoError InvalidData (io_message e)
  | _ => e
  end.

Definition boundary_eof : IoError :=
  MkIoError UnexpectedEof (str "transport closed at frame boundary").

Definition read_frame (s : Incoming) : Incoming * result TransportError bytes :=
  match stream_read s 4 with
  | (s, Err e) => (s, Err (TransportIo e))
  | (s, Ok []) => (s, Err (TransportIo boundary_eof))
  | (s, Ok received) =>
      let '(s, rest) :=
        if decide (length received < 4) then read_exact s (4 - length received) else (s, Ok []) in
      match rest with
      | Err e => (s, Err (TransportIo (incomplete_frame e)))
      | Ok rest =>
          let len := be_value (received ++ rest) in
          if decide (MAX_FRAME < len)%N then (s, Err (FrameTooLarge len)) else
          match read_exact s (N.to_nat len) with
          | (s, Err e) => (s, Err (TransportIo (incomplete_frame e)))
          | (s, Ok buf) => (s, Ok buf)
          end
      end
  end.

(** ** What a frame is, on the bytes alone *)

Definition end_error (ending : option IoError) : IoError := default early_eof ending.

Definition frame_spec (bs : bytes) (ending : option IoError) : result TransportError (bytes * bytes) :=
  if decide (bs = []) then Err (TransportIo (default boundary_eof ending))
  else if decide (length bs < 4) then Err (TransportIo (incomplete_frame (end_error ending)))
  else
    let len := be_value (take 4 bs) in
    if decide (MAX_FRAME < len)%N then Err (FrameTooLarge len)
    else if decide (length bs - 4 < N.to_nat len)
    then Err (TransportIo (incomplete_frame (end_error ending)))
    else Ok (take (N.to_nat len) (drop 4 bs), drop (4 + N.to_nat len) bs).

(** Every fragment a stream delivers has a byte. *)
Definition delivering (s : Incoming) : Prop := Forall (λ f, f ≠ []) (fragments s).
Definition pending_bytes (s : Incoming) : bytes := concat (fragments s).

Lemma stream_read_some s max :
  delivering s → 0 < max → pending_bytes s ≠ [] →
  ∃ s' bs, stream_read s max = (s', Ok bs) ∧ bs ≠ [] ∧ length bs ≤ max ∧
    pending_bytes s = bs ++ pending_bytes s' ∧ delivering s' ∧ ending s' = ending s.
Proof.
  unfold stream_read, delivering, pending_bytes. destruct s as [[|f fs] e]; cbn; [done|].
  intros [Hf Hfs]%Forall_cons Hmax _. case_decide.
  - by exists (MkIncoming fs e), f.
  - exists (MkIncoming (drop max f :: fs) e), (take max f). split_and!; [done| | | | |done].
    + intros Ht%(f_equal length). rewrite length_take in Ht. cbn in Ht. lia.
    + rewrite length_take. lia.
    + cbn. by rewrite (assoc_L (++)), take_drop.
    + constructor; [|done]. intros Hd%(f_equal length). rewrite length_drop in Hd. cbn in Hd. lia.
Qed.

Lemma stream_read_none s max :
  delivering s → pending_bytes s = [] →
  stream_read s max = (s, match ending s with Some e => Err e | None => Ok [] end).
Proof.
  unfold stream_read, delivering, pending_bytes. destruct s as [[|f fs] e]; cbn; [done|].
  intros [Hf _]%Forall_cons [? _]%app_eq_nil. done.
Qed.

Lemma read_exact_loop_spec fuel s want got :
  delivering s → want ≤ fuel →
  (want ≤ length (pending_bytes s) → ∃ s',
     read_exact_loop fuel s want got = (s', Ok (got ++ take want (pending_bytes s))) ∧
     pending_bytes s' = drop want (pending_bytes s) ∧ delivering s' ∧ ending s' = ending s) ∧
  (length (pending_bytes s) < want → ∃ s',
     read_exact_loop fuel s want got = (s', Err (end_error (ending s)))).
Proof.
  revert s want got. induction fuel as [|fuel IH]; intros s want got Hd Hw; cbn [read_exact_loop].
  { split; [|lia]. intros _. assert (want = 0) as -> by lia. exists s. by rewrite take_0, app_nil_r. }
  case_decide as H0.
  { subst. split; [|lia]. intros _. exists s. by rewrite take_0, app_nil_r. }
  destruct (decide (pending_bytes s = [])) as [Hp|Hp].
  { rewrite stream_read_none, Hp by done. cbn [length]. split; [lia|]. intros _.
    exists s. by destruct (ending s). }
  destruct (stream_read_some s want Hd ltac:(lia) Hp) as (s' & bs & -> & Hne & Hlen & Heq & Hd' & He).
  assert (0 < length bs) by (destruct bs; [done|cbn; lia]).
  destruct (IH s' (want - length bs) (got ++ bs) Hd' ltac:(lia)) as [Hok Herr].
  destruct bs as [|b bs]; [done|]. set (r := b :: bs) in *. rewrite Heq, length_app. split.
  - intros Hle. destruct (Hok ltac:(lia)) as (s2 & -> & Hs2 & Hd2 & He2). exists s2.
    rewrite take_app_ge, (assoc_L (++)), drop_app_ge by lia. by rewrite He2.
  - intros Hlt. destruct (Herr ltac:(lia)) as [s2 ->]. exists s2. by rewrite He.
Qed.

(** Reading a frame depends on the bytes and on how they end, never on how they were cut
    into fragments. *)
Lemma read_frame_refines s :
  delivering s →
  match frame_spec (pending_bytes s) (ending s) with
  | Ok (blob, rest) => ∃ s', read_frame s = (s', Ok blob) ∧ pending_bytes s' = rest ∧
      delivering s' ∧ ending s' = ending s
  | Err e => ∃ s', read_frame s = (s', Err e)
  end.
Proof.
  intros Hd. unfold frame_spec, read_frame. case_decide as Hp.
  { rewrite stream_read_none by done. exists s. by destruct (ending s). }
  destruct (stream_read_some s 4 Hd ltac:(lia) Hp) as (s1 & r & -> & Hne & Hlen & Heq & Hd1 & He1).
  destruct r as [|b r]; [done|]. set (x := b :: r) in *. rewrite Heq, length_app.
  destruct (read_exact_loop_spec (4 - length x) s1 (4 - length x) [] Hd1 ltac:(lia)) as [Hok Herr].
  case_decide as Hshort.
  { rewrite decide_True by lia. unfold read_exact. destruct (Herr ltac:(lia)) as [s2 ->].
    exists s2. by rewrite He1. }
  assert (∃ s2, (if decide (length x < 4) then read_exact s1 (4 - length x) else (s1, Ok [])) =
            (s2, Ok (take (4 - length x) (pending_bytes s1))) ∧
          pending_bytes s2 = drop (4 - length x) (pending_bytes s1) ∧
          delivering s2 ∧ ending s2 = ending s1) as (s2 & -> & Hp2 & Hd2 & He2).
  { case_decide; [by apply Hok; lia|]. exists s1. replace (4 - length x) with 0 by lia.
    by rewrite take_0, drop_0. }
  replace (take 4 (x ++ pending_bytes s1)) with (x ++ take (4 - length x) (pending_bytes s1))
    by (rewrite take_app_ge by lia; done).
  set (len := be_value _). case_decide as Hmax; [by exists s2|].
  destruct (read_exact_loop_spec (N.to_nat len) s2 (N.to_nat len) [] Hd2 ltac:(lia)) as [Hok2 Herr2].
  rewrite Hp2, length_drop in *. unfold read_exact. case_decide as Hbody.
  { destruct (Herr2 ltac:(lia)) as [s3 ->]. exists s3. by rewrite He2, He1. }
  destruct (Hok2 ltac:(lia)) as (s3 & -> & Hp3 & Hd3 & He3). exists s3.
  rewrite !drop_app_ge, drop_drop in * by lia. split_and!; [do 2 f_equal|by rewrite Hp3; f_equal; lia|done|congruence].
Qed.

Lemma frame_spec_frame blob rest e :
  (N.of_nat (length blob) ≤ MAX_FRAME)%N →
  frame_spec (write_frame blob ++ rest) e = Ok (blob, rest).
Proof.
  intros Hb. unfold frame_spec, write_frame. rewrite <-(assoc_L (++)).
  pose proof (length_be_bytes 4 (N.of_nat (length blob))) as Hl.
  rewrite decide_False by (intros Hn%(f_equal length); rewrite length_app, Hl in Hn; cbn in Hn; lia).
  rewrite !length_app, Hl, decide_False by lia. rewrite take_app_length' by done.
  rewrite be_value_be_bytes by (apply u32_width; unfold MAX_FRAME, u32_max in *; lia).
  rewrite decide_False by lia. rewrite Nat2N.id, decide_False by lia.
  rewrite drop_app_length' by done. rewrite take_app_length, <-drop_drop, drop_app_length' by done.
  by rewrite drop_app_length.
Qed.

(** Reading as many frames as were written. *)
Fixpoint read_frames (n : nat) (s : Incoming) : Incoming * result TransportError (list bytes) :=
  match n with
  | O => (s, Ok [])
  | S n =>
      match read_frame s with
      | (s, Err e) => (s, Err e)
      | (s, Ok blob) => let '(s, r) := read_frames n s in (s, blobs ← r; Ok (blob :: blobs))
      end
  end.

(** Frames written one after the other come back one by one, however the transport cut
    them, and what follows them stays for the next read: a stream of frames is a queue
    of messages. *)
Lemma frames_delivered blobs rest s :
  delivering s → Forall (λ b, (N.of_nat (length b) ≤ MAX_FRAME)%N) blobs →
  pending_bytes s = (blobs ≫= write_frame) ++ rest →
  ∃ s', read_frames (length blobs) s = (s', Ok blobs) ∧ pending_bytes s' = rest ∧
    delivering s' ∧ ending s' = ending s.
Proof.
  revert s. induction blobs as [|b blobs IH]; intros s Hd Hb Hp; cbn [length read_frames].
  { by exists s. }
  apply Forall_cons in Hb as [Hb Hbs]. pose proof (read_frame_refines s Hd) as Hr.
  cbn in Hp. rewrite Hp, <-(assoc_L (++)), frame_spec_frame in Hr by done.
  destruct Hr as (s1 & -> & Hp1 & Hd1 & He1).
  destruct (IH s1 Hd1 Hbs Hp1) as (s2 & -> & Hp2 & Hd2 & He2). exists s2. split_and!; [done..|congruence].
Qed.
