(* ===== verification/Presence.v ===== *)
(** * Identity proofs of a connection

    Models crates/mesh-talk-core/src/transport/auth.rs (the signature that binds a device
    identity to one Noise session) and transport/presence_auth.rs (the optional account
    announcement, visibility flag and account transitions appended to it). *)

From S2P Require Import Prelude Crypto Bincode Identity Announce Transition Framing.

(** ** Wire types *)

Record AuthMessage := MkAuth { am_public : PublicIdentity; am_signature : bytes }.

Record Extension := MkExtension { ex_announce : bytes; ex_signature : bytes }.

Record TransitionExtension := MkTransitionExtension {
  te_announce : bytes;
  te_transitions : list AccountBindingTransition;
  te_signature : bytes
}.

(** The tuple [transition_context] serializes. *)
Record TransitionBody := MkBody {
  tb_announce : bytes;
  tb_transitions : list AccountBindingTransition;
  tb_visible : bool
}.

#[global] Instance AuthMessage_wf : TypeWf AuthMessage := λ m,
  type_wf (am_public m) ∧ (N.of_nat (length (am_signature m)) ≤ u64_max)%N.

#[global] Instance Extension_wf : TypeWf Extension := λ e,
  (N.of_nat (length (ex_announce e)) ≤ u64_max)%N ∧ (N.of_nat (length (ex_signature e)) ≤ u64_max)%N.

#[global] Instance TransitionExtension_wf : TypeWf TransitionExtension := λ e,
  (N.of_nat (length (te_announce e)) ≤ u64_max)%N ∧
  (N.of_nat (length (te_transitions e)) ≤ u64_max)%N ∧ Forall type_wf (te_transitions e) ∧
  (N.of_nat (length (te_signature e)) ≤ u64_max)%N.

#[global] Instance TransitionBody_wf : TypeWf TransitionBody := λ b,
  (N.of_nat (length (tb_announce b)) ≤ u64_max)%N ∧
  (N.of_nat (length (tb_transitions b)) ≤ u64_max)%N ∧ Forall type_wf (tb_transitions b).

(** The serializers of the exchange, and the text of bincode's size-limit error. *)
Class PresenceCodecs := {
  #[global] announce_codec_of :: Bincode Announce;
  #[global] announce_from :: BincodeFrom Announce;
  #[global] cert_codec_of :: Bincode DeviceCertificate;
  #[global] auth_bincode :: Bincode AuthMessage;
  #[global] auth_from :: BincodeFrom AuthMessage;
  #[global] extension_bincode :: Bincode Extension;
  #[global] transition_extension_bincode :: Bincode TransitionExtension;
  #[global] transition_body_bincode :: Bincode TransitionBody;
  size_limit_text : bytes
}.

Class PresenceLaws `{PresenceCodecs} := {
  #[global] announce_codec_laws :: BincodeLaws Announce;
  #[global] announce_codec_strict :: BincodeStrict Announce;
  #[global] announce_from_laws :: BincodeFromLaws Announce;
  #[global] auth_from_laws :: BincodeFromLaws AuthMessage;
  #[global] extension_laws :: BincodeLaws Extension;
  #[global] extension_strict :: BincodeStrict Extension;
  #[global] transition_extension_laws :: BincodeLaws TransitionExtension;
  #[global] transition_extension_strict :: BincodeStrict TransitionExtension;
  #[global] transition_body_laws :: BincodeLaws TransitionBody;
  (** Two keys and a signature, with at most a length prefix each. *)
  auth_message_size m :
    type_wf m → length (am_signature m) = 64 → length (ser m) ≤ 256
}.

Definition AUTH_DOMAIN : bytes := str "mesh-talk-transport-auth-v1".
Definition PRESENCE_MAGIC : bytes := str "MTPA".
Definition VERSION : byte := Byte.x01.
Definition PRIVATE_VERSION : byte := Byte.x02.
Definition MAX_EXTENSION : N := 16 * 1024.
Definition MAX_TRANSITIONS : nat := 8.
Definition PRESENCE_DOMAIN : bytes := str "mesh-talk-transport-presence-v1".

Record VerifiedPeer := MkPeer {
  vp_public : PublicIdentity;
  vp_announcement : option Announce;
  vp_publicly_visible : bool;
  vp_transitions : list AccountBindingTransition
}.

Section presence.
Context `{Crypto, PresenceCodecs}.
Implicit Types (announce : Announce) (transitions : list AccountBindingTransition).

(** ** transport/auth.rs *)

Definition auth_signing_input (handshake_hash : bytes) : bytes := AUTH_DOMAIN ++ handshake_hash.

Definition build_auth (identity : DeviceIdentity) (handshake_hash : bytes) : AuthMessage :=
  MkAuth (public identity) (sign identity (auth_signing_input handshake_hash)).

Definition verify_auth (msg : AuthMessage) (handshake_hash remote_static : bytes) :
    result TransportError PublicIdentity :=
  if decide (x25519_pub (am_public msg) ≠ remote_static) then Err IdentityMismatch
  else if decide (length (am_signature msg) ≠ 64) then Err IdentityMismatch
  else if verify (ed25519_pub (am_public msg)) (auth_signing_input handshake_hash) (am_signature msg)
  then Ok (am_public msg) else Err IdentityMismatch.

(** ** transport/presence_auth.rs *)

(** [codec().serialize]. *)
Definition codec_serialize {A} `{Bincode A} (x : A) : result TransportError bytes :=
  if decide (N.of_nat (length (ser x)) ≤ MAX_EXTENSION)%N then Ok (ser x) else Err (Serialization size_limit_text).

Definition transition_context (hash announce : bytes) transitions (visible : bool) :
    result TransportError bytes :=
  body ← codec_serialize (MkBody announce transitions visible);
  Ok (str "mesh-talk-transport-account-transition-v1" ++ hash ++ body).

(** The loop of [valid_transitions]: the chain so far and the accounts it visited. *)
Fixpoint transitions_chained announce (previous : option AccountBindingTransition)
    (accounts : gset bytes) transitions : bool :=
  match transitions with
  | [] => true
  | t :: ts =>
      if negb (transition_verify t) || bool_decide (tr_public t ≠ announce_public announce) then false else
      let account := account_ed25519_pub (current_certificate t) in
      match previous with
      | Some last =>
          if bool_decide (previous_transition t ≠ Some (transition_id last)) ||
             bool_decide (previous_certificate t ≠ current_certificate last) then false
          else if bool_decide (account ∈ accounts) then false
          else transitions_chained announce (Some t) ({[account]} ∪ accounts) ts
      | None =>
          let accounts := {[account_ed25519_pub (previous_certificate t)]} ∪ accounts in
          if bool_decide (account ∈ accounts) then false
          else transitions_chained announce (Some t) ({[account]} ∪ accounts) ts
      end
  end.

Definition valid_transitions announce transitions : bool :=
  if decide (transitions = [] ∨ MAX_TRANSITIONS < length transitions) then false
  else if transitions_chained announce None ∅ transitions then
    match last transitions with
    | Some last => bool_decide (Some (current_certificate last) = an_account_cert announce)
    | None => false
    end
  else false.

Definition presence_context (hash encoded : bytes) : bytes := PRESENCE_DOMAIN ++ hash ++ encoded.

Definition valid announce (public : PublicIdentity) : bool :=
  bool_decide (length (an_name announce) ≤ 1024) && bool_decide (an_tcp_port announce ≠ 0%N) &&
  bool_decide (is_Some (an_account_cert announce)) && bool_decide (announce_public announce = public) &&
  announce_verify announce.

Definition validate_own (identity : DeviceIdentity) (presence : option Announce) :
    result TransportError () :=
  match presence with
  | Some announce => if valid announce (public identity) then Ok () else Err IdentityMismatch
  | None => Ok ()
  end.

Definition version_byte (no_transitions publicly_visible : bool) : byte :=
  match no_transitions, publicly_visible with
  | true, true => VERSION
  | true, false => PRIVATE_VERSION
  | false, true => Byte.x03
  | false, false => Byte.x04
  end.

Definition is_empty {A} (l : list A) : bool := match l with [] => true | _ => false end.

(** The extension an announcement adds to the legacy proof. *)
Definition build_extension (identity : DeviceIdentity) (hash : bytes) announce
    (publicly_visible : bool) transitions : result TransportError bytes :=
  let encoded := announce_encode announce in
  body ←
    (if is_empty transitions then
       let signed := presence_context hash encoded ++ (if publicly_visible then [] else [Byte.x00]) in
       codec_serialize (MkExtension encoded (sign identity signed))
     else if negb (valid_transitions announce transitions) then Err IdentityMismatch
     else
       signed ← transition_context hash encoded transitions publicly_visible;
       codec_serialize (MkTransitionExtension encoded transitions (sign identity signed)));
  if decide (MAX_EXTENSION < N.of_nat (length PRESENCE_MAGIC + 1 + length body))%N then Err IdentityMismatch
  else Ok (PRESENCE_MAGIC ++ [version_byte (is_empty transitions) publicly_visible] ++ body).

Definition build_with_transitions (identity : DeviceIdentity) (hash : bytes)
    (presence : option Announce) (publicly_visible : bool) transitions :
    result TransportError bytes :=
  _ ← validate_own identity presence;
  if negb publicly_visible && bool_decide (presence = None) then Err IdentityMismatch else
  let bytes := ser (build_auth identity hash) in
  match presence with
  | Some announce =>
      extension ← build_extension identity hash announce publicly_visible transitions;
      Ok (bytes ++ extension)
  | None => if is_empty transitions then Ok bytes else Err IdentityMismatch
  end.

(** The reader of the extension: announcement, visibility and transitions. *)
Definition verify_extension (public : PublicIdentity) (hash remaining : bytes) :
    result TransportError (option Announce * bool * list AccountBindingTransition) :=
  match remaining !! length PRESENCE_MAGIC with
  | Some version =>
      if bool_decide (MAX_EXTENSION < N.of_nat (length remaining))%N ||
         bool_decide (take (length PRESENCE_MAGIC) remaining ≠ PRESENCE_MAGIC) ||
         negb (bool_decide (version ∈ [VERSION; PRIVATE_VERSION; Byte.x03; Byte.x04]))
      then Err IdentityMismatch else
      let publicly_visible := bool_decide (version ∈ [VERSION; Byte.x03]) in
      let body := drop (length PRESENCE_MAGIC + 1) remaining in
      let plain := bool_decide (Byte.to_N version ≤ Byte.to_N PRIVATE_VERSION)%N in
      '(extension, transitions) ←
        (if plain then
           e ← ok_or (de body : option Extension) IdentityMismatch; Ok (e, [])
         else
           e ← ok_or (de body : option TransitionExtension) IdentityMismatch;
           Ok (MkExtension (te_announce e) (te_signature e), te_transitions e));
      announce ← ok_or (announce_decode (ex_announce extension)) IdentityMismatch;
      if negb (valid announce public) then Err IdentityMismatch
      else if decide (length (ex_signature extension) ≠ 64) then Err IdentityMismatch else
      signed ←
        (if plain then
           Ok (presence_context hash (ex_announce extension) ++
               (if publicly_visible then [] else [Byte.x00]))
         else if negb (valid_transitions announce transitions) then Err IdentityMismatch
         else transition_context hash (ex_announce extension) transitions publicly_visible);
      if verify (ed25519_pub public) signed (ex_signature extension)
      then Ok (Some announce, publicly_visible, transitions) else Err IdentityMismatch
  | None => Err IdentityMismatch
  end.

Definition presence_verify (bytes hash remote : list byte) : result TransportError VerifiedPeer :=
  if decide (MAX_PLAINTEXT < N.of_nat (length bytes))%N
  then Err (PlaintextTooLarge (N.of_nat (length bytes))) else
  '(legacy, remaining) ← ok_or (de_from bytes : option (AuthMessage * list byte)) IdentityMismatch;
  public ← verify_auth legacy hash remote;
  '(announcement, publicly_visible, transitions) ←
    (if is_empty remaining then Ok (None, true, []) else verify_extension public hash remaining);
  Ok (MkPeer public announcement publicly_visible transitions).
End presence.

(** ** What an accepted proof establishes *)

Section proofs.
Context `{Crypto, !CryptoLaws, PresenceCodecs, !PresenceLaws}.
Implicit Types (a : Announce) (ts : list AccountBindingTransition).

(** The bytes the device signs for an announcement. *)
Definition presence_signed (hash : bytes) a (visible : bool) ts : result TransportError bytes :=
  if is_empty ts
  then Ok (presence_context hash (announce_encode a) ++ (if visible then [] else [Byte.x00]))
  else transition_context hash (announce_encode a) ts visible.

(** Values of the Rust types, within the widths of their length prefixes. *)
Definition presentable a ts : Prop :=
  type_wf a ∧ (N.of_nat (length (announce_encode a)) ≤ u64_max)%N ∧
  (N.of_nat (length ts) ≤ u64_max)%N ∧ Forall type_wf ts.

(** The peer holds the keys: the Noise session authenticated its X25519 key, its
    Ed25519 key signed this session, and whatever account it claims is certified for
    exactly these keys and signed for exactly this session. *)
Definition proves (hash remote : bytes) (peer : VerifiedPeer) : Prop :=
  x25519_pub (vp_public peer) = remote ∧
  (∃ sg, length sg = 64 ∧
     verify (ed25519_pub (vp_public peer)) (auth_signing_input hash) sg = true) ∧
  match vp_announcement peer with
  | None => vp_publicly_visible peer = true ∧ vp_transitions peer = []
  | Some a =>
      presentable a (vp_transitions peer) ∧ valid a (vp_public peer) = true ∧
      (vp_transitions peer = [] ∨ valid_transitions a (vp_transitions peer) = true) ∧
      ∃ signed sg,
        presence_signed hash a (vp_publicly_visible peer) (vp_transitions peer) = Ok signed ∧
        length sg = 64 ∧ verify (ed25519_pub (vp_public peer)) signed sg = true
  end.

Lemma verify_auth_Ok msg hash remote p :
  verify_auth msg hash remote = Ok p →
  p = am_public msg ∧ x25519_pub p = remote ∧ length (am_signature msg) = 64 ∧
  verify (ed25519_pub p) (auth_signing_input hash) (am_signature msg) = true.
Proof.
  unfold verify_auth. repeat case_decide; [done..|].
  destruct (verify _ _ _) eqn:Hv; [|done]. intros [= <-].
  done.
Qed.

Lemma valid_transitions_nonempty a ts : valid_transitions a ts = true → is_empty ts = false.
Proof. unfold valid_transitions. destruct ts; [|done]. by rewrite decide_True by (by left). Qed.

Lemma verify_extension_sound p hash remaining ann visible ts :
  verify_extension p hash remaining = Ok (ann, visible, ts) →
  ∃ a, ann = Some a ∧ presentable a ts ∧ valid a p = true ∧
    (ts = [] ∨ valid_transitions a ts = true) ∧
    ∃ signed sg, presence_signed hash a visible ts = Ok signed ∧ length sg = 64 ∧
      verify (ed25519_pub p) signed sg = true.
Proof.
  unfold verify_extension. destruct (_ !! _) as [version|]; [|done].
  destruct (_ || _ || _); [done|]. set (visible' := bool_decide (version ∈ _)).
  destruct (bool_decide (Byte.to_N version ≤ _)%N).
  - destruct (de _) as [e|] eqn:He; [|done]. simpl_bind. apply de_strict in He as [Hw _].
    destruct (announce_decode _) as [a|] eqn:Ha; [|done]. simpl_bind.
    apply announce_decode_exact in Ha as [Hwa Hea].
    destruct (valid a p) eqn:Hv; [|done]. cbn [negb]. case_decide as Hl; [done|]. simpl_bind.
    destruct (verify _ _ _) eqn:Hsig; [|done]. intros [= <- <- <-].
    exists a. split_and!; [done| |done|by left|].
    + split_and!; [done| |cbn; lia|constructor]. rewrite <-Hea. apply Hw.
    + exists (presence_context hash (ex_announce e) ++ if visible' then [] else [Byte.x00]),
        (ex_signature e). split_and!; [|done..]. unfold presence_signed. cbn [is_empty]. by rewrite <-Hea.
  - destruct (de _) as [e|] eqn:He; [|done]. simpl_bind. apply de_strict in He as [Hw _].
    cbn [ex_announce ex_signature].
    destruct (announce_decode _) as [a|] eqn:Ha; [|done]. simpl_bind.
    apply announce_decode_exact in Ha as [Hwa Hea].
    destruct (valid a p) eqn:Hv; [|done]. cbn [negb]. case_decide as Hl; [done|].
    destruct (valid_transitions a _) eqn:Ht; [|done]. cbn [negb].
    destruct (transition_context _ _ _ _) as [signed|] eqn:Hs; [|done]. simpl_bind.
    destruct (verify _ _ _) eqn:Hsig; [|done]. intros [= <- <- <-].
    exists a. destruct Hw as (Hw1 & Hw2 & Hw3 & Hw4). split_and!; [done| |done|by right|].
    + split_and!; [done|by rewrite <-Hea|done|done].
    + exists signed, (te_signature e). split_and!; [|done..].
      unfold presence_signed. rewrite (valid_transitions_nonempty a) by done. by rewrite <-Hea.
Qed.

Lemma presence_verify_sound bs hash remote peer :
  presence_verify bs hash remote = Ok peer → proves hash remote peer.
Proof.
  unfold presence_verify. case_decide; [done|].
  destruct (de_from bs) as [[legacy remaining]|] eqn:Hd; [|done]. simpl_bind.
  destruct (verify_auth legacy hash remote) as [p|] eqn:Hv; [|done]. simpl_bind.
  apply verify_auth_Ok in Hv as (-> & Hx & Hl & Hs).
  destruct (is_empty remaining) eqn:Hr; simpl_bind.
  - intros [= <-]. unfold proves. cbn. split_and!; [done|by eauto|done|done].
  - destruct (verify_extension _ _ _) as [[[ann visible] ts]|] eqn:He; [|done]. simpl_bind.
    intros [= <-]. apply verify_extension_sound in He as (a & -> & ? & ? & ? & ?).
    unfold proves. cbn. split_and!; [done|by eauto|done..].
Qed.

Lemma codec_serialize_Ok {A} `{Bincode A} (x : A) bs :
  codec_serialize x = Ok bs ↔ bs = ser x ∧ (N.of_nat (length (ser x)) ≤ MAX_EXTENSION)%N.
Proof. unfold codec_serialize. case_decide; naive_solver. Qed.

Lemma sign_length d m : length (sign d m) = 64.
Proof. apply ed25519_sign_length. Qed.

(** The frame every extension has. *)
Lemma extension_frame v body :
  let ext := PRESENCE_MAGIC ++ [v] ++ body in
  ext !! length PRESENCE_MAGIC = Some v ∧ take (length PRESENCE_MAGIC) ext = PRESENCE_MAGIC ∧
  drop (length PRESENCE_MAGIC + 1) ext = body ∧ length ext = length PRESENCE_MAGIC + 1 + length body.
Proof. done. Qed.

Lemma build_extension_verifies d hash a visible ts ext :
  type_wf d → presentable a ts → valid a (public d) = true →
  build_extension d hash a visible ts = Ok ext →
  (N.of_nat (length ext) ≤ MAX_EXTENSION)%N ∧ is_empty ext = false ∧
  verify_extension (public d) hash ext = Ok (Some a, visible, ts).
Proof.
  intros Hd (Ha & He & Ht & Hts) Hv. unfold build_extension.
  bind_step body eqn Hb. case_decide as Hlen; [done|]. intros Hx.
  set (v := version_byte (is_empty ts) visible) in Hx.
  assert (ext = PRESENCE_MAGIC ++ [v] ++ body) as -> by congruence. clear Hx.
  destruct (extension_frame v body) as (Hver & Hmag & Hdrop & Hl).
  split; [rewrite Hl; lia|]. split; [done|]. unfold verify_extension. rewrite Hver, Hmag, Hdrop.
  rewrite (bool_decide_eq_false_2 (_ < _)%N), (bool_decide_eq_false_2 (PRESENCE_MAGIC ≠ _))
    by first [rewrite Hl; lia|intros Hx; by apply Hx].
  pose proof (announce_decode_encode a Ha) as Hdec. cbn [orb].
  assert (negb (bool_decide (v ∈ [VERSION; PRIVATE_VERSION; Byte.x03; Byte.x04])) = false ∧
          bool_decide (v ∈ [VERSION; Byte.x03]) = visible ∧
          bool_decide (Byte.to_N v ≤ Byte.to_N PRIVATE_VERSION)%N = is_empty ts) as (-> & -> & ->)
    by (unfold v; by destruct (is_empty ts), visible).
  destruct (is_empty ts) eqn:Hemp.
  - destruct ts; [|done]. apply codec_serialize_Ok in Hb as [-> Hsz].
    rewrite de_ser by (by split; [|cbn [ex_signature]; rewrite sign_length]). simpl_bind. cbn [ex_announce ex_signature].
    rewrite Hdec. simpl_bind. rewrite Hv. cbn [negb]. rewrite decide_False by (intros Hn; by destruct Hn; apply sign_length).
    simpl_bind. by rewrite verify_sign.
  - destruct (valid_transitions a ts) eqn:Hvt; [|done]. cbn [negb] in Hb.
    destruct (transition_context hash (announce_encode a) ts visible) as [signed|] eqn:Hs; [|done].
    cbn [mbind result_bind] in Hb. apply codec_serialize_Ok in Hb as [-> Hsz].
    rewrite de_ser by (by split_and!; [..|cbn [te_signature]; rewrite sign_length]). simpl_bind.
    cbn [ex_announce ex_signature te_announce te_signature te_transitions].
    rewrite Hdec. simpl_bind. rewrite Hv. cbn [negb]. rewrite decide_False by (intros Hn; by destruct Hn; apply sign_length).
    rewrite Hvt. cbn [negb]. rewrite Hs. simpl_bind. by rewrite verify_sign.
Qed.

Lemma valid_own d a : validate_own d (Some a) = Ok () ↔ valid a (public d) = true.
Proof. unfold validate_own. destruct (valid _ _); naive_solver. Qed.

(** An account's own announcement is presentable for its device. *)
Lemma valid_new d name port office acc :
  type_wf d → length (ac_signing_key acc) = 32 → length name ≤ 1024 → port ≠ 0%N →
  valid (new_with_role d name port office (Some acc)) (public d) = true.
Proof.
  intros Hd Hk Hn Hp. unfold valid. rewrite !andb_true_iff.
  split; [|apply new_with_role_verifies; [done|by intros a [= <-]]].
  split_and!; apply bool_decide_eq_true_2; [done|done|by eexists|done].
Qed.

Lemma build_auth_wf d hash : type_wf d → type_wf (build_auth d hash).
Proof. intros Hd. split; [by apply public_wf|]. cbn [build_auth am_signature]. by rewrite sign_length. Qed.

Lemma build_auth_verifies d hash :
  type_wf d → verify_auth (build_auth d hash) hash (x25519_pub (public d)) = Ok (public d).
Proof.
  intros Hd. unfold verify_auth, build_auth. cbn [am_public am_signature].
  rewrite decide_False by (intros Hx; by apply Hx).
  rewrite decide_False by (intros Hx; apply Hx, sign_length). by rewrite verify_sign.
Qed.

(** What one side builds the other accepts, and reads exactly: the identity, the
    announcement, the visibility and the transitions. *)
Lemma presence_build_verify d hash presence visible ts bs :
  type_wf d → (∀ a, presence = Some a → presentable a ts) →
  build_with_transitions d hash presence visible ts = Ok bs →
  (N.of_nat (length bs) ≤ MAX_PLAINTEXT)%N ∧
  presence_verify bs hash (x25519_pub (public d)) = Ok (MkPeer (public d) presence visible ts).
Proof.
  intros Hd Hp. unfold build_with_transitions. bind_step own eqn Hown. destruct own.
  destruct (negb visible && bool_decide (presence = None)) eqn:Hvis; [done|].
  pose proof (auth_message_size _ (build_auth_wf d hash Hd) (sign_length _ _)) as Hsz.
  pose proof (build_auth_wf d hash Hd) as Hwf.
  destruct presence as [a|].
  - bind_step ext eqn Hext. intros [= <-].
    apply build_extension_verifies in Hext as (Hlen & Hne & Hver); [|by auto|by auto|by apply valid_own].
    assert (N.of_nat (length (ser (build_auth d hash) ++ ext)) ≤ MAX_PLAINTEXT)%N as Hall.
    { rewrite length_app. unfold MAX_PLAINTEXT, MAX_FRAME, MAX_EXTENSION in *. lia. }
    split; [done|]. unfold presence_verify. rewrite decide_False by lia.
    rewrite de_from_ser by done. simpl_bind. rewrite build_auth_verifies by done. simpl_bind.
    by rewrite Hne, Hver.
  - destruct (is_empty ts) eqn:Hts; [|done]. destruct ts; [|done]. intros [= <-].
    destruct visible; [|done].
    assert (N.of_nat (length (ser (build_auth d hash))) ≤ MAX_PLAINTEXT)%N as Hall
      by (unfold MAX_PLAINTEXT, MAX_FRAME in *; lia).
    split; [done|]. unfold presence_verify. rewrite decide_False by lia.
    rewrite <-(app_nil_r (ser _)), de_from_ser by done. simpl_bind. by rewrite build_auth_verifies.
Qed.

Lemma domains_differ (x y : bytes) :
  PRESENCE_DOMAIN ++ x ≠ str "mesh-talk-transport-account-transition-v1" ++ y.
Proof.
  intros He%(f_equal (take 25)). rewrite !take_app_le in He by (vm_compute; lia). by vm_compute in He.
Qed.

Lemma transition_context_Ok hash enc ts visible signed :
  transition_context hash enc ts visible = Ok signed →
  signed = str "mesh-talk-transport-account-transition-v1" ++ hash ++ ser (MkBody enc ts visible).
Proof. unfold transition_context. bind_step body eqn Hb. intros [= <-]. by apply codec_serialize_Ok in Hb as [-> _]. Qed.

(** The signed bytes determine the session, the announcement, the visibility and the
    transitions: a proof made for one session or one visibility is none for another, and
    an announcement without transitions is never taken for one with them. *)
Lemma presence_signed_binds h1 h2 a b v1 v2 t1 t2 signed :
  length h1 = 32 → length h2 = 32 → presentable a t1 → presentable b t2 →
  presence_signed h1 a v1 t1 = Ok signed → presence_signed h2 b v2 t2 = Ok signed →
  h1 = h2 ∧ a = b ∧ v1 = v2 ∧ t1 = t2.
Proof.
  intros Hh1 Hh2 (Ha & Hae & Hat & Hal) (Hb & Hbe & Hbt & Hbl). unfold presence_signed.
  destruct (is_empty t1) eqn:E1, (is_empty t2) eqn:E2.
  - destruct t1, t2; [|done..]. intros <-. unfold presence_context. rewrite <-!(assoc_L (++)).
    intros Hs%Ok_inj. apply app_inj_1 in Hs as [_ Hs]; [|done]. apply app_inj_1 in Hs as [-> Hs]; [|congruence].
    unfold announce_encode, encode_v2 in Hs. rewrite <-!(assoc_L (++)) in Hs.
    do 2 (apply app_inj_1 in Hs as [_ Hs]; [|done]).
    apply ser_prefix_inj in Hs as [-> Hs]; [|done..]. by destruct v1, v2.
  - intros <-%Ok_inj Hs%transition_context_Ok. unfold presence_context in Hs. rewrite <-!(assoc_L (++)) in Hs.
    by apply domains_differ in Hs.
  - intros Hs%transition_context_Ok. subst. intros Hs%Ok_inj. unfold presence_context in Hs.
    rewrite <-!(assoc_L (++)) in Hs. by apply domains_differ in Hs.
  - intros ->%transition_context_Ok Hs%transition_context_Ok.
    apply app_inj_1 in Hs as [_ Hs]; [|done]. apply app_inj_1 in Hs as [-> Hs]; [|congruence].
    assert (type_wf (MkBody (announce_encode a) t1 v1)) as Hwa by exact (conj Hae (conj Hat Hal)).
    assert (type_wf (MkBody (announce_encode b) t2 v2)) as Hwb by exact (conj Hbe (conj Hbt Hbl)).
    pose proof (de_ser _ Hwa) as Hda. rewrite Hs, (de_ser _ Hwb) in Hda.
    apply (inj Some) in Hda. pose proof (f_equal tb_announce Hda) as He.
    pose proof (f_equal tb_transitions Hda) as Ht. pose proof (f_equal tb_visible Hda) as Hv.
    cbn [tb_announce tb_transitions tb_visible] in *. split_and!; [done| |done..].
    apply (f_equal announce_decode) in He. rewrite !announce_decode_encode in He by done. congruence.
Qed.
End proofs.

(** ** A concrete encoding of the exchange *)

Module PresenceCodec.
Export AnnounceWitness Fixint.

Definition public_codec : codec PublicIdentity :=
  c_iso (λ '(e, x), MkPublicIdentity e x) (λ p, (ed25519_pub p, x25519_pub p))
    (c_pair (c_arr 32) (c_arr 32)).
#[export] Instance public_codec_ok : CodecOk public_codec.
Proof. apply c_iso_ok; [by intros []|by intros []|apply _]. Qed.

Definition auth_codec : codec AuthMessage :=
  c_iso (λ '(p, s), MkAuth p s) (λ m, (am_public m, am_signature m)) (c_pair public_codec c_bytes).
#[export] Instance auth_codec_ok : CodecOk auth_codec.
Proof. apply c_iso_ok; [by intros []|by intros []|apply _]. Qed.

Definition transition_codec : codec AccountBindingTransition :=
  c_iso (λ '(p, (o, (n, (q, (c, (so, (sn, sd))))))), MkTransition p o n q c so sn sd)
    (λ t, (tr_public t, (previous_certificate t, (current_certificate t, (previous_transition t,
       (tr_nonce t, (old_signature t, (new_signature t, device_signature t))))))))
    (c_pair public_codec (c_pair cert_codec (c_pair cert_codec (c_pair (c_option (c_arr 32))
      (c_pair (c_arr 32) (c_pair c_bytes (c_pair c_bytes c_bytes))))))).
#[export] Instance transition_codec_ok : CodecOk transition_codec.
Proof. apply c_iso_ok; [by intros []|by intros (?&?&?&?&?&?&?&?)|apply _]. Qed.

Definition extension_codec : codec Extension :=
  c_iso (λ '(a, s), MkExtension a s) (λ e, (ex_announce e, ex_signature e)) (c_pair c_bytes c_bytes).
#[export] Instance extension_codec_ok : CodecOk extension_codec.
Proof. apply c_iso_ok; [by intros []|by intros []|apply _]. Qed.

Definition transition_extension_codec : codec TransitionExtension :=
  c_iso (λ '(a, (t, s)), MkTransitionExtension a t s)
    (λ e, (te_announce e, (te_transitions e, te_signature e)))
    (c_pair c_bytes (c_pair (c_vec transition_codec) c_bytes)).
#[export] Instance transition_extension_codec_ok : CodecOk transition_extension_codec.
Proof. apply c_iso_ok; [by intros []|by intros (?&?&?)|apply _]. Qed.

Definition body_codec : codec TransitionBody :=
  c_iso (λ '(a, (t, v)), MkBody a t v) (λ b, (tb_announce b, (tb_transitions b, tb_visible b)))
    (c_pair c_bytes (c_pair (c_vec transition_codec) c_bool)).
#[export] Instance body_codec_ok : CodecOk body_codec.
Proof. apply c_iso_ok; [by intros []|by intros (?&?&?)|apply _]. Qed.

Lemma transition_cwf t : type_wf t ↔ cwf transition_codec t.
Proof.
  destruct t as [[e x] [co cd cs] [no nd ns] [q|] n so sn sd];
    unfold type_wf, AccountBindingTransition_wf; cbn -[N.of_nat N.pow u64_max];
    unfold type_wf, PublicIdentity_wf, DeviceCertificate_wf; cbn -[N.of_nat N.pow u64_max]; tauto.
Qed.

Lemma transitions_cwf ts : Forall type_wf ts ↔ Forall (cwf transition_codec) ts.
Proof. apply Forall_iff. intros t. apply transition_cwf. Qed.

#[export] Instance toy_presence_codecs : PresenceCodecs := {|
  announce_codec_of := bincode_of announce_codec;
  announce_from := dec announce_codec;
  cert_codec_of := bincode_of cert_codec;
  auth_bincode := bincode_of auth_codec;
  auth_from := dec auth_codec;
  extension_bincode := bincode_of extension_codec;
  transition_extension_bincode := bincode_of transition_extension_codec;
  transition_body_bincode := bincode_of body_codec;
  size_limit_text := str "the size limit has been reached"
|}.

Lemma auth_cwf m : type_wf m ↔ cwf auth_codec m.
Proof. destruct m as [[e x] s]. done. Qed.

Lemma extension_cwf e : type_wf e ↔ cwf extension_codec e.
Proof. destruct e. done. Qed.

Lemma transition_extension_cwf e : type_wf e ↔ cwf transition_extension_codec e.
Proof.
  destruct e as [a ts s]. unfold type_wf, TransitionExtension_wf. cbn [te_announce te_transitions te_signature].
  rewrite transitions_cwf. cbn -[N.of_nat N.pow u64_max]. tauto.
Qed.

Lemma body_cwf b : type_wf b → cwf body_codec b.
Proof.
  destruct b as [a ts v]. unfold type_wf, TransitionBody_wf. cbn [tb_announce tb_transitions].
  rewrite transitions_cwf. cbn -[N.of_nat N.pow u64_max]. tauto.
Qed.

#[export] Instance toy_presence_laws : PresenceLaws.
Proof.
  split.
  - apply announce_laws.
  - apply announce_strict.
  - apply bincode_from_laws; [apply _|apply announce_cwf].
  - apply bincode_from_laws; [apply _|apply auth_cwf].
  - apply bincode_of_laws; [apply _|]. intros e. apply extension_cwf.
  - apply bincode_of_strict; [apply _|]. intros e. apply extension_cwf.
  - apply bincode_of_laws; [apply _|]. intros e. apply transition_extension_cwf.
  - apply bincode_of_strict; [apply _|]. intros e. apply transition_extension_cwf.
  - apply bincode_of_laws; [apply _|apply body_cwf].
  - intros [[e x] s] [[He Hx] _] Hs. cbn in *. rewrite !length_app, length_le_bytes. lia.
Qed.
End PresenceCodec.
