(* ===== verification/Transport.v ===== *)
(** * Authenticated, encrypted channels

    Models crates/mesh-talk-core/src/transport/handshake.rs and session.rs (the Noise XX
    session) and transport/channel.rs (dialling, accepting, sending and receiving over
    it).  The [snow] crate is a parameter ([NoiseProtocol]).  An asynchronous function is
    a process: a tree of the frames it writes and reads and of the questions it asks its
    host, which the environment answers.  Framing.v shows that a byte stream carries a
    queue of frames, whatever its fragmentation. *)

From S2P Require Import Prelude Crypto Bincode Identity Announce Transition Framing Presence.

(** ** The Noise protocol implementation

    A handshake state is built from the role, the static secret and what it draws from the
    system generator; errors are rendered. *)

Class NoiseProtocol := {
  NoiseState : Type;
  NoiseTransport : Type;
  noise_build : bool → bytes → bytes → result bytes NoiseState;
  noise_write : NoiseState → result bytes (NoiseState * bytes);
  noise_read : NoiseState → bytes → result bytes NoiseState;
  noise_finished : NoiseState → bool;
  noise_remote_static : NoiseState → option bytes;
  noise_hash : NoiseState → bytes;
  noise_transport : NoiseState → result bytes NoiseTransport;
  noise_encrypt : NoiseTransport → bytes → NoiseTransport * result bytes bytes;
  noise_decrypt : NoiseTransport → bytes → NoiseTransport * result bytes bytes
}.

(** ** Processes *)

Inductive Proc (A : Type) : Type :=
  | Return (a : A)
  | WriteFrame (blob : bytes) (k : result TransportError () → Proc A)
  | ReadFrame (k : result TransportError bytes → Proc A)
  | AwaitGate (k : bool → Proc A)
  | AskHost (k : bool → Proc A).
Arguments Return {A} _.
Arguments WriteFrame {A} _ _.
Arguments ReadFrame {A} _.
Arguments AwaitGate {A} _.
Arguments AskHost {A} _.

Fixpoint proc_bind {A B} (f : A → Proc B) (p : Proc A) : Proc B :=
  match p with
  | Return a => f a
  | WriteFrame blob k => WriteFrame blob (λ r, proc_bind f (k r))
  | ReadFrame k => ReadFrame (λ r, proc_bind f (k r))
  | AwaitGate k => AwaitGate (λ b, proc_bind f (k b))
  | AskHost k => AskHost (λ b, proc_bind f (k b))
  end.

(** [p.await?] *)
Definition proc_try {A B} (p : Proc (result TransportError A))
    (k : A → Proc (result TransportError B)) : Proc (result TransportError B) :=
  proc_bind (λ r, match r with Ok a => k a | Err e => Return (Err e) end) p.

Declare Scope proc_scope.
Delimit Scope proc_scope with proc.
Notation "x ⇐ p ; k" := (proc_try p (λ x, k))
  (at level 20, p at level 100, k at level 200, right associativity) : proc_scope.
Notation "' x ⇐ p ; k" := (proc_try p (λ x, k))
  (at level 20, x pattern, p at level 100, k at level 200, right associativity) : proc_scope.
Open Scope proc_scope.

Definition write_frame_to (blob : bytes) : Proc (result TransportError ()) := WriteFrame blob Return.
Definition read_frame_from : Proc (result TransportError bytes) := ReadFrame Return.

(** ** transport/handshake.rs *)

Section handshake.
Context `{NoiseProtocol}.

Record HandshakeOutput := MkOutput {
  ho_session : NoiseTransport;
  ho_remote_static : bytes;
  ho_handshake_hash : bytes
}.

Definition handshake_build (x25519_secret rng : bytes) (initiator : bool) :
    result TransportError NoiseState :=
  map_err Noise (noise_build initiator x25519_secret rng).

Definition write_message (hs : NoiseState) : result TransportError (NoiseState * bytes) :=
  map_err Noise (noise_write hs).

Definition read_message (hs : NoiseState) (message : bytes) : result TransportError NoiseState :=
  map_err Noise (noise_read hs message).

Definition remote_static (hs : NoiseState) : result TransportError bytes :=
  key ← ok_or (noise_remote_static hs) MissingRemoteStatic;
  if decide (length key = 32) then Ok key
  else Err (Noise (str "remote static key is not 32 bytes")).

Definition into_session (hs : NoiseState) : result TransportError HandshakeOutput :=
  if negb (noise_finished hs) then Err (Noise (str "handshake not yet finished")) else
  if decide (length (noise_hash hs) ≠ 32) then Err (Noise (str "handshake hash is not 32 bytes")) else
  remote ← remote_static hs;
  transport ← map_err Noise (noise_transport hs);
  Ok (MkOutput transport remote (noise_hash hs)).

(** ** transport/session.rs *)

Definition session_encrypt (s : NoiseTransport) (plaintext : bytes) :
    NoiseTransport * result TransportError bytes :=
  if decide (MAX_PLAINTEXT < N.of_nat (length plaintext))%N
  then (s, Err (PlaintextTooLarge (N.of_nat (length plaintext))))
  else let '(s, r) := noise_encrypt s plaintext in (s, map_err Noise r).

Definition session_decrypt (s : NoiseTransport) (ciphertext : bytes) :
    NoiseTransport * result TransportError bytes :=
  let '(s, r) := noise_decrypt s ciphertext in (s, map_err Noise r).
End handshake.

(** ** transport/channel.rs *)

Section channel.
Context `{Crypto, PresenceCodecs, NoiseProtocol}.
Implicit Types (presence : option Announce) (transitions : list AccountBindingTransition).

(** The stream is the process's environment; connection permits are held, not read. *)
Record SecureChannel := MkSecureChannel {
  sc_session : NoiseTransport;
  sc_peer : VerifiedPeer;
  sc_io_admission : bool;
  sc_sent_frame_bytes : N;
  sc_host_generation : option N;
  sc_pairing_only : bool
}.

Inductive AuthOrder := SendFirst | ReceiveFirst.

Definition encrypt_auth (session : NoiseTransport) (identity : DeviceIdentity)
    (handshake_hash : bytes) presence (publicly_visible : bool) transitions :
    result TransportError (NoiseTransport * bytes) :=
  bytes ← build_with_transitions identity handshake_hash presence publicly_visible transitions;
  let '(session, r) := session_encrypt session bytes in ct ← r; Ok (session, ct).

Definition verify_peer (session : NoiseTransport) (peer_ct handshake_hash remote : bytes) :
    result TransportError (NoiseTransport * VerifiedPeer) :=
  let '(session, r) := session_decrypt session peer_ct in
  bytes ← r;
  peer ← presence_verify bytes handshake_hash remote;
  Ok (session, peer).

Definition auth_exchange (identity : DeviceIdentity) presence (publicly_visible : bool)
    transitions (out : HandshakeOutput) (order : AuthOrder) (admits : VerifiedPeer → bool) :
    Proc (result TransportError (NoiseTransport * VerifiedPeer)) :=
  let session := ho_session out in
  let hash := ho_handshake_hash out in
  let remote := ho_remote_static out in
  match order with
  | SendFirst =>
      '(session, ct) ⇐ Return (encrypt_auth session identity hash presence publicly_visible transitions);
      _ ⇐ write_frame_to ct;
      peer_ct ⇐ read_frame_from;
      Return (verify_peer session peer_ct hash remote)
  | ReceiveFirst =>
      peer_ct ⇐ read_frame_from;
      '(session, peer) ⇐ Return (verify_peer session peer_ct hash remote);
      if negb (admits peer) then Return (Err AdmissionDenied) else
      '(session, ct) ⇐ Return (encrypt_auth session identity hash presence publicly_visible transitions);
      _ ⇐ write_frame_to ct;
      Return (Ok (session, peer))
  end.

(** The static key the session authenticated is checked before our own is disclosed. *)
Definition pin_static (expected_peer : option PublicIdentity) (hs : NoiseState) :
    result TransportError () :=
  match expected_peer with
  | Some expected =>
      remote ← remote_static hs;
      if decide (remote ≠ x25519_pub expected) then Err UnexpectedPeer else Ok ()
  | None => Ok ()
  end.

Definition pin_identity (expected_peer : option PublicIdentity) (peer : VerifiedPeer) :
    result TransportError () :=
  match expected_peer with
  | Some expected => if decide (expected ≠ vp_public peer) then Err UnexpectedPeer else Ok ()
  | None => Ok ()
  end.

Definition new_channel (session : NoiseTransport) (peer : VerifiedPeer) : SecureChannel :=
  MkSecureChannel session peer false 0 None false.

Definition connect_with_transitions (rng : bytes) (identity : DeviceIdentity)
    (expected_peer : option PublicIdentity) presence (publicly_visible : bool) transitions :
    Proc (result TransportError SecureChannel) :=
  _ ⇐ Return (validate_own identity presence);
  hs ⇐ Return (handshake_build (secret_bytes identity).2 rng true);
  '(hs, m1) ⇐ Return (write_message hs);
  _ ⇐ write_frame_to m1;
  m2 ⇐ read_frame_from;
  hs ⇐ Return (read_message hs m2);
  _ ⇐ Return (pin_static expected_peer hs);
  '(hs, m3) ⇐ Return (write_message hs);
  _ ⇐ write_frame_to m3;
  out ⇐ Return (into_session hs);
  '(session, peer) ⇐
    auth_exchange identity presence publicly_visible transitions out SendFirst (λ _, true);
  _ ⇐ Return (pin_identity expected_peer peer);
  Return (Ok (new_channel session peer)).

Definition connect_with_visibility rng identity expected_peer presence publicly_visible :=
  connect_with_transitions rng identity expected_peer presence publicly_visible [].
Definition connect_with_presence rng identity expected_peer presence :=
  connect_with_visibility rng identity expected_peer presence true.
Definition connect rng identity expected_peer :=
  connect_with_presence rng identity expected_peer None.

Definition accept_with_transitions (rng : bytes) (identity : DeviceIdentity) presence
    (publicly_visible : bool) transitions (admits : VerifiedPeer → bool) :
    Proc (result TransportError SecureChannel) :=
  _ ⇐ Return (validate_own identity presence);
  hs ⇐ Return (handshake_build (secret_bytes identity).2 rng false);
  m1 ⇐ read_frame_from;
  hs ⇐ Return (read_message hs m1);
  '(hs, m2) ⇐ Return (write_message hs);
  _ ⇐ write_frame_to m2;
  m3 ⇐ read_frame_from;
  hs ⇐ Return (read_message hs m3);
  out ⇐ Return (into_session hs);
  '(session, peer) ⇐
    auth_exchange identity presence publicly_visible transitions out ReceiveFirst admits;
  Return (Ok (new_channel session peer)).

Definition accept_with_visibility rng identity presence publicly_visible admits :=
  accept_with_transitions rng identity presence publicly_visible [] admits.
Definition accept_with_presence rng identity presence admits :=
  accept_with_visibility rng identity presence true admits.
Definition accept_with_admission rng identity (admits : PublicIdentity → bool) :=
  accept_with_presence rng identity None (λ peer, admits (vp_public peer)).
Definition accept_any rng identity := accept_with_admission rng identity (λ _, true).

(** *** An established channel *)

Definition with_session (c : SecureChannel) (s : NoiseTransport) : SecureChannel :=
  MkSecureChannel s (sc_peer c) (sc_io_admission c) (sc_sent_frame_bytes c)
    (sc_host_generation c) (sc_pairing_only c).

Definition count_sent (c : SecureChannel) (n : N) : SecureChannel :=
  MkSecureChannel (sc_session c) (sc_peer c) (sc_io_admission c)
    (saturating_add u64_max (sc_sent_frame_bytes c) n) (sc_host_generation c) (sc_pairing_only c).

Definition set_host_generation (c : SecureChannel) (generation : N) : SecureChannel :=
  MkSecureChannel (sc_session c) (sc_peer c) (sc_io_admission c) (sc_sent_frame_bytes c)
    (Some generation) (sc_pairing_only c).

Definition restrict_to_pairing (c : SecureChannel) : SecureChannel :=
  MkSecureChannel (sc_session c) (sc_peer c) (sc_io_admission c) (sc_sent_frame_bytes c)
    (sc_host_generation c) true.

(** The installed predicate is the host's: it is asked, never stored. *)
Definition set_io_admission (c : SecureChannel) : SecureChannel :=
  MkSecureChannel (sc_session c) (sc_peer c) true (sc_sent_frame_bytes c)
    (sc_host_generation c) (sc_pairing_only c).

Definition io_admitted (c : SecureChannel) : Proc bool :=
  if sc_io_admission c then AskHost Return else Return true.

(** The caller's [authorize] closure: it may run the commit it is given, look at the
    outcome, and go on. *)
Inductive Authorize :=
  | Finish (r : result TransportError ())
  | Commit (k : result TransportError () → Authorize).

Fixpoint authorize_run (plaintext : bytes) (s : NoiseTransport) (ciphertext : option bytes)
    (a : Authorize) : NoiseTransport * option bytes * result TransportError () :=
  match a with
  | Finish r => (s, ciphertext, r)
  | Commit k =>
      match ciphertext with
      | Some _ => authorize_run plaintext s ciphertext (k (Err AdmissionDenied))
      | None =>
          match session_encrypt s plaintext with
          | (s, Err e) => authorize_run plaintext s None (k (Err e))
          | (s, Ok ct) => authorize_run plaintext s (Some ct) (k (Ok ()))
          end
      end
  end.

Definition encrypt_if (s : NoiseTransport) (plaintext : bytes) (authorize : Authorize) :
    NoiseTransport * result TransportError bytes :=
  let '(s, ciphertext, r) := authorize_run plaintext s None authorize in
  (s, _ ← r; ok_or ciphertext AdmissionDenied).

(** Encrypt, write and count one frame. *)
Definition send_frame (c : SecureChannel) (plaintext : bytes) (authorize : Authorize) :
    Proc (SecureChannel * result TransportError ()) :=
  match encrypt_if (sc_session c) plaintext authorize with
  | (s, Err e) => Return (with_session c s, Err e)
  | (s, Ok ct) =>
      WriteFrame ct (λ r,
        match r with
        | Ok _ => Return (count_sent (with_session c s) (N.of_nat (length ct) + 4), Ok ())
        | Err e => Return (with_session c s, Err e)
        end)
  end.

(** Under a policy gate the wait for it, the check and the write share one deadline; a
    write it cuts short is an error of the write. *)
Definition send_if (c : SecureChannel) (plaintext : bytes) (authorize : Authorize) :
    Proc (SecureChannel * result TransportError ()) :=
  if sc_io_admission c then
    AwaitGate (λ acquired,
      if negb acquired then Return (c, Err (Noise (str "policy-gated send timed out"))) else
      AskHost (λ admitted,
        if negb admitted then Return (c, Err AdmissionDenied) else send_frame c plaintext authorize))
  else send_frame c plaintext authorize.

Definition send (c : SecureChannel) (plaintext : bytes) :
    Proc (SecureChannel * result TransportError ()) :=
  send_if c plaintext (Commit Finish).

Definition recv (c : SecureChannel) : Proc (SecureChannel * result TransportError bytes) :=
  proc_bind (λ before, if negb before then Return (c, Err AdmissionDenied) else
    ReadFrame (λ r,
      match r with
      | Err e => Return (c, Err e)
      | Ok ct =>
          proc_bind (λ after, if negb after then Return (c, Err AdmissionDenied) else
            let '(s, r) := session_decrypt (sc_session c) ct in Return (with_session c s, r))
            (io_admitted c)
      end)) (io_admitted c).
End channel.

(** ** Runs against any environment *)

Inductive IoEvent :=
  | Sent (blob : bytes) (r : result TransportError ())
  | Received (r : result TransportError bytes)
  | GateAcquired (b : bool)
  | HostAnswered (b : bool).

(** The result of the run of [p] along the trace, if it is one of its complete runs. *)
Fixpoint run_along {A} (p : Proc A) (tr : list IoEvent) : option A :=
  match p, tr with
  | Return a, [] => Some a
  | WriteFrame blob k, Sent blob' r :: tr => if decide (blob = blob') then run_along (k r) tr else None
  | ReadFrame k, Received r :: tr => run_along (k r) tr
  | AwaitGate k, GateAcquired b :: tr => run_along (k b) tr
  | AskHost k, HostAnswered b :: tr => run_along (k b) tr
  | _, _ => None
  end.

Lemma run_along_bind {A B} (f : A → Proc B) p tr b :
  run_along (proc_bind f p) tr = Some b ↔
  ∃ tr1 tr2 a, tr = tr1 ++ tr2 ∧ run_along p tr1 = Some a ∧ run_along (f a) tr2 = Some b.
Proof.
  revert tr. induction p as [a|blob k IH|k IH|k IH|k IH]; intros tr; cbn [proc_bind].
  { split; [by intros; exists [], tr, a|]. intros (tr1 & tr2 & a' & -> & Ha & Hb).
    destruct tr1; [|done]. by injection Ha as <-. }
  all: split; [destruct tr as [|e tr]; [done|]; destruct e; try done; cbn [run_along];
         try (case_decide; [|done]); intros (tr1 & tr2 & a & -> & Ha & Hb)%IH;
         eexists (_ :: tr1), tr2, a; split_and!; [done| |done]; cbn [run_along];
         try (rewrite decide_True by done); done
       |intros (tr1 & tr2 & a & -> & Ha & Hb); destruct tr1 as [|e tr1]; [done|];
         destruct e; try done; cbn [run_along app] in *; try (case_decide; [|done]);
         apply IH; by exists tr1, tr2, a].
Qed.

Section inversion.
Context {A B : Type}.
Implicit Types (k : A → Proc (result TransportError B)) (r : result TransportError B).

Lemma run_along_return (a b : B) tr : run_along (Return a) tr = Some b ↔ tr = [] ∧ a = b.
Proof. destruct tr; cbn; naive_solver. Qed.

(** A step either ends the run with its error or hands its value on. *)
Lemma run_along_try p k tr r :
  run_along (proc_try p k) tr = Some r →
  (∃ e, r = Err e ∧ run_along p tr = Some (Err e)) ∨
  (∃ tr1 tr2 a, tr = tr1 ++ tr2 ∧ run_along p tr1 = Some (Ok a) ∧ run_along (k a) tr2 = Some r).
Proof.
  intros (tr1 & tr2 & [a|e] & -> & Hp & Hk)%run_along_bind; [right; by eauto 6|left].
  destruct tr2; [|done]. injection Hk as <-. rewrite app_nil_r. eauto.
Qed.

Lemma run_along_last p k tr r :
  (∀ a tr r, run_along (k a) tr = Some r → tr = []) →
  run_along (proc_try p k) tr = Some r → ∃ o : result TransportError A, run_along p tr = Some o.
Proof.
  intros Hk [(e & -> & Ha)|(tr1 & tr2 & a & -> & Ha & ->%Hk)]%run_along_try; [by eauto|].
  rewrite app_nil_r. eauto.
Qed.

Lemma run_along_pure x k tr r :
  run_along (proc_try (Return x) k) tr = Some r →
  (tr = [] ∧ ∃ e, r = Err e) ∨ (∃ a, x = Ok a ∧ run_along (k a) tr = Some r).
Proof. intros H. destruct x as [a|e]; [right; by exists a|left]. destruct tr; [|done]. cbn in H. naive_solver. Qed.
End inversion.

Lemma run_along_write {B} blob (k : () → Proc (result TransportError B)) tr r :
  run_along (proc_try (write_frame_to blob) k) tr = Some r →
  ∃ w tr', tr = Sent blob w :: tr' ∧
    ((tr' = [] ∧ ∃ e, r = Err e) ∨ (w = Ok () ∧ run_along (k ()) tr' = Some r)).
Proof.
  destruct tr as [|[] tr]; try done. cbn. case_decide; [|done]. subst. intros H.
  do 2 eexists. split; [done|]. destruct r0 as [[]|e]; [by right|left]. destruct tr; [|done]. naive_solver.
Qed.

Lemma run_along_read {B} (k : bytes → Proc (result TransportError B)) tr r :
  run_along (proc_try read_frame_from k) tr = Some r →
  ∃ w tr', tr = Received w :: tr' ∧
    ((tr' = [] ∧ ∃ e, r = Err e) ∨ (∃ m, w = Ok m ∧ run_along (k m) tr' = Some r)).
Proof.
  destruct tr as [|[] tr]; try done. cbn. intros H. do 2 eexists. split; [done|].
  destruct r0 as [m|e]; [right; by exists m|left]. destruct tr; [|done]. naive_solver.
Qed.

Lemma map_err_Ok {E F A} (f : E → F) (x : result E A) a : map_err f x = Ok a ↔ x = Ok a.
Proof. destruct x; cbn; naive_solver. Qed.

(** Follow a run through the next step of the process.  Where the step ends the run with
    an error a successful result is a contradiction; otherwise that goal is left. *)
Tactic Notation "pure_step" hyp(H) simple_intropattern(p) ident(E) :=
  apply run_along_pure in H as [[-> [? ?]]|[p [E H]]]; [try discriminate|cbv beta iota in H].
Tactic Notation "write_step" hyp(H) :=
  let tr := fresh "tr" in
  apply run_along_write in H as (? & tr & -> & [[-> [? ?]]|[-> H]]); [try discriminate|].
Tactic Notation "read_step" hyp(H) ident(m) :=
  let tr := fresh "tr" in
  apply run_along_read in H as (? & tr & -> & [[-> [? ?]]|[m [-> H]]]); [try discriminate|].

Section authentication.
Context `{Crypto, !CryptoLaws, PresenceCodecs, !PresenceLaws, NoiseProtocol}.
Implicit Types (presence : option Announce) (ts : list AccountBindingTransition).

(** The states a handshake goes through on the messages it exchanged. *)
Definition initiator_run (secret rng m1 m2 m3 : bytes) (hs : NoiseState) : Prop :=
  ∃ s0 s1 s2, noise_build true secret rng = Ok s0 ∧ noise_write s0 = Ok (s1, m1) ∧
    noise_read s1 m2 = Ok s2 ∧ noise_write s2 = Ok (hs, m3).

Definition responder_run (secret rng m1 m2 m3 : bytes) (hs : NoiseState) : Prop :=
  ∃ s0 s1 s2, noise_build false secret rng = Ok s0 ∧ noise_read s0 m1 = Ok s1 ∧
    noise_write s1 = Ok (s2, m2) ∧ noise_read s2 m3 = Ok hs.

Lemma into_session_Ok hs out :
  into_session hs = Ok out →
  noise_finished hs = true ∧ noise_hash hs = ho_handshake_hash out ∧
  noise_remote_static hs = Some (ho_remote_static out) ∧ length (ho_handshake_hash out) = 32.
Proof.
  unfold into_session. destruct (noise_finished hs); [|done]. cbn [negb]. case_decide; [done|].
  bind_step remote eqn Hr. bind_step t eqn Ht. intros [= <-]. cbn. split_and!; [done..| |done].
  revert Hr. unfold remote_static. bind_step key eqn Hk. case_decide; [|done]. intros [= <-].
  by apply ok_or_Ok in Hk.
Qed.

Lemma verify_peer_Ok s ct hash remote s' peer :
  verify_peer s ct hash remote = Ok (s', peer) → proves hash remote peer.
Proof.
  unfold verify_peer. destruct (session_decrypt s ct) as [s1 r]. bind_step bs eqn Hb.
  bind_step p eqn Hp. intros [= <- <-]. by eapply presence_verify_sound.
Qed.

Lemma pin_identity_Ok expected peer u :
  pin_identity expected peer = Ok u → ∀ e, expected = Some e → vp_public peer = e.
Proof. intros Hpin e ->. unfold pin_identity in Hpin. by case_decide. Qed.

Lemma connect_run rng d expected presence visible ts tr c :
  run_along (connect_with_transitions rng d expected presence visible ts) tr = Some (Ok c) →
  ∃ m1 m2 m3 ct peer_ct hs remote,
    tr = [Sent m1 (Ok ()); Received (Ok m2); Sent m3 (Ok ()); Sent ct (Ok ()); Received (Ok peer_ct)] ∧
    initiator_run (dh_secret d) rng m1 m2 m3 hs ∧ noise_finished hs = true ∧
    noise_remote_static hs = Some remote ∧ length (noise_hash hs) = 32 ∧
    proves (noise_hash hs) remote (sc_peer c) ∧
    ∀ e, expected = Some e → vp_public (sc_peer c) = e.
Proof.
  intros Hr. unfold connect_with_transitions in Hr.
  pure_step Hr [] Hown. pure_step Hr s0 H0'. pure_step Hr [s1 m1] H1'. write_step Hr.
  read_step Hr m2. pure_step Hr s2 H2'. pure_step Hr [] Hpin. pure_step Hr [hs m3] H3'. write_step Hr.
  pure_step Hr out Hout. apply run_along_try in Hr as [(? & ? & ?)|(tr1 & tr2 & [s4 peer] & -> & Ha & Hr)]; [done|].
  unfold auth_exchange in Ha. pure_step Ha [s5 ct] Hct. write_step Ha. read_step Ha peer_ct.
  apply run_along_return in Ha as [-> Hver%verify_peer_Ok]. pure_step Hr [] Hid.
  apply run_along_return in Hr as [-> Hc]. injection Hc as <-. apply map_err_Ok in H0', H1', H2', H3'.
  apply into_session_Ok in Hout as (Hf & Hh & Hrs & Hl). rewrite <-Hh in *.
  exists m1, m2, m3, ct, peer_ct, hs, (ho_remote_static out).
  split_and!; [done| |done..|by eapply pin_identity_Ok]. by exists s0, s1, s2.
Qed.

Lemma accept_run rng d presence visible ts admits tr c :
  run_along (accept_with_transitions rng d presence visible ts admits) tr = Some (Ok c) →
  ∃ m1 m2 m3 ct peer_ct hs remote,
    tr = [Received (Ok m1); Sent m2 (Ok ()); Received (Ok m3); Received (Ok peer_ct); Sent ct (Ok ())] ∧
    responder_run (dh_secret d) rng m1 m2 m3 hs ∧ noise_finished hs = true ∧
    noise_remote_static hs = Some remote ∧ length (noise_hash hs) = 32 ∧
    proves (noise_hash hs) remote (sc_peer c) ∧ admits (sc_peer c) = true.
Proof.
  intros Hr. unfold accept_with_transitions in Hr.
  pure_step Hr [] Hown. pure_step Hr s0 H0'. read_step Hr m1. pure_step Hr s1 H1'.
  pure_step Hr [s2 m2] H2'. write_step Hr. read_step Hr m3. pure_step Hr hs H3'.
  pure_step Hr out Hout. apply run_along_try in Hr as [(? & ? & ?)|(tr1 & tr2 & [s4 peer] & -> & Ha & Hr)]; [done|].
  unfold auth_exchange in Ha. read_step Ha peer_ct. pure_step Ha [s5 peer'] Hver.
  destruct (admits peer') eqn:Hadm; cbn [negb] in Ha; [|by apply run_along_return in Ha as [_ ?]].
  pure_step Ha [s6 ct] Hct. write_step Ha. apply run_along_return in Ha as [-> Hp]. injection Hp as -> ->.
  apply run_along_return in Hr as [-> Hc]. injection Hc as <-. apply map_err_Ok in H0', H1', H2', H3'.
  apply into_session_Ok in Hout as (Hf & Hh & Hrs & Hl). apply verify_peer_Ok in Hver. rewrite <-Hh in *.
  exists m1, m2, m3, ct, peer_ct, hs, (ho_remote_static out).
  split_and!; [done| |done..]. by exists s0, s1, s2.
Qed.

(** C12: A channel is authenticated, whatever the network does.  In every run of dialling or
    accepting that yields a channel, on any bytes the other end or an attacker supplies:
    the exchange was the complete Noise XX handshake followed by both proofs, in the
    order of the role; the peer's X25519 key is the one Noise authenticated; its
    Ed25519 key signed the hash of exactly this handshake; an account it claims is
    certified for these keys and signed, with its visibility and transitions, for this
    session; the dialled peer is the expected one; and an accepted peer passed the
    admission predicate. *)
Theorem channel_authenticated rng d presence visible ts tr c :
  (∀ expected,
    run_along (connect_with_transitions rng d expected presence visible ts) tr = Some (Ok c) →
    ∃ m1 m2 m3 ct peer_ct hs remote,
      tr = [Sent m1 (Ok ()); Received (Ok m2); Sent m3 (Ok ()); Sent ct (Ok ());
            Received (Ok peer_ct)] ∧
      initiator_run (dh_secret d) rng m1 m2 m3 hs ∧ noise_finished hs = true ∧
      noise_remote_static hs = Some remote ∧ length (noise_hash hs) = 32 ∧
      proves (noise_hash hs) remote (sc_peer c) ∧
      ∀ e, expected = Some e → vp_public (sc_peer c) = e) ∧
  (∀ admits,
    run_along (accept_with_transitions rng d presence visible ts admits) tr = Some (Ok c) →
    ∃ m1 m2 m3 ct peer_ct hs remote,
      tr = [Received (Ok m1); Sent m2 (Ok ()); Received (Ok m3); Received (Ok peer_ct);
            Sent ct (Ok ())] ∧
      responder_run (dh_secret d) rng m1 m2 m3 hs ∧ noise_finished hs = true ∧
      noise_remote_static hs = Some remote ∧ length (noise_hash hs) = 32 ∧
      proves (noise_hash hs) remote (sc_peer c) ∧ admits (sc_peer c) = true).
Proof. split; intros ?; [apply connect_run|apply accept_run]. Qed.

Lemma pin_static_Ok e hs u :
  pin_static (Some e) hs = Ok u → noise_remote_static hs = Some (x25519_pub e).
Proof.
  unfold pin_static, remote_static. destruct (noise_remote_static hs) as [key|]; [|done].
  simpl_bind. case_decide; [|done]. simpl_bind. by case_decide; subst.
Qed.

Lemma auth_receive_first d presence visible ts out admits tr r :
  run_along (auth_exchange d presence visible ts out ReceiveFirst admits) tr = Some r →
  length tr ≤ 1 ∨ ∃ ct tr' s peer, tr = Received (Ok ct) :: tr' ∧
    verify_peer (ho_session out) ct (ho_handshake_hash out) (ho_remote_static out) = Ok (s, peer) ∧
    admits peer = true.
Proof.
  intros Ha. unfold auth_exchange in Ha. read_step Ha ct; [left; cbn; lia|].
  pure_step Ha [s peer] Hver; [left; cbn; lia|].
  destruct (admits peer) eqn:Hadm; [right; naive_solver|]. cbn [negb] in Ha.
  apply run_along_return in Ha as [-> _]. left; cbn; lia.
Qed.

(** C18: Nothing is disclosed early.  In every run, successful or not, against any network:
    a dialler that expects a peer sends its own static key (the third message, and then
    its proof) only after Noise authenticated the expected peer's static key; a listener
    sends its identity proof only after the caller's proof verified and the admission
    predicate accepted it. *)
Theorem nothing_disclosed_early rng d presence visible ts tr r :
  (∀ e, run_along (connect_with_transitions rng d (Some e) presence visible ts) tr = Some r →
    length tr ≤ 2 ∨
    ∃ m1 m2 tr' s0 s1 s2, tr = Sent m1 (Ok ()) :: Received (Ok m2) :: tr' ∧
      noise_build true (dh_secret d) rng = Ok s0 ∧ noise_write s0 = Ok (s1, m1) ∧
      noise_read s1 m2 = Ok s2 ∧ noise_remote_static s2 = Some (x25519_pub e)) ∧
  (∀ admits, run_along (accept_with_transitions rng d presence visible ts admits) tr = Some r →
    length tr ≤ 4 ∨
    ∃ m1 m2 m3 peer_ct tr' hs remote peer,
      tr = Received (Ok m1) :: Sent m2 (Ok ()) :: Received (Ok m3) :: Received (Ok peer_ct) :: tr' ∧
      responder_run (dh_secret d) rng m1 m2 m3 hs ∧ noise_remote_static hs = Some remote ∧
      proves (noise_hash hs) remote peer ∧ admits peer = true).
Proof.
  split.
  - intros e Hr. unfold connect_with_transitions in Hr.
    pure_step Hr [] Hown; [left; cbn; lia|]. pure_step Hr s0 H0'; [left; cbn; lia|].
    pure_step Hr [s1 m1] H1'; [left; cbn; lia|]. write_step Hr; [left; cbn; lia|].
    read_step Hr m2; [left; cbn; lia|]. pure_step Hr s2 H2'; [left; cbn; lia|].
    pure_step Hr u Hpin; [left; cbn; lia|]. right. apply pin_static_Ok in Hpin.
    apply map_err_Ok in H0', H1', H2'. naive_solver.
  - intros admits Hr. unfold accept_with_transitions in Hr.
    pure_step Hr [] Hown; [left; cbn; lia|]. pure_step Hr s0 H0'; [left; cbn; lia|].
    read_step Hr m1; [left; cbn; lia|]. pure_step Hr s1 H1'; [left; cbn; lia|].
    pure_step Hr [s2 m2] H2'; [left; cbn; lia|]. write_step Hr; [left; cbn; lia|].
    read_step Hr m3; [left; cbn; lia|]. pure_step Hr hs H3'; [left; cbn; lia|].
    pure_step Hr out Hout; [left; cbn; lia|].
    apply run_along_last in Hr as [r' Ha]; [|by intros [] ? ? [-> _]%run_along_return].
    apply auth_receive_first in Ha as [Hlen|(pct & tr' & s' & peer & -> & Hver%verify_peer_Ok & Hadm)];
      [left; cbn; lia|right].
    apply map_err_Ok in H0', H1', H2', H3'. apply into_session_Ok in Hout as (_ & Hh & Hrs & _).
    exists m1, m2, m3, pct, tr', hs, (ho_remote_static out), peer. rewrite Hh.
    split_and!; [done| |done..]. by exists s0, s1, s2.
Qed.

(** The caller's closure gets at most one encryption out of its commit, and none when it
    never commits; a second commit is refused. *)
Lemma authorize_encrypts_once plaintext s a s' ct r :
  authorize_run plaintext s None a = (s', ct, r) →
  match ct with
  | Some ct => ∃ s0, session_encrypt s0 plaintext = (s', Ok ct)
  | None => True
  end.
Proof.
  assert (∀ a s0 s1 c s2 ct' r', session_encrypt s0 plaintext = (s1, Ok c) →
    authorize_run plaintext s1 (Some c) a = (s2, ct', r') → s2 = s1 ∧ ct' = Some c) as Hsome.
  { clear. induction a as [r|k IH]; intros s0 s1 c s2 ct' r' He; cbn [authorize_run]; [by intros [= <- <- _]|].
    intros Hr. by eapply IH. }
  revert s. induction a as [r0|k IH]; intros s; cbn [authorize_run]; [by intros [= <- <- _]|].
  destruct (session_encrypt s plaintext) as [s1 [c|e]] eqn:He.
  - intros Hr. destruct (Hsome _ _ _ _ _ _ _ He Hr) as [-> ->]. by exists s.
  - intros Hr. by eapply IH.
Qed.

(** A send the host refuses, or whose gate times out, consumes no message of the session:
    the channel is unchanged and nothing was written. *)
Lemma refused_send_keeps_channel c plaintext a tr c' r :
  sc_io_admission c = true → run_along (send_if c plaintext a) tr = Some (c', r) →
  (c' = c ∧ r ≠ Ok () ∧ ∀ blob w, Sent blob w ∉ tr) ∨
  ∃ tr', tr = GateAcquired true :: HostAnswered true :: tr'.
Proof.
  intros Hadm. unfold send_if. rewrite Hadm. destruct tr as [|[| |g|] tr]; try done. cbn [run_along].
  destruct g; cbn [negb]; [|rewrite run_along_return; intros [-> [= <- <-]]; left; set_solver].
  destruct tr as [|[| | |h] tr]; try done. cbn [run_along].
  destruct h; cbn [negb]; [by eauto|]. rewrite run_along_return. intros [-> [= <- <-]]. left. set_solver.
Qed.
End authentication.
