(* ===== verification/TransportDelivery.v ===== *)
(** * Two ends of a channel

    Composes the dialling and the accepting side of transport/channel.rs over a reliable
    byte stream in each direction, with every interleaving of their steps, and the
    messages they then exchange. *)

From S2P Require Import Prelude Crypto Bincode Identity Announce Transition Framing Presence Transport.

(** What a Noise XX implementation provides: a handshake whose three messages are
    delivered authenticates each static key to the other side and leaves the two ends
    linked, with one binding hash; a link delivers what was encrypted, in order, up to
    the [u64] message counter, and its two directions are independent.  [noise_link n a
    q b] says that [a] has encrypted [n] messages, of which [b] has yet to decrypt [q]. *)
Class NoiseLaws `{Crypto, NoiseProtocol} := {
  noise_link : N → NoiseTransport → list (bytes * bytes) → NoiseTransport → Prop;
  noise_xx si sr ri rr :
    length si = 32 → length sr = 32 →
    ∃ i0 i1 i2 i3 r0 r1 r2 r3 m1 m2 m3 ti tr,
      noise_build true si ri = Ok i0 ∧ noise_build false sr rr = Ok r0 ∧
      noise_write i0 = Ok (i1, m1) ∧ noise_read r0 m1 = Ok r1 ∧
      noise_write r1 = Ok (r2, m2) ∧ noise_read i1 m2 = Ok i2 ∧
      noise_remote_static i2 = Some (x25519_public sr) ∧
      noise_write i2 = Ok (i3, m3) ∧ noise_read r2 m3 = Ok r3 ∧
      Forall (λ m, (N.of_nat (length m) ≤ MAX_FRAME)%N) [m1; m2; m3] ∧
      noise_finished i3 = true ∧ noise_finished r3 = true ∧
      noise_hash i3 = noise_hash r3 ∧ length (noise_hash i3) = 32 ∧
      noise_remote_static i3 = Some (x25519_public sr) ∧
      noise_remote_static r3 = Some (x25519_public si) ∧
      noise_transport i3 = Ok ti ∧ noise_transport r3 = Ok tr ∧
      noise_link 0 ti [] tr ∧ noise_link 0 tr [] ti;
  noise_encrypt_link n a q b p :
    noise_link n a q b → (n < u64_max)%N → (N.of_nat (length p) ≤ MAX_PLAINTEXT)%N →
    ∃ a' ct, noise_encrypt a p = (a', Ok ct) ∧ length ct = length p + 16 ∧
      noise_link (n + 1) a' (q ++ [(p, ct)]) b ∧
      ∀ n' x q', noise_link n' x q' a → noise_link n' x q' a';
  noise_decrypt_link n a p ct q b :
    noise_link n a ((p, ct) :: q) b →
    ∃ b', noise_decrypt b ct = (b', Ok p) ∧ noise_link n a q b' ∧
      ∀ n' x q', noise_link n' b q' x → noise_link n' b' q' x
}.

(** ** Two processes over a duplex stream of frames *)

Record Duplex (A B : Type) := MkDuplex {
  left_end : Proc A;
  right_end : Proc B;
  to_right : list bytes;
  to_left : list bytes
}.
Arguments MkDuplex {A B} _ _ _ _.
Arguments left_end {A B} _.
Arguments right_end {A B} _.
Arguments to_right {A B} _.
Arguments to_left {A B} _.

Inductive dstep {A B} : Duplex A B → Duplex A B → Prop :=
  | left_writes b k q tr tl :
      dstep (MkDuplex (WriteFrame b k) q tr tl) (MkDuplex (k (Ok ())) q (tr ++ [b]) tl)
  | left_reads k q m tr tl :
      (N.of_nat (length m) ≤ MAX_FRAME)%N →
      dstep (MkDuplex (ReadFrame k) q tr (m :: tl)) (MkDuplex (k (Ok m)) q tr tl)
  | right_writes b k p tr tl :
      dstep (MkDuplex p (WriteFrame b k) tr tl) (MkDuplex p (k (Ok ())) tr (tl ++ [b]))
  | right_reads k p m tr tl :
      (N.of_nat (length m) ≤ MAX_FRAME)%N →
      dstep (MkDuplex p (ReadFrame k) (m :: tr) tl) (MkDuplex p (k (Ok m)) tr tl).

(** The steps of the two ends commute. *)
Lemma dstep_commute {A B} (x y1 y2 : Duplex A B) :
  dstep x y1 → dstep x y2 → y1 = y2 ∨ ∃ z, dstep y1 z ∧ dstep y2 z.
Proof.
  intros H1 H2. destruct H1; inversion H2; simplify_eq; try (by left); right;
    eexists; split; cbn [app]; by econstructor.
Qed.

Definition mirror {A B} (c : Duplex A B) : Duplex B A :=
  MkDuplex (right_end c) (left_end c) (to_left c) (to_right c).

Lemma dstep_mirror {A B} (c c' : Duplex A B) : dstep c c' → dstep (mirror c) (mirror c').
Proof. destruct 1; by constructor. Qed.

Lemma nsteps_mirror {A B} n (c c' : Duplex A B) :
  nsteps dstep n c c' → nsteps dstep n (mirror c) (mirror c').
Proof. induction 1; econstructor; eauto using dstep_mirror. Qed.

(** ** A conversation: open the channel, send everything, receive what is due *)

Section conversation.
Context `{Crypto, !CryptoLaws, PresenceCodecs, !PresenceLaws, NoiseProtocol, !NoiseLaws}.
Implicit Types (c : SecureChannel) (msgs : list bytes).

Fixpoint send_all c msgs : Proc (SecureChannel * result TransportError ()) :=
  match msgs with
  | [] => Return (c, Ok ())
  | m :: msgs =>
      proc_bind (λ '(c, r), match r with Ok _ => send_all c msgs | Err e => Return (c, Err e) end)
        (send c m)
  end.

Fixpoint recv_all c (n : nat) (got : list bytes) :
    Proc (SecureChannel * result TransportError (list bytes)) :=
  match n with
  | O => Return (c, Ok got)
  | S n =>
      proc_bind (λ '(c, r), match r with Ok m => recv_all c n (got ++ [m]) | Err e => Return (c, Err e) end)
        (recv c)
  end.

Definition finish (x : SecureChannel * result TransportError (list bytes)) :
    Proc (result TransportError (SecureChannel * list bytes)) :=
  let '(c, r) := x in Return (ms ← r; Ok (c, ms)).

Definition then_recv (n : nat) (x : SecureChannel * result TransportError ()) :
    Proc (result TransportError (SecureChannel * list bytes)) :=
  match x with
  | (c, Ok _) => proc_bind finish (recv_all c n [])
  | (c, Err e) => Return (Err e)
  end.

Definition talk msgs (n : nat) (opened : result TransportError SecureChannel) :
    Proc (result TransportError (SecureChannel * list bytes)) :=
  match opened with
  | Err e => Return (Err e)
  | Ok c => proc_bind (then_recv n) (send_all c msgs)
  end.

Definition converse (open : Proc (result TransportError SecureChannel)) msgs (n : nat) :=
  proc_bind (talk msgs n) open.

(** *** Messages over an established channel *)

Lemma left_send_all {A B} c msgs n q b (f : _ → Proc A) (r : Proc B) tr tl :
  sc_io_admission c = false → noise_link n (sc_session c) q b →
  (n + N.of_nat (length msgs) ≤ u64_max)%N →
  Forall (λ m, (N.of_nat (length m) ≤ MAX_PLAINTEXT)%N) msgs →
  ∃ c' cts, length cts = length msgs ∧ Forall (λ m, (N.of_nat (length m) ≤ MAX_FRAME)%N) cts ∧
    nsteps dstep (length msgs) (MkDuplex (proc_bind f (send_all c msgs)) r tr tl)
      (MkDuplex (f (c', Ok ())) r (tr ++ cts) tl) ∧
    sc_peer c' = sc_peer c ∧ sc_io_admission c' = false ∧
    noise_link (n + N.of_nat (length msgs)) (sc_session c') (q ++ zip msgs cts) b ∧
    ∀ n' x q', noise_link n' x q' (sc_session c) → noise_link n' x q' (sc_session c').
Proof.
  revert c n q tr. induction msgs as [|m msgs IH]; intros c n q tr Hadm Hl Hn Hms; cbn [length send_all].
  { exists c, []. cbn [length zip zip_with]. rewrite !app_nil_r, N.add_0_r. split_and!; [done..|constructor|done|done|done|done]. }
  apply Forall_cons in Hms as [Hm Hms]. cbn [length] in Hn.
  destruct (noise_encrypt_link n (sc_session c) q b m Hl ltac:(lia) Hm) as (s' & ct & He & Hct & Hl' & Hrev).
  set (c1 := count_sent (with_session c s') (N.of_nat (length ct) + 4)).
  destruct (IH c1 (n + 1)%N (q ++ [(m, ct)]) (tr ++ [ct]) Hadm Hl' ltac:(lia) Hms)
    as (c' & cts & Hlen & Hfr & Hst & Hp & Ha & Hl2 & Hrev2).
  exists c', (ct :: cts). cbn [length zip zip_with].
  rewrite <-!(assoc_L (++)) in *. cbn [app] in *.
  split_and!; [by rewrite Hlen| |econstructor; [|exact Hst]|done|done|by replace (n + N.of_nat (S (length msgs)))%N with (n + 1 + N.of_nat (length msgs))%N by lia|by eauto].
  - constructor; [|done]. rewrite Hct. unfold MAX_PLAINTEXT, MAX_FRAME in *. lia.
  - unfold send, send_if. rewrite Hadm. unfold send_frame, encrypt_if. cbn [authorize_run].
    unfold session_encrypt. rewrite decide_False by lia. rewrite He. simpl_bind. cbn [authorize_run proc_bind].
    constructor.
Qed.

Lemma left_recv_all {A B} c msgs cts n a got (f : _ → Proc A) (r : Proc B) tr tl :
  sc_io_admission c = false → noise_link n a (zip msgs cts) (sc_session c) →
  length cts = length msgs → Forall (λ m, (N.of_nat (length m) ≤ MAX_FRAME)%N) cts →
  ∃ c', nsteps dstep (length msgs)
      (MkDuplex (proc_bind f (recv_all c (length msgs) got)) r tr (cts ++ tl))
      (MkDuplex (f (c', Ok (got ++ msgs))) r tr tl) ∧
    sc_peer c' = sc_peer c ∧ sc_io_admission c' = false ∧ noise_link n a [] (sc_session c') ∧
    ∀ n' x q', noise_link n' (sc_session c) q' x → noise_link n' (sc_session c') q' x.
Proof.
  revert c cts got. induction msgs as [|m msgs IH]; intros c cts got Hadm Hl Hlen Hfr; cbn [length recv_all].
  { destruct cts; [|done]. exists c. rewrite app_nil_r. split_and!; [constructor|done..]. }
  destruct cts as [|ct cts]; [done|]. apply Forall_cons in Hfr as [Hct Hfr]. cbn [zip zip_with] in Hl.
  destruct (noise_decrypt_link n a m ct _ _ Hl) as (s' & Hd & Hl' & Hrev).
  destruct (IH (with_session c s') cts (got ++ [m]) Hadm Hl' ltac:(cbn in Hlen; lia) Hfr)
    as (c' & Hst & Hp & Ha & Hl2 & Hrev2).
  exists c'. rewrite <-(assoc_L (++)) in Hst. cbn [app] in *. split_and!; [|done..|by eauto].
  econstructor; [|exact Hst]. unfold recv, io_admitted. rewrite Hadm. cbn [proc_bind negb app].
  eapply eq_ind; [by apply left_reads|]. cbn [proc_bind negb]. unfold session_decrypt. rewrite Hd. done.
Qed.

(** *** The handshake *)

(** A device that can prove itself: its own announcement is valid, and its proof fits. *)
Definition presenting (d : DeviceIdentity) (presence : option Announce) (visible : bool)
    (ts : list AccountBindingTransition) : Prop :=
  type_wf d ∧ (∀ a, presence = Some a → presentable a ts) ∧
  ∀ hash, length hash = 32 → ∃ bs, build_with_transitions d hash presence visible ts = Ok bs.

Definition own_peer (d : DeviceIdentity) presence visible ts : VerifiedPeer :=
  MkPeer (public d) presence visible ts.

Lemma presenting_own d presence visible ts :
  presenting d presence visible ts → validate_own d presence = Ok ().
Proof.
  intros (_ & _ & Hb). destruct (Hb (repeat Byte.x00 32) eq_refl) as [bs Hbs].
  unfold build_with_transitions in Hbs. by destruct (validate_own d presence) as [[]|].
Qed.

Lemma into_session_finished hs remote t :
  noise_finished hs = true → length (noise_hash hs) = 32 → noise_remote_static hs = Some remote →
  length remote = 32 → noise_transport hs = Ok t →
  into_session hs = Ok (MkOutput t remote (noise_hash hs)).
Proof.
  intros Hf Hh Hr Hl Ht. unfold into_session, remote_static. rewrite Hf. cbn [negb].
  rewrite decide_False by (intros Hx; by apply Hx). rewrite Hr. simpl_bind.
  rewrite decide_True by done. simpl_bind. by rewrite Ht.
Qed.

(** A proof sent over a link is read exactly. *)
Lemma auth_over_link d presence visible ts hash n a b :
  presenting d presence visible ts → length hash = 32 → noise_link n a [] b → (n < u64_max)%N →
  ∃ a' b' ct, encrypt_auth a d hash presence visible ts = Ok (a', ct) ∧
    (N.of_nat (length ct) ≤ MAX_FRAME)%N ∧
    verify_peer b ct hash (x25519_public (dh_secret d)) = Ok (b', own_peer d presence visible ts) ∧
    noise_link (n + 1) a' [] b' ∧
    (∀ n' x q', noise_link n' x q' a → noise_link n' x q' a') ∧
    (∀ n' x q', noise_link n' b q' x → noise_link n' b' q' x).
Proof.
  intros (Hd & Hp & Hb) Hh Hl Hn. destruct (Hb hash Hh) as [bs Hbs].
  destruct (presence_build_verify d hash presence visible ts bs Hd Hp Hbs) as [Hsz Hver].
  destruct (noise_encrypt_link n a [] b bs Hl Hn Hsz) as (a' & ct & He & Hct & Hl' & Hra).
  destruct (noise_decrypt_link _ _ _ _ _ _ Hl') as (b' & Hdec & Hl2 & Hrb).
  exists a', b', ct. unfold encrypt_auth, verify_peer, session_encrypt, session_decrypt.
  rewrite Hbs. simpl_bind. rewrite decide_False by lia. rewrite He, Hdec. simpl_bind.
  cbn [public x25519_pub] in Hver. rewrite Hver. simpl_bind.
  split_and!; [done| |done..]. rewrite Hct. unfold MAX_PLAINTEXT, MAX_FRAME in *. lia.
Qed.

(** One step of the pair of processes, and the next outcome that is known. *)
Tactic Notation "step" uconstr(c) := econstructor; [by apply c|cbn [proc_bind app]].
Tactic Notation "known" constr(H) := cbn [proc_bind]; rewrite H; cbn [map_err proc_bind negb].

Lemma handshake_steps {A B} di pi vi tsi dr pr vr tsr ri rr admits (fl : _ → Proc A) (fr : _ → Proc B) :
  presenting di pi vi tsi → presenting dr pr vr tsr → admits (own_peer di pi vi tsi) = true →
  ∃ ci cr, nsteps dstep 10
      (MkDuplex (proc_bind fl (connect_with_transitions ri di (Some (public dr)) pi vi tsi))
         (proc_bind fr (accept_with_transitions rr dr pr vr tsr admits)) [] [])
      (MkDuplex (fl (Ok ci)) (fr (Ok cr)) [] []) ∧
    sc_peer ci = own_peer dr pr vr tsr ∧ sc_peer cr = own_peer di pi vi tsi ∧
    sc_io_admission ci = false ∧ sc_io_admission cr = false ∧
    noise_link 1 (sc_session ci) [] (sc_session cr) ∧ noise_link 1 (sc_session cr) [] (sc_session ci).
Proof.
  intros Hi Hr Hadm.
  destruct (noise_xx (dh_secret di) (dh_secret dr) ri rr (proj2 (proj1 Hi)) (proj2 (proj1 Hr)))
    as (i0 & i1 & i2 & i3 & r0 & r1 & r2 & r3 & m1 & m2 & m3 & ti & tr & Hi0 & Hr0 & Hw1 & Hr1 & Hw2 &
        Hi2 & Hpin & Hw3 & Hr3 & Hfr & Hfi & Hfr3 & Hhash & Hlen & Hrsi & Hrsr & Hti & Htr & Hl1 & Hl2).
  apply Forall_cons in Hfr as [Hm1 Hfr]. apply Forall_cons in Hfr as [Hm2 Hfr]. apply Forall_cons in Hfr as [Hm3 _].
  destruct (auth_over_link di pi vi tsi (noise_hash i3) 0 ti tr Hi Hlen Hl1 ltac:(by vm_compute))
    as (ti1 & tr1 & ct1 & He1 & Hc1 & Hv1 & Hl3 & Hk1 & Hk2).
  apply Hk1, Hk2 in Hl2.
  destruct (auth_over_link dr pr vr tsr (noise_hash i3) 0 tr1 ti1 Hr Hlen Hl2 ltac:(by vm_compute))
    as (tr2 & ti2 & ct2 & He2 & Hc2 & Hv2 & Hl4 & Hk3 & Hk4).
  apply Hk3, Hk4 in Hl3.
  exists (new_channel ti2 (own_peer dr pr vr tsr)), (new_channel tr2 (own_peer di pi vi tsi)).
  split_and!; [|done..].
  pose proof (into_session_finished i3 _ ti Hfi Hlen Hrsi (x25519_public_length _) Hti) as Hsi.
  pose proof (into_session_finished r3 _ tr Hfr3 ltac:(by rewrite <-Hhash) Hrsr (x25519_public_length _) Htr) as Hsr.
  unfold connect_with_transitions, accept_with_transitions, proc_try, write_frame_to, read_frame_from.
  unfold handshake_build, write_message, read_message. cbn [secret_bytes snd].
  known (presenting_own _ _ _ _ Hi). known (presenting_own _ _ _ _ Hr). known Hi0. known Hr0. known Hw1.
  step left_writes. step right_reads. known Hr1. known Hw2. step right_writes. step left_reads. known Hi2.
  unfold pin_static, remote_static. rewrite Hpin. simpl_bind.
  rewrite decide_True by apply x25519_public_length. simpl_bind.
  rewrite decide_False by (cbn; intros Hx; by apply Hx). known Hw3.
  step left_writes. step right_reads. known Hr3. known Hsi. known Hsr.
  unfold auth_exchange, proc_try, write_frame_to, read_frame_from.
  cbn [ho_session ho_handshake_hash ho_remote_static]. rewrite <-Hhash. known He1.
  step left_writes. step right_reads. known Hv1. known Hadm. known He2.
  step right_writes. step left_reads. known Hv2.
  unfold pin_identity. rewrite decide_False by (cbn; intros Hx; by apply Hx). constructor.
Qed.

End conversation.

(** ** A concrete protocol

    Messages in clear with counters: enough to satisfy the laws and to run. *)

Module ToyNoise.
Import ToyCrypto.

Record toy_state := MkToy {
  ts_initiator : bool;
  ts_secret : bytes;
  ts_rng : bytes;
  ts_log : list bytes;
  ts_remote : option bytes
}.

Record toy_transport := MkToyTransport { tt_initiator : bool; tt_sent : N; tt_received : N }.

Definition logged (s : toy_state) (m : bytes) (remote : option bytes) : toy_state :=
  MkToy (ts_initiator s) (ts_secret s) (ts_rng s) (ts_log s ++ [m]) remote.

Definition toy_write (s : toy_state) : result bytes (toy_state * bytes) :=
  match ts_initiator s, length (ts_log s) with
  | true, 0 => let m := x25519_public (ts_rng s) in Ok (logged s m None, m)
  | false, 1 => let m := x25519_public (ts_rng s) ++ x25519_public (ts_secret s) in
                Ok (logged s m None, m)
  | true, 2 => let m := x25519_public (ts_secret s) in Ok (logged s m (ts_remote s), m)
  | _, _ => Err (str "not my turn")
  end.

Definition toy_read (s : toy_state) (m : bytes) : result bytes toy_state :=
  match ts_initiator s, length (ts_log s) with
  | false, 0 => Ok (logged s m None)
  | true, 1 => Ok (logged s m (Some (drop 32 m)))
  | false, 2 => Ok (logged s m (Some m))
  | _, _ => Err (str "not my turn")
  end.

Definition header (initiator : bool) (n : N) : bytes :=
  be_bytes 8 n ++ be_bytes 8 (if initiator then 1 else 0).

Definition toy_encrypt (t : toy_transport) (p : bytes) : toy_transport * result bytes bytes :=
  (MkToyTransport (tt_initiator t) (tt_sent t + 1) (tt_received t),
   Ok (header (tt_initiator t) (tt_sent t) ++ p)).

Definition toy_decrypt (t : toy_transport) (ct : bytes) : toy_transport * result bytes bytes :=
  if decide (take 16 ct = header (negb (tt_initiator t)) (tt_received t))
  then (MkToyTransport (tt_initiator t) (tt_sent t) (tt_received t + 1), Ok (drop 16 ct))
  else (t, Err (str "decrypt error")).

#[export] Instance toy_noise : NoiseProtocol := {|
  NoiseState := toy_state;
  NoiseTransport := toy_transport;
  noise_build i secret rng := Ok (MkToy i secret rng [] None);
  noise_write := toy_write;
  noise_read := toy_read;
  noise_finished s := bool_decide (length (ts_log s) = 3);
  noise_remote_static := ts_remote;
  noise_hash s := sha256 (concat (ts_log s));
  noise_transport s := Ok (MkToyTransport (ts_initiator s) 0 0);
  noise_encrypt := toy_encrypt;
  noise_decrypt := toy_decrypt
|}.

Fixpoint in_flight (initiator : bool) (k : N) (q : list (bytes * bytes)) : Prop :=
  match q with
  | [] => True
  | (p, ct) :: q => ct = header initiator k ++ p ∧ in_flight initiator (k + 1) q
  end.

Lemma in_flight_app i k q p :
  in_flight i k q → in_flight i k (q ++ [(p, header i (k + N.of_nat (length q)) ++ p)]).
Proof.
  revert k. induction q as [|[p' ct] q IH]; intros k; cbn [app in_flight length].
  - rewrite N.add_0_r. done.
  - intros [-> Hq]. split; [done|]. replace (k + N.of_nat (S (length q)))%N with (k + 1 + N.of_nat (length q))%N by lia.
    by apply IH.
Qed.

Definition toy_link (n : N) (a : toy_transport) (q : list (bytes * bytes)) (b : toy_transport) : Prop :=
  tt_initiator b = negb (tt_initiator a) ∧ tt_sent a = n ∧
  n = (tt_received b + N.of_nat (length q))%N ∧ in_flight (tt_initiator a) (tt_received b) q.

Lemma noise_header_length i n : length (header i n) = 16.
Proof. unfold header. by rewrite length_app, !length_be_bytes. Qed.

#[export] Instance toy_noise_laws : NoiseLaws.
Proof.
  refine {| noise_link := toy_link |}.
  - intros si sr ri rr _ _. do 13 eexists.
    split_and!; try reflexivity; cbn -[x25519_public sha256];
      first [apply sha256_length
            |repeat constructor; rewrite ?length_app, !x25519_public_length; by vm_compute
            |done].
  - intros n a q b p (Hi & Hs & Hn & Hq) _ _. do 2 eexists. split; [done|]. split_and!.
    + rewrite length_app, (noise_header_length (tt_initiator a) (tt_sent a)). lia.
    + split_and!; [done| |cbn; rewrite length_app; cbn; lia|].
      * cbn. lia.
      * cbn [tt_initiator]. rewrite Hs, Hn. by apply in_flight_app.
    + done.
  - intros n a p ct q b (Hi & Hs & Hn & [-> Hq]). cbn [noise_decrypt toy_noise]. unfold toy_decrypt.
    rewrite take_app_length', drop_app_length' by (by rewrite noise_header_length).
    rewrite decide_True by (rewrite Hi, negb_involutive; done). eexists. split; [done|].
    split; [|done]. split_and!; [done|done|cbn in *; lia|done].
Qed.
End ToyNoise.

(** Two devices: the dialler presents an account it keeps private, the listener none. *)
Module TransportWitness.
Import ToyCrypto PresenceCodec ToyNoise.

Definition peer : DeviceIdentity := MkDeviceIdentity (key Byte.x07) (key Byte.x08).

Lemma dev_presents : presenting dev (Some ann) false [].
Proof.
  split; [by split|]. split.
  { intros a [= <-]. split_and!; [|by_evaluation|by_evaluation|constructor].
    apply new_with_role_wf; [by split|by_evaluation|by_evaluation|by intros a [= <-]]. }
  assert (validate_own dev (Some ann) = Ok ()) as Hown.
  { apply valid_own, valid_new; [by split|done|cbn; lia|done]. }
  intros hash _. unfold build_with_transitions. rewrite Hown.
  cbn [mbind result_bind negb andb]. rewrite bool_decide_eq_false_2 by done.
  unfold build_extension. cbn [is_empty]. unfold codec_serialize.
  assert (∀ m, length (ser (MkExtension (announce_encode ann) (Identity.sign dev m))) = 16 + length (announce_encode ann) + 64) as Hlen.
  { intros m. cbn -[announce_encode Identity.sign le_bytes]. rewrite !length_app, !length_le_bytes, sign_length. lia. }
  rewrite decide_True by (rewrite Hlen; vm_compute; discriminate). cbn [mbind result_bind].
  rewrite decide_False by (rewrite Hlen; vm_compute; discriminate). cbn [mbind result_bind]. eauto.
Qed.

Lemma peer_presents : presenting peer None true [].
Proof. split; [by split|]. split; [done|]. intros hash _. by eexists. Qed.

Definition hellos : list bytes := [str "hello"; str "are you there"].
Definition replies : list bytes := [str "yes"].


(** A scheduler that lets each end run until it waits, and records what each saw; the host
    answers every question with [yes]. *)
Fixpoint drive {A B} (fuel : nat) (yes : bool) (p : Proc A) (q : Proc B) (qr ql : list bytes)
    (trl trr : list IoEvent) : list IoEvent * list IoEvent :=
  match fuel with
  | O => (trl, trr)
  | S fuel =>
      match p, ql with
      | WriteFrame b k, _ => drive fuel yes (k (Ok ())) q (qr ++ [b]) ql (trl ++ [Sent b (Ok ())]) trr
      | ReadFrame k, m :: ql => drive fuel yes (k (Ok m)) q qr ql (trl ++ [Received (Ok m)]) trr
      | AwaitGate k, _ => drive fuel yes (k true) q qr ql (trl ++ [GateAcquired true]) trr
      | AskHost k, _ => drive fuel yes (k yes) q qr ql (trl ++ [HostAnswered yes]) trr
      | _, _ =>
          match q, qr with
          | WriteFrame b k, _ => drive fuel yes p (k (Ok ())) qr (ql ++ [b]) trl (trr ++ [Sent b (Ok ())])
          | ReadFrame k, m :: qr => drive fuel yes p (k (Ok m)) qr ql trl (trr ++ [Received (Ok m)])
          | AwaitGate k, _ => drive fuel yes p (k true) qr ql trl (trr ++ [GateAcquired true])
          | AskHost k, _ => drive fuel yes p (k yes) qr ql trl (trr ++ [HostAnswered yes])
          | _, _ => (trl, trr)
          end
      end
  end.

Definition dial : Proc (result TransportError SecureChannel) :=
  connect_with_transitions (key Byte.x11) dev (Some (public peer)) None true [].
Definition listen (admits : VerifiedPeer → bool) : Proc (result TransportError SecureChannel) :=
  accept_with_transitions (key Byte.x12) peer None true [] admits.
Definition traces (admits : VerifiedPeer → bool) : list IoEvent * list IoEvent :=
  drive 20 true dial (listen admits) [] [] [] [].

Definition opened (r : option (result TransportError SecureChannel)) : bool :=
  match r with Some (Ok _) => true | _ => false end.

Lemma opened_Some r : opened r = true → ∃ c, r = Some (Ok c).
Proof. destruct r as [[c|]|]; [by exists c|done..]. Qed.

Lemma authenticated_witness :
  ∃ c, run_along dial (traces (λ _, true)).1 = Some (Ok c) ∧ vp_public (sc_peer c) = public peer.
Proof.
  assert (opened (run_along dial (traces (λ _, true)).1) = true) as Hr by (vm_compute; reflexivity).
  generalize dependent (traces (λ _, true)).1. intros tr [c Hr]%opened_Some.
  exists c. split; [exact Hr|].
  destruct (proj1 (channel_authenticated (key Byte.x11) dev None true [] tr c)
    (Some (public peer)) Hr) as (_ & _ & _ & _ & _ & _ & _ & _ & _ & _ & _ & _ & _ & He).
  exact (He _ eq_refl).
Defined.

Definition refused (r : option (result TransportError SecureChannel)) : bool :=
  match r with Some (Err AdmissionDenied) => true | _ => false end.

Lemma refused_Some r : refused r = true → r = Some (Err AdmissionDenied).
Proof. by destruct r as [[|[]]|]. Qed.

(** A listener that admits nobody stops before its proof. *)
Lemma disclosed_witness :
  run_along (listen (λ _, false)) (traces (λ _, false)).2 = Some (Err AdmissionDenied) ∧
  length (traces (λ _, false)).2 ≤ 4.
Proof.
  assert (refused (run_along (listen (λ _, false)) (traces (λ _, false)).2) = true) as Hr
    by (vm_compute; reflexivity).
  generalize dependent (traces (λ _, false)).2. intros tr Hr%refused_Some. split; [exact Hr|].
  destruct (proj2 (nothing_disclosed_early (key Byte.x12) peer None true [] _ _) _ Hr)
    as [Hl|(_ & _ & _ & _ & _ & _ & _ & _ & _ & _ & _ & _ & Hadm)]; [exact Hl|discriminate Hadm].
Defined.
End TransportWitness.
