(* ===== verification/Archive.v ===== *)
(** * Recovery archives

    Models crates/mesh-talk-core/src/recovery/archive.rs: the encrypted envelope around an
    exported profile.  A writer cuts the plaintext into numbered, separately sealed chunks
    and ends with a final record, sealed under a key of its own, that holds the length and
    the hash of the whole; the reader stages plaintext as it goes and reports success only
    after the final record.

    The source is the fragmented stream of Framing.v; a destination takes bytes until it
    has no room left.  The fresh salt is an argument, a cipher is its derived key and a
    hasher the bytes it was given. *)

From S2P Require Import Prelude Crypto Framing.

Definition ARCHIVE_MAGIC : bytes := str "MTBACK1" ++ [Byte.x00].
Definition VERSION : byte := Byte.x01.
Definition HEADER_SIZE : nat := 8 + 1 + 16.
Definition FRAME_SIZE : nat := 1 + 8 + 4.
Definition TAG_SIZE : nat := 16.
Definition CHUNK_SIZE : N := 64 * 1024.
Definition MAX_BYTES : N := 8 * 1024 * 1024 * 1024.
Definition MAX_CHUNKS : N := MAX_BYTES / CHUNK_SIZE + 1.

Inductive ArchiveError := InvalidArchive | UnsupportedVersion | SizeLimit | ArchiveIo.

Record ArchiveInfo := MkArchiveInfo { plaintext_bytes : N; chunk_total : N }.

(** [impl Write]: a destination with room for some more bytes, or without a limit. *)
Record Sink := MkSink { sk_bytes : bytes; sk_room : option nat; sk_flushes : bool }.

Definition write_all (w : Sink) (bs : bytes) : Sink * result ArchiveError unit :=
  match sk_room w with
  | None => (MkSink (sk_bytes w ++ bs) None (sk_flushes w), Ok ())
  | Some room =>
      if decide (length bs ≤ room)
      then (MkSink (sk_bytes w ++ bs) (Some (room - length bs)) (sk_flushes w), Ok ())
      else (MkSink (sk_bytes w ++ take room bs) (Some 0) (sk_flushes w), Err ArchiveIo)
  end.

Definition CHUNK_KIND : byte := Byte.x01.
Definition FINAL_KIND : byte := Byte.x02.
Definition ENCRYPTION : bytes := str "mesh-talk-backup-v1/encryption".
Definition FINAL : bytes := str "mesh-talk-backup-v1/final".

Section archive.
Context `{Crypto}.

Definition derive_cipher (key salt purpose : bytes) : bytes :=
  hkdf_sha256 (Some salt) key purpose 32.

Definition archive_nonce (salt : bytes) (index : N) : bytes := take 4 salt ++ be_bytes 8 index.

Definition frame_header (kind : byte) (index len : N) : bytes :=
  kind :: be_bytes 8 index ++ be_bytes 4 len.

Definition aad (header frame : bytes) : bytes := header ++ frame.

Definition archive_seal (cipher salt header : bytes) (kind : byte) (index : N) (plaintext : bytes) :
    result ArchiveError (bytes * bytes) :=
  let len := N.of_nat (length plaintext + TAG_SIZE) in
  if decide (u32_max < len)%N then Err SizeLimit else
  let frame := frame_header kind index len in
  ciphertext ← ok_or (aes_gcm_encrypt cipher (archive_nonce salt index) (aad header frame) plaintext)
    InvalidArchive;
  Ok (frame, ciphertext).

Record ArchiveWriter := MkArchiveWriter {
  destination : Sink;
  aw_header : bytes;
  aw_salt : bytes;
  aw_cipher : bytes;
  aw_final_cipher : bytes;
  hashed : bytes;
  buffer : bytes;
  info : ArchiveInfo
}.

Definition with_destination (w : ArchiveWriter) (d : Sink) : ArchiveWriter :=
  MkArchiveWriter d (aw_header w) (aw_salt w) (aw_cipher w) (aw_final_cipher w) (hashed w) (buffer w)
    (info w).
Definition with_progress (w : ArchiveWriter) (h b : bytes) (i : ArchiveInfo) : ArchiveWriter :=
  MkArchiveWriter (destination w) (aw_header w) (aw_salt w) (aw_cipher w) (aw_final_cipher w) h b i.

Definition archive_header (salt : bytes) : bytes := ARCHIVE_MAGIC ++ [VERSION] ++ salt.

Definition writer_new (salt : bytes) (d : Sink) (key : bytes) : Sink * result ArchiveError ArchiveWriter :=
  let header := archive_header salt in
  match write_all d header with
  | (d, Err e) => (d, Err e)
  | (d, Ok _) =>
      (d, Ok (MkArchiveWriter d header salt (derive_cipher key salt ENCRYPTION)
                (derive_cipher key salt FINAL) [] [] (MkArchiveInfo 0 0)))
  end.

(** The two writes of a frame. *)
Definition write_sealed (w : ArchiveWriter) (sealed : bytes * bytes) :
    ArchiveWriter * result ArchiveError unit :=
  match write_all (destination w) sealed.1 with
  | (d, Err e) => (with_destination w d, Err e)
  | (d, Ok _) => let '(d, r) := write_all d sealed.2 in (with_destination w d, r)
  end.

Definition flush_chunk (w : ArchiveWriter) : ArchiveWriter * result ArchiveError unit :=
  if decide (buffer w = []) then (w, Ok ()) else
  if decide (MAX_CHUNKS ≤ chunk_total (info w))%N then (w, Err SizeLimit) else
  match archive_seal (aw_cipher w) (aw_salt w) (aw_header w) CHUNK_KIND (chunk_total (info w)) (buffer w) with
  | Err e => (w, Err e)
  | Ok sealed =>
      match write_sealed w sealed with
      | (w, Err e) => (w, Err e)
      | (w, Ok _) =>
          (with_progress w (hashed w) []
             (MkArchiveInfo (plaintext_bytes (info w)) (chunk_total (info w) + 1)), Ok ())
      end
  end.

(** Each round takes a byte, apart from one that only retries a full buffer. *)
Fixpoint push_loop (fuel : nat) (w : ArchiveWriter) (bs : bytes) :
    ArchiveWriter * result ArchiveError unit :=
  match fuel with
  | O => (w, Ok ())
  | S fuel =>
      if decide (bs = []) then (w, Ok ()) else
      let count := N.to_nat (N.min (N.of_nat (length bs)) (CHUNK_SIZE - N.of_nat (length (buffer w)))) in
      let w := with_progress w (hashed w) (buffer w ++ take count bs) (info w) in
      let rest := drop count bs in
      if decide (N.of_nat (length (buffer w)) = CHUNK_SIZE) then
        match flush_chunk w with
        | (w, Err e) => (w, Err e)
        | (w, Ok _) => push_loop fuel w rest
        end
      else push_loop fuel w rest
  end.

Definition push (w : ArchiveWriter) (bs : bytes) : ArchiveWriter * result ArchiveError unit :=
  match checked_add u64_max (plaintext_bytes (info w)) (N.of_nat (length bs)) with
  | None => (w, Err SizeLimit)
  | Some total =>
      let w := with_progress w (hashed w) (buffer w) (MkArchiveInfo total (chunk_total (info w))) in
      if decide (MAX_BYTES < total)%N then (w, Err SizeLimit) else
      push_loop (S (length bs)) (with_progress w (hashed w ++ bs) (buffer w) (info w)) bs
  end.

Definition final_record (total : N) (hashed : bytes) : bytes := be_bytes 8 total ++ sha256 hashed.

Definition finish (w : ArchiveWriter) : Sink * result ArchiveError ArchiveInfo :=
  match flush_chunk w with
  | (w, Err e) => (destination w, Err e)
  | (w, Ok _) =>
      match archive_seal (aw_final_cipher w) (aw_salt w) (aw_header w) FINAL_KIND (chunk_total (info w))
              (final_record (plaintext_bytes (info w)) (hashed w)) with
      | Err e => (destination w, Err e)
      | Ok sealed =>
          match write_sealed w sealed with
          | (w, Err e) => (destination w, Err e)
          | (w, Ok _) =>
              (destination w, if sk_flushes (destination w) then Ok (info w) else Err ArchiveIo)
          end
      end
  end.

(** [impl Write for ArchiveWriter]. *)
Definition archive_write (w : ArchiveWriter) (bs : bytes) : ArchiveWriter * result ArchiveError nat :=
  let '(w, r) := push w bs in (w, _ ← r; Ok (length bs)).

(** Every read but the last returns a byte. *)
Fixpoint write_loop (fuel : nat) (w : ArchiveWriter) (source : Incoming) :
    Sink * result ArchiveError ArchiveInfo :=
  match fuel with
  | O => finish w
  | S fuel =>
      match stream_read source (N.to_nat CHUNK_SIZE) with
      | (_, Err _) => (destination w, Err ArchiveIo)
      | (_, Ok []) => finish w
      | (source, Ok bs) =>
          match push w bs with
          | (w, Err e) => (destination w, Err e)
          | (w, Ok _) => write_loop fuel w source
          end
      end
  end.

Definition write_archive (salt : bytes) (source : Incoming) (d : Sink) (key : bytes) :
    Sink * result ArchiveError ArchiveInfo :=
  match writer_new salt d key with
  | (d, Err e) => (d, Err e)
  | (_, Ok w) => write_loop (S (length (pending_bytes source))) w source
  end.

(** A chunk that was opened: account for it and stage it. *)
Definition stage_chunk (hashed : bytes) (info : ArchiveInfo) (sink : Sink) (plaintext : bytes) :
    Sink * result ArchiveError (bytes * ArchiveInfo) :=
  match checked_add u64_max (plaintext_bytes info) (N.of_nat (length plaintext)) with
  | None => (sink, Err SizeLimit)
  | Some total =>
      if decide (MAX_BYTES < total ∨ MAX_CHUNKS ≤ chunk_total info)%N then (sink, Err SizeLimit) else
      let '(sink, r) := write_all sink plaintext in
      (sink, _ ← r; Ok (hashed ++ plaintext, MkArchiveInfo total (chunk_total info + 1)))
  end.

(** The final record, and that nothing follows it. *)
Definition check_final (hashed : bytes) (info : ArchiveInfo) (source : Incoming) (plaintext : bytes) :
    result ArchiveError ArchiveInfo :=
  if decide (length plaintext ≠ 40 ∨ take 8 plaintext ≠ be_bytes 8 (plaintext_bytes info) ∨
             drop 8 plaintext ≠ sha256 hashed)
  then Err InvalidArchive else
  match (stream_read source 1).2 with
  | Err _ => Err ArchiveIo
  | Ok [] => Ok info
  | Ok _ => Err InvalidArchive
  end.

Definition max_length (kind : byte) : N :=
  if decide (kind = CHUNK_KIND) then CHUNK_SIZE + N.of_nat TAG_SIZE else 40 + N.of_nat TAG_SIZE.

(** One frame of the archive: its kind and plaintext. *)
Definition open_frame (cipher final_cipher salt header : bytes) (expected : N) (source : Incoming) :
    Incoming * result ArchiveError (byte * bytes) :=
  match read_exact source FRAME_SIZE with
  | (source, Err _) => (source, Err InvalidArchive)
  | (source, Ok frame) =>
      let kind := default Byte.x00 (head frame) in
      let index := be_value (take 8 (drop 1 frame)) in
      let len := be_value (drop 9 frame) in
      if decide (index ≠ expected ∨ (kind ≠ CHUNK_KIND ∧ kind ≠ FINAL_KIND))
      then (source, Err InvalidArchive) else
      if decide (¬ (N.of_nat TAG_SIZE ≤ len ∧ len ≤ max_length kind)%N)
      then (source, Err InvalidArchive) else
      match read_exact source (N.to_nat len) with
      | (source, Err _) => (source, Err InvalidArchive)
      | (source, Ok ciphertext) =>
          let selected_cipher := if decide (kind = CHUNK_KIND) then cipher else final_cipher in
          (source, plaintext ← ok_or (aes_gcm_decrypt selected_cipher (archive_nonce salt index)
                                        (aad header frame) ciphertext) InvalidArchive;
                   Ok (kind, plaintext))
      end
  end.

(** Every round reads a frame of at least 29 bytes. *)
Fixpoint read_loop (fuel : nat) (cipher final_cipher salt header hashed : bytes) (info : ArchiveInfo)
    (source : Incoming) (sink : Sink) : Sink * result ArchiveError ArchiveInfo :=
  match fuel with
  | O => (sink, Err InvalidArchive)
  | S fuel =>
      match open_frame cipher final_cipher salt header (chunk_total info) source with
      | (_, Err e) => (sink, Err e)
      | (source, Ok (kind, plaintext)) =>
          if decide (kind = FINAL_KIND) then (sink, check_final hashed info source plaintext) else
          match stage_chunk hashed info sink plaintext with
          | (sink, Err e) => (sink, Err e)
          | (sink, Ok (hashed, info)) =>
              read_loop fuel cipher final_cipher salt header hashed info source sink
          end
      end
  end.

Definition read_archive (source : Incoming) (sink : Sink) (key : bytes) :
    Sink * result ArchiveError ArchiveInfo :=
  match read_exact source HEADER_SIZE with
  | (_, Err _) => (sink, Err InvalidArchive)
  | (source, Ok header) =>
      if decide (take 8 header ≠ ARCHIVE_MAGIC) then (sink, Err InvalidArchive) else
      if decide (header !! 8 ≠ Some VERSION) then (sink, Err UnsupportedVersion) else
      let salt := drop 9 header in
      read_loop (S (length (pending_bytes source))) (derive_cipher key salt ENCRYPTION)
        (derive_cipher key salt FINAL) salt header [] (MkArchiveInfo 0 0) source sink
  end.
End archive.

(** The limits in figures: [MAX_BYTES] fills one chunk less than [MAX_CHUNKS]. *)
Lemma archive_limits : MAX_BYTES = 8589934592%N ∧ MAX_CHUNKS = 131073%N ∧ CHUNK_SIZE = 65536%N.
Proof. done. Qed.

(** ** Reading from the stream *)

Lemma read_exact_enough s n :
  delivering s → n ≤ length (pending_bytes s) →
  ∃ s', read_exact s n = (s', Ok (take n (pending_bytes s))) ∧
    pending_bytes s' = drop n (pending_bytes s) ∧ delivering s' ∧ ending s' = ending s.
Proof. intros Hd Hn. by apply (read_exact_loop_spec n s n [] Hd). Qed.

Lemma read_exact_Ok s n s' bs :
  delivering s → read_exact s n = (s', Ok bs) →
  pending_bytes s = bs ++ pending_bytes s' ∧ length bs = n ∧ delivering s' ∧ ending s' = ending s.
Proof.
  intros Hd Hr. destruct (decide (n ≤ length (pending_bytes s))) as [Hn|Hn].
  - destruct (read_exact_enough s n Hd Hn) as (s1 & E & Hp & Hd1 & He). rewrite E in Hr.
    injection Hr as <- <-. rewrite Hp, take_drop. split_and!; [done| |done..]. by apply length_take_le.
  - destruct (proj2 (read_exact_loop_spec n s n [] Hd ltac:(done)) ltac:(lia)) as [s1 E].
    unfold read_exact in Hr. by rewrite E in Hr.
Qed.

Lemma read_exact_app s n a r :
  delivering s → pending_bytes s = a ++ r → length a = n →
  ∃ s', read_exact s n = (s', Ok a) ∧ pending_bytes s' = r ∧ delivering s' ∧ ending s' = ending s.
Proof.
  intros Hd Hp <-. destruct (read_exact_enough s (length a) Hd) as (s' & E & Hp' & ? & ?).
  { rewrite Hp. len. }
  exists s'. rewrite E, Hp', Hp, take_app_length, drop_app_length. done.
Qed.

Lemma write_all_Ok w bs w' :
  write_all w bs = (w', Ok ()) →
  sk_bytes w' = sk_bytes w ++ bs ∧ sk_flushes w' = sk_flushes w ∧ (sk_room w = None → sk_room w' = None).
Proof. unfold write_all. destruct (sk_room w); [case_decide|]; naive_solver. Qed.

(** ** The archive format *)

Section format.
Context `{Crypto}.

(** [f] is a frame of this kind and number that opens to [plain]. *)
Definition opens (cipher salt header : bytes) (kind : byte) (i : N) (f plain : bytes) : Prop :=
  ∃ ct, let frame := frame_header kind i (N.of_nat (length ct)) in
    f = frame ++ ct ∧ (i ≤ u64_max)%N ∧
    (N.of_nat TAG_SIZE ≤ N.of_nat (length ct) ∧ N.of_nat (length ct) ≤ max_length kind)%N ∧
    aes_gcm_decrypt cipher (archive_nonce salt i) (aad header frame) ct = Some plain.

(** The frames from number [i] on, after the plaintext [acc]: chunks that hold [plain], then
    the final record, numbered [n], of the whole plaintext. *)
Inductive frames (cipher final_cipher salt header : bytes) : N → bytes → bytes → bytes → N → Prop :=
  | frames_final i acc f :
      opens final_cipher salt header FINAL_KIND i f (final_record (N.of_nat (length acc)) acc) →
      frames cipher final_cipher salt header i acc f [] i
  | frames_chunk i acc f p bs plain n :
      opens cipher salt header CHUNK_KIND i f p →
      (N.of_nat (length (acc ++ p)) ≤ MAX_BYTES)%N → (i < MAX_CHUNKS)%N →
      frames cipher final_cipher salt header (i + 1) (acc ++ p) bs plain n →
      frames cipher final_cipher salt header i acc (f ++ bs) (p ++ plain) n.

Definition archive_of (key bs plain : bytes) (n : N) : Prop :=
  ∃ salt body, length salt = 16 ∧ bs = archive_header salt ++ body ∧
    frames (derive_cipher key salt ENCRYPTION) (derive_cipher key salt FINAL) salt (archive_header salt)
      0 [] body plain n.

Lemma max_length_u32 kind : (max_length kind ≤ u32_max)%N.
Proof. unfold max_length. by case_decide. Qed.

Lemma frame_header_length kind i len : length (frame_header kind i len) = FRAME_SIZE.
Proof. unfold frame_header, FRAME_SIZE. len. Qed.

Lemma frame_header_fields kind i len :
  (i ≤ u64_max)%N → (len ≤ u32_max)%N →
  head (frame_header kind i len) = Some kind ∧
  be_value (take 8 (drop 1 (frame_header kind i len))) = i ∧
  be_value (drop 9 (frame_header kind i len)) = len.
Proof.
  intros Hi Hl. unfold frame_header. split; [done|]. cbn [drop]. rewrite ?drop_0.
  pose proof (length_be_bytes 8 i). rewrite take_app_length' by done.
  rewrite drop_app_length' by done. split; apply be_value_be_bytes; [by apply u64_width|by apply u32_width].
Qed.

Lemma frame_header_of frame :
  length frame = FRAME_SIZE →
  frame = frame_header (default Byte.x00 (head frame)) (be_value (take 8 (drop 1 frame)))
            (be_value (drop 9 frame)).
Proof.
  unfold FRAME_SIZE, frame_header. destruct frame as [|k frame]; [done|]. cbn [head default length].
  intros Hl. change (drop 9 (k :: frame)) with (drop 8 frame). cbn [drop]. rewrite drop_0. f_equal.
  rewrite !be_bytes_value by len. by rewrite take_drop.
Qed.

Lemma open_frame_sound c fc salt header i s s' kind plain :
  delivering s → open_frame c fc salt header i s = (s', Ok (kind, plain)) →
  ∃ f, pending_bytes s = f ++ pending_bytes s' ∧ delivering s' ∧ ending s' = ending s ∧
    ((kind = CHUNK_KIND ∧ opens c salt header kind i f plain) ∨
     (kind = FINAL_KIND ∧ opens fc salt header kind i f plain)).
Proof.
  intros Hd. unfold open_frame. destruct (read_exact s FRAME_SIZE) as [s1 [frame|]] eqn:E1; [|done].
  destruct (read_exact_Ok _ _ _ _ Hd E1) as (Hp1 & Hf & Hd1 & He1).
  case_decide as Hk; [done|]. case_decide as Hl; [done|].
  destruct (read_exact s1 _) as [s2 [ct|]] eqn:E2; [|done].
  destruct (read_exact_Ok _ _ _ _ Hd1 E2) as (Hp2 & Hc & Hd2 & He2).
  apply Decidable.not_or in Hk as [Hi Hk]. apply dec_stable in Hi.
  destruct (aes_gcm_decrypt _ _ _ _) as [m|] eqn:Ed; [|done]. cbn. intros [= <- <- <-].
  pose proof (frame_header_of frame Hf) as Hfr. rewrite Hi in *.
  assert (be_value (drop 9 frame) = N.of_nat (length ct)) as Hct by lia. rewrite Hct in *.
  assert (i ≤ u64_max)%N as Hiu.
  { apply u64_width. rewrite <-Hi. apply be_value_bound. unfold FRAME_SIZE in Hf. len. }
  exists (frame ++ ct). rewrite Hp1, Hp2, (assoc_L (++)), He2. split_and!; [done..|].
  assert (∀ k, k = default Byte.x00 (head frame) →
    aes_gcm_decrypt (if decide (k = CHUNK_KIND) then c else fc) (archive_nonce salt i) (aad header frame) ct = Some m →
    opens (if decide (k = CHUNK_KIND) then c else fc) salt header k i (frame ++ ct) m) as Hop.
  { intros k -> Hdec. exists ct. cbv zeta. rewrite <-Hfr. done. }
  specialize (Hop _ eq_refl Ed). case_decide as Hck; [by left|]. right. split; [|done].
  destruct (decide (default Byte.x00 (head frame) = FINAL_KIND)); [done|]. naive_solver.
Qed.

Lemma open_frame_complete c fc salt header i s kind f plain r :
  delivering s → pending_bytes s = f ++ r → kind = CHUNK_KIND ∨ kind = FINAL_KIND →
  opens (if decide (kind = CHUNK_KIND) then c else fc) salt header kind i f plain →
  ∃ s', open_frame c fc salt header i s = (s', Ok (kind, plain)) ∧ pending_bytes s' = r ∧
    delivering s' ∧ ending s' = ending s.
Proof.
  intros Hd Hp Hk (ct & -> & Hi & [Hl Hm] & Hdec). rewrite <-(assoc_L (++)) in Hp. unfold open_frame.
  destruct (read_exact_app s FRAME_SIZE _ _ Hd Hp) as (s1 & -> & Hp1 & Hd1 & He1).
  { apply frame_header_length. }
  pose proof (max_length_u32 kind).
  destruct (frame_header_fields kind i (N.of_nat (length ct)) Hi ltac:(lia)) as (-> & -> & ->).
  change (default Byte.x00 (Some kind)) with kind.
  rewrite decide_False by naive_solver. rewrite decide_False by naive_solver.
  destruct (read_exact_app s1 (N.to_nat (N.of_nat (length ct))) ct r Hd1 Hp1) as (s2 & -> & Hp2 & Hd2 & He2); [lia|].
  exists s2. rewrite Hdec, He2. done.
Qed.

(** ** Reading accepts exactly the archives *)

Lemma archive_read_loop_sound fuel c fc salt header acc inf s sink sink' inf' :
  delivering s → plaintext_bytes inf = N.of_nat (length acc) →
  read_loop fuel c fc salt header acc inf s sink = (sink', Ok inf') →
  ∃ plain, frames c fc salt header (chunk_total inf) acc (pending_bytes s) plain (chunk_total inf') ∧
    sk_bytes sink' = sk_bytes sink ++ plain ∧
    plaintext_bytes inf' = N.of_nat (length (acc ++ plain)) ∧ ending s = None.
Proof.
  revert acc inf s sink. induction fuel as [|fuel IH]; intros acc inf s sink Hd Hb; cbn [read_loop]; [done|].
  destruct (open_frame _ _ _ _ _ _) as [s1 [[kind p]|]] eqn:Eo; [|done].
  destruct (open_frame_sound _ _ _ _ _ _ _ _ _ Hd Eo) as (f & Hp & Hd1 & He & Hk).
  case_decide as Hf.
  - unfold check_final. case_decide as Hrec; [done|].
    apply Decidable.not_or in Hrec as [_ [Ht Hh]%Decidable.not_or]. apply dec_stable in Ht, Hh.
    destruct (decide (pending_bytes s1 = [])) as [Hnil|Hnil].
    2:{ destruct (stream_read_some s1 1 Hd1 ltac:(lia) Hnil) as (s2 & bs & -> & ? & _).
        cbn. by destruct bs. }
    rewrite stream_read_none by done. destruct (ending s1) eqn:Hend; [done|]. intros [= <- <-].
    exists []. rewrite Hp, Hnil, !app_nil_r, Hb, <-He. split_and!; [|done..]. constructor.
    destruct Hk as [[-> _]|[-> Hop]]; [done|]. unfold final_record. by rewrite <-Hb, <-Ht, <-Hh, take_drop.
  - destruct Hk as [[-> Hop]|[-> _]]; [|done]. unfold stage_chunk.
    destruct (checked_add _ _ _) as [total|] eqn:Ec; [|done]. apply checked_add_Some in Ec as [-> _].
    case_decide as Hlim; [done|]. apply Decidable.not_or in Hlim as [Hm Hc].
    destruct (write_all sink p) as [sink1 [[]|]] eqn:Ew; [|done]. cbn.
    destruct (write_all_Ok _ _ _ Ew) as (Hs1 & _). intros Hr.
    assert (plaintext_bytes inf + N.of_nat (length p) = N.of_nat (length (acc ++ p)))%N as Hb1 by len.
    destruct (IH (acc ++ p) (MkArchiveInfo _ _) s1 sink1 Hd1 Hb1 Hr) as (plain & Hfr & Hs & Hpb & Hend).
    exists (p ++ plain). rewrite Hs, Hs1, Hpb, Hp, !(assoc_L (++)), <-He. split_and!; [|done..].
    constructor; [done|lia|lia|done].
Qed.

Lemma frames_length c fc salt header i acc bs plain n :
  frames c fc salt header i acc bs plain n → length bs ≠ 0.
Proof.
  destruct 1 as [i acc f (ct & -> & _)|i acc f p bs plain n (ct & -> & _)];
    rewrite !length_app, frame_header_length; unfold FRAME_SIZE; lia.
Qed.

(** Reading accepts every archive, with as much fuel as it has bytes. *)
Lemma archive_read_loop_complete fuel c fc salt header i acc bs plain n s sink :
  frames c fc salt header i acc bs plain n → delivering s → ending s = None → pending_bytes s = bs →
  sk_room sink = None → length bs ≤ fuel → (∀ m, length (sha256 m) = 32) →
  read_loop fuel c fc salt header acc (MkArchiveInfo (N.of_nat (length acc)) i) s sink =
    (MkSink (sk_bytes sink ++ plain) None (sk_flushes sink),
     Ok (MkArchiveInfo (N.of_nat (length (acc ++ plain))) n)).
Proof.
  intros Hfr. revert fuel s sink. induction Hfr as [i acc f Hop|i acc f p bs plain n Hop Hm Hi Hfr IH];
    intros fuel s sink Hd He Hp Hr Hfuel Hsha.
  - destruct fuel as [|fuel]; [by destruct Hop as (ct & -> & _); unfold frame_header in Hfuel; len|].
    cbn [read_loop chunk_total].
    destruct (open_frame_complete c fc salt header i s FINAL_KIND f _ [] Hd ltac:(by rewrite app_nil_r)
                (or_intror eq_refl) Hop) as (s1 & -> & Hp1 & Hd1 & He1).
    rewrite decide_True by done. unfold check_final, final_record. cbn [plaintext_bytes].
    pose proof (length_be_bytes 8 (N.of_nat (length acc))).
    rewrite take_app_length', drop_app_length', length_app, Hsha by done.
    rewrite decide_False by naive_solver lia. rewrite stream_read_none by done.
    rewrite He1, He, !app_nil_r. destruct sink; cbn in *; by subst.
  - destruct fuel as [|fuel].
    { pose proof (frames_length _ _ _ _ _ _ _ _ _ Hfr). len. }
    cbn [read_loop chunk_total].
    destruct (open_frame_complete c fc salt header i s CHUNK_KIND f p bs Hd Hp (or_introl eq_refl) Hop)
      as (s1 & -> & Hp1 & Hd1 & He1).
    rewrite decide_False by done. unfold stage_chunk. cbn [plaintext_bytes chunk_total].
    rewrite length_app in Hm. unfold checked_add.
    rewrite decide_True by (unfold MAX_BYTES, u64_max in *; lia). rewrite decide_False by lia.
    unfold write_all. rewrite Hr. cbn.
    replace (N.of_nat (length acc) + N.of_nat (length p))%N with (N.of_nat (length (acc ++ p))) by len.
    rewrite IH; [|done|congruence|done|done| |done].
    + cbn. by rewrite <-!(assoc_L (++)).
    + destruct Hop as (ct & -> & _). unfold frame_header in Hfuel. len.
Qed.

Lemma archive_header_length salt : length salt = 16 → length (archive_header salt) = HEADER_SIZE.
Proof. intros Hs. unfold archive_header, HEADER_SIZE. rewrite !length_app, Hs. done. Qed.

Lemma archive_header_of header :
  length header = HEADER_SIZE → take 8 header = ARCHIVE_MAGIC → header !! 8 = Some VERSION →
  header = archive_header (drop 9 header) ∧ length (drop 9 header) = 16.
Proof.
  unfold HEADER_SIZE. intros Hl Hm Hv. split; [|len]. unfold archive_header.
  rewrite <-(take_drop 8 header) at 1. rewrite Hm, (drop_S _ _ _ Hv). done.
Qed.

Lemma read_archive_sound s sink key sink' inf :
  delivering s → read_archive s sink key = (sink', Ok inf) →
  ∃ plain, archive_of key (pending_bytes s) plain (chunk_total inf) ∧
    sk_bytes sink' = sk_bytes sink ++ plain ∧ plaintext_bytes inf = N.of_nat (length plain) ∧ ending s = None.
Proof.
  intros Hd. unfold read_archive. destruct (read_exact s HEADER_SIZE) as [s1 [header|]] eqn:E; [|done].
  destruct (read_exact_Ok _ _ _ _ Hd E) as (Hp & Hl & Hd1 & He).
  case_decide as Hm; [done|]. case_decide as Hv; [done|]. intros Hr.
  destruct (archive_header_of header Hl Hm Hv) as [Hh Hs].
  destruct (archive_read_loop_sound _ _ _ _ _ [] (MkArchiveInfo 0 0) _ _ _ _ Hd1 eq_refl Hr)
    as (plain & Hfr & Hsk & Hpb & Hend).
  exists plain. rewrite <-He. split_and!; [|done..]. exists (drop 9 header), (pending_bytes s1).
  rewrite <-Hh. done.
Qed.

Lemma read_archive_complete s sink key plain n :
  (∀ m, length (sha256 m) = 32) → delivering s → ending s = None → sk_room sink = None →
  archive_of key (pending_bytes s) plain n →
  read_archive s sink key =
    (MkSink (sk_bytes sink ++ plain) None (sk_flushes sink),
     Ok (MkArchiveInfo (N.of_nat (length plain)) n)).
Proof.
  intros Hsha Hd He Hr (salt & body & Hs & Hp & Hfr). unfold read_archive.
  destruct (read_exact_app s HEADER_SIZE _ _ Hd Hp (archive_header_length salt Hs)) as (s1 & -> & Hp1 & Hd1 & He1).
  rewrite decide_False by (intros Hn; by apply Hn). rewrite decide_False by (intros Hn; by apply Hn).
  change (drop 9 (archive_header salt)) with salt.
  rewrite (archive_read_loop_complete _ _ _ _ _ 0 [] body plain n); [done..|congruence|done|done|rewrite Hp1; lia|done].
Qed.

(** ** An archive says where it ends *)

Lemma opens_front c c' salt header kind kind' i f f' p p' r r' :
  opens c salt header kind i f p → opens c' salt header kind' i f' p' → f ++ r = f' ++ r' →
  kind = kind' ∧ f = f' ∧ r = r'.
Proof.
  intros (ct & -> & Hi & [_ Hm] & _) (ct' & -> & _ & [_ Hm'] & _). rewrite <-!(assoc_L (++)). intros He.
  apply app_inj_1 in He as [Hf He]; [|by rewrite !frame_header_length].
  pose proof (max_length_u32 kind). pose proof (max_length_u32 kind').
  destruct (frame_header_fields kind i (N.of_nat (length ct)) Hi ltac:(lia)) as (Hk1 & _ & Hl1).
  destruct (frame_header_fields kind' i (N.of_nat (length ct')) Hi ltac:(lia)) as (Hk2 & _ & Hl2).
  rewrite Hf in Hk1, Hl1. rewrite Hk2 in Hk1. rewrite Hl2 in Hl1.
  apply app_inj_1 in He as [-> ->]; [|lia]. split; [congruence|]. by rewrite Hf.
Qed.

Lemma frames_prefix_free c fc salt header i acc bs plain n q plain' n' :
  frames c fc salt header i acc bs plain n → frames c fc salt header i acc (bs ++ q) plain' n' → q = [].
Proof.
  intros Hf. revert plain' n'. induction Hf as [i acc f Hop|i acc f p bs plain n Hop Hm Hi Hfr IH];
    intros plain' n' Hf'; inversion Hf' as [i' acc' f' Hop' E1 E2 E3|i' acc' f' p' bs' ? ? Hop' ? ? Hfr' E1 E2 E3]; subst.
  - destruct (opens_front _ _ _ _ _ _ _ _ _ _ _ q [] Hop Hop') as (_ & _ & ->); [|done]. by rewrite !app_nil_r.
  - by destruct (opens_front _ _ _ _ _ _ _ _ _ _ _ _ _ Hop Hop' (eq_sym E3)).
  - rewrite <-(assoc_L (++)) in Hop'.
    destruct (opens_front _ _ _ _ _ _ _ _ _ _ _ (bs ++ q) [] Hop Hop') as (? & _); [|done].
    by rewrite !app_nil_r.
  - rewrite <-(assoc_L (++)) in E3.
    destruct (opens_front _ _ _ _ _ _ _ _ _ _ _ _ _ Hop Hop' (eq_sym E3)) as (_ & <- & <-).
    assert (p = p') as <-; [|by eapply IH].
    destruct Hop as (ct & Hf1 & _ & _ & Hdec), Hop' as (ct' & Hf2 & _ & _ & Hdec'). rewrite Hf1 in Hf2.
    apply app_inj_1 in Hf2 as [Hh ->]; [|by rewrite !frame_header_length]. congruence.
Qed.

Lemma archive_prefix_free key a q plain n plain' n' :
  archive_of key a plain n → archive_of key (a ++ q) plain' n' → q = [].
Proof.
  intros (salt & body & Hs & -> & Hf) (salt' & body' & Hs' & He & Hf'). rewrite <-(assoc_L (++)) in He.
  apply app_inj_1 in He as [Hh <-]; [|by rewrite !archive_header_length].
  assert (salt = salt') as <-.
  { unfold archive_header in Hh. by apply app_inj_1 in Hh as [_ [_ Hh]%app_inj_1]. }
  exact (frames_prefix_free _ _ _ _ _ _ _ _ _ _ _ _ Hf Hf').
Qed.
End format.

(** ** What the writer writes *)

Section writing.
Context `{CryptoLaws}.

Lemma seal_opens cipher salt header kind i p :
  length cipher = 32 → length salt = 16 → (i ≤ u64_max)%N →
  (N.of_nat (length p + TAG_SIZE) ≤ max_length kind)%N →
  ∃ frame ct, archive_seal cipher salt header kind i p = Ok (frame, ct) ∧
    opens cipher salt header kind i (frame ++ ct) p.
Proof.
  intros Hc Hs Hi Hm. pose proof (max_length_u32 kind). unfold archive_seal.
  rewrite decide_False by lia. set (frame := frame_header _ _ _).
  destruct (aes_gcm_encrypt_total cipher (archive_nonce salt i) (aad header frame) p) as (ct & He & Hl);
    [done|unfold archive_nonce; len|unfold aead_max, u32_max in *; lia|].
  rewrite He. exists frame, ct. split; [done|]. exists ct. cbv zeta.
  rewrite Hl. change (length p + tag_size) with (length p + TAG_SIZE). split_and!; [done..|lia|done|].
  by apply aes_gcm_decrypt_encrypt.
Qed.

(** After [flushed] went out: whatever continues the frames from here completes an archive. *)
Record writing (key salt pre : bytes) (w : ArchiveWriter) (flushed : bytes) : Prop := {
  wr_room : sk_room (destination w) = None;
  wr_flushes : sk_flushes (destination w) = true;
  wr_salt : aw_salt w = salt;
  wr_header : aw_header w = archive_header salt;
  wr_cipher : aw_cipher w = derive_cipher key salt ENCRYPTION;
  wr_final : aw_final_cipher w = derive_cipher key salt FINAL;
  wr_body : ∃ body, sk_bytes (destination w) = pre ++ archive_header salt ++ body ∧
    ∀ bs plain n,
      frames (aw_cipher w) (aw_final_cipher w) salt (aw_header w) (chunk_total (info w)) flushed bs plain n →
      frames (aw_cipher w) (aw_final_cipher w) salt (aw_header w) 0 [] (body ++ bs) (flushed ++ plain) n
}.

Lemma write_sealed_open w sealed :
  sk_room (destination w) = None →
  write_sealed w sealed =
    (with_destination w (MkSink (sk_bytes (destination w) ++ sealed.1 ++ sealed.2) None
                           (sk_flushes (destination w))), Ok ()).
Proof. intros Hr. unfold write_sealed, write_all. rewrite Hr. cbn. by rewrite (assoc_L (++)). Qed.

Lemma flush_chunk_writes key salt pre w flushed :
  length salt = 16 → writing key salt pre w flushed → buffer w ≠ [] →
  (N.of_nat (length (buffer w)) ≤ CHUNK_SIZE)%N → (chunk_total (info w) < MAX_CHUNKS)%N →
  (N.of_nat (length (flushed ++ buffer w)) ≤ MAX_BYTES)%N →
  ∃ w', flush_chunk w = (w', Ok ()) ∧ writing key salt pre w' (flushed ++ buffer w) ∧ buffer w' = [] ∧
    hashed w' = hashed w ∧
    info w' = MkArchiveInfo (plaintext_bytes (info w)) (chunk_total (info w) + 1).
Proof.
  intros Hs [Hr Hfl Hsa Hh Hc Hf (body & Hb & Hbody)] Hne Hlen Hct Hmax. unfold flush_chunk.
  rewrite decide_False by done. rewrite decide_False by lia.
  destruct (seal_opens (aw_cipher w) (aw_salt w) (aw_header w) CHUNK_KIND (chunk_total (info w)) (buffer w))
    as (frame & ct & -> & Hop).
  { rewrite Hc. apply hkdf_length. }
  { by rewrite Hsa. }
  { destruct archive_limits as (_ & Hmc & _). rewrite Hmc in Hct. unfold u64_max. lia. }
  { unfold max_length. rewrite decide_True by done. lia. }
  rewrite write_sealed_open by done. eexists. split; [done|]. split; [|done].
  split; cbn; try done. exists (body ++ frame ++ ct). rewrite Hb, <-!(assoc_L (++)). split; [done|].
  intros bs plain n Hfr. rewrite Hsa in Hop. rewrite <-!(assoc_L (++)), (assoc_L (++) frame).
  apply Hbody. by constructor.
Qed.

Lemma push_loop_writes key salt pre fuel w flushed bs :
  length salt = 16 → writing key salt pre w flushed → length bs < fuel →
  (N.of_nat (length (buffer w)) < CHUNK_SIZE)%N →
  N.of_nat (length flushed) = (chunk_total (info w) * CHUNK_SIZE)%N →
  (N.of_nat (length (flushed ++ buffer w ++ bs)) ≤ MAX_BYTES)%N →
  ∃ w' flushed', push_loop fuel w bs = (w', Ok ()) ∧ writing key salt pre w' flushed' ∧
    flushed' ++ buffer w' = flushed ++ buffer w ++ bs ∧
    (N.of_nat (length (buffer w')) < CHUNK_SIZE)%N ∧
    N.of_nat (length flushed') = (chunk_total (info w') * CHUNK_SIZE)%N ∧
    hashed w' = hashed w ∧ plaintext_bytes (info w') = plaintext_bytes (info w).
Proof.
  intros Hs. revert w flushed bs. induction fuel as [|fuel IH]; intros w flushed bs Hw Hfuel Hb Hfl Hmax; [lia|].
  cbn [push_loop]. case_decide as Hne.
  { subst. exists w, flushed. rewrite app_nil_r. done. }
  set (count := N.to_nat _). set (w1 := with_progress w _ _ _).
  assert (0 < count ≤ length bs) as Hcount.
  { unfold count. destruct bs; [done|]. cbn [length]. lia. }
  assert (N.of_nat count ≤ CHUNK_SIZE - N.of_nat (length (buffer w)))%N as Hroom by (unfold count; lia).
  assert (writing key salt pre w1 flushed) as Hw1 by (destruct Hw; by split).
  assert (length (buffer w1) = length (buffer w) + count) as Hb1.
  { cbn. rewrite length_app, length_take. lia. }
  assert (flushed ++ buffer w ++ bs = flushed ++ buffer w1 ++ drop count bs) as Hall.
  { cbn. by rewrite <-(assoc_L (++)), take_drop. }
  rewrite Hall in Hmax |- *. case_decide as Hfull.
  - assert (N.of_nat (length (flushed ++ buffer w1)) ≤ MAX_BYTES)%N as Hm1 by len.
    destruct (flush_chunk_writes key salt pre w1 flushed Hs Hw1) as (w2 & -> & Hw2 & Hb2 & Hh2 & Hi2).
    { intros Hn. rewrite Hn in Hb1. cbn in Hb1. lia. }
    { lia. }
    { cbn. rewrite length_app in Hm1. destruct archive_limits as (Hl1 & Hl2 & Hl3).
      rewrite Hl1, ?Hl2, ?Hl3 in *. lia. }
    { done. }
    destruct (IH w2 (flushed ++ buffer w1) (drop count bs) Hw2) as (w3 & fl3 & -> & Hw3 & Hd3 & Hl3 & Hf3 & Hh3 & Hp3).
    { len. }
    { by rewrite Hb2. }
    { rewrite Hi2. cbn [chunk_total]. rewrite length_app. cbn [info w1 with_progress]. lia. }
    { by rewrite Hb2, <-(assoc_L (++)). }
    exists w3, fl3. rewrite Hd3, Hb2, Hh3, Hp3, Hh2, Hi2, <-(assoc_L (++)). done.
  - destruct (IH w1 flushed (drop count bs) Hw1) as (w3 & fl3 & -> & Hw3 & Hd3 & Hl3 & Hf3 & Hh3 & Hp3);
      [len|lia|done|done|].
    by exists w3, fl3.
Qed.

(** A writer that took [data] so far. *)
Definition holds (key salt pre : bytes) (w : ArchiveWriter) (data : bytes) : Prop :=
  ∃ flushed, writing key salt pre w flushed ∧ flushed ++ buffer w = data ∧
    (N.of_nat (length (buffer w)) < CHUNK_SIZE)%N ∧
    N.of_nat (length flushed) = (chunk_total (info w) * CHUNK_SIZE)%N ∧
    hashed w = data ∧ plaintext_bytes (info w) = N.of_nat (length data).

Lemma push_holds key salt pre w data bs :
  length salt = 16 → holds key salt pre w data → (N.of_nat (length (data ++ bs)) ≤ MAX_BYTES)%N →
  ∃ w', push w bs = (w', Ok ()) ∧ holds key salt pre w' (data ++ bs).
Proof.
  intros Hs (flushed & Hw & Hdata & Hb & Hfl & Hh & Hp) Hmax. unfold push, checked_add.
  destruct archive_limits as (Hl1 & _). rewrite Hp.
  assert (N.of_nat (length data) + N.of_nat (length bs) = N.of_nat (length (data ++ bs)))%N as -> by len.
  rewrite decide_True by (unfold u64_max; lia). rewrite decide_False by lia. set (w1 := with_progress _ _ _ _).
  assert (writing key salt pre w1 flushed) as Hw1 by (destruct Hw; by split).
  destruct (push_loop_writes key salt pre (S (length bs)) w1 flushed bs Hs Hw1)
    as (w' & fl & -> & Hw' & Hd' & Hb' & Hf' & Hh' & Hp'); [lia|done|done| |].
  { cbn. rewrite (assoc_L (++)), Hdata. done. }
  exists w'. split; [done|]. exists fl. rewrite Hd', Hh', Hp'. cbn. by rewrite (assoc_L (++)), Hdata, Hh.
Qed.

Lemma finish_holds key salt pre w data :
  length salt = 16 → holds key salt pre w data → (N.of_nat (length data) ≤ MAX_BYTES)%N →
  ∃ a n, finish w = (MkSink (pre ++ a) None true, Ok (MkArchiveInfo (N.of_nat (length data)) n)) ∧
    archive_of key a data n.
Proof.
  intros Hs (flushed & Hw & Hdata & Hb & Hfl & Hh & Hp) Hmax. destruct archive_limits as (Hl1 & Hl2 & Hl3).
  rewrite Hl1, Hl3 in *.
  assert (∃ w', flush_chunk w = (w', Ok ()) ∧ writing key salt pre w' data ∧ hashed w' = data ∧
    plaintext_bytes (info w') = N.of_nat (length data) ∧ (chunk_total (info w') ≤ MAX_CHUNKS)%N)
    as (w' & Hfc & [Hr Hfs Hsa Hhd Hc Hf (body & Hsk & Hbody)] & Hh' & Hp' & Hct).
  { destruct (decide (buffer w = [])) as [He|Hne].
    - exists w. unfold flush_chunk. rewrite decide_True by done. rewrite He, app_nil_r in Hdata. subst data.
      rewrite Hl2. split_and!; [done..|lia].
    - assert (length data = length flushed + length (buffer w)) as Hlen by (rewrite <-Hdata; len).
      destruct (flush_chunk_writes key salt pre w flushed Hs Hw Hne) as (w' & -> & Hw' & _ & Hh1 & Hi1);
        [lia|lia|by rewrite Hdata, Hl1|].
      exists w'. rewrite Hdata in Hw'. rewrite Hh1, Hi1, Hl2. cbn. split_and!; [done..|lia]. }
  unfold finish. rewrite Hfc.
  destruct (seal_opens (aw_final_cipher w') (aw_salt w') (aw_header w') FINAL_KIND (chunk_total (info w'))
              (final_record (plaintext_bytes (info w')) (hashed w'))) as (frame & ct & -> & Hop).
  { rewrite Hf. apply hkdf_length. }
  { by rewrite Hsa. }
  { rewrite Hl2 in Hct. unfold u64_max. lia. }
  { unfold final_record. rewrite length_app, length_be_bytes, sha256_length. done. }
  rewrite write_sealed_open by done. cbn [destination with_destination sk_flushes info fst snd]. rewrite Hfs, Hsk.
  exists (archive_header salt ++ body ++ frame ++ ct), (chunk_total (info w')). split.
  { rewrite <-!(assoc_L (++)). do 2 f_equal. destruct (info w'); cbn in *. by subst. }
  exists salt, (body ++ frame ++ ct). split_and!; [done..|]. rewrite <-Hc, <-Hf, <-Hhd, <-(app_nil_r data).
  apply Hbody. constructor. rewrite Hsa in Hop. by rewrite Hh', Hp' in Hop.
Qed.

Lemma write_loop_holds key salt pre fuel w data source :
  length salt = 16 → holds key salt pre w data → delivering source → ending source = None →
  length (pending_bytes source) < fuel →
  (N.of_nat (length (data ++ pending_bytes source)) ≤ MAX_BYTES)%N →
  let all := data ++ pending_bytes source in
  ∃ a n, write_loop fuel w source =
      (MkSink (pre ++ a) None true, Ok (MkArchiveInfo (N.of_nat (length all)) n)) ∧
    archive_of key a all n.
Proof.
  intros Hs. revert w data source. induction fuel as [|fuel IH]; intros w data source Hw Hd He Hfuel Hmax; [lia|].
  cbv zeta in *. cbn [write_loop]. destruct (decide (pending_bytes source = [])) as [Hp|Hp].
  { rewrite stream_read_none, He by done. rewrite Hp, app_nil_r in Hmax |- *.
    exact (finish_holds key salt pre w data Hs Hw Hmax). }
  destruct (stream_read_some source (N.to_nat CHUNK_SIZE) Hd) as (s1 & bs & -> & Hne & _ & Heq & Hd1 & He1);
    [destruct archive_limits as (_ & _ & ->); lia|done|].
  rewrite Heq, (assoc_L (++)) in Hmax |- *. rewrite Heq, length_app in Hfuel.
  destruct (push_holds key salt pre w data bs Hs Hw ltac:(len)) as (w1 & Hpush & Hw1).
  destruct bs as [|b bs]; [done|]. rewrite Hpush. cbn [length] in Hfuel.
  apply (IH w1 (data ++ b :: bs) s1 Hw1 Hd1); [congruence|lia|done].
Qed.

Lemma writer_new_holds key salt d :
  sk_room d = None → sk_flushes d = true →
  ∃ d' w, writer_new salt d key = (d', Ok w) ∧ holds key salt (sk_bytes d) w [].
Proof.
  intros Hr Hf. unfold writer_new, write_all. rewrite Hr. do 2 eexists. split; [done|].
  exists []. split_and!; try done. split; try done. exists []. by rewrite app_nil_r.
Qed.

(** C15: A recovery archive brings the profile back: writing any stream of up to eight
    gigabytes succeeds, however the stream is cut into reads, and reading the written
    bytes, however they are delivered, succeeds with the same summary and stages exactly
    the bytes of the stream. *)
Theorem archive_roundtrip key salt source d :
  length salt = 16 → delivering source → ending source = None →
  (N.of_nat (length (pending_bytes source)) ≤ MAX_BYTES)%N → sk_room d = None → sk_flushes d = true →
  ∃ a n, let summary := MkArchiveInfo (N.of_nat (length (pending_bytes source))) n in
    write_archive salt source d key = (MkSink (sk_bytes d ++ a) None true, Ok summary) ∧
    ∀ back sink, delivering back → ending back = None → pending_bytes back = a → sk_room sink = None →
      read_archive back sink key =
        (MkSink (sk_bytes sink ++ pending_bytes source) None (sk_flushes sink), Ok summary).
Proof.
  intros Hs Hd He Hmax Hr Hf. unfold write_archive.
  destruct (writer_new_holds key salt d Hr Hf) as (d' & w & -> & Hw).
  destruct (write_loop_holds key salt (sk_bytes d) (S (length (pending_bytes source))) w [] source Hs Hw)
    as (a & n & -> & Ha); [done|done|lia|done|].
  exists a, n. split; [done|]. intros back sink Hdb Heb <- Hrb.
  exact (read_archive_complete back sink key _ n sha256_length Hdb Heb Hrb Ha).
Qed.

(** C16: Success of reading means the archive is whole: what was staged is the plaintext of
    consecutively numbered chunks that opened under the archive's key, its length and hash
    are the ones sealed in the final record, and no shorter or longer stream is accepted —
    an archive cut anywhere, or with anything appended, is refused, however it is
    delivered. *)
Theorem archive_whole key s sink sink' inf :
  delivering s → read_archive s sink key = (sink', Ok inf) →
  (∃ plain, archive_of key (pending_bytes s) plain (chunk_total inf) ∧
     sk_bytes sink' = sk_bytes sink ++ plain ∧ plaintext_bytes inf = N.of_nat (length plain)) ∧
  ∀ t q sink2, delivering t → q ≠ [] →
    pending_bytes s = pending_bytes t ++ q ∨ pending_bytes t = pending_bytes s ++ q →
    is_ok (read_archive t sink2 key).2 = false.
Proof.
  intros Hd Hr. destruct (read_archive_sound _ _ _ _ _ Hd Hr) as (plain & Ha & Hs & Hp & _).
  split; [by exists plain|]. intros t q sink2 Ht Hq Hcut.
  destruct (read_archive t sink2 key) as [sink3 [inf'|e]] eqn:Et; [|done]. destruct Hq.
  destruct (read_archive_sound _ _ _ _ _ Ht Et) as (plain' & Ha' & _).
  destruct Hcut as [Hc|Hc].
  - rewrite Hc in Ha. exact (archive_prefix_free _ _ _ _ _ _ _ Ha' Ha).
  - rewrite Hc in Ha'. exact (archive_prefix_free _ _ _ _ _ _ _ Ha Ha').
Qed.
End writing.

(** ** Witnesses *)

Module ArchiveWitness.
Import ToyCrypto.
Definition secret : bytes := repeat Byte.x07 32.
Definition salt : bytes := repeat Byte.x05 16.
Definition profile : Incoming := MkIncoming [str "mesh"; str "-talk"] None.
Definition open_sink : Sink := MkSink [] None true.
Definition written : bytes := sk_bytes (write_archive salt profile open_sink secret).1.

(** The archive, delivered in two fragments. *)
Definition delivered : Incoming := MkIncoming [take 30 written; drop 30 written] None.

Lemma roundtrip_witness :
  ∃ a n, write_archive salt profile open_sink secret =
      (MkSink a None true, Ok (MkArchiveInfo 9 n)) ∧
    ∀ back, delivering back → ending back = None → pending_bytes back = a →
      read_archive back open_sink secret = (MkSink (str "mesh-talk") None true, Ok (MkArchiveInfo 9 n)).
Proof.
  destruct (archive_roundtrip secret salt profile open_sink) as (a & n & Hw & Hr).
  - reflexivity.
  - by repeat constructor.
  - reflexivity.
  - by vm_compute.
  - reflexivity.
  - reflexivity.
  - exists a, n. split; [exact Hw|]. intros back Hd He Hp. exact (Hr back open_sink Hd He Hp eq_refl).
Defined.

Lemma delivered_read :
  read_archive delivered open_sink secret = (MkSink (str "mesh-talk") None true, Ok (MkArchiveInfo 9 1)).
Proof. by vm_compute. Qed.

Lemma delivered_delivering : delivering delivered.
Proof. by_evaluation. Qed.

(** Without its last byte the archive is refused. *)
Lemma whole_witness :
  is_ok (read_archive (MkIncoming [take 131 written] None) open_sink secret).2 = false.
Proof.
  apply (proj2 (archive_whole secret delivered open_sink _ _ delivered_delivering delivered_read)
           (MkIncoming [take 131 written] None) (drop 131 written)).
  - by_evaluation.
  - by_evaluation.
  - left. by vm_compute.
Defined.
End ArchiveWitness.
