(* ===== verification/Scope.v ===== *)
(** * Discovery scope and visibility

    Models crates/mesh-talk-core/src/discovery/scope.rs (which addresses count as the
    local network) and discovery/visibility.rs (which announcements may leave).  The
    interfaces of the machine are an argument, as are the outcomes of socket calls.  The
    platform-specific multicast sender of Windows is left out. *)

From S2P Require Import Prelude Announce Framing Text.

(** ** discovery/scope.rs *)

Record LanInterface := MkLan { li_address : IpAddr; li_prefix : N; li_index : option N }.

(** What the system reports of an interface. *)
Record Interface := MkInterface {
  if_name : bytes;
  if_loopback : bool;
  if_p2p : bool;
  if_address : IpAddr;
  if_prefixlen : N;
  if_index : option N
}.

Record SocketAddr := MkSocketAddr { sa_ip : IpAddr; sa_port : N; sa_scope_id : N }.

(** [str::contains]. *)
Fixpoint contains (s part : bytes) : bool :=
  starts_with part s || match s with [] => false | _ :: s => contains s part end.

Definition overlay_parts : list bytes :=
  str <$> ["tailscale"; "wireguard"; "wintun"; "vpn"; "tunnel"; "virtual"; "vethernet";
           "zerotier"; "tap"; "tun"; "ppp"; "hamachi"; "hyper-v"]%string.
Definition physical_prefixes : list bytes :=
  str <$> ["en"; "eth"; "wlan"; "wlp"; "wlx"; "wi-fi"; "wifi"]%string.

Definition physical_name (name : bytes) (point_to_point : bool) : bool :=
  let name := to_ascii_lowercase <$> name in
  negb point_to_point && negb (existsb (contains name) overlay_parts) &&
  existsb (λ prefix, starts_with prefix name) physical_prefixes.

(** [Ipv4Addr] and [Ipv6Addr] predicates on the octets. *)
Definition octet (ip : bytes) (i : nat) : N := default 0%N (Byte.to_N <$> ip !! i).

Definition overlay (ip : bytes) : bool :=
  bool_decide (octet ip 0 = 100%N) && (64 <=? octet ip 1)%N && (octet ip 1 <? 128)%N.

Definition is_unicast_link_local (ip : bytes) : bool :=
  bool_decide (octet ip 0 = 254%N) && bool_decide (octet ip 1 / 64 = 2)%N.

Definition to_ipv4_mapped (ip : bytes) : option bytes :=
  if decide (take 12 ip = repeat Byte.x00 10 ++ [Byte.xff; Byte.xff]) then Some (drop 12 ip) else None.

Definition lan_interface (iface : Interface) : option LanInterface :=
  match if_address iface with
  | V4 ip =>
      if negb (overlay ip) && (0 <? if_prefixlen iface)%N
      then Some (MkLan (V4 ip) (if_prefixlen iface) (if_index iface)) else None
  | V6 ip =>
      if is_unicast_link_local ip
      then Some (MkLan (V6 ip) (if_prefixlen iface) (if_index iface)) else None
  end.

(** [inventory] on what [get_if_addrs] returned; an error is the empty list. *)
Definition inventory (ifaces : list Interface) : list LanInterface :=
  omap lan_interface
    (filter (λ i, negb (if_loopback i) && physical_name (if_name i) (if_p2p i)) ifaces).

(** [u32::MAX << (32 - prefix)]. *)
Definition subnet_mask (prefix : N) : N := N.land (N.shiftl u32_max (32 - prefix)) u32_max.

Definition in_subnet (ip : bytes) (iface : LanInterface) : bool :=
  match li_address iface with
  | V4 own =>
      (1 <=? li_prefix iface)%N && (li_prefix iface <=? 32)%N &&
      bool_decide (N.land (be_value own) (subnet_mask (li_prefix iface)) =
                   N.land (be_value ip) (subnet_mask (li_prefix iface)))
  | V6 _ => false
  end.

Definition permits_v4 (interfaces : list LanInterface) (ip : bytes) : bool :=
  if overlay ip || bool_decide (ip = repeat Byte.x00 4) then false
  else existsb (in_subnet ip) interfaces.

Definition permits_v6 (interfaces : list LanInterface) (ip : bytes) (scope_id : N) : bool :=
  is_unicast_link_local ip && bool_decide (scope_id ≠ 0%N) &&
  existsb (λ i, match li_address i with V6 _ => bool_decide (li_index i = Some scope_id) | V4 _ => false end)
    interfaces.

Definition permits (interfaces : list LanInterface) (target : SocketAddr) : bool :=
  match sa_ip target with
  | V4 ip => permits_v4 interfaces ip
  | V6 ip =>
      match to_ipv4_mapped ip with
      | Some ip => permits_v4 interfaces ip
      | None => permits_v6 interfaces ip (sa_scope_id target)
      end
  end.

(** ** discovery/visibility.rs

    [in_flight] lists the sends that hold the read side of the lock, with whether each is
    routed; a change of a setting takes the write side, so it waits for all of them. *)

Record Visibility := MkVisibility {
  vi_public : bool;
  vi_physical_lan_only : bool;
  vi_in_flight : list bool
}.

Definition visibility_new (public : bool) : Visibility := MkVisibility public false [].

Definition send_admitted (v : Visibility) (routed : bool) : bool :=
  negb (negb (vi_public v) || (routed && vi_physical_lan_only v)).

Definition routed_allowed (v : Visibility) : bool := vi_public v && negb (vi_physical_lan_only v).

Definition accepts_source (v : Visibility) (interfaces : list LanInterface) (source : SocketAddr) : bool :=
  negb (vi_physical_lan_only v) || permits interfaces source.

Definition physical_ipv4_addrs (interfaces : list LanInterface) : list bytes :=
  omap (λ i, match li_address i with V4 ip => Some ip | V6 _ => None end) interfaces.

Definition discovery_active : IoError := MkIoError OtherKind (str "discovery already active").

(** [try_write] of an idle lock. *)
Definition initialize_public (v : Visibility) (public : bool) : Visibility * result IoError () :=
  if decide (vi_in_flight v = []) then (MkVisibility public (vi_physical_lan_only v) [], Ok ())
  else (v, Err discovery_active).

Definition initialize_physical_lan_only (v : Visibility) (enabled : bool) :
    Visibility * result IoError () :=
  if decide (vi_in_flight v = []) then (MkVisibility (vi_public v) enabled [], Ok ())
  else (v, Err discovery_active).

Definition DISCOVERY_MULTICAST_GROUP : IpAddr := V4 [Byte.xe0; Byte.x00; Byte.x00; Byte.xa7].

(** Datagrams handed to the system: the source address chosen, if any, and the target. *)
Record Datagram := MkDatagram { dg_source : option bytes; dg_target : SocketAddr }.

(** The multicast loop over the physical addresses; [io k] is the error of the [k]-th. *)
Fixpoint send_on_each (io : nat → option IoError) (k : nat) (sources : list bytes) (target : SocketAddr) :
    list Datagram * result IoError bool :=
  match sources with
  | [] => ([], Ok true)
  | source :: sources =>
      match io k with
      | Some e => ([], Err e)
      | None =>
          let '(sent, r) := send_on_each io (S k) sources target in
          (MkDatagram (Some source) target :: sent, r)
      end
  end.

Definition send_announce_inner (v : Visibility) (interfaces : list LanInterface)
    (io : nat → option IoError) (target : SocketAddr) : list Datagram * result IoError bool :=
  if vi_physical_lan_only v && bool_decide (sa_ip target = DISCOVERY_MULTICAST_GROUP)
  then send_on_each io 0 (physical_ipv4_addrs interfaces) target
  else if vi_physical_lan_only v && negb (accepts_source v interfaces target) then ([], Ok false)
  else match io 0 with
       | Some e => ([], Err e)
       | None => ([MkDatagram None target], Ok true)
       end.

(** [send_announce] within its deadline. *)
Definition send_announce (v : Visibility) (interfaces : list LanInterface)
    (io : nat → option IoError) (target : SocketAddr) : list Datagram * result IoError bool :=
  if send_admitted v false then send_announce_inner v interfaces io target else ([], Ok false).

(** The steps of the host and of its discovery tasks. *)
Inductive visibility_step : Visibility → Visibility → Prop :=
  | vs_begin v routed :
      send_admitted v routed = true →
      visibility_step v (MkVisibility (vi_public v) (vi_physical_lan_only v) (routed :: vi_in_flight v))
  | vs_end p l before routed after :
      visibility_step (MkVisibility p l (before ++ routed :: after)) (MkVisibility p l (before ++ after))
  | vs_set_public p l public : visibility_step (MkVisibility p l []) (MkVisibility public l [])
  | vs_set_lan p l enabled : visibility_step (MkVisibility p l []) (MkVisibility p enabled [])
  | vs_init_public v public : visibility_step v (initialize_public v public).1
  | vs_init_lan v enabled : visibility_step v (initialize_physical_lan_only v enabled).1.

(** ** What the scope means *)

Lemma masked x p :
  (x ≤ u32_max)%N → (1 ≤ p ≤ 32)%N →
  N.land x (subnet_mask p) = N.shiftl (N.shiftr x (32 - p)) (32 - p).
Proof.
  intros Hx Hp. unfold subnet_mask. change u32_max with (N.ones 32) in *. apply N.bits_inj. intros n.
  rewrite !N.land_spec. destruct (N.lt_ge_cases n (32 - p)) as [Hn|Hn].
  - rewrite N.shiftl_spec_low by done. rewrite N.shiftl_spec_low by done. by rewrite andb_false_r.
  - rewrite !N.shiftl_spec_high' by done. rewrite N.shiftr_spec' by lia.
    replace (n - (32 - p) + (32 - p))%N with n by lia.
    destruct (N.lt_ge_cases n 32) as [Hl|Hl].
    + rewrite !N.ones_spec_low by lia. by rewrite !andb_true_r.
    + rewrite (N.ones_spec_high 32 n) by lia. rewrite !andb_false_r. symmetry.
      destruct (decide (x = 0%N)) as [->|Hz]; [apply N.bits_0|]. apply N.bits_above_log2.
      assert (N.ones 32 < 2 ^ 32)%N by (by vm_compute).
      assert (N.log2 x < 32)%N by (apply N.log2_lt_pow2; lia). lia.
Qed.

(** Two addresses are in one subnet when they agree on its prefix. *)
Lemma in_subnet_prefix ip own prefix index :
  length ip = 4 → length own = 4 →
  in_subnet ip (MkLan (V4 own) prefix index) = true ↔
  (1 ≤ prefix ≤ 32)%N ∧ (be_value own / 2 ^ (32 - prefix) = be_value ip / 2 ^ (32 - prefix))%N.
Proof.
  intros Hi Ho. unfold in_subnet. cbn [li_address li_prefix].
  rewrite !andb_true_iff, !N.leb_le, bool_decide_eq_true.
  assert (∀ x : bytes, length x = 4 → (be_value x ≤ u32_max)%N) as Hb
    by (intros x Hx; apply u32_width; by apply be_value_bound).
  split; intros [Hp Heq]; (split; [done|]).
  - rewrite !masked in Heq by auto. rewrite <-!N.shiftr_div_pow2.
    apply (f_equal (λ z, N.shiftr z (32 - prefix))) in Heq.
    by rewrite !N.shiftr_shiftl_l, !N.sub_diag, !N.shiftl_0_r in Heq by lia.
  - rewrite !masked by auto. by rewrite !N.shiftr_div_pow2, Heq.
Qed.

(** No interface of the inventory is an overlay, a loopback or a point-to-point link. *)
Lemma inventory_physical ifaces li :
  li ∈ inventory ifaces →
  ∃ i, i ∈ ifaces ∧ lan_interface i = Some li ∧ if_loopback i = false ∧ if_p2p i = false ∧
    match li_address li with V4 ip => overlay ip = false ∧ (0 < li_prefix li)%N | V6 ip => is_unicast_link_local ip = true end.
Proof.
  unfold inventory. intros (i & Hi & Hl)%list_elem_of_omap. apply list_elem_of_filter in Hi as [Hp Hi].
  apply Is_true_eq_true, andb_true_iff in Hp as [Hlo Hn]. exists i. split_and!; [done|done| | |].
  - by destruct (if_loopback i).
  - unfold physical_name in Hn. by destruct (if_p2p i).
  - unfold lan_interface in Hl. destruct (if_address i) as [ip|ip].
    + destruct (overlay ip) eqn:Ho; [done|]. cbn [negb andb] in Hl.
      destruct (0 <? if_prefixlen i)%N eqn:Hz; [|done]. apply N.ltb_lt in Hz. by injection Hl as <-.
    + destruct (is_unicast_link_local ip) eqn:Hu; [|done]. by injection Hl as <-.
Qed.

Lemma send_on_each_sources io k sources target sent r :
  send_on_each io k sources target = (sent, r) →
  ∀ dg, dg ∈ sent → dg_target dg = target ∧ ∃ s, dg_source dg = Some s ∧ s ∈ sources.
Proof.
  revert k sent r. induction sources as [|s sources IH]; intros k sent r; cbn [send_on_each].
  { intros [= <- _]. set_solver. }
  destruct (io k); [intros [= <- _]; set_solver|].
  destruct (send_on_each io (S k) sources target) as [sent1 r1] eqn:He. intros [= <- _] dg.
  intros [->|Hd]%elem_of_cons; [cbn; split; [done|]; exists s; set_solver|].
  destruct (IH _ _ _ He dg Hd) as (? & s' & ? & ?). split; [done|]. exists s'. set_solver.
Qed.

(** Nothing is announced while hidden, and with the physical network only, an announcement
    goes to a permitted address or to the multicast group from a physical interface. *)
Lemma announcements_contained v ifaces io target sent r :
  send_announce v (inventory ifaces) io target = (sent, r) → sent ≠ [] →
  vi_public v = true ∧
  (vi_physical_lan_only v = true →
   ∀ dg, dg ∈ sent → dg_target dg = target ∧
     (permits (inventory ifaces) target = true ∨
      sa_ip target = DISCOVERY_MULTICAST_GROUP ∧
      ∃ s li, dg_source dg = Some s ∧ li ∈ inventory ifaces ∧ li_address li = V4 s)).
Proof.
  unfold send_announce, send_admitted. destruct (vi_public v); [|by intros [= <- _]]. cbn [negb orb andb].
  unfold send_announce_inner. destruct (vi_physical_lan_only v) eqn:Hl; [|done]. cbn [andb].
  intros Hs Hne. split; [done|]. intros _ dg Hdg. case_bool_decide as Hm.
  - destruct (send_on_each_sources _ _ _ _ _ _ Hs dg Hdg) as (Ht & s & Hds & Hin).
    split; [done|]. right. split; [done|].
    unfold physical_ipv4_addrs in Hin. apply list_elem_of_omap in Hin as (li & Hli & Ha).
    destruct (li_address li) as [ip|] eqn:Hadd; [|done]. injection Ha as ->. by exists s, li.
  - unfold accepts_source in Hs. rewrite Hl in Hs. cbn [negb orb] in Hs.
    destruct (permits (inventory ifaces) target) eqn:Hp; cbn [negb] in Hs; [|by injection Hs as <- _].
    destruct (io 0); injection Hs as <- _; [done|]. apply list_elem_of_singleton in Hdg as ->. split; [done|by left].
Qed.

Lemma visibility_step_allowed v v' :
  visibility_step v v' → (∀ routed, routed ∈ vi_in_flight v → send_admitted v routed = true) →
  ∀ routed, routed ∈ vi_in_flight v' → send_admitted v' routed = true.
Proof.
  intros Hs Hv. destruct Hs as [v r Ha|p l before r after|p l b|p l b|v b|v b];
    cbn [vi_in_flight] in *; [set_solver| |set_solver|set_solver| |].
  - intros x Hx. apply (Hv x). set_solver.
  - unfold initialize_public. case_decide; cbn [fst vi_in_flight]; [set_solver|done].
  - unfold initialize_physical_lan_only. case_decide; cbn [fst vi_in_flight]; [set_solver|done].
Qed.


