(* ===== verification/Origin.v ===== *)
(** * Registration origins

    Models crates/mesh-talk-core/src/node/discovery_origin.rs: a participant consents
    to an office's naming it, and the office attests the consent. *)

From S2P Require Import Prelude Crypto Bincode Identity Text.

Definition ORIGIN_LEASE_SECS : N := 15.
Definition MAX_OFFICE_NAME_BYTES : nat := 256.

Record OriginConsent := MkConsent {
  oc_participant : PublicIdentity;
  oc_office : PublicIdentity;
  oc_expires_at_secs : N;
  oc_signature : bytes
}.

#[global] Instance OriginConsent_eq_dec : EqDecision OriginConsent.
Proof. solve_decision. Defined.

Record RegistrationOrigin := MkOrigin {
  ro_office : PublicIdentity;
  ro_office_name : bytes;
  ro_consent : OriginConsent;
  ro_signature : bytes
}.

#[global] Instance RegistrationOrigin_eq_dec : EqDecision RegistrationOrigin.
Proof. solve_decision. Defined.

Definition valid_name (name : bytes) : bool :=
  negb (trim_is_empty name) && bool_decide (length name ≤ MAX_OFFICE_NAME_BYTES) &&
  negb (existsb is_control (chars name)).

(** The tuples the two signatures serialize. *)
Abbreviation consent_content := (PublicIdentity * PublicIdentity * N)%type.
Abbreviation origin_content := (PublicIdentity * bytes * OriginConsent)%type.

Section origin.
Context `{Crypto, Bincode consent_content, Bincode origin_content}.

Definition signed_bytes `{Bincode A} (domain : bytes) (value : A) : bytes := domain ++ ser value.

Definition origin_verify (public : PublicIdentity) (bs signature : bytes) : bool :=
  if decide (length signature = 64) then verify (ed25519_pub public) bs signature else false.

Definition consent_signing_bytes (c : OriginConsent) : bytes :=
  signed_bytes (str "mesh-talk-origin-consent-v1")
    (oc_participant c, oc_office c, oc_expires_at_secs c).

Definition consent_new (participant : DeviceIdentity) (office : PublicIdentity)
    (expires_at_secs : N) : OriginConsent :=
  let consent := MkConsent (public participant) office expires_at_secs [] in
  MkConsent (public participant) office expires_at_secs
    (sign participant (consent_signing_bytes consent)).

Definition consent_valid_for (c : OriginConsent) (participant office : PublicIdentity) (now : N) : bool :=
  bool_decide (oc_participant c = participant) && bool_decide (oc_office c = office) &&
  bool_decide (now < oc_expires_at_secs c)%N &&
  bool_decide (oc_expires_at_secs c ≤ saturating_add u64_max now ORIGIN_LEASE_SECS)%N &&
  origin_verify participant (consent_signing_bytes c) (oc_signature c).

Definition origin_signing_bytes (p : RegistrationOrigin) : bytes :=
  signed_bytes (str "mesh-talk-registration-origin-v1")
    (ro_office p, ro_office_name p, ro_consent p).

Definition origin_new (office : DeviceIdentity) (name : bytes) (consent : OriginConsent) :
    option RegistrationOrigin :=
  if bool_decide (public office ≠ oc_office consent) || negb (valid_name name) then None
  else
    let proof := MkOrigin (public office) name consent [] in
    Some (MkOrigin (public office) name consent (sign office (origin_signing_bytes proof))).

Definition origin_valid_for (p : RegistrationOrigin) (participant : PublicIdentity) (now_secs : N) : bool :=
  valid_name (ro_office_name p) && consent_valid_for (ro_consent p) participant (ro_office p) now_secs &&
  origin_verify (ro_office p) (origin_signing_bytes p) (ro_signature p).

Definition is_from (p : RegistrationOrigin) (office : PublicIdentity) : bool :=
  bool_decide (ro_office p = office).
Definition office_user_id (p : RegistrationOrigin) : UserId := user_id (ro_office p).
Definition office_name (p : RegistrationOrigin) : bytes := ro_office_name p.
Definition origin_expires_at_secs (p : RegistrationOrigin) : N := oc_expires_at_secs (ro_consent p).
End origin.

Section origin_laws.
Context `{Crypto, !CryptoLaws, Bincode consent_content, Bincode origin_content}.

(** A registration origin needs both parties and the right moment.  The proof an
    office makes from a participant's consent is valid for exactly that participant
    and exactly while the consent has not expired and is not further than the lease
    away; an office that is not the one consented to, or a name that is blank, long
    or holds control characters, makes no proof at all. *)
Lemma origin_valid_exactly participant office expiry name :
  type_wf participant → type_wf office →
  let consent := consent_new participant (public office) expiry in
  (∀ other, public other ≠ public office → origin_new other name consent = None) ∧
  match origin_new office name consent with
  | None => valid_name name = false
  | Some proof => valid_name name = true ∧
      ∀ p now, origin_valid_for proof p now = true ↔
        p = public participant ∧ (now < expiry)%N ∧
        (expiry ≤ saturating_add u64_max now ORIGIN_LEASE_SECS)%N
  end.
Proof.
  intros Hp Ho consent. split.
  - intros other Hne. unfold origin_new. by rewrite bool_decide_true.
  - unfold origin_new. rewrite bool_decide_false by (cbn; tauto). cbn [orb].
    destruct (valid_name name) eqn:Hn; [|done]. cbn [negb]. split; [done|]. intros p now.
    unfold origin_valid_for, consent_valid_for, origin_verify.
    cbn [ro_office_name ro_consent ro_office ro_signature consent consent_new oc_participant
      oc_office oc_expires_at_secs oc_signature].
    rewrite Hn. rewrite !decide_True by apply ed25519_sign_length.
    assert (∀ d m, type_wf d → verify (ed25519_pub (public d)) m (sign d m) = true) as Hv
      by (intros; by apply verify_sign).
    change (origin_signing_bytes (MkOrigin (public office) name consent _))
      with (origin_signing_bytes (MkOrigin (public office) name consent [])).
    rewrite (Hv office) by done. rewrite (bool_decide_true (public office = _)) by done.
    change (consent_signing_bytes (MkConsent (public participant) (public office) expiry _))
      with (consent_signing_bytes (MkConsent (public participant) (public office) expiry [])).
    rewrite !andb_true_iff, !bool_decide_eq_true. cbn. split; [naive_solver|].
    intros (-> & ? & ?). rewrite Hv by done. done.
Qed.
End origin_laws.

(** ** A concrete encoding of the signed contents *)

Module OriginCodec.
Import Fixint.

Definition public_codec : codec PublicIdentity :=
  c_iso (λ '(e, x), MkPublicIdentity e x) (λ p, (ed25519_pub p, x25519_pub p))
    (c_pair (c_arr 32) (c_arr 32)).
Definition consent_codec : codec OriginConsent :=
  c_iso (λ '(p, (o, (t, s))), MkConsent p o t s)
    (λ c, (oc_participant c, (oc_office c, (oc_expires_at_secs c, oc_signature c))))
    (c_pair public_codec (c_pair public_codec (c_pair (c_uint 8) c_bytes))).
#[export] Instance consent_bincode : Bincode consent_content :=
  bincode_of (c_pair (c_pair public_codec public_codec) (c_uint 8)).
#[export] Instance origin_bincode : Bincode origin_content :=
  bincode_of (c_pair (c_pair public_codec c_bytes) consent_codec).
End OriginCodec.
