(* ===== verification/Roster.v ===== *)
(** * The roster of known peers

    Models crates/mesh-talk-core/src/discovery/roster.rs: peers by user id with their
    routes, the signed announcements behind them, the bounded identity history, the
    locally authorized account bindings, presence deadlines, directory introductions
    with rollback, and eviction.  Instants and durations are nanoseconds; the clock
    read by an operation is an argument.  The wake-up of the recovery task is the
    permit it leaves, the observation channel its generation counter. *)

From S2P Require Import Prelude Crypto Bincode Identity Announce Text Origin.

Inductive RouteSource :=
  | Lan | Discovery | RoutedQuery | Gateway | Authenticated | PostOffice.

#[global] Instance RouteSource_eq_dec : EqDecision RouteSource.
Proof. solve_decision. Defined.

Record SocketAddr := MkSocket {
  sa_ip : IpAddr;
  sa_port : N;
  sa_flowinfo : N;
  sa_scope_id : N
}.

#[global] Instance SocketAddr_eq_dec : EqDecision SocketAddr.
Proof. solve_decision. Defined.

Definition socket (ip : IpAddr) (port : N) : SocketAddr := MkSocket ip port 0 0.

Record PeerEndpoint := MkEndpoint {
  pe_addr : SocketAddr;
  pe_source : RouteSource;
  pe_last_seen : N;
  pe_last_authenticated : option N;
  presence_expires_at : option N;
  presence_origin_expires_at : option N;
  origin_hops : option N;
  registration_origin : option RegistrationOrigin
}.

#[global] Instance PeerEndpoint_eq_dec : EqDecision PeerEndpoint.
Proof. solve_decision. Defined.

Definition MAX_ROUTES_PER_PEER : nat := 8.
Definition PUBLIC_PRESENCE_TTL : N := (15 * SECOND)%N.
Definition PUBLIC_RECONNECT_TTL : N := (60 * SECOND)%N.
Definition CROSS_NETWORK_PRESENCE_TTL : N := (120 * SECOND)%N.
Definition MAX_PEERS : nat := 1024.

Definition public_presence_deadline (e : PeerEndpoint) : option N :=
  match pe_source e with
  | Lan | Discovery => Some (pe_last_seen e + PUBLIC_PRESENCE_TTL)%N
  | RoutedQuery =>
      match presence_expires_at e with
      | Some deadline => Some deadline
      | None => Some (pe_last_seen e + PUBLIC_PRESENCE_TTL)%N
      end
  | Authenticated | PostOffice => presence_expires_at e
  | Gateway => None
  end.

Definition public_presentation_deadline (e : PeerEndpoint) (physical_lan : bool) : option N :=
  deadline ← public_presence_deadline e;
  Some match pe_source e with
       | RoutedQuery => (pe_last_seen e + CROSS_NETWORK_PRESENCE_TTL)%N
       | PostOffice => (deadline + (CROSS_NETWORK_PRESENCE_TTL - PUBLIC_PRESENCE_TTL))%N
       | Authenticated =>
           if physical_lan then deadline
           else (deadline + (CROSS_NETWORK_PRESENCE_TTL - PUBLIC_PRESENCE_TTL))%N
       | _ => deadline
       end.

(** [iter().rev().find(p)]. *)
Definition rfind {A} (p : A → bool) (l : list A) : option A := head (filter p (reverse l)).

Definition preferred_route (routes : list PeerEndpoint) : option PeerEndpoint :=
  match rfind (λ r, bool_decide (pe_source r ≠ Gateway) && bool_decide (pe_source r ≠ PostOffice)) routes with
  | Some r => Some r
  | None =>
      match rfind (λ r, bool_decide (pe_source r ≠ PostOffice)) routes with
      | Some r => Some r
      | None => last routes
      end
  end.

Record PeerRecord := MkPeer {
  pe_public : PublicIdentity;
  addr : SocketAddr;
  routes : list PeerEndpoint;
  name : bytes;
  post_office : bool;
  peer_account_id : option bytes;
  last_seen : N
}.

(** ** Presence of one peer *)

Definition presence_routes (r : PeerRecord) (now : N) : list (PeerEndpoint * N * N) :=
  omap (λ route,
    let age := ((now - pe_last_seen route) / SECOND)%N in
    deadline ← public_presence_deadline route;
    if decide (now < deadline)%N then Some (route, age, ((deadline - now) / SECOND)%N) else None)
    (routes r).

Definition presence_evidence (r : PeerRecord) (now : N) : list (RouteSource * N * N) :=
  (λ '(route, age, remaining), (pe_source route, age, remaining)) <$> presence_routes r now.

Definition same_ip (a b : SocketAddr) : bool := bool_decide (sa_ip a = sa_ip b).

Definition reconnect_remaining (r : PeerRecord) (now : N) : N :=
  foldr N.max 0%N (omap (λ route,
    deadline ← public_presentation_deadline route
      (existsb (λ other, bool_decide (pe_source other = Lan) &&
                         same_ip (pe_addr other) (pe_addr route)) (routes r));
    Some (deadline - now)%N) (routes r)).

(** The least element, [None] when there is none. *)
Definition minimum (l : list N) : option N :=
  match l with [] => None | x :: l => Some (foldr N.min x l) end.

(** [checked_sub] on an instant: none before the clock's origin. *)
Definition public_observation_age (r : PeerRecord) (now : N) : option N :=
  minimum (omap (λ route,
    deadline ← public_presence_deadline route;
    observed ← match pe_source route with
               | Authenticated | PostOffice =>
                   if decide (PUBLIC_PRESENCE_TTL ≤ deadline)%N
                   then Some (deadline - PUBLIC_PRESENCE_TTL)%N else None
               | _ => Some (pe_last_seen route)
               end;
    Some (now - observed)%N) (routes r)).

Definition has_direct_route (r : PeerRecord) : bool :=
  existsb (λ route, match pe_source route with
                    | Lan | Discovery | RoutedQuery | Authenticated => true
                    | Gateway | PostOffice => false
                    end) (routes r).

Definition has_lan_route (r : PeerRecord) : bool :=
  existsb (λ route, bool_decide (pe_source route = Lan)) (routes r).

Inductive UpdateOutcome := Rejected | New | Refreshed.

#[global] Instance UpdateOutcome_eq_dec : EqDecision UpdateOutcome.
Proof. solve_decision. Defined.

Definition accepted (o : UpdateOutcome) : bool :=
  match o with Rejected => false | _ => true end.

Record RelayedRollback := MkRollback {
  rb_user_id : UserId;
  rb_public : PublicIdentity;
  rb_previous : list (nat * PeerEndpoint);
  rb_staged : PeerEndpoint
}.

Record Roster := MkRoster {
  peers : gmap UserId PeerRecord;
  announcements : gmap UserId Announce;
  historical : gmap UserId Announce;
  conflicting_history : gset UserId;
  linked_bindings : gmap UserId (PublicIdentity * DeviceCertificate);
  changes : bool;
  observations : N
}.

Definition roster_default : Roster := MkRoster ∅ ∅ ∅ ∅ ∅ false 0.

(** The order in which a [HashMap] lists its entries. *)
Class MapIter := map_iter : ∀ {A}, gmap UserId A → list (UserId * A).
Class MapIterLaws `{MapIter} :=
  map_iter_perm : ∀ A (m : gmap UserId A), map_iter m ≡ₚ map_to_list m.

(** [min_by_key]: the first element with the least key. *)
Fixpoint min_by_key {A} (key : A → N) (l : list A) : option A :=
  match l with
  | [] => None
  | x :: l =>
      match min_by_key key l with
      | Some y => if decide (key x ≤ key y)%N then Some x else Some y
      | None => Some x
      end
  end.

(** [Vec::remove] and [Vec::insert]. *)
Definition remove_at {A} (i : nat) (l : list A) : list A := take i l ++ drop (S i) l.
Definition insert_at {A} (i : nat) (x : A) (l : list A) : list A := take i l ++ x :: drop i l.

Definition with_peers (r : Roster) (ps : gmap UserId PeerRecord) (ans : gmap UserId Announce) : Roster :=
  MkRoster ps ans (historical r) (conflicting_history r) (linked_bindings r) (changes r) (observations r).
Definition publish_observation (r : Roster) : Roster :=
  MkRoster (peers r) (announcements r) (historical r) (conflicting_history r) (linked_bindings r)
    (changes r) (wrapping_add u64_max (observations r) 1).
Definition notify_one (r : Roster) : Roster :=
  MkRoster (peers r) (announcements r) (historical r) (conflicting_history r) (linked_bindings r)
    true (observations r).
Definition notify_changes (r : Roster) : Roster := publish_observation (notify_one r).
Definition when (b : bool) (f : Roster → Roster) (r : Roster) : Roster := if b then f r else r.

Definition with_routes (p : PeerRecord) (rs : list PeerEndpoint) : PeerRecord :=
  MkPeer (pe_public p) (addr p) rs (name p) (post_office p) (peer_account_id p) (last_seen p).
Definition with_address (p : PeerRecord) (a : SocketAddr) (seen : N) : PeerRecord :=
  MkPeer (pe_public p) a (routes p) (name p) (post_office p) (peer_account_id p) seen.

(** ** Operations *)

Section roster.
Context `{Crypto, MapIter, Bincode consent_content, Bincode origin_content}.
Implicit Types (r : Roster) (a : Announce) (now : N) (id : UserId) (public : PublicIdentity).

Definition linked_binding_matches r a : bool :=
  match linked_bindings r !! an_user_id a with
  | None => true
  | Some (public, cert) =>
      bool_decide (announce_public a = public) && bool_decide (an_account_cert a = Some cert)
  end.

Definition forget r public : Roster :=
  let id := user_id public in
  match peers r !! id with
  | Some p =>
      if decide (pe_public p = public)
      then notify_changes (with_peers r (delete id (peers r)) (delete id (announcements r)))
      else r
  | None => r
  end.

Definition authorize_linked_account r public (certificate : DeviceCertificate) : Roster :=
  let id := user_id public in
  let differs (o : option Announce) :=
    match o with
    | Some old => bool_decide (announce_public old ≠ public) ||
                  bool_decide (an_account_cert old ≠ Some certificate)
    | None => false
    end in
  let changed := differs (announcements r !! id) || differs (historical r !! id) ||
                 bool_decide (id ∈ conflicting_history r) in
  let r :=
    if changed then
      let r := forget r public in
      MkRoster (peers r) (announcements r) (delete id (historical r))
        (conflicting_history r ∖ {[id]}) (linked_bindings r) (changes r) (observations r)
    else r in
  MkRoster (peers r) (announcements r) (historical r) (conflicting_history r)
    (<[id := (public, certificate)]> (linked_bindings r)) (changes r) (observations r).

Definition authorize_verified_account_transition := authorize_linked_account.

Definition historical_announcement r public : option Announce :=
  let id := user_id public in
  a ← historical r !! id;
  if decide ((id ∉ conflicting_history r) ∧ announce_public a = public) then Some a else None.

Definition next_historical_after r (cursor : option bytes) : option Announce :=
  let ids := btree_iter (dom (historical r) : gset bytes) in
  let after := match cursor with
               | Some c => filter (λ i, clt c i) ids
               | None => ids
               end in
  let upto := filter (λ i, cle i (default [] cursor)) ids in
  id ← head (filter (λ i, i ∉ conflicting_history r) (after ++ upto));
  historical r !! id.

Definition historical_by_author r (author : bytes) : option Announce :=
  let id := user_id_from author in
  a ← historical r !! id;
  if decide (an_ed25519_pub a = author ∧ id ∉ conflicting_history r) then Some a else None.

(** Record [a] in the bounded history, or mark the identity as conflicting. *)
Definition remember r a : Roster :=
  if match historical r !! an_user_id a with
     | Some old => bool_decide (announce_public old ≠ announce_public a) ||
         (bool_decide (is_Some (announce_account_id old)) &&
          bool_decide (announce_account_id old ≠ announce_account_id a))
     | None => false
     end
  then MkRoster (peers r) (announcements r) (historical r) ({[an_user_id a]} ∪ conflicting_history r)
         (linked_bindings r) (changes r) (observations r)
  else if decide (size (historical r) < MAX_PEERS ∨ is_Some (historical r !! an_user_id a))
  then MkRoster (peers r) (announcements r) (<[an_user_id a := a]> (historical r))
         (conflicting_history r) (linked_bindings r) (changes r) (observations r)
  else r.

(** Make room for a peer that was not there. *)
Definition make_room r (existed : bool) : Roster :=
  if negb existed && bool_decide (MAX_PEERS ≤ size (peers r)) then
    match min_by_key (λ e, last_seen e.2) (map_iter (peers r)) with
    | Some (oldest, _) =>
        with_peers r (delete oldest (peers r)) (delete oldest (announcements r))
    | None => r
    end
  else r.

Definition push_route (rs : list PeerEndpoint) (e : PeerEndpoint) : list PeerEndpoint :=
  let rs := rs ++ [e] in
  if decide (MAX_ROUTES_PER_PEER < length rs) then remove_at 0 rs else rs.

Definition update_from r now a (source_ip : IpAddr) (port : N) (self_user_id : UserId)
    (source : RouteSource) : Roster * UpdateOutcome :=
  if decide (an_user_id a = self_user_id) then (r, Rejected)
  else if negb (valid_presence a) || negb (linked_binding_matches r a) then (r, Rejected)
  else
    let r := remember r a in
    let addr := socket source_ip port in
    let previous := peers r !! an_user_id a in
    let existed := bool_decide (is_Some previous) in
    let route_changed :=
      match previous with
      | None => true
      | Some peer => bool_decide (pe_public peer ≠ announce_public a) ||
                     negb (existsb (λ route, bool_decide (pe_addr route = addr)) (routes peer))
      end in
    let old := match previous with
               | Some peer => if decide (pe_public peer = announce_public a) then routes peer else []
               | None => []
               end in
    let previous_auth :=
      route ← head (filter (λ route, pe_addr route = addr ∧ pe_source route = source) old);
      pe_last_authenticated route in
    let kept := filter (λ route, pe_source route ≠ source ∨
                          (pe_addr route ≠ addr ∧ sa_ip (pe_addr route) ≠ source_ip)) old in
    let rs := push_route kept
      (MkEndpoint addr source now previous_auth
        (if decide (source = Authenticated) then Some (now + PUBLIC_PRESENCE_TTL)%N else None)
        None None None) in
    let r := make_room r existed in
    let record := MkPeer (announce_public a)
      match preferred_route rs with Some route => pe_addr route | None => addr end
      rs (an_name a) (an_post_office a) (announce_account_id a) now in
    let r := with_peers r (<[an_user_id a := record]> (peers r))
               (<[an_user_id a := a]> (announcements r)) in
    (publish_observation (when route_changed notify_one r), if existed then Refreshed else New).

Definition update r now a source_ip self_user_id :=
  update_from r now a source_ip (an_tcp_port a) self_user_id Lan.
Definition update_unscoped r now a ip own := update_from r now a ip (an_tcp_port a) own Discovery.
Definition update_authenticated r now a ip own :=
  update_from r now a ip (an_tcp_port a) own Authenticated.
Definition update_routed r now a source_ip self_user_id :=
  update_from r now a source_ip (an_tcp_port a) self_user_id RoutedQuery.

Definition update_gateway r now a (gateway_ip : IpAddr) (gateway_port : N) (self_user_id : UserId) :
    Roster * UpdateOutcome :=
  if negb (an_post_office a) || bool_decide (announce_account_id a = None) ||
     bool_decide (gateway_port = 0%N) then (r, Rejected)
  else update_from r now a gateway_ip gateway_port self_user_id Gateway.

(** [iter_mut().find(p)] followed by an update of the element found. *)
Fixpoint update_first {A} (p : A → bool) (f : A → A) (l : list A) : list A :=
  match l with
  | [] => []
  | x :: l => if p x then f x :: l else x :: update_first p f l
  end.

Definition set_expiry (e : PeerEndpoint) (expiry : option N) : PeerEndpoint :=
  MkEndpoint (pe_addr e) (pe_source e) (pe_last_seen e) (pe_last_authenticated e) expiry
    (presence_origin_expires_at e) (origin_hops e) (registration_origin e).

Definition routed_at (ip : IpAddr) (e : PeerEndpoint) : bool :=
  bool_decide (pe_source e = RoutedQuery) && bool_decide (sa_ip (pe_addr e) = ip).

Definition MILLISECOND : N := 1000000.

Definition routed_lease (previous rtt : N) : N :=
  let measured := N.min (PUBLIC_PRESENCE_TTL +
                    N.min (rtt - 100 * MILLISECOND) (5 * SECOND) * 150) PUBLIC_RECONNECT_TTL in
  N.max (N.max measured (previous - 5 * SECOND)) PUBLIC_PRESENCE_TTL.

Definition previous_lease r a (source_ip : IpAddr) : N :=
  default PUBLIC_PRESENCE_TTL (
    p ← peers r !! an_user_id a;
    if decide (pe_public p = announce_public a) then
      route ← head (filter (routed_at source_ip) (routes p));
      deadline ← presence_expires_at route;
      Some (deadline - pe_last_seen route)%N
    else None).

Definition update_routed_with_latency r now a (source_ip : IpAddr) (own : UserId) (rtt : N) :
    Roster * UpdateOutcome :=
  let lease := routed_lease (previous_lease r a source_ip) rtt in
  let '(r, outcome) := update_routed r now a source_ip own in
  match outcome, peers r !! an_user_id a with
  | Rejected, _ | _, None => (r, outcome)
  | _, Some peer =>
      let rs := update_first (routed_at source_ip)
                  (λ e, set_expiry e (Some (pe_last_seen e + lease)%N)) (routes peer) in
      (with_peers r (<[an_user_id a := with_routes peer rs]> (peers r)) (announcements r), outcome)
  end.

Definition is_relay (relay : SocketAddr) (e : PeerEndpoint) : Prop :=
  pe_addr e = relay ∧ pe_source e = PostOffice.
#[global] Instance is_relay_dec relay e : Decision (is_relay relay e).
Proof. unfold is_relay. apply _. Defined.

(** What disqualifies a relayed introduction. *)
Definition relayed_refused r a (self_user_id : UserId) : bool :=
  bool_decide (an_user_id a = self_user_id) || negb (valid_presence a) ||
  negb (linked_binding_matches r a) || an_post_office a ||
  bool_decide (announce_account_id a = None) ||
  match peers r !! an_user_id a with
  | Some old => bool_decide (pe_public old ≠ announce_public a) ||
                bool_decide (peer_account_id old ≠ announce_account_id a)
  | None => false
  end ||
  match historical r !! an_user_id a with
  | Some old => bool_decide (announce_public old ≠ announce_public a) ||
                bool_decide (announce_account_id old ≠ announce_account_id a)
  | None => false
  end.

(** The mailbox route: presence evidence is carried over, the rest is new. *)
Definition relayed_route (relay : SocketAddr) now (old : list PeerEndpoint) : PeerEndpoint :=
  let prior := head (filter (is_relay relay) old) in
  MkEndpoint relay PostOffice now None (prior ≫= presence_expires_at)
    (prior ≫= presence_origin_expires_at) (prior ≫= origin_hops) (prior ≫= registration_origin).

Definition update_relayed r now a (relay : SocketAddr) (self_user_id : UserId) :
    Roster * UpdateOutcome :=
  if relayed_refused r a self_user_id then (r, Rejected)
  else
    let existing := peers r !! an_user_id a in
    let existed := bool_decide (is_Some existing) in
    let old := match existing with Some peer => routes peer | None => [] end in
    let route_changed := negb (existsb (λ e, bool_decide (is_relay relay e)) old) in
    let rs := push_route (filter (λ e, ¬ is_relay relay e) old) (relayed_route relay now old) in
    let r := make_room r existed in
    let r := if decide (size (historical r) < MAX_PEERS ∨ is_Some (historical r !! an_user_id a))
             then MkRoster (peers r) (announcements r) (<[an_user_id a := a]> (historical r))
                    (conflicting_history r) (linked_bindings r) (changes r) (observations r)
             else r in
    let record := MkPeer (announce_public a)
      match preferred_route rs with Some route => pe_addr route | None => relay end
      rs (an_name a) false (announce_account_id a) now in
    let r := with_peers r (<[an_user_id a := record]> (peers r))
               (<[an_user_id a := a]> (announcements r)) in
    (when route_changed notify_changes r, if existed then Refreshed else New).

(** Same endpoint and same observation. *)
Definition same_route (x y : PeerEndpoint) : bool :=
  bool_decide (pe_addr x = pe_addr y) && bool_decide (pe_source x = pe_source y) &&
  bool_decide (pe_last_seen x = pe_last_seen y) &&
  bool_decide (pe_last_authenticated x = pe_last_authenticated y).

(** [into_iter().enumerate()]. *)
Definition enumerate {A} (l : list A) : list (nat * A) := zip (seq 0 (length l)) l.

Definition stage_relayed r now a (relay : SocketAddr) (self_user_id : UserId) :
    Roster * option RelayedRollback :=
  if decide (peers r !! an_user_id a = None ∧ MAX_PEERS ≤ size (peers r)) then (r, None)
  else
    let previous := match peers r !! an_user_id a with Some peer => routes peer | None => [] end in
    match update_relayed r now a relay self_user_id with
    | (r, Rejected) => (r, None)
    | (r, _) =>
        (r, peer ← peers r !! an_user_id a;
            staged ← head (filter (is_relay relay) (routes peer));
            let lost := filter (λ e : nat * PeerEndpoint,
                          ¬ existsb (λ route, same_route route e.2) (routes peer)) (enumerate previous) in
            Some (MkRollback (an_user_id a) (announce_public a) lost staged))
    end.

(** One step of the restoring loop. *)
Definition restore_route (restore_relays : bool) (rs : list PeerEndpoint) (e : nat * PeerEndpoint) :
    list PeerEndpoint :=
  let '(index, route) := e in
  if negb restore_relays && bool_decide (pe_source route = PostOffice) then rs
  else if existsb (λ current, bool_decide (pe_addr current = pe_addr route) &&
                              bool_decide (pe_source current = pe_source route)) rs then rs
  else if decide (length rs = MAX_ROUTES_PER_PEER) then
    if decide (pe_source route = PostOffice) then rs
    else
      match min_by_key (λ e, pe_last_seen e.2)
              (filter (λ e : nat * PeerEndpoint, pe_source e.2 = PostOffice) (enumerate rs)) with
      | None => rs
      | Some (oldest_relay, _) =>
          let rs := remove_at oldest_relay rs in insert_at (Nat.min index (length rs)) route rs
      end
  else insert_at (Nat.min index (length rs)) route rs.

(** Address and age follow the preferred route; a peer without routes goes. *)
Definition settle r id (peer : PeerRecord) (rs : list PeerEndpoint) : Roster :=
  match preferred_route rs with
  | Some route =>
      with_peers r (<[id := with_address (with_routes peer rs) (pe_addr route) (pe_last_seen route)]> (peers r))
        (announcements r)
  | None => with_peers r (delete id (peers r)) (delete id (announcements r))
  end.

Definition rollback_relayed r (undo : RelayedRollback) (restore_relays : bool) : Roster :=
  match peers r !! rb_user_id undo with
  | None => r
  | Some peer =>
      if decide (pe_public peer ≠ rb_public undo) then r
      else
        let rs := filter (λ route, ¬ same_route route (rb_staged undo)) (routes peer) in
        let rs := foldl (restore_route restore_relays) rs (rb_previous undo) in
        notify_changes (settle r (rb_user_id undo) peer rs)
  end.

(** Update every route of one peer; [changed] is set by any of them. *)
Definition edit_routes r id (f : PeerEndpoint → PeerEndpoint) (differs : PeerEndpoint → bool) : Roster :=
  match peers r !! id with
  | None => r
  | Some peer =>
      when (existsb differs (routes peer)) publish_observation
        (with_peers r (<[id := with_routes peer (f <$> routes peer)]> (peers r)) (announcements r))
  end.

Definition directory_lease now (expiry origin_secs : N) (e : PeerEndpoint) : N :=
  let capped := N.min expiry (now + PUBLIC_PRESENCE_TTL) in
  let newer := match presence_origin_expires_at e with
               | None => true
               | Some old => bool_decide (old < origin_secs)%N
               end in
  if newer then capped else N.min (default capped (presence_expires_at e)) capped.

Definition with_directory_lease now (expiry origin_secs : N) (e : PeerEndpoint) : PeerEndpoint :=
  let newer := match presence_origin_expires_at e with
               | None => true
               | Some old => bool_decide (old < origin_secs)%N
               end in
  MkEndpoint (pe_addr e) (pe_source e) (pe_last_seen e) (pe_last_authenticated e)
    (Some (directory_lease now expiry origin_secs e))
    (if newer then Some origin_secs else presence_origin_expires_at e)
    (origin_hops e) (registration_origin e).

Definition set_directory_expiry r now id (relay : SocketAddr) (expiry origin_secs : N) : Roster :=
  edit_routes r id
    (λ e, if decide (is_relay relay e) then with_directory_lease now expiry origin_secs e else e)
    (λ e, bool_decide (is_relay relay e) &&
          bool_decide (presence_expires_at e ≠ Some (directory_lease now expiry origin_secs e))).

Definition set_registration_origin r id (relay : SocketAddr) (origin : option RegistrationOrigin)
    (unix_now : N) : Roster :=
  match peers r !! id with
  | None => r
  | Some peer =>
      let origin := match origin with
                    | Some proof =>
                        if origin_valid_for proof (pe_public peer) unix_now then Some proof else None
                    | None => None
                    end in
      let hit e := bool_decide (is_relay relay e) && bool_decide (registration_origin e ≠ origin) in
      edit_routes r id
        (λ e, if hit e then
                MkEndpoint (pe_addr e) (pe_source e) (pe_last_seen e) (pe_last_authenticated e)
                  (presence_expires_at e) (presence_origin_expires_at e) (origin_hops e) origin
              else e) hit
  end.

Definition set_directory_origin_hops r id (relay : SocketAddr) (origin_secs : N) (hops : option N) : Roster :=
  let hit e := bool_decide (is_relay relay e) &&
               bool_decide (presence_origin_expires_at e = Some origin_secs) in
  edit_routes r id
    (λ e, if hit e then
            MkEndpoint (pe_addr e) (pe_source e) (pe_last_seen e) (pe_last_authenticated e)
              (presence_expires_at e) (presence_origin_expires_at e) hops (registration_origin e)
          else e)
    (λ e, hit e && bool_decide (origin_hops e ≠ hops)).

Definition mark_authenticated r now public (at_addr : SocketAddr) : Roster :=
  match peers r !! user_id public with
  | None => r
  | Some peer =>
      if decide (pe_public peer ≠ public) then r
      else
        let known := existsb (λ e, bool_decide (pe_addr e = at_addr)) (routes peer) in
        let rs :=
          if known then
            update_first (λ e, bool_decide (pe_addr e = at_addr))
              (λ e, MkEndpoint (pe_addr e) (pe_source e)
                      (if decide (pe_source e = Authenticated) then now else pe_last_seen e) (Some now)
                      (presence_expires_at e) (presence_origin_expires_at e) (origin_hops e)
                      (registration_origin e)) (routes peer)
          else push_route (routes peer)
                 (MkEndpoint at_addr Authenticated now (Some now) None None None None) in
        when (negb known) notify_changes
          (with_peers r (<[user_id public := with_address (with_routes peer rs) at_addr now]> (peers r))
            (announcements r))
  end.

Definition route_lifespan (ttl : N) (source : RouteSource) : N :=
  match source with
  | Lan | Discovery => ttl
  | RoutedQuery => N.max ttl (120 * SECOND)
  | Gateway => N.max ttl (45 * SECOND)
  | Authenticated => N.max ttl (300 * SECOND)
  | PostOffice => N.max ttl (45 * SECOND)
  end.

Definition route_live now (ttl : N) (e : PeerEndpoint) : bool :=
  bool_decide (now - pe_last_seen e < route_lifespan ttl (pe_source e))%N ||
  (bool_decide (pe_source e = PostOffice) &&
   match public_presentation_deadline e false with
   | Some deadline => bool_decide (now < deadline)%N
   | None => false
   end).

Definition evict_peer now (ttl : N) (p : PeerRecord) : option PeerRecord :=
  let rs := filter (route_live now ttl) (routes p) in
  match preferred_route rs with
  | Some last => Some (with_address (with_routes p rs) (pe_addr last) (pe_last_seen last))
  | None => if decide (now - last_seen p < ttl)%N then Some (with_routes p rs) else None
  end.

(** Peers and routes together, as the eviction counts them. *)
Definition weight (ps : gmap UserId PeerRecord) : nat :=
  map_fold (λ _ p n, length (routes p) + 1 + n) 0 ps.

Definition evict_stale r now (ttl : N) : Roster :=
  let ps := omap (evict_peer now ttl) (peers r) in
  let ans := filter (λ e, is_Some (ps !! e.1)) (announcements r) in
  when (bool_decide (weight (peers r) ≠ weight ps)) notify_changes (with_peers r ps ans).

Definition forget_relayed r id : Roster :=
  match peers r !! id with
  | None => r
  | Some peer =>
      notify_changes (settle r id peer (filter (λ e, pe_source e ≠ PostOffice) (routes peer)))
  end.

(** ** Queries *)

Definition get r id : option PeerRecord := peers r !! id.

Definition announcement r public : option Announce :=
  a ← announcements r !! user_id public;
  if decide (announce_public a = public) then Some a else None.

Definition all_announcements r : list Announce := (map_iter (announcements r)).*2.

Definition historical_announcements r : list Announce :=
  omap (λ i, historical r !! i)
    (filter (λ i, i ∉ conflicting_history r) (btree_iter (dom (historical r) : gset bytes))).

Definition all_peers r : list PeerRecord := (map_iter (peers r)).*2.

Definition post_offices r : list PeerRecord := filter (λ p, post_office p) (all_peers r).

Definition devices_of_account r (account_id : bytes) : list PublicIdentity :=
  pe_public <$> filter (λ p, peer_account_id p = Some account_id) (all_peers r).
End roster.

(** ** Lists of routes *)

Lemma sublist_fmap {A B} (f : A → B) l k : l `sublist_of` k → f <$> l `sublist_of` f <$> k.
Proof. induction 1; cbn; by constructor. Qed.

Lemma rfind_elem {A} (p : A → bool) l x : rfind p l = Some x → x ∈ l.
Proof.
  unfold rfind. intros Hh. apply head_Some_elem_of in Hh. apply list_elem_of_filter in Hh as [_ Hh].
  by apply elem_of_reverse.
Qed.

Lemma preferred_route_elem rs e : preferred_route rs = Some e → e ∈ rs.
Proof.
  unfold preferred_route. destruct (rfind _ rs) as [x|] eqn:Hx; [intros [= <-]; by eapply rfind_elem|].
  clear Hx. destruct (rfind _ rs) as [x|] eqn:Hx; [intros [= <-]; by eapply rfind_elem|].
  apply last_Some_elem_of.
Qed.

Lemma preferred_route_None rs : preferred_route rs = None ↔ rs = [].
Proof.
  split; [|by intros ->]. unfold preferred_route. do 2 (destruct (rfind _ rs); [done|]). apply last_None.
Qed.

Definition route_key (e : PeerEndpoint) : SocketAddr * RouteSource := (pe_addr e, pe_source e).

(** A measured routed observation is leased for 15 to 60 seconds. *)
Definition lease_ok (e : PeerEndpoint) : Prop :=
  pe_source e = RoutedQuery → ∀ d, presence_expires_at e = Some d →
    (pe_last_seen e + PUBLIC_PRESENCE_TTL ≤ d ≤ pe_last_seen e + PUBLIC_RECONNECT_TTL)%N.

Record routes_ok (rs : list PeerEndpoint) : Prop := {
  ro_length : length rs ≤ MAX_ROUTES_PER_PEER;
  ro_distinct : NoDup (route_key <$> rs);
  ro_leases : ∀ e, e ∈ rs → lease_ok e
}.

Lemma routes_ok_sublist rs rs' : rs' `sublist_of` rs → routes_ok rs → routes_ok rs'.
Proof.
  intros Hs [Hl Hd He]. split.
  - etrans; [by apply sublist_length|done].
  - eapply sublist_NoDup; [exact Hd|]. by apply sublist_fmap.
  - intros e Hin. apply He. by eapply elem_of_sublist.
Qed.

Lemma routes_ok_filter (P : PeerEndpoint → Prop) `{∀ x, Decision (P x)} rs :
  routes_ok rs → routes_ok (filter P rs).
Proof. apply routes_ok_sublist, sublist_filter. Qed.

Lemma routes_ok_nil : routes_ok [].
Proof. split; [cbn; lia|constructor|by intros e ?%elem_of_nil]. Qed.

(** Keys kept, leases kept. *)
Lemma routes_ok_fmap (f : PeerEndpoint → PeerEndpoint) rs :
  (∀ e, e ∈ rs → route_key (f e) = route_key e ∧ lease_ok (f e)) → routes_ok rs → routes_ok (f <$> rs).
Proof.
  intros Hf [Hl Hd He]. split.
  - by rewrite length_fmap.
  - rewrite <-list_fmap_compose. erewrite list_fmap_ext; [exact Hd|].
    intros i e Hi. apply Hf. by eapply list_elem_of_lookup_2.
  - intros e (e' & -> & Hin)%list_elem_of_fmap. by apply Hf.
Qed.

Lemma update_first_fmap {A} (p : A → bool) (f : A → A) l x :
  x ∈ update_first p f l → x ∈ l ∨ ∃ y, y ∈ l ∧ p y = true ∧ x = f y.
Proof.
  induction l as [|y l IH]; cbn; [set_solver|]. destruct (p y) eqn:Hp.
  - intros [->|?]%elem_of_cons; [right; exists y; set_solver|set_solver].
  - intros [->|[?|(z & ? & ? & ?)]%IH]%elem_of_cons; [set_solver..|right; exists z; set_solver].
Qed.

Lemma update_first_keys {A B} (k : A → B) (p : A → bool) (f : A → A) l :
  (∀ x, p x = true → k (f x) = k x) → k <$> update_first p f l = k <$> l.
Proof.
  intros Hk. induction l as [|y l IH]; [done|]. cbn. destruct (p y) eqn:Hp; cbn; [by rewrite Hk|].
  by f_equal.
Qed.

Lemma routes_ok_update_first (p : PeerEndpoint → bool) f rs :
  (∀ e, p e = true → route_key (f e) = route_key e) →
  (∀ e, e ∈ rs → p e = true → lease_ok (f e)) → routes_ok rs → routes_ok (update_first p f rs).
Proof.
  intros Hk Hf [Hl Hd He]. split.
  - rewrite <-(length_fmap route_key), (update_first_keys route_key p f rs Hk). by rewrite length_fmap.
  - by rewrite (update_first_keys route_key p f rs Hk).
  - intros e [?|(y & ? & ? & ->)]%update_first_fmap; auto.
Qed.

Lemma push_route_sub rs e : push_route rs e `sublist_of` rs ++ [e].
Proof.
  unfold push_route. case_decide; [|done]. unfold remove_at. cbn [take app]. apply sublist_drop.
Qed.

Lemma push_route_elem rs e : e ∈ push_route rs e.
Proof.
  unfold push_route. case_decide as Hl; [|set_solver]. unfold remove_at. cbn [take app].
  rewrite length_app in Hl. cbn in Hl. destruct rs as [|x rs]; [unfold MAX_ROUTES_PER_PEER in Hl; cbn in Hl; lia|].
  cbn. set_solver.
Qed.

Lemma routes_ok_push rs e :
  routes_ok rs → route_key e ∉ route_key <$> rs → lease_ok e → routes_ok (push_route rs e).
Proof.
  intros [Hl Hd He] Hnew Hlease.
  assert (NoDup (route_key <$> rs ++ [e])) as Hnd.
  { rewrite fmap_app, NoDup_app. split_and!; [done| |apply NoDup_singleton].
    intros k Hk ->%list_elem_of_singleton. done. }
  split.
  - unfold push_route. case_decide as Hlt; [|lia]. unfold remove_at.
    rewrite length_app, length_take, length_drop, length_app. cbn. lia.
  - eapply sublist_NoDup; [exact Hnd|]. apply sublist_fmap, push_route_sub.
  - intros x Hx. assert (x ∈ rs ++ [e]) as [?| ->%list_elem_of_singleton]%elem_of_app; eauto.
    by eapply elem_of_sublist, push_route_sub.
Qed.

(** ** The invariant *)

Section invariant.
Context `{Crypto, MapIter, !MapIterLaws, Bincode consent_content, Bincode origin_content}.
Context (self : UserId).
Implicit Types (r : Roster) (a : Announce) (p : PeerRecord) (now : N) (id : UserId).

(** The announcement that stands behind a record. *)
Record backs id a p : Prop := {
  ba_id : an_user_id a = id;
  ba_valid : valid_presence a = true;
  ba_public : announce_public a = pe_public p;
  ba_name : an_name a = name p;
  ba_office : an_post_office a = post_office p;
  ba_account : announce_account_id a = peer_account_id p
}.

Record peer_ok p : Prop := {
  po_routes : routes_ok (routes p);
  po_addr : routes p = [] ∨ addr p ∈ pe_addr <$> routes p
}.

Record inv (ps : gmap UserId PeerRecord) (ans hist : gmap UserId Announce)
    (linked : gmap UserId (PublicIdentity * DeviceCertificate)) : Prop := {
  iv_size : size ps ≤ MAX_PEERS;
  iv_history : size hist ≤ MAX_PEERS;
  iv_self : ps !! self = None;
  iv_peer id p : ps !! id = Some p → peer_ok p ∧ ∃ a, ans !! id = Some a ∧ backs id a p;
  iv_announced id a : ans !! id = Some a → is_Some (ps !! id);
  iv_hist id a : hist !! id = Some a → an_user_id a = id ∧ valid_presence a = true;
  iv_linked id pub cert a : linked !! id = Some (pub, cert) → ans !! id = Some a →
    announce_public a = pub → an_account_cert a = Some cert
}.

Definition roster_inv r : Prop := inv (peers r) (announcements r) (historical r) (linked_bindings r).

Lemma inv_delete ps ans hist linked id :
  inv ps ans hist linked → inv (delete id ps) (delete id ans) hist linked.
Proof.
  intros []. split; try done.
  - rewrite map_size_delete. destruct (ps !! id); cbn; lia.
  - destruct (decide (id = self)) as [->|]; [apply lookup_delete_eq|by rewrite lookup_delete_ne].
  - intros id' p [Hne Hp]%lookup_delete_Some. destruct (iv_peer0 id' p Hp) as (Hok & a & Ha & Hb).
    split; [done|]. exists a. by rewrite lookup_delete_ne.
  - intros id' a [Hne Ha]%lookup_delete_Some. rewrite lookup_delete_ne by done. eauto.
  - intros id' pub cert a Hl [_ Ha]%lookup_delete_Some. eauto.
Qed.

(** Routes and address of a known peer change. *)
Lemma inv_edit ps ans hist linked id p p' :
  inv ps ans hist linked → ps !! id = Some p → peer_ok p' →
  pe_public p' = pe_public p → name p' = name p → post_office p' = post_office p →
  peer_account_id p' = peer_account_id p →
  inv (<[id := p']> ps) ans hist linked.
Proof.
  intros [] Hp Hok Hpub Hn Ho Ha. assert (id ≠ self) by congruence. split; try done.
  - by rewrite map_size_insert, Hp.
  - by rewrite lookup_insert_ne.
  - intros id' q. destruct (decide (id' = id)) as [->|Hne]; [|rewrite lookup_insert_ne by done; eauto].
    rewrite lookup_insert_eq. intros [= <-]. split; [done|].
    destruct (iv_peer0 id p Hp) as (_ & a & Han & []). exists a. split; [done|]. split; congruence.
  - intros id' a Han. destruct (decide (id' = id)) as [->|Hne]; [rewrite lookup_insert_eq; eauto|].
    rewrite lookup_insert_ne by done. eauto.
Qed.

(** A verified announcement is recorded. *)
Lemma inv_insert ps ans hist linked id a p :
  inv ps ans hist linked → (is_Some (ps !! id) ∨ size ps < MAX_PEERS) → id ≠ self →
  peer_ok p → backs id a p →
  (∀ pub cert, linked !! id = Some (pub, cert) → announce_public a = pub → an_account_cert a = Some cert) →
  inv (<[id := p]> ps) (<[id := a]> ans) hist linked.
Proof.
  intros [] Hroom Hself Hok Hb Hl. split; try done.
  - rewrite map_size_insert. destruct (ps !! id) eqn:E; cbn; [lia|].
    destruct Hroom as [[? ?]|]; [congruence|lia].
  - by rewrite lookup_insert_ne.
  - intros id' q. destruct (decide (id' = id)) as [->|Hne].
    + rewrite !lookup_insert_eq. intros [= <-]. eauto.
    + rewrite !lookup_insert_ne by done. eauto.
  - intros id' b. destruct (decide (id' = id)) as [->|Hne]; [rewrite !lookup_insert_eq; eauto|].
    rewrite !lookup_insert_ne by done. eauto.
  - intros id' pub cert b Hlk. destruct (decide (id' = id)) as [->|Hne].
    + rewrite lookup_insert_eq. intros [= <-]. eauto.
    + rewrite lookup_insert_ne by done. eauto.
Qed.

Lemma inv_history_insert ps ans hist linked a :
  inv ps ans hist linked → valid_presence a = true →
  (size hist < MAX_PEERS ∨ is_Some (hist !! an_user_id a)) →
  inv ps ans (<[an_user_id a := a]> hist) linked.
Proof.
  intros [] Hv Hroom. split; try done.
  - rewrite map_size_insert. destruct (hist !! _) eqn:E; cbn; [lia|].
    destruct Hroom as [|[? ?]]; [lia|done].
  - intros id b. destruct (decide (id = an_user_id a)) as [->|Hne].
    + rewrite lookup_insert_eq. by intros [= <-].
    + rewrite lookup_insert_ne by done. eauto.
Qed.

Lemma remember_inv r a : roster_inv r → valid_presence a = true → roster_inv (remember r a).
Proof.
  intros Hi Hv. unfold remember. case_match; [done|]. case_decide; [|done].
  by apply inv_history_insert.
Qed.

Lemma remember_peers r a :
  peers (remember r a) = peers r ∧ announcements (remember r a) = announcements r ∧
  linked_bindings (remember r a) = linked_bindings r.
Proof. unfold remember. repeat case_match; done. Qed.

Lemma min_by_key_elem {A} (key : A → N) l x : min_by_key key l = Some x → x ∈ l.
Proof.
  revert x. induction l as [|y l IH]; intros x; [done|]. cbn.
  destruct (min_by_key key l) as [z|]; [|intros [= ->]; set_solver].
  case_decide; intros [= <-]; [set_solver|]. apply list_elem_of_further, IH. done.
Qed.

Lemma min_by_key_None {A} (key : A → N) l : min_by_key key l = None → l = [].
Proof. destruct l as [|x l]; [done|]. cbn. destruct (min_by_key key l); [by case_decide|done]. Qed.

Lemma make_room_spec r id :
  roster_inv r →
  let r' := make_room r (bool_decide (is_Some (peers r !! id))) in
  roster_inv r' ∧ historical r' = historical r ∧ linked_bindings r' = linked_bindings r ∧
  conflicting_history r' = conflicting_history r ∧
  (is_Some (peers r' !! id) ∨ size (peers r') < MAX_PEERS).
Proof.
  intros Hi. unfold make_room. destruct (decide (is_Some (peers r !! id))) as [Hs|Hs].
  - rewrite bool_decide_true by done. cbn [negb andb]. split_and!; auto.
  - rewrite (bool_decide_false (is_Some _)) by done. cbn [negb andb].
    case_bool_decide as Hfull; [|split_and!; try done; right; lia].
    destruct (min_by_key _ _) as [[oldest p]|] eqn:Hm.
    + split; [by apply inv_delete|]. split_and!; try done. right. cbn [peers with_peers].
      apply min_by_key_elem in Hm. rewrite map_iter_perm in Hm. apply elem_of_map_to_list in Hm.
      rewrite map_size_delete, Hm. cbn. pose proof (iv_size _ _ _ _ Hi).
      assert (size (peers r) ≠ 0) by (intros E; apply map_size_empty_inv in E; by rewrite E in Hm). lia.
    + apply min_by_key_None in Hm. pose proof (map_iter_perm _ (peers r)) as Hp.
      rewrite Hm in Hp. apply Permutation_nil_l in Hp. symmetry in Hp. apply map_to_list_empty_iff in Hp. rewrite Hp in Hfull.
      rewrite map_size_empty in Hfull. unfold MAX_PEERS in Hfull. lia.
Qed.

Lemma preferred_addr rs d :
  routes_ok rs → rs ≠ [] →
  match preferred_route rs with Some e => pe_addr e | None => d end ∈ pe_addr <$> rs.
Proof.
  intros _ Hne. destruct (preferred_route rs) as [e|] eqn:He.
  - apply list_elem_of_fmap. exists e. split; [done|by apply preferred_route_elem].
  - by apply preferred_route_None in He.
Qed.

Lemma push_route_nonempty rs e : push_route rs e ≠ [].
Proof. intros E. pose proof (push_route_elem rs e) as Hin. rewrite E in Hin. by apply elem_of_nil in Hin. Qed.

(** The routes a record inherits from its predecessor. *)
Lemma old_routes_ok r id (P : PeerRecord → Prop) `{∀ q, Decision (P q)} :
  roster_inv r →
  routes_ok match peers r !! id with Some q => if decide (P q) then routes q else [] | None => [] end.
Proof.
  intros Hi. destruct (peers r !! id) as [q|] eqn:Hq; [|apply routes_ok_nil].
  case_decide; [|apply routes_ok_nil]. by apply (iv_peer _ _ _ _ Hi id q Hq).
Qed.

Lemma linked_binding_linked r a pub cert :
  linked_binding_matches r a = true → linked_bindings r !! an_user_id a = Some (pub, cert) →
  an_account_cert a = Some cert.
Proof.
  unfold linked_binding_matches. intros Hm Hl. rewrite Hl in Hm.
  by apply andb_true_iff in Hm as [_ Hm%bool_decide_eq_true].
Qed.

Lemma update_from_inv r now a ip port src : roster_inv r → roster_inv (update_from r now a ip port self src).1.
Proof.
  intros Hi. unfold update_from. case_decide as Hself; [done|].
  destruct (valid_presence a) eqn:Hv; [|done]. destruct (linked_binding_matches r a) eqn:Hlk; [|done].
  cbn [negb orb]. pose proof (remember_inv r a Hi Hv) as Hi1.
  destruct (remember_peers r a) as (_ & _ & Hl1).
  assert (∀ pub cert, linked_bindings (remember r a) !! an_user_id a = Some (pub, cert) →
    an_account_cert a = Some cert) as Hlk1 by (rewrite Hl1; intros; by eapply linked_binding_linked).
  revert Hi1 Hlk1. generalize (remember r a) as r1. clear Hl1 Hlk Hi. intros r1 Hi1 Hlk1.
  destruct (make_room_spec r1 (an_user_id a) Hi1) as (Hi2 & _ & Hl2 & _ & Hroom).
  set (r2 := make_room r1 _) in *. cbn [fst].
  set (old := match peers r1 !! an_user_id a with
    Some peer => if decide (pe_public peer = announce_public a) then routes peer else [] | None => [] end).
  assert (routes_ok old) as Hold by (apply old_routes_ok; done).
  set (e := MkEndpoint _ _ _ _ _ _ _ _). set (kept := filter _ old).
  assert (routes_ok (push_route kept e)) as Hrs.
  { apply routes_ok_push; [by apply routes_ok_filter| |].
    - intros (e' & [= Hka Hks] & [Hke _]%list_elem_of_filter)%list_elem_of_fmap. rewrite <-Hka, <-Hks in Hke.
      tauto.
    - intros Hsrc d Hd. cbn in Hsrc, Hd. subst src. by rewrite decide_False in Hd. }
  assert (roster_inv (with_peers r2 (<[an_user_id a := MkPeer (announce_public a)
    match preferred_route (push_route kept e) with Some route => pe_addr route | None => socket ip port end
    (push_route kept e) (an_name a) (an_post_office a) (announce_account_id a) now]> (peers r2))
    (<[an_user_id a := a]> (announcements r2)))) as Hi3.
  { apply inv_insert; try done.
    - split; [done|]. right. apply preferred_addr; [done|]. apply push_route_nonempty.
    - intros pub cert. cbn [linked_bindings with_peers]. rewrite Hl2. intros Hl _. by eapply Hlk1. }
  match goal with |- roster_inv (publish_observation (when ?b _ _)) => destruct b end; exact Hi3.
Qed.

Lemma update_gateway_inv r now a ip port : roster_inv r → roster_inv (update_gateway r now a ip port self).1.
Proof. intros Hi. unfold update_gateway. case_match; [done|by apply update_from_inv]. Qed.

Lemma routed_lease_bounds previous rtt :
  (previous ≤ PUBLIC_RECONNECT_TTL)%N →
  (PUBLIC_PRESENCE_TTL ≤ routed_lease previous rtt ≤ PUBLIC_RECONNECT_TTL)%N.
Proof.
  intros Hp. unfold routed_lease, PUBLIC_PRESENCE_TTL, PUBLIC_RECONNECT_TTL, SECOND, MILLISECOND in *. lia.
Qed.

Lemma previous_lease_bound r a ip : roster_inv r → (previous_lease r a ip ≤ PUBLIC_RECONNECT_TTL)%N.
Proof.
  intros Hi. unfold previous_lease.
  destruct (peers r !! an_user_id a) as [p|] eqn:Hp; cbn; [|done]. case_decide; cbn; [|done].
  destruct (head (filter (routed_at ip) (routes p))) as [e|] eqn:He; cbn; [|done].
  apply head_Some_elem_of, list_elem_of_filter in He as [Hat Hin].
  destruct (presence_expires_at e) as [d|] eqn:Hd; cbn; [|done].
  destruct (iv_peer _ _ _ _ Hi _ p Hp) as [[[_ _ Hl] _] _].
  apply andb_prop_elim in Hat as [Hsrc%bool_decide_unpack _].
  specialize (Hl e Hin Hsrc d Hd). lia.
Qed.

Lemma update_first_addr (p : PeerEndpoint → bool) f rs :
  (∀ e, p e = true → pe_addr (f e) = pe_addr e) → pe_addr <$> update_first p f rs = pe_addr <$> rs.
Proof. apply update_first_keys. Qed.

Lemma update_routed_with_latency_inv r now a ip rtt :
  roster_inv r → roster_inv (update_routed_with_latency r now a ip self rtt).1.
Proof.
  intros Hi. unfold update_routed_with_latency.
  pose proof (routed_lease_bounds _ rtt (previous_lease_bound r a ip Hi)) as Hlease.
  set (lease := routed_lease _ rtt) in *. clearbody lease.
  pose proof (update_from_inv r now a ip (an_tcp_port a) RoutedQuery Hi) as Hi1.
  fold (update_routed r now a ip self) in Hi1. destruct (update_routed r now a ip self) as [r1 o].
  cbn [fst] in Hi1. destruct (peers r1 !! an_user_id a) as [p|] eqn:Hp; [|by destruct o].
  destruct (iv_peer _ _ _ _ Hi1 _ p Hp) as [[Hrs Haddr] _].
  assert (roster_inv (with_peers r1 (<[an_user_id a := with_routes p (update_first (routed_at ip)
    (λ e, set_expiry e (Some (pe_last_seen e + lease)%N)) (routes p))]> (peers r1)) (announcements r1))) as Hi2.
  { eapply inv_edit; try done. split; cbn [with_routes routes addr].
    - apply routes_ok_update_first; [done| |done]. intros e _ _ _ d [= <-]. cbn. lia.
    - destruct Haddr as [->|Haddr]; [by left|right]. by rewrite update_first_addr. }
  by destruct o.
Qed.

Lemma relayed_refused_false r a :
  relayed_refused r a self = false →
  an_user_id a ≠ self ∧ valid_presence a = true ∧ linked_binding_matches r a = true ∧
  an_post_office a = false.
Proof.
  unfold relayed_refused. rewrite !orb_false_iff, !negb_false_iff. intros [[[[[[Hs Hv] Hl] Ho] _] _] _].
  by apply bool_decide_eq_false in Hs.
Qed.

Lemma update_relayed_inv r now a relay : roster_inv r → roster_inv (update_relayed r now a relay self).1.
Proof.
  intros Hi. unfold update_relayed. destruct (relayed_refused r a self) eqn:Href; [done|].
  apply relayed_refused_false in Href as (Hself & Hv & Hlk & Ho).
  destruct (make_room_spec r (an_user_id a) Hi) as (Hi1 & _ & Hl1 & _ & Hroom).
  set (r1 := make_room r _) in *. cbn [fst].
  set (old := match peers r !! an_user_id a with Some peer => routes peer | None => [] end).
  assert (routes_ok old) as Hold.
  { pose proof (old_routes_ok r (an_user_id a) (λ _, True) Hi) as Ho'. unfold old.
    destruct (peers r !! an_user_id a); [|done]. by rewrite decide_True in Ho'. }
  set (rs := push_route _ _).
  assert (routes_ok rs) as Hrs.
  { apply routes_ok_push; [by apply routes_ok_filter| |by intros Hsrc].
    intros (e & [= Hka Hks] & [Hke _]%list_elem_of_filter)%list_elem_of_fmap. by apply Hke. }
  set (r2 := if decide _ then _ else _).
  assert (roster_inv r2 ∧ peers r2 = peers r1 ∧ linked_bindings r2 = linked_bindings r1) as (Hi2 & Hp2 & Hl2).
  { unfold r2. case_decide; [|done]. split; [by apply inv_history_insert|done]. }
  match goal with |- roster_inv (when ?b notify_changes ?x) => assert (roster_inv x) as Hi3 end.
  { apply inv_insert; try done.
    - by rewrite Hp2.
    - split; [done|]. right. apply preferred_addr; [done|]. apply push_route_nonempty.
    - intros pub cert. cbn [linked_bindings with_peers]. rewrite Hl2, Hl1. intros Hl _. by eapply linked_binding_linked. }
  match goal with |- roster_inv (when ?b _ _) => destruct b end; exact Hi3.
Qed.

Lemma elem_of_enumerate {A} (l : list A) i x : (i, x) ∈ enumerate l ↔ l !! i = Some x.
Proof.
  unfold enumerate. rewrite list_elem_of_lookup. setoid_rewrite lookup_zip_with_Some. split.
  - intros (k & i' & x' & [= -> ->] & [-> Hk]%lookup_seq & Hx). done.
  - intros Hx. exists i, i, x. split_and!; try done. apply lookup_seq. split; [done|].
    by eapply lookup_lt_Some.
Qed.

Lemma remove_at_sublist {A} i (l : list A) : remove_at i l `sublist_of` l.
Proof.
  unfold remove_at. rewrite <-(take_drop i l) at 3. apply sublist_app; [done|].
  rewrite <-Nat.add_1_r, <-drop_drop. apply sublist_drop.
Qed.

Lemma length_remove_at {A} i (l : list A) : i < length l → length (remove_at i l) = length l - 1.
Proof. intros Hi. unfold remove_at. rewrite length_app, length_take, length_drop. lia. Qed.

Lemma insert_at_perm {A} i (x : A) l : insert_at i x l ≡ₚ x :: l.
Proof. unfold insert_at. rewrite <-Permutation_middle, take_drop. done. Qed.

Lemma routes_ok_insert_at i e rs :
  routes_ok rs → length rs < MAX_ROUTES_PER_PEER → route_key e ∉ route_key <$> rs → lease_ok e →
  routes_ok (insert_at i e rs).
Proof.
  intros [Hl Hd He] Hlt Hnew Hlease. split.
  - rewrite insert_at_perm. cbn. lia.
  - rewrite insert_at_perm. cbn. by constructor.
  - intros x. rewrite insert_at_perm. intros [->|?]%elem_of_cons; auto.
Qed.

Lemma restore_route_ok b rs e : routes_ok rs → lease_ok e.2 → routes_ok (restore_route b rs e).
Proof.
  intros Hrs He. destruct e as [i e]. cbn [snd] in He. unfold restore_route.
  destruct (negb b && _); [done|]. destruct (existsb _ rs) eqn:Hex; [done|].
  assert (∀ rs', rs' `sublist_of` rs → route_key e ∉ route_key <$> rs') as Hnew.
  { intros rs' Hsub (x & [= Hka Hks] & Hx)%list_elem_of_fmap.
    apply (elem_of_sublist _ _ _ Hx) in Hsub. rewrite <-not_true_iff_false, existsb_exists in Hex.
    apply Hex. exists x. split; [by apply list_elem_of_In|]. by rewrite Hka, Hks, !bool_decide_true. }
  case_decide as Hfull.
  - case_decide; [done|]. destruct (min_by_key _ _) as [[k x]|] eqn:Hm; [|done].
    apply min_by_key_elem, list_elem_of_filter in Hm as [_ Hm]. apply elem_of_enumerate in Hm.
    assert (k < length rs) as Hk by by eapply lookup_lt_Some.
    apply routes_ok_insert_at; [eapply routes_ok_sublist; [apply remove_at_sublist|done]| |apply Hnew, remove_at_sublist|done].
    rewrite length_remove_at by done. unfold MAX_ROUTES_PER_PEER in *. lia.
  - apply routes_ok_insert_at; [done| |by apply Hnew|done]. pose proof (ro_length _ Hrs). lia.
Qed.

Definition undo_ok (u : RelayedRollback) : Prop := ∀ e, e ∈ rb_previous u → lease_ok e.2.

Lemma settle_inv r id p rs :
  roster_inv r → peers r !! id = Some p → routes_ok rs → roster_inv (settle r id p rs).
Proof.
  intros Hi Hp Hrs. unfold settle. destruct (preferred_route rs) as [e|] eqn:He; [|by apply inv_delete].
  eapply inv_edit; try done. split; cbn; [done|]. right. apply list_elem_of_fmap.
  exists e. split; [done|by apply preferred_route_elem].
Qed.

Lemma rollback_relayed_inv r u b : roster_inv r → undo_ok u → roster_inv (rollback_relayed r u b).
Proof.
  intros Hi Hu. unfold rollback_relayed. destruct (peers r !! rb_user_id u) as [p|] eqn:Hp; [|done].
  case_decide; [done|]. apply (settle_inv r _ p); [done..|].
  destruct (iv_peer _ _ _ _ Hi _ p Hp) as [[Hrs _] _].
  assert (routes_ok (filter (λ route, ¬ same_route route (rb_staged u)) (routes p))) as Hf
    by by apply routes_ok_filter.
  revert Hf. generalize (filter (λ route, ¬ same_route route (rb_staged u)) (routes p)) as rs.
  unfold undo_ok in Hu. revert Hu. generalize (rb_previous u) as l.
  induction l as [|e l IH]; intros Hu rs Hf; [done|]. cbn. apply IH; [set_solver|].
  apply restore_route_ok; [done|]. apply Hu. set_solver.
Qed.

Lemma stage_relayed_inv r now a relay :
  roster_inv r →
  roster_inv (stage_relayed r now a relay self).1 ∧
  ∀ u, (stage_relayed r now a relay self).2 = Some u → undo_ok u.
Proof.
  intros Hi. unfold stage_relayed. case_decide; [done|].
  pose proof (update_relayed_inv r now a relay Hi) as Hi1.
  set (previous := match peers r !! an_user_id a with Some peer => routes peer | None => [] end).
  assert (∀ e, e ∈ previous → lease_ok e) as Hprev.
  { intros e. unfold previous. destruct (peers r !! an_user_id a) as [p|] eqn:Hp; [|by intros ?%elem_of_nil].
    by apply (iv_peer _ _ _ _ Hi _ p Hp). }
  destruct (update_relayed r now a relay self) as [r1 []]; [done|..]; cbn [fst snd] in *;
    (split; [done|]); intros u; destruct (peers r1 !! an_user_id a) as [p|]; try done; cbn [mbind option_bind];
    destruct (head (filter (is_relay relay) (routes p))); try done; intros [= <-] [i e] He; cbn in *;
    apply list_elem_of_filter in He as [_ He%elem_of_enumerate]; apply Hprev; by eapply list_elem_of_lookup_2.
Qed.

Lemma edit_routes_inv r id f d :
  roster_inv r → (∀ e, route_key (f e) = route_key e ∧ (lease_ok e → lease_ok (f e))) →
  roster_inv (edit_routes r id f d).
Proof.
  intros Hi Hf. unfold edit_routes. destruct (peers r !! id) as [p|] eqn:Hp; [|done].
  destruct (iv_peer _ _ _ _ Hi _ p Hp) as [[Hrs Haddr] _].
  assert (roster_inv (with_peers r (<[id := with_routes p (f <$> routes p)]> (peers r)) (announcements r))) as Hi1.
  { eapply inv_edit; try done. split; cbn.
    - apply routes_ok_fmap; [|done]. intros e He. split; [apply Hf|]. by apply Hf, Hrs.
    - destruct Haddr as [->|Haddr]; [by left|right]. rewrite <-list_fmap_compose.
      erewrite list_fmap_ext; [exact Haddr|]. intros i e _. cbn. destruct (Hf e) as [[= Hk _] _]. done. }
  by destruct (existsb d (routes p)).
Qed.

Lemma set_directory_expiry_inv r now id relay expiry secs :
  roster_inv r → roster_inv (set_directory_expiry r now id relay expiry secs).
Proof.
  intros Hi. apply edit_routes_inv; [done|]. intros e. case_decide as Hr; [|done]. split; [done|].
  intros _ Hsrc. destruct Hr as [_ Hr]. cbn in Hsrc. by rewrite Hr in Hsrc.
Qed.

Lemma set_registration_origin_inv r id relay origin unix :
  roster_inv r → roster_inv (set_registration_origin r id relay origin unix).
Proof.
  intros Hi. unfold set_registration_origin. destruct (peers r !! id); [|done].
  apply edit_routes_inv; [done|]. intros e. case_match; done.
Qed.

Lemma set_directory_origin_hops_inv r id relay secs hops :
  roster_inv r → roster_inv (set_directory_origin_hops r id relay secs hops).
Proof. intros Hi. apply edit_routes_inv; [done|]. intros e. case_match; done. Qed.

Lemma mark_authenticated_inv r now public at_addr :
  roster_inv r → roster_inv (mark_authenticated r now public at_addr).
Proof.
  intros Hi. unfold mark_authenticated. destruct (peers r !! user_id public) as [p|] eqn:Hp; [|done].
  case_decide; [done|]. destruct (iv_peer _ _ _ _ Hi _ p Hp) as [[Hrs _] _].
  set (known := existsb _ (routes p)). set (rs := if known then _ else _).
  assert (routes_ok rs ∧ at_addr ∈ pe_addr <$> rs) as [Hok Hin].
  { unfold rs. destruct known eqn:Hk; unfold known in Hk.
    - apply existsb_exists in Hk as (e & Hin%list_elem_of_In & Ha%bool_decide_eq_true). split.
      + apply routes_ok_update_first; [done| |done]. intros e' He' _ Hsrc d Hd. cbn in *.
        rewrite decide_False by congruence. by apply (ro_leases _ Hrs e').
      + rewrite update_first_addr by done. apply list_elem_of_fmap. eauto.
    - split.
      + apply routes_ok_push; [done| |done].
        intros (e & [= Ha _] & He)%list_elem_of_fmap. rewrite <-not_true_iff_false, existsb_exists in Hk.
        apply Hk. exists e. split; [by apply list_elem_of_In|]. by apply bool_decide_eq_true.
      + apply list_elem_of_fmap. eexists. split; [|apply push_route_elem]. done. }
  assert (roster_inv (with_peers r (<[user_id public := with_address (with_routes p rs) at_addr now]> (peers r))
    (announcements r))) as Hi1 by (eapply inv_edit; try done; split; [done|by right]).
  by destruct (negb known).
Qed.

Lemma evict_peer_ok now ttl p p' :
  peer_ok p → evict_peer now ttl p = Some p' →
  peer_ok p' ∧ pe_public p' = pe_public p ∧ name p' = name p ∧ post_office p' = post_office p ∧
  peer_account_id p' = peer_account_id p.
Proof.
  intros [Hrs _]. unfold evict_peer.
  assert (routes_ok (filter (route_live now ttl) (routes p))) as Hf by by apply routes_ok_filter.
  destruct (preferred_route _) as [e|] eqn:He.
  - intros [= <-]. split; [|done]. split; [done|]. right. apply list_elem_of_fmap.
    exists e. split; [done|by apply preferred_route_elem].
  - case_decide; [|done]. intros [= <-]. split; [|done]. split; [done|]. left.
    by apply preferred_route_None in He.
Qed.

Lemma size_omap_le {A B} (f : A → option B) (m : gmap UserId A) : size (omap f m) ≤ size m.
Proof.
  rewrite <-!size_dom. apply subseteq_size. intros id. rewrite !elem_of_dom, lookup_omap.
  by destruct (m !! id); [|intros [? ?]].
Qed.

Lemma evict_stale_inv r now ttl : roster_inv r → roster_inv (evict_stale r now ttl).
Proof.
  intros Hi. unfold evict_stale.
  assert (roster_inv (with_peers r (omap (evict_peer now ttl) (peers r))
    (filter (λ e, is_Some (omap (evict_peer now ttl) (peers r) !! e.1)) (announcements r)))) as Hi1.
  { destruct Hi. split; cbn; try done.
    - etrans; [apply size_omap_le|done].
    - by rewrite lookup_omap, iv_self0.
    - intros id p'. rewrite lookup_omap. destruct (peers r !! id) as [p|] eqn:Hp; [|done]. cbn. intros He.
      destruct (iv_peer0 id p Hp) as (Hok & a & Ha & []).
      destruct (evict_peer_ok now ttl p p' Hok He) as (Hok' & E1 & E2 & E3 & E4). split; [done|].
      exists a. split; [|split; congruence]. apply map_lookup_filter_Some. split; [done|]. cbn.
      rewrite lookup_omap, Hp. cbn. by rewrite He.
    - intros id a [_ Hs]%map_lookup_filter_Some. done.
    - intros id pub cert a Hl [Ha _]%map_lookup_filter_Some. eauto. }
  by destruct (bool_decide _).
Qed.

Lemma forget_inv r public : roster_inv r → roster_inv (forget r public).
Proof.
  intros Hi. unfold forget. destruct (peers r !! _); [|done]. case_decide; [|done]. by apply inv_delete.
Qed.

Lemma forget_relayed_inv r id : roster_inv r → roster_inv (forget_relayed r id).
Proof.
  intros Hi. unfold forget_relayed. destruct (peers r !! id) as [p|] eqn:Hp; [|done].
  apply (settle_inv r id p); [done..|]. apply routes_ok_filter. by apply (iv_peer _ _ _ _ Hi _ p Hp).
Qed.

Lemma inv_link ps ans hist linked id pub cert :
  inv ps ans hist linked →
  (∀ a, ans !! id = Some a → announce_public a = pub → an_account_cert a = Some cert) →
  inv ps ans hist (<[id := (pub, cert)]> linked).
Proof.
  intros [] Hnew. split; try done. intros id' pub' cert' a.
  destruct (decide (id' = id)) as [->|Hne]; [|rewrite lookup_insert_ne by done; eauto].
  rewrite lookup_insert_eq. intros [= <- <-]. apply Hnew.
Qed.

Lemma inv_history_delete ps ans hist linked id :
  inv ps ans hist linked → inv ps ans (delete id hist) linked.
Proof.
  intros []. split; try done.
  - rewrite map_size_delete. destruct (hist !! id); cbn; lia.
  - intros id' a [_ ?]%lookup_delete_Some. eauto.
Qed.

Lemma forget_gone r public a :
  roster_inv r → announcements (forget r public) !! user_id public = Some a →
  announce_public a ≠ public.
Proof.
  intros Hi. unfold forget. destruct (peers r !! user_id public) as [p|] eqn:Hp.
  - destruct (iv_peer _ _ _ _ Hi _ p Hp) as (_ & a' & Ha' & []). case_decide as Heq.
    + cbn. by rewrite lookup_delete_eq.
    + rewrite Ha'. intros [= <-]. congruence.
  - intros Ha. apply (iv_announced _ _ _ _ Hi) in Ha as [? ?]. congruence.
Qed.

Lemma authorize_linked_account_inv r public cert :
  roster_inv r → roster_inv (authorize_linked_account r public cert).
Proof.
  intros Hi. unfold authorize_linked_account. set (id := user_id public).
  destruct (_ || _ || _) eqn:Hch; apply inv_link.
  - apply inv_history_delete. by apply forget_inv.
  - intros a Ha Hpub. exfalso. by eapply (forget_gone r public a).
  - done.
  - intros a Ha Hpub. apply orb_false_iff in Hch as [[Hd _]%orb_false_iff _].
    cbn [announcements] in Ha. rewrite Ha in Hd.
    apply orb_false_iff in Hd as [_ Hd%bool_decide_eq_false]. by apply dec_stable in Hd.
Qed.

(** Everything that can happen to a roster; a rollback undoes a staging that was
    handed out earlier. *)
Inductive roster_reach : Roster → list RelayedRollback → Prop :=
  | rr_default : roster_reach roster_default []
  | rr_update r us now a ip source :
      roster_reach r us → roster_reach (update_from r now a ip (an_tcp_port a) self source).1 us
  | rr_latency r us now a ip rtt :
      roster_reach r us → roster_reach (update_routed_with_latency r now a ip self rtt).1 us
  | rr_gateway r us now a ip port :
      roster_reach r us → roster_reach (update_gateway r now a ip port self).1 us
  | rr_relayed r us now a relay :
      roster_reach r us → roster_reach (update_relayed r now a relay self).1 us
  | rr_stage r us now a relay :
      roster_reach r us →
      roster_reach (stage_relayed r now a relay self).1
        match (stage_relayed r now a relay self).2 with Some u => u :: us | None => us end
  | rr_rollback r us u restore : roster_reach r us → u ∈ us → roster_reach (rollback_relayed r u restore) us
  | rr_expiry r us now id relay expiry secs :
      roster_reach r us → roster_reach (set_directory_expiry r now id relay expiry secs) us
  | rr_origin r us id relay origin unix :
      roster_reach r us → roster_reach (set_registration_origin r id relay origin unix) us
  | rr_hops r us id relay secs hops :
      roster_reach r us → roster_reach (set_directory_origin_hops r id relay secs hops) us
  | rr_mark r us now public at_addr :
      roster_reach r us → roster_reach (mark_authenticated r now public at_addr) us
  | rr_evict r us now ttl : roster_reach r us → roster_reach (evict_stale r now ttl) us
  | rr_forget r us public : roster_reach r us → roster_reach (forget r public) us
  | rr_forget_relayed r us id : roster_reach r us → roster_reach (forget_relayed r id) us
  | rr_authorize r us public cert :
      roster_reach r us → roster_reach (authorize_linked_account r public cert) us.

Lemma roster_default_inv : roster_inv roster_default.
Proof.
  split; cbn; rewrite ?map_size_empty; unfold MAX_PEERS; try lia; try done.
Qed.

Lemma reach_invariant r us : roster_reach r us → roster_inv r ∧ ∀ u, u ∈ us → undo_ok u.
Proof.
  induction 1 as [|r us now a ip source _ [IH Hu]|r us now a ip rtt _ [IH Hu]|r us now a ip port _ [IH Hu]
    |r us now a relay _ [IH Hu]|r us now a relay _ [IH Hu]|r us u restore _ [IH Hu] Hin
    |r us now id relay expiry secs _ [IH Hu]|r us id relay origin unix _ [IH Hu]
    |r us id relay secs hops _ [IH Hu]|r us now public at_addr _ [IH Hu]|r us now ttl _ [IH Hu]
    |r us public _ [IH Hu]|r us id _ [IH Hu]|r us public cert _ [IH Hu]]; (split; [|try done]).
  - apply roster_default_inv.
  - by intros u ?%elem_of_nil.
  - by apply update_from_inv.
  - by apply update_routed_with_latency_inv.
  - by apply update_gateway_inv.
  - by apply update_relayed_inv.
  - by apply stage_relayed_inv.
  - destruct (stage_relayed_inv r now a relay IH) as [_ Hst].
    destruct (stage_relayed r now a relay self).2 as [u|]; [|done].
    intros v [->|Hv]%elem_of_cons; [by apply Hst|by apply Hu].
  - apply rollback_relayed_inv; auto.
  - by apply set_directory_expiry_inv.
  - by apply set_registration_origin_inv.
  - by apply set_directory_origin_hops_inv.
  - by apply mark_authenticated_inv.
  - by apply evict_stale_inv.
  - by apply forget_inv.
  - by apply forget_relayed_inv.
  - by apply authorize_linked_account_inv.
Qed.

End invariant.

(** ** Introductions and their rollback *)

Section introductions.
Context `{Crypto, MapIter, !MapIterLaws, Bincode consent_content, Bincode origin_content}.
Context (self : UserId).
Implicit Types (r : Roster) (a : Announce) (p : PeerRecord) (now : N) (id : UserId).

Definition routes_of r id : list PeerEndpoint :=
  match peers r !! id with Some p => routes p | None => [] end.

(** Origin and deadline of what a relay's directory says about a peer. *)
Definition relay_evidence r id (relay : SocketAddr) : option (N * N) :=
  e ← head (filter (is_relay relay) (routes_of r id));
  o ← presence_origin_expires_at e;
  d ← presence_expires_at e;
  Some (o, d).

(** One report of a relay's directory: the introduction, then its deadline. *)
Definition introduce (relay : SocketAddr) r (report : Announce * N * N * N) : Roster :=
  let '(a, now, expiry, secs) := report in
  set_directory_expiry (update_relayed r now a relay self).1 now (an_user_id a) relay expiry secs.

Lemma routes_of_ok r id : roster_inv self r → routes_ok (routes_of r id).
Proof.
  intros Hi. unfold routes_of. destruct (peers r !! id) as [p|] eqn:Hp; [|apply routes_ok_nil].
  by apply (iv_peer _ _ _ _ _ Hi _ p Hp).
Qed.

(** An accepted introduction writes exactly the pushed routes. *)
Lemma update_relayed_routes r now a relay :
  (is_Some (peers r !! an_user_id a) ∨ size (peers r) < MAX_PEERS) →
  let '(r', o) := update_relayed r now a relay self in
  if accepted o
  then ∃ p, peers r' = <[an_user_id a := p]> (peers r) ∧ pe_public p = announce_public a ∧
    routes p = push_route (filter (λ e, ¬ is_relay relay e) (routes_of r (an_user_id a)))
      (relayed_route relay now (routes_of r (an_user_id a)))
  else r' = r.
Proof.
  intros Hroom. unfold update_relayed. destruct (relayed_refused r a self); [done|].
  assert (make_room r (bool_decide (is_Some (peers r !! an_user_id a))) = r) as ->.
  { unfold make_room. destruct Hroom as [Hs|Hs]; [by rewrite bool_decide_true|].
    rewrite (bool_decide_false (MAX_PEERS ≤ _)) by lia. by rewrite andb_false_r. }
  fold (routes_of r (an_user_id a)).
  assert (∀ b x, peers (when b notify_changes x) = peers x) as Hwhen by by intros [].
  destruct (bool_decide (is_Some (peers r !! an_user_id a))); cbn [accepted];
    rewrite Hwhen; cbn [peers with_peers]; (eexists; split; [by case_decide|done]).
Qed.

Lemma relay_not_kept relay old : filter (is_relay relay) (filter (λ e, ¬ is_relay relay e) old) = [].
Proof.
  apply filter_nil_iff. intros e [? _]%list_elem_of_filter. done.
Qed.

Lemma head_filter_pushed relay now old :
  filter (is_relay relay) (push_route (filter (λ e, ¬ is_relay relay e) old) (relayed_route relay now old)) =
  [relayed_route relay now old].
Proof.
  pose proof (relay_not_kept relay old) as Hno. unfold push_route.
  generalize dependent (filter (λ e, ¬ is_relay relay e) old). intros kept Hno. case_decide as Hl.
  - destruct kept as [|x kept]; [rewrite length_app in Hl; cbn in Hl; unfold MAX_ROUTES_PER_PEER in Hl; lia|].
    change (remove_at 0 ((x :: kept) ++ [relayed_route relay now old]))
      with (kept ++ [relayed_route relay now old]).
    rewrite filter_cons in Hno. case_decide; [done|].
    rewrite filter_app, Hno. cbn. by rewrite decide_True.
  - rewrite filter_app, Hno. cbn. by rewrite decide_True.
Qed.

Lemma routes_of_edit r id f d : routes_of (edit_routes r id f d) id = f <$> routes_of r id.
Proof.
  unfold edit_routes, routes_of. destruct (peers r !! id) as [p|] eqn:Hp; [|by rewrite Hp].
  assert (∀ b x, peers (when b publish_observation x) = peers x) as -> by by intros [].
  cbn. by rewrite lookup_insert_eq.
Qed.

Lemma directory_lease_capped now expiry secs e :
  (directory_lease now expiry secs e ≤ N.min expiry (now + PUBLIC_PRESENCE_TTL))%N.
Proof. unfold directory_lease. case_match; lia. Qed.

Lemma introduce_step relay r report o d :
  roster_inv self r → relay_evidence r (an_user_id report.1.1.1) relay = Some (o, d) → (report.2 ≤ o)%N →
  roster_inv self (introduce relay r report) ∧
  ∃ d', (d' ≤ d)%N ∧
    relay_evidence (introduce relay r report) (an_user_id report.1.1.1) relay = Some (o, d').
Proof.
  destruct report as [[[a now] expiry] secs]. cbn [fst snd introduce]. intros Hi Hev Hsecs.
  split; [by apply set_directory_expiry_inv, update_relayed_inv|].
  set (id := an_user_id a) in *. pose proof (routes_of_ok r id Hi) as Hok.
  unfold relay_evidence in Hev. destruct (head _) as [e|] eqn:He; [|done]. cbn in Hev.
  destruct (presence_origin_expires_at e) as [o'|] eqn:Ho; [|done]. cbn in Hev.
  destruct (presence_expires_at e) as [d'|] eqn:Hd; [|done]. cbn in Hev. injection Hev as -> ->.
  assert (∃ e1, head (filter (is_relay relay) (routes_of (update_relayed r now a relay self).1 id)) = Some e1 ∧
    is_relay relay e1 ∧ presence_origin_expires_at e1 = Some o ∧ presence_expires_at e1 = Some d)
    as (e1 & He1 & Hr1 & Ho1 & Hd1).
  { pose proof He as [Hr Hin]%head_Some_elem_of%list_elem_of_filter.
    assert (is_Some (peers r !! id)) as Hs.
    { unfold routes_of in Hin. destruct (peers r !! id); [done|]. by apply elem_of_nil in Hin. }
    pose proof (update_relayed_routes r now a relay (or_introl Hs)) as Hu.
    destruct (update_relayed r now a relay self) as [r' out]. cbn [fst].
    destruct (accepted out); [|subst r'; eauto].
    destruct Hu as (p & Hp & _ & Hrs). exists (relayed_route relay now (routes_of r id)).
    unfold routes_of at 1. rewrite Hp. fold id. rewrite lookup_insert_eq, Hrs.
    fold id. rewrite head_filter_pushed. split; [done|]. split; [done|].
    unfold relayed_route. rewrite He. cbn. done. }
  unfold relay_evidence, set_directory_expiry. rewrite routes_of_edit.
  assert (∀ l, head (filter (is_relay relay) l) = Some e1 →
    head (filter (is_relay relay) ((λ e, if decide (is_relay relay e)
      then with_directory_lease now expiry secs e else e) <$> l)) = Some (with_directory_lease now expiry secs e1)) as Hf.
  { induction l as [|x l IH]; [done|]. cbn. destruct (decide (is_relay relay x)) as [Hx|Hx].
    - cbn. intros [= ->]. rewrite decide_True; [done|]. destruct Hx. by split.
    - rewrite decide_False by done. exact IH. }
  rewrite (Hf _ He1). cbn. rewrite Ho1, bool_decide_false by lia. cbn.
  eexists. split; [|done]. unfold directory_lease. rewrite Ho1, bool_decide_false, Hd1 by lia. cbn. lia.
Qed.

(** C36: Repeated directory reports do not keep a departed peer present.  Once a relay
    has reported a registration, any number of further reports of that registration
    or an older one, whatever deadline they name, never move the presence deadline
    later and never replace the registration; and no report at all grants more than
    its own expiry or fifteen seconds. *)
Theorem relay_reports_do_not_renew r us relay id reports o d :
  roster_reach self r us → relay_evidence r id relay = Some (o, d) →
  (∀ report, report ∈ reports → an_user_id report.1.1.1 = id ∧ (report.2 ≤ o)%N) →
  (∃ d', (d' ≤ d)%N ∧ relay_evidence (foldl (introduce relay) r reports) id relay = Some (o, d')) ∧
  ∀ now expiry secs e,
    (directory_lease now expiry secs e ≤ N.min expiry (now + PUBLIC_PRESENCE_TTL))%N.
Proof.
  intros Hr Hev Hrep. split; [|apply directory_lease_capped].
  assert (roster_inv self r) as Hi by by eapply reach_invariant. clear Hr.
  revert r d Hi Hev. induction reports as [|report reports IH]; intros r d Hi Hev; [by exists d|].
  destruct (Hrep report) as [Hid Hsecs]; [set_solver|]. rewrite <-Hid in Hev.
  destruct (introduce_step relay r report o d Hi Hev Hsecs) as (Hi' & d1 & Hd1 & Hev1).
  rewrite Hid in Hev1. cbn. destruct (IH ltac:(set_solver) _ d1 Hi' Hev1) as (d2 & Hd2 & Hev2).
  exists d2. split; [lia|done].
Qed.

(** All entries but one pass through. *)
Lemma filter_enumerate_single {A} (P : nat * A → Prop) `{∀ x, Decision (P x)} l1 e l2 :
  (∀ j x, (l1 ++ e :: l2) !! j = Some x → (P (j, x) ↔ j = length l1)) →
  filter P (enumerate (l1 ++ e :: l2)) = [(length l1, e)].
Proof.
  intros HP. assert (enumerate (l1 ++ e :: l2) = zip (seq 0 (length l1)) l1 ++
    (length l1, e) :: zip (seq (S (length l1)) (length l2)) l2) as ->.
  { unfold enumerate. rewrite length_app. cbn [length]. rewrite seq_app, zip_with_app
      by (by rewrite length_seq). done. }
  rewrite filter_app, filter_cons.
  rewrite decide_True by (apply HP; [by rewrite list_lookup_middle|done]).
  assert (∀ j x k (l : list A), (j, x) ∈ zip (seq k (length l)) l → k ≤ j ∧ l !! (j - k) = Some x) as Hz.
  { intros j x k l Hin. apply list_elem_of_lookup in Hin as [i Hi].
    apply lookup_zip_with_Some in Hi as (j' & x' & [= -> ->] & [-> _]%lookup_seq & Hx).
    split; [lia|]. by replace (k + i - k) with i by lia. }
  rewrite (proj2 (filter_nil_iff P (zip (seq 0 (length l1)) l1))).
  2: { intros [j x] [_ Hx]%Hz. rewrite Nat.sub_0_r in Hx. pose proof (lookup_lt_Some _ _ _ Hx).
       rewrite (HP j x) by (by rewrite lookup_app_l). lia. }
  rewrite (proj2 (filter_nil_iff P (zip (seq (S (length l1)) (length l2)) l2))); [done|].
  intros [j x] [Hle Hx]%Hz. rewrite (HP j x); [lia|].
  rewrite lookup_app_r by lia. by replace (j - length l1) with (S (j - S (length l1))) by lia.
Qed.

Lemma filter_enumerate_none {A} (P : nat * A → Prop) `{∀ x, Decision (P x)} l :
  (∀ j x, l !! j = Some x → ¬ P (j, x)) → filter P (enumerate l) = [].
Proof. intros HP. apply filter_nil_iff. intros [j x] Hx%elem_of_enumerate. by apply HP. Qed.

Lemma same_route_key x y : same_route x y = true → route_key x = route_key y.
Proof.
  unfold same_route, route_key. rewrite !andb_true_iff, !bool_decide_eq_true. naive_solver congruence.
Qed.

Lemma same_route_refl x : same_route x x = true.
Proof. unfold same_route. by rewrite !bool_decide_true. Qed.

Lemma existsb_same_route rs x :
  existsb (λ y, same_route y x) rs = true ↔ ∃ y, y ∈ rs ∧ same_route y x = true.
Proof.
  rewrite existsb_exists. split; intros (y & Hy & Hs); exists y; split; try done; by apply list_elem_of_In.
Qed.

(** Putting back one lost route. *)
Lemma restore_single rs i e :
  (∀ y, y ∈ rs → route_key y ≠ route_key e) → length rs < MAX_ROUTES_PER_PEER → i ≤ length rs →
  restore_route true rs (i, e) = insert_at i e rs.
Proof.
  intros Hnew Hl Hi. unfold restore_route. cbn [negb andb].
  destruct (existsb _ rs) eqn:Hex.
  - apply existsb_exists in Hex as (y & Hy%list_elem_of_In & Hk).
    apply andb_true_iff in Hk as [Ha%bool_decide_eq_true Hs%bool_decide_eq_true].
    exfalso. apply (Hnew y Hy). unfold route_key. congruence.
  - rewrite decide_False by lia. by rewrite Nat.min_l by lia.
Qed.

(** What staging loses and what a rollback puts back, as lists. *)
Section staging.
Context (relay : SocketAddr) (now : N) (old : list PeerEndpoint).
Context (old_ok : routes_ok old) (old_seen : ∀ e, e ∈ old → (pe_last_seen e < now)%N).

Definition new_route : PeerEndpoint := relayed_route relay now old.
Definition staged_routes : list PeerEndpoint :=
  push_route (filter (λ e, ¬ is_relay relay e) old) new_route.
Definition lost_routes : list (nat * PeerEndpoint) :=
  filter (λ e : nat * PeerEndpoint, ¬ existsb (λ y, same_route y e.2) staged_routes) (enumerate old).
Definition without_staged (k : list PeerEndpoint) : list PeerEndpoint :=
  filter (λ y, ¬ same_route y new_route) k.

Lemma new_route_differs x : x ∈ old → same_route new_route x = true → False.
Proof.
  intros Hx Hs. unfold same_route in Hs. rewrite !andb_true_iff, !bool_decide_eq_true in Hs.
  destruct Hs as [[_ Hseen] _]. cbn in Hseen. specialize (old_seen x Hx). lia.
Qed.

Lemma without_staged_old k : (∀ y, y ∈ k → y ∈ old) → without_staged (k ++ [new_route]) = k.
Proof.
  intros Hk. unfold without_staged. rewrite filter_app, filter_cons, decide_False.
  - rewrite app_nil_r. apply filter_all. intros y Hy Hs%Is_true_true. apply (new_route_differs y (Hk y Hy)).
    unfold same_route in *. rewrite !andb_true_iff, !bool_decide_eq_true in *. naive_solver.
  - intros Hs. apply Hs, Is_true_true, same_route_refl.
Qed.

(** One old route is missing from the staged list: it is what was lost. *)
Lemma lost_single l1 e l2 :
  old = l1 ++ e :: l2 → staged_routes = (l1 ++ l2) ++ [new_route] →
  (∀ y, y ∈ l1 ++ l2 → route_key y ≠ route_key e) → lost_routes = [(length l1, e)].
Proof.
  intros Hold Hrs Hkeys. unfold lost_routes. rewrite Hrs, Hold. apply filter_enumerate_single.
  intros j x Hx. cbn [snd]. rewrite Is_true_true, existsb_same_route. split.
  - intros Hn. destruct (decide (j = length l1)) as [|Hj]; [done|]. exfalso. apply Hn. exists x.
    split; [|apply same_route_refl]. apply elem_of_app. left.
    destruct (decide (j < length l1)) as [Hlt|Hge].
    + rewrite lookup_app_l in Hx by done. apply elem_of_app. left. by eapply list_elem_of_lookup_2.
    + rewrite lookup_app_r in Hx by lia. apply elem_of_app. right.
      destruct (j - length l1) as [|j'] eqn:Ej; [lia|]. by eapply list_elem_of_lookup_2.
  - intros ->. rewrite list_lookup_middle in Hx by done. injection Hx as <-.
    intros (y & [Hy| ->%list_elem_of_singleton]%elem_of_app & Hs).
    + apply (Hkeys y Hy). by apply same_route_key.
    + apply (new_route_differs e); [rewrite Hold; set_solver|done].
Qed.

Lemma restored_single l1 e l2 :
  old = l1 ++ e :: l2 → staged_routes = (l1 ++ l2) ++ [new_route] →
  (∀ y, y ∈ l1 ++ l2 → route_key y ≠ route_key e) →
  foldl (restore_route true) (without_staged staged_routes) lost_routes = old.
Proof.
  intros Hold Hrs Hkeys. rewrite (lost_single l1 e l2 Hold Hrs Hkeys), Hrs.
  rewrite without_staged_old by (rewrite Hold; set_solver). cbn [foldl].
  pose proof (ro_length _ old_ok) as Hlen. rewrite Hold, length_app in Hlen. cbn [length] in Hlen.
  rewrite restore_single; [|done|rewrite length_app; lia|rewrite length_app; lia].
  unfold insert_at. by rewrite take_app_length, drop_app_length.
Qed.

Lemma distinct_from l1 e l2 :
  old = l1 ++ e :: l2 → ∀ y, y ∈ l1 ++ l2 → route_key y ≠ route_key e.
Proof.
  intros Hold y Hy Hk. pose proof (ro_distinct _ old_ok) as Hnd.
  rewrite Hold, fmap_app, fmap_cons, <-Permutation_middle, NoDup_cons in Hnd.
  destruct Hnd as [Hn _]. apply Hn. rewrite <-fmap_app, <-Hk. by apply list_elem_of_fmap_2.
Qed.

Lemma staged_restored :
  foldl (restore_route true) (without_staged staged_routes) lost_routes = old.
Proof.
  pose proof (ro_length _ old_ok) as Hlen. destruct (decide (Exists (is_relay relay) old)) as [Hex|Hno].
  - apply Exists_exists in Hex as (e & Hin & Hr). apply list_elem_of_split in Hin as (l1 & l2 & Hold).
    pose proof (distinct_from l1 e l2 Hold) as Hkeys. apply (restored_single l1 e l2); try done.
    assert (filter (λ e, ¬ is_relay relay e) old = l1 ++ l2) as Hkept.
    { rewrite Hold, filter_app, filter_cons, decide_False by tauto. rewrite <-filter_app.
      apply filter_all. intros y Hy [Ha Hs]. apply (Hkeys y Hy). unfold route_key. destruct Hr. congruence. }
    unfold staged_routes. rewrite Hkept. unfold push_route. rewrite decide_False; [done|].
    rewrite Hold, !length_app in *. cbn in *. lia.
  - assert (filter (λ e, ¬ is_relay relay e) old = old) as Hkept.
    { apply filter_all. intros y Hy Hr. apply Hno, Exists_exists. eauto. }
    assert (staged_routes = push_route old new_route) as Hst by (unfold staged_routes; by rewrite Hkept).
    destruct (decide (length old = MAX_ROUTES_PER_PEER)) as [Hfull|Hroom].
    + assert (∃ e l2, old = e :: l2) as (e & l2 & Hold).
      { clear -Hfull. destruct old as [|e l2]; [done|by exists e, l2]. }
      apply (restored_single [] e l2); [done| |by apply (distinct_from [] e l2)].
      rewrite Hst. unfold push_route. rewrite decide_True by (rewrite length_app; cbn; lia).
      unfold remove_at. by rewrite Hold.
    + assert (staged_routes = old ++ [new_route]) as ->.
      { rewrite Hst. unfold push_route. rewrite decide_False; [done|]. rewrite length_app. cbn. lia. }
      rewrite without_staged_old by done. assert (lost_routes = []) as ->; [|done].
      apply filter_enumerate_none. intros j x Hx Hn. apply Hn, Is_true_true, existsb_same_route.
      exists x. split; [|apply same_route_refl]. rewrite Hst. unfold push_route.
      rewrite decide_False by (rewrite length_app; cbn; lia). apply elem_of_app. left.
      by eapply list_elem_of_lookup_2.
Qed.
End staging.

Lemma routes_of_settle r id p rs : routes_of (settle r id p rs) id = rs.
Proof.
  unfold settle, routes_of. destruct (preferred_route rs) as [e|] eqn:He; cbn.
  - by rewrite lookup_insert_eq.
  - rewrite lookup_delete_eq. by apply preferred_route_None in He.
Qed.

Lemma settle_other r id p rs other : other ≠ id → peers (settle r id p rs) !! other = peers r !! other.
Proof.
  intros Hne. unfold settle. destruct (preferred_route rs); cbn.
  - by rewrite lookup_insert_ne.
  - by rewrite lookup_delete_ne.
Qed.

End introductions.

Module RosterWitness.
Import ToyCrypto AnnounceWitness OriginCodec.

#[export] Instance toy_iter : MapIter := λ A m, map_to_list m.
#[export] Instance toy_iter_laws : MapIterLaws.
Proof. by intros A m. Qed.

Definition me : UserId := str "me".
Definition relay1 : SocketAddr := socket ip1 9000.
Definition seen : Roster := (update_from roster_default 1000 ann ip1 (an_tcp_port ann) me Lan).1.
Definition introduced : Roster :=
  set_directory_expiry (update_relayed seen 2000 ann relay1 me).1 2000 (an_user_id ann) relay1 5000 50.

Lemma seen_reach : roster_reach me seen [].
Proof. apply rr_update, rr_default. Qed.

Lemma introduced_reach : roster_reach me introduced [].
Proof. apply rr_expiry, rr_relayed, seen_reach. Qed.


Lemma reports_witness :
  ∃ d', (d' ≤ 5000)%N ∧
    relay_evidence (foldl (introduce me relay1) introduced [(ann, 9000%N, 99999%N, 50%N)])
      (an_user_id ann) relay1 = Some (50%N, d').
Proof.
  refine (proj1 (relay_reports_do_not_renew me introduced [] relay1 (an_user_id ann)
    [(ann, 9000%N, 99999%N, 50%N)] 50 5000 introduced_reach _ _)).
  - vm_compute. reflexivity.
  - intros report ->%list_elem_of_singleton. split; [reflexivity|]. vm_compute. discriminate.
Defined.

Definition staged : Roster * option RelayedRollback := stage_relayed seen 3000 ann relay1 me.
Definition undo1 : RelayedRollback :=
  default (MkRollback [] (public dev) [] (MkEndpoint relay1 Lan 0 None None None None None)) staged.2.


(** A device that comes back with another exchange key: authorizing the new keys for
    its account leaves the record with the old key in place, because [forget] only
    removes a record with the very keys it is given. *)
Definition rekeyed : PublicIdentity := MkPublicIdentity (an_ed25519_pub ann) (key Byte.x09).

Lemma authorize_leaves_rekeyed_record :
  announce_public ann ≠ rekeyed ∧
  pe_public <$> peers (authorize_linked_account seen rekeyed (certify acc (an_ed25519_pub ann))) !!
    user_id rekeyed = Some (announce_public ann).
Proof. split; [vm_compute; discriminate|vm_compute; reflexivity]. Qed.
End RosterWitness.
