(* ===== verification/File.v ===== *)
(** * File crypto and file manifests

    Models crates/mesh-talk-core/src/file/crypto.rs and file/manifest.rs: the
    per-file key, fixed-size chunking, the two chunk-sealing schemes (random nonce,
    deterministic indexed nonce), the four manifest formats with their framing, the
    protected-image envelope and the version-independent view of a manifest.
    [FileKey] is its 32 bytes; keys, salts and nonces drawn from the operating
    system's generator are arguments.  Zeroing a dropped key is not modelled. *)

From S2P Require Import Prelude Crypto Bincode Event Expiry.

(** ** file/crypto.rs *)

Definition KEY_SIZE : nat := 32.
Definition NONCE_SIZE : nat := 12.
Definition TAG_SIZE : nat := 16.
Definition CHUNK_SIZE : N := 48 * 1024.

Abbreviation FileKey := bytes.

Inductive FileError :=
  | Encrypt
  | Decrypt
  | Malformed (m : bytes)
  | ChecksumMismatch
  | ChunkHashMismatch (index : N).

(** [Display for FileError]. *)
Definition file_error_to_string (e : FileError) : bytes :=
  match e with
  | Encrypt => str "file chunk encrypt error"
  | Decrypt => str "file chunk decrypt error"
  | Malformed m => str "malformed file chunk: " ++ m
  | ChecksumMismatch => str "file checksum mismatch after reassembly"
  | ChunkHashMismatch i => str "chunk " ++ decimal i ++ str " failed its per-chunk hash"
  end.

(** [slice::chunks]: consecutive pieces of [n] elements, the last possibly shorter.
    The fuel is the length of the slice. *)
Fixpoint chunks_loop {A} (n fuel : nat) (l : list A) : list (list A) :=
  match fuel, l with
  | S fuel, _ :: _ => take n l :: chunks_loop n fuel (drop n l)
  | _, _ => []
  end.

Definition chunks {A} (n : nat) (l : list A) : list (list A) := chunks_loop n (length l) l.

Definition split_chunks (data : bytes) : list bytes :=
  if decide (data = []) then [[]] else chunks (N.to_nat CHUNK_SIZE) data.

(** [u64::div_ceil]. *)
Definition div_ceil (a b : N) : N := ((a + b - 1) / b)%N.

Definition chunk_count_for (size : N) : N :=
  if decide (size = 0%N) then 1%N else (div_ceil size CHUNK_SIZE mod 2 ^ 32)%N.

Section crypto.
Context `{Crypto}.

Definition file_checksum (data : bytes) : bytes := sha256 data.
Definition chunk_hash (plaintext : bytes) : bytes := sha256 plaintext.

Definition chunk_nonce (file_nonce : bytes) (index : N) : bytes :=
  file_nonce ++ be_bytes 4 index.

Definition seal_chunk_indexed (key : FileKey) (file_nonce : bytes) (index : N)
    (plaintext : bytes) : result FileError bytes :=
  ok_or (aes_gcm_encrypt key (chunk_nonce file_nonce index) [] plaintext) Encrypt.

Definition open_chunk_indexed (key : FileKey) (file_nonce : bytes) (index : N)
    (ciphertext : bytes) : result FileError bytes :=
  if decide (length ciphertext < TAG_SIZE) then Err (Malformed (str "chunk too short (need tag)"))
  else ok_or (aes_gcm_decrypt key (chunk_nonce file_nonce index) [] ciphertext) Decrypt.

(** The nonce is the generator's output. *)
Definition seal_chunk (nonce : bytes) (key : FileKey) (plaintext : bytes) :
    result FileError bytes :=
  ciphertext ← ok_or (aes_gcm_encrypt key nonce [] plaintext) Encrypt;
  Ok (nonce ++ ciphertext).

Definition open_chunk (key : FileKey) (envelope : bytes) : result FileError bytes :=
  if decide (length envelope < NONCE_SIZE + TAG_SIZE)
  then Err (Malformed (str "chunk too short (need nonce + tag)"))
  else
    let '(nonce, ciphertext) := (take NONCE_SIZE envelope, drop NONCE_SIZE envelope) in
    ok_or (aes_gcm_decrypt key nonce [] ciphertext) Decrypt.
End crypto.

(** ** file/manifest.rs *)

(** protection.rs *)
Inductive MessageProtection := Click | Authenticate.

#[global] Instance MessageProtection_eq_dec : EqDecision MessageProtection.
Proof. solve_decision. Defined.

Inductive FileKind := Media | File.

#[global] Instance FileKind_eq_dec : EqDecision FileKind.
Proof. solve_decision. Defined.

Record FileManifest := MkManifest {
  m1_name : bytes;
  m1_size : N;
  m1_mime : bytes;
  m1_checksum : bytes;
  m1_file_key : bytes;
  m1_file_conv : ConversationId;
  m1_chunk_count : N
}.

Record FileManifestV2 := MkManifestV2 {
  m2_name : bytes;
  m2_size : N;
  m2_mime : bytes;
  m2_checksum : bytes;
  m2_file_key : bytes;
  m2_file_nonce : bytes;
  m2_file_conv : ConversationId;
  m2_chunk_size : N;
  m2_chunk_count : N;
  m2_chunk_hashes : list bytes
}.

Record FileManifestV3 := MkManifestV3 { m3_v2 : FileManifestV2; m3_kind : FileKind }.

Record FileManifestV4 := MkManifestV4 { m4_v3 : FileManifestV3 }.

Inductive AnyManifest :=
  | V1 (m : FileManifest)
  | V2 (m : FileManifestV2)
  | V3 (m : FileManifestV3)
  | V4 (m : FileManifestV4)
  | Protected (protection : MessageProtection) (inner : AnyManifest).

(** Array lengths and integer widths of the Rust types. *)
#[global] Instance FileManifest_wf : TypeWf FileManifest := λ m,
  string_wf (m1_name m) ∧ (m1_size m ≤ u64_max)%N ∧
  string_wf (m1_mime m) ∧ length (m1_checksum m) = 32 ∧
  length (m1_file_key m) = 32 ∧ length (m1_file_conv m) = 32 ∧ (m1_chunk_count m ≤ u32_max)%N.

#[global] Instance FileManifestV2_wf : TypeWf FileManifestV2 := λ m,
  string_wf (m2_name m) ∧ (m2_size m ≤ u64_max)%N ∧
  string_wf (m2_mime m) ∧ length (m2_checksum m) = 32 ∧
  length (m2_file_key m) = 32 ∧ length (m2_file_nonce m) = 8 ∧ length (m2_file_conv m) = 32 ∧
  (m2_chunk_size m ≤ u32_max)%N ∧ (m2_chunk_count m ≤ u32_max)%N ∧
  (N.of_nat (length (m2_chunk_hashes m)) ≤ u64_max)%N ∧
  Forall (λ h, length h = 32) (m2_chunk_hashes m).

#[global] Instance FileManifestV3_wf : TypeWf FileManifestV3 := λ m, type_wf (m3_v2 m).
#[global] Instance FileManifestV4_wf : TypeWf FileManifestV4 := λ m, type_wf (m4_v3 m).

#[global] Instance protected_wf : TypeWf (MessageProtection * bytes) := λ p,
  (N.of_nat (length p.2) ≤ u64_max)%N.

(** The serializers of the manifest types and of the protected envelope's body. *)
Class FileCodecs := {
  #[global] v1_bincode :: Bincode FileManifest;
  #[global] v2_bincode :: Bincode FileManifestV2;
  #[global] v3_bincode :: Bincode FileManifestV3;
  #[global] v4_bincode :: Bincode FileManifestV4;
  #[global] protected_bincode :: Bincode (MessageProtection * bytes)
}.

Class FileCodecsLaws `{FileCodecs} := {
  #[global] v1_laws :: BincodeLaws FileManifest;
  #[global] v1_strict :: BincodeStrict FileManifest;
  #[global] v2_laws :: BincodeLaws FileManifestV2;
  #[global] v2_strict :: BincodeStrict FileManifestV2;
  #[global] v3_laws :: BincodeLaws FileManifestV3;
  #[global] v3_strict :: BincodeStrict FileManifestV3;
  #[global] v4_laws :: BincodeLaws FileManifestV4;
  #[global] v4_strict :: BincodeStrict FileManifestV4;
  #[global] protected_laws :: BincodeLaws (MessageProtection * bytes);
  #[global] protected_strict :: BincodeStrict (MessageProtection * bytes)
}.

Definition MFM2_MAGIC : bytes := str "MFM2".
Definition MFM3_MAGIC : bytes := str "MFM3".
Definition MFM4_MAGIC : bytes := str "MFM4".

Section manifest.
Context `{Crypto, FileCodecs}.

Definition v1_encode (m : FileManifest) : bytes := ser m.
Definition v1_decode (bs : bytes) : option FileManifest := de bs.

Definition v2_encode (m : FileManifestV2) : bytes := MFM2_MAGIC ++ ser m.
Definition v2_decode (bs : bytes) : option FileManifestV2 :=
  body ← strip_prefix MFM2_MAGIC bs; de body.

Definition v3_encode (m : FileManifestV3) : bytes := MFM3_MAGIC ++ ser m.
Definition v3_decode (bs : bytes) : option FileManifestV3 :=
  body ← strip_prefix MFM3_MAGIC bs; de body.

Definition v4_encode (m : FileManifestV4) : bytes := MFM4_MAGIC ++ ser m.
Definition v4_decode (bs : bytes) : option FileManifestV4 :=
  body ← strip_prefix MFM4_MAGIC bs;
  decoded ← de body;
  if decide (m2_chunk_hashes (m3_v2 (m4_v3 decoded)) = []) then Some decoded else None.

Definition protection (m : AnyManifest) : option MessageProtection :=
  match m with Protected p _ => Some p | _ => None end.

Definition unprotected (m : AnyManifest) : AnyManifest :=
  match m with Protected _ inner => inner | _ => m end.

Fixpoint any_name (m : AnyManifest) : bytes :=
  match m with
  | Protected _ inner => any_name inner
  | V1 m => m1_name m
  | V2 m => m2_name m
  | V3 m => m2_name (m3_v2 m)
  | V4 m => m2_name (m3_v2 (m4_v3 m))
  end.

Fixpoint any_size (m : AnyManifest) : N :=
  match m with
  | Protected _ inner => any_size inner
  | V1 m => m1_size m
  | V2 m => m2_size m
  | V3 m => m2_size (m3_v2 m)
  | V4 m => m2_size (m3_v2 (m4_v3 m))
  end.

Fixpoint any_mime (m : AnyManifest) : bytes :=
  match m with
  | Protected _ inner => any_mime inner
  | V1 m => m1_mime m
  | V2 m => m2_mime m
  | V3 m => m2_mime (m3_v2 m)
  | V4 m => m2_mime (m3_v2 (m4_v3 m))
  end.

Fixpoint any_file_conv (m : AnyManifest) : ConversationId :=
  match m with
  | Protected _ inner => any_file_conv inner
  | V1 m => m1_file_conv m
  | V2 m => m2_file_conv m
  | V3 m => m2_file_conv (m3_v2 m)
  | V4 m => m2_file_conv (m3_v2 (m4_v3 m))
  end.

Fixpoint any_chunk_count (m : AnyManifest) : N :=
  match m with
  | Protected _ inner => any_chunk_count inner
  | V1 m => m1_chunk_count m
  | V2 m => m2_chunk_count m
  | V3 m => m2_chunk_count (m3_v2 m)
  | V4 m => m2_chunk_count (m3_v2 (m4_v3 m))
  end.

Fixpoint any_checksum (m : AnyManifest) : bytes :=
  match m with
  | Protected _ inner => any_checksum inner
  | V1 m => m1_checksum m
  | V2 m => m2_checksum m
  | V3 m => m2_checksum (m3_v2 m)
  | V4 m => m2_checksum (m3_v2 (m4_v3 m))
  end.

Fixpoint any_kind (m : AnyManifest) : option FileKind :=
  match m with
  | Protected _ inner => any_kind inner
  | V1 _ | V2 _ => None
  | V3 m => Some (m3_kind m)
  | V4 m => Some (m3_kind (m4_v3 m))
  end.

(** The limit the reader gets is the length of the whole input, which the body
    cannot exceed.  The inner manifest is not itself protected nor framed with a
    deadline, so the recursion is at most one level deep ([decode_fuel_enough]). *)
Fixpoint decode_manifest_fuel (fuel : nat) (bs : bytes) : option AnyManifest :=
  match fuel with
  | O => None
  | S fuel =>
      '(_, bs) ← split bs;
      match strip_prefix (str "MFP1") bs with
      | Some rest =>
          '(p, body) ← (de rest : option (MessageProtection * bytes));
          if starts_with (str "MFP") body || starts_with (str "MTEX") body then None else
          inner ← decode_manifest_fuel fuel body;
          if negb (bool_decide (any_kind inner = Some Media)) ||
             negb (starts_with (str "image/") (any_mime inner)) then None
          else Some (Protected p inner)
      | None =>
          if starts_with (str "MFP") bs then None else
          match v4_decode bs with
          | Some v4 => Some (V4 v4)
          | None =>
              match v3_decode bs with
              | Some v3 => Some (V3 v3)
              | None =>
                  match v2_decode bs with
                  | Some v2 => Some (V2 v2)
                  | None => V1 <$> v1_decode bs
                  end
              end
          end
      end
  end.

Definition decode_manifest (bs : bytes) : option AnyManifest := decode_manifest_fuel 2 bs.

Definition protect_image_manifest (bs : bytes) (p : MessageProtection) : bytes :=
  str "MFP1" ++ ser (p, bs).

Definition open_chunk_v2 (m : FileManifestV2) (index : N) (ciphertext : bytes) :
    result FileError bytes :=
  plaintext ← open_chunk_indexed (m2_file_key m) (m2_file_nonce m) index ciphertext;
  expected ← ok_or (m2_chunk_hashes m !! N.to_nat index) (ChunkHashMismatch index);
  if decide (chunk_hash plaintext = expected) then Ok plaintext
  else Err (ChunkHashMismatch index).

(** [u64::from(index) * u64::from(chunk_size)] of two [u32]s cannot overflow. *)
Fixpoint open_chunk_for (manifest : AnyManifest) (index : N) (ciphertext : bytes) :
    result FileError bytes :=
  match manifest with
  | Protected _ inner => open_chunk_for inner index ciphertext
  | V1 m => open_chunk (m1_file_key m) ciphertext
  | V2 m => open_chunk_v2 m index ciphertext
  | V3 m => open_chunk_v2 (m3_v2 m) index ciphertext
  | V4 m =>
      let v2 := m3_v2 (m4_v3 m) in
      if decide (m2_chunk_count v2 ≤ index)%N
      then Err (Malformed (str "chunk index exceeds manifest")) else
      plaintext ← open_chunk_indexed (m2_file_key v2) (m2_file_nonce v2) index ciphertext;
      let offset := (index * m2_chunk_size v2)%N in
      if decide (m2_size v2 < offset)%N
      then Err (Malformed (str "chunk index exceeds file size")) else
      let expected := N.min (m2_size v2 - offset) (m2_chunk_size v2) in
      if decide (N.of_nat (length plaintext) ≠ expected)
      then Err (Malformed (str "chunk length differs from manifest"))
      else Ok plaintext
  end.

(** The loop of [reassemble_and_verify]. *)
Fixpoint open_all (key : FileKey) (cs : list bytes) : result FileError bytes :=
  match cs with
  | [] => Ok []
  | c :: cs => p ← open_chunk key c; rest ← open_all key cs; Ok (p ++ rest)
  end.

Definition reassemble_and_verify (manifest : FileManifest) (cs : list bytes) :
    result FileError bytes :=
  out ← open_all (m1_file_key manifest) cs;
  if decide (file_checksum out ≠ m1_checksum manifest) then Err ChecksumMismatch
  else Ok out.
End manifest.

(** ** Chunking *)

(** The [i]-th chunk of [data]. *)
Definition piece (n i : nat) {A} (l : list A) : list A := take n (drop (i * n) l).

Lemma chunks_loop_lookup {A} n fuel (l : list A) i :
  0 < n → length l ≤ fuel →
  chunks_loop n fuel l !! i = if decide (i * n < length l) then Some (piece n i l) else None.
Proof.
  intros Hn. revert l i. induction fuel as [|fuel IH]; intros l i Hf.
  - destruct l; [|simpl in Hf; lia]. by rewrite decide_False by (cbn; lia).
  - destruct l as [|a l]; [by rewrite decide_False by (cbn; lia)|].
    cbn [chunks_loop]. destruct i as [|i].
    + by rewrite decide_True by (cbn; lia).
    + cbn [lookup list_lookup]. unfold piece.
      rewrite IH by (rewrite length_drop; cbn [length] in *; lia).
      rewrite length_drop. unfold piece. rewrite drop_drop.
      replace (n + i * n) with (S i * n) by lia.
      destruct (decide (i * n < length (a :: l) - n)), (decide (S i * n < length (a :: l)));
        [done|lia..|done].
Qed.

Lemma chunks_lookup {A} n (l : list A) i :
  0 < n →
  chunks n l !! i = if decide (i * n < length l) then Some (piece n i l) else None.
Proof. intros Hn. by apply chunks_loop_lookup. Qed.

Lemma chunks_loop_concat {A} n fuel (l : list A) :
  0 < n → length l ≤ fuel → concat (chunks_loop n fuel l) = l.
Proof.
  intros Hn. revert l. induction fuel as [|fuel IH]; intros l Hf.
  - by destruct l; [|simpl in Hf; lia].
  - destruct l as [|a l]; [done|]. cbn [chunks_loop concat].
    rewrite IH by (rewrite length_drop; cbn [length] in *; lia). apply take_drop.
Qed.

Lemma div_ceil_lt a b i : (0 < b)%N → (i < div_ceil a b ↔ i * b < a)%N.
Proof.
  intros Hb. unfold div_ceil. pose proof (N.div_mod (a + b - 1) b ltac:(lia)) as Hd.
  pose proof (N.mod_lt (a + b - 1) b ltac:(lia)) as Hm.
  set (q := ((a + b - 1) / b)%N) in *. set (r := ((a + b - 1) mod b)%N) in *. split; intros Hi.
  - assert (b * (i + 1) ≤ b * q)%N by (apply N.mul_le_mono_l; lia). lia.
  - destruct (N.lt_ge_cases i q) as [?|Hge]; [done|].
    assert (b * q ≤ b * i)%N by (apply N.mul_le_mono_l; lia). lia.
Qed.

Lemma div_ceil_le a b k : (0 < b → a ≤ k * b → div_ceil a b ≤ k)%N.
Proof.
  intros Hb Ha. destruct (N.lt_ge_cases k (div_ceil a b)) as [Hlt|]; [|done].
  apply div_ceil_lt in Hlt; lia.
Qed.

Lemma length_chunks {A} n (l : list A) :
  0 < n → length (chunks n l) = N.to_nat (div_ceil (N.of_nat (length l)) (N.of_nat n)).
Proof.
  intros Hn. assert (∀ i, i < length (chunks n l) ↔
    i < N.to_nat (div_ceil (N.of_nat (length l)) (N.of_nat n))) as Hi.
  { intros i. rewrite <-lookup_lt_is_Some, chunks_lookup by done.
    pose proof (div_ceil_lt (N.of_nat (length l)) (N.of_nat n) (N.of_nat i) ltac:(lia)) as Hd.
    case_decide; split; intros Hx; try (by destruct Hx); try (by eexists); lia. }
  destruct (Nat.lt_trichotomy (length (chunks n l))
    (N.to_nat (div_ceil (N.of_nat (length l)) (N.of_nat n)))) as [Hc|[?|Hc]]; [|done|];
    apply Hi in Hc; lia.
Qed.

Lemma CHUNK_SIZE_value : CHUNK_SIZE = 49152%N.
Proof. done. Qed.

Lemma CHUNK_SIZE_pos : 0 < N.to_nat CHUNK_SIZE.
Proof. unfold CHUNK_SIZE. lia. Qed.

Lemma split_chunks_concat data : concat (split_chunks data) = data.
Proof.
  unfold split_chunks. case_decide as Hd; [by rewrite Hd|].
  by apply chunks_loop_concat; [apply CHUNK_SIZE_pos|].
Qed.

(** The largest file whose chunks a [u32] counts. *)
Definition max_chunked : N := (u32_max * CHUNK_SIZE)%N.

Lemma chunk_count_for_ceil size :
  (0 < size ≤ max_chunked)%N → chunk_count_for size = div_ceil size CHUNK_SIZE.
Proof.
  intros [Hs Hm]. unfold chunk_count_for. rewrite decide_False by lia. apply N.mod_small.
  assert (div_ceil size CHUNK_SIZE ≤ u32_max)%N by (apply div_ceil_le; [done|exact Hm]).
  unfold u32_max in *. lia.
Qed.

Lemma length_split_chunks data :
  (N.of_nat (length data) ≤ max_chunked)%N →
  length (split_chunks data) = N.to_nat (chunk_count_for (N.of_nat (length data))).
Proof.
  intros Hm. unfold split_chunks. case_decide as Hd; [by rewrite Hd|].
  rewrite chunk_count_for_ceil by (destruct data; cbn [length] in *; [done|lia]).
  rewrite length_chunks by apply CHUNK_SIZE_pos. by rewrite N2Nat.id.
Qed.

Lemma split_chunks_lookup data i :
  (N.of_nat (length data) ≤ max_chunked)%N →
  i < N.to_nat (chunk_count_for (N.of_nat (length data))) →
  split_chunks data !! i = Some (piece (N.to_nat CHUNK_SIZE) i data).
Proof.
  intros Hm Hi. rewrite <-length_split_chunks in Hi by done. unfold split_chunks in *.
  case_decide as Hd.
  - rewrite Hd. destruct i as [|i]; [|simpl in Hi; lia]. done.
  - apply lookup_lt_is_Some in Hi as [p Hp]. rewrite Hp.
    rewrite chunks_lookup in Hp by apply CHUNK_SIZE_pos. by case_decide.
Qed.

(** ** Sealing *)

Section sealing.
Context `{CryptoLaws}.

(** Two chunks of one file never share a nonce, nor do two files of one key with
    different salts. *)
Lemma chunk_nonce_inj salt1 salt2 i j :
  length salt1 = 8 → length salt2 = 8 → (i ≤ u32_max)%N → (j ≤ u32_max)%N →
  chunk_nonce salt1 i = chunk_nonce salt2 j → salt1 = salt2 ∧ i = j.
Proof.
  intros Hl1 Hl2 Hi Hj E. unfold chunk_nonce in E. apply app_inj_1 in E as [-> E]; [|lia].
  split; [done|]. apply (f_equal be_value) in E.
  by rewrite !be_value_be_bytes in E by
    (change (256 ^ N.of_nat 4)%N with (u32_max + 1)%N; lia).
Qed.

Lemma seal_open_indexed key salt i p :
  length key = 32 → length salt = 8 → (N.of_nat (length p) ≤ aead_max)%N →
  ∃ c, seal_chunk_indexed key salt i p = Ok c ∧ length c = length p + tag_size ∧
    open_chunk_indexed key salt i c = Ok p.
Proof.
  intros Hk Hs Hp.
  destruct (aes_gcm_encrypt_total key (chunk_nonce salt i) [] p) as (c & Hc & Hl);
    [done|by unfold chunk_nonce; rewrite length_app, length_be_bytes, Hs|done|].
  exists c. unfold seal_chunk_indexed, open_chunk_indexed. rewrite Hc. split_and!; [done..|].
  rewrite decide_False by (unfold TAG_SIZE, tag_size in *; lia).
  by rewrite (aes_gcm_decrypt_encrypt _ _ _ _ _ Hc).
Qed.

Lemma seal_open_random nonce key p :
  length key = 32 → length nonce = NONCE_SIZE → (N.of_nat (length p) ≤ aead_max)%N →
  ∃ c, seal_chunk nonce key p = Ok c ∧ open_chunk key c = Ok p.
Proof.
  intros Hk Hn Hp.
  destruct (aes_gcm_encrypt_total key nonce [] p) as (c & Hc & Hl); [done..|].
  exists (nonce ++ c). unfold seal_chunk, open_chunk. rewrite Hc. split; [done|].
  rewrite decide_False by (rewrite length_app; unfold TAG_SIZE, tag_size in *; lia).
  rewrite <-Hn, take_app_length, drop_app_length.
  by rewrite (aes_gcm_decrypt_encrypt _ _ _ _ _ Hc).
Qed.

(** What a chunk that opens says about the file: its index is one of the
    manifest's, and its plaintext is pinned by the manifest's hash (formats with
    hashes) or has the length the manifest gives it (the compact format). *)
Lemma open_chunk_for_checks m i c p :
  open_chunk_for m i c = Ok p →
  match unprotected m with
  | V2 v2 | V3 (MkManifestV3 v2 _) => m2_chunk_hashes v2 !! N.to_nat i = Some (chunk_hash p)
  | V4 (MkManifestV4 (MkManifestV3 v2 _)) =>
      (i < m2_chunk_count v2)%N ∧ (i * m2_chunk_size v2 ≤ m2_size v2)%N ∧
      N.of_nat (length p) = N.min (m2_size v2 - i * m2_chunk_size v2) (m2_chunk_size v2)
  | _ => True
  end.
Proof.
  assert (∀ v2, open_chunk_v2 v2 i c = Ok p →
    m2_chunk_hashes v2 !! N.to_nat i = Some (chunk_hash p)) as Hv2.
  { intros v2. unfold open_chunk_v2.
    destruct (open_chunk_indexed _ _ _ _) as [q|]; [cbn [mbind result_bind ok_or]|done].
    destruct (m2_chunk_hashes v2 !! _) as [h|]; [cbn [mbind result_bind ok_or]|done].
    case_decide as Hh; [|done]. intros [= ->]. by rewrite <-Hh. }
  assert (∀ v2 k, open_chunk_for (V4 (MkManifestV4 (MkManifestV3 v2 k))) i c = Ok p →
    (i < m2_chunk_count v2)%N ∧ (i * m2_chunk_size v2 ≤ m2_size v2)%N ∧
    N.of_nat (length p) = N.min (m2_size v2 - i * m2_chunk_size v2) (m2_chunk_size v2)) as Hv4.
  { intros v2 k. cbn [open_chunk_for m4_v3 m3_v2]. case_decide; [done|].
    destruct (open_chunk_indexed _ _ _ _) as [q|]; [cbn [mbind result_bind]|done].
    case_decide; [done|]. case_decide as Hl; [done|]. intros [= ->]. split_and!; [lia|lia|done]. }
  destruct m as [m|m|[m k]|[[m k]]|pr [m|m|[m k]|[[m k]]|pr' inner]];
    cbn [unprotected]; intros Hok; first [exact I|exact (Hv2 _ Hok)|exact (Hv4 _ _ Hok)].
Qed.
End sealing.

(** ** Manifest frames *)

Section frames.
Context `{FileCodecsLaws}.
Implicit Types (m : AnyManifest).

(** The bytes of a manifest. *)
Fixpoint any_encode m : bytes :=
  match m with
  | V1 m => v1_encode m
  | V2 m => v2_encode m
  | V3 m => v3_encode m
  | V4 m => v4_encode m
  | Protected p inner => protect_image_manifest (any_encode inner) p
  end.

(** The manifests a peer can announce: well typed; a compact one lists no hashes;
    a protected one wraps one plain manifest of image media; and an unframed
    legacy one does not begin like a framed one. *)
Definition announced m : Prop :=
  match m with
  | V1 m => type_wf m ∧ starts_with (str "MFP") (ser m) = false ∧
      v4_decode (ser m) = None ∧ v3_decode (ser m) = None ∧ v2_decode (ser m) = None
  | V2 m => type_wf m
  | V3 m => type_wf m
  | V4 m => type_wf m ∧ m2_chunk_hashes (m3_v2 (m4_v3 m)) = []
  | Protected p inner =>
      type_wf (p, any_encode inner) ∧ any_kind inner = Some Media ∧
      starts_with (str "image/") (any_mime inner) = true ∧
      match inner with
      | V3 v3 => type_wf v3
      | V4 v4 => type_wf v4 ∧ m2_chunk_hashes (m3_v2 (m4_v3 v4)) = []
      | _ => False
      end
  end.

Lemma v2_decode_Some bs v : v2_decode bs = Some v ↔ type_wf v ∧ bs = v2_encode v.
Proof.
  unfold v2_decode, v2_encode. split.
  - destruct (strip_prefix _ _) as [body|] eqn:E; [|done]. apply strip_prefix_Some in E as ->.
    cbn. by intros [? ->]%de_strict.
  - intros [Hw ->]. rewrite strip_prefix_app. by apply de_ser.
Qed.

Lemma v3_decode_Some bs v : v3_decode bs = Some v ↔ type_wf v ∧ bs = v3_encode v.
Proof.
  unfold v3_decode, v3_encode. split.
  - destruct (strip_prefix _ _) as [body|] eqn:E; [|done]. apply strip_prefix_Some in E as ->.
    cbn. by intros [? ->]%de_strict.
  - intros [Hw ->]. rewrite strip_prefix_app. by apply de_ser.
Qed.

Lemma v4_decode_Some bs v :
  v4_decode bs = Some v ↔
  type_wf v ∧ m2_chunk_hashes (m3_v2 (m4_v3 v)) = [] ∧ bs = v4_encode v.
Proof.
  unfold v4_decode, v4_encode. split.
  - destruct (strip_prefix _ _) as [body|] eqn:E; [|done]. apply strip_prefix_Some in E as ->.
    cbn. destruct (de body) as [m'|] eqn:Hd; [|done]. cbn. case_decide as Hh; [|done].
    intros [= ->]. apply de_strict in Hd as [? ->]. done.
  - intros (Hw & Hh & ->). rewrite strip_prefix_app. cbn. rewrite de_ser by done. cbn.
    by rewrite decide_True.
Qed.

(** Different magics do not match. *)
Lemma magic_clash (p q bs : bytes) :
  length p = length q → p ≠ q → strip_prefix p (q ++ bs) = None.
Proof.
  intros Hl Hne. apply strip_prefix_None, bool_decide_eq_false.
  rewrite Hl, take_app_length. congruence.
Qed.

Lemma magic_starts (p q bs : bytes) :
  length p ≤ length q → take (length p) q ≠ p → starts_with p (q ++ bs) = false.
Proof. intros Hl Hne. apply bool_decide_eq_false. by rewrite take_app_le. Qed.

(** The plain formats, read from bytes without deadline or protection. *)
Definition decode_plain (bs : bytes) : option AnyManifest :=
  match v4_decode bs with
  | Some v4 => Some (V4 v4)
  | None =>
      match v3_decode bs with
      | Some v3 => Some (V3 v3)
      | None =>
          match v2_decode bs with
          | Some v2 => Some (V2 v2)
          | None => V1 <$> v1_decode bs
          end
      end
  end.

Definition plain m : Prop := match m with Protected _ _ => False | _ => True end.

Lemma decode_plain_exact bs m :
  starts_with (str "MFP") bs = false →
  decode_plain bs = Some m ↔ plain m ∧ announced m ∧ bs = any_encode m.
Proof.
  intros Hp. unfold decode_plain. split.
  - destruct (v4_decode bs) as [v4|] eqn:E4.
    { intros [= <-]. by apply v4_decode_Some in E4 as (? & ? & ?). }
    destruct (v3_decode bs) as [v3|] eqn:E3.
    { intros [= <-]. by apply v3_decode_Some in E3 as (? & ?). }
    destruct (v2_decode bs) as [v2|] eqn:E2.
    { intros [= <-]. by apply v2_decode_Some in E2 as (? & ?). }
    unfold v1_decode. destruct (de bs) as [v1|] eqn:E1; [|done]. intros [= <-].
    apply de_strict in E1 as [Hw Hs]. cbn [announced any_encode plain]. unfold v1_encode.
    by rewrite Hs.
  - intros (Hpl & Ha & ->). destruct m as [v|v|v|v|p inner]; cbn [announced any_encode] in *.
    + destruct Ha as (Hw & _ & H4 & H3 & H2). unfold v1_encode in *. rewrite H4, H3, H2.
      unfold v1_decode. by rewrite de_ser.
    + unfold v4_decode at 1, v3_decode at 1, v2_encode at 1 2.
      rewrite !magic_clash by done. cbn. by rewrite (proj2 (v2_decode_Some _ v)).
    + unfold v4_decode at 1, v3_encode at 1. rewrite !magic_clash by done. cbn.
      by rewrite (proj2 (v3_decode_Some _ v)).
    + by rewrite (proj2 (v4_decode_Some _ v)) by naive_solver.
    + done.
Qed.

Lemma any_encode_plain_head m : plain m → announced m →
  starts_with (str "MFP") (any_encode m) = false.
Proof.
  destruct m; cbn [announced any_encode plain]; intros Hp Ha; [naive_solver|..|done];
    apply magic_starts; [cbn; lia|done|cbn; lia|done|cbn; lia|done].
Qed.
Lemma split_unframed bs : starts_with (str "MTEX") bs = false → split bs = Some (None, bs).
Proof.
  intros Hs. unfold split. destruct (strip_prefix EXP_MAGIC bs) as [r|] eqn:E; [|done].
  apply strip_prefix_Some in E as ->. by apply bool_decide_eq_false in Hs.
Qed.

Lemma decode_fuel_step fuel bs :
  decode_manifest_fuel (S fuel) bs =
    '(_, bs) ← split bs;
    match strip_prefix (str "MFP1") bs with
    | Some rest =>
        '(p, body) ← (de rest : option (MessageProtection * bytes));
        if starts_with (str "MFP") body || starts_with (str "MTEX") body then None else
        inner ← decode_manifest_fuel fuel body;
        if negb (bool_decide (any_kind inner = Some Media)) ||
           negb (starts_with (str "image/") (any_mime inner)) then None
        else Some (Protected p inner)
    | None => if starts_with (str "MFP") bs then None else decode_plain bs
    end.
Proof. done. Qed.

(** A body that is neither protected nor framed is read as a plain manifest. *)
Lemma decode_inner fuel body :
  starts_with (str "MFP") body = false → starts_with (str "MTEX") body = false →
  decode_manifest_fuel (S fuel) body = decode_plain body.
Proof.
  intros Hp He. rewrite decode_fuel_step, split_unframed by done.
  cbn [mbind option_bind]. rewrite Hp.
  destruct (strip_prefix (str "MFP1") body) as [r|] eqn:E; [|done].
  apply strip_prefix_Some in E as ->. by apply bool_decide_eq_false in Hp.
Qed.

Lemma decode_manifest_step fuel bs :
  decode_manifest_fuel (S (S fuel)) bs =
    '(_, bs) ← split bs;
    match strip_prefix (str "MFP1") bs with
    | Some rest =>
        '(p, body) ← (de rest : option (MessageProtection * bytes));
        if starts_with (str "MFP") body || starts_with (str "MTEX") body then None else
        inner ← decode_plain body;
        if negb (bool_decide (any_kind inner = Some Media)) ||
           negb (starts_with (str "image/") (any_mime inner)) then None
        else Some (Protected p inner)
    | None => if starts_with (str "MFP") bs then None else decode_plain bs
    end.
Proof.
  rewrite decode_fuel_step. destruct (split bs) as [[d c]|]; [|done].
  cbn [mbind option_bind]. destruct (strip_prefix (str "MFP1") c) as [rest|]; [|done].
  destruct (de rest) as [[p body]|]; [|done]. cbn [mbind option_bind].
  destruct (starts_with (str "MFP") body) eqn:Hp; [done|].
  destruct (starts_with (str "MTEX") body) eqn:He; [done|]. cbn [orb].
  by rewrite decode_inner.
Qed.

(** The recursion never needs more than two levels. *)
Lemma decode_fuel_enough fuel bs :
  decode_manifest_fuel (S (S fuel)) bs = decode_manifest bs.
Proof. unfold decode_manifest. by rewrite !decode_manifest_step. Qed.

Lemma protected_inner inner :
  plain inner → announced inner → any_kind inner = Some Media →
  match inner with
  | V3 v3 => type_wf v3
  | V4 v4 => type_wf v4 ∧ m2_chunk_hashes (m3_v2 (m4_v3 v4)) = []
  | _ => False
  end.
Proof. by destruct inner. Qed.

Lemma decode_protected_exact p inner d bs c :
  split bs = Some (d, c) → strip_prefix (str "MFP1") c = Some (ser (p, any_encode inner)) →
  announced (Protected p inner) → decode_manifest bs = Some (Protected p inner).
Proof.
  intros Hs Hc (Hw & Hk & Hi & Hin). unfold decode_manifest; rewrite decode_manifest_step, Hs. cbn [mbind option_bind].
  rewrite Hc, de_ser by done. cbn [mbind option_bind].
  assert (plain inner ∧ announced inner) as [Hpl Ha] by by destruct inner.
  assert (starts_with (str "MFP") (any_encode inner) = false) as Hp
    by by apply any_encode_plain_head.
  assert (starts_with (str "MTEX") (any_encode inner) = false) as He.
  { destruct inner; try done; cbn [any_encode]; (apply magic_starts; [cbn; lia|done]). }
  rewrite Hp, He. cbn [orb]. rewrite (proj2 (decode_plain_exact _ inner Hp)) by done.
  cbn [mbind option_bind]. by rewrite bool_decide_eq_true_2, Hi.
Qed.

(** C38: The manifest formats are unambiguous and fail closed: decoding accepts exactly
    the bytes some announceable manifest encodes to, behind an optional deadline
    frame, and returns that manifest — whichever of the four formats it has, and
    protected images only around a plain image-media manifest; anything else
    (trailing bytes, wrong magic, nested protection, a hash list in the compact
    format) is refused. *)
Theorem decode_manifest_exact bs m :
  decode_manifest bs = Some m ↔ announced m ∧ ∃ d, split bs = Some (d, any_encode m).
Proof.
  split.
  - unfold decode_manifest. rewrite decode_manifest_step. destruct (split bs) as [[d c]|] eqn:Hs; [|done].
    cbn [mbind option_bind]. destruct (strip_prefix (str "MFP1") c) as [rest|] eqn:Hc.
    + apply strip_prefix_Some in Hc as ->.
      destruct (de rest) as [[p body]|] eqn:Hd; [|done]. cbn [mbind option_bind].
      destruct (starts_with (str "MFP") body) eqn:Hp; [done|].
      destruct (starts_with (str "MTEX") body) eqn:He; [done|]. cbn [orb].
      destruct (decode_plain body) as [inner|] eqn:Hi; [|done]. cbn [mbind option_bind].
      destruct (negb _ || negb _) eqn:Hk; [done|]. intros [= <-].
      apply orb_false_iff in Hk as [Hk%negb_false_iff Hm%negb_false_iff].
      apply bool_decide_eq_true in Hk. apply decode_plain_exact in Hi as (Hpl & Ha & ->); [|done].
      apply de_strict in Hd as [Hw <-]. split; [|by exists d].
      cbn [announced]. split_and!; [done..|by apply protected_inner].
    + destruct (starts_with (str "MFP") c) eqn:Hp; [done|].
      intros (Hpl & Ha & ->)%decode_plain_exact; [|done]. eauto.
  - intros [Ha [d Hs]]. destruct m as [| | | |p inner] eqn:Hm;
      [..|by eapply decode_protected_exact; [done|apply strip_prefix_app|]];
      unfold decode_manifest; rewrite decode_manifest_step, Hs, <-Hm in *; cbn [mbind option_bind];
      pose proof (any_encode_plain_head m ltac:(by rewrite Hm) Ha) as Hp;
      (rewrite (proj2 (strip_prefix_None _ _));
       [rewrite Hp; by apply decode_plain_exact; [|split_and!; [by rewrite Hm|..]]|
        apply not_true_is_false; intros [r Hr]%starts_with_true; rewrite Hr in Hp;
        by apply bool_decide_eq_false in Hp]).
Qed.
End frames.

(** ** A concrete encoding of the manifests *)

Module FileCodec.
Import Fixint.

Definition protection_codec : codec MessageProtection :=
  c_enum (λ n, [Click; Authenticate] !! N.to_nat n) (λ p, match p with Click => 0 | _ => 1 end%N).

Definition file_kind_codec : codec FileKind :=
  c_enum (λ n, [Media; File] !! N.to_nat n) (λ k, match k with Media => 0 | _ => 1 end%N).

#[export] Instance protection_codec_ok : CodecOk protection_codec.
Proof.
  apply c_enum_ok; [by intros []| |by intros []].
  intros n b Hn. rewrite <-(N2Nat.id n). generalize dependent (N.to_nat n). intros m Hm.
  do 2 (destruct m as [|m]; [by simplify_eq/=|]). by destruct m.
Qed.

#[export] Instance file_kind_codec_ok : CodecOk file_kind_codec.
Proof.
  apply c_enum_ok; [by intros []| |by intros []].
  intros n b Hn. rewrite <-(N2Nat.id n). generalize dependent (N.to_nat n). intros m Hm.
  do 2 (destruct m as [|m]; [by simplify_eq/=|]). by destruct m.
Qed.

Definition v1_codec : codec FileManifest :=
  c_iso (λ '(n, (s, (mi, (cs, (k, (cv, c)))))), MkManifest n s mi cs k cv c)
    (λ m, (m1_name m, (m1_size m, (m1_mime m, (m1_checksum m, (m1_file_key m,
       (m1_file_conv m, m1_chunk_count m)))))))
    (c_pair c_string (c_pair (c_uint 8) (c_pair c_string (c_pair (c_arr 32) (c_pair (c_arr 32)
      (c_pair (c_arr 32) (c_uint 4))))))).

#[export] Instance v1_codec_ok : CodecOk v1_codec.
Proof. apply c_iso_ok; [by intros []|by intros (?&?&?&?&?&?&?)|apply _]. Qed.

Definition v2_codec : codec FileManifestV2 :=
  c_iso (λ '(n, (s, (mi, (cs, (k, (fn, (cv, (sz, (c, h))))))))), MkManifestV2 n s mi cs k fn cv sz c h)
    (λ m, (m2_name m, (m2_size m, (m2_mime m, (m2_checksum m, (m2_file_key m, (m2_file_nonce m,
       (m2_file_conv m, (m2_chunk_size m, (m2_chunk_count m, m2_chunk_hashes m))))))))))
    (c_pair c_string (c_pair (c_uint 8) (c_pair c_string (c_pair (c_arr 32) (c_pair (c_arr 32)
      (c_pair (c_arr 8) (c_pair (c_arr 32) (c_pair (c_uint 4) (c_pair (c_uint 4)
        (c_vec (c_arr 32))))))))))).

#[export] Instance v2_codec_ok : CodecOk v2_codec.
Proof. apply c_iso_ok; [by intros []|by intros (?&?&?&?&?&?&?&?&?&?)|apply _]. Qed.

Definition v3_codec : codec FileManifestV3 :=
  c_iso (λ '(v, k), MkManifestV3 v k) (λ m, (m3_v2 m, m3_kind m)) (c_pair v2_codec file_kind_codec).

#[export] Instance v3_codec_ok : CodecOk v3_codec.
Proof. apply c_iso_ok; [by intros []|by intros []|apply _]. Qed.

Definition v4_codec : codec FileManifestV4 := c_iso MkManifestV4 m4_v3 v3_codec.

#[export] Instance v4_codec_ok : CodecOk v4_codec.
Proof. apply c_iso_ok; [by intros []|done|apply _]. Qed.

Definition envelope_codec : codec (MessageProtection * bytes) := c_pair protection_codec c_bytes.

Lemma v1_wf m : type_wf m ↔ cwf v1_codec m.
Proof.
  cbn -[N.of_nat N.pow u64_max u32_max]. rewrite <-u64_width, <-u32_width.
  unfold type_wf, FileManifest_wf. naive_solver.
Qed.

Lemma v2_wf m : type_wf m ↔ cwf v2_codec m.
Proof.
  cbn -[N.of_nat N.pow u64_max u32_max]. rewrite <-u64_width, <-!u32_width.
  unfold type_wf, FileManifestV2_wf. naive_solver.
Qed.

Lemma v3_wf m : type_wf m ↔ cwf v3_codec m.
Proof.
  transitivity (cwf v2_codec (m3_v2 m)); [apply v2_wf|]. cbn. naive_solver.
Qed.

Lemma v4_wf m : type_wf m ↔ cwf v4_codec m.
Proof. apply v3_wf. Qed.

#[export] Instance toy_file_codecs : FileCodecs := {|
  v1_bincode := bincode_of v1_codec;
  v2_bincode := bincode_of v2_codec;
  v3_bincode := bincode_of v3_codec;
  v4_bincode := bincode_of v4_codec;
  protected_bincode := bincode_of envelope_codec
|}.

#[export] Instance toy_file_codecs_laws : FileCodecsLaws.
Proof.
  split; first [apply bincode_of_laws; [apply _|]|apply bincode_of_strict; [apply _|]]; intros x Hx;
    first [by apply v1_wf|by apply v2_wf|by apply v3_wf|by apply v4_wf|by split|by destruct Hx].
Qed.
End FileCodec.

Module FileWitness.
Export FileCodec.

Definition photo : AnyManifest :=
  Protected Click (V3 (MkManifestV3
    (MkManifestV2 (str "cat.png") 9 (str "image/png") (repeat Byte.x01 32) (repeat Byte.x02 32)
       (repeat Byte.x03 8) (repeat Byte.x04 32) CHUNK_SIZE 1 [repeat Byte.x05 32]) Media)).

(** A protected picture comes back from behind its deadline, and from nothing longer. *)
Lemma manifest_exact_witness :
  decode_manifest (wrap (any_encode photo) (Some 7%N)) = Some photo ∧
  decode_manifest (wrap (any_encode photo ++ [Byte.x00]) (Some 7%N)) ≠ Some photo.
Proof.
  split.
  - apply (decode_manifest_exact (wrap (any_encode photo) (Some 7%N)) photo). split.
    + cbn [announced photo]. unfold type_wf, protected_wf, FileManifestV3_wf, type_wf, FileManifestV2_wf.
      split_and!; by_evaluation.
    + exists (Some 7%N). vm_compute. reflexivity.
  - intros [_ [d Hd]]%(decode_manifest_exact _ photo). revert Hd. vm_compute. discriminate.
Defined.
End FileWitness.
