(* ===== verification/Message.v ===== *)
(** * Messages and their envelopes

    Models crates/mesh-talk-core/src/node/message.rs (the body of a chat message, with its
    two framings, the protected form and the fallback to raw text), node/dm_envelope.rs
    (account-addressed messages, reactions and recalls), the payload of node/reaction.rs,
    the control frames of node/wire.rs and the call signal of node/call.rs.

    Standard Base64 is a third-party codec: [Base64Std] with its round trip.  The size
    limits given to bincode exceed the input and have no effect. *)

From S2P Require Import Prelude Text Crypto Bincode Event Expiry File.

Class Base64Std := {
  std_encode : bytes → bytes;
  std_decode : bytes → option bytes
}.

Class Base64StdLaws `{Base64Std} := {
  std_decode_encode m : std_decode (std_encode m) = Some m;
  std_encode_wf m : (N.of_nat (length m) ≤ aead_max)%N → string_wf (std_encode m)
}.

(** ** node/message.rs *)

Definition MSG_MAGIC : bytes := str "MTB1".
Definition MSG_MAGIC_V2 : bytes := str "MTB2".
Definition MTB2_V_STICKER : byte := Byte.x01.

Record MessageBody := MkBody {
  mb_protection : option MessageProtection;
  mb_text : bytes;
  mb_reply_to : option EventId;
  mb_sticker : option bytes
}.

Record ProtectedWire := MkProtectedWire {
  pw_protection : MessageProtection;
  pw_text : bytes;
  pw_reply_to : option EventId
}.

Record WireV1 := MkWireV1 { w1_text : bytes; w1_reply_to : option EventId }.

Record WireV2 := MkWireV2 {
  w2_text : bytes;
  w2_reply_to : option EventId;
  w2_sticker : option bytes
}.

(** ** node/dm_envelope.rs *)

Record DmRoute := MkRoute { sender_account : bytes; recipient_account : bytes }.

Record DmEnvelope := MkDmEnvelope { de_route : DmRoute; de_msg_id : bytes; de_body : bytes }.

Record ReactionEnvelope := MkReactionEnvelope {
  re_route : DmRoute;
  re_target : bytes;
  re_emoji : bytes;
  re_remove : bool
}.

Record RecallEnvelope := MkRecallEnvelope { rc_route : DmRoute; rc_target : bytes }.

(** ** node/reaction.rs and node/call.rs *)

Record ReactionPayload := MkReaction { rp_target : EventId; rp_emoji : bytes; rp_remove : bool }.

Record CallSignal := MkCallSignal { cl_payload : bytes }.

(** ** The values of these types *)

Definition reply_wf (r : option EventId) : Prop := ∀ e, r = Some e → length e = 32.
Definition vec_wf (v : bytes) : Prop := (N.of_nat (length v) ≤ u64_max)%N.
Definition route_wf (r : DmRoute) : Prop := string_wf (sender_account r) ∧ string_wf (recipient_account r).

#[global] Instance ProtectedWire_wf : TypeWf ProtectedWire := λ w,
  string_wf (pw_text w) ∧ reply_wf (pw_reply_to w).
#[global] Instance WireV1_wf : TypeWf WireV1 := λ w, vec_wf (w1_text w) ∧ reply_wf (w1_reply_to w).
#[global] Instance WireV2_wf : TypeWf WireV2 := λ w,
  vec_wf (w2_text w) ∧ reply_wf (w2_reply_to w) ∧ ∀ s, w2_sticker w = Some s → string_wf s.
#[global] Instance DmEnvelope_wf : TypeWf DmEnvelope := λ e,
  route_wf (de_route e) ∧ length (de_msg_id e) = 32 ∧ vec_wf (de_body e).
#[global] Instance ReactionEnvelope_wf : TypeWf ReactionEnvelope := λ e,
  route_wf (re_route e) ∧ length (re_target e) = 32 ∧ string_wf (re_emoji e).
#[global] Instance RecallEnvelope_wf : TypeWf RecallEnvelope := λ e,
  route_wf (rc_route e) ∧ length (rc_target e) = 32.
#[global] Instance ReactionPayload_wf : TypeWf ReactionPayload := λ p,
  length (rp_target p) = 32 ∧ string_wf (rp_emoji p).
#[global] Instance CallSignal_wf : TypeWf CallSignal := λ c, vec_wf (cl_payload c).

Class MessageCodecs := {
  #[global] protected_wire_bincode :: Bincode ProtectedWire;
  #[global] wire_v1_bincode :: Bincode WireV1;
  #[global] wire_v2_bincode :: Bincode WireV2;
  #[global] dm_envelope_bincode :: Bincode DmEnvelope;
  #[global] reaction_envelope_bincode :: Bincode ReactionEnvelope;
  #[global] recall_envelope_bincode :: Bincode RecallEnvelope;
  #[global] reaction_bincode :: Bincode ReactionPayload;
  #[global] call_bincode :: Bincode CallSignal
}.

Class MessageCodecsLaws `{MessageCodecs} := {
  #[global] protected_wire_laws :: BincodeLaws ProtectedWire;
  #[global] wire_v1_laws :: BincodeLaws WireV1;
  #[global] wire_v2_laws :: BincodeLaws WireV2;
  #[global] dm_envelope_laws :: BincodeLaws DmEnvelope;
  #[global] dm_envelope_strict :: BincodeStrict DmEnvelope;
  #[global] reaction_envelope_laws :: BincodeLaws ReactionEnvelope;
  #[global] reaction_envelope_strict :: BincodeStrict ReactionEnvelope;
  #[global] recall_envelope_laws :: BincodeLaws RecallEnvelope;
  #[global] recall_envelope_strict :: BincodeStrict RecallEnvelope;
  #[global] reaction_laws :: BincodeLaws ReactionPayload;
  #[global] reaction_strict :: BincodeStrict ReactionPayload;
  #[global] call_laws :: BincodeLaws CallSignal;
  #[global] call_strict :: BincodeStrict CallSignal
}.

Section message.
Context `{Base64Std, MessageCodecs}.

Definition body_new (text : bytes) (reply_to : option EventId) : MessageBody :=
  MkBody None text reply_to None.

Definition body_sticker (sticker_id fallback : bytes) : MessageBody :=
  MkBody None fallback None (Some sticker_id).

Definition body_protected (text : bytes) (reply_to : option EventId) (p : MessageProtection) : MessageBody :=
  MkBody (Some p) text reply_to None.

Definition body_encode (b : MessageBody) : bytes :=
  match mb_protection b with
  | Some p => SENTINEL ++ PROTECTED ++ ser (MkProtectedWire p (std_encode (mb_text b)) (mb_reply_to b))
  | None =>
      match mb_sticker b with
      | Some _ => MSG_MAGIC_V2 ++ [MTB2_V_STICKER] ++ ser (MkWireV2 (mb_text b) (mb_reply_to b) (mb_sticker b))
      | None => MSG_MAGIC ++ ser (MkWireV1 (mb_text b) (mb_reply_to b))
      end
  end.

Definition protected_wire (bs : bytes) : option ProtectedWire :=
  rest ← strip_prefix PROTECTED bs; de rest.

(** What is shown when nothing can be. *)
Definition body_empty : MessageBody := body_new [] None.

(** The framed forms of an unprotected body; anything else is raw text. *)
Definition decode_unprotected (bs : bytes) : MessageBody :=
  let raw := MkBody None bs None None in
  match strip_prefix MSG_MAGIC bs with
  | Some rest =>
      match de rest with
      | Some b => MkBody None (w1_text b) (w1_reply_to b) None
      | None => raw
      end
  | None =>
      match strip_prefix MSG_MAGIC_V2 bs with
      | Some (version :: body) =>
          if decide (version = MTB2_V_STICKER) then
            match de body with
            | Some b => MkBody None (w2_text b) (w2_reply_to b) (w2_sticker b)
            | None => raw
            end
          else raw
      | _ => raw
      end
  end.

Definition decode_revealed (bs : bytes) : MessageBody :=
  let protected := starts_with SENTINEL bs in
  match Expiry.split bs with
  | None => body_empty
  | Some (_, bs) =>
      if protected then
        match protected_wire bs with
        | None => body_empty
        | Some body =>
            match std_decode (pw_text body) with
            | Some text => body_protected text (pw_reply_to body) (pw_protection body)
            | None => body_empty
            end
        end
      else decode_unprotected bs
  end.

Definition conceal (b : MessageBody) : MessageBody :=
  match mb_protection b with
  | Some _ => MkBody (mb_protection b) [] (mb_reply_to b) (mb_sticker b)
  | None => b
  end.

Definition body_decode (bs : bytes) : MessageBody := conceal (decode_revealed bs).

(** ** Envelopes *)

Definition DM_ENV_MAGIC : bytes := str "MTDE1".
Definition REACT_ENV_MAGIC : bytes := str "MTRE1".
Definition RECALL_ENV_MAGIC : bytes := str "MTRC1".
Definition MAX_ENVELOPE : N := 256 * 1024.

Definition dm_envelope_encode (e : DmEnvelope) : bytes := DM_ENV_MAGIC ++ ser e.

Definition dm_envelope_decode (bs : bytes) : option DmEnvelope :=
  if decide (MAX_ENVELOPE < N.of_nat (length bs))%N then None else
  rest ← strip_prefix DM_ENV_MAGIC bs; de rest.

Definition reaction_envelope_encode (e : ReactionEnvelope) : bytes := REACT_ENV_MAGIC ++ ser e.
Definition reaction_envelope_decode (bs : bytes) : option ReactionEnvelope :=
  rest ← strip_prefix REACT_ENV_MAGIC bs; de rest.

Definition recall_envelope_encode (e : RecallEnvelope) : bytes := RECALL_ENV_MAGIC ++ ser e.
Definition recall_envelope_decode (bs : bytes) : option RecallEnvelope :=
  rest ← strip_prefix RECALL_ENV_MAGIC bs; de rest.

Definition reaction_encode (p : ReactionPayload) : bytes := ser p.
Definition reaction_decode (bs : bytes) : option ReactionPayload := de bs.

(** ** Control frames *)

Definition MAX_WIRE_FRAME : N := 65535.

Definition control_frame `{Bincode A} (magic : bytes) (v : A) : bytes := magic ++ ser v.

Definition unframe `{Bincode A} (magic bs : bytes) : option A :=
  if decide (MAX_WIRE_FRAME < N.of_nat (length bs))%N then None else
  rest ← strip_prefix magic bs; de rest.

Definition CALL_MAGIC : bytes := str "MTCS1".
Definition call_encode (c : CallSignal) : bytes := control_frame CALL_MAGIC c.
Definition call_decode (bs : bytes) : option CallSignal := unframe CALL_MAGIC bs.
End message.

(** ** Messages come back *)

(** A body a sender can build: a protected body has no sticker. *)
Definition sendable (b : MessageBody) : Prop :=
  reply_wf (mb_reply_to b) ∧
  match mb_protection b with
  | Some _ => mb_sticker b = None ∧ (N.of_nat (length (mb_text b)) ≤ aead_max)%N
  | None => vec_wf (mb_text b) ∧ ∀ s, mb_sticker b = Some s → string_wf s
  end.

Lemma magic_not_deadline magic rest :
  length magic = 4 → magic ≠ take 4 EXP_MAGIC → starts_with EXP_MAGIC (magic ++ rest) = false.
Proof.
  intros Hl Hne. apply bool_decide_eq_false. intros He. apply Hne. rewrite <-He.
  rewrite take_take, take_app_length' by done. done.
Qed.

Section messages.
Context `{Base64StdLaws, MessageCodecsLaws}.

Lemma unprotected_roundtrip b :
  sendable b → mb_protection b = None →
  starts_with EXP_MAGIC (body_encode b) = false ∧ body_encode b ≠ [] ∧
  decode_unprotected (body_encode b) = b.
Proof.
  destruct b as [p text reply sticker]. intros [Hr Hp] E. cbn in *. subst p. destruct Hp as [Ht Hs].
  unfold body_encode. cbn [mb_protection mb_sticker mb_text mb_reply_to].
  destruct sticker as [s|]; split_and!; try (by apply magic_not_deadline); try done; unfold decode_unprotected.
  - rewrite (proj2 (strip_prefix_None _ _)) by (apply bool_decide_eq_false; done).
    rewrite strip_prefix_app. cbn [app]. rewrite decide_True by done.
    rewrite de_ser; [done|]. split_and!; [done..|]. by intros s' [= <-]; apply Hs.
  - rewrite strip_prefix_app. by rewrite de_ser.
Qed.

Lemma sentinel_not_wrapped d body :
  deadline_ok d → starts_with EXP_MAGIC body = false → starts_with SENTINEL (wrap body d) = false.
Proof.
  intros Hd Hb. unfold wrap. destruct d as [t|].
  - rewrite plain_no_sentinel by done. apply bool_decide_eq_false. intros He.
    assert (le_bytes 8 t = repeat Byte.x00 8) as Hz.
    { apply (f_equal (drop 5)) in He. change (drop 5 SENTINEL) with (repeat Byte.x00 8) in He. rewrite <-He.
      rewrite skipn_firstn_comm. change (length SENTINEL - 5) with 8.
      change (drop 5 (EXP_MAGIC ++ le_bytes 8 t ++ body)) with (le_bytes 8 t ++ body).
      by rewrite take_app_length' by (by rewrite length_le_bytes). }
    apply (f_equal le_value) in Hz. rewrite u64_bytes in Hz by apply Hd.
    change (le_value (repeat Byte.x00 8)) with 0%N in Hz. destruct Hd. lia.
  - apply bool_decide_eq_false. intros He. apply bool_decide_eq_false in Hb. apply Hb.
    apply (f_equal (take 5)) in He. by rewrite take_take in He.
Qed.

(** C20: A chat message arrives as it was written: whatever its form — text, reply, sticker
    or protected text — and whatever deadline the sender put on it, revealing the received
    plaintext gives the sent body back, and the ordinary view gives the same body with the
    text of a protected one removed. *)
Theorem message_roundtrip d b :
  deadline_ok d → sendable b →
  decode_revealed (wrap (body_encode b) d) = b ∧ body_decode (wrap (body_encode b) d) = conceal b.
Proof.
  intros Hd Hb. assert (decode_revealed (wrap (body_encode b) d) = b) as Hr.
  2:{ unfold body_decode. by rewrite Hr. }
  unfold decode_revealed. destruct (mb_protection b) as [p|] eqn:Hp.
  - assert (body_encode b = SENTINEL ++ PROTECTED ++ ser (MkProtectedWire p (std_encode (mb_text b)) (mb_reply_to b)))
      as -> by (unfold body_encode; by rewrite Hp).
    rewrite split_protected by (done || apply starts_with_app).
    assert (∀ c, starts_with SENTINEL (wrap (SENTINEL ++ c) d) = true) as ->.
    { intros c. destruct d as [t|]; cbn [wrap]; [rewrite strip_prefix_app|]; apply starts_with_app. }
    unfold protected_wire. rewrite strip_prefix_app. cbn [mbind option_bind].
    destruct Hb as [Hre Hb]. rewrite Hp in Hb. destruct Hb as [Hs Ht].
    rewrite de_ser by (split; [by apply std_encode_wf|done]). cbn [pw_text pw_reply_to pw_protection].
    rewrite std_decode_encode. destruct b; cbn in *; by subst.
  - destruct (unprotected_roundtrip b Hb Hp) as (Hm & Hne & Hdec).
    by rewrite split_plain, sentinel_not_wrapped.
Qed.
End messages.

Section closed.
Context `{Base64Std, MessageCodecs}.

(** Behind the sentinel nothing is shown. *)
Lemma sentinel_hides wire : starts_with SENTINEL wire = true → mb_text (body_decode wire) = [].
Proof.
  intros Hs. unfold body_decode, decode_revealed. rewrite Hs. destruct (Expiry.split wire) as [[d bs]|]; [|done].
  destruct (protected_wire bs) as [w|]; [|done]. by destruct (std_decode (pw_text w)).
Qed.

Lemma unsplit_hides wire : Expiry.split wire = None → mb_text (decode_revealed wire) = [].
Proof. intros Hs. unfold decode_revealed. by rewrite Hs. Qed.

Lemma take_sentinel k c :
  5 ≤ k → k < 13 → Expiry.split (take k (SENTINEL ++ c)) = None.
Proof.
  intros Hlo Hhi. assert (take k (SENTINEL ++ c) = EXP_MAGIC ++ repeat Byte.x00 (k - 5)) as ->.
  { do 13 (destruct k as [|k]; [lia || done|]). lia. }
  unfold Expiry.split. rewrite strip_prefix_app. unfold split_at_checked.
  by rewrite decide_False by (rewrite repeat_length; lia).
Qed.

(** C21: Protected text fails closed: the ordinary view of any bytes behind the sentinel shows
    no text; a sender's protected message cut short anywhere beyond the frame's magic shows
    none either, with or without a deadline; and a peer that hides a protected message under
    an ordinary deadline gets nothing shown, not even by revealing it. *)
Theorem protected_fails_closed p text reply d t k wire :
  deadline_ok d → 5 ≤ k → (0 < t ≤ u64_max)%N →
  let sent := body_encode (body_protected text reply p) in
  (starts_with SENTINEL wire = true → mb_text (body_decode wire) = []) ∧
  mb_text (body_decode (take k (wrap sent d))) = [] ∧
  mb_text (decode_revealed (EXP_MAGIC ++ le_bytes 8 t ++ sent)) = [].
Proof.
  intros Hd Hk Ht sent. split; [apply sentinel_hides|].
  assert (∃ c, sent = SENTINEL ++ c) as [c Hc] by (by eexists). split.
  - assert (∃ c', wrap sent d = SENTINEL ++ c') as [c' ->].
    { rewrite Hc. destruct d as [x|]; cbn [wrap]; [rewrite strip_prefix_app|]; by eexists. }
    destruct (decide (k < 13)) as [Hlt|Hge].
    + pose proof (unsplit_hides _ (take_sentinel k c' Hk Hlt)) as Hn. unfold body_decode, conceal.
      by destruct (mb_protection _).
    + apply sentinel_hides. rewrite take_app_ge by (cbn; lia). apply starts_with_app.
  - apply unsplit_hides. rewrite Hc. unfold Expiry.split. rewrite strip_prefix_app.
    rewrite split_at_checked_app by apply length_le_bytes. cbn [mbind option_bind].
    rewrite u64_bytes, decide_False by lia. rewrite decide_False by done.
    unfold SENTINEL. rewrite <-(assoc_L (++)). by rewrite starts_with_app.
Qed.
End closed.

(** ** Envelopes and control frames *)

(** A magic-prefixed value is read exactly from its own encoding. *)
Lemma prefixed_exact `{TypeWf A, Bincode A, !BincodeLaws A, !BincodeStrict A} magic bs (v : A) :
  (rest ← strip_prefix magic bs; de rest) = Some v ↔ type_wf v ∧ bs = magic ++ ser v.
Proof.
  split.
  - destruct (strip_prefix magic bs) as [rest|] eqn:E; [|done]. cbn [mbind option_bind].
    apply strip_prefix_Some in E as ->. intros [Hv <-]%de_strict. done.
  - intros [Hv ->]. rewrite strip_prefix_app. cbn [mbind option_bind]. by apply de_ser.
Qed.

Lemma unframe_exact `{TypeWf A, Bincode A, !BincodeLaws A, !BincodeStrict A} magic bs (v : A) :
  unframe magic bs = Some v ↔
  type_wf v ∧ bs = control_frame magic v ∧ (N.of_nat (length bs) ≤ MAX_WIRE_FRAME)%N.
Proof.
  unfold unframe. case_decide as Hl.
  - split; [done|]. intros (_ & _ & ?). lia.
  - rewrite prefixed_exact. unfold control_frame. split; [intros []; split_and!; [done..|lia]|naive_solver].
Qed.

Section envelopes.
Context `{Base64StdLaws, MessageCodecsLaws}.

(** Each reader accepts exactly what its writer produces, within the size limits. *)
Lemma envelopes_exact bs :
  (∀ e, dm_envelope_decode bs = Some e ↔
     type_wf e ∧ bs = dm_envelope_encode e ∧ (N.of_nat (length bs) ≤ MAX_ENVELOPE)%N) ∧
  (∀ e, reaction_envelope_decode bs = Some e ↔ type_wf e ∧ bs = reaction_envelope_encode e) ∧
  (∀ e, recall_envelope_decode bs = Some e ↔ type_wf e ∧ bs = recall_envelope_encode e) ∧
  (∀ c, call_decode bs = Some c ↔
     type_wf c ∧ bs = call_encode c ∧ (N.of_nat (length bs) ≤ MAX_WIRE_FRAME)%N).
Proof.
  split_and!; intros e; try apply prefixed_exact; [|apply unframe_exact].
  unfold dm_envelope_decode. case_decide as Hl.
  - split; [done|]. intros (_ & _ & ?). lia.
  - rewrite prefixed_exact. unfold dm_envelope_encode. split; [intros []; split_and!; [done..|lia]|naive_solver].
Qed.

(** A device-addressed message is never read as an account-addressed one. *)
Lemma body_not_envelope d b : dm_envelope_decode (wrap (body_encode b) d) = None.
Proof.
  unfold dm_envelope_decode. case_decide; [done|].
  rewrite (proj2 (strip_prefix_None _ _)); [done|]. apply bool_decide_eq_false.
  unfold body_encode, wrap. destruct d as [t|]; [destruct (strip_prefix _ _); done|].
  by destruct (mb_protection b), (mb_sticker b).
Qed.
End envelopes.

(** ** A concrete instance *)

Module MessageCodec.
Export Fixint FileCodec.

Definition half (n : N) : byte := byte_of_N (65 + n).

(** Two letters a byte. *)
Definition letters (m : bytes) : bytes := m ≫= λ b, [half (Byte.to_N b / 16); half (Byte.to_N b mod 16)]%N.

Fixpoint unletter (s : bytes) : option bytes :=
  match s with
  | [] => Some []
  | a :: b :: s =>
      rest ← unletter s; Some (byte_of_N (16 * (Byte.to_N a - 65) + (Byte.to_N b - 65)) :: rest)%N
  | _ => None
  end.

Lemma letters_cons b m :
  letters (b :: m) = half (Byte.to_N b / 16) :: half (Byte.to_N b mod 16) :: letters m.
Proof. done. Qed.

Lemma to_N_half n : (n < 16)%N → Byte.to_N (half n) = (65 + n)%N.
Proof. intros Hn. apply to_N_byte_of_N. lia. Qed.

Lemma halves b : (Byte.to_N b / 16 < 16 ∧ Byte.to_N b mod 16 < 16)%N.
Proof. apply ToyCrypto.byte_split. Qed.

#[export] Instance toy_base64_std : Base64Std := {| std_encode := letters; std_decode := unletter |}.

#[export] Instance toy_base64_std_laws : Base64StdLaws.
Proof.
  split; cbn [std_encode std_decode toy_base64_std].
  - induction m as [|b m IH]; [done|]. rewrite letters_cons. cbn [unletter]. rewrite IH.
    cbn [mbind option_bind].
    destruct (halves b). rewrite !to_N_half by done. pose proof (N.div_mod' (Byte.to_N b) 16) as Hdm.
    rewrite !(N.add_comm 65), !N.add_sub. by rewrite <-Hdm, byte_of_N_to_N.
  - intros m Hm. assert (Forall (λ b, (Byte.to_N b < 128)%N) (letters m) ∧ length (letters m) = 2 * length m) as [Ha Hl].
    { clear Hm. induction m as [|b m [IHa IHl]]; [done|]. rewrite letters_cons. cbn [length].
      destruct (halves b). split; [|by rewrite IHl; lia].
      do 2 (constructor; [rewrite to_N_half by done; lia|]). done. }
    split; [by apply ascii_utf8|]. rewrite Hl. unfold aead_max, u64_max in *. lia.
Qed.

Definition reply_codec : codec (option EventId) := c_option (c_arr 32).

Definition protected_wire_codec : codec ProtectedWire :=
  c_iso (λ '(p, (t, r)), MkProtectedWire p t r) (λ w, (pw_protection w, (pw_text w, pw_reply_to w)))
    (c_pair protection_codec (c_pair c_string reply_codec)).
#[export] Instance protected_wire_codec_ok : CodecOk protected_wire_codec.
Proof. apply c_iso_ok; [by intros []|by intros (?&?&?)|apply _]. Qed.

Definition wire_v1_codec : codec WireV1 :=
  c_iso (λ '(t, r), MkWireV1 t r) (λ w, (w1_text w, w1_reply_to w)) (c_pair c_bytes reply_codec).
#[export] Instance wire_v1_codec_ok : CodecOk wire_v1_codec.
Proof. apply c_iso_ok; [by intros []|by intros []|apply _]. Qed.

Definition wire_v2_codec : codec WireV2 :=
  c_iso (λ '(t, (r, s)), MkWireV2 t r s) (λ w, (w2_text w, (w2_reply_to w, w2_sticker w)))
    (c_pair c_bytes (c_pair reply_codec (c_option c_string))).
#[export] Instance wire_v2_codec_ok : CodecOk wire_v2_codec.
Proof. apply c_iso_ok; [by intros []|by intros (?&?&?)|apply _]. Qed.

Definition route_codec : codec DmRoute :=
  c_iso (λ '(s, r), MkRoute s r) (λ r, (sender_account r, recipient_account r)) (c_pair c_string c_string).
#[export] Instance route_codec_ok : CodecOk route_codec.
Proof. apply c_iso_ok; [by intros []|by intros []|apply _]. Qed.

Definition dm_envelope_codec : codec DmEnvelope :=
  c_iso (λ '(r, (i, b)), MkDmEnvelope r i b) (λ e, (de_route e, (de_msg_id e, de_body e)))
    (c_pair route_codec (c_pair (c_arr 32) c_bytes)).
#[export] Instance dm_envelope_codec_ok : CodecOk dm_envelope_codec.
Proof. apply c_iso_ok; [by intros []|by intros (?&?&?)|apply _]. Qed.

Definition reaction_envelope_codec : codec ReactionEnvelope :=
  c_iso (λ '(r, (t, (e, d))), MkReactionEnvelope r t e d)
    (λ e, (re_route e, (re_target e, (re_emoji e, re_remove e))))
    (c_pair route_codec (c_pair (c_arr 32) (c_pair c_string c_bool))).
#[export] Instance reaction_envelope_codec_ok : CodecOk reaction_envelope_codec.
Proof. apply c_iso_ok; [by intros []|by intros (?&?&?&?)|apply _]. Qed.

Definition recall_envelope_codec : codec RecallEnvelope :=
  c_iso (λ '(r, t), MkRecallEnvelope r t) (λ e, (rc_route e, rc_target e)) (c_pair route_codec (c_arr 32)).
#[export] Instance recall_envelope_codec_ok : CodecOk recall_envelope_codec.
Proof. apply c_iso_ok; [by intros []|by intros []|apply _]. Qed.

Definition reaction_codec : codec ReactionPayload :=
  c_iso (λ '(t, (e, d)), MkReaction t e d) (λ p, (rp_target p, (rp_emoji p, rp_remove p)))
    (c_pair (c_arr 32) (c_pair c_string c_bool)).
#[export] Instance reaction_codec_ok : CodecOk reaction_codec.
Proof. apply c_iso_ok; [by intros []|by intros (?&?&?)|apply _]. Qed.

Definition call_codec : codec CallSignal := c_iso MkCallSignal cl_payload c_bytes.
#[export] Instance call_codec_ok : CodecOk call_codec.
Proof. apply c_iso_ok; [by intros []|done|apply _]. Qed.

#[export] Instance toy_message_codecs : MessageCodecs := {|
  protected_wire_bincode := bincode_of protected_wire_codec;
  wire_v1_bincode := bincode_of wire_v1_codec;
  wire_v2_bincode := bincode_of wire_v2_codec;
  dm_envelope_bincode := bincode_of dm_envelope_codec;
  reaction_envelope_bincode := bincode_of reaction_envelope_codec;
  recall_envelope_bincode := bincode_of recall_envelope_codec;
  reaction_bincode := bincode_of reaction_codec;
  call_bincode := bincode_of call_codec
|}.

Lemma reply_cwf r : reply_wf r ↔ cwf reply_codec r.
Proof. destruct r as [e|]; unfold reply_wf; cbn; naive_solver. Qed.

Lemma sticker_cwf (o : option bytes) : (∀ s, o = Some s → string_wf s) ↔ cwf (c_option c_string) o.
Proof. destruct o; cbn; naive_solver. Qed.

Lemma wire_v2_cwf w : type_wf w ↔ cwf wire_v2_codec w.
Proof.
  unfold type_wf, WireV2_wf, vec_wf. rewrite reply_cwf, sticker_cwf. done.
Qed.

#[export] Instance toy_message_codecs_laws : MessageCodecsLaws.
Proof.
  split; first [apply bincode_of_laws; [apply _|]|apply bincode_of_strict; [apply _|]]; intros x Hx.
  - destruct Hx as [? ?%reply_cwf]. by split.
  - destruct Hx as [? ?%reply_cwf]. by split.
  - by apply wire_v2_cwf.
  - by destruct Hx as ([] & ? & ?).
  - by destruct Hx as ([] & ? & ?).
  - by destruct Hx as ([] & ? & ?).
  - by destruct Hx as ([] & ? & ? & ?).
  - by destruct Hx as ([] & ?).
  - by destruct Hx as ([] & ?).
  - by destruct Hx.
  - by destruct Hx as (? & ? & ?).
  - done.
  - done.
Qed.
End MessageCodec.

Module BodyWitness.
Import MessageCodec.

Definition secret : MessageBody := body_protected (str "meet at noon") (Some (repeat Byte.x07 32)) Click.

Lemma message_roundtrip_witness :
  decode_revealed (wrap (body_encode secret) (Some 1700000300000%N)) = secret ∧
  mb_text (body_decode (wrap (body_encode secret) (Some 1700000300000%N))) = [].
Proof.
  destruct (message_roundtrip (Some 1700000300000%N) secret) as [Hr Hc].
  - by split.
  - split; [by intros e [= <-]|]. split; [done|]. by vm_compute.
  - split; [exact Hr|]. rewrite Hc. reflexivity.
Defined.

Lemma fails_closed_witness :
  mb_text (body_decode (take 40 (wrap (body_encode secret) None))) = [].
Proof.
  destruct (protected_fails_closed Click (str "meet at noon") (Some (repeat Byte.x07 32)) None 1 40 [])
    as (_ & Hcut & _).
  - exact I.
  - lia.
  - by vm_compute.
  - exact Hcut.
Defined.
End BodyWitness.
