(* ===== verification/Savename.v ===== *)
(** * Names and paths of received files

    Models crates/mesh-talk-core/src/util/savename.rs: a remote-supplied name is
    reduced to one legal path component and placed under a directory without
    leaving it and without overwriting.  A string is its UTF-8 bytes; the operations
    that work on characters go through [chars] and [encode_str].  A path is the bytes
    of its Unix form; [components], [join] and [strip_prefix] of [std::path] are
    modelled on them.  The files that exist are a finite set of paths. *)

From S2P Require Import Prelude Text.

(** Code points of the literals of the source. *)
Definition DOT : N := 46.
Definition SPACE : N := 32.
Definition SLASH : N := 47.
Definition BACKSLASH : N := 92.
Definition UNDERSCORE : N := 95.

(** ** Strings *)

Fixpoint drop_while {A} (P : A → bool) (l : list A) : list A :=
  match l with
  | [] => []
  | a :: l' => if P a then drop_while P l' else l
  end.

Fixpoint take_while {A} (P : A → bool) (l : list A) : list A :=
  match l with
  | [] => []
  | a :: l' => if P a then a :: take_while P l' else []
  end.

(** [str::trim_end_matches] and [str::trim]. *)
Definition trim_end (P : N → bool) (cs : list N) : list N := reverse (drop_while P (reverse cs)).
Definition trim (cs : list N) : list N := trim_end is_whitespace (drop_while is_whitespace cs).

(** [s.rsplit(['/', '\\']).next()]: what follows the last separator. *)
Definition is_separator (c : N) : bool := bool_decide (c = SLASH ∨ c = BACKSLASH).
Definition last_segment (cs : list N) : list N :=
  reverse (take_while (λ c, negb (is_separator c)) (reverse cs)).

(** [char::to_ascii_uppercase]. *)
Definition to_ascii_uppercase (c : N) : N :=
  if decide (97 ≤ c ≤ 122)%N then (c - 32)%N else c.

(** [str::rfind] of a one-byte character: its byte index. *)
Fixpoint rfind (b : byte) (s : bytes) : option nat :=
  match s with
  | [] => None
  | a :: s =>
      match rfind b s with
      | Some i => Some (S i)
      | None => if decide (a = b) then Some 0 else None
      end
  end.

Definition is_char_boundary (s : bytes) (i : nat) : bool :=
  bool_decide (i = 0) || bool_decide (i = length s) ||
  match s !! i with Some b => negb (is_continuation b) | None => false end.

(** ** util/savename.rs: names *)

Definition is_illegal_char (c : N) : bool :=
  bool_decide (c ∈ [SLASH; BACKSLASH; 58; 42; 63; 34; 60; 62; 124]%N) || bool_decide (c < 32)%N.

(** The device names Windows reserves, compared in upper case before the first dot. *)
Definition reserved_stems : list bytes :=
  str <$> ["CON"; "PRN"; "AUX"; "NUL"; "CONIN$"; "CONOUT$"]%string.

Definition reserved_digits : list bytes :=
  (str <$> ["0"; "1"; "2"; "3"; "4"; "5"; "6"; "7"; "8"; "9"]%string) ++
  (encode_char <$> [185; 178; 179]%N).

Definition is_reserved (cleaned : list N) : bool :=
  let stem := encode_str (to_ascii_uppercase <$> take_while (λ c, negb (c =? DOT)%N) cleaned) in
  let reserved_port :=
    match
      match strip_prefix (str "COM") stem with
      | Some digit => Some digit
      | None => strip_prefix (str "LPT") stem
      end
    with
    | Some digit => bool_decide (digit ∈ reserved_digits)
    | None => false
    end in
  bool_decide (stem ∈ reserved_stems) || reserved_port.

Definition split_ext (name : bytes) : bytes * bytes :=
  match rfind (byte_of_N DOT) name with
  | Some i => if decide (0 < i) then (take i name, drop i name) else (name, [])
  | None => (name, [])
  end.

(** The [while] loop of [floor_char_boundary]. *)
Fixpoint floor_boundary (s : bytes) (end_ : nat) : nat :=
  match end_ with
  | O => O
  | S e => if is_char_boundary s end_ then end_ else floor_boundary s e
  end.

Definition floor_char_boundary (s : bytes) (max : nat) : bytes :=
  if decide (length s ≤ max) then s else take (floor_boundary s max) s.

Definition truncate_keeping_ext (name : bytes) (max : nat) : bytes :=
  let '(stem, ext) := split_ext name in
  if decide (ext ≠ [] ∧ length ext + 1 < max) then
    let keep := max - length ext in
    floor_char_boundary stem keep ++ ext
  else floor_char_boundary name max.

Definition MAX_NAME : nat := 200.

Definition sanitize_filename (raw : bytes) : bytes :=
  let tail := trim (last_segment (chars raw)) in
  if decide (tail = [] ∨ tail = [DOT] ∨ tail = [DOT; DOT]) then str "file" else
  let cleaned := (λ c, if is_illegal_char c then UNDERSCORE else c) <$> tail in
  let trimmed := trim_end (λ c, bool_decide (c = SPACE ∨ c = DOT)) cleaned in
  let cleaned := if decide (length trimmed ≠ length cleaned) then trimmed else cleaned in
  if decide (cleaned = []) then str "file" else
  let cleaned := if is_reserved cleaned then UNDERSCORE :: cleaned else cleaned in
  let name := encode_str cleaned in
  if decide (MAX_NAME < length name) then truncate_keeping_ext name MAX_NAME else name.

Definition is_ascii_digit (b : byte) : bool := (48 <=? Byte.to_N b)%N && (Byte.to_N b <=? 57)%N.

(** The [while] loop of [strip_counter]: from [i] back over the digits. *)
Fixpoint walk_digits (s : bytes) (i : nat) (saw_digit : bool) : nat * bool :=
  match i with
  | O => (O, saw_digit)
  | S j =>
      match s !! i with
      | Some b => if is_ascii_digit b then walk_digits s j true else (i, saw_digit)
      | None => (i, saw_digit)
      end
  end.

Definition strip_counter (stem : bytes) : bytes :=
  if decide (last stem ≠ Some (byte_of_N 41)) then stem else
  let i := length stem - 1 in
  if decide (i = 0) then stem else
  let '(i, saw_digit) := walk_digits stem (i - 1) false in
  if decide (saw_digit = true ∧ stem !! i = Some (byte_of_N 40) ∧ 1 ≤ i ∧
             stem !! (i - 1) = Some (byte_of_N SPACE))
  then take (i - 1) stem else stem.

Definition with_counter (name : bytes) (n : N) : bytes :=
  let '(stem, ext) := split_ext name in
  let base := strip_counter stem in
  base ++ str " (" ++ decimal n ++ str ")" ++ ext.

(** ** Paths *)

Inductive Component := RootDir | CurDir | ParentDir | Normal (s : bytes).

#[global] Instance Component_eq_dec : EqDecision Component.
Proof. solve_decision. Defined.

Definition SEP : byte := byte_of_N SLASH.

(** The parts of a path between separators. *)
Fixpoint segments (p : bytes) : list bytes :=
  match p with
  | [] => [[]]
  | b :: p =>
      if decide (b = SEP) then [] :: segments p
      else match segments p with
           | seg :: segs => (b :: seg) :: segs
           | [] => [[b]]
           end
  end.

(** Empty parts and [.] are skipped. *)
Definition component_of (seg : bytes) : option Component :=
  if decide (seg = [] ∨ seg = str ".") then None
  else if decide (seg = str "..") then Some ParentDir
  else Some (Normal seg).

(** [Path::components]: a leading separator is the root; a leading [.] is kept. *)
Definition components (p : bytes) : list Component :=
  (if starts_with [SEP] p then [RootDir]
   else if decide (head (segments p) = Some (str ".")) then [CurDir] else []) ++
  omap component_of (segments p).

(** [Path::join]. *)
Definition join (dir name : bytes) : bytes :=
  if starts_with [SEP] name then name
  else match last dir with
       | Some b => if decide (b = SEP) then dir ++ name else dir ++ SEP :: name
       | None => name
       end.

(** [Path::strip_prefix], on components. *)
Fixpoint strip_components (dir path : list Component) : option (list Component) :=
  match dir, path with
  | [], _ => Some path
  | d :: dir, p :: path => if decide (d = p) then strip_components dir path else None
  | _ :: _, [] => None
  end.

Definition is_within (dir path : bytes) : bool :=
  match strip_components (components dir) (components path) with
  | None => false
  | Some rel => forallb (λ c, match c with Normal _ => true | _ => false end) rel
  end.

(** The [for] loop of [safe_save_path] from [n] on.  The fuel bounds the rounds by the
    number of existing files; [save_loop_finds] shows it is enough. *)
Fixpoint save_loop (existing : gset bytes) (dir name : bytes) (fuel : nat) (n : N) :
    option bytes :=
  match fuel with
  | O => None
  | S fuel =>
      if decide (u32_max < n)%N then None else
      let alt := join dir (with_counter name n) in
      if negb (is_within dir alt) then None
      else if bool_decide (alt ∈ existing) then save_loop existing dir name fuel (n + 1)
      else Some alt
  end.

Definition safe_save_path (existing : gset bytes) (dir raw_name : bytes) : option bytes :=
  let name := sanitize_filename raw_name in
  let candidate := join dir name in
  if negb (is_within dir candidate) then None
  else if bool_decide (candidate ∈ existing)
  then save_loop existing dir name (S (size existing)) 1
  else Some candidate.

(** ** Character boundaries *)

Lemma is_continuation_high n : is_continuation (byte_of_N (128 + n mod 64)) = true.
Proof. apply is_continuation_tail. Qed.

Lemma encode_char_tail c i b : encode_char c !! S i = Some b → is_continuation b = true.
Proof.
  unfold encode_char. repeat case_decide;
    do 4 (destruct i as [|i]; [cbn; intros [= <-] || (intros; done); by apply is_continuation_high|]);
    done.
Qed.

Lemma encode_char_head c b :
  scalar c → encode_char c !! 0 = Some b → is_continuation b = false.
Proof.
  intros Hc. unfold encode_char, is_continuation. rewrite andb_false_iff, N.leb_gt, N.ltb_ge.
 
  assert (c < 1114112)%N by (unfold scalar in Hc; lia).
  repeat case_decide; cbn; intros [= <-]; rewrite to_N_byte_of_N by divmod; divmod.
Qed.

Lemma length_encode_char_le c : length (encode_char c) ≤ 4.
Proof. unfold encode_char. repeat case_decide; simpl; lia. Qed.

Lemma boundary_inside c s i :
  0 < i < length (encode_char c) → is_char_boundary (encode_char c ++ s) i = false.
Proof.
  intros Hi. unfold is_char_boundary. rewrite length_app, !bool_decide_eq_false_2 by lia.
  destruct (lookup_lt_is_Some_2 (encode_char c) i) as [b Hb]; [lia|].
  rewrite lookup_app_l, Hb by lia. destruct i as [|i]; [lia|].
  by rewrite (encode_char_tail c i b).
Qed.

Lemma boundary_after (a s : bytes) i :
  is_char_boundary (a ++ s) (length a + i) = true → is_char_boundary s i = true.
Proof.
  unfold is_char_boundary. rewrite length_app, lookup_app_r by lia.
  replace (length a + i - length a) with i by lia. rewrite !orb_true_iff, !bool_decide_eq_true.
  intros [[?|?]|?]; [left; left; lia|left; right; lia|by right].
Qed.

Lemma utf8_boundary s i :
  utf8 s → is_char_boundary s i = true → utf8 (take i s) ∧ utf8 (drop i s).
Proof.
  intros (cs & Hcs & ->). revert i. induction Hcs as [|c cs Hc Hcs IH]; intros i Hi.
  - unfold encode_str. cbn [mbind list_bind]. rewrite take_nil, drop_nil. split; by exists [].
  - unfold encode_str in *. cbn [mbind list_bind] in *.
    destruct (decide (i = 0)) as [->|].
    { rewrite take_0, drop_0. split; [by exists []|]. exists (c :: cs). split; [by constructor|done]. }
    destruct (decide (i < length (encode_char c))) as [Hlt|Hge].
    { rewrite boundary_inside in Hi by lia. done. }
    replace i with (length (encode_char c) + (i - length (encode_char c))) in * by lia.
    apply boundary_after in Hi. apply IH in Hi as [Ht Hd].
    rewrite take_app_add, drop_app_add. split; [|done].
    apply utf8_app; [|done]. exists [c]. split; [by apply Forall_singleton|]. unfold encode_str. cbn.
    by rewrite app_nil_r.
Qed.

(** A boundary is at most three bytes away. *)
Lemma boundary_near s i :
  utf8 s → i ≤ length s → ∃ j, i - 3 ≤ j ≤ i ∧ is_char_boundary s j = true.
Proof.
  intros (cs & Hcs & ->). revert i. induction Hcs as [|c cs Hc Hcs IH]; intros i Hi.
  - unfold encode_str in *. cbn in *. exists 0. split; [lia|done].
  - unfold encode_str in *. cbn [mbind list_bind] in *. pose proof (length_encode_char_le c) as H4.
    destruct (decide (i < length (encode_char c))) as [Hlt|Hge]; [exists 0; split; [lia|done]|].
    rewrite length_app in Hi. destruct (IH (i - length (encode_char c))) as (j & Hj & Hb); [lia|].
    exists (length (encode_char c) + j). split; [lia|]. revert Hb. unfold is_char_boundary.
    rewrite length_app, lookup_app_r by lia.
    replace (length (encode_char c) + j - length (encode_char c)) with j by lia.
    rewrite !orb_true_iff, !bool_decide_eq_true. intros [[->|?]|?]; [|left; right; lia|by right].
    rewrite Nat.add_0_r. destruct Hcs as [|d cs Hd Hcs].
    + left. right. cbn. lia.
    + right. cbn [mbind list_bind].
      destruct (lookup_lt_is_Some_2 (encode_char d) 0) as [b Hb]; [apply length_encode_char|].
      rewrite lookup_app_l, Hb by apply length_encode_char.
      by rewrite (encode_char_head d b).
Qed.

Lemma floor_boundary_spec s max :
  floor_boundary s max ≤ max ∧ is_char_boundary s (floor_boundary s max) = true ∧
  ∀ j, j ≤ max → is_char_boundary s j = true → j ≤ floor_boundary s max.
Proof.
  induction max as [|max (IH1 & IH2 & IH3)]; cbn [floor_boundary].
  - split_and!; [done..|lia].
  - destruct (is_char_boundary s (S max)) eqn:Hb; [by split_and!|].
    split_and!; [lia|done|]. intros j Hj Hjb. apply IH3; [|done].
    destruct (decide (j = S max)) as [->|]; [congruence|lia].
Qed.

Lemma floor_char_boundary_utf8 s max : utf8 s → utf8 (floor_char_boundary s max).
Proof.
  intros Hs. unfold floor_char_boundary. case_decide; [done|].
  apply utf8_boundary; [done|]. apply floor_boundary_spec.
Qed.

Lemma length_floor_char_boundary s max : length (floor_char_boundary s max) ≤ max.
Proof.
  unfold floor_char_boundary. case_decide; [done|]. rewrite length_take.
  pose proof (floor_boundary_spec s max). lia.
Qed.

(** ** Extensions and counters *)

Lemma rfind_Some b s i :
  rfind b s = Some i → s !! i = Some b ∧ ∀ j, i < j → s !! j ≠ Some b.
Proof.
  revert i. induction s as [|a s IH]; intros i; [done|]. cbn [rfind].
  destruct (rfind b s) as [k|] eqn:E.
  - intros [= <-]. destruct (IH k eq_refl) as [Hk Hl]. split; [done|].
    intros [|j] Hj; [lia|]. apply Hl. lia.
  - case_decide as Ha; [|done]. intros [= <-]. split; [by rewrite Ha|].
    assert (∀ s, rfind b s = None → ∀ j, s !! j ≠ Some b) as Hnone.
    { clear. intros s. induction s as [|a s IH]; [done|]. cbn [rfind].
      destruct (rfind b s) eqn:E; [done|]. case_decide; [done|].
      intros _ [|j]; [cbn; congruence|]. by apply IH. }
    intros [|j] Hj; [lia|]. exact (Hnone s E j).
Qed.

(** An ASCII byte starts a character. *)
Lemma ascii_boundary s i b :
  s !! i = Some b → (Byte.to_N b < 128)%N → is_char_boundary s i = true.
Proof.
  intros Hb Hlt. unfold is_char_boundary. rewrite Hb. apply orb_true_iff. right.
  unfold is_continuation. apply negb_true_iff, andb_false_iff. left. apply N.leb_gt. lia.
Qed.

Lemma split_ext_app name : (split_ext name).1 ++ (split_ext name).2 = name.
Proof.
  unfold split_ext. destruct (rfind _ _); [|by rewrite app_nil_r].
  case_decide; [apply take_drop|by rewrite app_nil_r].
Qed.

Lemma split_ext_utf8 name : utf8 name → utf8 (split_ext name).1 ∧ utf8 (split_ext name).2.
Proof.
  intros Hn. assert (utf8 []) as H0 by by exists []. unfold split_ext.
  destruct (rfind _ name) as [i|] eqn:E; [|done]. case_decide; [|done]. cbn [fst snd].
  apply rfind_Some in E as [Hi _]. apply utf8_boundary; [done|]. by eapply ascii_boundary.
Qed.

Lemma strip_counter_cases stem :
  strip_counter stem = stem ∨
  ∃ i, strip_counter stem = take i stem ∧ stem !! i = Some (byte_of_N SPACE).
Proof.
  unfold strip_counter. repeat case_decide; auto. destruct (walk_digits _ _ _) as [i saw].
  case_decide as Hc; [|by left]. right. exists (i - 1). naive_solver.
Qed.

Lemma strip_counter_utf8 stem : utf8 stem → utf8 (strip_counter stem).
Proof.
  intros Hs. destruct (strip_counter_cases stem) as [->|(i & -> & Hi)]; [done|].
  apply utf8_boundary; [done|]. by eapply ascii_boundary.
Qed.

(** ** Legal names *)

Definition legal_byte (b : byte) : Prop := is_illegal_char (Byte.to_N b) = false.

(** One path component on every supported system: a non-empty string without
    separators, control characters or characters Windows forbids, and not a
    directory reference. *)
Definition name_ok (f : bytes) : Prop :=
  utf8 f ∧ f ≠ [] ∧ f ≠ str "." ∧ f ≠ str ".." ∧ Forall legal_byte f.

Lemma legal_high c : (128 ≤ c)%N → is_illegal_char c = false.
Proof.
  intros Hc. apply orb_false_iff. rewrite !bool_decide_eq_false. split; [|lia].
  unfold SLASH, BACKSLASH. rewrite !not_elem_of_cons. split_and!; try lia. apply not_elem_of_nil.
Qed.

Lemma encode_char_legal c :
  scalar c → is_illegal_char c = false → Forall legal_byte (encode_char c).
Proof.
  intros Hs Hc. assert (c < 1114112)%N by (unfold scalar in Hs; lia).
  unfold encode_char, legal_byte. repeat case_decide; repeat constructor;
    rewrite to_N_byte_of_N by divmod; try done; apply legal_high; divmod.
Qed.

Lemma encode_str_legal cs :
  Forall scalar cs → Forall (λ c, is_illegal_char c = false) cs → Forall legal_byte (encode_str cs).
Proof.
  intros Hs Hl. unfold encode_str. induction cs as [|c cs IH]; [constructor|].
  inversion_clear Hs. inversion_clear Hl. cbn [mbind list_bind]. apply Forall_app.
  split; [by apply encode_char_legal|by apply IH].
Qed.

Lemma encode_str_inj cs ds :
  Forall scalar cs → Forall scalar ds → encode_str cs = encode_str ds → cs = ds.
Proof. intros Hc Hd E. apply (f_equal chars) in E. by rewrite !chars_encode in E. Qed.

Lemma encode_str_nil cs : encode_str cs = [] → cs = [].
Proof.
  destruct cs as [|c cs]; [done|]. unfold encode_str. cbn [mbind list_bind].
  intros [Hc _]%app_nil. by apply encode_char_ne in Hc.
Qed.

(** ** Characters of the cleaned name *)

Lemma drop_while_suffix {A} (P : A → bool) l : drop_while P l `suffix_of` l.
Proof.
  induction l as [|a l IH]; [done|]. cbn [drop_while]. destruct (P a); [|done].
  by apply suffix_cons_r.
Qed.

Lemma drop_while_head {A} (P : A → bool) l a : head (drop_while P l) = Some a → P a = false.
Proof.
  induction l as [|b l IH]; [done|]. cbn [drop_while]. destruct (P b) eqn:Hb; [done|].
  by intros [= <-].
Qed.

Lemma trim_end_prefix P cs : trim_end P cs `prefix_of` cs.
Proof.
  destruct (drop_while_suffix P (reverse cs)) as [k Hk]. exists (reverse k). unfold trim_end.
  by rewrite <-reverse_app, <-Hk, reverse_involutive.
Qed.

Lemma trim_end_last P cs c : last (trim_end P cs) = Some c → P c = false.
Proof. unfold trim_end. rewrite last_reverse. apply drop_while_head. Qed.

Lemma take_while_prefix {A} (P : A → bool) l : take_while P l `prefix_of` l.
Proof.
  induction l as [|a l IH]; [done|]. cbn [take_while]. destruct (P a); [|apply prefix_nil].
  by apply prefix_cons.
Qed.

Lemma last_segment_scalar cs : Forall scalar cs → Forall scalar (last_segment cs).
Proof.
  intros Hcs. unfold last_segment. rewrite Forall_reverse. destruct
    (take_while_prefix (λ c, negb (is_separator c)) (reverse cs)) as [k Hk].
  apply Forall_reverse in Hcs. rewrite Hk in Hcs. by apply Forall_app in Hcs as [? _].
Qed.

Lemma trim_scalar cs : Forall scalar cs → Forall scalar (trim cs).
Proof.
  intros Hcs. unfold trim. destruct (trim_end_prefix is_whitespace (drop_while is_whitespace cs))
    as [k Hk]. destruct (drop_while_suffix is_whitespace cs) as [k' Hk'].
  rewrite Hk' in Hcs. apply Forall_app in Hcs as [_ Hcs]. rewrite Hk in Hcs.
  by apply Forall_app in Hcs as [? _].
Qed.

(** The characters the sanitized name is made of, before it is cut to size. *)
Definition cleaned_chars (cs : list N) : Prop :=
  Forall scalar cs ∧ Forall (λ c, is_illegal_char c = false) cs ∧ cs ≠ [] ∧
  last cs ≠ Some DOT ∧ last cs ≠ Some SPACE.

Lemma cleaned_chars_ok tail :
  Forall scalar tail →
  let cleaned := trim_end (λ c, bool_decide (c = SPACE ∨ c = DOT))
    ((λ c, if is_illegal_char c then UNDERSCORE else c) <$> tail) in
  cleaned ≠ [] → cleaned_chars cleaned.
Proof.
  intros Ht cleaned Hne. set (mapped := (λ c, _) <$> tail) in *.
  assert (Forall scalar mapped ∧ Forall (λ c, is_illegal_char c = false) mapped) as [Hs Hl].
  { split; apply Forall_fmap; eapply Forall_impl; [exact Ht| |exact Ht|]; intros c Hc; cbn;
      destruct (is_illegal_char c) eqn:E; done || (left; done). }
  destruct (trim_end_prefix (λ c, bool_decide (c = SPACE ∨ c = DOT)) mapped) as [k Hk].
  fold cleaned in Hk. rewrite Hk in Hs, Hl. apply Forall_app in Hs as [Hs _].
  apply Forall_app in Hl as [Hl _]. split_and!; try done;
    intros Hlast%trim_end_last; by apply bool_decide_eq_false in Hlast; naive_solver.
Qed.

Lemma trim_end_length P cs :
  (if decide (length (trim_end P cs) ≠ length cs) then trim_end P cs else cs) = trim_end P cs.
Proof.
  case_decide as Hl; [done|]. destruct (trim_end_prefix P cs) as [k Hk].
  assert (length cs = length (trim_end P cs) + length k) as Hc by (rewrite <-length_app; by f_equal).
  destruct k; [by rewrite app_nil_r in Hk|simpl in Hc; lia].
Qed.

Lemma cleaned_underscore cs : cleaned_chars cs → cleaned_chars (UNDERSCORE :: cs).
Proof.
  intros (Hs & Hl & Hne & Hd & Hsp). split_and!; try done.
  - constructor; [by left|done].
  - by constructor.
  - destruct cs; [done|by rewrite last_cons_cons].
  - destruct cs; [done|by rewrite last_cons_cons].
Qed.

(** No reserved name starts with an underscore. *)
Lemma is_reserved_underscore cs : is_reserved (UNDERSCORE :: cs) = false.
Proof.
  unfold is_reserved.
  change (encode_str (to_ascii_uppercase <$> take_while _ (UNDERSCORE :: cs))) with
    (Byte.x5f :: encode_str (to_ascii_uppercase <$> take_while (λ c, negb (c =? DOT)%N) cs)).
  generalize (encode_str (to_ascii_uppercase <$> take_while (λ c, negb (c =? DOT)%N) cs)).
  intros s. apply orb_false_iff. split; [|done]. apply bool_decide_eq_false. intros Hin.
  repeat (apply elem_of_cons in Hin as [Hin|Hin]; [discriminate|]). by apply not_elem_of_nil in Hin.
Qed.

(** The sanitized name is ["file"] or the encoding of cleaned characters, cut to
    size; uncut, it is not a reserved device name. *)
Lemma sanitize_cases raw :
  utf8 raw →
  sanitize_filename raw = str "file" ∨
  ∃ cs, cleaned_chars cs ∧ is_reserved cs = false ∧
    sanitize_filename raw =
      if decide (MAX_NAME < length (encode_str cs))
      then truncate_keeping_ext (encode_str cs) MAX_NAME else encode_str cs.
Proof.
  intros (rs & Hrs & ->). unfold sanitize_filename. rewrite chars_encode by done.
  assert (Forall scalar (trim (last_segment rs))) as Ht
    by by apply trim_scalar, last_segment_scalar.
  case_decide; [by left|]. rewrite trim_end_length. case_decide as Hne; [by left|]. right.
  pose proof (cleaned_chars_ok _ Ht Hne) as Hok.
  set (cleaned := trim_end _ _) in *. destruct (is_reserved cleaned) eqn:Hr.
  - exists (UNDERSCORE :: cleaned). split_and!; [by apply cleaned_underscore|apply is_reserved_underscore|done].
  - by exists cleaned.
Qed.

Lemma cleaned_name_ok cs : cleaned_chars cs → name_ok (encode_str cs).
Proof.
  intros (Hs & Hl & Hne & Hd & _). split_and!.
  - by exists cs.
  - by intros ->%encode_str_nil.
  - change (str ".") with (encode_str [DOT]). intros ->%encode_str_inj; [done|done|].
    by apply Forall_singleton; left.
  - change (str "..") with (encode_str [DOT; DOT]). intros ->%encode_str_inj; [done|done|].
    by repeat (constructor; [by left|]).
  - by apply encode_str_legal.
Qed.

(** The last byte of a cleaned name is not a dot. *)
Lemma cleaned_last cs : cleaned_chars cs → last (encode_str cs) ≠ Some (byte_of_N DOT).
Proof.
  intros (Hs & _ & Hne & Hd & _) Hl. destruct (last cs) as [c|] eqn:Hc; [|by apply last_None in Hc].
  apply last_Some in Hc as [cs' ->]. apply Forall_app in Hs as [Hs' Hc].
  rewrite Forall_singleton in Hc.
  rewrite encode_str_app, last_app in Hl. unfold encode_str at 1 in Hl. cbn [mbind list_bind] in Hl.
  rewrite app_nil_r in Hl. unfold encode_char in Hl. assert (c < 1114112)%N by (unfold scalar in Hc; lia).
  repeat case_decide; cbn -[N.div N.modulo N.add] in Hl;
    injection Hl as Hl; apply (f_equal Byte.to_N) in Hl;
    rewrite ?to_N_tail, ?to_N_byte_of_N in Hl by (done || lia);
    change (Byte.to_N "."%byte) with 46%N in Hl; [by rewrite Hl in Hd|divmod..].
Qed.

Lemma dotted_last (f : bytes) : last f ≠ Some (byte_of_N DOT) → f ≠ str "." ∧ f ≠ str "..".
Proof. intros Hl. split; intros ->; by apply Hl. Qed.

Lemma truncate_name_ok cs :
  cleaned_chars cs → MAX_NAME < length (encode_str cs) →
  name_ok (truncate_keeping_ext (encode_str cs) MAX_NAME) ∧
  length (truncate_keeping_ext (encode_str cs) MAX_NAME) ≤ MAX_NAME.
Proof.
  intros Hok Hlen. destruct (cleaned_name_ok cs Hok) as (Hu & Hne & _ & _ & Hl).
  pose proof (cleaned_last cs Hok) as Hlast. unfold truncate_keeping_ext.
  pose proof (split_ext_app (encode_str cs)) as Happ.
  destruct (split_ext_utf8 _ Hu) as [Hus Hue].
  destruct (split_ext (encode_str cs)) as [stem ext]. cbn [fst snd] in *. case_decide as Hx.
  - destruct Hx as [Hx Hk]. split.
    + rewrite <-Happ in Hl, Hlast. apply Forall_app in Hl as [Hls Hle].
      assert (last (floor_char_boundary stem (MAX_NAME - length ext) ++ ext) ≠
        Some (byte_of_N DOT)) as Hd.
      { rewrite last_app in *. destruct (last ext) eqn:E; [done|]. by apply last_None in E. }
      apply dotted_last in Hd as [Hd1 Hd2]. split_and!; try done.
      * apply utf8_app; [|done]. by apply floor_char_boundary_utf8.
      * by intros [_ ?]%app_nil.
      * apply Forall_app. split; [|done]. unfold floor_char_boundary. case_decide; [done|].
        by apply Forall_take.
    + rewrite length_app. pose proof (length_floor_char_boundary stem (MAX_NAME - length ext)). lia.
  - split; [|apply length_floor_char_boundary].
    assert (197 ≤ length (floor_char_boundary (encode_str cs) MAX_NAME)) as H197.
    { unfold floor_char_boundary. rewrite decide_False by lia. rewrite length_take.
      destruct (boundary_near (encode_str cs) MAX_NAME Hu) as (j & Hj & Hb); [lia|].
      destruct (floor_boundary_spec (encode_str cs) MAX_NAME) as (_ & _ & Hmax).
      specialize (Hmax j ltac:(lia) Hb). unfold MAX_NAME in *. lia. }
    split_and!; [by apply floor_char_boundary_utf8|intros E; rewrite E in H197; cbn in H197; lia..|].
    unfold floor_char_boundary. case_decide; [done|]. by apply Forall_take.
Qed.

Lemma sanitize_ok raw :
  utf8 raw → name_ok (sanitize_filename raw) ∧ length (sanitize_filename raw) ≤ MAX_NAME.
Proof.
  intros Hr. destruct (sanitize_cases raw Hr) as [->|(cs & Hok & _ & ->)].
  - split; [|cbn; unfold MAX_NAME; lia]. split_and!; try done; [by apply (bool_decide_unpack _)|].
    by repeat constructor.
  - case_decide; [by apply truncate_name_ok|]. split; [by apply cleaned_name_ok|lia].
Qed.

(** ** Counters *)

Lemma str_cons c s : str (String c s) = Ascii.byte_of_ascii c :: str s.
Proof. done. Qed.

Lemma str_inj s t : str s = str t → s = t.
Proof.
  intros E. apply (f_equal String.string_of_list_byte) in E. unfold str in E.
  by rewrite !String.string_of_list_byte_of_string in E.
Qed.

Lemma decimal_inj n m : decimal n = decimal m → n = m.
Proof. intros E%str_inj. by apply (inj pretty). Qed.

Lemma digit_char x : is_ascii_digit (Ascii.byte_of_ascii (pretty_N_char x)) = true.
Proof. unfold pretty_N_char. by repeat case_match. Qed.

Lemma decimal_digits n : Forall (λ b, is_ascii_digit b = true) (decimal n).
Proof.
  unfold decimal, pretty, pretty_N. case_decide as Hn; [by repeat constructor|]. clear Hn.
  cut (∀ s, Forall (λ b, is_ascii_digit b = true) (str s) →
    Forall (λ b, is_ascii_digit b = true) (str (pretty_N_go n s))); [intros Hs; by apply Hs|].
  induction (N.lt_wf_0 n) as [x _ IH]; intros s Hs.
  destruct (decide (x = 0%N)) as [->|]; [by rewrite pretty_N_go_0|].
  rewrite pretty_N_go_step by lia. apply IH; [apply N.div_lt; lia|].
  rewrite str_cons. constructor; [apply digit_char|done].
Qed.

Lemma digit_legal b : is_ascii_digit b = true → legal_byte b ∧ (Byte.to_N b < 128)%N.
Proof.
  unfold is_ascii_digit, legal_byte. rewrite andb_true_iff, !N.leb_le. intros Hb. split; [|lia].
  apply orb_false_iff. rewrite !bool_decide_eq_false. split; [|lia].
  unfold SLASH, BACKSLASH. rewrite !not_elem_of_cons. split_and!; try lia. apply not_elem_of_nil.
Qed.

Lemma decimal_ok n : utf8 (decimal n) ∧ Forall legal_byte (decimal n).
Proof.
  pose proof (decimal_digits n) as Hd. split; [apply ascii_utf8|];
    (eapply Forall_impl; [exact Hd|]); by intros b [? ?]%digit_legal.
Qed.

Lemma with_counter_ok name n : name_ok name → name_ok (with_counter name n).
Proof.
  intros (Hu & Hne & _ & _ & Hl). destruct (decimal_ok n) as [Hdu Hdl].
  unfold with_counter. pose proof (split_ext_app name) as Happ.
  destruct (split_ext_utf8 name Hu) as [Hus Hue].
  destruct (split_ext name) as [stem ext]. cbn [fst snd] in *.
  rewrite <-Happ in Hl. apply Forall_app in Hl as [Hls Hle].
  assert (4 ≤ length (strip_counter stem ++ str " (" ++ decimal n ++ str ")" ++ ext) ∨
    decimal n = []) as [Hlen|Hnil].
  { rewrite !length_app. destruct (decimal n) as [|b l]; [by right|]. left. cbn. lia. }
  2:{ exfalso. assert (pretty n = ""%string) as Hp by by apply str_inj.
      unfold pretty, pretty_N in Hp. case_decide as Hn; [done|].
      rewrite pretty_N_go_step in Hp by lia.
      assert (∀ x s, pretty_N_go x s = ""%string → s = ""%string) as Hgo.
      { intros x. induction (N.lt_wf_0 x) as [x _ IH]. intros s.
        destruct (decide (x = 0%N)) as [->|]; [done|]. rewrite pretty_N_go_step by lia.
        intros Hx. apply IH in Hx; [done|apply N.div_lt; lia]. }
      by apply Hgo in Hp. }
  split_and!; try (intros E; rewrite E in Hlen; cbn in Hlen; lia).
  - repeat apply utf8_app; [by apply strip_counter_utf8|by apply (bool_decide_unpack _)|done| |done].
    by apply (bool_decide_unpack _).
  - rewrite !Forall_app. split_and!; [|by repeat constructor|done|by repeat constructor|done].
    destruct (strip_counter_cases stem) as [->|(i & -> & _)]; [done|by apply Forall_take].
Qed.

Lemma with_counter_inj name n m : with_counter name n = with_counter name m → n = m.
Proof.
  unfold with_counter. destruct (split_ext name) as [stem ext]. rewrite !app_inv_head_iff.
  rewrite !(assoc_L (++)). rewrite !app_inv_tail_iff. apply decimal_inj.
Qed.

(** ** Paths under a directory *)

Lemma segments_ne p : segments p ≠ [].
Proof. destruct p as [|b p]; [done|]. cbn [segments]. case_decide; [done|]. by destruct (segments p). Qed.

Lemma segments_app p q : segments (p ++ SEP :: q) = segments p ++ segments q.
Proof.
  induction p as [|b p IH]; cbn [app segments]; [by rewrite decide_True|].
  case_decide; [by rewrite IH|]. rewrite IH. pose proof (segments_ne p).
  by destruct (segments p).
Qed.

Lemma segments_single f : SEP ∉ f → segments f = [f].
Proof.
  induction f as [|b f IH]; [done|]. intros [Hb Hf]%not_elem_of_cons. cbn [segments].
  rewrite decide_False by congruence. by rewrite IH.
Qed.

Lemma name_ok_sep f : name_ok f → SEP ∉ f.
Proof.
  intros (_ & _ & _ & _ & Hl) Hin. rewrite Forall_forall in Hl. by apply Hl in Hin.
Qed.

Lemma name_ok_component f : name_ok f → component_of f = Some (Normal f).
Proof.
  intros (_ & H0 & H1 & H2 & _). unfold component_of. rewrite !decide_False by naive_solver. done.
Qed.

Lemma name_ok_relative f : name_ok f → starts_with [SEP] f = false.
Proof.
  intros Hf. apply not_true_is_false. intros [r ->]%starts_with_true.
  apply (name_ok_sep _ Hf). set_solver.
Qed.

Lemma starts_with_head (b : byte) (p q : bytes) :
  p ≠ [] → starts_with [b] (p ++ q) = starts_with [b] p.
Proof. by destruct p. Qed.

Lemma components_under p f :
  p ≠ [] → name_ok f → components (p ++ SEP :: f) = components p ++ [Normal f].
Proof.
  intros Hp Hf. unfold components.
  rewrite starts_with_head, segments_app, omap_app, (segments_single f) by
    (done || by apply name_ok_sep).
  cbn [omap list_omap]. rewrite name_ok_component, app_assoc by done. do 3 f_equal.
  case_match; [done|]. pose proof (segments_ne p). by destruct (segments p).
Qed.

Lemma components_trailing p : p ≠ [] → components (p ++ [SEP]) = components p.
Proof.
  intros Hp. unfold components. rewrite starts_with_head, segments_app, omap_app by done.
  rewrite app_nil_r. f_equal. case_match; [done|]. pose proof (segments_ne p).
  by destruct (segments p).
Qed.

(** A legal name under a directory adds exactly itself to the path. *)
Lemma components_join dir f : name_ok f → components (join dir f) = components dir ++ [Normal f].
Proof.
  intros Hf. unfold join. rewrite name_ok_relative by done.
  destruct (last dir) as [b|] eqn:Hl.
  - apply last_Some in Hl as [p ->]. case_decide as Hb.
    + rewrite Hb, <-app_assoc. cbn [app]. destruct p as [|a p].
      * unfold components. rewrite (segments_app [] f : segments (_ ++ _) = _).
        rewrite (segments_single f) by by apply name_ok_sep. rewrite omap_app.
        change (omap component_of [f]) with (match component_of f with Some c => [c] | None => [] end).
        by rewrite (name_ok_component f).
      * rewrite components_under, components_trailing by done. done.
    + apply components_under; [|done]. by destruct p.
  - apply last_None in Hl as ->. unfold components.
    rewrite name_ok_relative, segments_single by (done || by apply name_ok_sep).
    cbn [omap list_omap head]. rewrite name_ok_component by done.
    destruct Hf as (_ & _ & Hd & _). rewrite decide_False by congruence. done.
Qed.

Lemma strip_components_app dir rest : strip_components dir (dir ++ rest) = Some rest.
Proof. induction dir as [|d dir IH]; [done|]. cbn. by rewrite decide_True. Qed.

Lemma is_within_join dir f : name_ok f → is_within dir (join dir f) = true.
Proof.
  intros Hf. unfold is_within. by rewrite components_join, strip_components_app.
Qed.

Lemma join_inj dir f g : name_ok f → name_ok g → join dir f = join dir g → f = g.
Proof.
  intros Hf Hg. unfold join. rewrite !name_ok_relative by done.
  destruct (last dir); [case_decide|done]; intros E; apply app_inv_head in E; congruence.
Qed.

(** ** The search for a free name *)

Section search.
Context (existing : gset bytes) (dir name : bytes).
Context (Hname : name_ok name).

Definition numbered (n : N) : bytes := join dir (with_counter name n).

Lemma numbered_inj n m : numbered n = numbered m → n = m.
Proof.
  intros E. apply join_inj in E; [|by apply with_counter_ok..]. by apply with_counter_inj in E.
Qed.

Lemma save_loop_None fuel n :
  (n + N.of_nat fuel ≤ u32_max + 1)%N → save_loop existing dir name fuel n = None →
  ∀ k, k < fuel → numbered (n + N.of_nat k) ∈ existing.
Proof.
  revert n. induction fuel as [|fuel IH]; intros n Hn; [lia|]. cbn [save_loop].
  rewrite decide_False by lia. rewrite is_within_join by by apply with_counter_ok. cbn [negb].
  destruct (bool_decide _) eqn:Hin; [|done]. apply bool_decide_eq_true in Hin.
  intros Hnone [|k] Hk; [by rewrite N.add_0_r|].
  replace (n + N.of_nat (S k))%N with (n + 1 + N.of_nat k)%N by lia.
  apply IH; [lia|done|lia].
Qed.

Lemma save_loop_Some fuel n p :
  save_loop existing dir name fuel n = Some p → (p ∉ existing) ∧ ∃ m, p = numbered m.
Proof.
  revert n. induction fuel as [|fuel IH]; intros n; [done|]. cbn [save_loop].
  case_decide; [done|]. destruct (negb _); [done|]. destruct (bool_decide _) eqn:Hin; [apply IH|].
  intros [= <-]. apply bool_decide_eq_false in Hin. eauto.
Qed.

(** One candidate more than there are files: one of them is free. *)
Lemma save_loop_finds :
  (N.of_nat (size existing) < u32_max)%N →
  is_Some (save_loop existing dir name (S (size existing)) 1).
Proof.
  intros Hs. destruct (save_loop _ _ _ _ _) as [p|] eqn:E; [by exists p|]. exfalso.
  pose proof (save_loop_None (S (size existing)) 1 ltac:(lia) E) as Hall.
  set (names := (λ k, numbered (1 + N.of_nat k)) <$> seq 0 (S (size existing))).
  assert (NoDup names) as Hnd.
  { apply NoDup_fmap_2_strong; [|apply NoDup_seq]. intros j k _ _ Hjk%numbered_inj. lia. }
  assert (list_to_set names ⊆ existing) as Hsub.
  { intros x (k & -> & Hk)%elem_of_list_to_set%list_elem_of_fmap. apply Hall.
    apply elem_of_seq in Hk. lia. }
  apply subseteq_size in Hsub. rewrite size_list_to_set in Hsub by done.
  unfold names in Hsub. rewrite length_fmap, length_seq in Hsub. lia.
Qed.
End search.

(** C17: A received file lands inside the chosen directory and overwrites nothing: for
    any remote-supplied name and any directory with room for a name, the save path
    exists, is the directory's path plus one single legal component (non-empty, no
    separator, control or forbidden character, no directory reference), and does not
    name an existing file. *)
Theorem save_path_safe existing dir raw :
  utf8 raw → (N.of_nat (size existing) < u32_max)%N →
  ∃ p f, safe_save_path existing dir raw = Some p ∧ (p ∉ existing) ∧
    name_ok f ∧ components p = components dir ++ [Normal f].
Proof.
  intros Hr Hs. destruct (sanitize_ok raw Hr) as [Hok _]. unfold safe_save_path.
  rewrite is_within_join by done. cbn [negb].
  destruct (bool_decide _) eqn:Hin.
  - destruct (save_loop_finds existing dir _ Hok Hs) as [p Hp]. rewrite Hp.
    destruct (save_loop_Some _ _ _ _ _ _ Hp) as [Hfree [m ->]].
    exists (numbered dir (sanitize_filename raw) m), (with_counter (sanitize_filename raw) m).
    split_and!; [done|done|by apply with_counter_ok|].
    by apply components_join, with_counter_ok.
  - apply bool_decide_eq_false in Hin. exists (join dir (sanitize_filename raw)),
      (sanitize_filename raw). split_and!; [done..|by apply components_join].
Qed.

(** C39: Sanitizing is total on strings and returns one: cutting a name to size, keeping
    its extension and inserting a counter always slice at character boundaries, so the
    results are valid UTF-8, and the sanitized name has at most 200 bytes. *)
Theorem sanitize_filename_typed raw n :
  utf8 raw →
  utf8 (sanitize_filename raw) ∧ length (sanitize_filename raw) ≤ MAX_NAME ∧
  utf8 (with_counter (sanitize_filename raw) n).
Proof.
  intros Hr. destruct (sanitize_ok raw Hr) as [Hok Hlen].
  pose proof (with_counter_ok _ n Hok) as [? _]. by destruct Hok as [? _].
Qed.

(** A cut name keeps at least 197 bytes. *)
Lemma length_truncate cs :
  cleaned_chars cs → MAX_NAME < length (encode_str cs) →
  197 ≤ length (truncate_keeping_ext (encode_str cs) MAX_NAME).
Proof.
  intros Hok Hlen. destruct (cleaned_name_ok cs Hok) as (Hu & _).
  assert (∀ s m, utf8 s → m ≤ MAX_NAME → m < length s → m - 3 ≤ length (floor_char_boundary s m))
    as Hfl.
  { intros s m Hs Hm Hl. unfold floor_char_boundary. rewrite decide_False, length_take by lia.
    destruct (boundary_near s m Hs) as (j & Hj & Hb); [lia|].
    destruct (floor_boundary_spec s m) as (_ & _ & Hmax). specialize (Hmax j ltac:(lia) Hb). lia. }
  unfold truncate_keeping_ext. pose proof (split_ext_app (encode_str cs)) as Happ.
  destruct (split_ext_utf8 _ Hu) as [Hus _].
  destruct (split_ext (encode_str cs)) as [stem ext]. cbn [fst snd] in *.
  rewrite <-Happ, length_app in Hlen. case_decide as Hx.
  - rewrite length_app. pose proof (Hfl stem (MAX_NAME - length ext) Hus ltac:(lia) ltac:(lia)).
    unfold MAX_NAME in *. lia.
  - rewrite <-Happ in Hu |- *. pose proof (Hfl _ MAX_NAME Hu ltac:(lia)
      ltac:(rewrite length_app; lia)). unfold MAX_NAME in *. lia.
Qed.

(** A name that is not cut to size is no reserved device name and does not end in a
    dot or a space. *)
Lemma sanitize_portable raw :
  utf8 raw → length (sanitize_filename raw) < 197 →
  is_reserved (chars (sanitize_filename raw)) = false ∧
  last (chars (sanitize_filename raw)) ≠ Some DOT ∧ last (chars (sanitize_filename raw)) ≠ Some SPACE.
Proof.
  intros Hr. destruct (sanitize_cases raw Hr) as [->|(cs & Hok & Hres & ->)]; [done|].
  case_decide as Hc; [pose proof (length_truncate cs Hok Hc); lia|]. intros _.
  destruct Hok as (Hs & _ & _ & Hd & Hsp). by rewrite chars_encode.
Qed.

Module SavenameWitness.
(** [../../.ssh/authorized keys] into a directory that has the file and its first
    numbered copy. *)
Definition remote : bytes := str "../../.ssh/authorized keys.txt".
Definition downloads : bytes := str "/home/me/".
Definition present : gset bytes :=
  {[ str "/home/me/authorized keys.txt"; str "/home/me/authorized keys (1).txt" ]}.

Lemma save_path_witness :
  utf8 remote ∧ safe_save_path present downloads remote =
    Some (str "/home/me/authorized keys (2).txt") ∧
  ∃ p f, safe_save_path present downloads remote = Some p ∧ (p ∉ present) ∧
    name_ok f ∧ components p = components downloads ++ [Normal f].
Proof.
  assert (utf8 remote) as Hu by (apply (bool_decide_unpack _); vm_compute; done).
  split_and!; [done|by vm_compute|]. apply (save_path_safe present downloads remote Hu).
  by vm_compute.
Defined.

Lemma sanitize_typed_witness :
  utf8 remote ∧ utf8 (sanitize_filename remote) ∧ length (sanitize_filename remote) ≤ MAX_NAME ∧
  utf8 (with_counter (sanitize_filename remote) 7).
Proof.
  assert (utf8 remote) as Hu by (apply (bool_decide_unpack _); vm_compute; done).
  split; [done|]. exact (sanitize_filename_typed remote 7 Hu).
Defined.

(** The check for reserved names comes before the cut to size, and the cut can bring a
    reserved name back: a name of 201 bytes whose stem is [CONA] is cut to the stem
    [CON]. *)
Definition long_device : bytes := str "CONA." ++ repeat (byte_of_N 120) 196.

Lemma truncation_reserves :
  utf8 long_device ∧ is_reserved (chars long_device) = false ∧
  is_reserved (chars (sanitize_filename long_device)) = true.
Proof. split; [apply (bool_decide_unpack _)|]; by vm_compute. Qed.

(** Likewise the cut can leave a trailing dot behind. *)
Definition long_extension : bytes :=
  repeat (byte_of_N 120) 199 ++ str "." ++ repeat (byte_of_N 120) 199.

Lemma truncation_trailing_dot :
  last (chars long_extension) ≠ Some DOT ∧
  last (chars (sanitize_filename long_extension)) = Some DOT.
Proof. by vm_compute. Qed.
End SavenameWitness.
