(* ===== verification/Sticker.v ===== *)
(** * Sticker metadata and validation

    Models crates/mesh-talk-core/src/file/sticker.rs: the presentation metadata a
    sticker carries in its file name, the admission check of its manifest and the
    bounds every decoded image must stay within.  The base64 and image crates are
    parameters: [Base64] is [URL_SAFE_NO_PAD], [ImageCodec] opens a decoder for a
    format and tells what it found. *)

From S2P Require Import Prelude Text.

Class Base64 := {
  b64_encode : bytes → bytes;
  b64_decode : bytes → option bytes
}.

Inductive ImageFormat := Png | Jpeg | WebP | Gif | OtherFormat.

#[global] Instance ImageFormat_eq_dec : EqDecision ImageFormat.
Proof. solve_decision. Defined.

(** What the image crate reports of one input: canvas size, whether it is an
    animation, the frames of an animation in order (each with its size or a decoding
    error), the size of the decoded still image and whether it decodes. *)
Record Decoder := MkDecoder {
  d_dimensions : N * N;
  d_animated : result bytes bool;
  d_frames : result bytes (list (result bytes (N * N)));
  d_total_bytes : N;
  d_read : result bytes ()
}.

Class ImageCodec := {
  guess_format : bytes → result bytes ImageFormat;
  open_decoder : ImageFormat → bytes → result bytes Decoder
}.

Record StickerMetadata := MkSticker {
  sm_id : bytes;
  sm_fallback : bytes;
  sm_label : option bytes
}.

Definition MAX_STICKER_BYTES : N := 3 * 1024 * 1024.
Definition PREFIX_V1 : bytes := str "mt-sticker-v1-".
Definition PREFIX_V2 : bytes := str "mt-sticker-v2-".
Definition MAX_PIXELS : N := 16000000.
Definition MAX_ANIMATION_PIXELS : N := 64000000.
Definition MAX_FRAMES : N := 256.
Definition MAX_DECODE_BYTES : N := 64 * 1024 * 1024.

Definition is_sticker_name (name : bytes) : bool :=
  starts_with PREFIX_V1 name || starts_with PREFIX_V2 name.

(** [split_once] and [rsplit_once] on a single element. *)
Fixpoint split_once {A} `{EqDecision A} (a : A) (l : list A) : option (list A * list A) :=
  match l with
  | [] => None
  | b :: l =>
      if decide (b = a) then Some ([], l)
      else '(x, y) ← split_once a l; Some (b :: x, y)
  end.

Definition rsplit_once {A} `{EqDecision A} (a : A) (l : list A) : option (list A * list A) :=
  '(y, x) ← split_once a (reverse l); Some (reverse x, reverse y).

Definition expected_format (name : bytes) : option (ImageFormat * bytes) :=
  '(_, ext) ← rsplit_once (byte_of_N 46) name;
  if decide (ext = str "png") then Some (Png, str "image/png")
  else if decide (ext = str "jpg") then Some (Jpeg, str "image/jpeg")
  else if decide (ext = str "webp") then Some (WebP, str "image/webp")
  else if decide (ext = str "gif") then Some (Gif, str "image/gif")
  else None.

(** Characters a label must not have: controls and bidirectional marks. *)
Definition label_refused (c : N) : bool :=
  is_control c ||
  bool_decide (c ∈ [1564; 8206; 8207; 65279]%N) ||
  ((8234 <=? c)%N && (c <=? 8238)%N) || ((8294 <=? c)%N && (c <=? 8297)%N).

(** [label.trim() != label], on characters. *)
Definition untrimmed (cs : list N) : bool :=
  match cs with
  | [] => false
  | c :: _ => is_whitespace c || match last cs with Some d => is_whitespace d | None => false end
  end.

(** [c.is_ascii_lowercase() || c.is_ascii_digit() || b"_:.-".contains(&c)]. *)
Definition id_byte (b : byte) : bool :=
  let c := Byte.to_N b in
  ((97 <=? c)%N && (c <=? 122)%N) || ((48 <=? c)%N && (c <=? 57)%N) ||
  bool_decide (b ∈ str "_:.-").

Section sticker.
Context `{Base64, ImageCodec}.

Definition from_name (name : bytes) : option StickerMetadata :=
  '(payload, version_two) ←
    match strip_prefix PREFIX_V1 name with
    | Some payload => Some (payload, false)
    | None => payload ← strip_prefix PREFIX_V2 name; Some (payload, true)
    end;
  if negb (forallb (λ b, (Byte.to_N b <? 128)%N) name) ||
     bool_decide ((if version_two : bool then 255 else 233) < length name) then None else
  '(encoded, _) ← rsplit_once (byte_of_N 46) payload;
  _ ← expected_format name;
  decoded ← b64_decode encoded;
  if decide (b64_encode decoded ≠ encoded) then None else
  text ← from_utf8 decoded;
  '(id, remainder) ← split_once 10%N text;
  '(fallback, label) ←
    (if version_two : bool then
      '(fallback, label) ← split_once 10%N remainder;
      if bool_decide (label = []) || untrimmed label || bool_decide (80 < length label) ||
         existsb label_refused label then None
      else Some (fallback, Some (encode_str label))
    else Some (remainder, None));
  let id_bytes := encode_str id in
  if bool_decide (id = []) || bool_decide (126 < length id_bytes) ||
     negb (forallb id_byte id_bytes) ||
     bool_decide (fallback = []) || bool_decide (32 < length (encode_str fallback)) ||
     bool_decide (8 < length fallback) || existsb is_control fallback then None
  else Some (MkSticker id_bytes (encode_str fallback) label).

Definition valid_manifest (name mime : bytes) (size : N) (media : bool) : bool :=
  media && bool_decide (0 < size)%N && bool_decide (size ≤ MAX_STICKER_BYTES)%N &&
  bool_decide (is_Some (from_name name)) &&
  match expected_format name with
  | Some (_, expected) => bool_decide (expected = mime)
  | None => false
  end.

Definition check_dimensions (dims : N * N) : result bytes N :=
  let '(width, height) := dims in
  let pixels := (width * height)%N in
  if bool_decide (width = 0%N) || bool_decide (height = 0%N) || bool_decide (4096 < width)%N ||
     bool_decide (4096 < height)%N || bool_decide (MAX_PIXELS < pixels)%N
  then Err (str "Sticker dimensions exceed 4096 per side or 16 million pixels")
  else Ok pixels.

Definition check_animation_memory (pixels : N) : result bytes () :=
  if decide (MAX_DECODE_BYTES < pixels * 16)%N
  then Err (str "Sticker animation canvas exceeds the decode memory budget") else Ok ().

Definition validate_static (d : Decoder) : result bytes () :=
  _ ← check_dimensions (d_dimensions d);
  if decide (MAX_DECODE_BYTES < d_total_bytes d)%N
  then Err (str "Sticker decoded image exceeds 64 MiB") else d_read d.

(** The loop of [validate_frames]. *)
Fixpoint validate_frames_loop (frames : list (result bytes (N * N))) (count pixels : N) :
    result bytes () :=
  match frames with
  | [] => if decide (count = 0%N) then Err (str "Sticker animation contains no frames") else Ok ()
  | frame :: frames =>
      dims ← frame;
      let count := (count + 1)%N in
      added ← check_dimensions dims;
      let pixels := (pixels + added)%N in
      if decide (MAX_FRAMES < count ∨ MAX_ANIMATION_PIXELS < pixels)%N
      then Err (str "Sticker animation exceeds 256 frames or 64 million decoded pixels")
      else validate_frames_loop frames count pixels
  end.

Definition validate_frames (frames : list (result bytes (N * N))) : result bytes () :=
  validate_frames_loop frames 0 0.

Definition validate_image (name mime bs : bytes) : result bytes () :=
  if negb (valid_manifest name mime (N.of_nat (length bs)) true)
  then Err (str "Invalid sticker name, media type or byte size") else
  match expected_format name with
  | None => Err [] (* excluded by [valid_manifest] *)
  | Some (format, _) =>
      guessed ← guess_format bs;
      if decide (guessed ≠ format)
      then Err (str "Sticker raster format does not match its media type") else
      d ← open_decoder format bs;
      match format with
      | Png | WebP =>
          pixels ← check_dimensions (d_dimensions d);
          animated ← d_animated d;
          if animated : bool then
            _ ← check_animation_memory pixels;
            frames ← d_frames d;
            validate_frames frames
          else validate_static d
      | Gif =>
          pixels ← check_dimensions (d_dimensions d);
          _ ← check_animation_memory pixels;
          frames ← d_frames d;
          validate_frames frames
      | _ => validate_static d
      end
  end.
End sticker.

(** ** What an accepted name is *)

Lemma split_once_Some {A} `{EqDecision A} (a : A) l x y :
  split_once a l = Some (x, y) → l = x ++ a :: y ∧ (a ∉ x).
Proof.
  revert x. induction l as [|b l IH]; intros x; [done|]. cbn [split_once]. case_decide as Hb.
  - intros [= <- <-]. rewrite Hb. split; [done|]. apply not_elem_of_nil.
  - destruct (split_once a l) as [[x' y']|]; [|done]. intros [= <- <-].
    destruct (IH x' eq_refl) as [-> Hx]. split; [done|]. by apply not_elem_of_cons.
Qed.

Lemma rsplit_once_Some {A} `{EqDecision A} (a : A) l x y :
  rsplit_once a l = Some (x, y) → l = x ++ a :: y ∧ (a ∉ y).
Proof.
  unfold rsplit_once. destruct (split_once a (reverse l)) as [[y' x']|] eqn:E; [|done].
  intros [= <- <-]. apply split_once_Some in E as [Hl Hy]. split; [|by rewrite elem_of_reverse].
  rewrite <-(reverse_involutive l), Hl, reverse_app, reverse_cons, <-app_assoc. done.
Qed.

Section facts.
Context `{Base64, ImageCodec}.

(** The text a sticker name encodes. *)
Definition sticker_text (m : StickerMetadata) : bytes :=
  sm_id m ++ [byte_of_N 10] ++ sm_fallback m ++
  match sm_label m with Some label => byte_of_N 10 :: label | None => [] end.

Definition sticker_prefix (m : StickerMetadata) : bytes :=
  match sm_label m with Some _ => PREFIX_V2 | None => PREFIX_V1 end.

Lemma encode_newline cs : encode_str (10%N :: cs) = byte_of_N 10 :: encode_str cs.
Proof. done. Qed.

Lemma length_encode_pos cs : cs ≠ [] → 0 < length (encode_str cs).
Proof.
  destruct cs as [|c cs]; [done|]. unfold encode_str. cbn [mbind list_bind]. rewrite length_app.
  pose proof (length_encode_char c). lia.
Qed.

Lemma sticker_payload name payload v2 :
  match strip_prefix PREFIX_V1 name with
  | Some payload => Some (payload, false)
  | None => payload ← strip_prefix PREFIX_V2 name; Some (payload, true)
  end = Some (payload, v2) →
  name = (if v2 then PREFIX_V2 else PREFIX_V1) ++ payload.
Proof.
  destruct (strip_prefix PREFIX_V1 name) as [p|] eqn:E1.
  - intros [= <- <-]. by apply strip_prefix_Some in E1.
  - destruct (strip_prefix PREFIX_V2 name) as [p|] eqn:E2; [|done].
    intros [= <- <-]. by apply strip_prefix_Some in E2.
Qed.

Lemma sticker_name_prefix (v2 : bool) payload :
  is_sticker_name ((if v2 then PREFIX_V2 else PREFIX_V1) ++ payload) = true.
Proof. unfold is_sticker_name. destruct v2; rewrite starts_with_app; [apply orb_true_r|done]. Qed.

(** The encoding is canonical: a name is accepted only if it is the version prefix of
    its metadata, the base64 of that metadata's text and an image extension; so the
    metadata and the extension determine the name. *)
Lemma from_name_canonical name m :
  from_name name = Some m →
  ∃ ext, name = sticker_prefix m ++ b64_encode (sticker_text m) ++ byte_of_N 46 :: ext ∧
    is_Some (expected_format name) ∧ is_sticker_name name = true ∧
    0 < length (sm_id m) ≤ 126 ∧ forallb id_byte (sm_id m) = true ∧
    0 < length (sm_fallback m) ≤ 32.
Proof.
  unfold from_name.
  destruct (match strip_prefix PREFIX_V1 name with Some _ => _ | None => _ end)
    as [[payload v2]|] eqn:Hp; [|done]. cbn [mbind option_bind].
  apply sticker_payload in Hp as Hname.
  clear Hp. destruct (_ || bool_decide (_ < length name)); [done|].
  destruct (rsplit_once _ payload) as [[encoded ext]|] eqn:He; [|done]. cbn [mbind option_bind].
  apply rsplit_once_Some in He as [-> _].
  destruct (expected_format name) as [fmt|] eqn:Hf; [|done]. cbn [mbind option_bind].
  destruct (b64_decode encoded) as [decoded|]; [|done]. cbn [mbind option_bind].
  case_decide as Hb; [done|].
  destruct (from_utf8 decoded) as [text|] eqn:Ht; [|done]. cbn [mbind option_bind].
  apply from_utf8_exact in Ht as [_ Ht].
  destruct (split_once 10%N text) as [[i rem]|] eqn:Hi; [|done]. cbn [mbind option_bind].
  apply split_once_Some in Hi as [-> _].
  destruct (if v2 then (_ : option (list N * option bytes)) else _) as [[fb lab]|] eqn:Hv; [|done].
  cbn [mbind option_bind].
  destruct (bool_decide (i = []) || _ || _ || _ || _ || _ || _) eqn:Hc; [done|]. intros [= <-].
  repeat rewrite orb_false_iff in Hc. destruct Hc as ((((((Hi0 & Hi1) & Hi2) & Hf0) & Hf1) & _) & _).
  apply bool_decide_eq_false in Hi0, Hi1, Hf0, Hf1. apply negb_false_iff in Hi2.
  exists ext. cbn [sm_id sm_fallback sm_label].
  pose proof (length_encode_pos _ Hi0). pose proof (length_encode_pos _ Hf0).
  split_and!; try done; try lia; [|by rewrite Hname; apply sticker_name_prefix].
  rewrite Hname. unfold sticker_prefix, sticker_text. cbn [sm_id sm_fallback sm_label].
  destruct v2.
  - destruct (split_once 10%N rem) as [[fb' lab']|] eqn:Hr; [|done]. cbn [mbind option_bind] in Hv.
    apply split_once_Some in Hr as [-> _]. destruct (_ || _ || _ || _); [done|].
    injection Hv as <- <-. do 2 f_equal. rewrite <-Hb, Ht.
    by rewrite encode_str_app, encode_newline, encode_str_app, encode_newline.
  - injection Hv as <- <-. do 2 f_equal. rewrite <-Hb, Ht, app_nil_r.
    by rewrite encode_str_app, encode_newline.
Qed.
(** ** What an accepted image costs *)

Definition canvas_ok (dims : N * N) : Prop :=
  (0 < dims.1 ≤ 4096)%N ∧ (0 < dims.2 ≤ 4096)%N ∧ (dims.1 * dims.2 ≤ MAX_PIXELS)%N.

Lemma check_dimensions_Ok dims n :
  check_dimensions dims = Ok n ↔ canvas_ok dims ∧ n = (dims.1 * dims.2)%N.
Proof.
  destruct dims as [w h]. unfold check_dimensions, canvas_ok. cbn [fst snd].
  destruct (_ || _) eqn:E.
  - split; [done|]. intros (? & _). repeat rewrite orb_true_iff in E.
    rewrite !bool_decide_eq_true in E. lia.
  - repeat rewrite orb_false_iff in E. rewrite !bool_decide_eq_false in E.
    split; [intros [= <-]|intros [_ ->]; done]. split; [lia|done].
Qed.

(** The frames decoded, with the pixels they add up to. *)
Definition frame_pixels (frames : list (result bytes (N * N))) : N :=
  foldr (λ f n, match f with Ok d => (d.1 * d.2 + n)%N | Err _ => n end) 0%N frames.

Lemma validate_frames_loop_Ok frames count pixels :
  (count ≤ MAX_FRAMES)%N → (pixels ≤ MAX_ANIMATION_PIXELS)%N →
  validate_frames_loop frames count pixels = Ok () →
  Forall (λ f, ∃ d, f = Ok d ∧ canvas_ok d) frames ∧
  (0 < count + N.of_nat (length frames) ≤ MAX_FRAMES)%N ∧
  (pixels + frame_pixels frames ≤ MAX_ANIMATION_PIXELS)%N.
Proof.
  revert count pixels. induction frames as [|f frames IH]; intros count pixels Hc Hp;
    cbn [validate_frames_loop].
  - case_decide; [done|]. intros _. split_and!; [constructor|cbn; lia..].
  - destruct f as [d|]; [|done]. cbn [mbind result_bind].
    destruct (check_dimensions d) as [n|] eqn:E; [|done]. cbn [mbind result_bind].
    apply check_dimensions_Ok in E as [Hd ->]. case_decide as Hl; [done|].
    intros (Hf & Hn & Hs)%IH; [|lia..]. cbn [length frame_pixels foldr].
    fold (frame_pixels frames). split_and!; [constructor; eauto|lia..].
Qed.

(** The canvas is bounded, and either the still image or the whole animation is. *)
Definition within_budget (d : Decoder) : Prop :=
  canvas_ok (d_dimensions d) ∧
  ((d_total_bytes d ≤ MAX_DECODE_BYTES)%N ∨
     ∃ frames, d_frames d = Ok frames ∧ Forall (λ f, ∃ d, f = Ok d ∧ canvas_ok d) frames ∧
       0 < length frames ≤ N.to_nat MAX_FRAMES ∧ (frame_pixels frames ≤ MAX_ANIMATION_PIXELS)%N ∧
       (d.(d_dimensions).1 * d.(d_dimensions).2 * 16 ≤ MAX_DECODE_BYTES)%N).

(** An accepted sticker has the name, media type and size of one, the format its
    extension announces and a decoder that stays within the budget: canvas at most
    4096 by 4096 and 16 million pixels and, for an animation, 1 to 256 frames of 64
    million pixels together on a canvas that four RGBA buffers fit; a still image
    decodes to at most 64 MiB. *)
Lemma validate_image_bounds name mime bs :
  validate_image name mime bs = Ok () →
  valid_manifest name mime (N.of_nat (length bs)) true = true ∧
  ∃ format d, fst <$> expected_format name = Some format ∧ guess_format bs = Ok format ∧
    open_decoder format bs = Ok d ∧ within_budget d.
Proof.
  unfold validate_image. destruct (valid_manifest _ _ _ _) eqn:Hv; [|done]. cbn [negb].
  destruct (expected_format name) as [[format m]|]; [|done].
  destruct (guess_format bs) as [g|]; [|done]. cbn [mbind result_bind]. case_decide as Hg; [done|].
  destruct (open_decoder format bs) as [d|] eqn:Hd; [|done]. cbn [mbind result_bind]. intros Hok.
  split; [done|]. exists format, d. rewrite Hg. do 3 (split; [done|]).
  assert (∀ n, check_dimensions (d_dimensions d) = Ok n →
    check_animation_memory n = Ok () → (frames ← d_frames d; validate_frames frames) = Ok () →
    within_budget d) as Hanim.
  { intros n [Hc ->]%check_dimensions_Ok. unfold check_animation_memory. case_decide; [done|].
    intros _. destruct (d_frames d) as [frames|] eqn:Hfr; [|done]. cbn [mbind result_bind].
    intros (Hf & Hn & Hs)%validate_frames_loop_Ok; [|done..]. split; [done|]. right.
    exists frames. split_and!; [done|done|lia|lia|lia|lia]. }
  assert (validate_static d = Ok () → within_budget d) as Hstat.
  { unfold validate_static. destruct (check_dimensions _) as [n|] eqn:E; [|done].
    apply check_dimensions_Ok in E as [? _]. cbn [mbind result_bind]. case_decide; [done|]. intros _.
    split; [done|]. left. lia. }
  destruct format; try (by apply Hstat);
    (destruct (check_dimensions _) as [n|] eqn:E; [|done]); cbn [mbind result_bind] in Hok.
  1, 2: destruct (d_animated d) as [[]|]; [|by apply Hstat|done].
  all: cbn [mbind result_bind] in Hok; destruct (check_animation_memory n) as [[]|] eqn:Em; [|done];
    by apply (Hanim n).
Qed.
End facts.
