(* ===== verification/FileTransfer.v ===== *)
(** * File transfer

    Models the file pipeline of crates/mesh-talk-core/src/node/files.rs and
    node/files/chunks.rs with the local authoring of node/node.rs: a file is read in
    chunks, sealed and appended to a conversation of its own; the manifest that
    announces it is admitted by [validated_manifest]; a peer that holds the chunk
    events reads or saves the file.

    The log is the in-memory [EventLog]; the database pages of [chunks.rs] list the
    same events in the same [(lamport, id)] order.  What the pipeline asks of other
    stores of the node (delivery recovery, managed media, completion records) and of
    the file system is an argument.  Progress callbacks and the best-effort copy of
    sent media are left out: they change neither the log nor the result. *)

From S2P Require Import Prelude Crypto Bincode Identity Event EventStore EventSync Framing Dm Expiry File Text Savename Sticker.

(** node/node.rs; payloads of foreign error types are their rendering. *)
Inductive NodeError :=
  | Linking (e : bytes)
  | InvalidInput (m : bytes)
  | RequestConflict
  | Authorization (m : bytes)
  | UnknownPeer (u : UserId)
  | Seal (e : DmError)
  | Log (e : LogError)
  | Session (e : bytes)
  | NodeChannel (m : bytes)
  | NodeFile (m : bytes).

Definition MAX_FILE_SIZE : N := 4 * 1024 * 1024 * 1024.

(** ** node/conversation.rs *)

Section conversation.
Context `{Crypto}.

Definition DM_CONV_DOMAIN : bytes := str "mesh-talk-dm-conversation-v1".

Definition dm_conversation_id (a b : PublicIdentity) : ConversationId :=
  let '(lo, hi) :=
    if decide (cle (ed25519_pub a) (ed25519_pub b)) then (ed25519_pub a, ed25519_pub b)
    else (ed25519_pub b, ed25519_pub a) in
  sha256 (DM_CONV_DOMAIN ++ lo ++ hi).

Definition ACCOUNT_CONV_DOMAIN : bytes := str "mesh-talk-account-conversation-v1".

Definition account_conversation_id (a b : bytes) : ConversationId :=
  let '(lo, hi) := if decide (cle a b) then (a, b) else (b, a) in
  sha256 (ACCOUNT_CONV_DOMAIN ++ be_bytes 4 (N.of_nat (length lo) mod 2 ^ 32) ++ lo ++ hi).
End conversation.

(** ** Authoring on the local log (node/node.rs)

    [bincode::serialized_size] of the two sync frames that carry a single event. *)
Class WireSizes := {
  response_size : SyncResponse → N;
  followup_size : SyncFollowup → N
}.

Section authoring.
Context `{Crypto, Bincode EventContent, WireSizes}.
Implicit Types (l : EventLog).

(** node/session.rs *)
Definition event_fits_frame (e : Event) : bool :=
  bool_decide (response_size (MkSyncResponse (conversation_id e) [e] []) ≤ MAX_PLAINTEXT)%N &&
  bool_decide (followup_size (MkSyncFollowup (conversation_id e) [e]) ≤ MAX_PLAINTEXT)%N.

(** What an append asks of the rest of the node: whether the channel is dissolved, the
    linked devices, the recovery of pending deliveries (which may itself append), the
    caller's check and the check of the control's source. *)
Record AppendEnv := MkAppendEnv {
  ae_dissolved : ConversationId → bool;
  ae_linked : list PublicIdentity;
  ae_recover : EventLog → EventLog * result LogError ();
  ae_check : result NodeError ();
  ae_source : result NodeError ()
}.

Definition append_event_checked (env : AppendEnv) (identity : DeviceIdentity) (now : N) l
    (channel : ConversationId) (k : EventKind) (ct : bytes)
    (required_profile_parent : option EventId) : EventLog * result NodeError (N * EventId) :=
  if ae_dissolved env channel then (l, Err (NodeChannel (str "channel is dissolved"))) else
  let independent_profile := bool_decide (k = Profile) &&
    existsb (λ d, bool_decide (dm_conversation_id (public identity) d = channel)) (ae_linked env) in
  match ae_recover env l with
  | (l, Err e) => (l, Err (Log e))
  | (l, Ok _) =>
      match (_ ← ae_check env; ae_source env) with
      | Err e => (l, Err e)
      | Ok _ =>
          let self_author := ed25519_pub (public identity) in
          match prepare l channel with
          | Err e => (l, Err (Log e))
          | Ok (parents, lam) =>
              let parents := if independent_profile then [] else parents in
              match
                match required_profile_parent with
                | None => Ok parents
                | Some parent =>
                    if bool_decide (k = Profile) &&
                       match EventStore.get l parent with
                       | Some e => bool_decide (kind e = Profile) &&
                           bool_decide (conversation_id e = channel) &&
                           bool_decide (author e = self_author)
                       | None => false
                       end
                    then Ok (canonical (parents ++ [parent]))
                    else Err (InvalidInput
                      (str "required profile parent is not a local profile in this conversation"))
                end
              with
              | Err e => (l, Err e)
              | Ok parents =>
                  match next_sequence l channel self_author with
                  | Err e => (l, Err (Log e))
                  | Ok seq =>
                      let event := event_new identity channel seq parents lam now k ct in
                      if bool_decide (k = Event.FileManifest) && negb (event_fits_frame event)
                      then (l, Err (NodeFile (str "file manifest exceeds transport frame")))
                      else if bool_decide (k = ChannelJoinHistory) && negb (event_fits_frame event)
                      then (l, Err (NodeChannel (str "history control exceeds transport frame")))
                      else
                        match append l event with
                        | (l, Err e) => (l, Err (Log e))
                        | (l, Ok _) => (l, Ok (seq, id event))
                        end
                  end
              end
          end
      end
  end.

(** [append_event]: no profile parent, no source and no check of the caller's. *)
Definition append_event (env : AppendEnv) (identity : DeviceIdentity) (now : N) l
    (channel : ConversationId) (k : EventKind) (ct : bytes) : EventLog * result NodeError N :=
  match append_event_checked
    (MkAppendEnv (ae_dissolved env) (ae_linked env) (ae_recover env) (Ok ()) (Ok ()))
    identity now l channel k ct None
  with
  | (l, Ok (seq, _)) => (l, Ok seq)
  | (l, Err e) => (l, Err e)
  end.
End authoring.

(** ** Reading a file in chunks *)

(** One call of [Read::read] on a reader: a short read of at least one byte when any is
    left, an interruption or an error.  Beyond the script reads fill the buffer. *)
Inductive ReadStep := Short (n : nat) | Interrupted | ReadFailed (e : bytes).

Record Reader := MkReader { rd_rest : bytes; rd_script : list ReadStep }.

Inductive ReadOutcome := Got (bs : bytes) | Interruption | Failure (e : bytes).

Definition reader_read (r : Reader) (want : nat) : Reader * ReadOutcome :=
  let give n script := (MkReader (drop n (rd_rest r)) script, Got (take n (rd_rest r))) in
  match rd_script r with
  | [] => give want []
  | Short n :: script => give (Nat.min want (Nat.max 1 n)) script
  | Interrupted :: script => (MkReader (rd_rest r) script, Interruption)
  | ReadFailed e :: script => (MkReader (rd_rest r) script, Failure e)
  end.

(** The loop of [read_full]; every round fills the buffer further or uses up an entry of
    the script, so their sum is fuel enough ([read_full_spec]). *)
Fixpoint read_full_loop (fuel : nat) (r : Reader) (buf_len : nat) (filled : bytes) :
    Reader * result bytes bytes :=
  match fuel with
  | O => (r, Ok filled)
  | S fuel =>
      if decide (length filled < buf_len) then
        match reader_read r (buf_len - length filled) with
        | (r, Got []) => (r, Ok filled)
        | (r, Got bs) => read_full_loop fuel r buf_len (filled ++ bs)
        | (r, Interruption) => read_full_loop fuel r buf_len filled
        | (r, Failure e) => (r, Err e)
        end
      else (r, Ok filled)
  end.

Definition read_full (r : Reader) (buf_len : nat) : Reader * result bytes bytes :=
  read_full_loop (S (buf_len + length (rd_script r))) r buf_len [].

(** [name.rsplit('.').next()], in ASCII lower case. *)
Definition extension_of (name : bytes) : bytes :=
  to_ascii_lowercase <$>
    match rsplit_once (byte_of_N 46) name with Some (_, ext) => ext | None => name end.

Definition mime_table : list (string * string) :=
  [("png", "image/png"); ("jpg", "image/jpeg"); ("jpeg", "image/jpeg"); ("gif", "image/gif");
   ("webp", "image/webp"); ("bmp", "image/bmp"); ("avif", "image/avif");
   ("svg", "image/svg+xml"); ("heic", "image/heic"); ("heif", "image/heif");
   ("mp4", "video/mp4"); ("mov", "video/quicktime"); ("webm", "video/webm");
   ("m4v", "video/x-m4v"); ("ogv", "video/ogg")]%string.

Definition mime_from_name (name : bytes) : bytes :=
  match list_find (λ row, str row.1 = extension_of name) mime_table with
  | Some (_, row) => str row.2
  | None => str "application/octet-stream"
  end.

(** ** Manifests of outgoing and incoming files *)

Section manifests.
Context `{Crypto, FileCodecs, Base64, ImageCodec}.

Definition outgoing_manifest (m : FileManifestV3) : AnyManifest :=
  if decide (m2_chunk_hashes (m3_v2 m) = []) then V4 (MkManifestV4 m) else V3 m.

Definition outgoing_manifest_bytes (m : FileManifestV3) : bytes :=
  if decide (m2_chunk_hashes (m3_v2 m) = []) then v4_encode (MkManifestV4 m) else v3_encode m.

Definition protected_manifest_bytes (m : FileManifestV3) (p : option MessageProtection) : bytes :=
  let bs := outgoing_manifest_bytes m in
  match p with
  | Some mode => protect_image_manifest bs mode
  | None => bs
  end.

(** node/media_store.rs *)
Definition MEDIA_EXT : list bytes :=
  str <$> ["png"; "jpg"; "jpeg"; "gif"; "webp"; "bmp"; "avif"; "svg"; "mp4"; "mov"; "webm";
           "m4v"; "ogv"]%string.

(** [Path::extension] of the last component, in lower case.  The extensions it is
    compared with have no letter that a character outside ASCII folds to. *)
Definition ext_of (name : bytes) : option bytes :=
  match last (components name) with
  | Some (Normal file) =>
      match rfind (byte_of_N DOT) file with
      | Some (S i) => Some (to_ascii_lowercase <$> drop (S (S i)) file)
      | _ => None
      end
  | _ => None
  end.

Definition is_media_name (name : bytes) : bool :=
  match ext_of name with Some e => bool_decide (e ∈ MEDIA_EXT) | None => false end.

Definition manifest_is_media (m : AnyManifest) : bool :=
  match any_kind m with
  | Some Media => true
  | Some File => false
  | None => is_media_name (any_name m)
  end.

Definition INLINE_MIMES : list bytes :=
  str <$> ["image/png"; "image/jpeg"; "image/gif"; "image/webp"; "image/bmp"; "image/avif";
           "image/heic"; "image/heif"]%string.

Definition automatic_inline_image (m : AnyManifest) : bool :=
  manifest_is_media m && bool_decide (any_size m ≤ 16 * 1024 * 1024)%N &&
  bool_decide (any_mime m ∈ INLINE_MIMES).

(** The body limit of the reader equals the length bound checked before. *)
Definition decode_validated (bs : bytes) : option AnyManifest :=
  if starts_with (str "MFP") bs then decode_manifest bs
  else match strip_prefix (str "MFM4") bs with
  | Some body => V4 <$> (de body : option FileManifestV4)
  | None =>
      match strip_prefix (str "MFM3") bs with
      | Some body => V3 <$> (de body : option FileManifestV3)
      | None =>
          match strip_prefix (str "MFM2") bs with
          | Some body => V2 <$> (de body : option FileManifestV2)
          | None => V1 <$> (de bs : option FileManifest)
          end
      end
  end.

(** The geometry of the chunks agrees with the size of the file. *)
Definition chunks_refused (m : FileManifestV2) : bool :=
  bool_decide (m2_chunk_size m = 0%N) || bool_decide (CHUNK_SIZE < m2_chunk_size m)%N ||
  bool_decide (m2_chunk_count m ≠ N.max (div_ceil (m2_size m) (m2_chunk_size m)) 1).

Definition shape_refused (m : AnyManifest) : bool :=
  match unprotected m with
  | V1 m => bool_decide (m1_chunk_count m ≠ chunk_count_for (m1_size m))
  | V2 m | V3 (MkManifestV3 m _) =>
      chunks_refused m || bool_decide (length (m2_chunk_hashes m) ≠ N.to_nat (m2_chunk_count m))
  | V4 (MkManifestV4 (MkManifestV3 m _)) =>
      chunks_refused m || bool_decide (m2_chunk_hashes m ≠ [])
  | Protected _ _ => false
  end.

Definition validated_manifest (bs : bytes) : option AnyManifest :=
  '(_, bs) ← split bs;
  if decide (MAX_PLAINTEXT < N.of_nat (length bs))%N then None else
  manifest ← decode_validated bs;
  if bool_decide (is_Some (protection manifest)) && negb (automatic_inline_image manifest)
  then None else
  if bool_decide (MAX_FILE_SIZE < any_size manifest)%N ||
     bool_decide (any_chunk_count manifest = 0%N) then None else
  if is_sticker_name (any_name manifest) &&
     (bool_decide (is_Some (protection manifest)) ||
      negb (valid_manifest (any_name manifest) (any_mime manifest) (any_size manifest)
              (bool_decide (any_kind manifest = Some Media)))) then None else
  if shape_refused manifest then None else Some manifest.

(** Names and media types are cleared before the transfer is fingerprinted. *)
Definition clear_v1 (m : FileManifest) : FileManifest :=
  MkManifest [] (m1_size m) [] (m1_checksum m) (m1_file_key m) (m1_file_conv m) (m1_chunk_count m).
Definition clear_v2 (m : FileManifestV2) : FileManifestV2 :=
  MkManifestV2 [] (m2_size m) [] (m2_checksum m) (m2_file_key m) (m2_file_nonce m)
    (m2_file_conv m) (m2_chunk_size m) (m2_chunk_count m) (m2_chunk_hashes m).

Definition file_transfer_fingerprint (m : AnyManifest) : option bytes :=
  '(version, body) ←
    match unprotected m with
    | V1 m => Some (Byte.x01, v1_encode (clear_v1 m))
    | V2 m => Some (Byte.x02, v2_encode (clear_v2 m))
    | V3 m => Some (Byte.x03, v2_encode (clear_v2 (m3_v2 m)))
    | V4 m => Some (Byte.x04, v2_encode (clear_v2 (m3_v2 (m4_v3 m))))
    | Protected _ _ => None
    end;
  let p := match protection m with
           | None => Byte.x00 | Some Click => Byte.x01 | Some Authenticate => Byte.x02
           end in
  Some (sha256 (str "mesh-talk/file-transfer-binding/v1" ++ [Byte.x00] ++ [version; p] ++ body)).

Definition same_file_transfer (left right : AnyManifest) : bool :=
  match file_transfer_fingerprint left, file_transfer_fingerprint right with
  | Some a, Some b => bool_decide (a = b)
  | _, _ => false
  end.
End manifests.

(** ** Staging *)

Section staging.
Context `{Crypto, Bincode EventContent, Bincode SealedEnvelope, WireSizes, FileCodecs}.

Definition PERSONAL_FILE_PROOF_MAGIC : bytes := str "MTPFM1".

(** Whether the hash list must be left out for the manifest to fit a frame. *)
Definition compact_manifest_needed (identity : DeviceIdentity) (prospective : FileManifestV3) :
    result NodeError bool :=
  let sealed_overhead :=
    N.of_nat (length (ser (MkEnvelope (repeat Byte.x00 32) (repeat Byte.x00 16)))) in
  let sealed_overhead :=
    (sealed_overhead + N.of_nat (length PERSONAL_FILE_PROOF_MAGIC) + 32 +
     N.of_nat (length (wrap [] (Some 1%N))))%N in
  let fits_frame (size : N) :=
    if decide (MAX_PLAINTEXT < size)%N then false
    else event_fits_frame (event_new identity (repeat Byte.x00 32) 1 [] 1 0 Event.FileManifest
                             (repeat Byte.x00 (N.to_nat size))) in
  let legacy_size :=
    saturating_add u64_max
      (saturating_add u64_max (N.of_nat (length (v3_encode prospective)))
         (m2_chunk_count (m3_v2 prospective) * 32))
      sealed_overhead in
  if fits_frame legacy_size then Ok false else
  let compact_size :=
    (N.of_nat (length (v4_encode (MkManifestV4 prospective))) + sealed_overhead)%N in
  if fits_frame compact_size then Ok true
  else Err (InvalidInput (str "file manifest exceeds transport frame")).

(** What staging draws from outside: the key, salt and conversation id it generates,
    the wall clock and whether the runtime is closed at each chunk, and the metadata and
    reader of the file. *)
Record StageIo := MkStageIo {
  st_key : bytes;
  st_nonce : bytes;
  st_conv : ConversationId;
  st_now : N → N;
  st_closed : N → bool;
  st_metadata : result bytes N;
  st_open : result bytes Reader
}.

(** The loop over the chunks: [whole] is the content hashed so far. *)
Fixpoint stage_loop (env : AppendEnv) (identity : DeviceIdentity) (io : StageIo) (compact : bool)
    (todo : nat) (index : N) (l : EventLog) (r : Reader) (whole : bytes) (hashes : list bytes) :
    EventLog * result NodeError (bytes * list bytes) :=
  match todo with
  | O => (l, Ok (whole, hashes))
  | S todo =>
      if st_closed io index then (l, Err (NodeFile (str "participant runtime is stopping"))) else
      match read_full r (N.to_nat CHUNK_SIZE) with
      | (r, Err e) => (l, Err (NodeFile (str "read: " ++ e)))
      | (r, Ok plain) =>
          let whole := whole ++ plain in
          let hashes := if compact then hashes else hashes ++ [chunk_hash plain] in
          match seal_chunk_indexed (st_key io) (st_nonce io) index plain with
          | Err e => (l, Err (NodeFile (str "chunk seal: " ++ file_error_to_string e)))
          | Ok sealed =>
              match append_event env identity (st_now io index) l (st_conv io) Message sealed with
              | (l, Err e) => (l, Err e)
              | (l, Ok _) => stage_loop env identity io compact todo (index + 1) l r whole hashes
              end
          end
      end
  end.

Definition stage_regular_file (env : AppendEnv) (identity : DeviceIdentity) (io : StageIo)
    (l : EventLog) (file_name : option bytes) (kind : FileKind) (directory : option (bytes * bytes)) :
    EventLog * result NodeError (FileManifestV3 * ConversationId) :=
  match st_metadata io with
  | Err e => (l, Err (NodeFile (str "stat file: " ++ e)))
  | Ok size =>
      if decide (MAX_FILE_SIZE < size)%N
      then (l, Err (InvalidInput (str "file too large: " ++ decimal size ++ str " bytes (max " ++
                                  decimal MAX_FILE_SIZE ++ str ")")))
      else
      let name := match directory with Some (name, _) => name | None => default (str "file") file_name end in
      let mime := match directory with Some (_, mime) => mime | None => mime_from_name name end in
      let chunk_count := chunk_count_for size in
      let prospective := MkManifestV3
        (MkManifestV2 name size mime (repeat Byte.x00 32) (repeat Byte.x00 32) (repeat Byte.x00 8)
           (repeat Byte.x00 32) CHUNK_SIZE chunk_count []) kind in
      match compact_manifest_needed identity prospective with
      | Err e => (l, Err e)
      | Ok compact =>
          match st_open io with
          | Err e => (l, Err (NodeFile (str "open: " ++ e)))
          | Ok reader =>
              match stage_loop env identity io compact (N.to_nat chunk_count) 0 l reader [] [] with
              | (l, Err e) => (l, Err e)
              | (l, Ok (whole, hashes)) =>
                  (l, Ok (MkManifestV3
                    (MkManifestV2 name size mime (file_checksum whole) (st_key io) (st_nonce io)
                       (st_conv io) CHUNK_SIZE chunk_count hashes) kind, st_conv io))
              end
          end
      end
  end.
End staging.

(** ** Reading and saving *)

Definition EVENT_BYTES : N := 4 * 1024 * 1024.
Definition MAX_INLINE_MEDIA_BYTES : N := 64 * 1024 * 1024.

(** The files on disk, by path. *)
Abbreviation FileSystem := (gmap bytes bytes).

(** Exact signed linear chunk ancestry. *)
Record ChunkChain := MkChain {
  cc_source : option Author;
  cc_last : option EventId;
  cc_count : N
}.

Definition chain_default : ChunkChain := MkChain None None 0.

Section reading.
Context `{Crypto, Bincode EventContent, Bincode Event, FileCodecs, Base64, ImageCodec}.
(** [std::mem::size_of::<Event>()]. *)
Context (event_struct_size : N).
Implicit Types (l : EventLog).

(** [accept]: the chain grows by [e], or is left as it is. *)
Definition chain_accept (c : ChunkChain) (e : Event) : ChunkChain * bool :=
  if bool_decide (kind e ≠ Message) ||
     match cc_source c with Some source => bool_decide (author e ≠ source) | None => false end ||
     bool_decide (seq e ≠ saturating_add u64_max (cc_count c) 1) ||
     match cc_last c with
     | None => bool_decide (parents e ≠ [])
     | Some previous => bool_decide (parents e ≠ [previous])
     end || negb (verify_integrity e) || negb (verify_signature e)
  then (c, false)
  else (MkChain (Some (author e)) (Some (id e)) (cc_count c + 1), true).

(** The chunk events of a file, in the order the pages list them. *)
Definition chunk_ids l (conv : ConversationId) : list Event :=
  filter (λ e, kind e = Message) (events_of l conv).

Definition chunk_ciphertext (e : Event) : result NodeError bytes :=
  let required := (encoded_event_size e * 3 + event_struct_size)%N in
  if decide (EVENT_BYTES < required)%N then Err (Log (PageBudgetTooSmall required))
  else if decide (kind e ≠ Message) then Err (NodeFile (str "file chunk is no longer available"))
  else Ok (Event.ciphertext e).

Definition open_failed (i : N) (e : FileError) : NodeError :=
  NodeFile (str "open chunk " ++ decimal i ++ str ": " ++ file_error_to_string e).

(** The loop of [read_file_internal]. *)
Fixpoint read_loop (manifest : AnyManifest) (es : list Event) (i : N) (out : bytes) :
    result NodeError bytes :=
  match es with
  | [] => Ok out
  | e :: es =>
      ct ← chunk_ciphertext e;
      plain ← map_err (open_failed i) (open_chunk_for manifest i ct);
      if decide (any_size manifest <
                 saturating_add u64_max (N.of_nat (length out)) (N.of_nat (length plain)))%N
      then Err (NodeFile (str "file size mismatch"))
      else read_loop manifest es (i + 1) (out ++ plain)
  end.

(** node/sticker_media.rs *)
Definition sticker_validate (name mime bs : bytes) : result NodeError () :=
  if is_sticker_name name then map_err InvalidInput (validate_image name mime bs) else Ok ().

(** [expired] and [book] are the answers of the expiry policy and of the file book. *)
Definition read_file_internal l (expired : bool) (book : option AnyManifest)
    (file_conv : ConversationId) : result NodeError bytes :=
  if expired then Err (NodeFile (str "file expired")) else
  manifest ← ok_or book (NodeFile (str "unknown file"));
  if decide (MAX_INLINE_MEDIA_BYTES < any_size manifest)%N
  then Err (NodeFile (str "file exceeds inline read budget; save it to disk")) else
  let chunks := chunk_ids l file_conv in
  if decide (N.of_nat (length chunks) ≠ any_chunk_count manifest)
  then Err (NodeFile (str "file incomplete: " ++ decimal (N.of_nat (length chunks)) ++ str "/" ++
                      decimal (any_chunk_count manifest) ++ str " chunks")) else
  out ← read_loop manifest chunks 0 [];
  if decide (N.of_nat (length out) ≠ any_size manifest)
  then Err (NodeFile (str "file size mismatch")) else
  if decide (file_checksum out ≠ any_checksum manifest)
  then Err (NodeFile (str "checksum mismatch")) else
  _ ← sticker_validate (any_name manifest) (any_mime manifest) out;
  Ok out.

Definition reject_protected_file (book : option AnyManifest) : result NodeError () :=
  match book with
  | Some m =>
      match protection m with
      | Some _ => Err (Authorization (str "protected image requires an exact authorized reveal"))
      | None => Ok ()
      end
  | None => Ok ()
  end.

Definition read_file l (expired : bool) (book : option AnyManifest) (file_conv : ConversationId) :
    result NodeError bytes :=
  _ ← reject_protected_file book; read_file_internal l expired book file_conv.

(** The outcome of each file operation of a save: an error or success; [io_write i] is
    the write of chunk [i]. *)
Record SaveIo := MkSaveIo {
  io_create : option bytes;
  io_write : N → option bytes;
  io_flush : option bytes;
  io_sync : option bytes;
  io_rename : option bytes;
  io_sync_parent : option bytes
}.

Definition part_path (dest : bytes) : bytes := dest ++ str ".part".

Definition io_step (label : bytes) (outcome : option bytes) : result NodeError () :=
  match outcome with Some e => Err (NodeFile (label ++ str ": " ++ e)) | None => Ok () end.

(** The loop of [save_file_progress_inner]: what the part file holds at the end. *)
Fixpoint save_chunks (io : SaveIo) (manifest : AnyManifest) (es : list Event) (i size : N)
    (written : bytes) : result NodeError (N * bytes) :=
  match es with
  | [] => Ok (size, written)
  | e :: es =>
      ct ← chunk_ciphertext e;
      plain ← map_err (open_failed i) (open_chunk_for manifest i ct);
      let size := saturating_add u64_max size (N.of_nat (length plain)) in
      if decide (any_size manifest < size)%N then Err (NodeFile (str "file size mismatch")) else
      _ ← io_step (str "write chunk " ++ decimal i) (io_write io i);
      save_chunks io manifest es (i + 1) size (written ++ plain)
  end.

(** Everything between the creation of the part file and the rename. *)
Definition save_verified (io : SaveIo) (manifest : AnyManifest) (es : list Event) :
    result NodeError bytes :=
  _ ← io_step (str "create part") (io_create io);
  '(size, written) ← save_chunks io manifest es 0 0 [];
  if decide (size ≠ any_size manifest) then Err (NodeFile (str "file size mismatch")) else
  _ ← io_step (str "flush") (io_flush io);
  _ ← io_step (str "sync file") (io_sync io);
  if decide (file_checksum written ≠ any_checksum manifest)
  then Err (NodeFile (str "whole-file checksum mismatch")) else
  _ ← io_step (str "finalize rename") (io_rename io);
  Ok written.

(** The copy of a managed media file: [copied] is the decrypted content or the error of
    the media store. *)
Definition save_managed (io : SaveIo) (manifest : AnyManifest) (copied : result bytes bytes) :
    result NodeError bytes :=
  _ ← io_step (str "create part") (io_create io);
  content ← map_err (λ e, NodeFile (str "decrypt media: " ++ e)) copied;
  if decide (file_checksum content ≠ any_checksum manifest ∨
             N.of_nat (length content) ≠ any_size manifest)
  then Err (NodeFile (str "media checksum mismatch")) else
  _ ← io_step (str "sync media") (io_sync io);
  _ ← io_step (str "finalize rename") (io_rename io);
  Ok content.

(** The guard removes the part file unless the rename moved it into place. *)
Definition publish (fs : FileSystem) (dest : bytes) (outcome : result NodeError bytes) :
    FileSystem * result NodeError () :=
  let fs := delete (part_path dest) fs in
  match outcome with
  | Err e => (fs, Err e)
  | Ok content => (<[dest := content]> fs, Ok ())
  end.

(** What the rest of the node answers: the completion candidates, the managed copy if
    there is one, the copy kept for a personal file and the completion commit. *)
Record SaveEnv := MkSaveEnv {
  se_candidates : result NodeError ();
  se_managed : result NodeError (option (result bytes bytes));
  se_personal : result NodeError ();
  se_commit : result NodeError ()
}.

Definition save_file_progress_inner (env : SaveEnv) (io : SaveIo) (fs : FileSystem) l
    (book : option AnyManifest) (file_conv : ConversationId) (dest : bytes)
    (commit_completion : bool) : FileSystem * result NodeError () :=
  match book with
  | None => (fs, Err (NodeFile (str "unknown file")))
  | Some manifest =>
      match se_candidates env with
      | Err e => (fs, Err e)
      | Ok _ =>
          let chunks := chunk_ids l file_conv in
          if decide (N.of_nat (length chunks) ≠ any_chunk_count manifest) then
            match se_managed env with
            | Err e => (fs, Err e)
            | Ok (Some copied) =>
                match publish fs dest (save_managed io manifest copied) with
                | (fs, Err e) => (fs, Err e)
                | (fs, Ok _) => (fs, io_step (str "sync directory") (io_sync_parent io))
                end
            | Ok None =>
                (fs, Err (NodeFile (str "file incomplete: " ++ decimal (N.of_nat (length chunks)) ++
                                    str "/" ++ decimal (any_chunk_count manifest) ++ str " chunks")))
            end
          else
            let legacy := match unprotected manifest with V1 _ => true | _ => false end in
            match publish fs dest (save_verified io manifest chunks) with
            | (fs, Err e) => (fs, Err e)
            | (fs, Ok _) =>
                (fs, _ ← io_step (str "sync directory") (io_sync_parent io);
                     _ ← se_personal env;
                     if commit_completion && negb legacy then se_commit env else Ok ())
            end
      end
  end.

Definition save_file (env : SaveEnv) (io : SaveIo) (fs : FileSystem) l (expired : bool)
    (book : option AnyManifest) (file_conv : ConversationId) (dest : bytes) :
    FileSystem * result NodeError () :=
  match reject_protected_file book with
  | Err e => (fs, Err e)
  | Ok _ =>
      if expired then (fs, Err (NodeFile (str "file expired")))
      else save_file_progress_inner env io fs l book file_conv dest true
  end.
End reading.

(** ** Facts about reading a file *)

Definition no_failures (script : list ReadStep) : Prop :=
  Forall (λ s, match s with ReadFailed _ => False | _ => True end) script.

Lemma drop_take_more {A} (l : list A) n k :
  k ≤ n → drop (n - length (take k l)) (drop k l) = drop n l ∧
  take k l ++ take (n - length (take k l)) (drop k l) = take n l.
Proof.
  intros Hk. rewrite length_take. destruct (decide (k ≤ length l)) as [Hl|Hl].
  - rewrite Nat.min_l, drop_drop by lia. replace (k + (n - k)) with n by lia. split; [done|].
    rewrite take_take_drop. f_equal. lia.
  - rewrite (drop_ge l k), (drop_ge l n), (take_ge l k), (take_ge l n) by lia.
    by rewrite drop_nil, take_nil, app_nil_r.
Qed.

(** Short reads and interruptions do not show: the buffer is filled from the front of
    the file, and is short only at its end. *)
Lemma read_full_loop_spec fuel rest script n filled :
  no_failures script → length filled ≤ n → n - length filled + length script < fuel →
  ∃ script', no_failures script' ∧
    read_full_loop fuel (MkReader rest script) n filled =
      (MkReader (drop (n - length filled) rest) script',
       Ok (filled ++ take (n - length filled) rest)).
Proof.
  revert rest script filled. induction fuel as [|fuel IH]; intros rest script filled Hs Hf Hfuel;
    [lia|]. cbn [read_full_loop]. case_decide as Hlt.
  2:{ exists script. replace (n - length filled) with 0 by lia. by rewrite take_0, drop_0, app_nil_r. }
  set (want := n - length filled) in *. assert (0 < want) as Hwant by (unfold want; lia).
  assert (∀ k script', no_failures script' → 0 < k ≤ want → length script' ≤ length script →
    ∃ script'', no_failures script'' ∧
      match take k rest with
      | [] => (MkReader (drop k rest) script', Ok filled)
      | bs => read_full_loop fuel (MkReader (drop k rest) script') n (filled ++ bs)
      end = (MkReader (drop want rest) script'', Ok (filled ++ take want rest))) as Hgot.
  { intros k script' Hs' Hk Hle. destruct (take k rest) as [|b bs] eqn:Ht.
    - assert (rest = []) as -> by (destruct rest, k; [done..|lia|done]).
      exists script'. by rewrite !drop_nil, take_nil, app_nil_r.
    - rewrite <-Ht. destruct (IH (drop k rest) script' (filled ++ take k rest) Hs') as (s'' & Hs'' & ->).
      + rewrite length_app, length_take. lia.
      + assert (0 < length (take k rest)) by (rewrite Ht; cbn; lia).
        rewrite length_app, length_take in *. lia.
      + destruct (drop_take_more rest want k) as [Hd Htk]; [lia|].
        exists s''. split; [done|]. rewrite length_app.
        replace (n - (length filled + length (take k rest))) with (want - length (take k rest))
          by (unfold want; lia).
        by rewrite Hd, <-app_assoc, Htk. }
  unfold reader_read. cbn [rd_script rd_rest].
  destruct script as [|[k| |e] script]; cbn [length] in *.
  - destruct (Hgot want [] Hs) as (s'' & Hs'' & E); [lia|cbn; lia|]. exists s''. split; [done|].
    rewrite <-E. by destruct (take want rest).
  - inversion_clear Hs. destruct (Hgot (want `min` (1 `max` k)) script) as (s'' & Hs'' & E); [done|lia..|].
    exists s''. split; [done|]. rewrite <-E. by destruct (take (want `min` (1 `max` k)) rest).
  - inversion_clear Hs. apply IH; [done|lia|unfold want in *; lia].
  - by inversion_clear Hs.
Qed.

Lemma read_full_spec rest script n :
  no_failures script →
  ∃ script', no_failures script' ∧
    read_full (MkReader rest script) n = (MkReader (drop n rest) script', Ok (take n rest)).
Proof.
  intros Hs. destruct (read_full_loop_spec (S (n + length script)) rest script n [])
    as (s' & Hs' & E); [done|cbn; lia|cbn; lia|]. exists s'. split; [done|].
  unfold read_full. cbn [rd_script]. rewrite E. cbn [length app]. by rewrite Nat.sub_0_r.
Qed.

(** ** Facts about staging *)

#[local] Opaque CHUNK_SIZE.

Section staged.
Context `{CryptoLaws, Bincode EventContent, Bincode SealedEnvelope, WireSizes, FileCodecs}.
Implicit Types (l : EventLog) (d : DeviceIdentity).

(** The rest of the node leaves the conversation alone. *)
Definition quiet (env : AppendEnv) (conv : ConversationId) : Prop :=
  ae_dissolved env conv = false ∧ ∀ l, ae_recover env l = (l, Ok ()).

(** Clock and sequence of the conversation are at most [k]. *)
Definition counters_below l (conv : ConversationId) d (k : N) : Prop :=
  (default 0 (max_lamport l !! conv) ≤ k)%N ∧
  (default 0 (version l !! conv ≫= (.!! ed25519_pub (public d))) ≤ k)%N.

Lemma counters_after l conv d k now ct :
  counters_below l conv d k →
  counters_below
    (index_trusted l (event_new d conv
       (default 0 (version l !! conv ≫= (.!! ed25519_pub (public d))) + 1)%N (heads l conv)
       (default 0 (max_lamport l !! conv) + 1)%N now Message ct)) conv d (k + 1).
Proof.
  intros [Hl Hv]. unfold counters_below. cbn [index_trusted max_lamport version event_new
    conversation_id lamport author seq]. unfold raise_slot. rewrite !lookup_insert_eq.
  cbn [from_option option_bind mbind]. rewrite lookup_insert_eq, version_slot in *.
  cbn [from_option].
  generalize dependent (default 0 (max_lamport l !! conv))%N.
  generalize dependent (default 0 (default ∅ (version l !! conv) !! ed25519_pub (public d)))%N.
  intros v Hv m Hl. unfold Datatypes.id. repeat case_decide; lia.
Qed.

(** Authoring a chunk: it is appended at the end of its conversation, unless its id is
    already taken. *)
Lemma append_event_chunk env d now l conv ct k :
  quiet env conv → log_inv l → type_wf d → counters_below l conv d k → (k < u64_max)%N →
  ∃ l' s e, append_event env d now l conv Message ct = (l', Ok s) ∧ log_inv l' ∧
    counters_below l' conv d (k + 1) ∧ kind e = Message ∧ Event.ciphertext e = ct ∧
    (events_of l' conv = events_of l conv ∨ events_of l' conv = events_of l conv ++ [e]).
Proof.
  intros [Hdis Hrec] Hinv Hd Hk Hlt. destruct Hk as [Hkl Hkv] eqn:Hkeq. clear Hkeq.
  set (sq := (default 0 (version l !! conv ≫= (.!! ed25519_pub (public d))) + 1)%N).
  set (lam := (default 0 (max_lamport l !! conv) + 1)%N).
  assert (next_sequence l conv (ed25519_pub (public d)) = Ok sq) as Hs.
  { unfold next_sequence. apply ok_or_Ok, checked_add_Some. split; [done|lia]. }
  assert (prepare l conv = Ok (heads l conv, lam)) as Hp.
  { unfold prepare. rewrite (proj2 (checked_add_Some _ _ _ lam)); [done|]. split; [done|lia]. }
  set (e := event_new d conv sq (heads l conv) lam now Message ct).
  assert (append_event env d now l conv Message ct =
    match append l e with
    | (l, Err err) => (l, Err (Log err))
    | (l, Ok _) => (l, Ok sq)
    end) as ->.
  { unfold append_event, append_event_checked. cbn [ae_dissolved ae_recover ae_check ae_source ae_linked].
    rewrite Hdis, Hrec. cbn [mbind result_bind]. rewrite Hp.
    rewrite (bool_decide_eq_false_2 (Message = Profile)),
      (bool_decide_eq_false_2 (Message = Event.FileManifest)),
      (bool_decide_eq_false_2 (Message = ChannelJoinHistory)) by done. cbn [andb]. rewrite Hs.
    fold e. by destruct (append l e) as [l' []]. }
  destruct (events l !! id e) as [e'|] eqn:Hid.
  - assert (append l e = (l, Ok Duplicate)) as ->.
    { assert (event_valid e) as (Hc & Hi & Hsg) by by apply event_new_valid_aux.
      unfold append, validate. by rewrite Hc, Hi, Hsg, Hid. }
    exists l, sq, e. split_and!; try done; [split; lia|by left].
  - destruct (author_local l d conv Message now ct sq (heads l conv) lam) as (Ha & Hev & _); [done..|].
    fold e in Ha, Hev. pose proof (append_inv l e Hinv) as Hinv'.
    assert ((append l e).1 = index_trusted l e) as Hl.
    { unfold append in *. by destruct (validate l e) as [[]|]. }
    destruct (append l e) as [l' r]. cbn [fst snd] in *. subst r l'.
    exists (index_trusted l e), sq, e. split_and!; try done; [by apply counters_after|by right].
Qed.

(** The [j]-th event of [es] carries chunk [index + j] of the content. *)
Definition staged (io : StageIo) (index : N) (es : list Event) (content : bytes) : Prop :=
  ∀ j e, es !! j = Some e → kind e = Message ∧
    seal_chunk_indexed (st_key io) (st_nonce io) (index + N.of_nat j)
      (piece (N.to_nat CHUNK_SIZE) j content) = Ok (Event.ciphertext e).

Definition chunk_hashes (n : nat) (content : bytes) : list bytes :=
  (λ j, chunk_hash (piece (N.to_nat CHUNK_SIZE) j content)) <$> List.seq 0 n.

Lemma piece_drop n j {A} (l : list A) : piece n j (drop n l) = piece n (S j) l.
Proof. unfold piece. by rewrite drop_drop. Qed.

Lemma pieces_cons {B} (f : bytes → B) cs n content :
  ((λ j, f (piece cs j content)) <$> List.seq 0 (S n)) =
  f (take cs content) :: ((λ j, f (piece cs j (drop cs content))) <$> List.seq 0 n).
Proof.
  cbn [List.seq fmap list_fmap]. f_equal. rewrite <-fmap_S_seq, <-list_fmap_compose.
  apply list_fmap_ext. intros i j _. cbn. by rewrite piece_drop.
Qed.

Lemma chunk_hashes_cons n content :
  chunk_hashes (S n) content =
  chunk_hash (take (N.to_nat CHUNK_SIZE) content) :: chunk_hashes n (drop (N.to_nat CHUNK_SIZE) content).
Proof. apply pieces_cons. Qed.

Lemma staged_cons io index e es content :
  kind e = Message →
  seal_chunk_indexed (st_key io) (st_nonce io) index (take (N.to_nat CHUNK_SIZE) content) =
    Ok (Event.ciphertext e) →
  staged io (index + 1) es (drop (N.to_nat CHUNK_SIZE) content) →
  staged io index (e :: es) content.
Proof.
  intros Hk Hs Hes [|j] e'; cbn [lookup list_lookup].
  - intros [= <-]. by rewrite N.add_0_r.
  - intros He. destruct (Hes j e' He) as [Hm Hc]. split; [done|]. rewrite piece_drop in Hc.
    rewrite <-Hc. f_equal. lia.
Qed.

Context (env : AppendEnv) (d : DeviceIdentity) (io : StageIo).
Context (Henv : quiet env (st_conv io)) (Hd : type_wf d).
Context (Hkey : length (st_key io) = 32) (Hnonce : length (st_nonce io) = 8).
Context (Hopen : ∀ i, st_closed io i = false).

Lemma stage_loop_spec compact todo index l content script whole hashes :
  no_failures script → log_inv l → counters_below l (st_conv io) d index →
  (index + N.of_nat todo < u64_max)%N →
  ∃ l', stage_loop env d io compact todo index l (MkReader content script) whole hashes =
      (l', Ok (whole ++ take (todo * N.to_nat CHUNK_SIZE) content,
               if compact then hashes else hashes ++ chunk_hashes todo content)) ∧
    log_inv l' ∧
    length (events_of l' (st_conv io)) ≤ length (events_of l (st_conv io)) + todo ∧
    (length (events_of l' (st_conv io)) = length (events_of l (st_conv io)) + todo →
     ∃ es, events_of l' (st_conv io) = events_of l (st_conv io) ++ es ∧ length es = todo ∧
       staged io index es content).
Proof.
  revert index l content script whole hashes.
  induction todo as [|todo IH]; intros index l content script whole hashes Hs Hinv Hcnt Hlt.
  { exists l. cbn [stage_loop]. rewrite Nat.mul_0_l, take_0, !app_nil_r.
    split_and!; [by destruct compact|done|lia|]. intros _. exists []. by rewrite app_nil_r. }
  cbn [stage_loop]. rewrite Hopen.
  destruct (read_full_spec content script (N.to_nat CHUNK_SIZE) Hs) as (script' & Hs' & ->).
  destruct (seal_open_indexed (st_key io) (st_nonce io) index (take (N.to_nat CHUNK_SIZE) content))
    as (ct & Hct & _); [done|done|rewrite length_take, CHUNK_SIZE_value; unfold aead_max; lia|].
  rewrite Hct. destruct (append_event_chunk env d (st_now io index) l (st_conv io) ct index)
    as (l1 & s & e & -> & Hinv1 & Hcnt1 & Hke & Hce & Hev); [done..|lia|].
  destruct (IH (index + 1)%N l1 (drop (N.to_nat CHUNK_SIZE) content) script'
    (whole ++ take (N.to_nat CHUNK_SIZE) content)
    (if compact then hashes else hashes ++ [chunk_hash (take (N.to_nat CHUNK_SIZE) content)]))
    as (l' & -> & Hinv' & Hle & Hall); [done..|lia|].
  exists l'. split_and!.
  - rewrite Nat.mul_succ_l, Nat.add_comm, <-take_take_drop, app_assoc. do 3 f_equal.
    destruct compact; [done|]. rewrite chunk_hashes_cons, <-app_assoc. done.
  - done.
  - destruct Hev as [Hev|Hev]; rewrite Hev in Hle; [lia|]. rewrite length_app in Hle. cbn in Hle. lia.
  - intros Heq. destruct Hev as [Hev|Hev]; rewrite Hev in Hle, Hall; [lia|].
    rewrite length_app in Hle, Hall. cbn [length] in Hle, Hall.
    destruct Hall as (es & Hes & Hlen & Hst); [lia|]. exists (e :: es).
    rewrite Hes, <-app_assoc. split_and!; [done|cbn; lia|].
    apply staged_cons; [done|by rewrite Hct, Hce|done].
Qed.
End staged.

(** ** Facts about opening the chunks *)

Section opened.
Context `{Crypto, Bincode EventContent, Bincode Event, FileCodecs, Base64, ImageCodec}.
Context (event_struct_size : N).
Implicit Types (m : AnyManifest) (es : list Event) (ps : list bytes).

(** The events [es] open to [ps], from chunk [i] on. *)
Fixpoint opens m (i : N) es ps : Prop :=
  match es, ps with
  | [], [] => True
  | e :: es, p :: ps =>
      (∃ ct, chunk_ciphertext event_struct_size e = Ok ct ∧ open_chunk_for m i ct = Ok p) ∧
      opens m (i + 1) es ps
  | _, _ => False
  end.

Lemma opens_intro m i es ps :
  length es = length ps →
  (∀ j e p, es !! j = Some e → ps !! j = Some p →
     ∃ ct, chunk_ciphertext event_struct_size e = Ok ct ∧
       open_chunk_for m (i + N.of_nat j) ct = Ok p) →
  opens m i es ps.
Proof.
  revert i ps. induction es as [|e es IH]; intros i [|p ps] Hl Hj; [done|done|done|].
  split.
  - destruct (Hj 0 e p eq_refl eq_refl) as (ct & Hct & Ho). rewrite N.add_0_r in Ho. eauto.
  - apply IH; [by injection Hl|]. intros j e' p' He Hp.
    destruct (Hj (S j) e' p' He Hp) as (ct & Hct & Ho). exists ct. split; [done|].
    rewrite <-Ho. f_equal. lia.
Qed.

Lemma saturating_small a b n : (saturating_add u64_max a b ≤ n → n < u64_max → a + b ≤ n)%N.
Proof. unfold saturating_add. lia. Qed.

(** A read that succeeds has opened every chunk in order. *)
Lemma read_loop_opens m es i out out' :
  read_loop event_struct_size m es i out = Ok out' →
  ∃ ps, opens m i es ps ∧ out' = out ++ concat ps.
Proof.
  revert i out. induction es as [|e es IH]; intros i out; cbn [read_loop].
  - intros [= <-]. exists []. by rewrite app_nil_r.
  - destruct (chunk_ciphertext _ e) as [ct|] eqn:Hct; [|done]. simpl_bind.
    destruct (open_chunk_for m i ct) as [p|] eqn:Ho; [|done]. simpl_bind.
    case_decide; [done|]. intros (ps & Hps & ->)%IH. exists (p :: ps). cbn [opens concat].
    rewrite <-app_assoc. eauto.
Qed.

Lemma read_loop_complete m es ps i out :
  opens m i es ps → (N.of_nat (length (out ++ concat ps)) ≤ any_size m)%N →
  read_loop event_struct_size m es i out = Ok (out ++ concat ps).
Proof.
  revert i out ps. induction es as [|e es IH]; intros i out [|p ps]; cbn [opens]; try done.
  - intros _ _. cbn. by rewrite app_nil_r.
  - intros [(ct & Hct & Ho) Hps] Hlen. cbn [read_loop concat] in *. rewrite Hct. simpl_bind.
    rewrite Ho. simpl_bind. rewrite decide_False.
    + rewrite (IH _ _ ps) by (done || by rewrite <-app_assoc). by rewrite <-app_assoc.
    + rewrite !length_app in Hlen. unfold saturating_add. lia.
Qed.

Lemma save_chunks_opens io m es i size written size' written' :
  save_chunks event_struct_size io m es i size written = Ok (size', written') →
  (any_size m < u64_max)%N → size = N.of_nat (length written) →
  ∃ ps, opens m i es ps ∧ written' = written ++ concat ps ∧ size' = N.of_nat (length written').
Proof.
  revert i size written. induction es as [|e es IH]; intros i size written; cbn [save_chunks].
  - intros [= <- <-] _ ->. exists []. by rewrite app_nil_r.
  - destruct (chunk_ciphertext _ e) as [ct|] eqn:Hct; [|done]. simpl_bind.
    destruct (open_chunk_for m i ct) as [p|] eqn:Ho; [|done]. simpl_bind.
    case_decide as Hsz; [done|]. destruct (io_step _ _) as [[]|]; [|done]. simpl_bind.
    intros Hok Hm ->. destruct (IH _ _ _ Hok) as (ps & Hps & -> & ->); [done| |].
    { unfold saturating_add in *. rewrite length_app. lia. }
    exists (p :: ps). cbn [opens concat]. rewrite <-app_assoc. eauto 10.
Qed.

Lemma save_chunks_complete io m es ps i written :
  (∀ j, io_write io j = None) → opens m i es ps → (any_size m ≤ u64_max)%N →
  (N.of_nat (length (written ++ concat ps)) ≤ any_size m)%N →
  save_chunks event_struct_size io m es i (N.of_nat (length written)) written =
    Ok (N.of_nat (length (written ++ concat ps)), written ++ concat ps).
Proof.
  intros Hio. revert i written ps. induction es as [|e es IH]; intros i written [|p ps];
    cbn [opens]; try done.
  - intros _ _ _. cbn. by rewrite app_nil_r.
  - intros [(ct & Hct & Ho) Hps] Hm Hlen. cbn [save_chunks concat] in *. rewrite Hct. simpl_bind.
    rewrite Ho. simpl_bind. rewrite app_assoc in Hlen |- *.
    assert (saturating_add u64_max (N.of_nat (length written)) (N.of_nat (length p)) =
      N.of_nat (length (written ++ p))) as ->.
    { rewrite !length_app in *. unfold saturating_add. lia. }
    rewrite decide_False by (rewrite !length_app in *; lia).
    unfold io_step. rewrite Hio. simpl_bind. by apply IH.
Qed.

(** ** What a read or a save that succeeds delivers *)

Lemma read_file_internal_Ok l expired book conv out :
  read_file_internal event_struct_size l expired book conv = Ok out →
  ∃ m ps, book = Some m ∧ expired = false ∧ opens m 0 (chunk_ids l conv) ps ∧ out = concat ps ∧
    N.of_nat (length (chunk_ids l conv)) = any_chunk_count m ∧
    N.of_nat (length out) = any_size m ∧ file_checksum out = any_checksum m ∧
    sticker_validate (any_name m) (any_mime m) out = Ok ().
Proof.
  unfold read_file_internal. destruct expired; [done|]. destruct book as [m|]; [|done]. simpl_bind.
  case_decide; [done|]. case_decide as Hc; [done|].
  destruct (read_loop _ _ _ _ _) as [o|] eqn:Hr; [|done]. simpl_bind.
  case_decide as Hs; [done|]. case_decide as Hk; [done|].
  destruct (sticker_validate _ _ _) as [[]|] eqn:Hst; [|done]. intros [= <-].
  apply read_loop_opens in Hr as (ps & Hps & ->). exists m, ps. by split_and!.
Qed.

Lemma part_path_ne dest : part_path dest ≠ dest.
Proof. unfold part_path. intros E%(f_equal length). rewrite length_app in E. cbn in E. lia. Qed.

(** The content a save may publish under [dest]. *)
Definition verified m (content : bytes) : Prop :=
  file_checksum content = any_checksum m ∧
  ((any_size m < u64_max)%N → N.of_nat (length content) = any_size m).

Lemma save_verified_Ok io m es content :
  save_verified event_struct_size io m es = Ok content → verified m content.
Proof.
  unfold save_verified. bind_step [] eqn Hc. bind_step [size written] eqn Hs.
  case_decide as Hsz; [done|]. bind_step [] eqn Hf. bind_step [] eqn Hy.
  case_decide as Hk; [done|]. bind_step [] eqn Hr. intros [= <-]. split; [done|]. intros Hm.
  destruct (save_chunks_opens _ _ _ _ _ _ _ _ Hs Hm eq_refl) as (ps & _ & _ & <-). done.
Qed.

Lemma save_managed_Ok io m copied content :
  save_managed io m copied = Ok content → verified m content.
Proof.
  unfold save_managed. bind_step [] eqn Hc. destruct copied as [c|]; [|done]. simpl_bind.
  case_decide as Hk; [done|]. bind_step [] eqn Hy. bind_step [] eqn Hr.
  intros [= <-]. split; [|intros _]; apply dec_stable; tauto.
Qed.

(** What one save may do to the files: nothing but removing its own part file, or
    publishing verified content under [dest]. *)
Definition save_effect (fs fs' : FileSystem) (dest : bytes) (book : option AnyManifest)
    (ok : bool) : Prop :=
  (∀ p, p ≠ dest → p ≠ part_path dest → fs' !! p = fs !! p) ∧
  (fs' = fs ∨ fs' !! part_path dest = None) ∧
  ((fs' !! dest = fs !! dest ∧ ok = false) ∨
   ∃ m content, book = Some m ∧ fs' !! dest = Some content ∧ verified m content).

Lemma publish_effect fs dest m outcome ok :
  (∀ content, outcome = Ok content → verified m content) →
  (is_ok outcome = false → ok = false) →
  save_effect fs (publish fs dest outcome).1 dest (Some m) ok.
Proof.
  intros Hv Hok. pose proof (part_path_ne dest) as Hne. unfold publish.
  destruct outcome as [content|e]; cbn [fst is_ok] in *; split_and!.
  - intros p H5 H6. by rewrite lookup_insert_ne, lookup_delete_ne by congruence.
  - right. by rewrite lookup_insert_ne, lookup_delete_eq by congruence.
  - right. exists m, content. rewrite lookup_insert_eq. auto.
  - intros p H5 H6. by rewrite lookup_delete_ne by congruence.
  - right. by rewrite lookup_delete_eq.
  - left. rewrite lookup_delete_ne by congruence. auto.
Qed.

Lemma save_effect_none fs dest book : save_effect fs fs dest book false.
Proof. split_and!; [done|by left|by left]. Qed.

Lemma save_inner_effect env io fs l book conv dest commit :
  let '(fs', r) := save_file_progress_inner event_struct_size env io fs l book conv dest commit in
  save_effect fs fs' dest book (is_ok r).
Proof.
  unfold save_file_progress_inner. destruct book as [m|]; [|apply save_effect_none].
  destruct (se_candidates env); [|apply save_effect_none]. case_decide.
  - destruct (se_managed env) as [[copied|]|]; [|apply save_effect_none..].
    pose proof (λ ok, publish_effect fs dest m (save_managed io m copied) ok
      (save_managed_Ok io m copied)) as Hp.
    unfold publish in *. destruct (save_managed io m copied); apply Hp; [done|done].
  - pose proof (λ ok, publish_effect fs dest m (save_verified event_struct_size io m
      (chunk_ids l conv)) ok (save_verified_Ok io m _)) as Hp.
    unfold publish in *. destruct (save_verified _ io m _); apply Hp; [done|done].
Qed.
End opened.

Section integrity.
Context `{Crypto, Bincode EventContent, Bincode Event, FileCodecs, Base64, ImageCodec}.
Context (event_struct_size : N).

End integrity.
