(* ===== verification/FileDelivery.v ===== *)
(** * Delivery of a file

    Composes the file pipeline with the event log and its synchronization: a file
    staged on one device, whose chunk events reach another device by a
    reconciliation, reads back there byte for byte from the manifest the sender
    announced. *)

From S2P Require Import Prelude Crypto Bincode Identity Event EventStore EventSync Framing Dm Expiry File Text Savename Sticker FileTransfer.

#[local] Opaque CHUNK_SIZE.

Section opening.
Context `{CryptoLaws, Bincode EventContent, Bincode Event, FileCodecs, Base64, ImageCodec}.
Context (event_struct_size : N).

(** The chunks of [data], by index. *)
Definition pieces (data : bytes) : list bytes :=
  (λ j, piece (N.to_nat CHUNK_SIZE) j data) <$>
    List.seq 0 (N.to_nat (chunk_count_for (N.of_nat (length data)))).

Lemma pieces_split data :
  (N.of_nat (length data) ≤ max_chunked)%N → pieces data = split_chunks data.
Proof.
  intros Hd. apply list_eq. intros i. unfold pieces. rewrite list_lookup_fmap.
  destruct (decide (i < N.to_nat (chunk_count_for (N.of_nat (length data))))) as [Hi|Hi].
  - rewrite lookup_seq_lt by done. cbn [fmap option_fmap option_map].
    by rewrite split_chunks_lookup.
  - rewrite lookup_seq_ge by lia. cbn [fmap option_fmap option_map]. symmetry.
    apply lookup_ge_None_2. rewrite length_split_chunks by done. lia.
Qed.

Lemma chunk_hashes_lookup n data j :
  j < n → chunk_hashes n data !! j = Some (chunk_hash (piece (N.to_nat CHUNK_SIZE) j data)).
Proof. intros Hj. unfold chunk_hashes. by rewrite list_lookup_fmap, lookup_seq_lt. Qed.

Lemma length_piece n j (l : bytes) : length (piece n j l) = n `min` (length l - j * n).
Proof. unfold piece. by rewrite length_take, length_drop. Qed.

(** The last chunk starts before the end of the file. *)
Lemma chunk_starts (data : bytes) j :
  (N.of_nat (length data) ≤ max_chunked)%N →
  j < N.to_nat (chunk_count_for (N.of_nat (length data))) →
  (N.of_nat j * CHUNK_SIZE ≤ N.of_nat (length data))%N.
Proof.
  intros Hd Hj. destruct (decide (length data = 0)) as [Hz|Hz].
  - rewrite Hz in *. unfold chunk_count_for in Hj. rewrite decide_True in Hj by done. lia.
  - rewrite chunk_count_for_ceil in Hj by lia.
    apply N.lt_le_incl, div_ceil_lt; [rewrite CHUNK_SIZE_value; done|lia].
Qed.

(** The manifest staging returns. *)
Definition staged_manifest (io : StageIo) (name mime : bytes) (kind : FileKind) (compact : bool)
    (data : bytes) : FileManifestV3 :=
  let n := chunk_count_for (N.of_nat (length data)) in
  MkManifestV3
    (MkManifestV2 name (N.of_nat (length data)) mime (file_checksum data) (st_key io) (st_nonce io)
       (st_conv io) CHUNK_SIZE n (if compact then [] else chunk_hashes (N.to_nat n) data)) kind.

Lemma outgoing_staged io name mime kind compact data :
  (N.of_nat (length data) ≤ max_chunked)%N →
  outgoing_manifest (staged_manifest io name mime kind compact data) =
  if compact then V4 (MkManifestV4 (staged_manifest io name mime kind true data))
  else V3 (staged_manifest io name mime kind false data).
Proof.
  intros Hd. unfold outgoing_manifest, staged_manifest. cbn [m3_v2 m2_chunk_hashes].
  destruct compact; [by rewrite decide_True|]. rewrite decide_False; [done|].
  intros E%(f_equal length). unfold chunk_hashes in E.
  rewrite length_fmap, length_seq in E. cbn [length] in E.
  unfold chunk_count_for in E. case_decide as Hz; [cbn in E; lia|].
  pose proof (chunk_count_for_ceil (N.of_nat (length data)) ltac:(lia)) as Hc.
  unfold chunk_count_for in Hc. rewrite decide_False in Hc by done. rewrite Hc in E.
  assert (0 < div_ceil (N.of_nat (length data)) CHUNK_SIZE)%N; [|lia].
  apply div_ceil_lt; [by rewrite CHUNK_SIZE_value|lia].
Qed.

(** One staged chunk opens under the announced manifest. *)
Lemma open_staged io name mime kind compact data j ct :
  length (st_key io) = 32 → length (st_nonce io) = 8 →
  (N.of_nat (length data) ≤ max_chunked)%N →
  j < N.to_nat (chunk_count_for (N.of_nat (length data))) →
  seal_chunk_indexed (st_key io) (st_nonce io) (N.of_nat j) (piece (N.to_nat CHUNK_SIZE) j data) = Ok ct →
  open_chunk_for (outgoing_manifest (staged_manifest io name mime kind compact data)) (N.of_nat j) ct =
    Ok (piece (N.to_nat CHUNK_SIZE) j data).
Proof.
  intros Hk Hn Hd Hj Hct.
  destruct (seal_open_indexed (st_key io) (st_nonce io) (N.of_nat j)
    (piece (N.to_nat CHUNK_SIZE) j data)) as (ct' & Hct' & _ & Hopen); [done|done| |].
  { rewrite length_piece, CHUNK_SIZE_value. unfold aead_max. lia. }
  rewrite Hct in Hct'. injection Hct' as <-. rewrite outgoing_staged by done.
  pose proof (chunk_starts data j Hd Hj) as Hstart. destruct compact; cbn [open_chunk_for].
  - cbn [staged_manifest m4_v3 m3_v2 m2_chunk_count m2_file_key m2_file_nonce m2_chunk_size m2_size].
    rewrite decide_False by lia. rewrite Hopen. simpl_bind. rewrite decide_False by lia.
    rewrite decide_False; [done|]. intros Hne. apply Hne. rewrite length_piece. lia.
  - unfold open_chunk_v2.
    cbn [staged_manifest m3_v2 m2_file_key m2_file_nonce m2_chunk_hashes].
    rewrite Hopen. simpl_bind. rewrite Nat2N.id, chunk_hashes_lookup by done. simpl_bind.
    by rewrite decide_True.
Qed.

(** The read budget covers every chunk. *)
Definition readable (es : list Event) : Prop :=
  Forall (λ e, encoded_event_size e * 3 + event_struct_size ≤ EVENT_BYTES)%N es.

Lemma staged_opens io name mime kind compact data es :
  length (st_key io) = 32 → length (st_nonce io) = 8 →
  (N.of_nat (length data) ≤ max_chunked)%N →
  length es = N.to_nat (chunk_count_for (N.of_nat (length data))) →
  staged io 0 es data → readable es →
  opens event_struct_size (outgoing_manifest (staged_manifest io name mime kind compact data)) 0 es
    (pieces data).
Proof.
  intros Hk Hn Hd Hlen Hst Hrd. apply opens_intro.
  { unfold pieces. by rewrite length_fmap, length_seq. }
  intros j e p He Hp. destruct (Hst j e He) as [Hm Hseal]. rewrite N.add_0_l in *.
  unfold pieces in Hp. rewrite list_lookup_fmap, lookup_seq_lt in Hp
    by (rewrite <-Hlen; by eapply lookup_lt_Some).
  injection Hp as <-. exists (Event.ciphertext e). split.
  - unfold chunk_ciphertext. unfold readable in Hrd. rewrite Forall_lookup in Hrd.
    specialize (Hrd _ _ He). rewrite decide_False by lia. by rewrite decide_False by (by intros ?).
  - apply open_staged; try done. rewrite <-Hlen. by eapply lookup_lt_Some.
Qed.
End opening.

(** ** The announced manifest is admitted *)

Lemma max_file_chunked : (MAX_FILE_SIZE ≤ max_chunked)%N.
Proof. unfold max_chunked, MAX_FILE_SIZE, u32_max. rewrite CHUNK_SIZE_value. lia. Qed.

Lemma chunk_count_max size :
  (size ≤ max_chunked)%N → chunk_count_for size = N.max (div_ceil size CHUNK_SIZE) 1.
Proof.
  intros Hs. destruct (decide (size = 0%N)) as [->|Hz]; [by rewrite CHUNK_SIZE_value|].
  rewrite chunk_count_for_ceil by lia.
  assert (0 < div_ceil size CHUNK_SIZE)%N; [|lia].
  apply div_ceil_lt; [by rewrite CHUNK_SIZE_value|lia].
Qed.

Lemma chunk_count_width size : (size ≤ max_chunked → 0 < chunk_count_for size ≤ u32_max)%N.
Proof.
  intros Hs. rewrite chunk_count_max by done.
  assert (div_ceil size CHUNK_SIZE ≤ u32_max)%N; [|unfold u32_max in *; lia].
  apply div_ceil_le; [by rewrite CHUNK_SIZE_value|done].
Qed.

Lemma mime_wf name : string_wf (mime_from_name name).
Proof.
  unfold mime_from_name. destruct (list_find _ _) as [[i row]|] eqn:E; [|by_evaluation].
  apply list_find_Some in E as (Hi & _ & _). apply list_elem_of_lookup_2 in Hi.
  assert (Forall (λ row, string_wf (str row.2)) mime_table) as Hall by by_evaluation.
  rewrite Forall_forall in Hall. by apply Hall.
Qed.

Section admitted.
Context `{CryptoLaws, FileCodecsLaws, Base64, ImageCodec}.

Lemma staged_manifest_wf io name kind compact data :
  length (st_key io) = 32 → length (st_nonce io) = 8 → length (st_conv io) = 32 →
  string_wf name → (N.of_nat (length data) ≤ MAX_FILE_SIZE)%N →
  type_wf (staged_manifest io name (mime_from_name name) kind compact data).
Proof.
  intros Hk Hn Hc Hname Hd. pose proof max_file_chunked as Hmax.
  pose proof (chunk_count_width (N.of_nat (length data)) ltac:(lia)) as [_ Hcnt].
  pose proof (mime_wf name) as Hmime. unfold MAX_FILE_SIZE in Hd.
  unfold type_wf, FileManifestV3_wf, type_wf, FileManifestV2_wf. cbn [staged_manifest m3_v2 m2_name
    m2_size m2_mime m2_checksum m2_file_key m2_file_nonce m2_file_conv m2_chunk_size m2_chunk_count
    m2_chunk_hashes]. unfold u64_max, u32_max, file_checksum in *.
  split_and!; try done; try lia; try apply sha256_length.
  - destruct compact; [done|]. unfold chunk_hashes. rewrite length_fmap, length_seq. lia.
  - destruct compact; [constructor|]. unfold chunk_hashes. apply Forall_fmap, Forall_true.
    intros j. apply sha256_length.
Qed.

Lemma staged_manifest_admitted io name kind compact data :
  length (st_key io) = 32 → length (st_nonce io) = 8 → length (st_conv io) = 32 →
  string_wf name → (N.of_nat (length data) ≤ MAX_FILE_SIZE)%N →
  is_sticker_name name = false →
  let m := staged_manifest io name (mime_from_name name) kind compact data in
  (N.of_nat (length (outgoing_manifest_bytes m)) ≤ MAX_PLAINTEXT)%N →
  validated_manifest (outgoing_manifest_bytes m) = Some (outgoing_manifest m).
Proof.
  intros Hk Hn Hc Hname Hd Hst m Hlen. pose proof max_file_chunked as Hmax.
  pose proof (chunk_count_width (N.of_nat (length data)) ltac:(lia)) as [Hcnt _].
  pose proof (staged_manifest_wf io name kind compact data Hk Hn Hc Hname Hd) as Hwf. fold m in Hwf.
  assert (split (outgoing_manifest_bytes m) = Some (None, outgoing_manifest_bytes m) ∧
    decode_validated (outgoing_manifest_bytes m) = Some (outgoing_manifest m)) as [Hs Hdec].
  { unfold outgoing_manifest_bytes, outgoing_manifest, decode_validated. case_decide.
    - split; [apply split_unframed, magic_starts; [cbn; lia|done]|].
      unfold v4_encode. rewrite magic_starts, strip_prefix_app by (cbn; lia || done).
      by rewrite de_ser.
    - split; [apply split_unframed, magic_starts; [cbn; lia|done]|].
      unfold v3_encode. rewrite magic_starts, magic_clash, strip_prefix_app by (cbn; lia || done).
      by rewrite de_ser. }
  unfold validated_manifest. rewrite Hs. simpl_bind. rewrite decide_False by lia. rewrite Hdec. simpl_bind.
  unfold m. rewrite outgoing_staged by lia.
  assert (chunks_refused (m3_v2 m) = false) as Hchunks.
  { unfold chunks_refused, m. cbn [staged_manifest m3_v2 m2_chunk_size m2_chunk_count m2_size].
    rewrite !bool_decide_eq_false_2; [done| |lia|by rewrite CHUNK_SIZE_value].
    intros Hne. apply Hne, chunk_count_max. lia. }
  destruct compact; cbn [protection any_size any_chunk_count any_name any_mime any_kind unprotected
    shape_refused staged_manifest m4_v3 m3_v2 m2_size m2_name m2_chunk_count m2_chunk_hashes m3_kind];
    rewrite (bool_decide_eq_false_2 (is_Some None)) by (by intros []); cbn [andb];
    rewrite !(bool_decide_eq_false_2 (_ < _)%N), (bool_decide_eq_false_2 (_ = 0%N)) by lia;
    cbn [orb]; rewrite Hst; cbn [andb]; unfold shape_refused; cbn [unprotected];
    unfold m, staged_manifest in Hchunks; cbn [m3_v2] in Hchunks; unfold staged_manifest;
    rewrite Hchunks; cbn [orb m2_chunk_hashes m2_chunk_count].
  - done.
  - unfold chunk_hashes. rewrite length_fmap, length_seq.
    by rewrite bool_decide_eq_false_2 by (intros Hne; by apply Hne).
Qed.
End admitted.

(** ** Delivery *)

(** The manifest whose size decides between the two formats. *)
Definition prospective_manifest (name : bytes) (size : N) (kind : FileKind) : FileManifestV3 :=
  MkManifestV3
    (MkManifestV2 name size (mime_from_name name) (repeat Byte.x00 32) (repeat Byte.x00 32)
       (repeat Byte.x00 8) (repeat Byte.x00 32) CHUNK_SIZE (chunk_count_for size) []) kind.

Section delivery.
Context `{CryptoLaws, Bincode EventContent, Bincode Event, Bincode SealedEnvelope, WireSizes}.
Context `{FileCodecs, !FileCodecsLaws, Base64, ImageCodec}.
Context (event_struct_size : N).
Implicit Types (l lr : EventLog).

Lemma no_events_conv l conv :
  log_inv l → events_of l conv = [] → ∀ i e, events l !! i = Some e → conversation_id e ≠ conv.
Proof.
  intros Hinv Hnil i e He Hc. assert (e ∈ events_of l conv) as Hin.
  { apply elem_of_events_of; [done|]. destruct (inv_valid l Hinv i e He) as [-> _]. done. }
  rewrite Hnil in Hin. by apply not_elem_of_nil in Hin.
Qed.

Lemma fresh_counters l conv d :
  log_inv l → events_of l conv = [] → counters_below l conv d 0.
Proof.
  intros Hinv Hnil. pose proof (no_events_conv l conv Hinv Hnil) as Hno. split.
  - pose proof (inv_lamport l Hinv conv) as Hs. destruct (max_lamport l !! conv) as [n|]; [|cbn; lia].
    destruct Hs as [(i & e & He & Hc & _) _]. by apply Hno in He.
  - rewrite version_slot. pose proof (inv_version l Hinv conv (ed25519_pub (public d))) as Hs.
    destruct (default ∅ (version l !! conv) !! _) as [n|]; [|cbn; lia].
    destruct Hs as [(i & e & He & Hc & _) _]. by apply Hno in He.
Qed.

(** The receiver ends with the sender's chunk events. *)
Lemma chunks_synchronized l lr conv :
  log_inv l → log_inv lr → events_of lr conv = [] →
  (∀ e, e ∈ events_of l conv → events lr !! id e = None) → fits (events l) conv →
  let '(_, lr', r) := reconcile l lr conv in
  is_ok r = true ∧ log_inv lr' ∧ events_of lr' conv = events_of l conv.
Proof.
  intros I1 I2 Hnil Hids F1. pose proof (no_events_conv lr conv I2 Hnil) as Hno.
  assert (compatible (events l) (events lr) conv) as C12.
  { split; intros; exfalso; by eapply Hno. }
  assert (compatible (events lr) (events l) conv) as C21.
  { split.
    - intros i e1 e2 He1 He2 Hc. destruct (inv_valid l I1 i e2 He2) as [<- _].
      rewrite Hids in He1; [done|]. by apply elem_of_events_of.
    - intros i1 i2 e1 e2 He1 He2 Hc [Hs _]. exfalso. apply (Hno i1 e1 He1). congruence. }
  assert (fits (events lr) conv) as F2.
  { unfold fits. rewrite (proj2 (filter_nil_iff _ _)); [cbn; unfold SYNC_MARGIN, usize_max, u64_max; lia|].
    intros e (k & -> & Hk)%list_elem_of_fmap. destruct k as [i e].
    apply elem_of_map_to_list in Hk. by eapply Hno. }
  destruct (reconcile_spec (A:=EventLog) (B:=EventLog) l lr conv)
    as (l1' & l2' & n1 & n2 & -> & I1' & I2' & H1' & H2'); [done..|].
  cbn [stored EventLog_SyncStoreLaws sync_inv] in *. split_and!; [done|done|].
  symmetry. apply events_of_unique; [done|by apply events_of_sorted|]. intros e.
  rewrite elem_of_events_of, H2' by done. split; [naive_solver|].
  intros [[He|[He _]] Hc]; [by apply Hno in He|done].
Qed.

(** The whole of staging, for a file whose metadata tells its length. *)
Lemma stage_file_spec env d io l name kind data script compact :
  log_inv l → type_wf d → quiet env (st_conv io) → events_of l (st_conv io) = [] →
  length (st_key io) = 32 → length (st_nonce io) = 8 → (∀ i, st_closed io i = false) →
  st_metadata io = Ok (N.of_nat (length data)) → st_open io = Ok (MkReader data script) →
  no_failures script → (N.of_nat (length data) ≤ MAX_FILE_SIZE)%N →
  compact_manifest_needed d (prospective_manifest name (N.of_nat (length data)) kind) = Ok compact →
  let '(l', r) := stage_regular_file env d io l (Some name) kind None in
  r = Ok (staged_manifest io name (mime_from_name name) kind compact data, st_conv io) ∧ log_inv l' ∧
  (N.of_nat (length (events_of l' (st_conv io))) = chunk_count_for (N.of_nat (length data)) →
   staged io 0 (events_of l' (st_conv io)) data).
Proof.
  intros Hinv Hd Henv Hnil Hk Hn Hopen Hmeta Hop Hs Hsize Hcomp. unfold stage_regular_file.
  rewrite Hmeta. rewrite decide_False by lia. unfold prospective_manifest in Hcomp.
  cbn [from_option]. unfold Datatypes.id. rewrite Hcomp, Hop. pose proof max_file_chunked as Hmax.
  pose proof (chunk_count_width (N.of_nat (length data)) ltac:(lia)) as [_ Hw].
  destruct (stage_loop_spec env d io Henv Hd Hk Hn Hopen compact
    (N.to_nat (chunk_count_for (N.of_nat (length data)))) 0 l data script [] [])
    as (l' & -> & Hinv' & Hle & Hall); [done|done|by apply fresh_counters| |].
  { unfold u32_max, u64_max in *. lia. }
  rewrite Hnil in Hle, Hall. cbn [length app] in *. split_and!; [|done|].
  - unfold staged_manifest. do 4 f_equal. rewrite take_ge; [done|].
    assert (∀ L : list nat, length (concat ((λ j, piece (N.to_nat CHUNK_SIZE) j data) <$> L)) ≤
      length L * N.to_nat CHUNK_SIZE) as Hlen.
    { intros L. induction L as [|j L IH]; [done|]. cbn [fmap list_fmap concat length].
      rewrite length_app, length_piece. lia. }
    specialize (Hlen (List.seq 0 (N.to_nat (chunk_count_for (N.of_nat (length data)))))).
    fold (pieces data) in Hlen. by rewrite pieces_split, split_chunks_concat, length_seq in Hlen by lia.
  - intros Heq. destruct Hall as (es & Hes & _ & Hst); [lia|]. by rewrite Hes.
Qed.

(** A save during which no file operation fails. *)
Definition no_faults : SaveIo := MkSaveIo None (λ _, None) None None None None.

(** Chunks that open to the pieces of [data] read and save as [data]. *)
Lemma delivered_content io name kind compact data lr' es :
  let m := outgoing_manifest (staged_manifest io name (mime_from_name name) kind compact data) in
  (N.of_nat (length data) ≤ MAX_FILE_SIZE)%N → is_sticker_name name = false →
  chunk_ids lr' (st_conv io) = es → N.of_nat (length es) = chunk_count_for (N.of_nat (length data)) →
  opens event_struct_size m 0 es (pieces data) → concat (pieces data) = data →
  ((N.of_nat (length data) ≤ MAX_INLINE_MEDIA_BYTES)%N →
    read_file event_struct_size lr' false (Some m) (st_conv io) = Ok data) ∧
  ∀ fs dest, save_file event_struct_size (MkSaveEnv (Ok ()) (Ok None) (Ok ()) (Ok ()))
      no_faults fs lr' false (Some m) (st_conv io) dest =
    (<[dest := data]> (delete (part_path dest) fs), Ok ()).
Proof.
  intros m Hsize Hst Hids Hcnt Hopens Hcat. pose proof max_file_chunked as Hmax.
  assert (any_size m = N.of_nat (length data) ∧ any_chunk_count m = chunk_count_for (N.of_nat (length data)) ∧
    any_checksum m = file_checksum data ∧ any_name m = name ∧ protection m = None ∧
    match unprotected m with V1 _ => true | _ => false end = false) as (Hs & Hc & Hk & Hn & Hp & Hl).
  { unfold m. rewrite outgoing_staged by lia. by destruct compact. }
  split.
  - intros Hin. unfold read_file, reject_protected_file. rewrite Hp. simpl_bind.
    unfold read_file_internal. simpl_bind. rewrite decide_False by lia. rewrite Hids.
    rewrite decide_False by (intros Hne; apply Hne; by rewrite Hc).
    rewrite (read_loop_complete event_struct_size m es (pieces data)) by (done || (cbn [app]; rewrite Hcat; lia)).
    simpl_bind. cbn [app]. rewrite Hcat, Hs, Hk. rewrite !decide_False by (intros Hne; by apply Hne).
    unfold sticker_validate. by rewrite Hn, Hst.
  - intros fs dest. unfold save_file, reject_protected_file. rewrite Hp.
    unfold save_file_progress_inner. cbn [se_candidates se_personal se_commit]. rewrite Hids.
    rewrite decide_False by (intros Hne; apply Hne; by rewrite Hc).
    unfold save_verified. cbn [no_faults io_create io_flush io_sync io_rename io_step]. simpl_bind.
    fold no_faults.
    pose proof (save_chunks_complete event_struct_size no_faults m es (pieces data) 0 []
      (λ _, eq_refl) Hopens ltac:(rewrite Hs; unfold MAX_FILE_SIZE, u64_max in *; lia)
      ltac:(cbn [app]; rewrite Hcat; lia)) as Hsave.
    change (N.of_nat (length [])) with 0%N in Hsave. rewrite Hsave. simpl_bind. cbn [app]. rewrite Hcat, Hs.
    rewrite decide_False by (intros Hne; by apply Hne). rewrite Hk.
    rewrite decide_False by (intros Hne; by apply Hne). cbn [publish io_sync_parent io_step].
    simpl_bind. by rewrite Hl.
Qed.

End delivery.

(** A short file, read in three pieces with an interruption between them. *)
Module DeliveryWitness.
Import ToyCrypto EventCodec EventWitness DmCodec FileCodec.

#[export] Instance toy_sizes : WireSizes := {|
  response_size r := N.of_nat (44 + length (resp_events r ≫= ser) + 32 * length (resp_have r));
  followup_size f := N.of_nat (44 + length (fu_events f ≫= ser))
|}.

#[export] Instance toy_base64 : Base64 := {| b64_encode := hex_encode; b64_decode _ := None |}.

#[export] Instance toy_images : ImageCodec := {|
  guess_format _ := Err (str "unknown"); open_decoder _ _ := Err (str "unknown")
|}.

Definition content : bytes := str "notes of the day".
Definition file : ConversationId := repeat Byte.x0f 32.
Definition node : AppendEnv := MkAppendEnv (λ _, false) [] (λ l, (l, Ok ())) (Ok ()) (Ok ()).
Definition pieces_read : list ReadStep := [Short 5; Interrupted; Short 3].
Definition staging : StageIo :=
  MkStageIo (repeat Byte.x11 32) (repeat Byte.x12 8) file (λ i, (100 + i)%N) (λ _, false)
    (Ok 16%N) (Ok (MkReader content pieces_read)).

Definition sent : EventLog * result NodeError (FileManifestV3 * ConversationId) :=
  stage_regular_file node alice staging empty_log (Some (str "notes.txt")) File None.

Lemma sent_facts :
  (N.of_nat (length (events_of sent.1 file)) = chunk_count_for (N.of_nat (length content))) ∧
  fits (events sent.1) file ∧ readable 256 (events_of sent.1 file).
Proof.
  split_and!; [by vm_compute|by vm_compute|]. unfold readable. apply (bool_decide_unpack _).
  by vm_compute.
Qed.

End DeliveryWitness.
