(* ===== verification/Election.v ===== *)
(** * Post-office election and safety numbers

    Models crates/mesh-talk-core/src/postoffice/election.rs and util/safety_number.rs. *)

From S2P Require Import Prelude Crypto Identity File Text.

(** ** postoffice/election.rs *)

Section election.
Context `{Crypto}.
Implicit Types (p me : PublicIdentity) (eligible : list PublicIdentity).

(** [min_by_key]: the first of the least. *)
Definition elect eligible : option PublicIdentity :=
  foldl (λ best p, match best with
                   | None => Some p
                   | Some b => if decide (clt (user_id p) (user_id b)) then Some p else best
                   end) None eligible.

Definition is_post_office me eligible : bool := bool_decide (elect eligible = Some me).

Lemma elect_from eligible b :
  ∃ w, foldl (λ best p, match best with
                   | None => Some p
                   | Some b => if decide (clt (user_id p) (user_id b)) then Some p else best
                   end) (Some b) eligible = Some w ∧
    w ∈ b :: eligible ∧ ∀ p, p ∈ b :: eligible → cle (user_id w) (user_id p).
Proof.
  revert b. induction eligible as [|p eligible IH]; intros b; cbn [foldl].
  - exists b. split; [done|]. split; [set_solver|]. intros p ->%list_elem_of_singleton. done.
  - case_decide as Hlt.
    + destruct (IH p) as (w & -> & Hw & Hmin). exists w. split; [done|]. split; [set_solver|].
      intros x [->|Hx]%elem_of_cons; [|by apply Hmin].
      transitivity (user_id p); [by apply Hmin; set_solver|by apply clt_cle].
    + destruct (IH b) as (w & -> & Hw & Hmin). exists w. split; [done|]. split; [set_solver|].
      intros x [->|[->|Hx]%elem_of_cons]%elem_of_cons; [by apply Hmin; set_solver| |by apply Hmin; set_solver].
      transitivity (user_id b); [by apply Hmin; set_solver|].
      destruct (clt_total (user_id b) (user_id p)) as [Hc|[->|Hc]]; [by apply clt_cle|done|done].
Qed.

(** The elected office is eligible and has the least fingerprint; somebody is elected
    whenever somebody is eligible. *)
Lemma elect_least eligible :
  match elect eligible with
  | None => eligible = []
  | Some w => w ∈ eligible ∧ ∀ p, p ∈ eligible → cle (user_id w) (user_id p)
  end.
Proof.
  unfold elect. destruct eligible as [|b eligible]; [done|]. cbn [foldl].
  by destruct (elect_from eligible b) as (w & -> & Hw & Hmin).
Qed.

(** Everybody elects the same office from the same peers, in whatever order and with
    whatever repetitions each lists them: exactly one peer takes itself for it. *)
Lemma election_agrees eligible1 eligible2 :
  (∀ p, p ∈ eligible1 ↔ p ∈ eligible2) →
  (∀ p q, p ∈ eligible1 → q ∈ eligible1 → user_id p = user_id q → p = q) →
  elect eligible1 = elect eligible2 ∧
  (eligible1 ≠ [] → ∃ w, ∀ me, is_post_office me eligible2 = true ↔ me = w).
Proof.
  intros Hsame Hinj. pose proof (elect_least eligible1) as H1'. pose proof (elect_least eligible2) as H2'.
  assert (elect eligible1 = elect eligible2) as Heq.
  { destruct (elect eligible1) as [w1|], (elect eligible2) as [w2|]; [|subst; set_solver..|done].
    destruct H1' as [Hw1 Hm1], H2' as [Hw2 Hm2]. f_equal. apply Hinj; [done|by apply Hsame|].
    apply (anti_symm cle); [by apply Hm1, Hsame|by apply Hm2, Hsame]. }
  split; [done|]. intros Hne. rewrite Heq in H1'.
  destruct (elect eligible2) as [w|] eqn:He; [|done]. exists w. intros me. unfold is_post_office.
  rewrite He, bool_decide_eq_true. naive_solver.
Qed.
End election.

(** ** util/safety_number.rs *)

Definition WORDS : list bytes :=
  str <$> ["alpha"; "bravo"; "cedar"; "delta"; "ember"; "falcon"; "grove"; "harbor"; "indigo"; "jasmine";
    "koala"; "lemon"; "maple"; "nectar"; "ocean"; "pepper"; "quartz"; "raven"; "sierra"; "tiger";
    "umber"; "violet"; "willow"; "xenon"; "yarrow"; "zephyr"; "amber"; "basil"; "coral"; "dune";
    "echo"; "frost"]%string.

(** Characters of the fingerprint, from index [i] on. *)
Fixpoint grouped_from (i : nat) (cs : list N) : list N :=
  match cs with
  | [] => []
  | c :: cs =>
      (if bool_decide (0 < i) && bool_decide (i mod 5 = 0) then [32%N] else []) ++
      c :: grouped_from (S i) cs
  end.

Definition grouped (fingerprint : bytes) : bytes := encode_str (grouped_from 0 (chars fingerprint)).

(** [char::to_digit(16)]. *)
Definition hex_digit (c : N) : option N :=
  if decide (48 ≤ c ≤ 57)%N then Some (c - 48)%N
  else if decide (97 ≤ c ≤ 102)%N then Some (c - 87)%N
  else if decide (65 ≤ c ≤ 70)%N then Some (c - 55)%N
  else None.

Definition nibble_bits (nibble : N) : list bool := N.testbit nibble <$> [3; 2; 1; 0]%N.

Definition bit_stream (cs : list N) : list bool :=
  cs ≫= λ c, match hex_digit c with Some n => nibble_bits n | None => [] end.

Definition word_index (chunk : list bool) : nat :=
  foldl (λ acc (b : bool), 2 * acc + if b then 1 else 0) 0 chunk.

Fixpoint take_words (groups : list (list bool)) (count : nat) : list bytes :=
  match groups, count with
  | chunk :: groups, S count =>
      if decide (length chunk < 5) then []
      else default [] (WORDS !! word_index chunk) :: take_words groups count
  | _, _ => []
  end.

Definition words (fingerprint : bytes) (count : nat) : list bytes :=
  take_words (chunks 5 (bit_stream (chars fingerprint))) count.

(** Stripping the spaces recovers a fingerprint that has none. *)
Lemma grouped_strip i cs :
  32%N ∉ cs → filter (λ c, c ≠ 32%N) (grouped_from i cs) = cs.
Proof.
  revert i. induction cs as [|c cs IH]; intros i Hc; cbn [grouped_from]; [done|].
  rewrite filter_app. assert (filter (λ c, c ≠ 32%N)
    (if bool_decide (0 < i) && bool_decide (i mod 5 = 0) then [32%N] else []) = []) as -> by (by destruct (_ && _)).
  cbn [app]. rewrite filter_cons_True by set_solver. by rewrite IH by set_solver.
Qed.

Lemma grouped_scalar i cs : Forall scalar cs → Forall scalar (grouped_from i cs).
Proof.
  intros Hc. revert i. induction Hc as [|c cs Hc Hcs IH]; intros i; cbn [grouped_from]; [done|].
  apply Forall_app. split; [|by constructor]. destruct (_ && _); [|done]. constructor; [|done]. left. by vm_compute.
Qed.

(** The grouping loses nothing: two fingerprints that read the same are the same. *)
Lemma grouped_exact a b :
  utf8 a → utf8 b → 32%N ∉ chars a → 32%N ∉ chars b → grouped a = grouped b → a = b.
Proof.
  intros (ca & Ha & ->) (cb & Hb & ->). unfold grouped. rewrite !chars_encode by done.
  intros Hna Hnb Hg%(f_equal chars). rewrite !chars_encode in Hg by (by apply grouped_scalar).
  apply (f_equal (filter (λ c, c ≠ 32%N))) in Hg. rewrite !grouped_strip in Hg by done. by subst.
Qed.

(** Every group of five bits names a word: indices stay within the list. *)
Lemma word_index_bound chunk : length chunk = 5 → word_index chunk < length WORDS.
Proof.
  intros Hl. destruct chunk as [|b1 [|b2 [|b3 [|b4 [|b5 [|]]]]]]; try done.
  by destruct b1, b2, b3, b4, b5; vm_compute; lia.
Qed.
